(* ===== verification/_CoqProject ===== *)
-Q . S2P
Prelude.v
GoHeap.v
MessagePQ.v
Multicast.v
MulticastProps.v
IsisSpec.v
MulticastNet.v
MulticastOrder.v
Ledger.v
MulticastReplicas.v
MulticastLiveness.v
GoStrings.v
Node.v
TxLocks.v
TxServer.v
TxSpec.v
TxProps.v
TxTheorems.v
TxCoord.v
TxCoordProps.v
TxParse.v
TxClient.v
TxSystem.v
TxSerial.v
TxSystemProps.v
LabGob.v
LabRpc.v
RaftNode.v
RaftWire.v
RaftProps.v
RaftTheorems.v
RaftNet.v
RaftCluster.v
RaftMatching.v
RaftChannels.v
RaftQuorum.v
RaftSafety.v
RaftProgress.v
RaftTraces.v
RaftChecker.v
RaftNames.v
RaftConfig.v
