(* ===== verification/Prelude.v ===== *)
(** * A verification of dist-sys-demos

    The repository holds three Go programs.

    - [multicast-demo]: nodes that exchange bank transactions over TCP by the
      ISIS total-order multicast and apply them to a local ledger.
    - [transactions-demo]: a bank whose accounts are partitioned over branches;
      clients run distributed transactions with strict two-phase locking in
      each branch and two-phase commit among the branches.
    - [raft-demo]: the Raft consensus algorithm on a simulated network.

    ** How the files follow the code

    Shared:
    - [Prelude]: the outcome of Go code ([Ret], [Crash], [Block]) and its monad,
      64-bit integers, [float64] conversion, slices.
    - [GoHeap]: [container/heap] over the class [HeapInterface]; the class
      [HeapLaws] is what an implementation owes, and the theorems of the
      library are proved against it.
    - [GoStrings]: [strings.Split], [TrimSuffix], lines, [strconv.Atoi].

    [multicast-demo]:
    - [MessagePQ] ([types/message.go], [types/priority_queue.go]): the queue,
      as an instance of [HeapInterface], [Update], [Remove], [FindById].
    - [Multicast] ([types/multicast.go]): the state of a node and one iteration
      of the loop of [ISIS] ([ISIS_step]), cut into the failure scan
      ([failScan]) and the branches [ISIS_i], [ISIS_pf], [ISIS_p], [ISIS_a];
      [Cast], [Deliver].
    - [MulticastProps]: theorems on one node.
    - [MulticastNet] ([types/node.go], [types/multicast.go]): several nodes,
      their goroutines and FIFO connections that can fail; an [event] is a step.
    - [IsisSpec]: the protocol as an abstract machine of proposals, channels and
      deliveries, with the invariant that gives the total order.
    - [MulticastOrder]: the network refines that machine ([sim]).
    - [MulticastReplicas]: total order and, with [Ledger], replicated ledgers.
    - [MulticastLiveness]: the network comes to rest with everything delivered;
      a run of three nodes, at which the theorems are applied.
    - [Ledger] ([types/application.go]): deposits, transfers, printing.
    - [Node] ([types/node.go], [main.go], [utils/errorUtil.go]): configuration,
      start-up ([Run]) and input lines ([parse_tx]).

    [transactions-demo]:
    - [TxLocks] ([server/account.go]): the table of locks, caches and accounts;
      [AcquireRWLock], [Balance], [Deposit], [Withdraw], [releaseLocks].
    - [TxServer] ([server/rpc.go]): [ForwardCmd], [Prepare], [Commit], and a
      participant with the calls in progress; [step] runs one event.
      [disciplined] is what client and coordinator guarantee: one command of a
      transaction at a time, [Commit] with true only after [Prepare] said so.
    - [TxSpec]: the abstract bank without locks, caches or deltas.
    - [TxProps], [TxTheorems]: the invariant of the runs, and the theorems.
    - [TxCoord] ([server/rpc.go], [server/server.go]): [SendCoord],
      [TwoPhaseCommit], [DoAbort], the clean-up goroutine, [readFile], [Start].
    - [TxCoordProps]: two-phase commit over the participants of [TxServer].
    - [TxParse]: what the coordinator makes of a line, and configuration files.
    - [TxClient] ([client/client.go]): [readConfig], and the session: [submit] and
      [finished] are the two halves of a turn of [processTransaction].
    - [TxSystem]: clients, coordinators and participants as one system; a
      [session] is a client with what its transaction has on its way, and an
      [sevent] moves one message or runs one call.  Its [exec] calls [submit],
      [SendCoord], [TwoPhaseCommit], [DoAbort] and the [step] of [TxServer].
    - [TxSerial]: the commits of all branches follow the order in which the
      coordinators decide ([decision], [histories]).
    - [TxSystemProps]: a commit ends; executions of a bank of two branches.

    [raft-demo]:
    - [LabGob] ([labgob/labgob.go]): [checkType] on type descriptors,
      [checkDefault] on values, [Encode], [Decode], [Register].
    - [LabRpc] ([labrpc/labrpc.go]): [Network], [Server], [Service]; a call is
      the phases of its three goroutines, and an event is a step of one.  What
      it needs of the encoder is the class [Codec].
    - [RaftWire]: the RPC structs as values of [LabGob].
    - [RaftNode] ([raft/raft.go], [raft/rpc.go], [raft/util.go]): the state of a
      server, one definition per critical section.
    - [RaftProps], [RaftTheorems]: the theorems on one server.
    - [RaftNet]: a cluster; goroutines, timers and messages in flight are
      tasks, and an event runs one critical section of one task ([toFollower],
      [toCandidate], [startElection], [toLeader], [handleReply]).
    - [RaftCluster]: invariants of every reachable cluster.
    - [RaftMatching]: the logs in runs whose terms have one leader each ([led]).
    - [RaftChannels]: no two leaders share a channel of replies.
    - [RaftQuorum]: [orderly] runs; the record of a run (who held which log of a
      leader, who voted for whom), and what a majority that holds an entry means
      for later elections.
    - [RaftSafety]: the record is kept along every orderly run.
    - [RaftProgress]: the exchanges of a leader with its followers, and what they
      achieve in an orderly run.
    - [RaftTraces]: executions that go wrong, and the concrete inputs at which
      the theorems on Raft are applied.
    - [RaftChecker] ([raft/config.go]): the apply checker of [start1],
      [nCommitted], [checkOneLeader], [checkTerms], [checkNoLeader], [wait], [one].
    - [RaftNames] ([raft/config.go]): [randstring], [makeSeed].
    - [RaftConfig] ([raft/config.go]): [make_config], [start1], [connect],
      [disconnect], [cleanup], the time limit and the statistics, over the
      network of [LabRpc].

    ** What is proved

    Multicast.  The queue refines an abstract priority queue; each iteration of
    [ISIS] keeps the invariant of a node; what an agreed message delivers; the
    agreed priority is the largest proposal; in every execution of the network
    no message is delivered twice.  Without failures the network refines the
    ISIS protocol and never panics; at every moment one node has delivered a
    prefix of what another has, if no two messages tie; with two nodes or more
    everything that is read is delivered everywhere, so the ledgers agree.  The
    priorities a node proposes count the transactions it has received.  Against
    the code's intent: from [2 ^ 53 + 1] on every proposal is the same; a node
    that is alone delivers nothing; ties between two messages of one sender are
    not broken, and these are the only messages that can be reordered; and the
    failure of one node can stop all the others.  A node starts in the state the
    network of nodes takes it to start in, in whatever order its connections
    come about; but of several nodes on one host all but the last are taken for
    another one.  The ledger is solvent on amounts that are not negative while
    the deposits stay below [2 ^ 63] in all, and a transfer does what it should
    on every branch.

    Transactions.  A participant is serializable in every run without lock
    upgrades, whatever the interleaving; locks exclude each other; balances are
    never negative; nothing panics; the operations refine the abstract bank; a
    commit has exactly its effect; two-phase commit ends and is atomic, and
    leaves every participant in a disciplined state.  The discipline which these
    theorems assume is a theorem of the whole bank: in every interleaving of
    sessions, commands, prepares, votes and commits each participant is in a
    disciplined state; a promised commit is kept, and a COMMIT always ends.
    Without upgrades the whole bank is serializable: the order in which the
    coordinators decide is one serial order for all branches, gives every reply
    the clients got, and gives the balances once the commits have arrived.
    What [SendCoord] makes of a line is stated for every line.
    Against the code's intent: a line without an amount gets the amount -1
    whatever its method; upgrades lose serializability, reading a balance
    twice leaks a reader for ever, transactions can deadlock, the coordinator
    never clears a committed transaction, a second BEGIN or the end of the input
    strands locks.

    Raft.  [AppendEntries] equals a reference of the consistency rule on every
    branch, unchecked messages ([PrevLogTerm] -1) included; entries are applied
    in order; votes and commits follow their rules; a successful exchange makes
    two logs agree; in every reachable cluster logs are well-formed, terms grow,
    and handlers do not panic.  In the runs in which every term has one leader
    and [Start] appends in office, logs match.  In an orderly run, in which
    moreover a majority has elected each leader and the tables of a leader are
    used in the office they belong to, no two servers apply different commands
    at one index, leaders are complete, and a leader commits a command as soon
    as its exchanges with a majority go through, whatever the logs it finds.
    The code ensures none of these conditions, and without them the guarantees
    are lost: two leaders in one term, even from fresh votes, and different
    commands at one index; the same with one leader per term, because the
    [handleReply] of an earlier office counts late replies; logs that do not
    match, when [Start] appends after its server has stepped down.  Further:
    entries applied twice, panics of a leader, a handler blocked for ever.

    The network of the tests.  [checkType] ends on cyclic types and complains
    exactly where it should; a program it is silent about loses nothing on the
    wire, and Raft's RPC structs are such.  A call of [labrpc] runs its handler
    at most once, returns what the handler returned, always comes back, and gets
    no reply from a deleted server: what [RaftNet] takes for granted.  The
    harness connects exactly the servers it says, to the objects it holds; the
    apply checker is exact for agreement and order, and blind to repetition;
    [one] and [checkOneLeader] mean what they say; the names of the ends are
    distinct if the random bytes that carry them are; [cleanup] stops every
    server.

    ** How the code is modelled

    - Outcomes.  An index out of range, a nil pointer or map, a bad unlock and
      [log.Fatal] are [Crash]; waiting for a lock or a channel is [Block], and
      a state in which an event gives [Block] simply cannot take it yet.
    - Concurrency.  A definition runs from where the code takes a lock (or a
      message) to where it releases it or waits; the theorems on runs hold for
      every sequence of such steps.  One iteration of [ISIS] is one step: what
      the other goroutines of the node change meanwhile ([nfailCheck], the
      connections) they change before or after it.  A whole participant call ([Prepare],
      [Commit], a command that has its lock) is one step: the accounts it
      touches are those it has locked, or the transaction's own.  Accesses to
      the shared Go maps without a mutex that are data races for Go are taken
      to be atomic: Go's detection of concurrent map writes is not modelled.
      So is the start of [toLeader], which fills the tables without [mu], and
      [nCommitted], which reads the logs of the servers one after the other.
    - Map iteration.  A [range] over a map visits the keys in any order: the
      order is the class [RangeOrder] in the transactions demo, and an argument
      of the step in the multicast demo.
    - Numbers.  An [int] is a [Z] with its 64-bit wrap-around written out where
      the sums are not bounded by the length of a slice; priorities go through
      [float64] as in the code, with rounding.  Indexes and terms of Raft are
      exact below [2 ^ 53], which the reachable clusters respect ([bounded]).
    - Values.  Messages are copied when they are sent, as the encoders do; a
      pointer into the queue is a position of the queue.  [args.Entries] of
      [AppendEntries] is a value: the receiver decodes it afresh.  Until the
      sender's goroutine has encoded it, it shares the array of the leader's
      log, which the code may change meanwhile (a data race); that window is
      not modelled, and the entries are those of the moment of [replicate].
    - Connections.  The order in which the connections of a multicast node come
      about and are visited is an argument of [Run].  [MulticastNet] attributes
      a failure to the node that failed, which is what the code does if no two
      nodes share an address.
    - [sync.RWMutex] counts readers and lets any waiting goroutine go first;
      Go's preference for writers is one of these schedules.
    - Servers of the bank.  The client [*rpc.Client] of a branch is the branch's
      name and leads to its participant; a server that panics ends the run.
    - Reflection.  A type is a name with a descriptor in a finite universe; a
      value carries its type's name.  [encoding/gob] is its documented
      behaviour on these: zero fields and unexported fields are not sent.
      [LabGob] says which kinds of values there are.  A reply of [LabRpc] is
      decoded into a fresh variable, as Raft's callers provide.
    - Receivers.  The network and the harness know a [Raft] object by its pointer
      ([ref] in [RaftConfig]); that a method works on the object it is called
      on is a hypothesis there, and so is [Codec] in [LabRpc].
    - Fuel.  The sifts of [GoHeap] get one unit per position and [drain] one more
      than the length of the queue; the theorems show that this is enough, since
      they state the result, not only its properties; so it is with [catch_up],
      which gets one unit per entry of the leader's log.  [schedule] only builds
      example runs.  The other recursions are structural.

    ** What is not modelled

    The sockets, encoders and consoles of [types/node.go], [server/server.go]
    and [client/client.go] and the [DPrintf] output are input and output.  The
    lengths of timeouts ([resetTimeout]) do not matter to the models, in which a
    timer may fire at any moment; the bytes of [crypto/rand] and the readings
    of the clock are arguments.  The scenarios of [raft/test_test.go] are
    inputs.  The Python script and the notebooks generate and plot inputs.
    [Kill] is an event, but restarts of a [Raft] are not: the demo has no
    persistence ([RaftConfig] restarts server objects).

    ** Plan

    Among the theorems to come: the multicast with failures of connections that
    do not lead to a second agreement on one message. *)
From stdpp Require Export base gmap strings list fin_maps sorting pretty.
From Stdlib Require Export ZArith Lia.

#[global] Open Scope Z_scope.

(** ** The outcome of a Go statement

    A piece of Go code running under a lock either returns, or stops the
    process: an index or slice bound out of range, a nil map write, a nil
    pointer dereference, an unlock of a mutex that is not held, a call of
    [log.Fatal] / [panic]; in a test, [t.Fatal] ends the test.  [Block] is the goroutine that waits (a full
    buffered channel, a mutex held by another goroutine). *)
Inductive crash : Set :=
  | IndexPanic
  | NilDeref
  | NilMapWrite
  | UnlockPanic
  | UserPanic
  | LogFatal
  | TestFatal.

#[export] Instance crash_eq_dec : EqDecision crash.
Proof. solve_decision. Defined.

Inductive outcome (A : Type) : Type :=
  | Ret (a : A)
  | Crash (c : crash)
  | Block.
Arguments Ret {A} a.
Arguments Crash {A} c.
Arguments Block {A}.

#[export] Instance outcome_ret : MRet outcome := fun A a => Ret a.
#[export] Instance outcome_bind : MBind outcome := fun A B f m =>
  match m with
  | Ret a => f a
  | Crash c => Crash c
  | Block => Block
  end.
#[export] Instance outcome_fmap : FMap outcome := fun A B f m =>
  match m with
  | Ret a => Ret (f a)
  | Crash c => Crash c
  | Block => Block
  end.

#[export] Instance Ret_inj {A} : Inj (=) (=) (@Ret A).
Proof. by intros a b [= ->]. Qed.

Definition returns {A} (m : outcome A) : bool :=
  match m with Ret _ => true | _ => false end.

(** The value of an outcome, for evaluating concrete runs. *)
Definition value_or {A} (d : A) (m : outcome A) : A :=
  match m with Ret a => a | _ => d end.

Lemma value_or_Ret {A} (d : A) (m : outcome A) : returns m = true -> m = Ret (value_or d m).
Proof. by destruct m. Qed.

Lemma bind_Ret {A B} (m : outcome A) (f : A -> outcome B) b :
  m ≫= f = Ret b <-> exists a, m = Ret a /\ f a = Ret b.
Proof. destruct m; cbn; naive_solver. Qed.

Lemma bind_Ret_l {A B} (a : A) (f : A -> outcome B) : Ret a ≫= f = f a.
Proof. done. Qed.

(** [bind_inv H] opens a hypothesis [m ≫= f = Ret b]. *)
Ltac bind_inv H :=
  let a := fresh "r" in let E := fresh "E" in
  apply bind_Ret in H as (a & E & H).

Create HintDb go.
Create Rewrite HintDb golen.

(** ** Machine integers

    [int] and [int64] are 64-bit two's complement, [int32] 32-bit. *)
Definition wrap (w : Z) (z : Z) : Z :=
  (z + 2 ^ (w - 1)) mod 2 ^ w - 2 ^ (w - 1).
Definition wrap64 : Z -> Z := wrap 64.
Definition wrap32 : Z -> Z := wrap 32.

Definition int64_range (z : Z) : Prop := - 2 ^ 63 <= z < 2 ^ 63.

Lemma wrap64_id z : int64_range z -> wrap64 z = z.
Proof.
  unfold int64_range, wrap64, wrap. change (64 - 1) with 63. intros H.
  rewrite Z.mod_small; lia.
Qed.

Lemma wrap64_range z : int64_range (wrap64 z).
Proof.
  unfold int64_range, wrap64, wrap. change (64 - 1) with 63.
  pose proof (Z.mod_pos_bound (z + 2 ^ 63) (2 ^ 64)). lia.
Qed.

Lemma wrap64_add_l a b : wrap64 (wrap64 a + b) = wrap64 (a + b).
Proof.
  unfold wrap64, wrap. change (64 - 1) with 63. f_equal.
  replace ((a + 2 ^ 63) mod 2 ^ 64 - 2 ^ 63 + b + 2 ^ 63)
    with ((a + 2 ^ 63) mod 2 ^ 64 + b) by lia.
  rewrite Zplus_mod_idemp_l. f_equal. lia.
Qed.

Lemma wrap64_add_r a b : wrap64 (a + wrap64 b) = wrap64 (a + b).
Proof. rewrite Z.add_comm, wrap64_add_l. f_equal. lia. Qed.

(** ** [float64] of an [int], as [math.Min] and [math.Max] see it

    The conversion keeps 53 significant bits, rounding to nearest with ties
    to even.  [int] of a float that fits is exact; the only out-of-range float
    the programs here can produce is [2^63], which the conversion back sends
    to [wrap64] of it (the amd64 behaviour). *)
Definition round_to_even (p z : Z) : Z :=
  let q := z / p in
  let r := z mod p in
  if decide (2 * r < p) then q * p
  else if decide (p < 2 * r) then (q + 1) * p
  else if Z.even q then q * p else (q + 1) * p.

Definition float64 (z : Z) : Z :=
  let a := Z.abs z in
  let r := if decide (a < 2 ^ 53) then a
           else round_to_even (2 ^ (Z.log2 a - 52)) a in
  Z.sgn z * r.

Definition int_of_float64 (z : Z) : Z := wrap64 z.

(** [int(math.Min(float64(a), float64(b)))] and the same with [math.Max]. *)
Definition fmin (a b : Z) : Z := int_of_float64 (Z.min (float64 a) (float64 b)).
Definition fmax (a b : Z) : Z := int_of_float64 (Z.max (float64 a) (float64 b)).

Lemma float64_exact z : - 2 ^ 53 <= z <= 2 ^ 53 -> float64 z = z.
Proof.
  intros H. unfold float64. case_decide as Hd.
  - rewrite Z.mul_comm. apply Z.abs_sgn.
  - assert (Z.abs z = 2 ^ 53) as -> by lia. vm_compute (round_to_even _ _).
    destruct (Z.abs_eq_or_opp z); destruct (decide (0 < z)).
    + rewrite Z.sgn_pos; lia.
    + lia.
    + lia.
    + rewrite Z.sgn_neg; lia.
Qed.

Lemma fmin_exact a b :
  - 2 ^ 53 <= a <= 2 ^ 53 -> - 2 ^ 53 <= b <= 2 ^ 53 -> fmin a b = Z.min a b.
Proof.
  intros Ha Hb. unfold fmin, int_of_float64. rewrite !float64_exact by done.
  apply wrap64_id. unfold int64_range. lia.
Qed.

Lemma fmax_exact a b :
  - 2 ^ 53 <= a <= 2 ^ 53 -> - 2 ^ 53 <= b <= 2 ^ 53 -> fmax a b = Z.max a b.
Proof.
  intros Ha Hb. unfold fmax, int_of_float64. rewrite !float64_exact by done.
  apply wrap64_id. unfold int64_range. lia.
Qed.

(** ** Slices as lists, indexed by Go [int]s *)
Definition zlen {A} (l : list A) : Z := Z.of_nat (length l).

Definition go_index {A} (l : list A) (i : Z) : outcome A :=
  if decide (0 <= i) then
    match l !! Z.to_nat i with
    | Some a => Ret a
    | None => Crash IndexPanic
    end
  else Crash IndexPanic.

(** [l[i] = x] *)
Definition go_store {A} (l : list A) (i : Z) (x : A) : outcome (list A) :=
  if decide (0 <= i < zlen l) then Ret (<[Z.to_nat i := x]> l)
  else Crash IndexPanic.

(** [l[:i]] and [l[i:]] of a slice whose capacity is its length *)
Definition go_prefix {A} (l : list A) (i : Z) : outcome (list A) :=
  if decide (0 <= i <= zlen l) then Ret (take (Z.to_nat i) l)
  else Crash IndexPanic.
Definition go_suffix {A} (l : list A) (i : Z) : outcome (list A) :=
  if decide (0 <= i <= zlen l) then Ret (drop (Z.to_nat i) l)
  else Crash IndexPanic.

Lemma elem_of_delete_ne {A} (l : list A) j x y : l !! j = Some y -> x <> y -> x ∈ l -> x ∈ delete j l.
Proof.
  intros Hj Hne (i & Hi)%list_elem_of_lookup. apply list_elem_of_lookup.
  destruct (decide (i = j)) as [->|Hij]; [congruence|]. destruct (decide (i < j)%nat).
  - exists i. by rewrite list_lookup_delete_lt.
  - exists (i - 1)%nat. rewrite list_lookup_delete_ge by lia. by replace (S (i - 1)) with i by lia.
Qed.

Lemma go_store_Ret {A} (l l' : list A) j x : go_store l j x = Ret l' -> l' = <[Z.to_nat j := x]> l.
Proof. unfold go_store. destruct (decide _); [|done]. by intros [= <-]. Qed.

Lemma go_store_nat {A} (l : list A) (i : nat) x y :
  l !! i = Some y -> go_store l (Z.of_nat i) x = Ret (<[i := x]> l).
Proof.
  intros H%lookup_lt_Some. unfold go_store, zlen. rewrite decide_True by lia. by rewrite Nat2Z.id.
Qed.

Lemma go_index_Ret {A} (l : list A) i a :
  go_index l i = Ret a <-> 0 <= i /\ l !! Z.to_nat i = Some a.
Proof. unfold go_index. case_decide; [destruct (l !! _)|]; naive_solver. Qed.

Lemma go_index_nat {A} (l : list A) (i : nat) a :
  l !! i = Some a -> go_index l (Z.of_nat i) = Ret a.
Proof. intros H. apply go_index_Ret. rewrite Nat2Z.id. split; [lia|done]. Qed.

Lemma go_index_lt {A} (l : list A) i a :
  go_index l i = Ret a -> 0 <= i < zlen l.
Proof.
  intros [? H]%go_index_Ret. apply lookup_lt_Some in H. unfold zlen. lia.
Qed.

Lemma go_index_total {A} (l : list A) i :
  0 <= i < zlen l -> exists a, go_index l i = Ret a.
Proof.
  intros H. unfold zlen in H.
  destruct (lookup_lt_is_Some_2 l (Z.to_nat i)) as [a Ha]; [lia|].
  exists a. apply go_index_Ret. split; [lia|done].
Qed.

Lemma go_index_crash {A} (l : list A) i :
  i < 0 \/ zlen l <= i -> go_index l i = Crash IndexPanic.
Proof.
  intros H. unfold go_index, zlen in *. case_decide; [|done].
  rewrite lookup_ge_None_2; [done|lia].
Qed.

(** ** Values stored in an [interface{}]

    The tests and the tester store integers and strings in the commands of
    the Raft log and in the endpoint and server names of the network. *)
Inductive iface : Set :=
  | INil
  | IInt (n : Z)
  | IString (s : string).

#[export] Instance iface_eq_dec : EqDecision iface.
Proof. solve_decision. Defined.

#[export] Instance iface_countable : Countable iface.
Proof.
  refine (inj_countable'
    (fun v => match v with
              | INil => inl (inl tt) | IInt n => inl (inr n) | IString s => inr s
              end)
    (fun s => match s with
              | inl (inl _) => INil | inl (inr n) => IInt n | inr s => IString s
              end) _).
  by intros [].
Defined.

(** [strconv.Itoa] *)
Definition Itoa (z : Z) : string := pretty z.

(** ** Generic lemmas *)

Lemma take_S_lookup {A} (l : list A) n x :
  l !! n = Some x -> take (S n) l = take n l ++ [x].
Proof. apply take_S_r. Qed.

Lemma list_delete_insert {A} (l : list A) k x : delete k (<[k := x]> l) = delete k l.
Proof. revert k. induction l as [|y l IH]; intros [|k]; cbn; f_equal; auto. Qed.

Lemma last_lookup_length {A} (l : list A) :
  last l = l !! (length l - 1)%nat.
Proof. rewrite last_lookup. f_equal. lia. Qed.

Lemma Forall2_same_length_lookup {A B} (P : A -> B -> Prop) l k i x y :
  Forall2 P l k -> l !! i = Some x -> k !! i = Some y -> P x y.
Proof. intros H. revert i. induction H; intros [|i]; naive_solver. Qed.

#[export] Hint Rewrite @length_app @length_insert @length_take @length_drop
  @length_replicate @length_fmap @length_cons : golen.

(** [golia] normalises lengths and calls [lia]. *)
Ltac golia :=
  unfold zlen in *; autorewrite with golen in *; cbn [length] in *; lia.

Lemma filter_all {A} (P : A -> Prop) `{!forall x, Decision (P x)} (l : list A) :
  (forall x, x ∈ l -> P x) -> filter P l = l.
Proof.
  induction l as [|a l IH]; intros Hall; [done|].
  rewrite filter_cons_True by (apply Hall; by left). f_equal. apply IH. intros x Hx. apply Hall. by right.
Qed.

Lemma filter_iff_in {A} (P1 P2 : A -> Prop) `{!forall x, Decision (P1 x), !forall x, Decision (P2 x)}
    (l : list A) :
  (forall x, x ∈ l -> (P1 x <-> P2 x)) -> filter P1 l = filter P2 l.
Proof.
  induction l as [|x l IH]; intros Hl; [done|].
  specialize (IH (fun y Hy => Hl y (list_elem_of_further _ _ _ Hy))).
  assert (P1 x <-> P2 x) as Hx by (apply Hl; left). destruct (decide (P1 x)) as [H1|H1].
  - rewrite !filter_cons_True by tauto. by rewrite IH.
  - rewrite !filter_cons_False by tauto. exact IH.
Qed.
