(* ===== verification/GoHeap.v ===== *)
(** * GoHeap: Go's [container/heap] over the interface it asks for

    [container/heap] is a library of functions over [heap.Interface]; the
    multicast demo gives it a [MessagePQ].  Here the interface is the class
    [HeapInterface], [up], [down], [heap_push], [heap_pop], [heap_remove] and
    [heap_fix] are the functions of the library, and [HeapLaws] says what an
    implementation of the interface owes: a view of the heap as a list of
    ordered values on which [Less], [Swap], [Push] and [Pop] act as expected.
    The theorems are proved once against [HeapLaws]. *)
From S2P Require Import Prelude.

Class HeapInterface (H E : Type) := {
  Len : H -> nat;
  Less : H -> nat -> nat -> bool;
  Swap : nat -> nat -> H -> H;
  Push : E -> H -> H;
  Pop : H -> option (E * H);
}.

(** [l[i], l[j] = l[j], l[i]] *)
Definition swap_list {A} (i j : nat) (l : list A) : list A :=
  match l !! i, l !! j with
  | Some a, Some b => <[i := b]> (<[j := a]> l)
  | _, _ => l
  end.

Class HeapLaws (H E V : Type) `{HeapInterface H E} := {
  view : H -> list V;
  view_of : E -> V;
  vlt : V -> V -> bool;
  vlt_asym a b : vlt a b = true -> vlt b a = false;
  vlt_trans_neg a b c : vlt b a = false -> vlt c b = false -> vlt c a = false;
  view_Len h : Len h = length (view h);
  view_Less h i j a b :
    view h !! i = Some a -> view h !! j = Some b -> Less h i j = vlt a b;
  view_Swap h i j :
    (i < length (view h))%nat -> (j < length (view h))%nat ->
    view (Swap i j h) = swap_list i j (view h);
  view_Push h e : view (Push e h) = view h ++ [view_of e];
  view_Pop h e h' : Pop h = Some (e, h') -> view h = view h' ++ [view_of e];
  view_Pop_Some h : view h <> [] -> is_Some (Pop h);
}.

(** ** The library's functions *)

Section functions.
Context {H E : Type} `{HeapInterface H E}.

Definition parent (j : nat) : nat := ((j - 1) / 2)%nat.

(** [for { i := (j-1)/2; if i == j || !h.Less(j,i) { break }; h.Swap(i,j); j = i }] *)
Fixpoint up (fuel : nat) (h : H) (j : nat) : H :=
  match fuel with
  | O => h
  | S fuel =>
      let i := parent j in
      if decide (i = j) then h
      else if Less h j i then up fuel (Swap i j h) i
      else h
  end.

(** The child that [down] compares with its parent [i] in the first [n]
    elements; [None] when [2*i+1 >= n]. *)
Definition least_child (h : H) (i n : nat) : option nat :=
  let j1 := (2 * i + 1)%nat in
  let j2 := S j1 in
  if decide (n <= j1)%nat then None
  else if decide (j2 < n)%nat then
    if Less h j2 j1 then Some j2 else Some j1
  else Some j1.

(** [down] returns the heap and the final position of the element, which
    the library compares with the initial one. *)
Fixpoint down (fuel : nat) (h : H) (i n : nat) : H * nat :=
  match fuel with
  | O => (h, i)
  | S fuel =>
      match least_child h i n with
      | None => (h, i)
      | Some j =>
          if Less h j i then down fuel (Swap i j h) j n else (h, i)
      end
  end.

Definition heap_push (e : E) (h : H) : H :=
  let h := Push e h in
  up (Len h) h (Len h - 1).

Definition heap_pop (h : H) : option (E * H) :=
  let n := (Len h - 1)%nat in
  let h := Swap 0 n h in
  Pop (down (S n) h 0 n).1.

(** [if !down(h, i, n) { up(h, i) }] *)
Definition fix_at (h : H) (i n : nat) : H :=
  let (h', i') := down (S n) h i n in
  if decide (i < i')%nat then h' else up (S i) h' i.

Definition heap_fix (h : H) (i : nat) : H := fix_at h i (Len h).

Definition heap_remove (h : H) (i : nat) : option (E * H) :=
  let n := (Len h - 1)%nat in
  if decide (n = i) then Pop h else Pop (fix_at (Swap i n h) i n).

(** The exported functions take an [int]; outside the heap they index the
    implementation's slice out of range, except that [heap.Fix] at [-1]
    (and at [0] of an empty heap) compares nothing and does nothing. *)
Definition Fix (h : H) (i : Z) : outcome H :=
  if decide (i = -1) then Ret h
  else if decide (0 <= i < Z.of_nat (Len h)) then Ret (heap_fix h (Z.to_nat i))
  else if decide (i = 0) then Ret h
  else Crash IndexPanic.

Definition Remove (h : H) (i : Z) : outcome (E * H) :=
  if decide (0 <= i < Z.of_nat (Len h)) then
    match heap_remove h (Z.to_nat i) with
    | Some r => Ret r
    | None => Crash IndexPanic
    end
  else Crash IndexPanic.

Definition PopMin (h : H) : outcome (E * H) :=
  match heap_pop h with
  | Some r => if decide (0 < Len h)%nat then Ret r else Crash IndexPanic
  | None => Crash IndexPanic
  end.

(** [up] and [down] only swap inside the heap: what [Swap] preserves there,
    they preserve. *)
Section swap_invariant.
Variable P : H -> Prop.
Hypothesis Len_Swap : forall h i j, Len (Swap i j h) = Len h.
Hypothesis P_Swap : forall h i j,
  (i < Len h)%nat -> (j < Len h)%nat -> P h -> P (Swap i j h).

Lemma up_invariant fuel h j : (j < Len h)%nat -> P h -> P (up fuel h j).
Proof.
  revert h j. induction fuel as [|fuel IH]; [done|].
  intros h j Hj HP. cbn [up]. case_decide; [done|].
  assert (parent j <= j)%nat.
  { apply Nat.Div0.div_le_upper_bound. lia. }
  destruct (Less h j (parent j)); [|done].
  apply IH; [rewrite Len_Swap; lia|]. apply P_Swap; [lia|lia|done].
Qed.

Lemma down_invariant fuel h i n :
  (i < n)%nat -> (n <= Len h)%nat -> P h ->
  P (down fuel h i n).1 /\ Len (down fuel h i n).1 = Len h.
Proof.
  revert h i. induction fuel as [|fuel IH]; [done|].
  intros h i Hi Hn HP. cbn [down].
  assert (match least_child h i n with Some j => (j < n)%nat | None => True end) as Hj.
  { unfold least_child. repeat case_decide; repeat case_match; simplify_eq; lia. }
  destruct (least_child h i n) as [j|]; [|done].
  destruct (Less h j i); [|done].
  destruct (IH (Swap i j h) j) as [HP' HL']; [done|by rewrite Len_Swap| |].
  - apply P_Swap; [lia|lia|done].
  - by rewrite HL', Len_Swap.
Qed.

Lemma fix_at_invariant h i n :
  (i < n)%nat -> (n <= Len h)%nat -> P h -> P (fix_at h i n).
Proof.
  intros Hi Hn HP. unfold fix_at.
  destruct (down_invariant (S n) h i n Hi Hn HP) as [HP' HL'].
  destruct (down (S n) h i n) as [h' i']; cbn [fst] in *.
  case_decide; [done|]. apply up_invariant; [lia|done].
Qed.
End swap_invariant.
End functions.

(** ** Parents *)

Lemma parent_lt j : (0 < j)%nat -> (parent j < j)%nat.
Proof. intros. unfold parent. apply Nat.Div0.div_lt_upper_bound; lia. Qed.

Lemma parent_eq j : parent j = j <-> j = 0%nat.
Proof.
  split; [|by intros ->]. intros Hp. destruct (decide (0 < j)%nat) as [Hj|]; [|lia].
  pose proof (parent_lt j Hj). lia.
Qed.

Lemma parent_children i k :
  (0 < k)%nat -> parent k = i <-> (k = 2 * i + 1 \/ k = 2 * i + 2)%nat.
Proof.
  intros Hk. unfold parent. pose proof (Nat.div_mod_eq (k - 1) 2).
  pose proof (Nat.mod_upper_bound (k - 1) 2). lia.
Qed.

Lemma lookup_swap_list {A} (l : list A) i j k :
  (i < length l)%nat -> (j < length l)%nat ->
  swap_list i j l !! k =
    if decide (k = i) then l !! j else if decide (k = j) then l !! i else l !! k.
Proof.
  intros [a Ha]%lookup_lt_is_Some_2 [b Hb]%lookup_lt_is_Some_2.
  unfold swap_list. rewrite Ha, Hb.
  pose proof (lookup_lt_Some _ _ _ Ha). pose proof (lookup_lt_Some _ _ _ Hb).
  destruct (decide (k = i)) as [->|].
  { rewrite list_lookup_insert_eq; [done|golia]. }
  rewrite list_lookup_insert_ne by done.
  destruct (decide (k = j)) as [->|].
  { by rewrite list_lookup_insert_eq. }
  by rewrite list_lookup_insert_ne.
Qed.

Lemma length_swap_list {A} (l : list A) i j : length (swap_list i j l) = length l.
Proof. unfold swap_list. repeat case_match; golia. Qed.

Lemma swap_list_Permutation {A} (l : list A) i j : swap_list i j l ≡ₚ l.
Proof.
  unfold swap_list. destruct (l !! i) as [a|] eqn:Ha; [|done].
  destruct (l !! j) as [b|] eqn:Hb; [|done].
  pose proof (lookup_lt_Some _ _ _ Ha). pose proof (lookup_lt_Some _ _ _ Hb).
  destruct (decide (i = j)) as [->|Hij].
  { rewrite list_insert_insert_eq. rewrite list_insert_id; [done|]. congruence. }
  apply Permutation_inj. split; [golia|].
  exists (fun k => if decide (k = i) then j else if decide (k = j) then i else k).
  split.
  - intros x y. repeat case_decide; congruence.
  - intros k. pose proof (lookup_swap_list l i j k) as Hs.
    unfold swap_list in Hs. rewrite Ha, Hb in Hs. rewrite Hs by done.
    repeat case_decide; congruence.
Qed.

(** ** Heap order and what the functions establish *)

Section laws.
Context {H E V : Type} `{HL : HeapLaws H E V}.
Implicit Types (h : H) (l : list V).

(** [le_at l p k]: the value at [k] is not below the one at [p]. *)
Definition le_at l (p k : nat) : Prop :=
  forall a b, l !! p = Some a -> l !! k = Some b -> vlt b a = false.

(** Heap order of the first [n] positions. *)
Definition heap_ordered_upto l (n : nat) : Prop :=
  forall k, (0 < k < n)%nat -> le_at l (parent k) k.

Definition heap_ordered h : Prop := heap_ordered_upto (view h) (length (view h)).

Lemma vlt_irrefl a : vlt a a = false.
Proof. destruct (vlt a a) eqn:Ha; [|done]. by rewrite vlt_asym in Ha. Qed.

(** [up] is called where only the pair of [j] and its parent may be out of
    order. *)
Definition up_ready l (j n : nat) : Prop :=
  (forall k, (0 < k < n)%nat -> k <> j -> le_at l (parent k) k) /\
  (forall k, (0 < k < n)%nat -> parent k = j -> (0 < j)%nat -> le_at l (parent j) k).

(** [down] is called where only the pairs of [i] and its children may be
    out of order (and, from [heap.Fix], the pair of [i] and its parent). *)
Definition down_ready l (i n : nat) : Prop :=
  (forall k, (0 < k < n)%nat -> parent k <> i -> k <> i -> le_at l (parent k) k) /\
  (forall k, (0 < k < n)%nat -> parent k = i -> (0 < i)%nat -> le_at l (parent i) k).

Lemma up_ready_swap l j n a b :
  (0 < j < n)%nat -> (n <= length l)%nat ->
  l !! j = Some a -> l !! parent j = Some b -> vlt a b = true ->
  up_ready l j n -> up_ready (swap_list (parent j) j l) (parent j) n.
Proof.
  intros Hj Hn Ha Hb Hlt [H1 H2]. pose proof (parent_lt j ltac:(lia)) as Hp.
  assert (forall k, swap_list (parent j) j l !! k =
    if decide (k = parent j) then Some a else if decide (k = j) then Some b
    else l !! k) as Hs.
  { intros k. rewrite lookup_swap_list by lia. repeat case_decide; congruence. }
  pose proof (vlt_asym _ _ Hlt) as Hge.
  split.
  - intros k Hk Hkp x y. rewrite !Hs. destruct (decide (k = parent j)) as [|_]; [done|].
    destruct (decide (k = j)) as [->|Hkj].
    + rewrite decide_True by done. naive_solver.
    + destruct (decide (parent k = parent j)) as [Hpk|Hpk].
      * intros [= <-] Hy. apply (vlt_trans_neg _ b); [done|].
        apply (H1 k); [done..|congruence|done].
      * destruct (decide (parent k = j)) as [Hkj'|].
        -- intros [= <-] Hy. apply (H2 k); [done|done|lia|done|done].
        -- intros Hx Hy. by apply (H1 k).
  - intros k Hk Hkp Hpos x y. rewrite !Hs.
    pose proof (parent_lt _ Hpos) as Hpp. rewrite decide_False by lia.
    rewrite decide_False by lia. intros Hx.
    assert (vlt b x = false) as Hbx by (apply (H1 (parent j)); [lia|lia|done|done]).
    destruct (decide (k = parent j)) as [->|_].
    { pose proof (parent_lt _ Hpos). lia. }
    destruct (decide (k = j)) as [->|Hkj]; [naive_solver|].
    intros Hy. apply (vlt_trans_neg _ b); [done|].
    apply (H1 k); [done..|congruence|done].
Qed.

Lemma up_ordered n fuel h j :
  (j < fuel)%nat -> (j < n)%nat -> (n <= length (view h))%nat ->
  up_ready (view h) j n -> heap_ordered_upto (view (up fuel h j)) n.
Proof.
  revert h j. induction fuel as [|fuel IH]; [lia|].
  intros h j Hfuel Hj Hn Hup. cbn [up].
  case_decide as Hp.
  { apply parent_eq in Hp as ->. destruct Hup as [H1 _]. intros k Hk. apply H1; lia. }
  assert (0 < j)%nat as Hj0 by (destruct (decide (j = 0%nat)) as [->|]; [done|lia]).
  pose proof (parent_lt j Hj0) as Hpl.
  destruct (lookup_lt_is_Some_2 (view h) j) as [a Ha]; [lia|].
  destruct (lookup_lt_is_Some_2 (view h) (parent j)) as [b Hb]; [lia|].
  rewrite (view_Less _ _ _ _ _ Ha Hb). destruct (vlt a b) eqn:Hlt.
  - assert (view (Swap (parent j) j h) = swap_list (parent j) j (view h)) as Hv
      by (apply view_Swap; lia).
    apply IH; [lia|lia| |].
    + rewrite Hv, length_swap_list. lia.
    + rewrite Hv. by eapply up_ready_swap.
  - destruct Hup as [H1 H2]. intros k Hk.
    destruct (decide (k = j)) as [->|]; [|by apply H1].
    intros x y Hx Hy. congruence.
Qed.

(** [least_child] picks a child that is not above the other one. *)
Lemma least_child_spec h i n :
  (n <= length (view h))%nat ->
  match least_child h i n with
  | None => forall k, (0 < k < n)%nat -> parent k <> i
  | Some j => (0 < j < n)%nat /\ parent j = i /\
              forall k, (0 < k < n)%nat -> parent k = i -> le_at (view h) j k
  end.
Proof.
  intros Hn. unfold least_child. case_decide.
  { intros k Hk. rewrite parent_children by lia. lia. }
  assert (forall k, le_at (view h) k k) as Hrefl.
  { intros k x y Hx Hy. assert (x = y) as -> by congruence. apply vlt_irrefl. }
  case_decide.
  - destruct (lookup_lt_is_Some_2 (view h) (2 * i + 1)) as [a Ha]; [lia|].
    destruct (lookup_lt_is_Some_2 (view h) (S (2 * i + 1))) as [b Hb]; [lia|].
    rewrite (view_Less _ _ _ _ _ Hb Ha).
    destruct (vlt b a) eqn:Hlt; (split; [lia|]); (split; [apply parent_children; lia|]);
      intros k Hk [->| ->]%parent_children; try lia.
    + intros x y Hx Hy. apply vlt_asym. congruence.
    + replace (2 * i + 2)%nat with (S (2 * i + 1)) by lia. apply Hrefl.
    + apply Hrefl.
    + replace (2 * i + 2)%nat with (S (2 * i + 1)) by lia. intros x y Hx Hy. congruence.
  - split; [lia|]. split; [apply parent_children; lia|].
    intros k Hk [->| ->]%parent_children; [apply Hrefl|lia|lia].
Qed.

Lemma down_ready_swap l i j n a b :
  (n <= length l)%nat -> (0 < j < n)%nat -> parent j = i ->
  l !! i = Some a -> l !! j = Some b -> vlt b a = true ->
  (forall k, (0 < k < n)%nat -> parent k = i -> le_at l j k) ->
  down_ready l i n ->
  down_ready (swap_list i j l) j n /\
  (forall k, (0 < k < n)%nat -> parent k <> j -> le_at (swap_list i j l) (parent k) k).
Proof.
  intros Hn Hj Hp Ha Hb Hlt Hmin [H1 H2]. pose proof (parent_lt j ltac:(lia)) as Hpl.
  rewrite Hp in Hpl.
  assert (forall k, swap_list i j l !! k =
    if decide (k = i) then Some b else if decide (k = j) then Some a
    else l !! k) as Hs.
  { intros k. rewrite lookup_swap_list by lia. repeat case_decide; congruence. }
  assert (forall k, (0 < k < n)%nat -> parent k <> j ->
    le_at (swap_list i j l) (parent k) k) as Hall.
  { intros k Hk Hkj x y. rewrite !Hs. destruct (decide (parent k = i)) as [Hki|Hki].
    - intros [= <-]. destruct (decide (k = i)) as [->|_].
      { pose proof (parent_lt i ltac:(lia)). lia. }
      destruct (decide (k = j)) as [->|_].
      + intros [= <-]. by apply vlt_asym.
      + intros Hy. by apply (Hmin k).
    - rewrite decide_False by done. intros Hx.
      destruct (decide (k = i)) as [->|].
      + intros [= <-]. by apply (H2 j Hj Hp ltac:(lia)).
      + rewrite decide_False by congruence. intros Hy. by apply (H1 k). }
  split; [|done]. split; [intros k Hk Hkj _; by apply Hall|].
  intros k Hk Hkj _ x y. rewrite Hp, !Hs, decide_True by done. intros [= <-].
  pose proof (parent_lt k ltac:(lia)) as Hkl.
  rewrite !decide_False by lia. intros Hy. apply (H1 k); [done|lia|lia|by rewrite Hkj|done].
Qed.

(** From a position whose pair with its parent is in order, [down] gives
    heap order; the fuel only has to exceed the distance to [n]. *)
Lemma down_ordered n fuel h i :
  (n - i < fuel)%nat -> (i < n)%nat -> (n <= length (view h))%nat ->
  down_ready (view h) i n -> ((0 < i)%nat -> le_at (view h) (parent i) i) ->
  heap_ordered_upto (view (down fuel h i n).1) n.
Proof.
  revert h i. induction fuel as [|fuel IH]; [lia|].
  intros h i Hfuel Hi Hn Hd Hpi. cbn [down].
  pose proof (least_child_spec h i n Hn) as Hlc.
  destruct (least_child h i n) as [j|].
  - destruct Hlc as (Hj & Hp & Hmin). pose proof (parent_lt j ltac:(lia)).
    destruct (lookup_lt_is_Some_2 (view h) i) as [a Ha]; [lia|].
    destruct (lookup_lt_is_Some_2 (view h) j) as [b Hb]; [lia|].
    rewrite (view_Less _ _ _ _ _ Hb Ha). destruct (vlt b a) eqn:Hlt.
    + assert (view (Swap i j h) = swap_list i j (view h)) as Hv
        by (apply view_Swap; lia).
      destruct (down_ready_swap (view h) i j n a b) as [Hd' Hall]; try done.
      apply IH; rewrite ?Hv, ?length_swap_list; try lia; [done|].
      intros _. apply Hall; [done|lia].
    + cbn [fst]. intros k Hk. destruct (decide (k = i)) as [->|]; [apply Hpi; lia|].
      destruct (decide (parent k = i)) as [Hki|]; [|by apply Hd].
      intros x y Hx Hy. rewrite Hki in Hx. assert (x = a) as -> by congruence.
      apply (vlt_trans_neg _ b); [done|]. by apply (Hmin k Hk Hki).
  - intros k Hk. destruct (decide (k = i)) as [->|]; [apply Hpi; lia|].
    apply Hd; [done|by apply Hlc|done].
Qed.

(** *** What [up] and [down] leave alone *)

Lemma up_frame fuel h j :
  (j < length (view h))%nat ->
  view (up fuel h j) ≡ₚ view h /\
  (forall k, (j < k)%nat -> view (up fuel h j) !! k = view h !! k).
Proof.
  revert h j. induction fuel as [|fuel IH]; [done|].
  intros h j Hj. cbn [up]. case_decide as Hp; [done|].
  destruct (Less h j (parent j)); [|done].
  assert (0 < j)%nat as Hj0 by (destruct j; [done|lia]).
  pose proof (parent_lt j Hj0) as Hpl.
  assert (view (Swap (parent j) j h) = swap_list (parent j) j (view h)) as Hv
    by (apply view_Swap; lia).
  destruct (IH (Swap (parent j) j h) (parent j)) as [IH1 IH2].
  { rewrite Hv, length_swap_list. lia. }
  split; [by rewrite IH1, Hv, swap_list_Permutation|].
  intros k Hk. rewrite IH2 by lia. rewrite Hv, lookup_swap_list by lia.
  by rewrite !decide_False by lia.
Qed.

Lemma down_frame n fuel h i :
  (n <= length (view h))%nat ->
  view (down fuel h i n).1 ≡ₚ view h /\
  (forall k, (n <= k)%nat -> view (down fuel h i n).1 !! k = view h !! k) /\
  (i <= (down fuel h i n).2)%nat /\
  ((down fuel h i n).2 = i -> (down fuel h i n).1 = h).
Proof.
  revert h i. induction fuel as [|fuel IH]; [done|].
  intros h i Hn. cbn [down]. pose proof (least_child_spec h i n Hn) as Hlc.
  destruct (least_child h i n) as [j|]; [|done].
  destruct Hlc as (Hj & Hp & _). pose proof (parent_lt j ltac:(lia)).
  destruct (Less h j i); [|done].
  assert (view (Swap i j h) = swap_list i j (view h)) as Hv by (apply view_Swap; lia).
  destruct (IH (Swap i j h) j) as (IH1 & IH2 & IH3 & _).
  { by rewrite Hv, length_swap_list. }
  split_and!; [by rewrite IH1, Hv, swap_list_Permutation| |lia|lia].
  intros k Hk. rewrite IH2 by lia. rewrite Hv, lookup_swap_list by lia.
  by rewrite !decide_False by lia.
Qed.

Lemma length_down n fuel h i :
  (n <= length (view h))%nat ->
  length (view (down fuel h i n).1) = length (view h).
Proof. intros Hn. apply Permutation_length. by apply down_frame. Qed.

(** *** [down], then [up] when the element did not move *)

Lemma fix_at_ordered n h i :
  (i < n)%nat -> (n <= length (view h))%nat -> down_ready (view h) i n ->
  heap_ordered_upto (view (fix_at h i n)) n.
Proof.
  intros Hi Hn Hd. unfold fix_at.
  pose proof (down_frame n (S n) h i Hn) as (_ & _ & Hle & Hsame).
  (* one step of [down], to see which way it goes *)
  cbn [down] in *. pose proof (least_child_spec h i n Hn) as Hlc.
  assert (forall k, (0 < k < n)%nat -> parent k = i -> (0 < i)%nat ->
    le_at (view h) (parent i) k) as Hgp by apply Hd.
  destruct (least_child h i n) as [j|].
  - destruct Hlc as (Hj & Hp & Hmin). pose proof (parent_lt j ltac:(lia)).
    destruct (lookup_lt_is_Some_2 (view h) i) as [a Ha]; [lia|].
    destruct (lookup_lt_is_Some_2 (view h) j) as [b Hb]; [lia|].
    rewrite (view_Less _ _ _ _ _ Hb Ha) in *. destruct (vlt b a) eqn:Hlt.
    + assert (view (Swap i j h) = swap_list i j (view h)) as Hv
        by (apply view_Swap; lia).
      destruct (down_ready_swap (view h) i j n a b) as [Hd' Hall]; try done.
      pose proof (down_frame n n (Swap i j h) j) as (_ & _ & Hle' & _).
      { by rewrite Hv, length_swap_list. }
      pose proof (down_ordered n n (Swap i j h) j) as Hord.
      destruct (down n (Swap i j h) j n) as [h' i']; cbn [fst snd] in *.
      rewrite decide_True by lia.
      apply Hord; rewrite ?Hv, ?length_swap_list; try lia; [done|].
      intros _. apply Hall; [done|lia].
    + rewrite decide_False by lia. apply up_ordered; [lia|done|done|].
      split; [|by apply Hd]. intros k Hk Hki.
      destruct (decide (parent k = i)) as [Hpk|]; [|by apply Hd].
      intros x y Hx Hy. rewrite Hpk in Hx. assert (x = a) as -> by congruence.
      apply (vlt_trans_neg _ b); [done|]. by apply (Hmin k Hk Hpk).
  - rewrite decide_False by lia. apply up_ordered; [lia|done|done|].
    split; [|by apply Hd]. intros k Hk Hki. apply Hd; [done|by apply Hlc|done].
Qed.

Lemma fix_at_frame n h i :
  (i < n)%nat -> (n <= length (view h))%nat ->
  view (fix_at h i n) ≡ₚ view h /\
  (forall k, (n <= k)%nat -> view (fix_at h i n) !! k = view h !! k).
Proof.
  intros Hi Hn. unfold fix_at.
  pose proof (down_frame n (S n) h i Hn) as (Hperm & Hk & _ & _).
  destruct (down (S n) h i n) as [h' i']; cbn [fst snd] in *.
  case_decide; [done|].
  pose proof (Permutation_length Hperm) as Hlen.
  destruct (up_frame (S i) h' i) as [Hp' Hk']; [lia|].
  split; [by rewrite Hp'|]. intros k Hnk. rewrite Hk' by lia. by apply Hk.
Qed.

(** ** The library's contract *)

Lemma heap_push_ordered e h :
  heap_ordered h ->
  heap_ordered (heap_push e h) /\ view (heap_push e h) ≡ₚ view_of e :: view h.
Proof.
  intros Hh. unfold heap_push. rewrite view_Len.
  pose proof (view_Push h e) as Hv. set (h1 := Push e h) in *.
  assert (length (view h1) = S (length (view h))) as Hl by (rewrite Hv; golia).
  destruct (up_frame (length (view h1)) h1 (length (view h1) - 1)) as [Hp _]; [lia|].
  split; [|by rewrite Hp, Hv, Permutation_app_comm].
  unfold heap_ordered. rewrite (Permutation_length Hp).
  apply up_ordered; [lia|lia|done|].
  split.
  - intros k Hk Hkn x y. pose proof (parent_lt k ltac:(lia)).
    rewrite Hv, !lookup_app_l by lia. apply Hh. lia.
  - intros k Hk Hpk. pose proof (parent_lt k ltac:(lia)). lia.
Qed.

Lemma heap_fix_ordered h i :
  (i < length (view h))%nat -> down_ready (view h) i (length (view h)) ->
  heap_ordered (heap_fix h i) /\ view (heap_fix h i) ≡ₚ view h.
Proof.
  intros Hi Hd. unfold heap_fix. rewrite view_Len.
  destruct (fix_at_frame (length (view h)) h i) as [Hp _]; [done|done|].
  split; [|done]. unfold heap_ordered. rewrite (Permutation_length Hp).
  by apply fix_at_ordered.
Qed.

Lemma ordered_upto_take l1 l2 n :
  (forall k, (k < n)%nat -> l1 !! k = l2 !! k) ->
  heap_ordered_upto l1 n -> heap_ordered_upto l2 n.
Proof.
  intros Heq Ho k Hk x y. pose proof (parent_lt k ltac:(lia)).
  rewrite <- !Heq by lia. by apply Ho.
Qed.

(** The element that [Pop] takes off, and what is left. *)
Lemma Pop_last h n e h' :
  length (view h) = S n -> heap_ordered_upto (view h) n -> Pop h = Some (e, h') ->
  heap_ordered h' /\ view h !! n = Some (view_of e) /\
  view h ≡ₚ view_of e :: view h'.
Proof.
  intros Hl Ho Hpop. apply view_Pop in Hpop as Hv.
  assert (length (view h') = n) as Hl' by (rewrite Hv in Hl; golia).
  split_and!.
  - unfold heap_ordered. rewrite Hl'. eapply ordered_upto_take; [|exact Ho].
    intros k Hk. rewrite Hv, lookup_app_l by lia. done.
  - rewrite Hv, lookup_app_r by lia. by rewrite Hl', Nat.sub_diag.
  - by rewrite Hv, Permutation_app_comm.
Qed.

(** Every value is above the first one. *)
Lemma heap_ordered_head l a :
  heap_ordered_upto l (length l) -> l !! 0%nat = Some a ->
  forall k b, l !! k = Some b -> vlt b a = false.
Proof.
  intros Ho Ha k. induction (lt_wf k) as [k _ IH]. intros b Hb.
  destruct (decide (k = 0%nat)) as [->|Hk].
  { assert (a = b) as -> by congruence. apply vlt_irrefl. }
  pose proof (lookup_lt_Some _ _ _ Hb). pose proof (parent_lt k ltac:(lia)) as Hpl.
  destruct (lookup_lt_is_Some_2 l (parent k)) as [c Hc]; [lia|].
  apply (vlt_trans_neg _ c); [by eapply IH|]. apply (Ho k); [lia|done|done].
Qed.

Lemma heap_pop_ordered h :
  heap_ordered h -> view h <> [] ->
  exists e h', heap_pop h = Some (e, h') /\ heap_ordered h' /\
    view h !! 0%nat = Some (view_of e) /\ view h ≡ₚ view_of e :: view h'.
Proof.
  intros Hh Hne. unfold heap_pop. rewrite view_Len.
  destruct (length (view h)) as [|n] eqn:Hl; [by destruct (view h)|].
  replace (S n - 1)%nat with n by lia.
  assert (view (Swap 0 n h) = swap_list 0 n (view h)) as Hv by (apply view_Swap; lia).
  set (h1 := Swap 0 n h) in *.
  assert (length (view h1) = S n) as Hl1 by (by rewrite Hv, length_swap_list).
  destruct (down_frame n (S n) h1 0) as (Hp & Hk & _); [lia|].
  set (h2 := (down (S n) h1 0 n).1) in *.
  assert (length (view h2) = S n) as Hl2 by (by rewrite (Permutation_length Hp)).
  destruct (view_Pop_Some h2) as [[e h'] Hpop]; [by destruct (view h2)|].
  assert (heap_ordered_upto (view h2) n) as Ho.
  { destruct (decide (n = 0%nat)) as [->|]; [intros k Hk0; lia|].
    apply down_ordered; [lia|lia|lia| |lia]. split; [|lia].
    intros k Hk0 Hpk Hk1 x y. pose proof (parent_lt k ltac:(lia)).
    rewrite Hv, !lookup_swap_list by lia. rewrite !decide_False by lia. apply Hh. lia. }
  destruct (Pop_last h2 n e h' Hl2 Ho Hpop) as (Ho' & Hlast & Hperm).
  exists e, h'. split_and!; [done|done| |].
  - rewrite <- Hlast, Hk by lia. rewrite Hv, lookup_swap_list by lia.
    case_decide as Hd; [by rewrite Hd|by rewrite decide_True].
  - by rewrite <- Hperm, Hp, Hv, swap_list_Permutation.
Qed.

Lemma heap_remove_ordered h i :
  heap_ordered h -> (i < length (view h))%nat ->
  exists e h', heap_remove h i = Some (e, h') /\ heap_ordered h' /\
    view h !! i = Some (view_of e) /\ view h ≡ₚ view_of e :: view h'.
Proof.
  intros Hh Hi. unfold heap_remove. rewrite view_Len.
  destruct (length (view h)) as [|n] eqn:Hl; [lia|].
  replace (S n - 1)%nat with n by lia.
  assert (heap_ordered_upto (view h) n) as Hon.
  { intros k Hk. apply Hh. lia. }
  case_decide as Hn.
  { subst i. destruct (view_Pop_Some h) as [[e h'] Hpop]; [by destruct (view h)|].
    destruct (Pop_last h n e h') as (? & ? & ?); [done..|]. naive_solver. }
  assert (view (Swap i n h) = swap_list i n (view h)) as Hv by (apply view_Swap; lia).
  set (h1 := Swap i n h) in *.
  assert (length (view h1) = S n) as Hl1 by (by rewrite Hv, length_swap_list).
  destruct (fix_at_frame n h1 i) as (Hp & Hk); [lia|lia|].
  assert (heap_ordered_upto (view (fix_at h1 i n)) n) as Ho.
  { apply fix_at_ordered; [lia|lia|]. split.
    - intros k Hk0 Hpk Hki x y. pose proof (parent_lt k ltac:(lia)).
      rewrite Hv, !lookup_swap_list by lia. rewrite !decide_False by lia. apply Hh. lia.
    - intros k Hk0 Hpk Hi0 x y. pose proof (parent_lt k ltac:(lia)).
      pose proof (parent_lt i ltac:(lia)).
      rewrite Hv, !lookup_swap_list by lia. rewrite !decide_False by lia. intros Hx Hy.
      destruct (lookup_lt_is_Some_2 (view h) i) as [a Ha]; [lia|].
      apply (vlt_trans_neg _ a); [by apply (Hh i ltac:(lia))|].
      apply (Hh k ltac:(lia)); [by rewrite Hpk|done]. }
  set (h2 := fix_at h1 i n) in *.
  assert (length (view h2) = S n) as Hl2 by (by rewrite (Permutation_length Hp)).
  destruct (view_Pop_Some h2) as [[e h'] Hpop]; [by destruct (view h2)|].
  destruct (Pop_last h2 n e h' Hl2 Ho Hpop) as (Ho' & Hlast & Hperm).
  exists e, h'. split_and!; [done|done| |].
  - rewrite <- Hlast, Hk by lia. rewrite Hv, lookup_swap_list by lia.
    rewrite decide_False by lia. by rewrite decide_True.
  - by rewrite <- Hperm, Hp, Hv, swap_list_Permutation.
Qed.
End laws.
