(* ===== verification/MessagePQ.v ===== *)
(** * MessagePQ: the hold-back queue of the multicast demo

    Models [multicast-demo/types/message.go] and
    [multicast-demo/types/priority_queue.go].  A [*Message] that is in the
    queue is the queue's own entry, so a pointer into the queue is a position;
    a message that is not in the queue is a value. *)
From S2P Require Import Prelude GoHeap.

Record Message : Set := mkMessage {
  Id : string;
  Sender : Z;
  Priority : Z;
  Index : Z;
  NodeId : string;
  RNodeId : string;
  Status : string;
  IsDeliverable : bool;
  IsDeposit : bool;
  Names : list string;
  Amount : Z;
}.

#[export] Instance Message_eq_dec : EqDecision Message.
Proof. solve_decision. Defined.

Definition set_Index (i : Z) (m : Message) : Message :=
  {| Id := Id m; Sender := Sender m; Priority := Priority m; Index := i;
     NodeId := NodeId m; RNodeId := RNodeId m; Status := Status m;
     IsDeliverable := IsDeliverable m; IsDeposit := IsDeposit m;
     Names := Names m; Amount := Amount m |}.
Definition set_Priority (p : Z) (m : Message) : Message :=
  {| Id := Id m; Sender := Sender m; Priority := p; Index := Index m;
     NodeId := NodeId m; RNodeId := RNodeId m; Status := Status m;
     IsDeliverable := IsDeliverable m; IsDeposit := IsDeposit m;
     Names := Names m; Amount := Amount m |}.
Definition set_RNodeId (r : string) (m : Message) : Message :=
  {| Id := Id m; Sender := Sender m; Priority := Priority m; Index := Index m;
     NodeId := NodeId m; RNodeId := r; Status := Status m;
     IsDeliverable := IsDeliverable m; IsDeposit := IsDeposit m;
     Names := Names m; Amount := Amount m |}.
Definition set_Status (s : string) (m : Message) : Message :=
  {| Id := Id m; Sender := Sender m; Priority := Priority m; Index := Index m;
     NodeId := NodeId m; RNodeId := RNodeId m; Status := s;
     IsDeliverable := IsDeliverable m; IsDeposit := IsDeposit m;
     Names := Names m; Amount := Amount m |}.
Definition set_IsDeliverable (b : bool) (m : Message) : Message :=
  {| Id := Id m; Sender := Sender m; Priority := Priority m; Index := Index m;
     NodeId := NodeId m; RNodeId := RNodeId m; Status := Status m;
     IsDeliverable := b; IsDeposit := IsDeposit m;
     Names := Names m; Amount := Amount m |}.

(** ** [type MessagePQ []*Message] and its methods *)

Abbreviation MessagePQ := (list Message).

(** The comparison inside [Less]. *)
Definition msg_lt (a b : Message) : bool :=
  (Priority a <? Priority b) ||
  ((Priority a =? Priority b) && (Sender a <? Sender b)).

Definition pq_Less (pq : MessagePQ) (i j : nat) : bool :=
  match pq !! i, pq !! j with
  | Some a, Some b => msg_lt a b
  | _, _ => false
  end.

Definition pq_Swap (i j : nat) (pq : MessagePQ) : MessagePQ :=
  match pq !! i, pq !! j with
  | Some a, Some b =>
      <[j := set_Index (Z.of_nat j) a]> (<[i := set_Index (Z.of_nat i) b]> pq)
  | _, _ => pq
  end.

Definition pq_Push (x : Message) (pq : MessagePQ) : MessagePQ :=
  pq ++ [set_Index (zlen pq) x].

Definition pq_Pop (pq : MessagePQ) : option (Message * MessagePQ) :=
  match last pq with
  | Some msg => Some (set_Index (-1) msg, take (length pq - 1) pq)
  | None => None
  end.

#[export] Instance pq_heap : HeapInterface MessagePQ Message := {
  Len := length;
  Less := pq_Less;
  Swap := pq_Swap;
  Push := pq_Push;
  Pop := pq_Pop;
}.

(** [pq.Update(message, priority)], [message] being the entry at [k]. *)
Definition Update (pq : MessagePQ) (k : nat) (priority : Z) : outcome MessagePQ :=
  match pq !! k with
  | Some message => Fix (<[k := set_Priority priority message]> pq) (Index message)
  | None => Crash NilDeref
  end.

(** [pq.Remove(message)], [message] being the entry at [k]. *)
Definition PQRemove (pq : MessagePQ) (k : nat) : outcome (Message * MessagePQ) :=
  match pq !! k with
  | Some message => Remove pq (Index message)
  | None => Crash NilDeref
  end.

(** [pq.FindById(Id)]: the position of the first entry with that id. *)
Fixpoint FindById (pq : MessagePQ) (id : string) : option nat :=
  match pq with
  | [] => None
  | item :: pq => if decide (Id item = id) then Some 0%nat else S <$> FindById pq id
  end.

(** [heap.Push(m.pq, &message)] *)
Definition pq_push (message : Message) (pq : MessagePQ) : MessagePQ :=
  heap_push message pq.

(** [heap.Pop(m.pq)] *)
Definition pq_pop (pq : MessagePQ) : outcome (Message * MessagePQ) := PopMin pq.

(** ** The queue implements the heap interface

    The view forgets [Index], which only records positions. *)
Definition erase (m : Message) : Message := set_Index (-1) m.

Lemma erase_set_Index i m : erase (set_Index i m) = erase m.
Proof. done. Qed.

Lemma msg_lt_spec a b :
  msg_lt a b = true <->
  Priority a < Priority b \/ (Priority a = Priority b /\ Sender a < Sender b).
Proof. unfold msg_lt. lia. Qed.

Lemma msg_lt_spec_false a b :
  msg_lt a b = false <->
  Priority b < Priority a \/ (Priority a = Priority b /\ Sender b <= Sender a).
Proof. unfold msg_lt. lia. Qed.

Lemma msg_lt_asym a b : msg_lt a b = true -> msg_lt b a = false.
Proof. rewrite msg_lt_spec, msg_lt_spec_false. lia. Qed.

Lemma msg_lt_trans_neg a b c :
  msg_lt b a = false -> msg_lt c b = false -> msg_lt c a = false.
Proof. rewrite !msg_lt_spec_false. lia. Qed.

Lemma fmap_erase_Swap i j (pq : MessagePQ) :
  (i < length pq)%nat -> (j < length pq)%nat ->
  erase <$> pq_Swap i j pq = swap_list i j (erase <$> pq).
Proof.
  intros [a Ha]%lookup_lt_is_Some_2 [b Hb]%lookup_lt_is_Some_2.
  unfold pq_Swap, swap_list. rewrite !list_lookup_fmap, Ha, Hb. cbn.
  rewrite !list_fmap_insert, !erase_set_Index.
  destruct (decide (i = j)) as [->|]; [|by rewrite list_insert_insert_ne].
  assert (a = b) as -> by congruence. done.
Qed.

#[export] Program Instance pq_heap_laws : HeapLaws MessagePQ Message Message := {
  view := fmap erase;
  view_of := erase;
  vlt := msg_lt;
  vlt_asym := msg_lt_asym;
  vlt_trans_neg := msg_lt_trans_neg;
}.
Next Obligation. intros h. cbn. by rewrite length_fmap. Qed.
Next Obligation.
  intros h i j a b. rewrite !list_lookup_fmap. cbn. unfold pq_Less.
  intros (x & -> & ->)%fmap_Some (y & -> & ->)%fmap_Some. done.
Qed.
Next Obligation.
  intros h i j. rewrite length_fmap. apply fmap_erase_Swap.
Qed.
Next Obligation. intros h e. cbn. unfold pq_Push. by rewrite fmap_app. Qed.
Next Obligation.
  intros h e h'. cbn. unfold pq_Pop. destruct (last h) as [m|] eqn:Hl; [|done].
  intros [= <- <-]. apply last_Some in Hl as [l ->].
  rewrite erase_set_Index. rewrite length_app, Nat.add_sub, take_app_length.
  by rewrite fmap_app.
Qed.
Next Obligation.
  intros h Hne. cbn. unfold pq_Pop. destruct (last h) eqn:Hl; [eauto|].
  apply last_None in Hl as ->. done.
Qed.

(** ** The queue's invariant: heap order, and every entry knows its position *)

Definition index_ok (pq : MessagePQ) : Prop :=
  forall k m, pq !! k = Some m -> Index m = Z.of_nat k.

Definition pq_ok (pq : MessagePQ) : Prop := heap_ordered pq /\ index_ok pq.

Lemma length_pq_Swap i j (pq : MessagePQ) : length (pq_Swap i j pq) = length pq.
Proof. unfold pq_Swap. repeat case_match; golia. Qed.

Lemma index_ok_Swap (pq : MessagePQ) i j : index_ok pq -> index_ok (pq_Swap i j pq).
Proof.
  intros Hok. unfold pq_Swap. destruct (pq !! i) as [a|] eqn:Ha; [|done].
  destruct (pq !! j) as [b|] eqn:Hb; [|done]. intros k m.
  rewrite !list_lookup_insert. repeat case_decide; destruct_and?; intros Hm; simplify_eq/=; eauto.
Qed.

Lemma index_ok_up fuel (pq : MessagePQ) j :
  (j < length pq)%nat -> index_ok pq -> index_ok (up fuel pq j).
Proof.
  exact (up_invariant index_ok (fun h i j => length_pq_Swap i j h)
    (fun h i j _ _ => index_ok_Swap h i j) fuel pq j).
Qed.

Lemma index_ok_down fuel (pq : MessagePQ) i n :
  (i < n)%nat -> (n <= length pq)%nat -> index_ok pq ->
  index_ok (down fuel pq i n).1 /\ length (down fuel pq i n).1 = length pq.
Proof.
  exact (down_invariant index_ok (fun h i j => length_pq_Swap i j h)
    (fun h i j _ _ => index_ok_Swap h i j) fuel pq i n).
Qed.

Lemma index_ok_fix_at (pq : MessagePQ) i n :
  (i < n)%nat -> (n <= length pq)%nat -> index_ok pq -> index_ok (fix_at pq i n).
Proof.
  exact (fix_at_invariant index_ok (fun h i j => length_pq_Swap i j h)
    (fun h i j _ _ => index_ok_Swap h i j) pq i n).
Qed.

Lemma index_ok_Push m (pq : MessagePQ) : index_ok pq -> index_ok (pq_Push m pq).
Proof.
  intros Hok k x. unfold pq_Push. intros [Hk|[Hk Hx]]%lookup_app_Some; [by apply Hok|].
  apply list_lookup_singleton_Some in Hx as [Hx <-]. cbn. golia.
Qed.

Lemma index_ok_Pop m (pq pq' : MessagePQ) :
  pq_Pop pq = Some (m, pq') -> index_ok pq -> index_ok pq' /\ Index m = -1.
Proof.
  unfold pq_Pop. destruct (last pq) as [x|]; [|done]. intros [= <- <-] Hok.
  split; [|done]. intros k y [Hk _]%lookup_take_Some. by apply Hok.
Qed.

#[export] Hint Resolve index_ok_Swap index_ok_up index_ok_fix_at index_ok_Push : go.

(** ** The operations preserve the invariant and do what they say *)

Lemma view_pq (pq : MessagePQ) : view pq = erase <$> pq.
Proof. done. Qed.

Lemma length_view_pq (pq : MessagePQ) : length (view pq) = length pq.
Proof. apply length_fmap. Qed.

(** [heap.Push(m.pq, &message)] keeps the invariant and adds the message. *)
Lemma pq_push_ok m (pq : MessagePQ) :
  pq_ok pq ->
  pq_ok (pq_push m pq) /\ erase <$> pq_push m pq ≡ₚ erase m :: (erase <$> pq).
Proof.
  intros [Ho Hi]. destruct (heap_push_ordered m pq Ho) as [Ho' Hp].
  split; [split; [done|]|done]. unfold pq_push, heap_push. cbn [Len Push pq_heap].
  apply index_ok_up; [unfold pq_Push; golia|by apply index_ok_Push].
Qed.

Lemma pq_ok_push m (pq : MessagePQ) : pq_ok pq -> pq_ok (pq_push m pq).
Proof. intros. by apply pq_push_ok. Qed.

Lemma pq_ok_nil : pq_ok [].
Proof. split; [intros k Hk; cbn in Hk; lia|done]. Qed.

#[export] Hint Resolve pq_ok_push pq_ok_nil : go.

Lemma pq_push_not_nil m (pq : MessagePQ) : pq_ok pq -> pq_push m pq <> [].
Proof.
  intros [_ Hp]%(pq_push_ok m) Hn. rewrite Hn in Hp. by apply Permutation_nil in Hp.
Qed.

(** [heap.Pop(m.pq)] on a queue that is not empty takes off a least message. *)
Lemma pq_pop_ok (pq : MessagePQ) :
  pq_ok pq -> pq <> [] ->
  exists m0 m pq', pq !! 0%nat = Some m0 /\ pq_pop pq = Ret (m, pq') /\
    m = erase m0 /\ pq_ok pq' /\ erase <$> pq ≡ₚ m :: (erase <$> pq') /\
    (forall x, x ∈ pq -> msg_lt x m0 = false).
Proof.
  intros [Ho Hi] Hne.
  destruct (heap_pop_ordered pq Ho) as (m & pq' & Hpop & Ho' & Hv & Hp).
  { rewrite view_pq. by destruct pq. }
  rewrite view_pq, list_lookup_fmap in Hv. apply fmap_Some in Hv as (m0 & Hm0 & Hv).
  assert (index_ok pq' /\ Index m = -1) as [Hi' Hm].
  { unfold heap_pop in Hpop. cbn [Len Swap Pop pq_heap] in Hpop.
    apply index_ok_Pop in Hpop; [done|].
    destruct pq as [|x pq]; [done|]. cbn [length]. rewrite Nat.sub_succ, Nat.sub_0_r.
    destruct (length pq) as [|n] eqn:Hl.
    { change (index_ok (pq_Swap 0 0 (x :: pq))). by apply index_ok_Swap. }
    apply index_ok_down; [lia|rewrite length_pq_Swap; golia|by apply index_ok_Swap]. }
  assert (m = erase m0) as ->.
  { rewrite <- Hv. destruct m; cbn in *. by rewrite Hm. }
  exists m0, (erase m0), pq'. split_and!; try done.
  - unfold pq_pop, PopMin. rewrite Hpop. cbn. destruct pq; [done|].
    rewrite decide_True by golia. done.
  - intros x [k Hk]%list_elem_of_lookup.
    apply (heap_ordered_head (view pq) (erase m0) Ho) with (k := k) (b := erase x).
    + by rewrite view_pq, list_lookup_fmap, Hm0.
    + by rewrite view_pq, list_lookup_fmap, Hk.
Qed.

Lemma view_insert_lookup (pq : MessagePQ) k m k' :
  view (<[k := m]> pq) !! k' =
    if decide (k = k' /\ (k < length pq)%nat) then Some (erase m) else view pq !! k'.
Proof.
  rewrite !view_pq, !list_lookup_fmap, list_lookup_insert.
  repeat case_decide; naive_solver lia.
Qed.

(** Writing one entry leaves every pair that does not involve it in order,
    which is what [heap.Fix] starts from. *)
Lemma down_ready_insert (pq : MessagePQ) k m :
  heap_ordered pq -> down_ready (view (<[k := m]> pq)) k (length pq).
Proof.
  intros Ho. unfold heap_ordered in Ho. rewrite length_view_pq in Ho. split.
  - intros j Hj Hp Hk x y. rewrite !view_insert_lookup.
    rewrite !decide_False by naive_solver. by apply Ho.
  - intros j Hj Hp Hk x y. pose proof (parent_lt j ltac:(lia)).
    pose proof (parent_lt k ltac:(lia)).
    rewrite !view_insert_lookup, !decide_False by lia. intros Hx Hy.
    destruct (lookup_lt_is_Some_2 (view pq) k) as [a Ha].
    { rewrite length_view_pq. lia. }
    apply (msg_lt_trans_neg _ a); [by apply (Ho k ltac:(lia))|].
    apply (Ho j ltac:(lia)); [by rewrite Hp|done].
Qed.

(** [m.pq.Update(oldMessage, agreed)], with the fields the caller sets on
    [oldMessage] first: the entry's priority changes, nothing else does, and
    the queue is in order again. *)
Lemma Update_ok (pq : MessagePQ) k m priority :
  pq_ok pq -> pq !! k = Some m ->
  exists pq', Update pq k priority = Ret pq' /\ pq_ok pq' /\
    erase <$> pq' ≡ₚ erase <$> <[k := set_Priority priority m]> pq.
Proof.
  intros [Ho Hi] Hk. pose proof (lookup_lt_Some _ _ _ Hk) as Hlt.
  unfold Update, Fix. rewrite Hk, (Hi k m Hk). set (m' := set_Priority priority m).
  rewrite decide_False by lia. cbn [Len pq_heap]. rewrite length_insert.
  rewrite decide_True by lia. rewrite Nat2Z.id.
  assert (index_ok (<[k := m']> pq)) as Hi'.
  { intros j x. rewrite list_lookup_insert. case_decide as Hd; [|by apply Hi].
    destruct Hd as [<- _]. intros [= <-]. exact (Hi k m Hk). }
  assert (length (view (<[k := m']> pq)) = length pq) as Hl.
  { rewrite length_view_pq. apply length_insert. }
  destruct (heap_fix_ordered (<[k := m']> pq) k) as [Ho' Hp].
  { by rewrite Hl. } { rewrite Hl. by apply down_ready_insert. }
  exists (heap_fix (<[k := m']> pq) k). split_and!; [done| |done].
  split; [done|]. unfold heap_fix. cbn [Len pq_heap]. rewrite length_insert.
  apply index_ok_fix_at; [done|by rewrite length_insert|done].
Qed.

(** [m.pq.Remove(item)] takes exactly that entry out. *)
Lemma PQRemove_ok (pq : MessagePQ) k m :
  pq_ok pq -> pq !! k = Some m ->
  exists pq', PQRemove pq k = Ret (erase m, pq') /\ pq_ok pq' /\
    erase <$> pq ≡ₚ erase m :: (erase <$> pq').
Proof.
  intros [Ho Hi] Hk. pose proof (lookup_lt_Some _ _ _ Hk) as Hlt.
  unfold PQRemove, Remove. rewrite Hk, (Hi k m Hk), Nat2Z.id.
  cbn [Len pq_heap]. rewrite decide_True by lia.
  destruct (heap_remove_ordered pq k Ho) as (e & pq' & Hrem & Ho' & Hv & Hp).
  { by rewrite length_view_pq. }
  rewrite view_pq, list_lookup_fmap, Hk in Hv. apply (inj Some) in Hv.
  assert (index_ok pq' /\ Index e = -1) as [Hi' He].
  { unfold heap_remove in Hrem. cbn [Len Swap Pop pq_heap] in Hrem.
    case_decide as Hd; apply index_ok_Pop in Hrem; try done.
    apply index_ok_fix_at; [lia|rewrite length_pq_Swap; lia|by apply index_ok_Swap]. }
  assert (e = erase m) as ->.
  { change (view_of e) with (erase e) in Hv. rewrite Hv.
    destruct e; cbn in *. by rewrite He. }
  exists pq'. rewrite Hrem. split_and!; done.
Qed.

Lemma FindById_Some (pq : MessagePQ) id k :
  FindById pq id = Some k <->
  (exists m, pq !! k = Some m /\ Id m = id) /\
  (forall j m, (j < k)%nat -> pq !! j = Some m -> Id m <> id).
Proof.
  revert k. induction pq as [|x pq IH]; intros k; cbn.
  { split; [done|]. by intros [(? & ? & _) _]. }
  case_decide as Hx.
  - split.
    + intros [= <-]. split; [by exists x|lia].
    + intros [(m & Hm & Hid) Hmin]. destruct k as [|k]; [done|].
      by destruct (Hmin 0%nat x ltac:(lia) eq_refl).
  - split.
    + intros (k' & Hk' & ->)%fmap_Some. apply IH in Hk' as [He Hmin].
      split; [done|]. intros [|j] m Hj; [naive_solver|]. apply Hmin. lia.
    + intros [(m & Hm & Hid) Hmin]. destruct k as [|k]; [naive_solver|].
      apply fmap_Some. exists k. split; [|done]. apply IH. split; [by exists m|].
      intros j y Hj Hy. apply (Hmin (S j)); [lia|done].
Qed.

Lemma FindById_None (pq : MessagePQ) id :
  FindById pq id = None <-> forall m, m ∈ pq -> Id m <> id.
Proof.
  induction pq as [|x pq IH]; cbn; [split; [set_solver|done]|].
  case_decide as Hx.
  - split; [done|]. intros Hall. destruct (Hall x); set_solver.
  - rewrite fmap_None, IH. set_solver.
Qed.

(** ** Refinement: the queue implements a priority queue

    The abstract state is the collection of queued messages (a list up to
    permutation, without the [Index] fields); [pq_abs] relates it to the
    heap. *)
Definition pq_abs (q : MessagePQ) (s : list Message) : Prop :=
  pq_ok q /\ erase <$> q ≡ₚ s.

#[export] Instance pq_abs_proper : Proper ((=) ==> (≡ₚ) ==> iff) pq_abs.
Proof. intros q ? <- s s' Hs. unfold pq_abs. by rewrite Hs. Qed.

(** C31 The queue refines the abstract priority queue: [Push] inserts,
    [heap.Pop] on a queue that is not empty returns and removes a message that
    no queued message precedes, [Update] replaces the priority of exactly one
    message, and [Remove] takes exactly that message out.  None of them
    panics, and each keeps the heap and the [Index] fields right. *)
Theorem MessagePQ_refines (q : MessagePQ) (s : list Message) :
  pq_abs q s ->
  (forall m, pq_abs (pq_push m q) (erase m :: s)) /\
  (q <> [] -> exists m q' s', pq_pop q = Ret (m, q') /\ s ≡ₚ m :: s' /\ pq_abs q' s' /\
     Index m = -1 /\ (forall x, x ∈ s -> msg_lt x m = false)) /\
  (forall k m p, q !! k = Some m ->
     exists q' s', Update q k p = Ret q' /\ s ≡ₚ erase m :: s' /\
       pq_abs q' (erase (set_Priority p m) :: s')) /\
  (forall k m, q !! k = Some m ->
     exists q' s', PQRemove q k = Ret (erase m, q') /\ s ≡ₚ erase m :: s' /\ pq_abs q' s').
Proof.
  intros [Hok Hs]. split_and!.
  - intros m. destruct (pq_push_ok m q Hok) as [H1 H2]. split; [done|]. by rewrite H2, Hs.
  - intros Hne. destruct (pq_pop_ok q Hok Hne) as (m0 & m & q' & H0 & H1 & -> & H2 & H3 & H4).
    exists (erase m0), q', (erase <$> q'). split_and!; [done|by rewrite <- Hs| |done|].
    + by split.
    + intros x. rewrite <- Hs. intros (y & -> & Hy)%list_elem_of_fmap. exact (H4 y Hy).
  - intros k m p Hk. destruct (Update_ok q k m p Hok Hk) as (q' & H1 & H2 & H3).
    exists q', (erase <$> delete k q). split_and!; [done| |split; [done|]].
    + rewrite <- Hs. by rewrite (delete_Permutation q k m) at 1.
    + rewrite H3. pose proof (lookup_lt_Some _ _ _ Hk).
      assert (<[k := set_Priority p m]> q !! k = Some (set_Priority p m)) as Hi
        by (by apply list_lookup_insert_eq).
      apply delete_Permutation in Hi. rewrite list_delete_insert in Hi. by rewrite Hi.
  - intros k m Hk. destruct (PQRemove_ok q k m Hok Hk) as (q' & H1 & H2 & H3).
    exists q', (erase <$> q'). split_and!; [done|by rewrite <- Hs|by split].
Qed.

Lemma MessagePQ_refines_witness :
  exists q s, pq_abs q s /\ q <> [] /\
  (forall m, pq_abs (pq_push m q) (erase m :: s)) /\
  (q <> [] -> exists m q' s', pq_pop q = Ret (m, q') /\ s ≡ₚ m :: s' /\ pq_abs q' s' /\
     Index m = -1 /\ (forall x, x ∈ s -> msg_lt x m = false)) /\
  (forall k m p, q !! k = Some m ->
     exists q' s', Update q k p = Ret q' /\ s ≡ₚ erase m :: s' /\
       pq_abs q' (erase (set_Priority p m) :: s')) /\
  (forall k m, q !! k = Some m ->
     exists q' s', PQRemove q k = Ret (erase m, q') /\ s ≡ₚ erase m :: s' /\ pq_abs q' s').
Proof.
  pose (m p := mkMessage "x" 1 p 0 "node1" "node1" "p" false true ["a"] 5).
  pose (q := pq_push (m 2) (pq_push (m 7) (pq_push (m 4) []))).
  exists q, (erase <$> q).
  assert (pq_abs q (erase <$> q)) as Hq by (split; [unfold q; auto 6 with go|done]).
  split; [exact Hq|]. split; [discriminate|].
  apply (MessagePQ_refines q (erase <$> q) Hq).
Defined.
