(* ===== verification/Multicast.v ===== *)
(** * Multicast: the ISIS total-order multicast of the multicast demo

    Models [multicast-demo/types/multicast.go].  [ISIS_step] is one iteration
    of the loop of [ISIS]: the failure handling of lines 103-120 followed by
    the branch the message's status selects.  What the iteration sends or
    delivers is the list of its outputs, in order. *)
From S2P Require Import Prelude GoHeap MessagePQ.

(** The fields of [type Multicast struct]; the mutexes and [bcast] (which only
    holds one) are left out, [m.pq] is the queue itself. *)
Record Multicast : Set := mkMulticast {
  A : Z;
  P : Z;
  curNodeId : string;
  aliveNodes : Z;
  nfailCheck : gmap string bool;
  messageCheck : gmap string bool;
  messageNCheck : gmap string Z;
  pq : MessagePQ;
  proposed : gmap string Z;
  repliers : gmap string Z;
}.

Definition set_P (p : Z) (m : Multicast) : Multicast :=
  {| A := A m; P := p; curNodeId := curNodeId m; aliveNodes := aliveNodes m;
     nfailCheck := nfailCheck m; messageCheck := messageCheck m;
     messageNCheck := messageNCheck m; pq := pq m; proposed := proposed m;
     repliers := repliers m |}.
Definition set_aliveNodes (n : Z) (m : Multicast) : Multicast :=
  {| A := A m; P := P m; curNodeId := curNodeId m; aliveNodes := n;
     nfailCheck := nfailCheck m; messageCheck := messageCheck m;
     messageNCheck := messageNCheck m; pq := pq m; proposed := proposed m;
     repliers := repliers m |}.
Definition set_nfailCheck (c : gmap string bool) (m : Multicast) : Multicast :=
  {| A := A m; P := P m; curNodeId := curNodeId m; aliveNodes := aliveNodes m;
     nfailCheck := c; messageCheck := messageCheck m;
     messageNCheck := messageNCheck m; pq := pq m; proposed := proposed m;
     repliers := repliers m |}.
Definition set_messageCheck (c : gmap string bool) (m : Multicast) : Multicast :=
  {| A := A m; P := P m; curNodeId := curNodeId m; aliveNodes := aliveNodes m;
     nfailCheck := nfailCheck m; messageCheck := c;
     messageNCheck := messageNCheck m; pq := pq m; proposed := proposed m;
     repliers := repliers m |}.
Definition set_messageNCheck (c : gmap string Z) (m : Multicast) : Multicast :=
  {| A := A m; P := P m; curNodeId := curNodeId m; aliveNodes := aliveNodes m;
     nfailCheck := nfailCheck m; messageCheck := messageCheck m;
     messageNCheck := c; pq := pq m; proposed := proposed m;
     repliers := repliers m |}.
Definition set_pq (q : MessagePQ) (m : Multicast) : Multicast :=
  {| A := A m; P := P m; curNodeId := curNodeId m; aliveNodes := aliveNodes m;
     nfailCheck := nfailCheck m; messageCheck := messageCheck m;
     messageNCheck := messageNCheck m; pq := q; proposed := proposed m;
     repliers := repliers m |}.
Definition set_proposed (c : gmap string Z) (m : Multicast) : Multicast :=
  {| A := A m; P := P m; curNodeId := curNodeId m; aliveNodes := aliveNodes m;
     nfailCheck := nfailCheck m; messageCheck := messageCheck m;
     messageNCheck := messageNCheck m; pq := pq m; proposed := c;
     repliers := repliers m |}.
Definition set_repliers (c : gmap string Z) (m : Multicast) : Multicast :=
  {| A := A m; P := P m; curNodeId := curNodeId m; aliveNodes := aliveNodes m;
     nfailCheck := nfailCheck m; messageCheck := messageCheck m;
     messageNCheck := messageNCheck m; pq := pq m; proposed := proposed m;
     repliers := c |}.

(** What an iteration does towards the outside: encode a message to the
    connection of a node, or hand a message to the application. *)
Inductive output : Set :=
  | OCast (to : string) (m : Message)
  | ODeliver (m : Message).

#[export] Instance output_eq_dec : EqDecision output.
Proof. solve_decision. Defined.

(** [b.bcast.Cast(encs[k], message)]: [encs[k]] is nil when there is no
    connection to [k].  [encs] lists the connected nodes, in the order in
    which the iteration ranges over the map. *)
Definition bcast_Cast (encs : list string) (k : string) (message : Message)
    : outcome (list output) :=
  if decide (k ∈ encs) then Ret [OCast k message] else Crash NilDeref.

(** A read of a map that may lack the key gives the zero value. *)
Definition map_Z (c : gmap string Z) (k : string) : Z := default 0 (c !! k).
Definition map_bool (c : gmap string bool) (k : string) : bool := default false (c !! k).

(** [m.Cast(encs, message)] *)
Definition Cast (m : Multicast) (encs : list string) (message : Message) : list output :=
  (fun k => OCast k message) <$>
    filter (fun k => map_bool (nfailCheck m) k = false) encs.

(** One iteration of [m.Deliver]'s loop: [None] is a decoding error, after
    which the loop ends.  The second component is what goes to [msgChan]. *)
Definition Deliver_step (m : Multicast) (locNodeid : string) (r : option Message)
    : Multicast * option Message :=
  match r with
  | None => (set_nfailCheck (<[locNodeid := true]> (nfailCheck m)) m, None)
  | Some message =>
      if decide (is_Some (messageCheck m !! Id message) /\ Status message = "i")
      then (m, None)
      else (m, Some (set_RNodeId locNodeid message))
  end.

(** ** Failure handling (lines 103-120)

    [for _, item := range *(m.pq)]: the range expression is evaluated once,
    so the loop visits the [n] positions of the array the queue had at the
    start; [Pop] has set the positions past the current length to nil. *)
Fixpoint failItems (fuel : nat) (i : nat) (encs : list string) (nFail : string)
    (q : MessagePQ) : outcome (MessagePQ * list output) :=
  match fuel with
  | O => Ret (q, [])
  | S fuel =>
      match q !! i with
      | Some item =>
          if decide (Status item = "p") then
            if decide (NodeId item = nFail) then
              '(_, q') ← PQRemove q i;
              failItems fuel (S i) encs nFail q'
            else
              let item' := set_Status "pf" item in
              out ← bcast_Cast encs (NodeId item) item';
              '(q', out') ← failItems fuel (S i) encs nFail (<[i := item']> q);
              Ret (q', out ++ out')
          else failItems fuel (S i) encs nFail q
      | None => failItems fuel (S i) encs nFail q
      end
  end.

(** [for nFail, f := range m.nfailCheck]; [keys] is the order of the range. *)
Fixpoint failScan (keys : list string) (encs : list string) (m : Multicast)
    : outcome (Multicast * list output) :=
  match keys with
  | [] => Ret (m, [])
  | nFail :: keys =>
      if decide (map_bool (nfailCheck m) nFail = true /\
                 map_Z (messageNCheck m) nFail = 0) then
        let m1 := set_messageNCheck
          (<[nFail := wrap64 (map_Z (messageNCheck m) nFail + 1)]> (messageNCheck m)) m in
        '(q, out) ← failItems (length (pq m1)) 0 encs nFail (pq m1);
        '(m2, out') ← failScan keys encs (set_pq q m1);
        Ret (m2, out ++ out')
      else failScan keys encs m
  end.

(** ** The branches of the loop *)

(** [cnt]: the nodes not known to have failed. *)
Definition alive_count (m : Multicast) : Z :=
  Z.of_nat (size (filter (fun kf => kf.2 = false) (nfailCheck m))).

(** The message with the agreed priority, sent to everybody. *)
Definition agree (m : Multicast) (encs : list string) (message : Message) : list output :=
  Cast m encs
    (set_Priority (map_Z (proposed m) (Id message)) (set_Status "a" message)).

(** The priority proposed for a new message, the new value of [m.P] (line 140) *)
Definition next_priority (m : Multicast) : Z := wrap64 (fmax (A m) (P m) + 1).

(** The message a node keeps and sends back for a new message: its own copy
    with the proposed priority (lines 138-143). *)
Definition proposal (m : Multicast) (message : Message) : Message :=
  set_IsDeliverable false
    (set_Priority (next_priority m) (set_Status "p" message)).

(** [if message.Status == "i"] (lines 122-150).  The message sent back is the
    variable whose address was pushed, so it carries the entry's [Index]. *)
Definition ISIS_i (m : Multicast) (encs : list string) (message : Message)
    : outcome (Multicast * list output) :=
  match messageCheck m !! Id message with
  | Some _ => Ret (m, [])
  | None =>
      let m1 := set_messageCheck (<[Id message := true]> (messageCheck m)) m in
      let relays := (fun k => OCast k message) <$>
        filter (fun k => k <> curNodeId m) encs in
      let message1 := proposal m message in
      let q := pq_push message1 (pq m1) in
      let m2 := set_pq q (set_P (next_priority m) m1) in
      let message2 := default message1 (FindById q (Id message) ≫= (q !!.)) in
      out ← bcast_Cast encs ("node" +:+ Itoa (Sender message)) message2;
      Ret (m2, relays ++ out)
  end.

(** [else if message.Status == "pf"] (lines 152-180) *)
Definition ISIS_pf (m : Multicast) (encs : list string) (message : Message)
    : Multicast * list output :=
  match messageNCheck m !! Id message with
  | Some _ => (m, [])
  | None =>
      let m1 := set_messageNCheck
        (<[Id message := wrap64 (map_Z (messageNCheck m) (Id message) + 1)]>
          (messageNCheck m)) m in
      let numOfReply := map_Z (repliers m1) (Id message) in
      let m2 := set_aliveNodes (alive_count m1) m1 in
      (m2, if decide (wrap64 (numOfReply + 1) = aliveNodes m2)
           then agree m2 encs message else [])
  end.

(** The new value of [m.proposed[message.Id]] (lines 194-201) *)
Definition propose (m : Multicast) (message : Message) : Multicast :=
  match proposed m !! Id message with
  | None => set_proposed (<[Id message := Priority message]> (proposed m)) m
  | Some priority =>
      if decide (priority < Priority message)
      then set_proposed (<[Id message := Priority message]> (proposed m)) m
      else m
  end.

(** [else if message.Status == "p"] (lines 182-231) *)
Definition ISIS_p (m : Multicast) (encs : list string) (message : Message)
    : outcome (Multicast * list output) :=
  m1 ← (if map_bool (nfailCheck m) (NodeId message) then
          match FindById (pq m) (Id message) with
          | Some k => '(_, q) ← PQRemove (pq m) k; Ret (set_pq q m)
          | None => Ret m
          end
        else Ret m);
  let m2 := propose m1 message in
  match repliers m2 !! Id message with
  | None => Ret (set_repliers (<[Id message := 1]> (repliers m2)) m2, [])
  | Some numOfReply =>
      let m3 := set_repliers
        (<[Id message := wrap64 (numOfReply + 1)]> (repliers m2)) m2 in
      let m4 := set_aliveNodes (alive_count m3) m3 in
      Ret (m4, if decide (wrap64 (numOfReply + 1) = aliveNodes m4)
               then agree m4 encs message else [])
  end.

(** [for m.pq.Len() > 0 && ... ] (lines 239-242): pop while the first entry is
    deliverable. *)
Fixpoint drain (fuel : nat) (q : MessagePQ) : outcome (MessagePQ * list Message) :=
  match fuel with
  | O => Block
  | S fuel =>
      match q !! 0%nat with
      | Some head =>
          if IsDeliverable head then
            '(message, q') ← pq_pop q;
            '(q'', delivered) ← drain fuel q';
            Ret (q'', message :: delivered)
          else Ret (q, [])
      | None => Ret (q, [])
      end
  end.

(** The last branch: the agreed priority arrives (lines 232-243). *)
Definition ISIS_a (m : Multicast) (message : Message) : outcome (Multicast * list output) :=
  match FindById (pq m) (Id message) with
  | None => Crash NilDeref
  | Some k =>
      let q1 := alter (set_IsDeliverable true) k (pq m) in
      q2 ← Update q1 k (Priority message);
      '(q3, delivered) ← drain (S (length q2)) q2;
      Ret (set_pq q3 m, fmap (M := list) ODeliver delivered)
  end.

(** One iteration of the loop of [ISIS] on the message received from
    [msgChan]; [keys] is the order in which it ranges over [nfailCheck]. *)
Definition ISIS_step (m : Multicast) (keys encs : list string) (message : Message)
    : outcome (Multicast * list output) :=
  '(m1, out) ← failScan keys encs m;
  '(m2, out') ←
    (if decide (Status message = "i") then ISIS_i m1 encs message
     else if decide (Status message = "pf") then Ret (ISIS_pf m1 encs message)
     else if decide (Status message = "p") then ISIS_p m1 encs message
     else ISIS_a m1 message);
  Ret (m2, out ++ out').

(** The state [Node.Run] gives a node before it starts the loop (node.go,
    lines 92-114 and 184-192): [nodes] are the connected nodes. *)
Definition Multicast_init (cur : string) (nodes : list string) : Multicast := {|
  A := 0; P := 0; curNodeId := cur; aliveNodes := zlen nodes;
  nfailCheck := list_to_map ((fun k => (k, false)) <$> nodes);
  messageCheck := ∅;
  messageNCheck := list_to_map ((fun k => (k, 0)) <$> nodes);
  pq := []; proposed := ∅; repliers := ∅;
|}.

(** ** The invariant of a node

    The queue is a heap whose entries know their positions, and a message is
    in it at most once and only after its id was recorded in
    [messageCheck]. *)
Definition mc_ok (m : Multicast) : Prop :=
  pq_ok (pq m) /\ NoDup (Id <$> pq m) /\
  (forall x, x ∈ pq m -> is_Some (messageCheck m !! Id x)).

Lemma fmap_Id_erase (q : MessagePQ) : Id <$> (erase <$> q) = Id <$> q.
Proof. rewrite <- list_fmap_compose. by apply list_fmap_ext. Qed.

Lemma Permutation_ids (q q' : MessagePQ) :
  erase <$> q ≡ₚ erase <$> q' -> Id <$> q ≡ₚ Id <$> q'.
Proof. intros H. apply (fmap_Permutation Id) in H. by rewrite !fmap_Id_erase in H. Qed.

Lemma elem_of_erase_perm (q : MessagePQ) (l : list Message) x :
  erase <$> q ≡ₚ erase <$> l -> x ∈ q -> exists y, y ∈ l /\ erase x = erase y.
Proof.
  intros Hp Hx. assert (erase x ∈ erase <$> l) as Hl.
  { rewrite <- Hp. by apply list_elem_of_fmap_2. }
  apply list_elem_of_fmap in Hl as (y & -> & Hy). by exists y.
Qed.

(** Rewriting the fields of an entry that order and position do not depend on. *)
Lemma pq_ok_insert_same (q : MessagePQ) k a b :
  pq_ok q -> q !! k = Some a ->
  Priority b = Priority a -> Sender b = Sender a -> Index b = Index a ->
  pq_ok (<[k := b]> q).
Proof.
  intros [Ho Hi] Hk Hp Hs Hx.
  assert (forall x, msg_lt x (erase b) = msg_lt x (erase a)) as Hl.
  { intros x. unfold msg_lt. cbn. by rewrite Hp, Hs. }
  assert (forall x, msg_lt (erase b) x = msg_lt (erase a) x) as Hr.
  { intros x. unfold msg_lt. cbn. by rewrite Hp, Hs. }
  assert (view q !! k = Some (erase a)) as Hv by (by rewrite view_pq, list_lookup_fmap, Hk).
  split.
  - unfold heap_ordered in *. rewrite length_view_pq in *. rewrite length_insert.
    intros j Hj x y Hx' Hy'.
    rewrite view_insert_lookup in Hx', Hy'.
    assert (exists x', view q !! parent j = Some x' /\ forall z, msg_lt z x = msg_lt z x')
      as (x' & Hx1 & Hx2).
    { destruct (decide (k = parent j /\ _)) as [[<- _]|]; [|by exists x].
      apply (inj Some) in Hx' as <-. by exists (erase a). }
    assert (exists y', view q !! j = Some y' /\ forall z, msg_lt y z = msg_lt y' z)
      as (y' & Hy1 & Hy2).
    { destruct (decide (k = j /\ _)) as [[<- _]|]; [|by exists y].
      apply (inj Some) in Hy' as <-. by exists (erase a). }
    change (msg_lt y x = false). rewrite Hx2, Hy2. exact (Ho j Hj x' y' Hx1 Hy1).
  - intros j x. rewrite list_lookup_insert. case_decide as Hd; [|by apply Hi].
    destruct Hd as [<- _]. intros [= <-]. rewrite Hx. exact (Hi k a Hk).
Qed.

Lemma fmap_Id_insert (q : MessagePQ) k a b :
  q !! k = Some a -> Id b = Id a -> Id <$> <[k := b]> q = Id <$> q.
Proof.
  intros Hk Hid. rewrite list_fmap_insert, Hid. apply list_insert_id.
  by rewrite list_lookup_fmap, Hk.
Qed.

Lemma elem_of_ids (q : MessagePQ) id : id ∈ Id <$> q <-> exists x, x ∈ q /\ Id x = id.
Proof. rewrite list_elem_of_fmap. naive_solver. Qed.

(** [mc_ok] only depends on the ids the queue holds. *)
Definition ids_ok (q : MessagePQ) (check : gmap string bool) : Prop :=
  NoDup (Id <$> q) /\ forall id, id ∈ Id <$> q -> is_Some (check !! id).

Lemma mc_ok_ids m :
  mc_ok m <-> pq_ok (pq m) /\ ids_ok (pq m) (messageCheck m).
Proof.
  unfold mc_ok, ids_ok. setoid_rewrite elem_of_ids. naive_solver.
Qed.

Lemma ids_ok_submseteq (q q' : MessagePQ) check :
  Id <$> q' ⊆+ Id <$> q -> ids_ok q check -> ids_ok q' check.
Proof.
  intros Hsub [Hnd Hall]. split.
  { apply submseteq_Permutation in Hsub as [k Hk]. rewrite Hk in Hnd.
    by apply NoDup_app in Hnd as [Hnd _]. }
  intros id Hid. apply Hall. by eapply elem_of_submseteq.
Qed.

Lemma PQRemove_ids (q q' : MessagePQ) k r check :
  pq_ok q -> ids_ok q check -> PQRemove q k = Ret (r, q') ->
  pq_ok q' /\ ids_ok q' check /\ Id <$> q' ⊆+ Id <$> q.
Proof.
  intros Hok Hids Hr. destruct (q !! k) as [x|] eqn:Hk.
  - destruct (PQRemove_ok q k x Hok Hk) as (q1 & Hr' & Hok' & Hp).
    rewrite Hr' in Hr. injection Hr as _ <-.
    assert (Id <$> q1 ⊆+ Id <$> q) as Hsub.
    { apply (fmap_Permutation Id) in Hp. cbn in Hp. rewrite !fmap_Id_erase in Hp.
      rewrite Hp. by apply submseteq_cons. }
    split_and!; [done| |done]. by eapply ids_ok_submseteq.
  - unfold PQRemove in Hr. by rewrite Hk in Hr.
Qed.

Lemma failItems_ok fuel i encs nFail (q q' : MessagePQ) out check :
  pq_ok q -> ids_ok q check ->
  failItems fuel i encs nFail q = Ret (q', out) ->
  pq_ok q' /\ ids_ok q' check /\ Id <$> q' ⊆+ Id <$> q.
Proof.
  revert i q q' out. induction fuel as [|fuel IH]; intros i q q' out Hok Hids H.
  { by injection H as <- _. }
  cbn [failItems] in H. destruct (q !! i) as [item|] eqn:Hi; [|by eapply IH].
  case_decide; [|by eapply IH]. case_decide.
  - bind_inv H. destruct r as [r q1]. eapply PQRemove_ids in E as (? & ? & Hsub); [|done..].
    eapply IH in H as (? & ? & ?); [|done..]. split_and!; [done|done|by etrans].
  - bind_inv H. bind_inv H. destruct r0 as [q1 out1]. injection H as <- _.
    assert (Id <$> <[i := set_Status "pf" item]> q = Id <$> q) as Hsame
      by (by eapply fmap_Id_insert).
    rewrite <- Hsame. eapply IH; [..|done].
    + by eapply pq_ok_insert_same.
    + unfold ids_ok. by rewrite Hsame.
Qed.

Lemma failScan_ok keys encs m m' out :
  mc_ok m -> failScan keys encs m = Ret (m', out) ->
  mc_ok m' /\ messageCheck m' = messageCheck m /\ Id <$> pq m' ⊆+ Id <$> pq m.
Proof.
  revert m m' out. induction keys as [|nFail keys IH]; intros m m' out Hok H.
  { by injection H as <- _. }
  cbn [failScan] in H. case_decide; [|by eapply IH].
  bind_inv H. destruct r as [q1 o1]. bind_inv H. destruct r as [m2 o2].
  injection H as <- _. apply mc_ok_ids in Hok as [Hpq Hids]. cbn [pq set_messageNCheck] in E.
  eapply failItems_ok in E as (Hpq' & Hids' & Hsub); [|done..].
  eapply IH in E0 as (? & ? & ?); [|by apply mc_ok_ids]. split_and!; [done|done|by etrans].
Qed.

(** A scan only sends: it delivers nothing. *)
Definition is_cast (o : output) : Prop := match o with OCast _ _ => True | _ => False end.

Lemma bcast_Cast_casts encs k message out :
  bcast_Cast encs k message = Ret out -> Forall is_cast out.
Proof. unfold bcast_Cast. case_decide; [|done]. intros [= <-]. by constructor. Qed.

Lemma failItems_casts fuel i encs nFail (q q' : MessagePQ) out :
  failItems fuel i encs nFail q = Ret (q', out) -> Forall is_cast out.
Proof.
  revert i q q' out. induction fuel as [|fuel IH]; intros i q q' out H.
  { injection H as _ <-. constructor. }
  cbn [failItems] in H. destruct (q !! i) as [item|] eqn:Hi; [|by eapply IH].
  case_decide; [|by eapply IH]. case_decide.
  - bind_inv H. destruct r as [r q1]. by eapply IH.
  - bind_inv H. bind_inv H. destruct r0 as [q1 out1]. injection H as _ <-.
    apply Forall_app. split; [by eapply bcast_Cast_casts|by eapply IH].
Qed.

Lemma failScan_casts keys encs m m' out :
  failScan keys encs m = Ret (m', out) -> Forall is_cast out.
Proof.
  revert m m' out. induction keys as [|nFail keys IH]; intros m m' out H.
  { injection H as _ <-. constructor. }
  cbn [failScan] in H. case_decide; [|by eapply IH].
  bind_inv H. destruct r as [q1 o1]. bind_inv H. destruct r as [m2 o2]. injection H as _ <-.
  apply Forall_app. split; [by eapply failItems_casts|by eapply IH].
Qed.

Lemma fmap_OCast_casts (ks : list string) (f : string -> Message) :
  Forall is_cast ((fun k => OCast k (f k)) <$> ks).
Proof. apply Forall_fmap. by apply Forall_true. Qed.

#[export] Hint Resolve bcast_Cast_casts fmap_OCast_casts : go.

(** *** The delivery loop *)

(** The loop ends within [length q + 1] iterations; it takes messages off in
    nondecreasing order, all of them deliverable, none above one that stays,
    and stops at a first entry that is not deliverable. *)
Lemma drain_spec fuel (q : MessagePQ) :
  pq_ok q -> (length q < fuel)%nat ->
  exists q' ds, drain fuel q = Ret (q', ds) /\ pq_ok q' /\
    erase <$> q ≡ₚ ds ++ (erase <$> q') /\
    StronglySorted (fun a b => msg_lt b a = false) ds /\
    Forall (fun d => IsDeliverable d = true) ds /\
    (forall d x, d ∈ ds -> x ∈ q' -> msg_lt x d = false) /\
    (forall h, q' !! 0%nat = Some h -> IsDeliverable h = false).
Proof.
  revert q. induction fuel as [|fuel IH]; intros q Hok Hlen; [lia|]. cbn [drain].
  destruct (q !! 0%nat) as [hd|] eqn:Hh.
  2:{ exists q, []. split_and!; try done; [constructor|set_solver|congruence]. }
  destruct (IsDeliverable hd) eqn:Hd.
  2:{ exists q, []. split_and!; try done; [constructor|set_solver|congruence]. }
  destruct (pq_pop_ok q Hok) as (m0 & m & q1 & Hm0 & Hpop & -> & Hok1 & Hp & Hmin).
  { intros ->. done. }
  assert (m0 = hd) as -> by congruence.
  pose proof (Permutation_length Hp) as Hl. rewrite length_cons, !length_fmap in Hl.
  destruct (IH q1 Hok1 ltac:(lia)) as (q' & ds & Hdr & Hok' & Hp' & Hs & Hall & Hle & Hstop).
  rewrite Hpop. cbn. rewrite Hdr. cbn. exists q', (erase hd :: ds).
  assert (forall x, erase x ∈ ds ++ (erase <$> q') -> msg_lt x hd = false) as Hmin'.
  { intros x Hx. rewrite <- Hp' in Hx. assert (erase x ∈ erase <$> q) as Hq.
    { rewrite Hp. by right. }
    apply list_elem_of_fmap in Hq as (y & Hy & Hyq).
    change (msg_lt (erase x) hd = false). rewrite Hy.
    exact (Hmin y Hyq). }
  assert (forall d, d ∈ ds -> erase d = d) as Her.
  { intros d Hd'. assert (d ∈ erase <$> q1) as Hq1 by (rewrite Hp'; set_solver).
    by apply list_elem_of_fmap in Hq1 as (y & -> & _). }
  split_and!; try done.
  - by rewrite Hp, Hp'.
  - constructor; [done|]. apply Forall_forall. intros d Hd'. apply Hmin'.
    rewrite Her; set_solver.
  - by constructor.
  - intros d x [->|Hd']%elem_of_cons Hx; [|by apply Hle].
    apply Hmin'. apply elem_of_app. right. by apply list_elem_of_fmap_2.
Qed.

(** *** Each branch keeps the invariant *)

Lemma ids_ok_push msg (q : MessagePQ) check :
  pq_ok q -> ids_ok q check -> check !! Id msg = None ->
  ids_ok (pq_push msg q) (<[Id msg := true]> check).
Proof.
  intros Hok [Hnd Hall] Hnone. destruct (pq_push_ok msg q Hok) as [_ Hp].
  assert (Id <$> pq_push msg q ≡ₚ Id msg :: (Id <$> q)) as Hids.
  { apply (fmap_Permutation Id) in Hp. cbn in Hp. by rewrite !fmap_Id_erase in Hp. }
  assert (Id msg ∉ Id <$> q) as Hnew.
  { intros Hin. apply Hall in Hin as [b Hb]. congruence. }
  split; [rewrite Hids; by constructor|]. intros id. rewrite Hids.
  intros [->|Hid]%elem_of_cons; [by rewrite lookup_insert_eq|].
  rewrite lookup_insert_is_Some. destruct (decide (Id msg = id)); auto.
Qed.

Lemma ISIS_i_ok m encs message m' out :
  mc_ok m -> ISIS_i m encs message = Ret (m', out) -> mc_ok m'.
Proof.
  rewrite !mc_ok_ids. intros [Hpq Hids]. unfold ISIS_i.
  destruct (messageCheck m !! Id message) eqn:Hc; [by intros [= <- _]|].
  intros H. bind_inv H. injection H as <- _. cbn [pq messageCheck set_pq set_P set_messageCheck].
  set (msg := proposal _ _). change (Id message) with (Id msg).
  split; [by apply pq_push_ok|by apply ids_ok_push].
Qed.

Lemma propose_frame m message :
  pq (propose m message) = pq m /\ messageCheck (propose m message) = messageCheck m /\
  repliers (propose m message) = repliers m /\ nfailCheck (propose m message) = nfailCheck m /\
  A (propose m message) = A m /\ P (propose m message) = P m.
Proof. unfold propose. repeat case_match; done. Qed.

Lemma ISIS_p_ok m encs message m' out :
  mc_ok m -> ISIS_p m encs message = Ret (m', out) -> mc_ok m'.
Proof.
  intros Hok H. unfold ISIS_p in H. bind_inv H. rename r into m1.
  assert (mc_ok m1) as Hok1.
  { destruct (map_bool _ _); [|by injection E as <-]. destruct (FindById _ _) as [k|]; [|by injection E as <-].
    bind_inv E. destruct r as [r q]. cbn in E. injection E as <-. rewrite mc_ok_ids in Hok |- *.
    destruct Hok as [Hpq Hids].
    by eapply PQRemove_ids in E0 as (? & ? & _). }
  clear Hok E. rewrite mc_ok_ids in Hok1 |- *.
  destruct (propose_frame m1 message) as (Hq & Hc & _).
  destruct (repliers _ !! _); injection H as <- _;
    cbn [pq messageCheck set_repliers set_aliveNodes]; by rewrite Hq, Hc.
Qed.

Lemma ISIS_pf_ok m encs message : mc_ok m -> mc_ok (ISIS_pf m encs message).1.
Proof. unfold ISIS_pf. by case_match. Qed.

(** The last branch, when the message is in the queue at [k]. *)
Lemma ISIS_a_spec m message k old :
  mc_ok m -> FindById (pq m) (Id message) = Some k -> pq m !! k = Some old ->
  exists q' ds,
    ISIS_a m message = Ret (set_pq q' m, ODeliver <$> ds) /\ pq_ok q' /\
    <[k := set_Priority (Priority message) (set_IsDeliverable true (erase old))]>
      (erase <$> pq m) ≡ₚ ds ++ (erase <$> q') /\
    StronglySorted (fun a b => msg_lt b a = false) ds /\
    Forall (fun d => IsDeliverable d = true) ds /\
    (forall d x, d ∈ ds -> x ∈ q' -> msg_lt x d = false) /\
    (forall h, q' !! 0%nat = Some h -> IsDeliverable h = false).
Proof.
  intros (Hpq & _) Hf Hk. unfold ISIS_a. rewrite Hf.
  assert (alter (set_IsDeliverable true) k (pq m)
    = <[k := set_IsDeliverable true old]> (pq m)) as ->.
  { apply list_eq. intros j. pose proof (lookup_lt_Some _ _ _ Hk).
    destruct (decide (k = j)) as [<-|].
    - rewrite list_lookup_alter_eq, Hk. by rewrite list_lookup_insert_eq.
    - by rewrite list_lookup_alter_ne, list_lookup_insert_ne. }
  pose proof (pq_ok_insert_same (pq m) k old (set_IsDeliverable true old) Hpq Hk) as Hok1.
  set (q1 := <[k := set_IsDeliverable true old]> (pq m)) in *.
  assert (q1 !! k = Some (set_IsDeliverable true old)) as Hk1.
  { apply list_lookup_insert_eq. by eapply lookup_lt_Some. }
  destruct (Update_ok q1 k _ (Priority message) ltac:(by apply Hok1) Hk1)
    as (q2 & Hup & Hok2 & Hp2).
  destruct (drain_spec (S (length q2)) q2 Hok2 ltac:(lia)) as (q' & ds & Hdr & H1 & H2 & H3 & H4 & H5 & H6).
  exists q', ds. rewrite Hup, bind_Ret_l, Hdr, bind_Ret_l. split_and!; try done.
  rewrite <- H2, Hp2. unfold q1. rewrite list_insert_insert_eq, list_fmap_insert. done.
Qed.

Lemma ISIS_a_ok m message m' out :
  mc_ok m -> ISIS_a m message = Ret (m', out) -> mc_ok m'.
Proof.
  intros Hok H. destruct (FindById (pq m) (Id message)) as [k|] eqn:Hf.
  2:{ unfold ISIS_a in H. by rewrite Hf in H. }
  destruct (proj1 (FindById_Some _ _ _) Hf) as [(old & Hk & Hid) _].
  destruct (ISIS_a_spec m message k old Hok Hf Hk) as (q' & ds & Hs & Hq' & Hp & _).
  rewrite Hs in H. injection H as <- _. rewrite mc_ok_ids in *.
  split; [done|]. cbn [pq messageCheck set_pq]. destruct Hok as [_ Hids].
  eapply ids_ok_submseteq; [|exact Hids].
  assert (Id <$> pq m ≡ₚ (Id <$> ds) ++ (Id <$> q')) as ->.
  { apply (fmap_Permutation Id) in Hp. rewrite fmap_app, fmap_Id_erase in Hp. rewrite <- Hp.
    erewrite fmap_Id_insert; [by rewrite fmap_Id_erase|by rewrite list_lookup_fmap, Hk|done]. }
  apply submseteq_inserts_l. done.
Qed.

(** ** Agreement of two queues *)

Definition order_key (m : Message) : Z * Z := (Priority m, Sender m).

Lemma msg_lt_total a b :
  msg_lt a b = false -> msg_lt b a = false -> order_key a = order_key b.
Proof. rewrite !msg_lt_spec_false. unfold order_key. intros. f_equal; lia. Qed.

Lemma fmap_order_key_erase (q : MessagePQ) :
  order_key <$> (erase <$> q) = order_key <$> q.
Proof. rewrite <- list_fmap_compose. by apply list_fmap_ext. Qed.

(** A least entry of each of two queues with the same contents is the same
    message when no two messages compare equal. *)
Lemma same_head (q1 q2 : MessagePQ) h1 h2 :
  erase <$> q1 ≡ₚ erase <$> q2 -> NoDup (order_key <$> q1) ->
  h1 ∈ q1 -> h2 ∈ q2 ->
  (forall x, x ∈ q1 -> msg_lt x h1 = false) ->
  (forall x, x ∈ q2 -> msg_lt x h2 = false) -> erase h1 = erase h2.
Proof.
  intros Hp Hnd H1 H2 Hm1 Hm2.
  destruct (elem_of_erase_perm q1 q2 h1 Hp H1) as (h1' & Hq2 & He1).
  destruct (elem_of_erase_perm q2 q1 h2 (symmetry Hp) H2) as (h2' & Hq1 & He2).
  assert (order_key h1 = order_key h2') as Hkey.
  { change (order_key (erase h1) = order_key (erase h2')).
    apply msg_lt_total; [|exact (Hm1 _ Hq1)].
    change (msg_lt (erase h1) (erase h2') = false). rewrite He1, <- He2.
    exact (Hm2 _ Hq2). }
  rewrite He2. f_equal.
  apply list_elem_of_lookup in H1 as [i Hi]. apply list_elem_of_lookup in Hq1 as [j Hj].
  assert (i = j) as <-; [|congruence].
  eapply NoDup_lookup; [exact Hnd|..]; rewrite list_lookup_fmap.
  - by rewrite Hi.
  - rewrite Hj. cbn. by rewrite Hkey.
Qed.

Lemma drain_same fuel1 fuel2 (q1 q2 : MessagePQ) :
  pq_ok q1 -> pq_ok q2 -> erase <$> q1 ≡ₚ erase <$> q2 -> NoDup (order_key <$> q1) ->
  (length q1 < fuel1)%nat -> (length q2 < fuel2)%nat ->
  exists q1' q2' ds, drain fuel1 q1 = Ret (q1', ds) /\ drain fuel2 q2 = Ret (q2', ds) /\
    erase <$> q1' ≡ₚ erase <$> q2'.
Proof.
  revert fuel2 q1 q2. induction fuel1 as [|fuel1 IH]; intros fuel2 q1 q2; [lia|].
  intros Hok1 Hok2 Hp Hnd Hl1 Hl2. destruct fuel2 as [|fuel2]; [lia|].
  pose proof (Permutation_length Hp) as Hlen. rewrite !length_fmap in Hlen.
  destruct q1 as [|x1 l1]; [destruct q2; [|done]; by exists [], [], []|].
  destruct q2 as [|x2 l2]; [done|].
  destruct (pq_pop_ok _ Hok1 ltac:(done)) as (h1 & m1 & q1 & Hh1 & Hpop1 & -> & Ho1 & Hp1 & Hm1).
  destruct (pq_pop_ok _ Hok2 ltac:(done)) as (h2 & m2 & q2 & Hh2 & Hpop2 & -> & Ho2 & Hp2 & Hm2).
  assert (erase h1 = erase h2) as Hh.
  { eapply same_head; [exact Hp|exact Hnd| | |exact Hm1|exact Hm2];
      by eapply list_elem_of_lookup_2. }
  cbn [drain]. rewrite Hh1, Hh2.
  assert (IsDeliverable h1 = IsDeliverable h2) as ->.
  { change (IsDeliverable (erase h1) = IsDeliverable (erase h2)). by rewrite Hh. }
  destruct (IsDeliverable h2); [|by exists (x1 :: l1), (x2 :: l2), []].
  rewrite Hpop1, Hpop2. cbn.
  pose proof (Permutation_length Hp1) as Hlp1. pose proof (Permutation_length Hp2) as Hlp2.
  cbn in Hlp1, Hlp2, Hl1, Hl2. rewrite !length_fmap in Hlp1, Hlp2.
  destruct (IH fuel2 q1 q2) as (q1' & q2' & ds & -> & -> & Hp'); [done|done| | |lia|lia|].
  - apply (Permutation_cons_inv (a := erase h1)). by rewrite <- Hp1, Hh, <- Hp2.
  - rewrite <- fmap_order_key_erase, Hp1 in Hnd. cbn in Hnd.
    apply NoDup_cons in Hnd as [_ Hnd]. by rewrite fmap_order_key_erase in Hnd.
  - rewrite Hh. cbn. by exists q1', q2', (erase h2 :: ds).
Qed.
