(* ===== verification/MulticastProps.v ===== *)
(** * MulticastProps: what an ISIS node guarantees

    The theorems about one node: its invariant, the delivery loop, the
    priorities it proposes and the priority the sender agrees on.  [ISIS_run]
    is the loop of [ISIS] over the messages a node takes from [msgChan]. *)
From S2P Require Import Prelude GoHeap MessagePQ Multicast.

(** The loop of [ISIS] on a sequence of messages. *)
Fixpoint ISIS_run (keys encs : list string) (m : Multicast) (msgs : list Message)
    : outcome (Multicast * list output) :=
  match msgs with
  | [] => Ret (m, [])
  | message :: msgs =>
      '(m1, out) ← ISIS_step m keys encs message;
      '(m2, out') ← ISIS_run keys encs m1 msgs;
      Ret (m2, out ++ out')
  end.

Lemma ISIS_run_snoc keys encs m msgs r m' out :
  ISIS_run keys encs m (msgs ++ [r]) = Ret (m', out) <->
  exists m1 out1 out2, ISIS_run keys encs m msgs = Ret (m1, out1) /\
    ISIS_step m1 keys encs r = Ret (m', out2) /\ out = out1 ++ out2.
Proof.
  revert m m' out. induction msgs as [|x msgs IH]; intros m m' out.
  - cbn [app ISIS_run]. split.
    + intros H. bind_inv H. destruct r0 as [m1 o1]. rewrite bind_Ret_l, app_nil_r in H.
      injection H as <- <-. by exists m, [], o1.
    + intros (m1 & o1 & o2 & [= <- <-] & Hs & ->). rewrite Hs, bind_Ret_l.
      by rewrite bind_Ret_l, app_nil_r.
  - cbn [app ISIS_run]. split.
    + intros H. bind_inv H. destruct r0 as [m1 o1]. bind_inv H. destruct r0 as [m2 o2].
      injection H as <- <-. apply IH in E0 as (m3 & o3 & o4 & H1 & H2 & ->).
      exists m3, (o1 ++ o3), o4. rewrite E, bind_Ret_l, H1, bind_Ret_l.
      by rewrite <- app_assoc.
    + intros (m3 & o3 & o4 & H1 & H2 & ->). bind_inv H1. destruct r0 as [m1 o1].
      bind_inv H1. destruct r0 as [m2 o2]. injection H1 as <- <-.
      rewrite E, bind_Ret_l. assert (ISIS_run keys encs m1 (msgs ++ [r]) = Ret (m', o2 ++ o4)) as ->.
      { apply IH. by exists m2, o2, o4. }
      rewrite bind_Ret_l. by rewrite app_assoc.
Qed.

Lemma ISIS_step_mc_ok m keys encs message m' out :
  mc_ok m -> ISIS_step m keys encs message = Ret (m', out) -> mc_ok m'.
Proof.
  intros Hok H. unfold ISIS_step in H. bind_inv H. destruct r as [m1 o1].
  bind_inv H. destruct r as [m2 o2]. injection H as <- <-.
  apply failScan_ok in E as (Hok1 & _); [|done]. repeat case_decide.
  - by eapply ISIS_i_ok.
  - injection E0 as E0. pose proof (ISIS_pf_ok m1 encs message Hok1) as Hpf.
    by rewrite E0 in Hpf.
  - by eapply ISIS_p_ok.
  - by eapply ISIS_a_ok.
Qed.

(** ** Runs without failures *)

Definition no_failure (m : Multicast) : Prop :=
  forall k, map_bool (nfailCheck m) k = false.

Lemma failScan_no_failure keys encs m :
  no_failure m -> failScan keys encs m = Ret (m, []).
Proof.
  intros Hf. induction keys as [|k keys IH]; [done|]. cbn [failScan].
  rewrite decide_False; [done|]. rewrite (Hf k). by intros [? _].
Qed.

Lemma alive_count_no_failure m :
  no_failure m -> alive_count m = Z.of_nat (size (nfailCheck m)).
Proof.
  intros Hf. unfold alive_count. f_equal. f_equal. apply map_filter_id.
  intros k f Hk. cbn. specialize (Hf k). unfold map_bool in Hf. by rewrite Hk in Hf.
Qed.

Lemma Cast_no_failure m encs message :
  no_failure m -> Cast m encs message = (fun k => OCast k message) <$> encs.
Proof.
  intros Hf. unfold Cast. f_equal. induction encs as [|k encs IH]; [done|].
  by rewrite filter_cons_True, IH.
Qed.

(** The replies a sender has received for a message. *)
Definition replies (id : string) (msgs : list Message) : list Message :=
  filter (fun r => Id r = id /\ Status r = "p") msgs.

Definition is_max_priority (p : Z) (rs : list Message) : Prop :=
  (exists r, r ∈ rs /\ Priority r = p) /\ (forall r, r ∈ rs -> Priority r <= p).

(** What the tables of the sender say of the replies it has received. *)
Definition replies_recorded (m : Multicast) (msgs : list Message) : Prop :=
  forall id,
    (replies id msgs = [] /\ proposed m !! id = None /\ repliers m !! id = None) \/
    (exists p, proposed m !! id = Some p /\ is_max_priority p (replies id msgs) /\
       repliers m !! id = Some (zlen (replies id msgs))).

Lemma replies_snoc id msgs r :
  replies id (msgs ++ [r]) =
    replies id msgs ++ (if decide (Id r = id /\ Status r = "p") then [r] else []).
Proof. unfold replies. rewrite filter_app. cbn. by case_decide. Qed.

Lemma replies_other msgs r id :
  Status r <> "p" \/ Id r <> id -> replies id (msgs ++ [r]) = replies id msgs.
Proof.
  intros H. rewrite replies_snoc, decide_False by naive_solver. apply app_nil_r.
Qed.

Lemma replies_same msgs r :
  Status r = "p" -> replies (Id r) (msgs ++ [r]) = replies (Id r) msgs ++ [r].
Proof. intros H. by rewrite replies_snoc, decide_True. Qed.

Lemma is_max_priority_snoc p rs r :
  is_max_priority p rs -> is_max_priority (Z.max p (Priority r)) (rs ++ [r]).
Proof.
  intros [(x & Hx & Hp) Hall]. split.
  - destruct (decide (p < Priority r)).
    + exists r. split; [set_solver|lia].
    + exists x. split; [set_solver|lia].
  - intros y [Hy| ->%list_elem_of_singleton]%elem_of_app; [apply Hall in Hy|]; lia.
Qed.

Lemma is_max_priority_singleton r : is_max_priority (Priority r) [r].
Proof.
  split; [exists r; set_solver|]. by intros x ->%list_elem_of_singleton.
Qed.

(** [proposed] after a reply: the largest priority received for its id. *)
Lemma propose_max m msgs r :
  Status r = "p" -> replies_recorded m msgs ->
  exists p, proposed (propose m r) !! Id r = Some p /\
    is_max_priority p (replies (Id r) (msgs ++ [r])) /\
    (forall id, id <> Id r -> proposed (propose m r) !! id = proposed m !! id).
Proof.
  intros Hs Hrec. rewrite replies_same by done. unfold propose.
  destruct (Hrec (Id r)) as [(-> & -> & _)|(p & Hp & Hmax & _)].
  - exists (Priority r). cbn. rewrite lookup_insert_eq.
    split_and!; [done|apply is_max_priority_singleton|].
    intros id Hid. by rewrite lookup_insert_ne.
  - apply (is_max_priority_snoc _ _ r) in Hmax. rewrite Hp. case_decide.
    + exists (Priority r). cbn. rewrite lookup_insert_eq. rewrite Z.max_r in Hmax by lia.
      split_and!; [done|done|]. intros id Hid. by rewrite lookup_insert_ne.
    + exists p. rewrite Z.max_l in Hmax by lia. by split_and!.
Qed.

Lemma length_replies id msgs : zlen (replies id msgs) <= zlen msgs.
Proof. unfold zlen, replies. pose proof (length_filter (fun r => Id r = id /\ Status r = "p") msgs). lia. Qed.

(** One reply in a run without failures: what is recorded and what is sent. *)
Lemma ISIS_p_no_failure m encs msgs r :
  no_failure m -> Status r = "p" -> replies_recorded m msgs ->
  zlen msgs < 2 ^ 62 ->
  exists m' out p, ISIS_p m encs r = Ret (m', out) /\
    replies_recorded m' (msgs ++ [r]) /\ nfailCheck m' = nfailCheck m /\
    is_max_priority p (replies (Id r) (msgs ++ [r])) /\
    out = if decide (zlen (replies (Id r) (msgs ++ [r])) = Z.of_nat (size (nfailCheck m)) /\
                     2 <= zlen (replies (Id r) (msgs ++ [r])))
          then (fun k => OCast k (set_Priority p (set_Status "a" r))) <$> encs else [].
Proof.
  intros Hf Hs Hrec Hlen. unfold ISIS_p. rewrite (Hf (NodeId r)), bind_Ret_l.
  destruct (propose_max m msgs r Hs Hrec) as (p & Hp & Hmax & Hother).
  destruct (propose_frame m r) as (_ & _ & Hrep & Hfail & _).
  rewrite Hrep. pose proof (replies_same msgs r Hs) as Hsame.
  pose proof (length_replies (Id r) msgs) as Hrl.
  assert (forall c, c !! Id r = Some (zlen (replies (Id r) (msgs ++ [r]))) ->
    (forall id, id <> Id r -> c !! id = repliers m !! id) ->
    replies_recorded (set_repliers c (propose m r)) (msgs ++ [r])) as Hrec'.
  { intros c Hc Hco id. cbn. destruct (decide (id = Id r)) as [->|Hid].
    - right. by exists p.
    - rewrite Hco, Hother by done. rewrite replies_other by naive_solver. apply Hrec. }
  destruct (Hrec (Id r)) as [(Hnil & _ & ->)|(p0 & _ & [(x & Hx & _) _] & ->)].
  - eexists _, _, p. split; [done|]. split.
    { apply Hrec'; [|by intros; rewrite lookup_insert_ne].
      rewrite lookup_insert_eq, Hsame, Hnil. done. }
    split_and!; [done|done|]. rewrite decide_False; [done|].
    rewrite Hsame, Hnil. unfold zlen. cbn. lia.
  - assert (zlen (replies (Id r) (msgs ++ [r])) = zlen (replies (Id r) msgs) + 1) as Hl.
    { rewrite Hsame. golia. }
    assert (wrap64 (zlen (replies (Id r) msgs) + 1)
      = zlen (replies (Id r) (msgs ++ [r]))) as Hw.
    { rewrite wrap64_id; [lia|]. unfold int64_range, zlen in *. lia. }
    rewrite !Hw. set (m3 := set_repliers _ (propose m r)).
    assert (replies_recorded m3 (msgs ++ [r])) as Hrec3.
    { apply Hrec'; [by rewrite lookup_insert_eq|by intros; rewrite lookup_insert_ne]. }
    assert (no_failure m3) as Hf3 by (intros k; cbn; rewrite Hfail; apply Hf).
    eexists _, _, p. split; [done|]. split_and!; [exact Hrec3|exact Hfail|done|].
    rewrite alive_count_no_failure by done. unfold agree, map_Z.
    rewrite Cast_no_failure by done. subst m3.
    cbn [aliveNodes set_aliveNodes nfailCheck proposed set_repliers].
    rewrite Hfail, Hp. cbn [default].
    apply list_elem_of_lookup in Hx as [i Hi]. apply lookup_lt_Some in Hi.
    repeat case_decide; try done; exfalso; golia.
Qed.

(** A step on any other message leaves the tables of the sender alone. *)
Lemma ISIS_step_other m keys encs message m' out msgs :
  no_failure m -> Status message <> "p" -> Status message <> "pf" ->
  ISIS_step m keys encs message = Ret (m', out) -> replies_recorded m msgs ->
  replies_recorded m' (msgs ++ [message]) /\ nfailCheck m' = nfailCheck m.
Proof.
  intros Hf Hp Hpf H Hrec. unfold ISIS_step in H.
  rewrite failScan_no_failure, bind_Ret_l in H by done. bind_inv H. destruct r as [m2 o2].
  injection H as <- _.
  assert (proposed m2 = proposed m /\ repliers m2 = repliers m /\ nfailCheck m2 = nfailCheck m)
    as (H1 & H2 & H3).
  { rewrite (decide_False (P := Status message = "pf")) in E by done.
    rewrite (decide_False (P := Status message = "p")) in E by done. case_decide.
    - unfold ISIS_i in E. destruct (messageCheck m !! _); [by injection E as <- _|].
      bind_inv E. by injection E as <- _.
    - unfold ISIS_a in E. destruct (FindById _ _); [|done]. bind_inv E. bind_inv E.
      destruct r0. by injection E as <- _. }
  split; [|done]. intros id. rewrite H1, H2, replies_other by auto. apply Hrec.
Qed.

Lemma ISIS_step_p m keys encs r m' out :
  no_failure m -> Status r = "p" ->
  ISIS_step m keys encs r = Ret (m', out) <-> ISIS_p m encs r = Ret (m', out).
Proof.
  intros Hf Hs. unfold ISIS_step. rewrite failScan_no_failure by done.
  rewrite bind_Ret_l, !decide_False by (rewrite Hs; done). rewrite decide_True by done.
  split.
  - intros H. bind_inv H. destruct r0 as [m2 o2]. by injection H as -> ->.
  - intros ->. done.
Qed.

Lemma ISIS_run_recorded keys encs m msgs m' out :
  no_failure m -> proposed m = ∅ -> repliers m = ∅ -> zlen msgs < 2 ^ 62 ->
  Forall (fun x => Status x <> "pf") msgs ->
  ISIS_run keys encs m msgs = Ret (m', out) ->
  replies_recorded m' msgs /\ nfailCheck m' = nfailCheck m.
Proof.
  intros Hf Hp Hr. revert m' out.
  induction msgs as [|x msgs IH] using rev_ind; intros m' out Hlen Hall H.
  { injection H as <- _. split; [|done]. intros id. left. by rewrite Hp, Hr. }
  apply ISIS_run_snoc in H as (m1 & o1 & o2 & H1 & H2 & _).
  apply Forall_app in Hall as [Hall [Hx _]%Forall_cons].
  assert (zlen msgs < 2 ^ 62) as Hlen' by golia.
  destruct (IH m1 o1 Hlen' Hall H1) as [Hrec Hnf].
  assert (no_failure m1) as Hf1 by (intros k; rewrite Hnf; apply Hf).
  destruct (decide (Status x = "p")) as [Hs|Hs].
  - destruct (ISIS_p_no_failure m1 encs msgs x Hf1 Hs Hrec Hlen') as (m2 & o & p & Hi & Hr2 & Hn2 & _).
    apply ISIS_step_p in H2; [|done|done]. rewrite Hi in H2. injection H2 as <- _.
    split; [done|congruence].
  - destruct (ISIS_step_other m1 keys encs x m' o2 msgs Hf1 Hs Hx H2 Hrec) as [? ?].
    split; [done|congruence].
Qed.

Lemma init_no_failure cur nodes : no_failure (Multicast_init cur nodes).
Proof.
  intros k. unfold map_bool. cbn.
  destruct (list_to_map _ !! k) as [b|] eqn:Hk; [|done]. cbn.
  apply elem_of_list_to_map_2 in Hk. apply list_elem_of_fmap in Hk as (y & [= -> ->] & _). done.
Qed.

Lemma init_size cur nodes :
  NoDup nodes -> size (nfailCheck (Multicast_init cur nodes)) = length nodes.
Proof.
  intros Hnd. cbn. rewrite map_size_list_to_map.
  - by rewrite length_fmap.
  - rewrite <- list_fmap_compose. cbn. by rewrite list_fmap_id.
Qed.

(** ** Theorems *)

(** One iteration of [ISIS], on any message and with any failures
    recorded, keeps the node's invariant: the queue stays a heap ordered by
    (Priority, Sender) whose entries know their own position, no message is
    queued twice, and every queued message was recorded in [messageCheck]. *)
Theorem ISIS_step_invariant m keys encs message m' out :
  mc_ok m -> ISIS_step m keys encs message = Ret (m', out) -> mc_ok m'.
Proof. apply ISIS_step_mc_ok. Qed.

(** In a run without failures, from the initial state of a node, the
    sender that takes a proposal ("p") off its channel answers with the
    agreed message exactly when this is the reply that completes one reply per
    connected node (and not the first reply), to every node, and the agreed
    priority is the largest of all the proposals received for that message. *)
Theorem agreed_priority_is_max cur nodes msgs m out r m' out' :
  NoDup nodes -> zlen msgs < 2 ^ 62 -> Forall (fun x => Status x <> "pf") msgs ->
  ISIS_run nodes nodes (Multicast_init cur nodes) msgs = Ret (m, out) ->
  Status r = "p" -> ISIS_step m nodes nodes r = Ret (m', out') ->
  exists p, is_max_priority p (replies (Id r) (msgs ++ [r])) /\
    out' = if decide (zlen (replies (Id r) (msgs ++ [r])) = zlen nodes /\
                      2 <= zlen (replies (Id r) (msgs ++ [r])))
           then (fun k => OCast k (set_Priority p (set_Status "a" r))) <$> nodes
           else [].
Proof.
  intros Hnd Hlen Hall Hrun Hs Hstep.
  pose proof (init_no_failure cur nodes) as Hf0.
  destruct (ISIS_run_recorded nodes nodes _ msgs m out Hf0 eq_refl eq_refl Hlen Hall Hrun)
    as [Hrec Hnf].
  assert (no_failure m) as Hf by (intros k; rewrite Hnf; apply Hf0).
  destruct (ISIS_p_no_failure m nodes msgs r Hf Hs Hrec Hlen) as (m2 & o & p & Hi & _ & _ & Hm & Ho).
  apply ISIS_step_p in Hstep; [|done|done]. rewrite Hi in Hstep. injection Hstep as _ <-.
  exists p. split; [done|]. rewrite Ho, Hnf, init_size by done. done.
Qed.

Definition ex_reply (id node : string) (p : Z) : Message := {|
  Id := id; Sender := 1; Priority := p; Index := 0; NodeId := "node1";
  RNodeId := node; Status := "p"; IsDeliverable := false; IsDeposit := true;
  Names := ["a"]; Amount := 5 |}.

Definition ex_nodes : list string := ["node1"; "node2"; "node3"].

Definition ex_msgs : list Message :=
  [ex_reply "x" "node1" 1; ex_reply "y" "node2" 7; ex_reply "x" "node2" 3].

Definition ex_run : Multicast * list output :=
  value_or (Multicast_init "node1" [], [])
    (ISIS_run ex_nodes ex_nodes (Multicast_init "node1" ex_nodes) ex_msgs).

Definition ex_step : Multicast * list output :=
  value_or (Multicast_init "node1" [], [])
    (ISIS_step ex_run.1 ex_nodes ex_nodes (ex_reply "x" "node3" 2)).

Lemma agreed_priority_is_max_witness :
  exists p, is_max_priority p (replies "x" (ex_msgs ++ [ex_reply "x" "node3" 2])) /\
    ex_step.2 =
      (if decide (zlen (replies "x" (ex_msgs ++ [ex_reply "x" "node3" 2])) = zlen ex_nodes /\
                  2 <= zlen (replies "x" (ex_msgs ++ [ex_reply "x" "node3" 2])))
       then (fun k => OCast k (set_Priority p (set_Status "a" (ex_reply "x" "node3" 2))))
              <$> ex_nodes
       else []).
Proof.
  apply (agreed_priority_is_max "node1" ex_nodes ex_msgs ex_run.1 ex_run.2
    (ex_reply "x" "node3" 2) ex_step.1 ex_step.2).
  - vm_compute. repeat (constructor; [set_solver|]). constructor.
  - vm_compute. done.
  - repeat constructor; done.
  - vm_compute. reflexivity.
  - reflexivity.
  - vm_compute. reflexivity.
Defined.

(** The agreed message of a queued message: the iteration returns, the
    entry gets the agreed priority and becomes deliverable, and what goes to
    the application is a sorted list of deliverable messages, none above a
    message that stays, up to the first entry that is not deliverable; what is
    delivered and what stays is what was queued. *)
Theorem ISIS_agreed_delivery m message :
  mc_ok m -> (exists x, x ∈ pq m /\ Id x = Id message) ->
  exists k old q' ds,
    pq m !! k = Some old /\ Id old = Id message /\
    ISIS_a m message = Ret (set_pq q' m, ODeliver <$> ds) /\
    <[k := set_Priority (Priority message) (set_IsDeliverable true (erase old))]>
      (erase <$> pq m) ≡ₚ ds ++ (erase <$> q') /\
    StronglySorted (fun a b => msg_lt b a = false) ds /\
    Forall (fun d => IsDeliverable d = true) ds /\
    (forall d x, d ∈ ds -> x ∈ q' -> msg_lt x d = false) /\
    (forall h, q' !! 0%nat = Some h -> IsDeliverable h = false).
Proof.
  intros Hok (x & Hx & Hid). destruct (FindById (pq m) (Id message)) as [k|] eqn:Hf.
  - destruct (proj1 (FindById_Some _ _ _) Hf) as [(old & Hk & Hold) _].
    destruct (ISIS_a_spec m message k old Hok Hf Hk)
      as (q' & ds & H1 & _ & H2 & H3 & H4 & H5 & H6).
    exists k, old, q', ds. split_and!; done.
  - by destruct (proj1 (FindById_None _ _) Hf x Hx).
Qed.

Definition ex_msg (id : string) (sender p : Z) (deliverable : bool) : Message := {|
  Id := id; Sender := sender; Priority := p; Index := 0; NodeId := "node1";
  RNodeId := "node1"; Status := "p"; IsDeliverable := deliverable; IsDeposit := true;
  Names := ["a"]; Amount := 5 |}.

(** A queue with [y] waiting for its agreed priority in front of [x]. *)
Definition ex_queue : MessagePQ :=
  pq_push (ex_msg "z" 3 9 false)
    (pq_push (ex_msg "x" 2 4 true) (pq_push (ex_msg "y" 1 2 false) [])).

Definition ex_holding : Multicast :=
  set_pq ex_queue (set_messageCheck {["x" := true; "y" := true; "z" := true]}
    (Multicast_init "node1" ["node1"; "node2"; "node3"])).

Lemma ex_holding_ok : mc_ok ex_holding.
Proof.
  split_and!.
  - change (pq_ok ex_queue). unfold ex_queue. auto 6 with go.
  - vm_compute. repeat (constructor; [set_solver|]). constructor.
  - intros x Hx. vm_compute in Hx. repeat (apply elem_of_cons in Hx as [->|Hx]); try (by eexists).
    by apply not_elem_of_nil in Hx.
Qed.

Lemma ISIS_agreed_delivery_witness :
  exists k old q' ds,
    pq ex_holding !! k = Some old /\ Id old = "y" /\
    ISIS_a ex_holding (ex_msg "y" 1 6 false) = Ret (set_pq q' ex_holding, ODeliver <$> ds) /\
    <[k := set_Priority 6 (set_IsDeliverable true (erase old))]>
      (erase <$> pq ex_holding) ≡ₚ ds ++ (erase <$> q') /\
    StronglySorted (fun a b => msg_lt b a = false) ds /\
    Forall (fun d => IsDeliverable d = true) ds /\
    (forall d x, d ∈ ds -> x ∈ q' -> msg_lt x d = false) /\
    (forall h, q' !! 0%nat = Some h -> IsDeliverable h = false).
Proof.
  apply (ISIS_agreed_delivery ex_holding (ex_msg "y" 1 6 false) ex_holding_ok).
  exists (set_Index 0 (ex_msg "y" 1 2 false)). split; [|reflexivity].
  apply (list_elem_of_lookup_2 _ 0%nat). reflexivity.
Defined.

Lemma ISIS_step_invariant_witness :
  exists m' out, ISIS_step ex_holding ["node1"; "node2"] ["node1"; "node2"]
      (set_Status "i" (ex_msg "v" 2 0 false)) = Ret (m', out) /\
    length (pq m') = 4%nat /\ mc_ok m'.
Proof.
  destruct (ISIS_step ex_holding ["node1"; "node2"] ["node1"; "node2"]
    (set_Status "i" (ex_msg "v" 2 0 false))) as [[m' out]|c|] eqn:Hs.
  - exists m', out. split; [reflexivity|]. split; [|exact (ISIS_step_invariant _ _ _ _ _ _ ex_holding_ok Hs)].
    vm_compute in Hs. injection Hs as <- _. reflexivity.
  - vm_compute in Hs. discriminate.
  - vm_compute in Hs. discriminate.
Defined.

(** An agreed message for an id that is not in the queue (it was
    delivered, or dropped with a failed node) dereferences the nil that
    [FindById] returns. *)
Theorem ISIS_agreed_unknown m message :
  (forall x, x ∈ pq m -> Id x <> Id message) -> ISIS_a m message = Crash NilDeref.
Proof. intros Hx. unfold ISIS_a. apply FindById_None in Hx as ->. done. Qed.

Lemma ISIS_agreed_unknown_witness :
  ISIS_a ex_holding (ex_msg "w" 1 6 false) = Crash NilDeref.
Proof.
  apply ISIS_agreed_unknown. intros x Hx. vm_compute in Hx.
  repeat (apply elem_of_cons in Hx as [->|Hx]); try discriminate.
  by apply not_elem_of_nil in Hx.
Defined.

(** Two nodes whose queues hold the same messages, no two with the same
    (Priority, Sender), deliver the same sequence and keep the same messages,
    whatever the shape of their heaps. *)
Theorem drain_agreement (q1 q2 : MessagePQ) :
  pq_ok q1 -> pq_ok q2 -> erase <$> q1 ≡ₚ erase <$> q2 -> NoDup (order_key <$> q1) ->
  exists q1' q2' ds,
    drain (S (length q1)) q1 = Ret (q1', ds) /\ drain (S (length q2)) q2 = Ret (q2', ds) /\
    erase <$> q1' ≡ₚ erase <$> q2'.
Proof. intros. apply drain_same; auto with lia. Qed.

Definition ex_queue_a : MessagePQ :=
  pq_push (ex_msg "x" 2 4 true) (pq_push (ex_msg "y" 1 2 true) (pq_push (ex_msg "z" 3 3 true) [])).
Definition ex_queue_b : MessagePQ :=
  pq_push (ex_msg "y" 1 2 true) (pq_push (ex_msg "z" 3 3 true) (pq_push (ex_msg "x" 2 4 true) [])).

Lemma drain_agreement_witness :
  erase <$> ex_queue_a <> erase <$> ex_queue_b /\
  exists q1' q2' ds,
    drain (S (length ex_queue_a)) ex_queue_a = Ret (q1', ds) /\
    drain (S (length ex_queue_b)) ex_queue_b = Ret (q2', ds) /\
    erase <$> q1' ≡ₚ erase <$> q2'.
Proof.
  split; [discriminate|]. apply drain_agreement.
  - unfold ex_queue_a. auto 6 with go.
  - unfold ex_queue_b. auto 6 with go.
  - vm_compute. solve_Permutation.
  - vm_compute. repeat (constructor; [set_solver|]). constructor.
Defined.

Lemma pushed_entry (q : MessagePQ) check msg :
  pq_ok q -> ids_ok q check -> check !! Id msg = None ->
  exists e, FindById (pq_push msg q) (Id msg) ≫= (pq_push msg q !!.) = Some e /\
    e ∈ pq_push msg q /\ erase e = erase msg.
Proof.
  intros Hok Hids Hnone. destruct (pq_push_ok msg q Hok) as [_ Hp].
  destruct (ids_ok_push msg q check Hok Hids Hnone) as [Hnd _].
  assert (erase msg ∈ erase <$> pq_push msg q) as Hin by (rewrite Hp; by left).
  apply list_elem_of_fmap in Hin as (e & He & Hin).
  assert (Id e = Id msg) as Hid by (by change (Id (erase e) = Id msg); rewrite <- He).
  destruct (FindById (pq_push msg q) (Id msg)) as [k|] eqn:Hf.
  - destruct (proj1 (FindById_Some _ _ _) Hf) as [(e' & Hk & Hid') _].
    exists e. split_and!; [|done|done].
    change (pq_push msg q !! k = Some e). rewrite Hk. f_equal.
    apply list_elem_of_lookup in Hin as [j Hj].
    assert (k = j) as <-; [|congruence].
    apply (NoDup_lookup _ _ _ (Id msg) Hnd); rewrite list_lookup_fmap.
    + rewrite Hk. cbn. congruence.
    + rewrite Hj. cbn. congruence.
  - by destruct (proj1 (FindById_None _ _) Hf e Hin).
Qed.

(** A message seen for the first time is recorded, relayed unchanged to
    every other connected node, queued as not deliverable with the proposed
    priority [max(A, P) + 1], and that queued entry is sent back to the
    message's sender; the node's [P] becomes the proposed priority. *)
Theorem ISIS_first_receipt m encs message :
  mc_ok m -> messageCheck m !! Id message = None ->
  "node" +:+ Itoa (Sender message) ∈ encs ->
  exists m' reply,
    ISIS_i m encs message = Ret (m',
      ((fun k => OCast k message) <$> filter (fun k => k <> curNodeId m) encs) ++
      [OCast ("node" +:+ Itoa (Sender message)) reply]) /\
    erase reply = erase (proposal m message) /\ reply ∈ pq m' /\
    erase <$> pq m' ≡ₚ erase (proposal m message) :: (erase <$> pq m) /\
    P m' = Priority reply /\ A m' = A m /\
    messageCheck m' = <[Id message := true]> (messageCheck m).
Proof.
  rewrite mc_ok_ids. intros [Hok Hids] Hnone Henc. unfold ISIS_i. rewrite Hnone.
  cbn [pq set_messageCheck].
  destruct (pushed_entry (pq m) (messageCheck m) (proposal m message) Hok Hids Hnone)
    as (e & Hf & Hin & He).
  change (Id (proposal m message)) with (Id message) in Hf. rewrite Hf. cbn [default].
  unfold bcast_Cast. rewrite decide_True by done. rewrite bind_Ret_l.
  eexists _, e. split; [done|]. cbn [pq P A messageCheck set_pq set_P set_messageCheck].
  split_and!; [done|done|by apply pq_push_ok| |done|done].
  change (Priority e) with (Priority (erase e)). by rewrite He.
Qed.

Lemma ISIS_first_receipt_witness :
  exists m' reply,
    ISIS_i ex_holding ["node1"; "node2"; "node3"] (ex_msg "w" 2 0 false) = Ret (m',
      ((fun k => OCast k (ex_msg "w" 2 0 false)) <$>
        filter (fun k => k <> curNodeId ex_holding) ["node1"; "node2"; "node3"]) ++
      [OCast ("node" +:+ Itoa 2) reply]) /\
    erase reply = erase (proposal ex_holding (ex_msg "w" 2 0 false)) /\ reply ∈ pq m' /\
    erase <$> pq m' ≡ₚ
      erase (proposal ex_holding (ex_msg "w" 2 0 false)) :: (erase <$> pq ex_holding) /\
    P m' = Priority reply /\ A m' = A ex_holding /\
    messageCheck m' = <["w" := true]> (messageCheck ex_holding).
Proof.
  apply (ISIS_first_receipt ex_holding ["node1"; "node2"; "node3"] (ex_msg "w" 2 0 false)
    ex_holding_ok).
  - reflexivity.
  - vm_compute. right. left.
Defined.

(** *** The priorities of a run *)

Lemma failScan_clock keys encs m m' out :
  failScan keys encs m = Ret (m', out) ->
  A m' = A m /\ P m' = P m /\ messageCheck m' = messageCheck m.
Proof.
  revert m m' out. induction keys as [|k keys IH]; intros m m' out H.
  { by injection H as <- _. }
  cbn [failScan] in H. case_decide; [|by eapply IH].
  bind_inv H. destruct r as [q1 o1]. bind_inv H. destruct r as [m2 o2].
  injection H as <- _. by apply IH in E0.
Qed.

(** Only a first copy touches the clock: every other message leaves [A], [P]
    and the set of known ids as they are. *)
Lemma ISIS_step_clock m keys encs message m' out :
  ISIS_step m keys encs message = Ret (m', out) ->
  A m' = A m /\
  (if decide (Status message = "i" /\ messageCheck m !! Id message = None)
   then P m' = next_priority m /\ messageCheck m' = <[Id message := true]> (messageCheck m)
   else P m' = P m /\ messageCheck m' = messageCheck m).
Proof.
  intros H. unfold ISIS_step in H. bind_inv H. destruct r as [m1 o1].
  bind_inv H. destruct r as [m2 o2]. injection H as <- _.
  apply failScan_clock in E as (HA & HP & Hc). rewrite <- HA, <- HP, <- Hc.
  assert (next_priority m = next_priority m1) as -> by (unfold next_priority; congruence).
  destruct (decide (Status message = "i")) as [Hi|Hi]; cbn [decide] in E0.
  - unfold ISIS_i in E0. destruct (messageCheck m1 !! Id message) eqn:Hk.
    + injection E0 as <- _. rewrite decide_False; [done|]. intros [_ ?]. congruence.
    + bind_inv E0. injection E0 as <- _. by rewrite decide_True.
  - rewrite (decide_False (P := _ /\ _)) by tauto. repeat case_decide.
    + injection E0 as E0. unfold ISIS_pf in E0. case_match; by injection E0 as <- _.
    + unfold ISIS_p in E0. bind_inv E0.
      assert (A r = A m1 /\ P r = P m1 /\ messageCheck r = messageCheck m1) as (HA' & HP' & Hc').
      { destruct (map_bool _ _); [|by injection E as <-].
        destruct (FindById _ _); [|by injection E as <-].
        bind_inv E. destruct r0 as [? ?]. by injection E as <-. }
      destruct (propose_frame r message) as (_ & Hc2 & _ & _ & HA2 & HP2).
      destruct (repliers _ !! _); injection E0 as <- _; cbn; by rewrite HA2, HP2, Hc2.
    + unfold ISIS_a in E0. destruct (FindById _ _); [|done]. bind_inv E0. bind_inv E0.
      destruct r0 as [? ?]. by injection E0 as <- _.
Qed.

(** The ids of the transactions a node has received a copy of. *)
Definition first_copies (msgs : list Message) : gset string :=
  list_to_set (Id <$> filter (fun x => Status x = "i") msgs).

Lemma first_copies_snoc msgs x :
  first_copies (msgs ++ [x]) =
  if decide (Status x = "i") then first_copies msgs ∪ {[Id x]} else first_copies msgs.
Proof.
  unfold first_copies. rewrite filter_app. case_decide.
  - rewrite filter_cons_True by done. cbn. rewrite fmap_app, list_to_set_app_L. cbn. set_solver.
  - rewrite filter_cons_False by done. cbn. by rewrite app_nil_r.
Qed.

(** The largest priority a node can propose. *)
Definition stalled : Z := 2 ^ 53 + 1.

Lemma next_priority_saturates m n :
  A m = 0 -> 0 <= n -> P m = Z.min n stalled -> next_priority m = Z.min (n + 1) stalled.
Proof.
  intros HA Hn HP. unfold next_priority, stalled in *. rewrite HA.
  destruct (decide (n <= 2 ^ 53)) as [Hle|Hgt].
  - rewrite fmax_exact by lia. rewrite wrap64_id; unfold int64_range; lia.
  - assert (P m = 2 ^ 53 + 1) as -> by lia.
    assert (wrap64 (fmax 0 (2 ^ 53 + 1) + 1) = 2 ^ 53 + 1) as -> by (vm_compute; reflexivity).
    lia.
Qed.

(** What a node does: its loop takes the messages [msgs], one after the other,
    with the connections and the orders of the ranges it has by then, and in
    between its [Deliver] goroutines find that connections have failed. *)
Inductive node_run (start : Multicast) : list Message -> Multicast -> Prop :=
  | run_start : node_run start [] start
  | run_fail msgs m k : node_run start msgs m -> node_run start msgs (Deliver_step m k None).1
  | run_step msgs m keys encs message m' out :
      node_run start msgs m -> ISIS_step m keys encs message = Ret (m', out) ->
      node_run start (msgs ++ [message]) m'.

(** [P] counts the transactions received, up to the largest priority. *)
Lemma node_run_clock cur nodes msgs m :
  node_run (Multicast_init cur nodes) msgs m ->
  mc_ok m /\ A m = 0 /\ dom (messageCheck m) = first_copies msgs /\
  P m = Z.min (Z.of_nat (size (first_copies msgs))) stalled.
Proof.
  induction 1 as [|msgs m k _ IH|msgs m1 keys encs x m o2 _ (Hok & HA & Hdom & HP) H2].
  - split; [|done].
    split_and!; [by apply pq_ok_nil|constructor|intros y Hy; by apply not_elem_of_nil in Hy].
  - exact IH.
  - split; [by eapply ISIS_step_mc_ok|].
    apply ISIS_step_clock in H2 as (HA2 & H2). rewrite first_copies_snoc.
    split; [congruence|]. case_decide as Hd.
    + destruct Hd as [Hi Hk]. destruct H2 as [HP2 Hc2]. rewrite decide_True by done.
      apply not_elem_of_dom in Hk. rewrite Hdom in Hk.
      rewrite Hc2, dom_insert_L, Hdom, HP2, (next_priority_saturates _ _ HA (Nat2Z.is_nonneg _) HP).
      split; [set_solver|]. f_equal. rewrite size_union by set_solver. rewrite size_singleton. lia.
    + destruct H2 as [HP2 Hc2]. rewrite HP2, Hc2. case_decide as Hi; [|done].
      assert (Id x ∈ first_copies msgs) as Hin.
      { rewrite <- Hdom. apply elem_of_dom. destruct (messageCheck m1 !! Id x) eqn:Hk; [done|tauto]. }
      replace (first_copies msgs ∪ {[Id x]}) with (first_copies msgs) by set_solver. done.
Qed.

(** C40 The priorities a node proposes.  After any run of a node from the state
    [Node.Run] gives it, whatever messages its loop takes, whatever connections
    it has and whichever of them fail in between, [P] is the number of different transactions the node has received, but never
    more than [2^53 + 1].  So when the next copy of an unknown transaction
    arrives, the node answers its sender with a priority one larger than
    every earlier one, until it has proposed [2^53 + 1]: from then on the
    conversion of [m.P] to [float64] makes it propose [2^53 + 1] for every
    transaction.  The answer is the entry the node keeps in its queue, and
    its priority is the new value of [P]. *)
Theorem proposals_count_up cur nodes msgs m :
  node_run (Multicast_init cur nodes) msgs m ->
  P m = Z.min (Z.of_nat (size (first_copies msgs))) (2 ^ 53 + 1) /\
  (forall keys encs message m' out,
    Status message = "i" -> Id message ∉ first_copies msgs ->
    ISIS_step m keys encs message = Ret (m', out) ->
    exists sent reply, out = sent ++ [OCast ("node" +:+ Itoa (Sender message)) reply] /\
      reply ∈ pq m' /\ Id reply = Id message /\ Status reply = "p" /\
      Priority reply = Z.min (Z.of_nat (size (first_copies msgs)) + 1) (2 ^ 53 + 1) /\
      P m' = Priority reply).
Proof.
  intros Hrun. destruct (node_run_clock _ _ _ _ Hrun) as (Hok & HA & Hdom & HP).
  split; [done|]. intros keys encs message m' out Hst Hnew H.
  unfold ISIS_step in H. bind_inv H. destruct r as [m1 o1]. rewrite decide_True in H by done.
  bind_inv H. destruct r as [m2 o2]. injection H as <- <-.
  pose proof (failScan_ok _ _ _ _ _ Hok E) as (Hok1 & _).
  apply failScan_clock in E as (HA1 & HP1 & Hc1).
  assert (messageCheck m1 !! Id message = None) as Hk
    by (apply not_elem_of_dom; by rewrite Hc1, Hdom).
  apply mc_ok_ids in Hok1 as [Hpq Hids].
  assert (next_priority m1 = Z.min (Z.of_nat (size (first_copies msgs)) + 1) stalled) as Hnext
    by (apply next_priority_saturates; [congruence|lia|congruence]).
  unfold ISIS_i in E0. rewrite Hk in E0.
  change (pq (set_messageCheck _ m1)) with (pq m1) in E0.
  destruct (pushed_entry (pq m1) (messageCheck m1) (proposal m1 message) Hpq Hids Hk)
    as (e & Hf & Hin & He).
  change (Id (proposal m1 message)) with (Id message) in Hf. rewrite Hf in E0. cbn [default] in E0.
  bind_inv E0. injection E0 as <- <-.
  unfold bcast_Cast in E. case_decide; [|done]. injection E as <-.
  eexists (o1 ++ _), e. split; [by rewrite <- app_assoc|]. split; [done|].
  assert (Priority e = next_priority m1) as ->
    by (change (Priority e) with (Priority (erase e)); by rewrite He).
  change (Id e) with (Id (erase e)). change (Status e) with (Status (erase e)). by rewrite He.
Qed.

(** One of three nodes.  Its loop has handled two transactions, one of them
    twice; then the connection to node3 fails, and a third arrives. *)
Definition ex_received : list Message :=
  set_Status "i" <$> [ex_msg "x" 1 0 false; ex_msg "y" 2 0 false; ex_msg "x" 1 0 false].

Definition ex_new : Message := set_Status "i" (ex_msg "w" 2 0 false).

Definition ex_three : list string := ["node1"; "node2"; "node3"].

Lemma ISIS_run_node_run start keys encs msgs m out :
  ISIS_run keys encs start msgs = Ret (m, out) -> node_run start msgs m.
Proof.
  revert m out. induction msgs as [|x msgs IH] using rev_ind; intros m out H.
  - injection H as <- _. constructor.
  - apply ISIS_run_snoc in H as (m1 & o1 & o2 & H1 & H2 & _). eapply run_step; [|exact H2]. by eapply IH.
Qed.

Definition ex_received_run : Multicast * list output :=
  value_or (Multicast_init "node1" [], [])
    (ISIS_run ex_three ex_three (Multicast_init "node1" ex_three) ex_received).

Definition ex_failed_state : Multicast := (Deliver_step ex_received_run.1 "node3" None).1.

Lemma ex_failed_run : node_run (Multicast_init "node1" ex_three) ex_received ex_failed_state.
Proof.
  apply run_fail, (ISIS_run_node_run _ ex_three ex_three _ _ ex_received_run.2).
  rewrite <- surjective_pairing. apply value_or_Ret. vm_compute. reflexivity.
Qed.

Lemma proposals_count_up_witness :
  P ex_failed_state = 2 /\
  exists m' out sent reply,
    ISIS_step ex_failed_state ex_three ["node1"; "node2"] ex_new = Ret (m', out) /\
    out = sent ++ [OCast "node2" reply] /\ Id reply = "w" /\ Priority reply = 3 /\ P m' = 3.
Proof.
  destruct (proposals_count_up _ _ _ _ ex_failed_run) as [HP Hnext].
  split; [rewrite HP; vm_compute; reflexivity|].
  destruct (ISIS_step ex_failed_state ex_three ["node1"; "node2"] ex_new) as [[m' out]| |] eqn:Hs;
    [|vm_compute in Hs; discriminate Hs..].
  destruct (Hnext _ _ ex_new _ _ eq_refl
      ltac:(apply (bool_decide_unpack _); vm_compute; exact I) Hs)
    as (sent & reply & Hout & _ & Hid & _ & Hp & HP').
  exists m', out, sent, reply. split; [done|]. split; [exact Hout|]. split; [exact Hid|].
  split; [rewrite Hp; vm_compute; reflexivity|].
  rewrite HP', Hp. vm_compute. reflexivity.
Defined.

(** The first reply for a message never completes the agreement, however
    many nodes are alive: a cluster of one node never agrees on a priority, so
    nothing it multicasts is ever delivered. *)
Theorem first_reply_never_agrees m encs message m' out :
  repliers m !! Id message = None ->
  ISIS_p m encs message = Ret (m', out) -> out = [].
Proof.
  intros Hnone H. unfold ISIS_p in H. bind_inv H.
  assert (repliers r = repliers m) as Hr.
  { destruct (map_bool _ _); [|by injection E as <-]. destruct (FindById _ _); [|by injection E as <-].
    bind_inv E. destruct r0 as [? ?]. by injection E as <-. }
  destruct (propose_frame r message) as (_ & _ & Hrep & _).
  rewrite Hrep, Hr, Hnone in H. by injection H as _ <-.
Qed.

Definition ex_single : Multicast := Multicast_init "node1" ["node1"].

Lemma first_reply_never_agrees_witness :
  alive_count ex_single = 1 /\
  forall m' out, ISIS_p ex_single ["node1"] (ex_reply "x" "node1" 1) = Ret (m', out) -> out = [].
Proof.
  split; [reflexivity|]. intros m' out.
  apply (first_reply_never_agrees ex_single ["node1"] (ex_reply "x" "node1" 1)). reflexivity.
Defined.
