(* ===== verification/IsisSpec.v ===== *)
(** * IsisSpec: the ISIS protocol without queues, tables and goroutines

    An abstract machine for the total-order multicast of the multicast demo,
    without failures: which node has proposed which priority for which message,
    which proposals have reached the sender, which nodes have seen the agreed
    priority, what is in the FIFO channels and what each node has delivered.
    The invariant of its reachable states gives the total order.
    [MulticastOrder] shows that the nodes of [MulticastNet] refine it.

    Why it is totally ordered although a node ignores the agreed priorities
    when it proposes: if [M] made the largest proposal for [x], then a message
    [y] that [M] proposes after it gets a larger priority, and one that [M]
    proposed before it was relayed by [M] ahead of that proposal; the sender of
    [x] therefore relays [y] to everybody before it announces the priority of
    [x], and a node that delivers [x] has [y] in its queue. *)
From S2P Require Import Prelude.

(** [nodeId := "node" + strconv.Itoa(message.Sender)] *)
Definition node_name (i : Z) : string := "node" +:+ Itoa i.

(** ** The machine *)

Inductive wire : Set :=
  | WInit (x : string)                 (* "i" *)
  | WProp (x : string) (p : Z)         (* "p" *)
  | WAgree (x : string) (p : Z).       (* "a" *)

(** A delivered message: its id, and the key that orders it, the agreed
    priority and the sender. *)
Definition entry : Set := string * (Z * Z).

Record spec : Type := mkSpec {
  sent : gmap string Z;                    (* id -> the number of its sender *)
  prop : gmap (string * string) Z;         (* node, id -> the node's proposal *)
  counted : gset (string * string);        (* node, id: its proposal has reached the sender *)
  settled : gset (string * string);        (* node, id: it has seen the agreed priority *)
  chan : string -> string -> list wire;    (* from, to *)
  order : string -> list entry;            (* what a node has delivered *)
}.

Definition spec_init : spec := mkSpec ∅ ∅ ∅ ∅ (fun _ _ => []) (fun _ => []).

Definition seen (s : spec) (t x : string) : Prop := is_Some (prop s !! (t, x)).

(** The outputs for one destination. *)
Definition outs (t : string) (out : list (string * wire)) : list wire :=
  (filter (fun kw => kw.1 = t) out).*2.

Definition add (x : string) (i : Z) (s : spec) : spec :=
  mkSpec (<[x := i]> (sent s)) (prop s) (counted s) (settled s) (chan s) (order s).
Definition take_head (f t : string) (s : spec) : spec :=
  mkSpec (sent s) (prop s) (counted s) (settled s)
    (fun f' t' => if decide (f' = f /\ t' = t) then tail (chan s f' t') else chan s f' t') (order s).
Definition push (self : string) (out : list (string * wire)) (s : spec) : spec :=
  mkSpec (sent s) (prop s) (counted s) (settled s)
    (fun f' t' => chan s f' t' ++ (if decide (f' = self) then outs t' out else [])) (order s).
Definition offer (t x : string) (p : Z) (s : spec) : spec :=
  mkSpec (sent s) (<[(t, x) := p]> (prop s)) (counted s) (settled s) (chan s) (order s).
Definition count (f x : string) (s : spec) : spec :=
  mkSpec (sent s) (prop s) ({[(f, x)]} ∪ counted s) (settled s) (chan s) (order s).
Definition settle (t x : string) (s : spec) : spec :=
  mkSpec (sent s) (prop s) (counted s) ({[(t, x)]} ∪ settled s) (chan s) (order s).
Definition deliver (t : string) (ds : list entry) (s : spec) : spec :=
  mkSpec (sent s) (prop s) (counted s) (settled s) (chan s)
    (fun t' => if decide (t' = t) then order s t' ++ ds else order s t').

(** Keys are compared by priority, then by sender. *)
Definition klt (a b : Z * Z) : Prop := a.1 < b.1 \/ (a.1 = b.1 /\ a.2 < b.2).

Definition in_order (d e : entry) : Prop := ~ klt e.2 d.2.

Section protocol.
Context (ps : list string).

(** The agreed priority: the largest proposal. *)
Definition final (s : spec) (x : string) (p : Z) : Prop :=
  (forall M, M ∈ ps -> exists q, prop s !! (M, x) = Some q /\ q <= p) /\
  (exists M, M ∈ ps /\ prop s !! (M, x) = Some p).

(** The sender has every proposal; with a single node it never agrees. *)
Definition complete (s : spec) (x : string) : Prop :=
  (2 <= length ps)%nat /\ forall M, M ∈ ps -> (M, x) ∈ counted s.

(** The priority under which [t] holds [y]. *)
Definition held (s : spec) (t y : string) (q : Z) : Prop :=
  if decide ((t, y) ∈ settled s) then final s y q else prop s !! (t, y) = Some q.

Definition entry_ok (s : spec) (t : string) (d : entry) : Prop :=
  (t, d.1) ∈ settled s /\ final s d.1 d.2.1 /\ sent s !! d.1 = Some d.2.2.

(** What a node may deliver: settled messages, in the order of their keys,
    none above a message it still holds; and it must go on until a message it
    has seen is not settled. *)
Definition delivers (s : spec) (t : string) (ds : list entry) : Prop :=
  Forall (entry_ok s t) ds /\ NoDup (order s t ++ ds).*1 /\ StronglySorted in_order ds /\
  (forall d y q j, d ∈ ds -> seen s t y -> y ∉ (order s t ++ ds).*1 ->
     held s t y q -> sent s !! y = Some j -> ~ klt (q, j) d.2) /\
  (forall z, (t, z) ∈ settled s -> z ∉ (order s t ++ ds).*1 ->
     exists y, seen s t y /\ (t, y) ∉ settled s).

(** The answer to the proposal that makes the sender's collection complete. *)
Definition answers (s : spec) (x : string) (out : list (string * wire)) : Prop :=
  (~ complete s x /\ out = []) \/
  (complete s x /\ exists p encs, final s x p /\ encs ≡ₚ ps /\
     out = (fun k => (k, WAgree x p)) <$> encs).

(** A node takes the head of a channel. *)
Inductive work (s : spec) : spec -> Prop :=
  | work_known f t x l :
      chan s f t = WInit x :: l -> seen s t x -> work s (take_head f t s)
  | work_propose f t x l i p encs :
      chan s f t = WInit x :: l -> ~ seen s t x -> sent s !! x = Some i ->
      (forall y q, prop s !! (t, y) = Some q -> q < p) -> encs ≡ₚ ps ->
      work s (push t (((fun k => (k, WInit x)) <$> filter (fun k => k <> t) encs) ++ [(node_name i, WProp x p)])
                (offer t x p (take_head f t s)))
  | work_count f t x q l out :
      chan s f t = WProp x q :: l -> answers (count f x s) x out ->
      work s (push t out (count f x (take_head f t s)))
  | work_settle f t x p l ds :
      chan s f t = WAgree x p :: l -> delivers (settle t x s) t ds ->
      work s (deliver t ds (settle t x (take_head f t s))).

Inductive step (s : spec) : spec -> Prop :=
  | step_tx x i :
      sent s !! x = None -> node_name i ∈ ps -> step s (add x i s)
  | step_cast x i t :
      sent s !! x = Some i -> t ∈ ps -> step s (push (node_name i) [(t, WInit x)] s)
  | step_work s' : work s s' -> step s s'.

Definition reachable (s : spec) : Prop := rtc step spec_init s.

(** ** The invariant *)

Definition before (s : spec) (M y x : string) : Prop :=
  exists q p, prop s !! (M, y) = Some q /\ prop s !! (M, x) = Some p /\ q < p.

(** What a message on the way requires its receiver to have seen. *)
Definition needs (s : spec) (f : string) (w : wire) (y : string) : Prop :=
  match w with
  | WInit _ => False
  | WProp x _ => before s f y x
  | WAgree x _ => exists M, M ∈ ps /\ before s M y x
  end.

Definition valid (s : spec) (f t : string) (w : wire) : Prop :=
  match w with
  | WInit x => is_Some (sent s !! x)
  | WProp x p => prop s !! (f, x) = Some p /\ ((f, x) ∉ counted s) /\
      (exists i, sent s !! x = Some i /\ t = node_name i)
  | WAgree x p => final s x p /\ ((t, x) ∉ settled s) /\ complete s x /\
      (exists i, sent s !! x = Some i /\ f = node_name i)
  end.

Definition is_init (w : wire) : bool := match w with WInit _ => true | _ => false end.

(** A message [y] that is not delivered will not get a key below [x]'s: some
    node has proposed a larger one, or will, since it already made the largest
    proposal for [x]. *)
Definition later (s : spec) (y : string) (d : entry) : Prop :=
  exists M, M ∈ ps /\
    ((prop s !! (M, y) = None /\ prop s !! (M, d.1) = Some d.2.1) \/
     (exists q j, prop s !! (M, y) = Some q /\ sent s !! y = Some j /\ ~ klt (q, j) d.2)).

Record inv (s : spec) : Prop := {
  inv_sent : forall x i, sent s !! x = Some i -> node_name i ∈ ps;
  inv_prop : forall t x p, prop s !! (t, x) = Some p -> t ∈ ps /\ is_Some (sent s !! x);
  inv_inj : forall t x y p, prop s !! (t, x) = Some p -> prop s !! (t, y) = Some p -> x = y;
  inv_counted : forall M x, (M, x) ∈ counted s -> is_Some (prop s !! (M, x));
  inv_ends : forall f t w, w ∈ chan s f t -> f ∈ ps /\ t ∈ ps;
  inv_valid : forall f t w, w ∈ chan s f t -> valid s f t w;
  inv_once : forall f t, NoDup (filter (fun w => is_init w = false) (chan s f t));
  inv_relay : forall M t y, t ∈ ps -> seen s M y -> seen s t y \/ WInit y ∈ chan s M t;
  inv_fifo : forall f t l1 w l2 y, chan s f t = l1 ++ w :: l2 -> needs s f w y ->
    seen s t y \/ WInit y ∈ l1;
  inv_counted_seen : forall M x i y, (M, x) ∈ counted s -> sent s !! x = Some i ->
    before s M y x -> seen s (node_name i) y;
  inv_settled : forall t x, (t, x) ∈ settled s ->
    (exists p, final s x p) /\ complete s x /\
    forall M y, M ∈ ps -> before s M y x -> seen s t y;
  inv_order : forall t, Forall (entry_ok s t) (order s t);
  inv_nodup : forall t, NoDup (order s t).*1;
  inv_sorted : forall t, StronglySorted in_order (order s t);
  inv_later : forall t d y, d ∈ order s t -> y ∉ (order s t).*1 -> later s y d;
  inv_pending : forall f x p i, prop s !! (f, x) = Some p -> sent s !! x = Some i ->
    (f, x) ∈ counted s \/ WProp x p ∈ chan s f (node_name i);
  inv_agreed : forall x i t, complete s x -> sent s !! x = Some i -> t ∈ ps ->
    (t, x) ∈ settled s \/ (exists p, WAgree x p ∈ chan s (node_name i) t);
  inv_held : forall t z, (t, z) ∈ settled s -> z ∉ (order s t).*1 ->
    exists y, seen s t y /\ (t, y) ∉ settled s;
}.

(** ** How the parts of the state grow *)

Record grows (s s' : spec) : Prop := {
  grows_sent : sent s ⊆ sent s';
  grows_prop : prop s ⊆ prop s';
  grows_counted : counted s ⊆ counted s';
  grows_settled : settled s ⊆ settled s';
  grows_above : forall M x y p q, prop s !! (M, x) = Some p -> prop s !! (M, y) = None ->
    prop s' !! (M, y) = Some q -> p < q;
}.

Lemma final_unique s x p q : final s x p -> final s x q -> p = q.
Proof.
  intros [H1 (M & HM & Hp)] [H2 (N & HN & Hq)].
  destruct (H1 N HN) as (? & ? & ?), (H2 M HM) as (? & ? & ?). simplify_eq. lia.
Qed.

Lemma final_grows s s' x p : prop s ⊆ prop s' -> final s x p -> final s' x p.
Proof.
  intros Hsub [H1 (M & HM & Hp)]. split.
  - intros N HN. destruct (H1 N HN) as (q & Hq & ?). exists q. split; [|done].
    by eapply lookup_weaken.
  - exists M. split; [done|]. by eapply lookup_weaken.
Qed.

Lemma final_seen s x p M : final s x p -> M ∈ ps -> seen s M x.
Proof. intros [H _] HM. destruct (H M HM) as (q & ? & _). by exists q. Qed.

Lemma seen_grows s s' t x : grows s s' -> seen s t x -> seen s' t x.
Proof. intros Hg [p Hp]. exists p. eapply lookup_weaken; [done|apply Hg]. Qed.

(** A later proposal is larger: it does not come before an old one. *)
Lemma before_back s s' M y x : grows s s' -> seen s M x -> before s' M y x -> before s M y x.
Proof.
  intros Hg [p' Hp'] (q & p & Hq & Hp & Hlt).
  assert (p' = p) as ->.
  { eapply lookup_weaken in Hp' as Hw; [|apply Hg]. congruence. }
  destruct (prop s !! (M, y)) as [q'|] eqn:Hy.
  - eapply lookup_weaken in Hy as Hw; [|apply Hg]. exists q', p. simplify_eq. done.
  - pose proof (grows_above _ _ Hg _ _ _ _ _ Hp' Hy Hq). lia.
Qed.

Lemma needs_back s s' f t w y : grows s s' -> valid s f t w -> needs s' f w y -> needs s f w y.
Proof.
  intros Hg. destruct w as [x|x p|x p]; cbn; [done| |].
  - intros (Hp & _) Hb. eapply before_back; [done| |done]. by exists p.
  - intros (Hf & _) (M & HM & Hb). exists M. split; [done|].
    eapply before_back; [done| |done]. by eapply final_seen.
Qed.

Lemma entry_ok_grows s s' t d : grows s s' -> entry_ok s t d -> entry_ok s' t d.
Proof.
  intros Hg (H1 & H2 & H3). split_and!.
  - by apply (grows_settled _ _ Hg).
  - eapply final_grows; [apply Hg|done].
  - eapply lookup_weaken; [done|apply Hg].
Qed.

Lemma later_grows s s' y d : grows s s' ->
  (forall M p, prop s !! (M, y) = None -> prop s' !! (M, y) = Some p -> is_Some (sent s' !! y)) ->
  later s y d -> later s' y d.
Proof.
  intros Hg Hnew (M & HM & [[Hy Hd]|(q & j & Hq & Hj & Hk)]); exists M; (split; [done|]).
  - destruct (prop s' !! (M, y)) as [q|] eqn:Hq.
    + right. destruct (Hnew M q Hy Hq) as [j Hj]. exists q, j. split_and!; [done..|].
      pose proof (grows_above _ _ Hg _ _ _ _ _ Hd Hy Hq). unfold klt. cbn. lia.
    + left. split; [done|]. eapply lookup_weaken; [done|apply Hg].
  - right. exists q, j. split_and!; [..|done]; (eapply lookup_weaken; [done|apply Hg]).
Qed.

(** ** How the channels change *)

Definition before_after (s s' : spec) (pre rest out : string -> string -> list wire) : Prop :=
  (forall f t, chan s f t = pre f t ++ rest f t) /\ (forall f t, chan s' f t = rest f t ++ out f t).

Lemma fifo_step s s' pre rest out :
  inv s -> grows s s' -> before_after s s' pre rest out ->
  (forall f t y, WInit y ∈ pre f t -> seen s' t y) ->
  (forall f t o1 w o2 y, out f t = o1 ++ w :: o2 -> needs s' f w y ->
     seen s' t y \/ WInit y ∈ rest f t ++ o1) ->
  forall f t l1 w l2 y, chan s' f t = l1 ++ w :: l2 -> needs s' f w y ->
    seen s' t y \/ WInit y ∈ l1.
Proof.
  intros Hi Hg [Hpre Hpost] Hhead Hout f t l1 w l2 y Hc Hn. rewrite Hpost in Hc.
  destruct (decide (length l1 < length (rest f t))%nat) as [Hlt|Hge].
  - assert (exists l3, rest f t = l1 ++ w :: l3) as [l3 Hr].
    { exists (drop (S (length l1)) (rest f t)).
      apply (f_equal (take (S (length l1)))) in Hc.
      rewrite take_app_le in Hc by lia.
      rewrite take_app_ge in Hc by lia.
      replace (S (length l1) - length l1)%nat with 1%nat in Hc by lia. cbn in Hc.
      rewrite <- (take_drop (S (length l1)) (rest f t)) at 1. rewrite Hc.
      rewrite <- (assoc_L (++)). cbn. by rewrite take_0. }
    assert (chan s f t = (pre f t ++ l1) ++ w :: l3) as Hcs
      by (rewrite Hpre, Hr; by rewrite (assoc_L (++))).
    assert (valid s f t w) as Hv.
    { apply inv_valid; [done|]. rewrite Hcs. set_solver. }
    destruct (inv_fifo _ Hi f t _ w l3 y Hcs) as [Hs|Hin].
    + by eapply needs_back.
    + left. by eapply seen_grows.
    + apply elem_of_app in Hin as [Hin|Hin]; [left; by eapply Hhead|by right].
  - assert (exists o1, l1 = rest f t ++ o1) as [o1 ->].
    { exists (drop (length (rest f t)) l1).
      apply (f_equal (take (length (rest f t)))) in Hc.
      rewrite take_app_length, take_app_le in Hc by lia. rewrite Hc at 1. by rewrite take_drop. }
    rewrite <- (assoc_L (++)) in Hc. apply app_inv_head in Hc. by eapply Hout.
Qed.

Lemma relay_step s s' pre rest out :
  inv s -> grows s s' -> before_after s s' pre rest out ->
  (forall f t y, WInit y ∈ pre f t -> seen s' t y) ->
  (forall M t y, t ∈ ps -> ~ seen s M y -> seen s' M y -> seen s' t y \/ WInit y ∈ out M t) ->
  forall M t y, t ∈ ps -> seen s' M y -> seen s' t y \/ WInit y ∈ chan s' M t.
Proof.
  intros Hi Hg [Hpre Hpost] Hhead Hnew M t y Ht Hy. rewrite Hpost.
  destruct (decide (seen s M y)) as [Hs|Hs].
  - destruct (inv_relay _ Hi M t y Ht Hs) as [?|Hin]; [left; by eapply seen_grows|].
    rewrite Hpre in Hin. apply elem_of_app in Hin as [Hin|Hin]; [left; by eapply Hhead|set_solver].
  - destruct (Hnew M t y Ht Hs Hy); set_solver.
Qed.

Lemma head_unique s f t w l :
  inv s -> chan s f t = w :: l -> is_init w = false -> w ∉ l.
Proof.
  intros Hi Hc Hw Hin. pose proof (inv_once _ Hi f t) as Hnd. rewrite Hc in Hnd.
  rewrite filter_cons_True in Hnd by done. apply NoDup_cons in Hnd as [Hnd _]. apply Hnd.
  by apply list_elem_of_filter.
Qed.

Lemma outs_app t o1 o2 : outs t (o1 ++ o2) = outs t o1 ++ outs t o2.
Proof. unfold outs. by rewrite filter_app, fmap_app. Qed.

Lemma outs_fmap t w encs :
  NoDup encs -> outs t ((fun k => (k, w)) <$> encs) = if decide (t ∈ encs) then [w] else [].
Proof.
  unfold outs. induction 1 as [|k encs Hk Hnd IH]; [done|]. rewrite fmap_cons.
  destruct (decide (k = t)) as [->|Hkt].
  - rewrite filter_cons_True by done. rewrite fmap_cons, IH.
    rewrite decide_False by done. by rewrite decide_True by set_solver.
  - rewrite filter_cons_False by done. rewrite IH. apply decide_ext. set_solver.
Qed.

Lemma once_step s s' pre rest out :
  inv s -> before_after s s' pre rest out ->
  (forall f t w, w ∈ out f t -> is_init w = false -> w ∉ rest f t) ->
  (forall f t, NoDup (filter (fun w => is_init w = false) (out f t))) ->
  forall f t, NoDup (filter (fun w => is_init w = false) (chan s' f t)).
Proof.
  intros Hi [Hpre Hpost] Hnew Hnd f t. rewrite Hpost, filter_app.
  pose proof (inv_once _ Hi f t) as Ho. rewrite Hpre, filter_app in Ho.
  apply NoDup_app in Ho as (_ & _ & Ho). apply NoDup_app. split_and!; [done| |done].
  intros w [Hw Hr]%list_elem_of_filter [_ Hin]%list_elem_of_filter. by eapply Hnew.
Qed.

(** The head of a channel, as what precedes the rest. *)
Definition head_of (f t : string) (w : wire) (f' t' : string) : list wire :=
  if decide (f' = f /\ t' = t) then [w] else [].

Lemma elem_of_head_of f t w f' t' w' : w' ∈ head_of f t w f' t' <-> f' = f /\ t' = t /\ w' = w.
Proof. unfold head_of. case_decide; set_solver. Qed.

Lemma take_head_chan s f t w l f' t' :
  chan s f t = w :: l -> chan s f' t' = head_of f t w f' t' ++ chan (take_head f t s) f' t'.
Proof. intros Hc. unfold head_of. cbn. case_decide as Hd; [|done]. destruct Hd as [-> ->]. by rewrite Hc. Qed.

Lemma take_head_elem s f t f' t' w : w ∈ chan (take_head f t s) f' t' -> w ∈ chan s f' t'.
Proof. cbn. case_decide; [|done]. intros Hw. destruct (chan s f' t'); cbn in Hw; set_solver. Qed.

(** What stays in a channel is not its head. *)
Lemma rest_not_head s f t w l f' t' :
  inv s -> chan s f t = w :: l -> is_init w = false -> w ∈ chan (take_head f t s) f' t' ->
  ~ (f' = f /\ t' = t).
Proof.
  intros Hi Hc Hw Hin [-> ->]. cbn in Hin. rewrite decide_True, Hc in Hin by done.
  by eapply head_unique in Hc.
Qed.

(** ** Every rule keeps the invariant *)

Lemma inv_init : inv spec_init.
Proof.
  split; cbn; try set_solver; try (intros; constructor).
  match goal with H : [] = ?l ++ _ |- _ => by destruct l end.
Qed.

Lemma step_tx_inv s x i : inv s -> sent s !! x = None -> node_name i ∈ ps -> inv (add x i s).
Proof.
  intros Hi Hx Hps.
  assert (grows s (add x i s)) as Hg.
  { split; cbn; [by apply insert_subseteq|done..|congruence]. }
  assert (forall M p, prop s !! (M, x) = Some p -> False) as Hnew.
  { intros M p [_ [j Hj]]%(inv_prop _ Hi). congruence. }
  split; cbn; try apply Hi.
  - intros y j. rewrite lookup_insert_Some. intros [[<- <-]|[_ Hy]]; [done|by eapply inv_sent].
  - intros t y p Hp. destruct (inv_prop _ Hi t y p Hp) as [Ht [j Hj]]. split; [done|].
    exists j. by rewrite lookup_insert_ne by congruence.
  - intros f t w Hw. pose proof (inv_valid _ Hi f t w Hw) as Hv. destruct w as [y|y p|y p]; cbn in *.
    + destruct Hv as [j Hj]. exists j. by rewrite lookup_insert_ne by congruence.
    + destruct Hv as (? & ? & j & Hj & ?). split_and!; [done..|].
      exists j. by rewrite lookup_insert_ne by congruence.
    + destruct Hv as (? & ? & ? & j & Hj & ?). split_and!; [done..|].
      exists j. by rewrite lookup_insert_ne by congruence.
  - intros M y j z Hc. rewrite lookup_insert_Some. intros [[<- <-]|[_ Hy]] Hb.
    + destruct (inv_counted _ Hi M x Hc) as [p Hp]. by eapply Hnew in Hp.
    + exact (inv_counted_seen _ Hi M y j z Hc Hy Hb).
  - intros t. eapply Forall_impl; [apply (inv_order _ Hi)|]. intros d. by apply entry_ok_grows.
  - intros t d y Hd Hy. eapply later_grows; [done| |by eapply inv_later]. cbn. congruence.
  - intros f y p j Hp. rewrite lookup_insert_Some. intros [[<- <-]|[_ Hy]].
    + by eapply Hnew in Hp.
    + exact (inv_pending _ Hi f y p j Hp Hy).
  - intros y j t Hc. rewrite lookup_insert_Some. intros [[<- <-]|[_ Hy]] Ht.
    + destruct Hc as [_ Hc]. destruct (inv_counted _ Hi t x (Hc t Ht)) as [p Hp]. by eapply Hnew in Hp.
    + exact (inv_agreed _ Hi y j t Hc Hy Ht).
Qed.

Lemma grows_same s s' :
  sent s = sent s' -> prop s = prop s' -> counted s ⊆ counted s' -> settled s ⊆ settled s' ->
  grows s s'.
Proof. intros Hs Hp ? ?. split; rewrite ?Hs, ?Hp; try done. congruence. Qed.

Lemma step_cast_inv s x i t :
  inv s -> sent s !! x = Some i -> t ∈ ps -> inv (push (node_name i) [(t, WInit x)] s).
Proof.
  intros Hi Hx Ht. set (s' := push _ _ s).
  assert (forall f t' w, w ∈ chan s f t' -> w ∈ chan s' f t') as Hmono by (cbn; set_solver).
  assert (forall f t' w, w ∈ (if decide (f = node_name i) then outs t' [(t, WInit x)] else []) ->
    f = node_name i /\ t' = t /\ w = WInit x) as Hout.
  { intros f t' w. case_decide; [|set_solver]. unfold outs.
    destruct (decide (t = t')) as [->|Hne].
    - rewrite filter_cons_True by done. cbn. set_solver.
    - rewrite filter_cons_False by done. cbn. set_solver. }
  assert (before_after s s' (fun _ _ => []) (chan s)
    (fun f t' => if decide (f = node_name i) then outs t' [(t, WInit x)] else [])) as Hba by done.
  split; try apply Hi.
  - intros f t' w Hw. cbn in Hw. apply elem_of_app in Hw as [Hw|(-> & -> & ->)%Hout]; [by eapply inv_ends|].
    split; [by eapply inv_sent|done].
  - intros f t' w Hw. cbn in Hw. apply elem_of_app in Hw as [Hw|(-> & -> & ->)%Hout]; [exact (inv_valid _ Hi _ _ _ Hw)|].
    by exists i.
  - apply (once_step s s' _ _ _ Hi Hba).
    + intros f t' w (_ & _ & ->)%Hout. done.
    + intros f t'. case_decide; [|constructor]. unfold outs. cbn.
      case_decide; cbn; constructor.
  - apply (relay_step s s' _ _ _ Hi (grows_same s s' eq_refl eq_refl (reflexivity _) (reflexivity _)) Hba); [set_solver|done].
  - apply (fifo_step s s' _ _ _ Hi (grows_same s s' eq_refl eq_refl (reflexivity _) (reflexivity _)) Hba); [set_solver|].
    intros f t' o1 w o2 y Ho. assert (w = WInit x) as ->; [|done].
    assert (w ∈ o1 ++ w :: o2) as Hw by set_solver. rewrite <- Ho in Hw. by apply Hout in Hw as (_ & _ & ->).
  - intros f y p j Hp Hj. destruct (inv_pending _ Hi f y p j Hp Hj); auto.
  - intros y j t' Hc Hj Ht'. destruct (inv_agreed _ Hi y j t' Hc Hj Ht') as [?|[p Hp]]; eauto.
Qed.

Lemma step_known_inv s f t x l :
  inv s -> chan s f t = WInit x :: l -> seen s t x -> inv (take_head f t s).
Proof.
  intros Hi Hc Hx. set (s' := take_head f t s).
  assert (forall f' t' w, w ∈ chan s f' t' -> is_init w = false -> w ∈ chan s' f' t') as Hkeep.
  { intros f' t' w Hw Hn. rewrite (take_head_chan s f t _ l f' t' Hc) in Hw.
    apply elem_of_app in Hw as [(_ & _ & ->)%elem_of_head_of|Hw]; done. }
  assert (before_after s s' (head_of f t (WInit x)) (chan s') (fun _ _ => [])) as Hba.
  { split; [intros; by eapply take_head_chan|]. intros. by rewrite app_nil_r. }
  split; try apply Hi.
  - intros f' t' w Hw%take_head_elem. by eapply inv_ends.
  - intros f' t' w Hw%take_head_elem. exact (inv_valid _ Hi _ _ _ Hw).
  - apply (once_step s s' _ _ _ Hi Hba); [set_solver|constructor].
  - apply (relay_step s s' _ _ _ Hi (grows_same s s' eq_refl eq_refl (reflexivity _) (reflexivity _)) Hba); [|done].
    intros f' t' y (-> & -> & [= ->])%elem_of_head_of. done.
  - apply (fifo_step s s' _ _ _ Hi (grows_same s s' eq_refl eq_refl (reflexivity _) (reflexivity _)) Hba).
    + intros f' t' y (-> & -> & [= ->])%elem_of_head_of. done.
    + intros f' t' o1 w o2 y Ho. by destruct o1.
  - intros f' y p j Hp Hj. destruct (inv_pending _ Hi f' y p j Hp Hj); auto.
  - intros y j t' Hcy Hj Ht'. destruct (inv_agreed _ Hi y j t' Hcy Hj Ht') as [?|[p Hp]]; eauto.
Qed.

Lemma valid_grows s s' f t w :
  grows s s' -> counted s' = counted s -> settled s' = settled s -> valid s f t w -> valid s' f t w.
Proof.
  intros Hg Hc Hs. assert (forall x i, sent s !! x = Some i -> sent s' !! x = Some i) as Hsent.
  { intros x i Hx. eapply lookup_weaken; [done|apply Hg]. }
  destruct w as [x|x p|x p]; cbn; rewrite ?Hc, ?Hs.
  - intros [i Hi]. exists i. auto.
  - intros (Hp & Hn & i & Hi & ->). split_and!; [|done|eauto]. eapply lookup_weaken; [done|apply Hg].
  - intros (Hf & Hn & [Hl Hcm] & i & Hi & ->). split_and!; [|done| |eauto].
    + eapply final_grows; [apply Hg|done].
    + split; [done|]. rewrite Hc. done.
Qed.

Lemma inv_prop_lt s t x p :
  inv s -> (forall y q, prop s !! (t, y) = Some q -> q < p) -> prop s !! (t, x) = None ->
  grows s (offer t x p s).
Proof.
  intros Hi Hp Hx. split; cbn; [done|by apply insert_subseteq|done|done|].
  intros M a y pa q Ha Hy. rewrite lookup_insert_Some. intros [[[= <- <-] <-]|[_ ?]]; [|congruence].
  eauto.
Qed.

Section offer.
Context (s : spec) (f t x : string) (l : list wire) (i p : Z) (encs : list string).
Context (Hi : inv s) (Hnd : NoDup ps) (Hc : chan s f t = WInit x :: l) (Hx : ~ seen s t x)
  (Hsent : sent s !! x = Some i) (Hp : forall y q, prop s !! (t, y) = Some q -> q < p)
  (Hencs : encs ≡ₚ ps).

Let out := ((fun k => (k, WInit x)) <$> filter (fun k => k <> t) encs) ++ [(node_name i, WProp x p)].
Let s' := push t out (offer t x p (take_head f t s)).
Let outc (f' t' : string) : list wire := if decide (f' = t) then outs t' out else [].

Lemma propose_outs t' :
  outs t' out = (if decide (t' ∈ ps /\ t' <> t) then [WInit x] else []) ++
    (if decide (t' = node_name i) then [WProp x p] else []).
Proof.
  unfold out. rewrite outs_app, outs_fmap.
  - f_equal.
    + apply decide_ext. rewrite list_elem_of_filter, Hencs. tauto.
    + unfold outs. cbn. case_decide; case_decide; done || congruence.
  - apply NoDup_filter. by rewrite Hencs.
Qed.

Lemma propose_outc f' t' w :
  w ∈ outc f' t' -> f' = t /\ t' ∈ ps /\ ((w = WInit x /\ t' <> t) \/ (w = WProp x p /\ t' = node_name i)).
Proof.
  unfold outc. case_decide as Hf; [|set_solver]. rewrite propose_outs.
  intros [Hw|Hw]%elem_of_app; case_decide as Hd; try set_solver.
  apply list_elem_of_singleton in Hw as ->. split_and!; [done| |by right]. subst. by eapply inv_sent.
Qed.

Lemma propose_grows : grows s s'.
Proof.
  destruct (inv_prop_lt s t x p Hi Hp) as [? ? ? ? ?]; [by apply eq_None_not_Some|]. by split.
Qed.

Lemma propose_before_after : before_after s s' (head_of f t (WInit x)) (chan (take_head f t s)) outc.
Proof. split; [|done]. intros. by eapply take_head_chan. Qed.

Lemma propose_seen : seen s' t x.
Proof. exists p. apply lookup_insert_eq. Qed.

Lemma propose_prop M y q :
  prop s' !! (M, y) = Some q -> (M = t /\ y = x /\ q = p) \/ prop s !! (M, y) = Some q.
Proof. cbn. rewrite lookup_insert_Some. intros [[[= <- <-] <-]|[_ ?]]; auto. Qed.

Lemma propose_rest f' t' w : w ∈ chan s f' t' -> is_init w = false -> w ∈ chan s' f' t'.
Proof.
  destruct propose_before_after as [Hpre Hpost]. rewrite Hpre, Hpost.
  intros [(_ & _ & ->)%elem_of_head_of|Hw]%elem_of_app; [done|set_solver].
Qed.

Lemma propose_valid f' t' w : w ∈ chan s' f' t' -> valid s' f' t' w.
Proof.
  destruct propose_before_after as [_ Hpost]. rewrite Hpost. intros [Hw%take_head_elem|Hw]%elem_of_app.
  { apply (valid_grows s); [apply propose_grows|done..|]. by apply inv_valid. }
  apply propose_outc in Hw as (-> & Ht' & [[-> _]|[-> ->]]); [by exists i|].
  split_and!; [apply lookup_insert_eq| |eauto].
  intros [q Hq]%(inv_counted _ Hi). apply Hx. by exists q.
Qed.

Lemma propose_fifo f' t' l1 w l2 y :
  chan s' f' t' = l1 ++ w :: l2 -> needs s' f' w y -> seen s' t' y \/ WInit y ∈ l1.
Proof.
  apply (fifo_step s s' _ _ _ Hi propose_grows propose_before_after).
  - intros f2 t2 z (-> & -> & [= ->])%elem_of_head_of. apply propose_seen.
  - intros f2 t2 o1 w2 o2 z Ho Hneed.
    assert (w2 ∈ outc f2 t2) as Hw by (rewrite Ho; set_solver).
    apply propose_outc in Hw as (-> & Ht2 & [[-> _]|[-> ->]]); [done|].
    destruct Hneed as (q & p' & Hq & Hp' & Hlt).
    apply propose_prop in Hq as [(_ & -> & ->)|Hq].
    { cbn in Hp'. rewrite lookup_insert_eq in Hp'. simplify_eq. lia. }
    destruct (inv_relay _ Hi t (node_name i) z Ht2) as [Hs|Hs]; [by exists q|left; by eapply seen_grows, Hs; apply propose_grows|].
    right. destruct propose_before_after as [Hpre _]. rewrite Hpre in Hs.
    apply elem_of_app in Hs as [(_ & _ & [= ->])%elem_of_head_of|Hs]; [|set_solver].
    destruct Hx. by exists q.
Qed.

Lemma step_propose_inv : inv s'.
Proof.
  pose proof propose_grows as Hg. pose proof (inv_ends _ Hi f t (WInit x)) as [Hfps Htps]; [rewrite Hc; set_solver|].
  split.
  - apply Hi.
  - intros M y q [(-> & -> & ->)|Hq]%propose_prop; [split; [done|by exists i]|exact (inv_prop _ Hi M y q Hq)].
  - intros M y z q Hy Hz. apply propose_prop in Hy as [(-> & -> & ->)|Hy], Hz as [(E1 & E2 & E3)|Hz]; subst; [done| | |by eapply inv_inj].
    + apply Hp in Hz. lia.
    + apply Hp in Hy. lia.
  - intros M y Hy%(inv_counted _ Hi). by eapply seen_grows.
  - intros f' t' w. destruct propose_before_after as [_ Hpost]. rewrite Hpost.
    intros [Hw%take_head_elem|(-> & Ht' & _)%propose_outc]%elem_of_app; [by eapply inv_ends|done].
  - apply propose_valid.
  - apply (once_step s s' _ _ _ Hi propose_before_after).
    + intros f' t' w (-> & Ht' & [[-> _]|[-> ->]])%propose_outc Hw; [done|].
      intros (Hq & _)%take_head_elem%(inv_valid _ Hi). apply Hx. by exists p.
    + intros f' t'. unfold outc. case_decide; [|constructor]. rewrite propose_outs.
      repeat case_decide; cbn; repeat constructor; set_solver.
  - apply (relay_step s s' _ _ _ Hi Hg propose_before_after).
    + intros f' t' y (-> & -> & [= ->])%elem_of_head_of. apply propose_seen.
    + intros M t' y Ht' Hn [q [(-> & -> & ->)|Hq]%propose_prop]; [|by destruct Hn; exists q].
      destruct (decide (t' = t)) as [->|Hne]; [left; apply propose_seen|right].
      unfold outc. rewrite decide_True by done. rewrite propose_outs, decide_True by done. set_solver.
  - apply propose_fifo.
  - intros M z j y Hcz Hj Hb. eapply seen_grows; [done|]. eapply inv_counted_seen; [done..|].
    eapply before_back; [done| |done]. by apply inv_counted.
  - intros t' z Hz. destruct (inv_settled _ Hi t' z Hz) as ([q Hq] & Hcm & Hb). split_and!; [|done|].
    + exists q. eapply final_grows; [apply Hg|done].
    + intros M y HM Hby. eapply seen_grows; [done|]. apply (Hb M y HM).
      eapply before_back; [done| |done]. by eapply final_seen.
  - intros t'. eapply Forall_impl; [apply (inv_order _ Hi)|]. intros d. by apply entry_ok_grows.
  - apply Hi.
  - apply Hi.
  - intros t' d y Hd Hy. eapply later_grows; [done| |by eapply inv_later].
    intros M q Hn [(-> & -> & ->)|Hq]%propose_prop; [by exists i|congruence].
  - intros f' z q j Hq Hj. apply propose_prop in Hq as [(-> & -> & ->)|Hq].
    + right. assert (j = i) as -> by (cbn in Hj; congruence).
      destruct propose_before_after as [_ Hpost]. rewrite Hpost. unfold outc.
      rewrite decide_True by done. rewrite propose_outs, (decide_True (P := node_name i = _)) by done. set_solver.
    + destruct (inv_pending _ Hi f' z q j Hq Hj); [by left|right; by apply propose_rest].
  - intros y j t' Hcy Hj Ht'. destruct (inv_agreed _ Hi y j t' Hcy Hj Ht') as [?|[q Hq]]; [by left|right].
    exists q. by apply propose_rest.
  - intros t' z Hz Hn. destruct (inv_held _ Hi t' z Hz Hn) as (y & Hy & Hys).
    exists y. split; [by eapply seen_grows|done].
Qed.
End offer.

Section count.
Context (s : spec) (f t x : string) (q : Z) (l : list wire) (out : list (string * wire)).
Context (Hi : inv s) (Hnd : NoDup ps) (Hc : chan s f t = WProp x q :: l)
  (Hout : answers (count f x s) x out).

Let s' := push t out (count f x (take_head f t s)).
Let outc (f' t' : string) : list wire := if decide (f' = t) then outs t' out else [].

Lemma count_head :
  prop s !! (f, x) = Some q /\ ((f, x) ∉ counted s) /\ (exists i, sent s !! x = Some i /\ t = node_name i) /\
  f ∈ ps /\ t ∈ ps.
Proof.
  assert (WProp x q ∈ chan s f t) as Hin by (rewrite Hc; set_solver).
  pose proof (inv_valid _ Hi _ _ _ Hin) as (? & ? & ?).
  pose proof (inv_ends _ Hi _ _ _ Hin) as [? ?]. by split_and!.
Qed.

Lemma count_grows : grows s s'.
Proof. apply grows_same; cbn; [done..|set_solver|done]. Qed.

Lemma count_before_after : before_after s s' (head_of f t (WProp x q)) (chan (take_head f t s)) outc.
Proof. split; [|done]. intros. by eapply take_head_chan. Qed.

Lemma count_complete y : y <> x -> complete s' y -> complete s y.
Proof. intros Hy [Hl Hy']. split; [done|]. intros M HM. specialize (Hy' M HM). set_solver. Qed.

Lemma complete_grows s1 s2 y : grows s1 s2 -> complete s1 y -> complete s2 y.
Proof. intros Hg [Hl Hy]. split; [done|]. intros M HM. by apply (grows_counted _ _ Hg), Hy. Qed.

Lemma not_complete : ~ complete s x.
Proof.
  destruct count_head as (_ & Hn & _ & Hf & _). intros [_ Hall]. by apply Hn, Hall.
Qed.

Lemma count_outc f' t' w :
  w ∈ outc f' t' -> f' = t /\ t' ∈ ps /\ complete s' x /\ exists p, final s x p /\ w = WAgree x p /\ outc f' t' = [w].
Proof.
  unfold outc. case_decide as Hf; [|set_solver]. subst f'.
  destruct Hout as [[_ ->]|(Hcm & p & encs & Hp & He & ->)]; [cbn; set_solver|].
  rewrite outs_fmap by by rewrite He. case_decide as Ht; [|set_solver].
  intros ->%list_elem_of_singleton. rewrite He in Ht. split_and!; [done|done|exact Hcm|].
  by exists p.
Qed.

Lemma count_rest f' t' w :
  w ∈ chan s f' t' -> w ∈ chan s' f' t' \/ (f' = f /\ t' = t /\ w = WProp x q).
Proof.
  destruct count_before_after as [Hpre Hpost]. rewrite Hpre, Hpost.
  intros [Hw%elem_of_head_of|Hw]%elem_of_app; [by right|set_solver].
Qed.

Lemma count_valid f' t' w : w ∈ chan s' f' t' -> valid s' f' t' w.
Proof.
  destruct count_before_after as [_ Hpost]. rewrite Hpost. intros [Hw|Hw]%elem_of_app.
  - pose proof (inv_valid _ Hi _ _ _ (take_head_elem _ _ _ _ _ _ Hw)) as Hv.
    destruct w as [y|y p|y p]; [done| |].
    + destruct Hv as (Hp & Hn & j & Hj & ->). split_and!; [done| |by exists j].
      intros [[= -> ->]%elem_of_singleton|?]%elem_of_union; [|done].
      destruct count_head as (Hq & _ & (i & Hx & ->) & _). simplify_eq.
      by destruct (rest_not_head s _ _ _ l _ _ Hi Hc eq_refl Hw).
    + destruct Hv as (Hp & Hn & Hcm & Hj). split_and!; [done..| |done].
      eapply complete_grows; [apply count_grows|done].
  - apply count_outc in Hw as (-> & Ht' & Hcm & p & Hp & -> & _).
    destruct count_head as (_ & _ & Hx & _). split_and!; [done| |done|done].
    intros (_ & Hcs & _)%(inv_settled _ Hi). by apply not_complete.
Qed.

Lemma count_fifo f' t' l1 w l2 y :
  chan s' f' t' = l1 ++ w :: l2 -> needs s' f' w y -> seen s' t' y \/ WInit y ∈ l1.
Proof.
  apply (fifo_step s s' _ _ _ Hi count_grows count_before_after).
  - by intros f2 t2 z (_ & _ & [=])%elem_of_head_of.
  - intros f2 t2 o1 w2 o2 z Ho Hneed.
    assert (w2 ∈ outc f2 t2) as Hw by (rewrite Ho; set_solver).
    apply count_outc in Hw as (-> & Ht2 & Hcm & p & Hp & -> & _).
    destruct count_head as (Hq & _ & (i & Hx & Ht) & _).
    assert (seen s t z) as Hseen.
    { destruct Hneed as (M & HM & Hb). destruct (decide (M = f)) as [->|Hne].
      - destruct (inv_fifo _ Hi f t [] (WProp x q) l z Hc Hb); [done|set_solver].
      - rewrite Ht. eapply inv_counted_seen; [done| |done|exact Hb].
        destruct Hcm as [_ Hcm]. specialize (Hcm M HM). set_solver. }
    destruct (inv_relay _ Hi t t2 z Ht2 Hseen) as [?|Hs]; [by left|right].
    destruct count_before_after as [Hpre _]. rewrite Hpre in Hs.
    apply elem_of_app in Hs as [(_ & _ & [=])%elem_of_head_of|Hs]. set_solver.
Qed.

Lemma step_count_inv : inv s'.
Proof.
  pose proof count_grows as Hg. destruct count_head as (Hq & Hn & (i & Hx & Ht) & Hfps & Htps).
  split; try apply Hi.
  - intros M y [[= -> ->]%elem_of_singleton|Hy]%elem_of_union; [by exists q|exact (inv_counted _ Hi M y Hy)].
  - intros f' t' w. destruct count_before_after as [_ Hpost]. rewrite Hpost.
    intros [Hw%take_head_elem|(-> & ? & _)%count_outc]%elem_of_app; [by eapply inv_ends|done].
  - apply count_valid.
  - apply (once_step s s' _ _ _ Hi count_before_after).
    + intros f' t' w (-> & Ht' & _ & p & _ & -> & _)%count_outc _.
      intros (_ & _ & Hcs & _)%take_head_elem%(inv_valid _ Hi). by apply not_complete.
    + intros f' t'. destruct (outc f' t') as [|w o] eqn:Ho; [constructor|].
      assert (w ∈ outc f' t') as Hw by (rewrite Ho; set_solver).
      apply count_outc in Hw as (_ & _ & _ & p & _ & -> & Hw). rewrite <- Ho, Hw.
      rewrite filter_cons_True by done. apply NoDup_singleton.
  - apply (relay_step s s' _ _ _ Hi Hg count_before_after); [|done].
    by intros f' t' y (_ & _ & [=])%elem_of_head_of.
  - apply count_fifo.
  - intros M z j y [[= -> ->]%elem_of_singleton|Hz]%elem_of_union Hj Hb.
    + assert (j = i) as -> by (cbn in Hj; congruence). rewrite <- Ht.
      destruct (inv_fifo _ Hi f t [] (WProp x q) l y Hc Hb); [done|set_solver].
    + exact (inv_counted_seen _ Hi M z j y Hz Hj Hb).
  - intros t' z Hz. destruct (inv_settled _ Hi t' z Hz) as (Hf & Hcm & Hb).
    split; [exact Hf|]. split; [|exact Hb]. by eapply complete_grows.
  - intros f' z p j Hp Hj. cbn [counted s' push count]. destruct (inv_pending _ Hi f' z p j Hp Hj) as [?|Hw]; [set_solver|].
    apply count_rest in Hw as [?|(-> & _ & [= -> ->])]; [by right|left; set_solver].
  - intros y j t' Hcy Hj Ht'. destruct (decide (y = x)) as [->|Hne].
    + right. assert (j = i) as -> by (cbn in Hj; congruence).
      destruct Hout as [[Hnc _]|(_ & p & encs & Hp & He & Ho)]; [by destruct Hnc|].
      exists p. cbn. apply elem_of_app. right. rewrite decide_True, Ho by done.
      rewrite outs_fmap by by rewrite He. rewrite decide_True by by rewrite He. set_solver.
    + apply count_complete in Hcy; [|done].
      destruct (inv_agreed _ Hi y j t' Hcy Hj Ht') as [?|[p Hp]]; [by left|right].
      exists p. by apply count_rest in Hp as [?|(_ & _ & [=])].
Qed.
End count.

Section settle.
Context (s : spec) (f t x : string) (p : Z) (l : list wire) (ds : list entry).
Context (Hi : inv s) (Hc : chan s f t = WAgree x p :: l) (Hds : delivers (settle t x s) t ds).

Let s' := deliver t ds (settle t x (take_head f t s)).

Lemma settle_head :
  final s x p /\ ((t, x) ∉ settled s) /\ complete s x /\ (exists i, sent s !! x = Some i /\ f = node_name i) /\
  f ∈ ps /\ t ∈ ps.
Proof.
  assert (WAgree x p ∈ chan s f t) as Hin by (rewrite Hc; set_solver).
  pose proof (inv_valid _ Hi _ _ _ Hin) as (? & ? & ? & ?).
  pose proof (inv_ends _ Hi _ _ _ Hin) as [? ?]. by split_and!.
Qed.

Lemma settle_grows : grows s s'.
Proof. apply grows_same; cbn; [done..|set_solver]. Qed.

Lemma settle_before_after :
  before_after s s' (head_of f t (WAgree x p)) (chan (take_head f t s)) (fun _ _ => []).
Proof. split; [intros; by eapply take_head_chan|]. intros. by rewrite app_nil_r. Qed.

Lemma settle_rest f' t' w :
  w ∈ chan s f' t' -> w ∈ chan s' f' t' \/ (f' = f /\ t' = t /\ w = WAgree x p).
Proof.
  destruct settle_before_after as [Hpre _]. rewrite Hpre.
  intros [Hw%elem_of_head_of|Hw]%elem_of_app; [by right|by left].
Qed.

Lemma settle_valid f' t' w : w ∈ chan s' f' t' -> valid s' f' t' w.
Proof.
  intros Hw. pose proof (inv_valid _ Hi _ _ _ (take_head_elem _ _ _ _ _ _ Hw)) as Hv.
  destruct w as [y|y q|y q]; [done..|]. destruct Hv as (Hq & Hn & Hcm & j & Hj & ->).
  split_and!; [done| |done|by exists j].
  intros [[= -> ->]%elem_of_singleton|?]%elem_of_union; [|done].
  destruct settle_head as (Hp & _ & _ & (i & Hx & ->) & _). simplify_eq.
  assert (q = p) as -> by (by eapply final_unique).
  by destruct (rest_not_head s _ _ _ l _ _ Hi Hc eq_refl Hw).
Qed.

Lemma settle_settled t' z :
  (t', z) ∈ settled s' ->
  (exists p, final s z p) /\ complete s z /\ forall M y, M ∈ ps -> before s M y z -> seen s t' y.
Proof.
  intros [[= -> ->]%elem_of_singleton|Hz]%elem_of_union; [|by apply inv_settled].
  destruct settle_head as (Hp & _ & Hcm & _). split_and!; [by exists p|done|].
  intros M y HM Hb. destruct (inv_fifo _ Hi f t [] (WAgree x p) l y Hc); [by exists M|done|set_solver].
Qed.

Lemma settle_order t' : Forall (entry_ok s' t') (order s' t').
Proof.
  cbn. case_decide as Ht; [subst t'|].
  - apply Forall_app. split; [|apply Hds].
    eapply Forall_impl; [apply (inv_order _ Hi)|]. intros d. apply entry_ok_grows, settle_grows.
  - eapply Forall_impl; [apply (inv_order _ Hi)|]. intros d. apply entry_ok_grows, settle_grows.
Qed.

(** A message that is already delivered comes before those delivered now. *)
Lemma settle_in_order d e : d ∈ order s t -> e ∈ ds -> in_order d e.
Proof.
  intros Hd He Hlt. destruct Hds as (Hok & Hnd & _).
  assert (e.1 ∉ (order s t).*1) as Hne.
  { rewrite fmap_app in Hnd. apply NoDup_app in Hnd as (_ & Hdis & _). intros Hin.
    apply (Hdis _ Hin). by apply list_elem_of_fmap_2. }
  rewrite Forall_forall in Hok. destruct (Hok e He) as (_ & [Hall _] & Hsent).
  destruct (inv_later _ Hi t d e.1 Hd Hne) as (M & HM & [[Hnone _]|(q & j & Hq & Hj & Hk)]).
  - destruct (Hall M HM) as (q & Hq & _). cbn in Hq. congruence.
  - destruct (Hall M HM) as (q' & Hq' & Hle). cbn in Hq', Hsent.
    assert (q' = q) as -> by congruence. assert (e.2.2 = j) as Hjs by congruence.
    apply Hk. unfold klt in *. cbn. lia.
Qed.

Lemma settle_later d y : d ∈ ds -> y ∉ (order s t ++ ds).*1 -> later s' y d.
Proof.
  intros Hd Hy. destruct Hds as (Hok & Hnd & _ & Habove & _).
  rewrite Forall_forall in Hok. destruct (Hok d Hd) as (Hset & Hf & Hsent).
  destruct settle_head as (_ & _ & _ & _ & _ & Htps).
  destruct (decide (seen s t y)) as [Hs|Hs].
  - assert (is_Some (sent s !! y)) as [j Hj] by (destruct Hs as [q Hq]; by eapply inv_prop).
    destruct (decide ((t, y) ∈ settled s')) as [Hset'|Hset'].
    + destruct (settle_settled t y Hset') as ([q Hq] & _).
      assert (~ klt (q, j) d.2) as Hk.
      { eapply Habove; [done..| |done]. unfold held. by rewrite decide_True. }
      destruct Hq as [_ (M & HM & Hq)]. exists M. split; [done|]. right. by exists q, j.
    + destruct Hs as [q Hq]. exists t. split; [done|]. right. exists q, j. split_and!; [done..|].
      eapply Habove; [done|by exists q|done| |done]. unfold held. by rewrite decide_False.
  - destruct Hf as [_ (M & HM & Hd1)]. exists M. split; [done|].
    destruct (prop s !! (M, y)) as [q|] eqn:Hq; [right|by left].
    destruct (inv_prop _ Hi M y q Hq) as [_ [j Hj]]. exists q, j. split_and!; [done..|].
    destruct (settle_settled t d.1 Hset) as (_ & _ & Hb).
    assert (~ q < d.2.1) as Hge. { intros Hlt. apply Hs, (Hb M y HM). by exists q, d.2.1. }
    assert (q <> d.2.1) as Hne.
    { intros ->. assert (y = d.1) as -> by (by eapply inv_inj). apply Hy.
      apply list_elem_of_fmap_2. set_solver. }
    unfold klt. cbn. lia.
Qed.

Lemma step_settle_inv : inv s'.
Proof.
  pose proof settle_grows as Hg. destruct settle_head as (Hp & Hn & Hcm & (i & Hx & Hf) & Hfps & Htps).
  pose proof Hds as (Hok & Hnd & Hsort & _ & Hblock).
  split; try apply Hi.
  - intros f' t' w Hw%take_head_elem. by eapply inv_ends.
  - apply settle_valid.
  - apply (once_step s s' _ _ _ Hi settle_before_after); [set_solver|constructor].
  - apply (relay_step s s' _ _ _ Hi Hg settle_before_after); [|done].
    by intros f' t' y (_ & _ & [=])%elem_of_head_of.
  - apply (fifo_step s s' _ _ _ Hi Hg settle_before_after).
    + by intros f' t' y (_ & _ & [=])%elem_of_head_of.
    + intros f' t' o1 w o2 y Ho. by destruct o1.
  - apply settle_settled.
  - apply settle_order.
  - intros t'. cbn. case_decide as Ht; [subst t'; done|apply Hi].
  - intros t'. cbn. case_decide as Ht; [subst t'|apply Hi].
    apply StronglySorted_app_2; [|apply Hi|done]. intros. by apply settle_in_order.
  - intros t' d y. cbn. case_decide as Ht; [subst t'|].
    + intros [Hd|Hd]%elem_of_app Hy; [|by apply settle_later].
      eapply later_grows; [done|cbn; congruence|]. eapply inv_later; [done|done|].
      rewrite fmap_app in Hy. set_solver.
    + intros Hd Hy. eapply later_grows; [done|cbn; congruence|]. by eapply inv_later.
  - intros f' z q j Hq Hj. destruct (inv_pending _ Hi f' z q j Hq Hj) as [?|Hw]; [by left|right].
    by apply settle_rest in Hw as [?|(_ & _ & [=])].
  - intros y j t' Hcy Hj Ht'. cbn [settled s' deliver settle].
    destruct (inv_agreed _ Hi y j t' Hcy Hj Ht') as [?|[q Hq]]; [left; set_solver|].
    apply settle_rest in Hq as [?|(-> & -> & [= -> ->])]; [right; by exists q|left; set_solver].
  - intros t' z. cbn. case_decide as Ht; [subst t'; apply Hblock|].
    intros Hz Hz'. destruct (inv_held _ Hi t' z) as (y & Hy & Hys); [set_solver|done|].
    exists y. split; [done|]. set_solver.
Qed.
End settle.

Lemma step_inv s s' : NoDup ps -> inv s -> step s s' -> inv s'.
Proof.
  intros Hnd Hi Hs. destruct Hs as [| |s' Hw]; [by apply step_tx_inv|by apply step_cast_inv|].
  destruct Hw.
  - by eapply step_known_inv.
  - by eapply step_propose_inv.
  - by eapply step_count_inv.
  - by eapply step_settle_inv.
Qed.

Lemma spec_reachable_inv s : NoDup ps -> reachable s -> inv s.
Proof.
  intros Hnd Hs. unfold reachable in Hs.
  apply (rtc_ind_r (fun s => inv s)) in Hs; [done|apply inv_init|].
  intros s1 s2 _ Hs12 Hi. by eapply step_inv.
Qed.

(** ** What the invariant gives *)

(** Two nodes deliver a message with the same key. *)
Lemma inv_same_key s a b d e :
  inv s -> d ∈ order s a -> e ∈ order s b -> d.1 = e.1 -> d = e.
Proof.
  intros Hi Hd He Hid. pose proof (inv_order _ Hi a) as Ha. pose proof (inv_order _ Hi b) as Hb.
  rewrite Forall_forall in Ha, Hb. destruct (Ha d Hd) as (_ & Hf & Hs), (Hb e He) as (_ & Hf' & Hs').
  destruct d as [x [p i]], e as [y [q j]]. cbn in *. subst y.
  assert (p = q) as -> by (by eapply final_unique). by simplify_eq.
Qed.

(** Total order: two messages that two nodes deliver in opposite orders have
    the same key. *)
Lemma inv_total_order s a b d e l1 l2 l3 k1 k2 k3 :
  inv s -> order s a = l1 ++ d :: l2 ++ e :: l3 -> order s b = k1 ++ e :: k2 ++ d :: k3 -> d.2 = e.2.
Proof.
  assert (forall (m : list entry) u v m1 m2 m3, StronglySorted in_order m -> m = m1 ++ u :: m2 ++ v :: m3 ->
    in_order u v) as Hpick.
  { intros m u v m1 m2 m3 Hs ->. apply StronglySorted_app_1_r in Hs.
    apply StronglySorted_inv in Hs as [_ Hs]. rewrite Forall_forall in Hs. apply Hs. set_solver. }
  intros Hi Ha Hb. pose proof (Hpick _ _ _ _ _ _ (inv_sorted _ Hi a) Ha) as H1.
  pose proof (Hpick _ _ _ _ _ _ (inv_sorted _ Hi b) Hb) as H2.
  unfold in_order, klt in H1, H2. destruct d as [x [p i]], e as [y [q j]]. cbn in *.
  f_equal; lia.
Qed.

(** Once a node has delivered [d] it delivers only larger keys. *)
Lemma inv_delivered_below s a b d e :
  inv s -> d ∈ order s a -> e ∈ order s b -> e.1 ∉ (order s a).*1 -> ~ klt e.2 d.2.
Proof.
  intros Hi Hd He Hn. pose proof (inv_order _ Hi b) as Hb. rewrite Forall_forall in Hb.
  destruct (Hb e He) as (_ & [Hall _] & Hsent).
  destruct (inv_later _ Hi a d e.1 Hd Hn) as (M & HM & Hl). destruct (Hall M HM) as (q' & Hq' & Hle).
  destruct Hl as [[Hnone _]|(q & j & Hq & Hj & Hk)]; [congruence|].
  assert (q' = q) as -> by congruence. assert (e.2.2 = j) as Hjs by congruence.
  intros Hlt. apply Hk. unfold klt in *. cbn. lia.
Qed.

(** Two sorted lists of which one continues the other. *)
Lemma sorted_prefix (l1 l2 : list entry) :
  StronglySorted in_order l1 -> StronglySorted in_order l2 -> NoDup l1 -> NoDup l2 -> l1 ⊆ l2 ->
  (forall d e, d ∈ l1 -> e ∈ l2 -> d.2 = e.2 -> d = e) ->
  (forall d e, d ∈ l1 -> e ∈ l2 -> e ∉ l1 -> ~ klt e.2 d.2) -> l1 `prefix_of` l2.
Proof.
  intros Hs1. revert l2. induction Hs1 as [|d l1 Hs1 IH Hd]; intros l2 Hs2 Hn1 Hn2 Hsub Hkey Habove.
  { apply prefix_nil. }
  destruct l2 as [|e l2].
  { exfalso. apply (not_elem_of_nil d), Hsub. by left. }
  apply StronglySorted_inv in Hs2 as [Hs2 He]. apply NoDup_cons in Hn1 as [Hd1 Hn1], Hn2 as [He2 Hn2].
  rewrite Forall_forall in Hd, He.
  assert (d = e) as <-.
  { destruct (decide (d = e)) as [|Hne]; [done|].
    assert (d ∈ l2) as Hdl by (destruct (proj1 (elem_of_cons l2 d e) (Hsub d ltac:(left))); done).
    pose proof (He d Hdl) as H1. apply Hkey; [by left|by left|].
    assert (~ klt e.2 d.2) as H2.
    { destruct (decide (e ∈ l1)) as [Hin|Hin]; [by apply Hd|].
      apply Habove; [by left|by left|]. intros [?|?]%elem_of_cons; [congruence|done]. }
    unfold in_order, klt in *. destruct d as [? [? ?]], e as [? [? ?]]. cbn in *. f_equal; lia. }
  apply prefix_cons, IH; [done..| | |].
  - intros x Hx. destruct (proj1 (elem_of_cons l2 x d) (Hsub x ltac:(by right))) as [->|]; done.
  - intros x y Hx Hy. apply Hkey; by right.
  - intros x y Hx Hy Hn. apply Habove; [by right..|]. intros [->|]%elem_of_cons; done.
Qed.

(** With distinct keys the nodes deliver one and the same sequence: at any
    moment one node is only behind the other. *)
Lemma inv_prefix s a b :
  inv s -> (forall d e, d ∈ order s a -> e ∈ order s b -> d.2 = e.2 -> d.1 = e.1) ->
  order s a `prefix_of` order s b \/ order s b `prefix_of` order s a.
Proof.
  intros Hi Hkey.
  assert (forall a b d e, d ∈ order s a -> e ∈ order s b -> e ∉ order s a -> ~ klt e.2 d.2) as Hbelow.
  { intros a' b' d e Hd He Hn. eapply inv_delivered_below; [done..|]. intros Hin. apply Hn.
    apply list_elem_of_fmap in Hin as (e' & He' & Hin).
    assert (e = e') as -> by (by eapply (inv_same_key s b' a')). done. }
  assert (forall a, NoDup (order s a)) as Hnd by (intros a'; eapply NoDup_fmap_1, inv_nodup, Hi).
  destruct (decide (Forall (fun d => d ∈ order s b) (order s a))) as [Hab|Hab];
    [|destruct (decide (Forall (fun d => d ∈ order s a) (order s b))) as [Hba|Hba]].
  - rewrite Forall_forall in Hab. left.
    apply sorted_prefix; try apply Hi; [done..| |]; [|intros; by eapply Hbelow].
    intros d e Hd He Hde. eapply inv_same_key; [done..|]. by apply Hkey.
  - rewrite Forall_forall in Hba. right.
    apply sorted_prefix; try apply Hi; [done..| |]; [|intros; by eapply Hbelow].
    intros d e Hd He Hde. eapply inv_same_key; [done..|]. symmetry. by apply Hkey.
  - exfalso. apply not_Forall_Exists, Exists_exists in Hab as (d & Hd & Hdb); [|apply _].
    apply not_Forall_Exists, Exists_exists in Hba as (e & He & Hea); [|apply _].
    pose proof (Hbelow a b d e Hd He Hea) as H1. pose proof (Hbelow b a e d He Hd Hdb) as H2.
    assert (d.2 = e.2) as Heq.
    { unfold klt in *. destruct d as [? [? ?]], e as [? [? ?]]. cbn in *. f_equal; lia. }
    apply Hdb. assert (d = e) as ->; [|done]. eapply inv_same_key; [done..|]. by apply Hkey.
Qed.

(** When nothing is on its way any more, everybody has delivered everything
    that its sender has seen. *)
Lemma inv_quiescent s :
  inv s -> (2 <= length ps)%nat -> (forall f t, chan s f t = []) ->
  forall x i t, sent s !! x = Some i -> seen s (node_name i) x -> t ∈ ps -> x ∈ (order s t).*1.
Proof.
  intros Hi Hlen Hq.
  assert (forall y i t, sent s !! y = Some i -> seen s (node_name i) y -> t ∈ ps -> seen s t y) as Hall.
  { intros y i t Hy Hs Ht. destruct (inv_relay _ Hi _ t y Ht Hs) as [?|Hin]; [done|]. rewrite Hq in Hin. set_solver. }
  assert (forall y t, seen s t y -> (t, y) ∈ settled s) as Hset.
  { intros y t [q Ht]. destruct (inv_prop _ Hi t y q Ht) as [Htps [i Hy]].
    destruct (inv_pending _ Hi t y q i Ht Hy) as [Hcnt|Hin]; [|rewrite Hq in Hin; set_solver].
    assert (seen s (node_name i) y) as Hown.
    { destruct (inv_relay _ Hi t (node_name i) y) as [?|Hin]; [by eapply inv_sent|by exists q|done|].
      rewrite Hq in Hin. set_solver. }
    destruct (inv_agreed _ Hi y i t) as [?|[p Hin]]; [|done..|rewrite Hq in Hin; set_solver].
    split; [done|]. intros M HM. destruct (Hall y i M Hy Hown HM) as [qM HqM].
    destruct (inv_pending _ Hi M y qM i HqM Hy) as [?|Hin]; [done|rewrite Hq in Hin; set_solver]. }
  intros x i t Hx Hs Ht. destruct (decide (x ∈ (order s t).*1)) as [|Hn]; [done|].
  destruct (inv_held _ Hi t x) as (y & Hy & Hys); [by apply Hset; eapply Hall|done|].
  by destruct Hys; apply Hset.
Qed.
End protocol.
