(* ===== verification/MulticastNet.v ===== *)
(** * MulticastNet: a network of ISIS nodes

    [Node.Run] (multicast-demo/types/node.go) gives a node one [ISIS]
    goroutine, one [Deliver] goroutine per incoming connection and one [Cast]
    goroutine per transaction read from the console.  Connections are FIFO;
    [msgChan] is unbuffered, so a [Deliver] goroutine holds at most one message
    ([inbox]) until [ISIS] takes it, and an iteration of [ISIS] is one step.  A
    [Cast] goroutine sends to one node per step, in the order in which it ranges
    over the map of encoders. *)
From S2P Require Import Prelude GoHeap MessagePQ Multicast.

Record net : Set := mkNet {
  peers : list string;
  nodes : gmap string Multicast;
  links : gmap (string * string) (list Message);
  closed : gset (string * string);
  inbox : gmap (string * string) Message;
  casting : list (string * list string * Message);
  delivered : gmap string (list Message);
}.

Definition net_init (peers : list string) : net := {|
  peers := peers;
  nodes := list_to_map ((fun k => (k, Multicast_init k peers)) <$> peers);
  links := ∅; closed := ∅; inbox := ∅; casting := []; delivered := ∅;
|}.

Definition set_node (k : string) (m : Multicast) (n : net) : net :=
  {| peers := peers n; nodes := <[k := m]> (nodes n); links := links n; closed := closed n;
     inbox := inbox n; casting := casting n; delivered := delivered n |}.
Definition set_links l (n : net) : net :=
  {| peers := peers n; nodes := nodes n; links := l; closed := closed n;
     inbox := inbox n; casting := casting n; delivered := delivered n |}.
Definition set_closed c (n : net) : net :=
  {| peers := peers n; nodes := nodes n; links := links n; closed := c;
     inbox := inbox n; casting := casting n; delivered := delivered n |}.
Definition set_inbox i (n : net) : net :=
  {| peers := peers n; nodes := nodes n; links := links n; closed := closed n;
     inbox := i; casting := casting n; delivered := delivered n |}.
Definition set_casting c (n : net) : net :=
  {| peers := peers n; nodes := nodes n; links := links n; closed := closed n;
     inbox := inbox n; casting := c; delivered := delivered n |}.
Definition set_delivered d (n : net) : net :=
  {| peers := peers n; nodes := nodes n; links := links n; closed := closed n;
     inbox := inbox n; casting := casting n; delivered := d |}.

Definition link (n : net) (from to : string) : list Message :=
  default [] (links n !! (from, to)).
Definition log_of (n : net) (k : string) : list Message := default [] (delivered n !! k).

Definition send (from to : string) (msg : Message) (n : net) : net :=
  set_links (<[(from, to) := link n from to ++ [msg]]> (links n)) n.

(** The outputs of an iteration of [ISIS] at [self]. *)
Definition emit (self : string) (n : net) (o : output) : net :=
  match o with
  | OCast to msg => send self to msg n
  | ODeliver msg => set_delivered (<[self := log_of n self ++ [msg]]> (delivered n)) n
  end.

Inductive event : Set :=
  | EvTx (self : string) (msg : Message) (order : list string)
      (** a transaction is read: [go n.mcast.Cast(encs, message)] *)
  | EvSend (k : nat)
      (** the [k]-th [Cast] goroutine sends to the next node *)
  | EvRecv (from to : string)
      (** the [Deliver] goroutine of [to] decodes a message *)
  | EvFail (from to : string)
      (** the decoding fails: the connection is gone *)
  | EvHandle (from to : string) (keys encs : list string).
      (** [ISIS] of [to] takes the message the goroutine holds; [keys] and
          [encs] are the orders in which it ranges over its maps *)

Definition exec (n : net) (e : event) : outcome net :=
  match e with
  | EvTx self msg order =>
      if decide (is_Some (nodes n !! self) /\ order ≡ₚ peers n /\ Status msg = "i")
      then Ret (set_casting (casting n ++ [(self, order, msg)]) n)
      else Block
  | EvSend k =>
      match casting n !! k with
      | Some (self, to :: order, msg) =>
          match nodes n !! self with
          | Some m =>
              let n' := set_casting (<[k := (self, order, msg)]> (casting n)) n in
              Ret (if map_bool (nfailCheck m) to then n' else send self to msg n')
          | None => Block
          end
      | _ => Block
      end
  | EvRecv from to =>
      match nodes n !! to, link n from to, inbox n !! (from, to) with
      | Some m, msg :: rest, None =>
          if decide ((from, to) ∈ closed n) then Block
          else
            let n' := set_links (<[(from, to) := rest]> (links n)) n in
            match Deliver_step m from (Some msg) with
            | (m', Some msg') => Ret (set_inbox (<[(from, to) := msg']> (inbox n)) (set_node to m' n'))
            | (m', None) => Ret (set_node to m' n')
            end
      | _, _, _ => Block
      end
  | EvFail from to =>
      match nodes n !! to, inbox n !! (from, to) with
      | Some m, None =>
          if decide ((from, to) ∈ closed n) then Block
          else Ret (set_closed ({[(from, to)]} ∪ closed n)
                     (set_node to (Deliver_step m from None).1 n))
      | _, _ => Block
      end
  | EvHandle from to keys encs =>
      match nodes n !! to, inbox n !! (from, to) with
      | Some m, Some msg =>
          if decide (keys ≡ₚ peers n /\ encs ≡ₚ peers n) then
            '(m', out) ← ISIS_step m keys encs msg;
            Ret (foldl (emit to) (set_inbox (delete (from, to) (inbox n)) (set_node to m' n)) out)
          else Block
      | _, _ => Block
      end
  end.

Fixpoint exec_all (n : net) (es : list event) : outcome net :=
  match es with
  | [] => Ret n
  | e :: es => n' ← exec n e; exec_all n' es
  end.

(** ** At most once *)

Definition delivered_of (out : list output) : list Message :=
  omap (fun o => match o with ODeliver m => Some m | _ => None end) out.

(** What a node has delivered or still holds: no id twice, all recorded. *)
Definition node_ok (m : Multicast) (log : list Message) : Prop :=
  pq_ok (pq m) /\ ids_ok (log ++ pq m) (messageCheck m).

Lemma node_ok_mc_ok m log : node_ok m log -> mc_ok m.
Proof.
  intros [Hpq Hids]. apply mc_ok_ids. split; [done|].
  eapply ids_ok_submseteq; [|exact Hids]. rewrite fmap_app. by apply submseteq_inserts_l.
Qed.

(** How an iteration changes the ids a node holds: it only moves ids from the
    queue to the log or drops them, unless it takes in a new one. *)
Definition ids_step (m m' : Multicast) (ds : list Message) (message : Message) : Prop :=
  ((Id <$> ds ++ pq m') ⊆+ (Id <$> pq m) /\ messageCheck m' = messageCheck m) \/
  (messageCheck m !! Id message = None /\
   (Id <$> ds ++ pq m') ⊆+ Id message :: (Id <$> pq m) /\
   messageCheck m' = <[Id message := true]> (messageCheck m)).

Lemma node_ok_step m m' log ds message :
  node_ok m log -> pq_ok (pq m') -> ids_step m m' ds message -> node_ok m' (log ++ ds).
Proof.
  intros [_ Hids] Hpq [[Hsub Hc]|(Hnone & Hsub & Hc)]; (split; [done|]); rewrite Hc.
  - eapply ids_ok_submseteq; [|exact Hids]. rewrite <- (assoc_L (++)), !fmap_app.
    apply submseteq_app; [done|]. by rewrite <- fmap_app.
  - destruct Hids as [Hnd Hall].
    assert (Id message ∉ Id <$> log ++ pq m) as Hnew.
    { intros Hin. apply Hall in Hin as [b Hb]. congruence. }
    eapply (ids_ok_submseteq (message :: log ++ pq m)).
    + rewrite fmap_cons, <- (assoc_L (++)), !fmap_app. rewrite fmap_app in Hsub.
      rewrite Permutation_middle. by apply submseteq_app.
    + split; [by apply NoDup_cons|]. intros id [->|Hid]%elem_of_cons.
      * by rewrite lookup_insert_eq.
      * rewrite lookup_insert_is_Some. destruct (decide (Id message = id)); auto.
Qed.

Lemma delivered_of_casts out : Forall is_cast out -> delivered_of out = [].
Proof. induction 1 as [|[] out]; done. Qed.

Lemma delivered_of_app o1 o2 : delivered_of (o1 ++ o2) = delivered_of o1 ++ delivered_of o2.
Proof. apply omap_app. Qed.

Lemma delivered_of_deliver ds : delivered_of (ODeliver <$> ds) = ds.
Proof. induction ds as [|d ds IH]; [done|]. cbn. f_equal. exact IH. Qed.

Lemma agree_casts m encs message : delivered_of (agree m encs message) = [].
Proof. apply delivered_of_casts. unfold agree, Cast. apply fmap_OCast_casts. Qed.

Lemma ISIS_i_ids m encs message m' out :
  mc_ok m -> ISIS_i m encs message = Ret (m', out) ->
  ids_step m m' (delivered_of out) message.
Proof.
  rewrite mc_ok_ids. intros [Hpq Hids] H. unfold ISIS_i in H.
  destruct (messageCheck m !! Id message) eqn:Hc.
  { injection H as <- <-. by left. }
  bind_inv H. injection H as <- <-. right.
  rewrite delivered_of_app, !delivered_of_casts by eauto with go.
  cbn [pq messageCheck set_pq set_P set_messageCheck app].
  set (msg := proposal _ _). split_and!; [done| |done].
  destruct (pq_push_ok msg (pq m) Hpq) as [_ Hp].
  apply (fmap_Permutation Id) in Hp. cbn in Hp. rewrite !fmap_Id_erase in Hp. by rewrite Hp.
Qed.

Lemma ISIS_pf_ids m encs message :
  ids_step m (ISIS_pf m encs message).1 (delivered_of (ISIS_pf m encs message).2) message.
Proof.
  left. unfold ISIS_pf. destruct (messageNCheck m !! _); [done|]. cbn [fst snd].
  case_decide; [rewrite agree_casts|]; done.
Qed.

Lemma ISIS_p_ids m encs message m' out :
  mc_ok m -> ISIS_p m encs message = Ret (m', out) ->
  ids_step m m' (delivered_of out) message.
Proof.
  rewrite mc_ok_ids. intros [Hpq Hids] H. unfold ISIS_p in H. bind_inv H. rename r into m1.
  assert (Id <$> pq m1 ⊆+ Id <$> pq m /\ messageCheck m1 = messageCheck m) as [Hsub Hc].
  { destruct (map_bool _ _); [|by injection E as <-].
    destruct (FindById _ _) as [k|]; [|by injection E as <-].
    bind_inv E. destruct r as [r q]. cbn in E. injection E as <-.
    by eapply PQRemove_ids in E0 as (? & ? & ?). }
  destruct (propose_frame m1 message) as (Hq & Hc' & _).
  left. assert (delivered_of out = []) as ->.
  { destruct (repliers _ !! _); injection H as _ <-; [|done].
    case_decide; [apply agree_casts|done]. }
  destruct (repliers _ !! _); injection H as <- _;
    cbn [pq messageCheck set_repliers set_aliveNodes app]; by rewrite Hq, Hc'.
Qed.

Lemma ISIS_a_ids m message m' out :
  mc_ok m -> ISIS_a m message = Ret (m', out) ->
  ids_step m m' (delivered_of out) message.
Proof.
  intros Hok H. destruct (FindById (pq m) (Id message)) as [k|] eqn:Hf.
  2:{ unfold ISIS_a in H. by rewrite Hf in H. }
  destruct (proj1 (FindById_Some _ _ _) Hf) as [(old & Hk & Hid) _].
  destruct (ISIS_a_spec m message k old Hok Hf Hk) as (q' & ds & Hs & _ & Hp & _).
  rewrite Hs in H. injection H as <- <-. left. rewrite delivered_of_deliver.
  split; [|done]. cbn [pq set_pq]. apply (fmap_Permutation Id) in Hp.
  erewrite fmap_Id_insert in Hp; [|by rewrite list_lookup_fmap, Hk|done].
  rewrite !fmap_app, !fmap_Id_erase in Hp. by rewrite fmap_app, <- Hp.
Qed.

Lemma ISIS_step_node_ok m keys encs log message m' out :
  node_ok m log -> ISIS_step m keys encs message = Ret (m', out) ->
  node_ok m' (log ++ delivered_of out).
Proof.
  intros Hok H. unfold ISIS_step in H. bind_inv H. destruct r as [m1 o1].
  bind_inv H. destruct r as [m2 o2]. injection H as <- <-.
  pose proof (failScan_casts _ _ _ _ _ E) as Hcasts.
  rewrite delivered_of_app, (delivered_of_casts o1) by done. cbn [app].
  apply failScan_ok in E as (Hok1 & Hc & Hsub); [|by eapply node_ok_mc_ok].
  assert (node_ok m1 log) as Hnode1.
  { destruct Hok as [_ Hids]. split; [apply Hok1|]. rewrite Hc.
    eapply ids_ok_submseteq; [|exact Hids]. rewrite !fmap_app. by apply submseteq_app. }
  eapply node_ok_step; [exact Hnode1| |].
  - repeat case_decide;
      [by eapply ISIS_i_ok in E0 as []| |by eapply ISIS_p_ok in E0 as []
      |by eapply ISIS_a_ok in E0 as []].
    injection E0 as E0. pose proof (ISIS_pf_ok m1 encs message Hok1) as [Hpf _].
    by rewrite E0 in Hpf.
  - repeat case_decide; [by eapply ISIS_i_ids| |by eapply ISIS_p_ids|by eapply ISIS_a_ids].
    injection E0 as E0. pose proof (ISIS_pf_ids m1 encs message) as Hpf.
    by rewrite E0 in Hpf.
Qed.

(** ** The network invariant *)

Definition net_ok (n : net) : Prop :=
  forall k m, nodes n !! k = Some m -> node_ok m (log_of n k).

Lemma emit_nodes self n out : nodes (foldl (emit self) n out) = nodes n.
Proof. revert n. induction out as [|[] out IH]; intros n; cbn; rewrite ?IH; done. Qed.

Lemma emit_log self n out k :
  log_of (foldl (emit self) n out) k =
    log_of n k ++ (if decide (k = self) then delivered_of out else []).
Proof.
  revert n. induction out as [|[to m|m] out IH]; intros n.
  - cbn. case_decide; by rewrite app_nil_r.
  - cbn. rewrite IH. done.
  - cbn [foldl]. rewrite IH. unfold log_of at 1. cbn [emit delivered set_delivered].
    rewrite lookup_insert. destruct (decide (self = k)) as [->|Hk].
    + rewrite !decide_True by done. cbn. by rewrite <- (assoc_L (++)).
    + by rewrite !decide_False by done.
Qed.

Lemma Deliver_step_node_ok m log loc r :
  node_ok m log -> node_ok (Deliver_step m loc r).1 log.
Proof. unfold Deliver_step. destruct r; [|done]. by case_decide. Qed.

Lemma net_ok_set_node n k m :
  net_ok n -> node_ok m (log_of n k) -> net_ok (set_node k m n).
Proof.
  intros Hn Hm k' m'. cbn. rewrite lookup_insert. destruct (decide (k = k')) as [->|].
  - by intros [= <-].
  - apply Hn.
Qed.

Lemma exec_ok n e n' : net_ok n -> exec n e = Ret n' -> net_ok n'.
Proof.
  intros Hn H. destruct e as [self msg order|k|from to|from to|from to keys encs]; cbn [exec] in H.
  - case_decide; [|done]. by injection H as <-.
  - destruct (casting n !! k) as [[[self [|to order]] msg]|]; [done| |done].
    destruct (nodes n !! self); [|done]. injection H as <-. by case_match.
  - destruct (nodes n !! to) as [m|] eqn:Hm; [|done].
    destruct (link n from to) as [|msg rest]; [done|].
    destruct (inbox n !! (from, to)); [done|]. case_decide; [done|].
    pose proof (Deliver_step_node_ok m _ from (Some msg) (Hn to m Hm)) as Hok.
    destruct (Deliver_step m from (Some msg)) as [m' [msg'|]]; injection H as <-;
      by apply (net_ok_set_node (set_links _ n)).
  - destruct (nodes n !! to) as [m|] eqn:Hm; [|done].
    destruct (inbox n !! (from, to)); [done|]. case_decide; [done|]. injection H as <-.
    apply (net_ok_set_node n); [done|]. by apply (Deliver_step_node_ok m _ from None), Hn.
  - destruct (nodes n !! to) as [m|] eqn:Hm; [|done].
    destruct (inbox n !! (from, to)) as [msg|]; [|done].
    case_decide; [|done]. bind_inv H. destruct r as [m' out]. injection H as <-.
    intros k mk. rewrite emit_nodes, emit_log. cbn. rewrite lookup_insert.
    destruct (decide (to = k)) as [->|].
    + rewrite decide_True by done. intros [= <-].
      eapply ISIS_step_node_ok; [by apply Hn|exact E].
    + rewrite decide_False, app_nil_r by done. apply Hn.
Qed.

Lemma net_init_ok ps : net_ok (net_init ps).
Proof.
  intros k m Hm. cbn in Hm. apply elem_of_list_to_map_2 in Hm.
  apply list_elem_of_fmap in Hm as (k' & [= -> ->] & _).
  split; [apply pq_ok_nil|]. split; [constructor|]. intros id Hid. cbn in Hid.
  by apply not_elem_of_nil in Hid.
Qed.

Lemma exec_all_ok n es n' : net_ok n -> exec_all n es = Ret n' -> net_ok n'.
Proof.
  revert n. induction es as [|e es IH]; intros n Hn H; cbn in H.
  - by injection H as <-.
  - bind_inv H. eapply IH; [by eapply exec_ok|done].
Qed.

(** C30 Integrity, in every execution of the network, with any interleaving
    of the goroutines and any connections failing: a node never delivers two
    messages with the same id, never holds one it has delivered, and every
    message it has delivered or holds was recorded at its first receipt. *)
Theorem at_most_once ps es n k m :
  exec_all (net_init ps) es = Ret n -> nodes n !! k = Some m ->
  NoDup ((Id <$> log_of n k) ++ (Id <$> pq m)) /\
  (forall x, x ∈ log_of n k ++ pq m -> is_Some (messageCheck m !! Id x)).
Proof.
  intros H Hk. pose proof (exec_all_ok _ _ _ (net_init_ok ps) H k m Hk) as [_ [Hnd Hall]].
  split; [by rewrite <- fmap_app|]. intros x Hx. apply Hall. by apply list_elem_of_fmap_2.
Qed.

(** *** A run in which two nodes deliver in different orders *)

Definition tx (id : string) : Message := {|
  Id := id; Sender := 1; Priority := 0; Index := -1; NodeId := "node1"; RNodeId := "node1";
  Status := "i"; IsDeliverable := false; IsDeposit := true; Names := ["a"]; Amount := 5 |}.

Definition recv (from to : string) : list event :=
  [EvRecv from to; EvHandle from to ["node1"; "node2"] ["node1"; "node2"]].

(** node1 multicasts x and y from two goroutines; x reaches node1 first and y
    reaches node2 first. *)
Definition tie_schedule : list event :=
  [EvTx "node1" (tx "x") ["node1"; "node2"]; EvTx "node1" (tx "y") ["node2"; "node1"];
   EvSend 0; EvSend 1; EvSend 0; EvSend 1]
  ++ recv "node1" "node2" ++ recv "node1" "node2"       (* node2: y then x *)
  ++ recv "node1" "node1" ++ recv "node1" "node1"       (* node1: x then y *)
  ++ [EvRecv "node2" "node1"]                           (* relayed y: known *)
  ++ recv "node2" "node1"                               (* node2's proposal for y *)
  ++ [EvRecv "node2" "node1"] ++ recv "node2" "node1"   (* x known; proposal for x *)
  ++ recv "node1" "node1" ++ recv "node1" "node1"       (* own proposals: both agreed *)
  ++ recv "node1" "node1" ++ recv "node1" "node1"       (* node1 delivers x, y *)
  ++ [EvRecv "node1" "node2"; EvRecv "node1" "node2"]   (* relayed x, y: known *)
  ++ recv "node1" "node2" ++ recv "node1" "node2".      (* node2 delivers y, x *)

Definition tie_run : net :=
  value_or (net_init []) (exec_all (net_init ["node1"; "node2"]) tie_schedule).

Definition tie_node (k : string) : Multicast :=
  default (Multicast_init k []) (nodes tie_run !! k).

Lemma at_most_once_witness :
  NoDup ((Id <$> log_of tie_run "node2") ++ (Id <$> pq (tie_node "node2"))) /\
  (forall x, x ∈ log_of tie_run "node2" ++ pq (tie_node "node2") ->
     is_Some (messageCheck (tie_node "node2") !! Id x)).
Proof.
  apply (at_most_once ["node1"; "node2"] tie_schedule tie_run "node2" (tie_node "node2")).
  - vm_compute. reflexivity.
  - vm_compute. reflexivity.
Defined.

(** C38 [Less] breaks ties between equal agreed priorities by the sender only,
    so the multicast is not totally ordered: in this execution, without
    failures and with FIFO connections, two messages of one sender are agreed
    with the same priority and are delivered in opposite orders by the two
    nodes. *)
Theorem same_sender_tie_breaks_total_order :
  exists es n, exec_all (net_init ["node1"; "node2"]) es = Ret n /\
    Id <$> log_of n "node1" = ["x"; "y"] /\ Id <$> log_of n "node2" = ["y"; "x"] /\
    order_key <$> log_of n "node1" = order_key <$> log_of n "node2".
Proof.
  exists tie_schedule, tie_run. split_and!; vm_compute; reflexivity.
Qed.

(** *** A failure that stops the nodes that did not fail *)

Definition trio : list string := ["node1"; "node2"; "node3"].

Definition handle3 (from to : string) : event := EvHandle from to trio trio.
Definition recv3 (from to : string) : list event := [EvRecv from to; handle3 from to].

(** node1 multicasts x, then y; node3 fails before it answers.  node2 tells
    node1 that x lost a node ("pf") after its own proposal. *)
Definition crash_schedule : list event :=
  [EvTx "node1" (tx "x") trio; EvSend 0; EvSend 0; EvSend 0;
   EvTx "node1" (tx "y") trio; EvSend 1; EvSend 1; EvSend 1]
  ++ recv3 "node1" "node1"                              (* node1 queues x *)
  ++ recv3 "node1" "node2"                              (* node2 queues x *)
  ++ [EvFail "node3" "node1"; EvFail "node3" "node2"]
  ++ recv3 "node1" "node2"                              (* y at node2: "pf" for x *)
  ++ [EvRecv "node2" "node1"] ++ recv3 "node2" "node1"  (* x known; node2's proposal *)
  ++ recv3 "node2" "node1"                              (* node2's "pf": x is agreed *)
  ++ recv3 "node1" "node1"                              (* y at node1 *)
  ++ recv3 "node1" "node1"                              (* own proposal: x is agreed again *)
  ++ recv3 "node1" "node1"                              (* own "pf": seen *)
  ++ recv3 "node1" "node1" ++ recv3 "node1" "node1"     (* node1 delivers x; y proposed *)
  ++ [EvRecv "node1" "node1"]
  ++ [EvRecv "node1" "node2"] ++ recv3 "node1" "node2"  (* node2 delivers x *)
  ++ [EvRecv "node1" "node2"; EvRecv "node1" "node2"].

Definition crash_run : net :=
  value_or (net_init []) (exec_all (net_init trio) crash_schedule).

(** C39 The failure of one node can stop all the others (code bug).  In this
    execution of three nodes only the connections from node3 fail; the "pf"
    messages make node1 agree on the same message twice, and at each of the two
    nodes left the second agreed message finds the message already delivered
    and dereferences the nil that [FindById] returns. *)
Theorem one_failure_stops_the_other_nodes :
  exists es n, exec_all (net_init trio) es = Ret n /\
    closed n = {[("node3", "node1"); ("node3", "node2")]} /\
    Id <$> log_of n "node1" = ["x"] /\ Id <$> log_of n "node2" = ["x"] /\
    exec n (handle3 "node1" "node1") = Crash NilDeref /\
    exec n (handle3 "node1" "node2") = Crash NilDeref.
Proof.
  exists crash_schedule, crash_run. split; [vm_compute; reflexivity|].
  split_and!; vm_compute; reflexivity.
Qed.
