(* ===== verification/MulticastOrder.v ===== *)
(** * MulticastOrder: the network of ISIS nodes refines the protocol

    Without failures every event of [MulticastNet] is a step of the machine of
    [IsisSpec] or invisible to it.  [sim] relates the two states: the messages
    of a connection are the channel, the tables of a sender count the
    proposals, the queue of a node holds its own proposals and the agreed
    priorities.  The total order, the agreement of the nodes and the freedom
    from panics of the program follow. *)
From S2P Require Import Prelude GoHeap MessagePQ Multicast MulticastProps IsisSpec MulticastNet.

(** ** The abstraction of messages *)

Definition wire_of (m : Message) : wire :=
  if decide (Status m = "i") then WInit (Id m)
  else if decide (Status m = "p") then WProp (Id m) (Priority m)
  else WAgree (Id m) (Priority m).

Definition entry_of (m : Message) : entry := (Id m, (Priority m, Sender m)).

(** What the protocol never changes of a transaction. *)
Definition content (m : Message) : string * Z * bool * list string * Z :=
  (Id m, Sender m, IsDeposit m, Names m, Amount m).

Definition from_tx (T : gmap string Message) (m : Message) : Prop :=
  exists t, T !! Id m = Some t /\ content m = content t.

(** The statuses of a run without failures. *)
Definition plain (m : Message) : Prop := Status m = "i" \/ Status m = "p" \/ Status m = "a".

(** What is on its way from one node to another, the message the [Deliver]
    goroutine holds included. *)
Definition pipe (n : net) (f t : string) : list Message :=
  option_list (inbox n !! (f, t)) ++ link n f t.

Definition wires (out : list output) : list (string * wire) :=
  omap (fun o => match o with OCast k m => Some (k, wire_of m) | _ => None end) out.

Definition casts_to (t : string) (out : list output) : list Message :=
  omap (fun o => match o with OCast k m => if decide (k = t) then Some m else None | _ => None end) out.

Lemma wires_app o1 o2 : wires (o1 ++ o2) = wires o1 ++ wires o2.
Proof. apply omap_app. Qed.

Lemma wires_casts ks m : wires ((fun k => OCast k m) <$> ks) = (fun k => (k, wire_of m)) <$> ks.
Proof. induction ks as [|k ks IH]; [done|]. cbn. f_equal. exact IH. Qed.

Lemma wires_deliver ds : wires (ODeliver <$> ds) = [].
Proof. by induction ds. Qed.

Lemma outs_wires t out : outs t (wires out) = wire_of <$> casts_to t out.
Proof.
  unfold outs. induction out as [|[k m|m] out IH]; [done| |exact IH].
  change (wires (OCast k m :: out)) with ((k, wire_of m) :: wires out).
  change (casts_to t (OCast k m :: out)) with
    (match (if decide (k = t) then Some m else None) with
     | Some y => y :: casts_to t out | None => casts_to t out end).
  rewrite filter_cons. cbn [fst]. case_decide; cbn; [f_equal|]; exact IH.
Qed.

(** ** The channels of the network *)

Lemma pipe_emit self n out f t :
  pipe (foldl (emit self) n out) f t = pipe n f t ++ (if decide (f = self) then casts_to t out else []).
Proof.
  revert n. induction out as [|[k m|m] out IH]; intros n; cbn [foldl].
  - cbn. case_decide; by rewrite app_nil_r.
  - rewrite IH. unfold pipe at 1, link. cbn [inbox links emit send set_links].
    rewrite lookup_insert. cbn [casts_to omap list_omap].
    destruct (decide (f = self)) as [->|Hf].
    + destruct (decide (k = t)) as [->|Hk].
      * rewrite decide_True by done. unfold pipe, link. cbn. by rewrite <- !(assoc_L (++)).
      * rewrite decide_False by congruence. done.
    + by rewrite decide_False by congruence.
  - rewrite IH. done.
Qed.

Lemma pipe_handle n from to msg m' f t :
  inbox n !! (from, to) = Some msg ->
  pipe (set_inbox (delete (from, to) (inbox n)) (set_node to m' n)) f t =
    if decide (f = from /\ t = to) then tail (pipe n f t) else pipe n f t.
Proof.
  intros Hin. unfold pipe. cbn. rewrite lookup_delete. case_decide as Hd.
  - injection Hd as <- <-. rewrite decide_True by done. by rewrite Hin.
  - by rewrite decide_False by naive_solver.
Qed.

Lemma pipe_recv n from to msg msg' rest m' f t :
  inbox n !! (from, to) = None -> link n from to = msg :: rest -> wire_of msg' = wire_of msg ->
  wire_of <$> pipe (set_inbox (<[(from, to) := msg']> (inbox n))
    (set_node to m' (set_links (<[(from, to) := rest]> (links n)) n))) f t = wire_of <$> pipe n f t.
Proof.
  intros Hin Hl Hw. unfold pipe, link in *. cbn. rewrite !lookup_insert. case_decide as Hd; [|done].
  injection Hd as <- <-. rewrite Hin, Hl. cbn. by rewrite Hw.
Qed.

Lemma pipe_drop n from to msg rest m' f t :
  inbox n !! (from, to) = None -> link n from to = msg :: rest ->
  pipe (set_node to m' (set_links (<[(from, to) := rest]> (links n)) n)) f t =
    if decide (f = from /\ t = to) then tail (pipe n f t) else pipe n f t.
Proof.
  intros Hin Hl. unfold pipe, link in *. cbn. rewrite !lookup_insert. case_decide as Hd.
  - injection Hd as <- <-. rewrite decide_True by done. by rewrite Hin, Hl.
  - by rewrite decide_False by naive_solver.
Qed.

(** ** The relation *)

(** The nodes whose proposal for a message of node [k] has reached it. *)
Definition collected (ps : list string) (s : spec) (k x : string) : list string :=
  filter (fun M => (M, x) ∈ counted s /\ node_name <$> sent s !! x = Some k) ps.

(** The tables of the sender, for the message [x]. *)
Definition tables_ok (s : spec) (m : Multicast) (x : string) (C : list string) : Prop :=
  (C = [] /\ proposed m !! x = None /\ repliers m !! x = None) \/
  (exists p, C <> [] /\ proposed m !! x = Some p /\ repliers m !! x = Some (zlen C) /\
     (exists M, M ∈ C /\ prop s !! (M, x) = Some p) /\
     (forall M q, M ∈ C -> prop s !! (M, x) = Some q -> q <= p)).

Definition entry_state (ps : list string) (s : spec) (k : string) (e : Message) : Prop :=
  (IsDeliverable e = true <-> (k, Id e) ∈ settled s) /\ held ps s k (Id e) (Priority e).

Record node_sim (ps : list string) (T : gmap string Message) (s : spec) (k : string)
    (m : Multicast) (log : list Message) : Prop := {
  ns_cur : curNodeId m = k;
  ns_A : A m = 0;
  ns_P : P m = Z.of_nat (size (messageCheck m));
  ns_fail : no_failure m;
  ns_size : size (nfailCheck m) = length ps;
  ns_ok : node_ok m log;
  ns_check : forall x, is_Some (messageCheck m !! x) <-> seen s k x;
  ns_clock : forall x p, prop s !! (k, x) = Some p -> p <= P m;
  ns_held : forall x, seen s k x -> x ∈ Id <$> (log ++ pq m);
  ns_queue : forall e, e ∈ pq m -> from_tx T e /\ entry_state ps s k e;
  ns_log : forall d, d ∈ log -> from_tx T d;
  ns_tables : forall x, tables_ok s m x (collected ps s k x);
}.

Record sim (ps : list string) (T : gmap string Message) (n : net) (s : spec) : Prop := {
  sim_peers : peers n = ps;
  sim_closed : closed n = ∅;
  sim_dom : forall k m, nodes n !! k = Some m -> k ∈ ps;
  sim_node : forall k, k ∈ ps -> is_Some (nodes n !! k);
  sim_nodes : forall k m, nodes n !! k = Some m -> node_sim ps T s k m (log_of n k);
  sim_sent : sent s = Sender <$> T;
  sim_ids : forall x t, T !! x = Some t -> Id t = x;
  sim_chan : forall f t, chan s f t = wire_of <$> pipe n f t;
  sim_msgs : forall f t m, m ∈ pipe n f t -> from_tx T m /\ plain m;
  sim_order : forall k, order s k = entry_of <$> log_of n k;
  sim_casting : forall self order msg, (self, order, msg) ∈ casting n ->
    T !! Id msg = Some msg /\ Status msg = "i" /\ self = node_name (Sender msg) /\ order ⊆ ps;
  sim_started : forall x t, T !! x = Some t ->
    let self := node_name (Sender t) in
    seen s self x \/ WInit x ∈ chan s self self \/
    (exists order, (self, order, t) ∈ casting n /\ self ∈ order);
}.

(** ** What an event leaves alone *)

Lemma from_tx_mono T T' m : T ⊆ T' -> from_tx T m -> from_tx T' m.
Proof. intros Hsub (t & Ht & Hc). exists t. split; [by eapply lookup_weaken|done]. Qed.

Lemma held_persists ps s s' t y q :
  grows s s' -> ((t, y) ∈ settled s' <-> (t, y) ∈ settled s) -> held ps s t y q -> held ps s' t y q.
Proof.
  intros Hg Hs. unfold held. case_decide as H1; case_decide as H2; try tauto.
  - apply final_grows, Hg.
  - intros Hp. eapply lookup_weaken; [done|apply Hg].
Qed.

Lemma entry_state_frame ps s s' k e :
  grows s s' -> ((k, Id e) ∈ settled s' <-> (k, Id e) ∈ settled s) ->
  entry_state ps s k e -> entry_state ps s' k e.
Proof. intros Hg Hs [H1 H2]. split; [by rewrite Hs|]. by eapply held_persists. Qed.

Lemma collected_frame ps s s' k x :
  inv ps s -> grows s s' ->
  (forall M, (M, x) ∈ counted s' -> (M, x) ∈ counted s \/
     (exists i, sent s !! x = Some i /\ node_name i <> k)) ->
  collected ps s' k x = collected ps s k x.
Proof.
  intros Hi Hg Hc. apply list_filter_iff. intros M.
  assert (forall i, sent s !! x = Some i -> sent s' !! x = Some i) as Hsent.
  { intros i Hx. eapply lookup_weaken; [done|apply Hg]. }
  split; intros [H1 H2].
  - destruct (Hc M H1) as [H1'|(i & Hx & Hne)].
    + split; [done|]. destruct (inv_counted _ _ Hi _ _ H1') as [p Hp].
      destruct (inv_prop _ _ Hi _ _ _ Hp) as [_ [i Hx]]. rewrite (Hsent i Hx) in H2. by rewrite Hx.
    + rewrite (Hsent i Hx) in H2. cbn in H2. congruence.
  - split; [by apply (grows_counted _ _ Hg)|]. destruct (sent s !! x) as [i|]; [|done].
    by rewrite (Hsent i eq_refl).
Qed.

Lemma elem_of_collected ps s k x M :
  M ∈ collected ps s k x <->
  ((M, x) ∈ counted s /\ node_name <$> sent s !! x = Some k) /\ M ∈ ps.
Proof. unfold collected. by rewrite list_elem_of_filter. Qed.

Lemma tables_frame ps s s' k m x :
  inv ps s -> grows s s' -> tables_ok s m x (collected ps s k x) -> tables_ok s' m x (collected ps s k x).
Proof.
  intros Hi Hg [?|(p & H1 & H2 & H3 & (M & HM & Hp) & Hmax)]; [by left|right].
  exists p. split_and!; [done..| |].
  - exists M. split; [done|]. eapply lookup_weaken; [done|apply Hg].
  - intros N q HN Hq. apply (Hmax N q HN). apply elem_of_collected in HN as [[HN _] _].
    destruct (inv_counted _ _ Hi _ _ HN) as [q' Hq']. rewrite Hq'.
    eapply lookup_weaken in Hq'; [|apply Hg]. congruence.
Qed.

(** A node at which nothing happens. *)
Lemma node_sim_frame ps T T' s s' k m log :
  inv ps s -> grows s s' -> T ⊆ T' ->
  (forall x, prop s' !! (k, x) = prop s !! (k, x)) ->
  (forall x, (k, x) ∈ settled s' <-> (k, x) ∈ settled s) ->
  (forall M x, (M, x) ∈ counted s' -> (M, x) ∈ counted s \/
     (exists i, sent s !! x = Some i /\ node_name i <> k)) ->
  node_sim ps T s k m log -> node_sim ps T' s' k m log.
Proof.
  intros Hi Hg HT Hprop Hset Hcnt Hns.
  assert (forall x, collected ps s' k x = collected ps s k x) as Hcol.
  { intros x. apply collected_frame; [done..|]. intros M. apply Hcnt. }
  destruct Hns. split; try done.
  - intros x. rewrite ns_check0. unfold seen. by rewrite Hprop.
  - intros x p. rewrite Hprop. apply ns_clock0.
  - intros x. unfold seen. rewrite Hprop. apply ns_held0.
  - intros e He. destruct (ns_queue0 e He) as [H1 H2]. split; [by eapply from_tx_mono|].
    by eapply entry_state_frame.
  - intros d Hd. eapply from_tx_mono; [done|]. by apply ns_log0.
  - intros x. rewrite Hcol. by apply tables_frame.
Qed.

(** ** An iteration of [ISIS] in the relation *)

Record handles (s s' : spec) (from to : string) (out : list output) : Prop := {
  h_grows : grows s s';
  h_sent : sent s' = sent s;
  h_chan : forall f t, chan s' f t =
    (if decide (f = from /\ t = to) then tail (chan s f t) else chan s f t) ++
    (if decide (f = to) then outs t (wires out) else []);
  h_order : forall k, order s' k = order s k ++ (if decide (k = to) then entry_of <$> delivered_of out else []);
  h_prop : forall k x, k <> to -> prop s' !! (k, x) = prop s !! (k, x);
  h_settled : forall k x, k <> to -> (k, x) ∈ settled s' <-> (k, x) ∈ settled s;
  h_counted : forall M x, (M, x) ∈ counted s' -> (M, x) ∈ counted s \/
    (exists i, sent s !! x = Some i /\ node_name i = to);
}.

Lemma emit_frame self n out :
  peers (foldl (emit self) n out) = peers n /\ casting (foldl (emit self) n out) = casting n /\
  closed (foldl (emit self) n out) = closed n /\ inbox (foldl (emit self) n out) = inbox n.
Proof. revert n. induction out as [|[] out IH]; intros n; [done|exact (IH _)..]. Qed.

Lemma sim_handle ps T n s s' from to msg m m' out :
  inv ps s -> sim ps T n s -> inbox n !! (from, to) = Some msg -> to ∈ ps ->
  handles s s' from to out ->
  (forall k m0, OCast k m0 ∈ out -> from_tx T m0 /\ plain m0) ->
  node_sim ps T s' to m' (log_of n to ++ delivered_of out) ->
  (Status msg = "i" -> seen s' to (Id msg)) ->
  nodes n !! to = Some m ->
  sim ps T (foldl (emit to) (set_inbox (delete (from, to) (inbox n)) (set_node to m' n)) out) s'.
Proof.
  intros Hi Hsim Hin Hto Hh Hout Hnode Hseen Hm.
  set (n1 := set_inbox _ _). pose proof (h_grows _ _ _ _ _ Hh) as Hg.
  assert (forall f t, pipe (foldl (emit to) n1 out) f t =
    (if decide (f = from /\ t = to) then tail (pipe n f t) else pipe n f t) ++
    (if decide (f = to) then casts_to t out else [])) as Hpipe.
  { intros f t. rewrite pipe_emit. unfold n1. by rewrite (pipe_handle n from to msg). }
  assert (forall k, log_of (foldl (emit to) n1 out) k =
    log_of n k ++ (if decide (k = to) then delivered_of out else [])) as Hlog
    by (intros k; exact (emit_log to n1 out k)).
  split.
  - rewrite (proj1 (emit_frame to n1 out)). apply (sim_peers _ _ _ _ Hsim).
  - rewrite (proj1 (proj2 (proj2 (emit_frame to n1 out)))). apply (sim_closed _ _ _ _ Hsim).
  - intros k mk. rewrite emit_nodes. cbn. rewrite lookup_insert.
    case_decide as Hk; [by intros _; subst k|apply (sim_dom _ _ _ _ Hsim)].
  - intros k Hk. rewrite emit_nodes. cbn. rewrite lookup_insert. case_decide; [done|].
    by apply (sim_node _ _ _ _ Hsim).
  - intros k mk. rewrite emit_nodes, Hlog. cbn. rewrite lookup_insert. case_decide as Hk.
    + subst k. intros [= <-]. by rewrite decide_True.
    + intros Hmk. rewrite decide_False, app_nil_r by done.
      eapply (node_sim_frame ps T T s s'); [done..| | | |by apply (sim_nodes _ _ _ _ Hsim)].
      * intros x. by eapply h_prop.
      * intros x. by eapply h_settled.
      * intros M x Hc. destruct (h_counted _ _ _ _ _ Hh M x Hc) as [?|(i & ? & Hne)]; [by left|].
        right. exists i. split; [done|]. congruence.
  - rewrite (h_sent _ _ _ _ _ Hh). apply Hsim.
  - apply (sim_ids _ _ _ _ Hsim).
  - intros f t. rewrite (h_chan _ _ _ _ _ Hh), Hpipe, (sim_chan _ _ _ _ Hsim), fmap_app. f_equal.
    + case_decide; [|done]. by destruct (pipe n f t).
    + case_decide; [|done]. apply outs_wires.
  - intros f t m0. rewrite Hpipe. intros [Hm0|Hm0]%elem_of_app.
    + eapply (sim_msgs _ _ _ _ Hsim f t). case_decide; [|done]. destruct (pipe n f t); [done|by right].
    + case_decide; [|by apply not_elem_of_nil in Hm0]. unfold casts_to in Hm0.
      apply list_elem_of_omap in Hm0 as ([k mk|mk] & Ho & Heq); [|done].
      case_decide; [|done]. injection Heq as <-. by eapply Hout.
  - intros k. rewrite (h_order _ _ _ _ _ Hh), Hlog, (sim_order _ _ _ _ Hsim), fmap_app. by case_decide.
  - rewrite (proj1 (proj2 (emit_frame to n1 out))). apply (sim_casting _ _ _ _ Hsim).
  - intros x t Ht. rewrite (proj1 (proj2 (emit_frame to n1 out))).
    pose proof (sim_started _ _ _ _ Hsim x t Ht) as Hstart. cbn zeta in *. revert Hstart.
    generalize (node_name (Sender t)). intros self [Hs|[Hw|Hcast]].
    + left. by eapply seen_grows.
    + rewrite (h_chan _ _ _ _ _ Hh). case_decide as Hd; [|right; left; set_solver].
      destruct Hd as [-> ->]. rewrite (sim_chan _ _ _ _ Hsim) in Hw |- *.
      unfold pipe in Hw |- *. rewrite Hin in Hw |- *. cbn in Hw |- *.
      apply elem_of_cons in Hw as [Hw|Hw]; [|right; left; set_solver].
      left. unfold wire_of in Hw. repeat case_decide; [|done..]. injection Hw as ->. by apply Hseen.
    + by right; right.
Qed.

(** ** The iteration, case by case *)

Lemma ISIS_step_plain m keys encs msg :
  no_failure m -> plain msg ->
  ISIS_step m keys encs msg =
    if decide (Status msg = "i") then ISIS_i m encs msg
    else if decide (Status msg = "p") then ISIS_p m encs msg else ISIS_a m msg.
Proof.
  intros Hf Hp. unfold ISIS_step. rewrite failScan_no_failure, bind_Ret_l by done.
  rewrite (decide_False (P := Status msg = "pf")) by (intros E; destruct Hp as [|[|]]; congruence).
  repeat case_decide.
  - by destruct (ISIS_i m encs msg) as [[]| |].
  - by destruct (ISIS_p m encs msg) as [[]| |].
  - by destruct (ISIS_a m msg) as [[]| |].
Qed.

(** A message seen for the first time. *)
Lemma ISIS_i_new m encs msg :
  mc_ok m -> messageCheck m !! Id msg = None -> node_name (Sender msg) ∈ encs ->
  exists reply, erase reply = erase (proposal m msg) /\
    ISIS_i m encs msg = Ret (
      set_pq (pq_push (proposal m msg) (pq m)) (set_P (Priority (proposal m msg))
        (set_messageCheck (<[Id msg := true]> (messageCheck m)) m)),
      ((fun k => OCast k msg) <$> filter (fun k => k <> curNodeId m) encs) ++
      [OCast (node_name (Sender msg)) reply]).
Proof.
  rewrite mc_ok_ids. intros [Hok Hids] Hnone Henc. unfold ISIS_i. rewrite Hnone.
  cbn [pq set_messageCheck].
  destruct (pushed_entry (pq m) (messageCheck m) (proposal m msg) Hok Hids Hnone)
    as (e & Hf & Hin & He).
  exists e. split; [done|]. change (Id (proposal m msg)) with (Id msg) in Hf. rewrite Hf. cbn [default].
  unfold bcast_Cast. rewrite decide_True by done. done.
Qed.

Lemma entry_state_erase ps s k e e0 :
  erase e = erase e0 -> entry_state ps s k e0 -> entry_state ps s k e.
Proof.
  intros He. unfold entry_state. change (Id e) with (Id (erase e)).
  change (Priority e) with (Priority (erase e)). change (IsDeliverable e) with (IsDeliverable (erase e)).
  by rewrite He.
Qed.

Lemma from_tx_erase T e e0 : erase e = erase e0 -> from_tx T e0 -> from_tx T e.
Proof.
  intros He. unfold from_tx. change (Id e) with (Id (erase e)).
  change (content e) with (content (erase e)). by rewrite He.
Qed.

Lemma from_tx_sent ps T n s m : sim ps T n s -> from_tx T m -> sent s !! Id m = Some (Sender m).
Proof.
  intros Hsim (t & Ht & Hc). rewrite (sim_sent _ _ _ _ Hsim), lookup_fmap, Ht. cbn.
  by injection Hc as _ -> _ _ _.
Qed.

(** A proposal, in a run without failures: the tables and the answer. *)
Lemma propose_proposed m r :
  exists p, proposed (propose m r) !! Id r = Some p /\
    (forall y, y <> Id r -> proposed (propose m r) !! y = proposed m !! y) /\
    match proposed m !! Id r with None => p = Priority r | Some p0 => p = Z.max p0 (Priority r) end.
Proof.
  unfold propose. destruct (proposed m !! Id r) as [p0|] eqn:Hp.
  - case_decide.
    + exists (Priority r). cbn. rewrite lookup_insert_eq. split_and!; [done| |lia].
      intros y Hy. by rewrite lookup_insert_ne.
    + exists p0. split_and!; [done..|lia].
  - exists (Priority r). cbn. rewrite lookup_insert_eq. split_and!; [done| |done].
    intros y Hy. by rewrite lookup_insert_ne.
Qed.

Definition same_but_tables (m m' : Multicast) : Prop :=
  curNodeId m' = curNodeId m /\ A m' = A m /\ P m' = P m /\ nfailCheck m' = nfailCheck m /\
  messageCheck m' = messageCheck m /\ pq m' = pq m.

Lemma propose_same m r : same_but_tables m (propose m r).
Proof. unfold propose, same_but_tables. repeat case_match; done. Qed.

Lemma ISIS_p_plain m encs r (C : list string) :
  no_failure m -> zlen C < 2 ^ 62 -> C <> [] \/ (proposed m !! Id r = None /\ repliers m !! Id r = None) ->
  (C <> [] -> repliers m !! Id r = Some (zlen C)) ->
  exists m' p, ISIS_p m encs r = Ret (m',
      if decide (zlen C + 1 = Z.of_nat (size (nfailCheck m)) /\ C <> [])
      then (fun k => OCast k (set_Priority p (set_Status "a" r))) <$> encs else []) /\
    same_but_tables m m' /\ proposed m' !! Id r = Some p /\ repliers m' !! Id r = Some (zlen C + 1) /\
    (forall y, y <> Id r -> proposed m' !! y = proposed m !! y /\ repliers m' !! y = repliers m !! y) /\
    match proposed m !! Id r with None => p = Priority r | Some p0 => p = Z.max p0 (Priority r) end.
Proof.
  intros Hf Hlen Hnil Hcons. unfold ISIS_p. rewrite (Hf (NodeId r)), bind_Ret_l.
  destruct (propose_proposed m r) as (p & Hp & Hother & Hmax).
  destruct (propose_frame m r) as (_ & _ & Hrep & Hfail & _).
  destruct (propose_same m r) as (H1 & H2 & H3 & H4 & H5 & H6).
  rewrite Hrep. destruct (decide (C = [])) as [HC|HC].
  - destruct Hnil as [?|[_ Hnone]]; [done|]. rewrite Hnone.
    eexists _, p. split; [by rewrite decide_False by tauto|].
    split_and!; try done; cbn; rewrite ?Hrep.
    + by rewrite lookup_insert_eq, HC.
    + intros y Hy. rewrite lookup_insert_ne by done. auto.
  - rewrite (Hcons HC). rewrite (wrap64_id (zlen C + 1)) by (unfold int64_range, zlen in *; lia).
    set (m3 := set_repliers _ _).
    assert (no_failure m3) as Hf3 by (intros k; cbn; rewrite Hfail; apply Hf).
    eexists _, p. split.
    { do 2 f_equal. rewrite alive_count_no_failure by done. unfold agree, map_Z.
      cbn [aliveNodes set_aliveNodes nfailCheck m3 set_repliers proposed]. rewrite Hfail, Hp. cbn [default].
      rewrite Cast_no_failure by exact Hf3. repeat case_decide; tauto. }
    split_and!; try done; cbn; rewrite ?Hrep.
    + by rewrite lookup_insert_eq.
    + intros y Hy. rewrite lookup_insert_ne by done. auto.
Qed.

Section handle.
Context (ps : list string) (T : gmap string Message) (n : net) (s : spec).
Context (from to : string) (msg : Message) (m : Multicast) (keys encs : list string).
Context (Hi : inv ps s) (Hnd : NoDup ps) (Hsim : sim ps T n s).
Context (Hlenps : zlen ps < 2 ^ 62) (Hsize : Z.of_nat (size T) < 2 ^ 53).
Context (Hin : inbox n !! (from, to) = Some msg) (Hm : nodes n !! to = Some m) (Hencs : encs ≡ₚ ps).

(** What such an iteration is to be shown to do. *)
Definition handled : Prop :=
  exists m' out s', ISIS_step m keys encs msg = Ret (m', out) /\ work ps s s' /\
    handles s s' from to out /\
    (forall k m0, OCast k m0 ∈ out -> from_tx T m0 /\ plain m0) /\
    node_sim ps T s' to m' (log_of n to ++ delivered_of out) /\
    (Status msg = "i" -> seen s' to (Id msg)).

Lemma handle_node : node_sim ps T s to m (log_of n to).
Proof. by apply (sim_nodes _ _ _ _ Hsim). Qed.

Lemma handle_clock : 0 <= P m < 2 ^ 53.
Proof.
  rewrite (ns_P _ _ _ _ _ _ handle_node). split; [lia|].
  assert (size (messageCheck m) <= size T)%nat as Hle; [|lia].
  rewrite <- !size_dom. apply subseteq_size. intros x Hx. apply elem_of_dom in Hx.
  apply (ns_check _ _ _ _ _ _ handle_node) in Hx as [q Hq]. apply (inv_prop _ _ Hi) in Hq as [_ Hs].
  apply elem_of_dom. rewrite (sim_sent _ _ _ _ Hsim), lookup_fmap in Hs. by apply fmap_is_Some in Hs.
Qed.

Lemma handle_head : exists l, chan s from to = wire_of msg :: l.
Proof. rewrite (sim_chan _ _ _ _ Hsim). unfold pipe. rewrite Hin. by eexists. Qed.

Lemma handle_valid : valid ps s from to (wire_of msg).
Proof. destruct handle_head as [l Hl]. apply (inv_valid _ _ Hi). rewrite Hl. by left. Qed.

Lemma handle_msg : from_tx T msg /\ plain msg.
Proof. apply (sim_msgs _ _ _ _ Hsim from to). unfold pipe. rewrite Hin. by left. Qed.

Lemma handle_to : to ∈ ps.
Proof. by eapply (sim_dom _ _ _ _ Hsim). Qed.

Lemma handle_sent : sent s !! Id msg = Some (Sender msg).
Proof. eapply from_tx_sent; [done|apply handle_msg]. Qed.

Lemma handle_known : Status msg = "i" -> is_Some (messageCheck m !! Id msg) -> handled.
Proof.
  intros Hst Hk. destruct handle_head as [l Hl]. pose proof handle_node as Hns.
  assert (wire_of msg = WInit (Id msg)) as Hw by (unfold wire_of; by rewrite decide_True).
  assert (seen s to (Id msg)) as Hseen by (by apply (ns_check _ _ _ _ _ _ Hns)).
  exists m, [], (take_head from to s). split_and!.
  - rewrite ISIS_step_plain by (apply Hns || apply handle_msg). rewrite decide_True by done.
    unfold ISIS_i. destruct Hk as [b ->]. done.
  - eapply work_known; [by rewrite Hl, Hw|done].
  - split; try done; cbn; try (by intros; left).
    + apply grows_same; done.
    + intros f t. case_decide; case_decide; by rewrite ?app_nil_r.
    + intros k. case_decide; by rewrite app_nil_r.
  - intros k m0 H%not_elem_of_nil. done.
  - cbn. rewrite app_nil_r. eapply (node_sim_frame ps T T s); try done; try lia.
    + apply grows_same; done.
    + by left.
  - done.
Qed.

(** The first receipt: the message is relayed, queued, and answered. *)
Section first.
Context (Hst : Status msg = "i") (Hk : messageCheck m !! Id msg = None).

Let p := P m + 1.
Let s' := push to (((fun k => (k, WInit (Id msg))) <$> filter (fun k => k <> to) encs) ++
    [(node_name (Sender msg), WProp (Id msg) p)]) (offer to (Id msg) p (take_head from to s)).
Let m' := set_pq (pq_push (proposal m msg) (pq m)) (set_P (Priority (proposal m msg))
        (set_messageCheck (<[Id msg := true]> (messageCheck m)) m)).

Lemma first_unseen : ~ seen s to (Id msg).
Proof. rewrite <- (ns_check _ _ _ _ _ _ handle_node). rewrite Hk. apply is_Some_None. Qed.

Lemma first_priority : Priority (proposal m msg) = p.
Proof.
  pose proof handle_clock as HP.
  cbn. unfold next_priority. rewrite (ns_A _ _ _ _ _ _ handle_node). rewrite fmax_exact, Z.max_r by lia.
  apply wrap64_id. unfold int64_range. lia.
Qed.

Lemma first_step : work ps s s'.
Proof.
  destruct handle_head as [l Hl]. eapply work_propose.
  - rewrite Hl. unfold wire_of. by rewrite decide_True.
  - apply first_unseen.
  - apply handle_sent.
  - intros y q Hq. apply (ns_clock _ _ _ _ _ _ handle_node) in Hq. lia.
  - done.
Qed.

Lemma first_grows : grows s s'.
Proof.
  destruct (inv_prop_lt ps s to (Id msg) p Hi) as [? ? ? ? ?]; [|by apply eq_None_not_Some, first_unseen|by split].
  intros y q Hq. apply (ns_clock _ _ _ _ _ _ handle_node) in Hq. lia.
Qed.

Lemma first_seen x : seen s' to x -> x = Id msg \/ seen s to x.
Proof.
  intros [q Hq]. cbn in Hq. apply lookup_insert_Some in Hq as [[[= <-] _]|[_ Hq]]; [by left|right; by exists q].
Qed.

Lemma first_queue e : e ∈ pq m' -> from_tx T e /\ entry_state ps s' to e.
Proof.
  pose proof handle_node as Hns. intros He.
  assert (pq_ok (pq m)) as Hpq by (by apply (ns_ok _ _ _ _ _ _ Hns)).
  destruct (pq_push_ok (proposal m msg) (pq m) Hpq) as [_ Hperm].
  destruct (elem_of_erase_perm _ (proposal m msg :: pq m) e Hperm He) as (e0 & He0 & Heq).
  apply elem_of_cons in He0 as [->|He0].
  - split.
    + eapply from_tx_erase; [done|]. destruct handle_msg as [(t & Ht & Hct) _]. by exists t.
    + eapply entry_state_erase; [done|]. unfold entry_state, held. rewrite first_priority.
      change (Id (proposal m msg)) with (Id msg).
      assert ((to, Id msg) ∉ settled s') as Hns'.
      { intros ([q Hq] & _)%(inv_settled _ _ Hi). apply first_unseen. eapply final_seen; [done|apply handle_to]. }
      rewrite decide_False by done. split; [done|]. apply lookup_insert_eq.
  - destruct (ns_queue _ _ _ _ _ _ Hns e0 He0) as [H1 H2]. split.
    + by eapply from_tx_erase.
    + eapply entry_state_erase; [done|]. by eapply entry_state_frame; [apply first_grows| |].
Qed.

Lemma first_node out :
  ISIS_step m keys encs msg = Ret (m', out) -> delivered_of out = [] ->
  node_sim ps T s' to m' (log_of n to ++ delivered_of out).
Proof.
  pose proof handle_node as Hns. intros Hstep Hdel.
  assert (node_ok m' (log_of n to ++ delivered_of out)) as Hok
    by (eapply ISIS_step_node_ok; [apply Hns|done]).
  rewrite Hdel, app_nil_r in *.
  assert (forall x, collected ps s' to x = collected ps s to x) as Hcol.
  { intros x. apply collected_frame; [done|apply first_grows|]. by left. }
  pose proof (ns_P _ _ _ _ _ _ Hns) as HP.
  split; try apply Hns.
  - change (Priority (proposal m msg) = Z.of_nat (size (<[Id msg := true]> (messageCheck m)))).
    rewrite first_priority, map_size_insert_None by done. unfold p. rewrite HP. lia.
  - done.
  - intros x. cbn [messageCheck m' set_pq set_P set_messageCheck]. rewrite lookup_insert_is_Some.
    rewrite (ns_check _ _ _ _ _ _ Hns). split.
    + intros [<-|[_ Hx]]; [exists p; apply lookup_insert_eq|]. eapply seen_grows; [apply first_grows|done].
    + intros [->|Hx]%first_seen; [by left|]. destruct (decide (Id msg = x)); [by left|by right].
  - intros x q Hq. change (q <= Priority (proposal m msg)). rewrite first_priority. cbn in Hq.
    apply lookup_insert_Some in Hq as [[_ <-]|[_ Hq]]; [done|].
    apply (ns_clock _ _ _ _ _ _ Hns) in Hq. lia.
  - intros x Hx. change (pq m') with (pq_push (proposal m msg) (pq m)).
    assert (pq_ok (pq m)) as Hpq by (by apply (ns_ok _ _ _ _ _ _ Hns)).
    destruct (pq_push_ok (proposal m msg) (pq m) Hpq) as [_ Hperm].
    apply (Permutation_ids _ (proposal m msg :: pq m)) in Hperm.
    rewrite fmap_app, Hperm, fmap_cons. change (Id (proposal m msg)) with (Id msg).
    apply first_seen in Hx as [->|Hx]; [set_solver|].
    apply (ns_held _ _ _ _ _ _ Hns) in Hx. rewrite fmap_app in Hx. set_solver.
  - apply first_queue.
  - intros x. rewrite Hcol. apply (tables_frame ps s); [done|apply first_grows|].
    apply (ns_tables _ _ _ _ _ _ Hns).
Qed.

Lemma handle_new : handled.
Proof.
  pose proof handle_node as Hns.
  destruct (ISIS_i_new m encs msg) as (reply & Hrep & Hstep).
  { eapply node_ok_mc_ok, Hns. } { done. }
  { rewrite Hencs. eapply (inv_sent _ _ Hi). apply handle_sent. }
  rewrite (ns_cur _ _ _ _ _ _ Hns) in Hstep.
  set (out := _ ++ _) in Hstep. fold m' in Hstep.
  assert (ISIS_step m keys encs msg = Ret (m', out)) as Hrun.
  { rewrite ISIS_step_plain by (apply Hns || apply handle_msg). by rewrite decide_True. }
  assert (delivered_of out = []) as Hdel.
  { apply delivered_of_casts. unfold out. apply Forall_app. split; [apply fmap_OCast_casts|by constructor]. }
  assert (wire_of msg = WInit (Id msg)) as Hw by (unfold wire_of; by rewrite decide_True).
  assert (wire_of reply = WProp (Id msg) p) as Hwr.
  { change (wire_of reply) with (wire_of (erase reply)). rewrite Hrep.
    change (WProp (Id msg) (Priority (proposal m msg)) = WProp (Id msg) p). by rewrite first_priority. }
  exists m', out, s'. split; [done|]. split; [apply first_step|]. split; [|split; [|split]].
  - split.
    + apply first_grows.
    + done.
    + intros f t. unfold out. rewrite wires_app, wires_casts, Hw. cbn [wires omap list_omap]. rewrite Hwr. done.
    + intros k. rewrite Hdel. cbn. case_decide; by rewrite app_nil_r.
    + intros k x Hne. cbn. apply lookup_insert_ne. congruence.
    + done.
    + by left.
  - intros k m0 [Hm0|Hm0]%elem_of_app.
    + apply list_elem_of_fmap in Hm0 as (? & [= -> ->] & _). apply handle_msg.
    + apply list_elem_of_singleton in Hm0 as [= -> ->]. split.
      * eapply from_tx_erase; [done|]. destruct handle_msg as [(t & Ht & Hct) _]. by exists t.
      * right. left. change (Status reply) with (Status (erase reply)). by rewrite Hrep.
  - by apply first_node.
  - intros _. exists p. apply lookup_insert_eq.
Qed.
End first.

(** A proposal reaches the sender. *)
Section reply.
Context (Hst : Status msg = "p").

Let x := Id msg.
Let C := collected ps s to x.
Let out' (out : list (string * wire)) := push to out (count from x (take_head from to s)).

Lemma reply_wire : wire_of msg = WProp x (Priority msg).
Proof. unfold wire_of. rewrite decide_False by (rewrite Hst; done). by rewrite decide_True. Qed.

Lemma reply_head :
  prop s !! (from, x) = Some (Priority msg) /\ ((from, x) ∉ counted s) /\ to = node_name (Sender msg) /\ from ∈ ps.
Proof.
  pose proof handle_valid as Hv. rewrite reply_wire in Hv. destruct Hv as (Hp & Hn & i & Hx & Hto).
  pose proof handle_sent as Hs. fold x in Hs. assert (i = Sender msg) as Hsi by congruence.
  split_and!; [done|done|by rewrite <- Hsi|]. by eapply inv_prop.
Qed.

Lemma reply_mine (s1 : spec) : sent s1 = sent s -> node_name <$> sent s1 !! x = Some to.
Proof.
  intros Hs1. destruct reply_head as (_ & _ & Hto & _). pose proof handle_sent as Hs. fold x in Hs.
  by rewrite Hs1, Hs, Hto.
Qed.

Lemma reply_collected out y :
  (y <> x -> collected ps (out' out) to y = collected ps s to y) /\
  (y = x -> collected ps (out' out) to y ≡ₚ from :: C).
Proof.
  destruct reply_head as (Hp & Hn & Hto & Hfrom). split.
  - intros Hy. apply list_filter_iff. intros M. cbn. set_solver.
  - intros Hy. subst y. apply NoDup_Permutation.
    + by apply NoDup_filter.
    + apply NoDup_cons. split; [|by apply NoDup_filter]. unfold C. rewrite elem_of_collected. naive_solver.
    + intros M. pose proof (reply_mine s eq_refl) as Hk. pose proof (reply_mine (out' out) eq_refl) as Hk'.
      rewrite elem_of_cons, (elem_of_collected _ (out' out)). unfold C. rewrite elem_of_collected.
      cbn [counted out' push count]. rewrite elem_of_union, elem_of_singleton. split.
      * intros [[[[= HM]|HM] _] HMps]; [by left|by right].
      * intros [HM|[[HM _] HMps]]; [rewrite HM|]; auto.
Qed.

Lemma reply_grows out : grows s (out' out).
Proof. apply grows_same; cbn; [done..|set_solver|done]. Qed.

(** All have answered exactly when the count is the number of nodes. *)
Lemma reply_complete :
  complete ps (count from x s) x <-> zlen C + 1 = zlen ps /\ C <> [].
Proof.
  destruct (reply_collected [] x) as [_ Hcol]. specialize (Hcol eq_refl).
  assert (zlen (collected ps (out' []) to x) = zlen C + 1) as Hlen.
  { unfold zlen. rewrite Hcol. cbn. lia. }
  pose proof (reply_mine (out' []) eq_refl) as Hk. split.
  - intros [H2 Hall].
    assert (collected ps (out' []) to x = ps) as Heq.
    { apply filter_all. intros M HM. split; [by apply Hall|done]. }
    rewrite Heq in Hlen. split; [done|]. intros HC. rewrite HC in Hlen. unfold zlen in Hlen. cbn in Hlen. lia.
  - intros [Hl HC]. split.
    + destruct C; [done|]. unfold zlen in Hl. cbn in Hl. lia.
    + intros M HM. destruct (decide ((M, x) ∈ counted (out' []))) as [|Hno]; [done|].
      exfalso. assert (M ∈ collected ps (out' []) to x -> False) as Hno'.
      { rewrite elem_of_collected. tauto. }
      assert (length (collected ps (out' []) to x) < length ps)%nat as Hlt.
      { eapply (length_filter_lt _ ps M HM). tauto. }
      unfold zlen in *. lia.
Qed.

Lemma reply_max p :
  match proposed m !! x with None => p = Priority msg | Some p0 => p = Z.max p0 (Priority msg) end ->
  (exists M, (M = from \/ M ∈ C) /\ prop s !! (M, x) = Some p) /\
  (forall M q, M = from \/ M ∈ C -> prop s !! (M, x) = Some q -> q <= p).
Proof.
  destruct reply_head as (Hp & _). pose proof (ns_tables _ _ _ _ _ _ handle_node x) as Ht.
  fold C in Ht. destruct Ht as [(HC & Hnone & _)|(p0 & _ & Hp0 & _ & (M & HM & HpM) & Hmax)].
  - rewrite Hnone. intros ->. split; [exists from; auto|].
    rewrite HC. intros M q [->|H%not_elem_of_nil] Hq; [|done]. rewrite Hp in Hq. injection Hq as ->. lia.
  - rewrite Hp0. intros ->. split.
    + destruct (decide (p0 < Priority msg)).
      * exists from. rewrite Z.max_r by lia. auto.
      * exists M. rewrite Z.max_l by lia. auto.
    + intros N q [->|HN] Hq; [rewrite Hp in Hq; injection Hq as ->; lia|].
      pose proof (Hmax N q HN Hq). lia.
Qed.

Lemma reply_node m' p out outw :
  ISIS_step m keys encs msg = Ret (m', out) -> delivered_of out = [] ->
  same_but_tables m m' -> proposed m' !! x = Some p -> repliers m' !! x = Some (zlen C + 1) ->
  (forall y, y <> x -> proposed m' !! y = proposed m !! y /\ repliers m' !! y = repliers m !! y) ->
  match proposed m !! x with None => p = Priority msg | Some p0 => p = Z.max p0 (Priority msg) end ->
  node_sim ps T (out' outw) to m' (log_of n to ++ delivered_of out).
Proof.
  pose proof handle_node as Hns. intros Hstep Hdel (H1 & H2 & H3 & H4 & H5 & H6) Hp Hr Hother Hmax.
  assert (node_ok m' (log_of n to ++ delivered_of out)) as Hok
    by (eapply ISIS_step_node_ok; [apply Hns|done]).
  rewrite Hdel, app_nil_r in *. apply reply_max in Hmax as [(M & HM & HpM) Hmax].
  assert (forall y, zlen (collected ps (out' outw) to y) =
    if decide (y = x) then zlen C + 1 else zlen (collected ps s to y)) as Hlen.
  { intros y. destruct (reply_collected outw y) as [Hne Heq]. case_decide as Hy.
    - unfold zlen. rewrite (Heq Hy). cbn. lia.
    - by rewrite Hne. }
  split; rewrite ?H1, ?H2, ?H3, ?H4, ?H5, ?H6; try apply Hns; try done.
  - intros k. unfold map_bool. rewrite H4. apply Hns.
  - intros y. destruct (reply_collected outw y) as [Hne Heq]. destruct (decide (y = x)) as [->|Hy].
    + right. exists p. specialize (Heq eq_refl). split_and!.
      * intros Hnil. rewrite Hnil in Heq. by apply Permutation_nil_cons in Heq.
      * done.
      * rewrite Hr, Hlen. by rewrite decide_True.
      * exists M. split; [|done]. rewrite Heq. set_solver.
      * intros N q. rewrite Heq, elem_of_cons. apply Hmax.
    + rewrite Hne by done. destruct (Hother y Hy) as [Ho1 Ho2].
      destruct (ns_tables _ _ _ _ _ _ Hns y) as [(? & ? & ?)|(p' & ? & ? & ? & ? & ?)].
      * left. by rewrite Ho1, Ho2.
      * right. exists p'. rewrite Ho1, Ho2. by split_and!.
Qed.

Lemma handle_reply : handled.
Proof.
  pose proof handle_node as Hns. destruct reply_head as (Hp & Hn & Hto & Hfrom).
  pose proof (ns_tables _ _ _ _ _ _ Hns x) as Ht. fold C in Ht.
  assert (zlen C <= zlen ps) as Hcnt.
  { pose proof (length_filter (fun M => (M, x) ∈ counted s /\ node_name <$> sent s !! x = Some to) ps).
    unfold zlen, C, collected. lia. }
  destruct (ISIS_p_plain m encs msg C) as (m' & p & Hstep & Hsame & Hp' & Hr' & Hother & Hmax).
  { apply Hns. } { lia. } { destruct Ht as [(? & ? & ?)|(? & ? & _)]; auto. }
  { intros HC. by destruct Ht as [(? & _)|(? & _ & _ & ? & _)]. }
  rewrite (ns_size _ _ _ _ _ _ Hns) in Hstep. change (Z.of_nat (length ps)) with (zlen ps) in Hstep.
  set (out := if decide _ then _ else _) in Hstep.
  assert (ISIS_step m keys encs msg = Ret (m', out)) as Hrun.
  { rewrite ISIS_step_plain by (apply Hns || apply handle_msg).
    rewrite decide_False by (rewrite Hst; done). by rewrite decide_True. }
  assert (delivered_of out = []) as Hdel.
  { apply delivered_of_casts. unfold out. case_decide; [apply fmap_OCast_casts|constructor]. }
  assert (wire_of (set_Priority p (set_Status "a" msg)) = WAgree x p) as Hwa by done.
  assert (answers ps (count from x s) x (wires out)) as Hans.
  { unfold out. case_decide as Hd.
    - right. pose proof (proj2 reply_complete Hd) as Hcm. split; [done|].
      exists p, encs. split; [|by rewrite wires_casts, Hwa].
      destruct (reply_max p Hmax) as [(M & HM & HpM) Hle].
      assert (forall N, N ∈ ps -> N = from \/ N ∈ C) as Hall.
      { intros N HN. destruct Hcm as [_ Hcm]. specialize (Hcm N HN).
        cbn in Hcm. apply elem_of_union in Hcm as [[= ->]%elem_of_singleton|HNc]; [by left|right].
        apply elem_of_collected. split; [|done]. split; [done|]. by apply reply_mine. }
      split.
      + intros N HN. assert (seen s N x) as [q Hq].
        { destruct (Hall N HN) as [->|HNC]; [by exists (Priority msg)|].
          apply elem_of_collected in HNC as [[HNC _] _]. by apply (inv_counted _ _ Hi). }
        exists q. split; [done|]. by apply (Hle N q (Hall N HN)).
      + exists M. split; [|done]. destruct HM as [->|HM]; [done|]. by apply elem_of_collected in HM as [_ ?].
    - left. split; [|done]. by intros Hcm%reply_complete. }
  destruct handle_head as [l Hl]. rewrite reply_wire in Hl.
  exists m', out, (out' (wires out)). split; [done|]. split; [by eapply work_count|]. split; [|split; [|split]].
  - split; try done.
    + apply reply_grows.
    + intros k. rewrite Hdel. cbn. case_decide; by rewrite app_nil_r.
    + intros M y [[= -> ->]%elem_of_singleton|Hy]%elem_of_union; [right|by left].
      exists (Sender msg). split; [apply handle_sent|done].
  - intros k m0. unfold out. case_decide; [|by intros ?%not_elem_of_nil].
    intros (? & [= -> ->] & _)%list_elem_of_fmap. split.
    + destruct handle_msg as [(t & Ht' & Hct) _]. by exists t.
    + right. by right.
  - by eapply reply_node.
  - rewrite Hst. done.
Qed.
End reply.

(** The agreed priority reaches a node. *)
Section agreed.
Context (Hst : Status msg = "a").

Let x := Id msg.
Let s1 := settle to x s.

Lemma agreed_wire : wire_of msg = WAgree x (Priority msg).
Proof. unfold wire_of. by rewrite !decide_False by (rewrite Hst; done). Qed.

Lemma agreed_head :
  final ps s x (Priority msg) /\ ((to, x) ∉ settled s) /\ complete ps s x.
Proof.
  pose proof handle_valid as Hv. rewrite agreed_wire in Hv. by destruct Hv as (? & ? & ? & _).
Qed.

(** The node still holds the message. *)
Lemma agreed_queued : exists k old, FindById (pq m) x = Some k /\ pq m !! k = Some old /\ Id old = x.
Proof.
  pose proof handle_node as Hns. destruct agreed_head as (Hf & Hn & _).
  assert (x ∈ Id <$> (log_of n to ++ pq m)) as Hx.
  { apply (ns_held _ _ _ _ _ _ Hns). eapply final_seen; [exact Hf|apply handle_to]. }
  assert (x ∉ Id <$> log_of n to) as Hlog.
  { intros (d & Hd & Hin')%list_elem_of_fmap. apply Hn. rewrite Hd.
    pose proof (inv_order _ _ Hi to) as Ho. rewrite Forall_forall in Ho.
    apply (Ho (entry_of d)). rewrite (sim_order _ _ _ _ Hsim). by apply list_elem_of_fmap_2. }
  rewrite fmap_app in Hx. apply elem_of_app in Hx as [?|Hx]; [done|].
  apply list_elem_of_fmap in Hx as (e & He & Hin').
  destruct (FindById (pq m) x) as [k|] eqn:Hfind.
  - destruct (proj1 (FindById_Some _ _ _) Hfind) as [(old & Hk & Hid) _]. by exists k, old.
  - by destruct (proj1 (FindById_None _ _) Hfind e Hin').
Qed.

(** The entries after the update, whether they stay or are delivered. *)
Lemma agreed_entries k old e :
  pq m !! k = Some old -> Id old = x ->
  e ∈ <[k := set_Priority (Priority msg) (set_IsDeliverable true (erase old))]> (erase <$> pq m) ->
  from_tx T e /\ entry_state ps s1 to e.
Proof.
  pose proof handle_node as Hns. destruct agreed_head as (Hf & Hn & _). intros Hk Hid He.
  apply list_elem_of_lookup in He as [j Hj]. destruct (decide (k = j)) as [<-|Hne].
  - rewrite list_lookup_insert_eq in Hj by (rewrite length_fmap; by eapply lookup_lt_Some).
    injection Hj as <-. split.
    + destruct (ns_queue _ _ _ _ _ _ Hns old) as [(t & Ht & Hct) _]; [by eapply list_elem_of_lookup_2|].
      by exists t.
    + unfold entry_state. change (Id (set_Priority _ _)) with (Id old). rewrite Hid.
      assert ((to, x) ∈ settled s1) as Hin' by set_solver.
      split; [done|]. unfold held. by rewrite decide_True.
  - rewrite list_lookup_insert_ne, list_lookup_fmap in Hj by done.
    destruct (pq m !! j) as [e0|] eqn:Hj0; [|done]. injection Hj as <-.
    destruct (ns_queue _ _ _ _ _ _ Hns e0) as [H1 H2]; [by eapply list_elem_of_lookup_2|].
    split; [by eapply (from_tx_erase _ _ e0)|]. eapply (entry_state_erase _ _ _ _ e0); [done|].
    eapply entry_state_frame; [| |done].
    + apply grows_same; cbn; [done..|set_solver].
    + cbn. assert (Id e0 <> x) as Hx; [|set_solver]. intros Hx.
      destruct (ns_ok _ _ _ _ _ _ Hns) as [_ [Hndup _]].
      rewrite fmap_app in Hndup. apply NoDup_app in Hndup as (_ & _ & Hndup).
      apply Hne. apply (NoDup_lookup _ _ _ x Hndup); rewrite list_lookup_fmap; [rewrite Hk|rewrite Hj0]; cbn; congruence.
Qed.

Lemma StronglySorted_entries ds :
  StronglySorted (fun a b => msg_lt b a = false) ds -> StronglySorted in_order (entry_of <$> ds).
Proof.
  induction 1 as [|d ds Hs IH Hd]; [constructor|]. constructor; [done|].
  apply Forall_fmap. eapply Forall_impl; [exact Hd|]. intros e He. unfold in_order, klt. cbn.
  apply msg_lt_spec_false in He. lia.
Qed.

Lemma held_unique t y p q : held ps s1 t y p -> held ps s1 t y q -> p = q.
Proof. unfold held. case_decide; [apply final_unique|congruence]. Qed.

Lemma agreed_delivers q' ds :
  (forall e, e ∈ ds \/ e ∈ q' -> from_tx T e /\ entry_state ps s1 to e) ->
  (forall y, seen s to y -> y ∈ Id <$> (log_of n to ++ ds ++ q')) ->
  NoDup (Id <$> (log_of n to ++ ds)) ->
  StronglySorted (fun a b => msg_lt b a = false) ds ->
  Forall (fun d => IsDeliverable d = true) ds ->
  (forall d e, d ∈ ds -> e ∈ q' -> msg_lt e d = false) ->
  (forall h, q' !! 0%nat = Some h -> IsDeliverable h = false) ->
  delivers ps s1 to (entry_of <$> ds).
Proof.
  intros Hent Hall Hndup Hsort Hdel Habove Hhead.
  assert ((order s1 to ++ (entry_of <$> ds)).*1 = Id <$> (log_of n to ++ ds)) as Hids.
  { cbn. rewrite (sim_order _ _ _ _ Hsim), <- fmap_app, <- list_fmap_compose. done. }
  assert (forall y, seen s to y -> y ∉ Id <$> (log_of n to ++ ds) -> exists e, e ∈ q' /\ Id e = y) as Hstay.
  { intros y Hy Hn. apply Hall in Hy. rewrite (assoc_L (++)), fmap_app in Hy.
    apply elem_of_app in Hy as [?|Hy]; [done|]. apply list_elem_of_fmap in Hy as (e & -> & He). by exists e. }
  unfold delivers. rewrite Hids. split_and!; [|done|by apply StronglySorted_entries| |].
  - apply Forall_fmap, Forall_forall. intros d Hd. rewrite Forall_forall in Hdel.
    destruct (Hent d) as [Htx [Hset Hheld]]; [by left|]. specialize (Hdel d Hd).
    apply Hset in Hdel as Hin'. unfold held in Hheld. rewrite decide_True in Hheld by done.
    split; [exact Hin'|]. split; [exact Hheld|].
    exact (from_tx_sent _ _ _ _ _ Hsim Htx).
  - intros e y q j (d & -> & Hd)%list_elem_of_fmap Hy Hn Hq Hj.
    destruct (Hstay y Hy Hn) as (e & He & <-). destruct (Hent e) as [Htx [_ Hheld]]; [by right|].
    assert (q = Priority e) as -> by (by eapply held_unique).
    assert (sent s !! Id e = Some (Sender e)) as Hs by (by eapply from_tx_sent).
    cbn in Hj. assert (j = Sender e) as -> by congruence.
    pose proof (Habove d e Hd He) as Hlt. apply msg_lt_spec_false in Hlt. unfold klt. cbn. lia.
  - intros z Hz Hn. destruct agreed_head as (Hf & _).
    assert (seen s to z) as Hseen.
    { apply elem_of_union in Hz as [[= ->]%elem_of_singleton|Hz].
      - eapply final_seen; [exact Hf|apply handle_to].
      - apply (inv_settled _ _ Hi) in Hz as ([p Hp] & _). eapply final_seen; [exact Hp|apply handle_to]. }
    destruct (Hstay z Hseen Hn) as (e & He & _).
    destruct q' as [|h q']; [by apply not_elem_of_nil in He|].
    destruct (Hent h) as [_ [Hset Hheld]]; [right; by left|].
    assert (IsDeliverable h = false) as Hh by (by apply Hhead). rewrite Hh in Hset.
    assert ((to, Id h) ∉ settled s1) as Hns by (by rewrite <- Hset).
    exists (Id h). split; [|done]. unfold held in Hheld. rewrite decide_False in Hheld by done.
    by exists (Priority h).
Qed.

Lemma handle_agreed : handled.
Proof.
  pose proof handle_node as Hns. destruct agreed_head as (Hf & Hn & Hcm).
  destruct agreed_queued as (k & old & Hfind & Hk & Hid).
  destruct (ISIS_a_spec m msg k old) as (q' & ds & Hstep & _ & Hperm & Hsort & Hdel & Habove & Hhead);
    [by eapply node_ok_mc_ok, Hns|done|done|].
  set (m' := set_pq q' m) in *. set (out := ODeliver <$> ds) in *.
  assert (ISIS_step m keys encs msg = Ret (m', out)) as Hrun.
  { rewrite ISIS_step_plain by (apply Hns || apply handle_msg). by rewrite !decide_False by (rewrite Hst; done). }
  assert (delivered_of out = ds) as Hds by apply delivered_of_deliver.
  assert (node_ok m' (log_of n to ++ ds)) as Hok.
  { rewrite <- Hds. eapply ISIS_step_node_ok; [apply Hns|done]. }
  assert (forall e, e ∈ ds \/ e ∈ q' -> from_tx T e /\ entry_state ps s1 to e) as Hent.
  { intros e He. assert (exists e', e' ∈ ds ++ (erase <$> q') /\ erase e = erase e') as (e' & He' & Heq).
    { destruct He as [He|He]; [exists e; split; [set_solver|done]|].
      exists (erase e). split; [|done]. apply elem_of_app. right. by apply list_elem_of_fmap_2. }
    rewrite <- Hperm in He'. destruct (agreed_entries k old e' Hk Hid He') as [H1 H2].
    split; [by eapply from_tx_erase|by eapply entry_state_erase]. }
  assert (Id <$> pq m ≡ₚ Id <$> ds ++ q') as Hids.
  { apply (fmap_Permutation Id) in Hperm. rewrite fmap_app, fmap_Id_erase in Hperm.
    rewrite fmap_app, <- Hperm. erewrite fmap_Id_insert; [by rewrite fmap_Id_erase|by rewrite list_lookup_fmap, Hk|done]. }
  assert (forall y, seen s to y -> y ∈ Id <$> (log_of n to ++ ds ++ q')) as Hall.
  { intros y Hy. rewrite fmap_app, <- Hids, <- fmap_app. by apply (ns_held _ _ _ _ _ _ Hns). }
  assert (delivers ps s1 to (entry_of <$> ds)) as Hd.
  { apply (agreed_delivers q'); try done. destruct Hok as [_ [Hnn _]]. rewrite fmap_app in Hnn.
    by apply NoDup_app in Hnn as [? _]. }
  destruct handle_head as [l Hl]. rewrite agreed_wire in Hl.
  exists m', out, (deliver to (entry_of <$> ds) (settle to x (take_head from to s))).
  split; [done|]. split; [by eapply work_settle|].
  assert (grows s (deliver to (entry_of <$> ds) (settle to x (take_head from to s)))) as Hg
    by (apply grows_same; cbn; [done..|set_solver]).
  split; [|split; [|split]].
  - split; try done; cbn [chan order settled deliver settle take_head].
    + intros f t. unfold out. rewrite wires_deliver. case_decide; case_decide; by rewrite app_nil_r.
    + intros j. rewrite Hds. case_decide; by rewrite ?app_nil_r.
    + intros j y Hne. set_solver.
    + by left.
  - intros j m0 Hm0. unfold out in Hm0. by apply list_elem_of_fmap in Hm0 as (? & [=] & _).
  - rewrite Hds. split; try apply Hns; try done.
    + intros y Hy. rewrite <- (assoc_L (++)). by apply Hall.
    + intros e He. apply Hent. by right.
    + intros d [Hd'|Hd']%elem_of_app; [by apply (ns_log _ _ _ _ _ _ Hns)|]. apply Hent. by left.
  - rewrite Hst. done.
Qed.
End agreed.

Lemma handle_any : handled.
Proof.
  destruct handle_msg as [_ [Hst|[Hst|Hst]]].
  - destruct (messageCheck m !! Id msg) eqn:Hk; [by apply handle_known|by apply handle_new].
  - by apply handle_reply.
  - by apply handle_agreed.
Qed.
End handle.

(** ** Every event is simulated *)

(** A transaction is new and carries the number of the node that reads it; no
    connection fails. *)
Definition event_ok (T : gmap string Message) (e : event) : Prop :=
  match e with
  | EvTx self msg _ => T !! Id msg = None /\ node_name (Sender msg) = self
  | EvFail _ _ => False
  | _ => True
  end.

Definition txs_after (T : gmap string Message) (e : event) : gmap string Message :=
  match e with EvTx _ msg _ => <[Id msg := msg]> T | _ => T end.

(** What the goroutines do on their own. *)
Definition internal (e : event) : Prop :=
  match e with EvTx _ _ _ | EvFail _ _ => False | _ => True end.

(** The sends that the [Cast] goroutines have left. *)
Definition casting_left (n : net) : nat := sum_list_with (fun c => length c.1.2) (casting n).

(** How an internal event moves the protocol: a [Cast] goroutine sends, a node
    works on the head of a channel, or a [Deliver] goroutine takes a message. *)
Inductive moves (ps : list string) (n : net) (s : spec) (n' : net) : spec -> Prop :=
  | moves_cast x i t :
      sent s !! x = Some i -> t ∈ ps -> casting_left n = S (casting_left n') -> inbox n' = inbox n ->
      moves ps n s n' (push (node_name i) [(t, WInit x)] s)
  | moves_work s' :
      work ps s s' -> casting_left n' = casting_left n ->
      (size (inbox n) <= S (size (inbox n')))%nat -> moves ps n s n' s'
  | moves_keep :
      casting_left n' = casting_left n -> size (inbox n') = S (size (inbox n)) -> moves ps n s n' s.

Lemma moves_step ps n s n' s' : moves ps n s n' s' -> s' = s \/ step ps s s'.
Proof. intros []; [right; by apply step_cast|right; by apply step_work|by left]. Qed.

Section events.
Context (ps : list string) (T : gmap string Message) (n : net) (s : spec).
Context (Hi : inv ps s) (Hnd : NoDup ps) (Hsim : sim ps T n s).
Context (Hlenps : zlen ps < 2 ^ 62) (Hsize : Z.of_nat (size T) < 2 ^ 53).

Definition moved (n' : net) : Prop := exists s', moves ps n s n' s' /\ sim ps T n' s'.

(** The nodes keep their state. *)
Lemma nodes_frame T' s' k m log :
  grows s s' -> T ⊆ T' -> prop s' = prop s -> settled s' = settled s -> counted s' = counted s ->
  node_sim ps T s k m log -> node_sim ps T' s' k m log.
Proof.
  intros Hg HT Hp Hse Hcn. apply node_sim_frame; [done..| | |].
  - intros x. by rewrite Hp.
  - intros x. by rewrite Hse.
  - intros M x. rewrite Hcn. by left.
Qed.

Lemma exec_tx self msg order n' :
  event_ok T (EvTx self msg order) -> exec n (EvTx self msg order) = Ret n' ->
  exists s', step ps s s' /\ sim ps (<[Id msg := msg]> T) n' s'.
Proof.
  intros [Hnew Hself] He. cbn in He. case_decide as Hd; [|done]. injection He as <-.
  destruct Hd as ((mn & Hmn) & Hord & Hst). rewrite (sim_peers _ _ _ _ Hsim) in Hord.
  assert (sent s !! Id msg = None) as Hsent by by rewrite (sim_sent _ _ _ _ Hsim), lookup_fmap, Hnew.
  assert (node_name (Sender msg) ∈ ps) as Hps by (rewrite Hself; by eapply (sim_dom _ _ _ _ Hsim)).
  assert (T ⊆ <[Id msg := msg]> T) as HT by by apply insert_subseteq.
  assert (grows s (add (Id msg) (Sender msg) s)) as Hg.
  { split; cbn; [by apply insert_subseteq|done..|congruence]. }
  exists (add (Id msg) (Sender msg) s). split; [by apply step_tx|].
  split; try apply Hsim.
  - intros k m Hk. eapply nodes_frame; [done..|by apply (sim_nodes _ _ _ _ Hsim)].
  - cbn. rewrite (sim_sent _ _ _ _ Hsim). by rewrite fmap_insert.
  - intros x t. rewrite lookup_insert_Some. intros [[<- <-]|[_ Ht]]; [done|by eapply (sim_ids _ _ _ _ Hsim)].
  - intros f t m Hm. destruct (sim_msgs _ _ _ _ Hsim f t m Hm). split; [by eapply from_tx_mono|done].
  - intros self' order' msg' [H|H%list_elem_of_singleton]%elem_of_app.
    + destruct (sim_casting _ _ _ _ Hsim _ _ _ H) as (HT' & ?). split; [|done]. by eapply lookup_weaken.
    + injection H as -> -> ->. split_and!; [apply lookup_insert_eq|done|done|].
      intros k. by rewrite Hord.
  - intros x t. rewrite lookup_insert_Some. intros [[<- <-]|[_ Ht]]; cbn zeta.
    + right. right. exists order. cbn. split; [rewrite Hself; set_solver|by rewrite Hord].
    + destruct (sim_started _ _ _ _ Hsim x t Ht) as [?|[?|(o & ? & ?)]]; [by left|by right; left|].
      right. right. exists o. cbn. set_solver.
Qed.

Lemma elem_of_insert_list {X} (l : list X) k x y : y ∈ <[k := x]> l -> y = x \/ y ∈ l.
Proof.
  intros [j Hj]%list_elem_of_lookup. apply list_lookup_insert_Some in Hj as [(_ & -> & _)|[_ Hj]]; [by left|right].
  by eapply list_elem_of_lookup_2.
Qed.

Lemma exec_send k n' : exec n (EvSend k) = Ret n' -> moved n'.
Proof.
  intros He. cbn in He. destruct (casting n !! k) as [[[self [|to order]] msg]|] eqn:Hk; [done| |done].
  destruct (nodes n !! self) as [m|] eqn:Hm; [|done]. injection He as <-.
  assert ((self, to :: order, msg) ∈ casting n) as Hin by by eapply list_elem_of_lookup_2.
  destruct (sim_casting _ _ _ _ Hsim _ _ _ Hin) as (HT & Hst & Hself & Hord).
  pose proof (sim_nodes _ _ _ _ Hsim self m Hm) as Hns.
  rewrite (ns_fail _ _ _ _ _ _ Hns to). set (n1 := set_casting _ n).
  set (s' := push (node_name (Sender msg)) [(to, WInit (Id msg))] s).
  assert (sent s !! Id msg = Some (Sender msg)) as Hsent.
  { by rewrite (sim_sent _ _ _ _ Hsim), lookup_fmap, HT. }
  exists s'. split.
  { apply moves_cast; [done|apply Hord; by left| |done]. unfold casting_left. cbn [casting n1 send set_links set_casting].
    apply take_drop_middle in Hk as Hsplit. rewrite <- Hsplit at 1.
    rewrite insert_take_drop by (by eapply lookup_lt_Some). rewrite !sum_list_with_app. cbn. lia. }
  assert (forall f t, pipe (send self to msg n1) f t =
    pipe n f t ++ (if decide (f = self) then casts_to t [OCast to msg] else [])) as Hpipe.
  { intros f t. exact (pipe_emit self n1 [OCast to msg] f t). }
  split; try apply Hsim.
  - intros j mj Hj. eapply nodes_frame; [|done..|by apply (sim_nodes _ _ _ _ Hsim)]. by apply grows_same.
  - intros f t. rewrite Hpipe, fmap_app, <- (sim_chan _ _ _ _ Hsim). cbn [chan s' push]. f_equal.
    rewrite Hself. case_decide; [|done]. rewrite <- outs_wires. cbn [wires omap list_omap]. unfold wire_of.
    by rewrite decide_True.
  - intros f t m0. rewrite Hpipe. intros [Hm0|Hm0]%elem_of_app; [by eapply (sim_msgs _ _ _ _ Hsim)|].
    case_decide; [|by apply not_elem_of_nil in Hm0]. cbn in Hm0. case_decide; [|by apply not_elem_of_nil in Hm0].
    apply list_elem_of_singleton in Hm0 as ->. split; [by exists msg|by left].
  - intros self' order' msg' [[= -> -> ->]|H]%elem_of_insert_list.
    + split_and!; [done..|]. intros j Hj. apply Hord. by right.
    + by apply (sim_casting _ _ _ _ Hsim).
  - intros x t Ht. cbn zeta. destruct (sim_started _ _ _ _ Hsim x t Ht) as [?|[?|(o & Ho & Hself')]]; [by left|right; left; cbn; set_solver|].
    right. apply list_elem_of_lookup in Ho as [j Hj]. destruct (decide (k = j)) as [<-|Hne].
    + rewrite Hk in Hj. injection Hj as Hs1 <- <-. apply elem_of_cons in Hself' as [Heq|Hself'].
      * left. cbn. apply elem_of_app. right. rewrite decide_True by done. rewrite Heq. unfold outs. cbn.
        rewrite decide_True by done. rewrite (sim_ids _ _ _ _ Hsim x msg Ht). set_solver.
      * right. exists order. split; [|done]. rewrite <- Hself. apply list_elem_of_lookup. exists k. cbn.
        apply list_lookup_insert_eq. by eapply lookup_lt_Some.
    + right. exists o. split; [|done]. apply list_elem_of_lookup. exists j. cbn. by rewrite list_lookup_insert_ne.
Qed.

(** A duplicate of a known message is dropped by [Deliver]. *)
Lemma exec_drop from to m msg rest :
  nodes n !! to = Some m -> inbox n !! (from, to) = None -> link n from to = msg :: rest ->
  is_Some (messageCheck m !! Id msg) -> Status msg = "i" ->
  moved (set_node to m (set_links (<[(from, to) := rest]> (links n)) n)).
Proof.
  intros Hm Hin Hl Hk Hst. pose proof (sim_nodes _ _ _ _ Hsim to m Hm) as Hns.
  assert (seen s to (Id msg)) as Hseen by by apply (ns_check _ _ _ _ _ _ Hns).
  assert (chan s from to = WInit (Id msg) :: (wire_of <$> rest)) as Hch.
  { rewrite (sim_chan _ _ _ _ Hsim). unfold pipe. rewrite Hin, Hl. cbn. f_equal.
    unfold wire_of. by rewrite decide_True. }
  set (n1 := set_node _ _ _).
  assert (forall f t, pipe n1 f t = if decide (f = from /\ t = to) then tail (pipe n f t) else pipe n f t) as Hpipe.
  { intros f t. by apply (pipe_drop n from to msg). }
  exists (take_head from to s).
  split; [apply moves_work; [by eapply work_known|done|cbn; lia]|]. split; try apply Hsim.
  - intros k mk. cbn. rewrite lookup_insert. case_decide as Hk'; [subst k; intros _; by eapply (sim_dom _ _ _ _ Hsim)|].
    apply (sim_dom _ _ _ _ Hsim).
  - intros k Hk'. cbn. rewrite lookup_insert. case_decide; [done|]. by apply (sim_node _ _ _ _ Hsim).
  - intros k mk Hmk. cbn in Hmk. rewrite insert_id in Hmk by done.
    eapply nodes_frame; [|done..|by apply (sim_nodes _ _ _ _ Hsim)]. by apply grows_same.
  - intros f t. rewrite Hpipe. cbn [chan take_head]. rewrite (sim_chan _ _ _ _ Hsim).
    case_decide; [|done]. by destruct (pipe n f t).
  - intros f t m0. rewrite Hpipe. intros Hm0. eapply (sim_msgs _ _ _ _ Hsim f t).
    case_decide; [|done]. destruct (pipe n f t); [done|by right].
  - intros x t Ht. pose proof (sim_started _ _ _ _ Hsim x t Ht) as Hstart. cbn zeta in *. revert Hstart.
    generalize (node_name (Sender t)). intros self [Hs|[Hw|Hcast]]; [by left| |by right; right].
    cbn [chan take_head]. case_decide as Hd; [|by right; left].
    destruct Hd as [-> ->]. rewrite Hch in Hw |- *. apply elem_of_cons in Hw as [[= ->]|Hw]; [by left|by right; left].
Qed.

(** Any other message is taken by the [Deliver] goroutine. *)
Lemma exec_keep from to m msg rest :
  nodes n !! to = Some m -> inbox n !! (from, to) = None -> link n from to = msg :: rest ->
  moved (set_inbox (<[(from, to) := set_RNodeId from msg]> (inbox n))
    (set_node to m (set_links (<[(from, to) := rest]> (links n)) n))).
Proof.
  intros Hm Hin Hl. pose proof (sim_nodes _ _ _ _ Hsim to m Hm) as Hns.
  set (n1 := set_inbox _ _). exists s.
  split; [apply moves_keep; [done|cbn; by rewrite map_size_insert_None]|]. split; try apply Hsim.
  - intros k mk. cbn. rewrite lookup_insert. case_decide as Hk'; [subst k; intros _; by eapply (sim_dom _ _ _ _ Hsim)|].
    apply (sim_dom _ _ _ _ Hsim).
  - intros k Hk'. cbn. rewrite lookup_insert. case_decide; [done|]. by apply (sim_node _ _ _ _ Hsim).
  - intros k mk Hmk. cbn in Hmk. rewrite insert_id in Hmk by done.
    eapply nodes_frame; [|done..|by apply (sim_nodes _ _ _ _ Hsim)]. by apply grows_same.
  - intros f t. rewrite (sim_chan _ _ _ _ Hsim). symmetry. by eapply pipe_recv.
  - intros f t m0. unfold pipe, link. cbn. rewrite !lookup_insert. case_decide as Hd.
    + injection Hd as <- <-. cbn. rewrite elem_of_cons.
      assert (forall m1, m1 ∈ msg :: rest -> from_tx T m1 /\ plain m1) as Hall.
      { intros m1 Hm1. apply (sim_msgs _ _ _ _ Hsim from to). unfold pipe. rewrite Hin, Hl. done. }
      intros [->|Hm0]; [|apply Hall; by right].
      destruct (Hall msg) as [(t & Ht & Hct) Hp]; [by left|]. split; [by exists t|done].
    + intros Hm0. by apply (sim_msgs _ _ _ _ Hsim f t).
Qed.

Lemma exec_recv from to n' : exec n (EvRecv from to) = Ret n' -> moved n'.
Proof.
  intros He. cbn in He. destruct (nodes n !! to) as [m|] eqn:Hm; [|done].
  destruct (link n from to) as [|msg rest] eqn:Hl; [done|].
  destruct (inbox n !! (from, to)) eqn:Hin; [done|]. case_decide; [done|].
  unfold Deliver_step in He. case_decide as Hd; injection He as <-.
  - destruct Hd. by eapply exec_drop.
  - by eapply exec_keep.
Qed.

Lemma exec_handle from to keys encs :
  match exec n (EvHandle from to keys encs) with
  | Ret n' => moved n'
  | Crash _ => False
  | Block => True
  end.
Proof.
  cbn. destruct (nodes n !! to) as [m|] eqn:Hm; [|done].
  destruct (inbox n !! (from, to)) as [msg|] eqn:Hin; [|done]. case_decide as Hd; [|done].
  destruct Hd as [_ Hencs]. rewrite (sim_peers _ _ _ _ Hsim) in Hencs.
  destruct (handle_any ps T n s from to msg m keys encs Hi Hnd Hsim Hlenps Hsize Hin Hm Hencs)
    as (m' & out & s' & Hrun & Hstep & Hh & Hout & Hnode & Hseen).
  rewrite Hrun, bind_Ret_l. exists s'. split.
  { apply moves_work; [done| |].
    - unfold casting_left. by rewrite (proj1 (proj2 (emit_frame to _ out))).
    - rewrite (proj2 (proj2 (proj2 (emit_frame to _ out)))). cbn. rewrite map_size_delete_Some by by eexists. lia. }
  eapply sim_handle; [done..| |done|exact Hout|exact Hnode|exact Hseen|done].
  by eapply (sim_dom _ _ _ _ Hsim).
Qed.

(** Every event is a step of the protocol or invisible to it, and none
    panics. *)
Lemma sim_exec e :
  event_ok T e ->
  match exec n e with
  | Ret n' => exists s', (s' = s \/ step ps s s') /\ (internal e -> moves ps n s n' s') /\
      sim ps (txs_after T e) n' s'
  | Crash _ => False
  | Block => True
  end.
Proof.
  intros He. destruct (exec n e) as [n'|cr|] eqn:Hex; [| |done].
  - destruct e as [self msg order|k|from to|from to|from to keys encs]; cbn [txs_after].
    + destruct (exec_tx self msg order n' He Hex) as (s' & Hs & ?). exists s'. split_and!; [by right|done..].
    + destruct (exec_send k n' Hex) as (s' & Hs & ?). exists s'. split_and!; [by eapply moves_step|done..].
    + destruct (exec_recv from to n' Hex) as (s' & Hs & ?). exists s'. split_and!; [by eapply moves_step|done..].
    + done.
    + pose proof (exec_handle from to keys encs) as H. rewrite Hex in H. destruct H as (s' & Hs & ?).
      exists s'. split_and!; [by eapply moves_step|done..].
  - destruct e as [self msg order|k|from to|from to|from to keys encs].
    + cbn in Hex. by case_decide.
    + cbn in Hex. repeat case_match; done.
    + cbn in Hex. repeat case_match; done.
    + done.
    + pose proof (exec_handle from to keys encs) as H. by rewrite Hex in H.
Qed.
End events.

(** ** Runs *)

(** The transactions that are read in a run. *)
Definition txs_of (es : list event) : list Message :=
  omap (fun e => match e with EvTx _ msg _ => Some msg | _ => None end) es.

Definition fair_event (e : event) : Prop :=
  match e with
  | EvTx self msg _ => node_name (Sender msg) = self
  | EvFail _ _ => False
  | _ => True
  end.

(** A run without failures: no connection fails, a transaction carries the
    number of its node and an id of its own ([uuid.NewString]), and there are
    fewer than [2 ^ 53] transactions, so that no clock leaves the exact range of
    [float64]. *)
Definition run_ok (ps : list string) (es : list event) : Prop :=
  NoDup ps /\ zlen ps < 2 ^ 62 /\ Forall fair_event es /\
  NoDup (Id <$> txs_of es) /\ zlen (txs_of es) < 2 ^ 53.

Lemma sim_init ps : NoDup ps -> sim ps ∅ (net_init ps) spec_init.
Proof.
  intros Hnd. assert (forall k m, nodes (net_init ps) !! k = Some m -> k ∈ ps /\ m = Multicast_init k ps) as Hinit.
  { intros k m Hm. cbn in Hm. apply elem_of_list_to_map_2 in Hm.
    by apply list_elem_of_fmap in Hm as (k' & [= -> ->] & Hk). }
  split; try done.
  - intros k m Hm. by apply Hinit in Hm as [? _].
  - intros k Hk. cbn. apply not_eq_None_Some. intros Hn. apply not_elem_of_list_to_map in Hn. apply Hn.
    rewrite <- list_fmap_compose. apply list_elem_of_fmap. by exists k.
  - intros k m Hm. pose proof (net_init_ok ps k m Hm) as Hok. apply Hinit in Hm as [Hk ->].
    assert (forall x, collected ps spec_init k x = []) as Hcol.
    { intros x. unfold collected. clear. induction ps as [|M l IH]; [done|].
      rewrite filter_cons_False; [done|]. intros [H _]. set_solver. }
    split; try done.
    + apply init_no_failure.
    + by apply init_size.
    + intros x. cbn. split; intros [? ?]; done.
    + intros x [? ?]. done.
    + intros e He. by apply not_elem_of_nil in He.
    + intros d Hd. by apply not_elem_of_nil in Hd.
    + intros x. rewrite Hcol. by left.
  - intros f t m Hm. unfold pipe in Hm. by apply not_elem_of_nil in Hm.
  - intros self order msg H. by apply not_elem_of_nil in H.
Qed.

(** What is known of the state after a run. *)
Definition run_inv (ps : list string) (es : list event) (n : net) : Prop :=
  exists s T, reachable ps s /\ sim ps T n s /\ size T = length (txs_of es) /\
    (forall t, t ∈ txs_of es <-> T !! Id t = Some t).

Lemma txs_of_app es1 es2 : txs_of (es1 ++ es2) = txs_of es1 ++ txs_of es2.
Proof. apply omap_app. Qed.

Lemma exec_all_app n es es' : exec_all n (es ++ es') = (n' ← exec_all n es; exec_all n' es').
Proof.
  revert n. induction es as [|e es IH]; intros n; [done|]. cbn. destruct (exec n e); [apply IH|done..].
Qed.

Lemma exec_all_snoc n es e :
  exec_all n (es ++ [e]) = (n' ← exec_all n es; exec n' e).
Proof.
  rewrite exec_all_app. destruct (exec_all n es) as [n'| |]; [|done..]. rewrite !bind_Ret_l.
  cbn. by destruct (exec n' e).
Qed.

Lemma run_ok_snoc ps es e :
  run_ok ps (es ++ [e]) -> run_ok ps es /\ fair_event e /\
    (forall self msg order, e = EvTx self msg order -> (msg ∉ txs_of es) /\ (Id msg ∉ Id <$> txs_of es)).
Proof.
  intros (Hnd & Hps & Hfair & Hids & Hlen). apply Forall_app in Hfair as [Hf1 [Hf2 _]%Forall_cons].
  rewrite txs_of_app, fmap_app in Hids. apply NoDup_app in Hids as (Hids & Hdis & _).
  rewrite txs_of_app in Hlen. assert (zlen (txs_of es) < 2 ^ 53) as Hl by golia. split_and!; [|done|].
  - by split_and!.
  - intros self msg order ->. assert (Id msg ∉ Id <$> txs_of es) as Hn.
    { intros Hin. apply (Hdis _ Hin). cbn. set_solver. }
    split; [|done]. intros Hin. apply Hn. by apply list_elem_of_fmap_2.
Qed.

(** In a run without failures nothing panics and the relation holds at the end. *)
Lemma run_outcome ps es :
  run_ok ps es ->
  match exec_all (net_init ps) es with
  | Ret n => run_inv ps es n
  | Crash _ => False
  | Block => True
  end.
Proof.
  induction es as [|e es IH] using rev_ind; intros Hok.
  - exists spec_init, ∅. split; [apply rtc_refl|]. split; [apply sim_init, Hok|].
    split; [done|]. intros t. cbn. split; [by intros ?%not_elem_of_nil|done].
  - apply run_ok_snoc in Hok as (Hok & Hfair & Hnew). specialize (IH Hok).
    rewrite exec_all_snoc. destruct (exec_all (net_init ps) es) as [n| |]; [|done..].
    rewrite bind_Ret_l. destruct IH as (s & T & Hreach & Hsim & Hsize & HT).
    pose proof Hok as (Hnd & Hps & _ & _ & Hlen). pose proof (spec_reachable_inv ps s Hnd Hreach) as Hi. unfold zlen in Hlen. rewrite <- Hsize in Hlen.
    assert (event_ok T e) as Hev.
    { destruct e as [self msg order| | | |]; try done. split; [|done].
      destruct (T !! Id msg) as [t|] eqn:Ht; [|done]. exfalso.
      assert (Id t = Id msg) as Hid by (by eapply (sim_ids _ _ _ _ Hsim)).
      destruct (Hnew self msg order eq_refl) as [_ Hn]. apply Hn. rewrite <- Hid.
      apply list_elem_of_fmap_2. apply HT. by rewrite Hid. }
    pose proof (sim_exec ps T n s Hi Hnd Hsim Hps Hlen e Hev) as Hex.
    destruct (exec n e) as [n'| |]; [|done..]. destruct Hex as (s' & Hs' & _ & Hsim').
    exists s', (txs_after T e). split; [|split; [done|split]].
    + destruct Hs' as [->|Hs']; [done|by eapply rtc_r].
    + rewrite txs_of_app, length_app, <- Hsize. destruct e; cbn; try lia.
      destruct Hev as [Hev _]. rewrite map_size_insert_None by done. lia.
    + intros t. rewrite txs_of_app, elem_of_app, HT.
      destruct e as [self msg order| | | |]; cbn; try (rewrite elem_of_nil; tauto).
      rewrite list_elem_of_singleton, lookup_insert_Some. destruct Hev as [Hev _]. split.
      * intros [Ht| ->]; [|by left]. right. split; [|done]. congruence.
      * intros [[_ ->]|[_ Ht]]; [by right|by left].
Qed.

Lemma run_invariant ps es n :
  run_ok ps es -> exec_all (net_init ps) es = Ret n ->
  exists s T, inv ps s /\ sim ps T n s /\ size T = length (txs_of es) /\
    (forall t, t ∈ txs_of es <-> T !! Id t = Some t).
Proof.
  intros Hok Hex. pose proof (run_outcome ps es Hok) as H. rewrite Hex in H.
  destruct H as (s & T & Hreach & H). exists s, T. split; [|done]. apply spec_reachable_inv; [apply Hok|done].
Qed.
