(* ===== verification/Ledger.v ===== *)
(** * Ledger: the application of the multicast demo

    Models [multicast-demo/types/application.go]: the accounts, [Deposit],
    [Transfer], [print] and the body of the loop of [ListenFrom].  [written] is
    what goes to [app.writer]; the copies of the same lines on standard output
    and the time stamps of [writer_p] and [writer_g] are left out. *)
From S2P Require Import Prelude MessagePQ.

(** [Accts] maps a name to the [balance] of its [Account]. *)
Record Application : Set := mkApplication {
  Accts : gmap string Z;
  written : list string;
}.

(** [app.Init]: no accounts. *)
Definition Init : Application := {| Accts := ∅; written := [] |}.

Definition newline : string := String (Ascii.ascii_of_nat 10) EmptyString.

Definition accts : list string :=
  ["a"; "b"; "c"; "d"; "e"; "f"; "g"; "h"; "i"; "j"; "k"; "l"; "m"; "n"; "o"; "p"; "q";
   "r"; "s"; "t"; "u"; "v"; "w"; "x"; "y"; "z"].

(** [app.Accts[name].balance]: the zero value for a name that is not there *)
Definition balance (app : Application) (name : string) : Z := default 0 (Accts app !! name).

Definition print_acct (app : Application) (name : string) : string :=
  if decide (0 < balance app name)
  then name +:+ ":" +:+ Itoa (balance app name) +:+ " " else "".

Definition concat_strings (l : list string) : string := foldr String.append "" l.

(** [app.print()] *)
Definition print_line (app : Application) : string :=
  "BALANCES " +:+ concat_strings (print_acct app <$> accts) +:+ newline.

Definition write (line : string) (app : Application) : Application :=
  {| Accts := Accts app; written := written app ++ [line] |}.
Definition print (app : Application) : Application := write (print_line app) app.
Definition set_Accts (a : gmap string Z) (app : Application) : Application :=
  {| Accts := a; written := written app |}.

(** [app.Deposit(name, amount)]; the deferred [app.print] runs last. *)
Definition Deposit (name : string) (amount : Z) (app : Application) : Application :=
  match Accts app !! name with
  | None => print (set_Accts (<[name := amount]> (Accts app)) app)
  | Some bal => print (set_Accts (<[name := wrap64 (bal + amount)]> (Accts app)) app)
  end.

(** [app.Transfer(src, dest, amount)] *)
Definition Transfer (src dest : string) (amount : Z) (app : Application) : Application :=
  match Accts app !! src with
  | None => print app
  | Some srcBal =>
      if decide (srcBal < amount) then print app
      else
        let a1 := <[src := wrap64 (srcBal - amount)]> (Accts app) in
        match a1 !! dest with
        | None => print (set_Accts (<[dest := amount]> a1) app)
        | Some destBal => print (set_Accts (<[dest := wrap64 (destBal + amount)]> a1) app)
        end
  end.

(** One iteration of [ListenFrom]: the log line of the call, then the call. *)
Definition apply_message (msg : Message) (app : Application) : outcome Application :=
  if IsDeposit msg then
    name ← go_index (Names msg) 0;
    Ret (Deposit name (Amount msg)
      (write ("Application calls: DEPOSIT " +:+ name +:+ " " +:+ Itoa (Amount msg) +:+ newline) app))
  else
    src ← go_index (Names msg) 0;
    dest ← go_index (Names msg) 1;
    Ret (Transfer src dest (Amount msg)
      (write ("Application calls: TRANSFER " +:+ src +:+ " " +:+ dest +:+ " "
                +:+ Itoa (Amount msg) +:+ newline) app)).

Fixpoint ListenFrom (msgs : list Message) (app : Application) : outcome Application :=
  match msgs with
  | [] => Ret app
  | msg :: msgs => app' ← apply_message msg app; ListenFrom msgs app'
  end.

(** ** The total of the balances *)

Definition total (a : gmap string Z) : Z := map_fold (fun _ b acc => b + acc) 0 a.

Lemma total_empty : total ∅ = 0.
Proof. apply map_fold_empty. Qed.

Lemma total_insert_None a k v : a !! k = None -> total (<[k := v]> a) = v + total a.
Proof. intros Hk. unfold total. rewrite map_fold_insert_L; [done| |done]. intros. lia. Qed.

Lemma total_insert_Some a k w v : a !! k = Some w -> total (<[k := v]> a) = v - w + total a.
Proof.
  intros Hk. rewrite <- (insert_delete_id a k w) at 2 by done.
  rewrite <- insert_delete_eq. rewrite !total_insert_None by apply lookup_delete_eq. lia.
Qed.

Definition all_nonneg (a : gmap string Z) : Prop := forall k b, a !! k = Some b -> 0 <= b.

Lemma all_nonneg_insert a k v : all_nonneg a -> 0 <= v -> all_nonneg (<[k := v]> a).
Proof. intros Ha Hv k' b. rewrite lookup_insert. case_decide; [|apply Ha]. by intros [= <-]. Qed.

Lemma all_nonneg_delete a k : all_nonneg a -> all_nonneg (delete k a).
Proof. intros Ha k' b. rewrite lookup_delete. case_decide; [done|apply Ha]. Qed.

Lemma total_nonneg a : all_nonneg a -> 0 <= total a.
Proof.
  induction a as [|k v a Hk IH] using map_ind; intros Ha; [by rewrite total_empty|].
  rewrite total_insert_None by done. assert (0 <= v) by (apply (Ha k); apply lookup_insert_eq).
  assert (0 <= total a); [|lia]. apply IH. intros k' b Hb. apply (Ha k').
  rewrite lookup_insert_ne; [done|]. congruence.
Qed.

(** No balance exceeds the total when none is negative. *)
Lemma balance_le_total a k b : all_nonneg a -> a !! k = Some b -> b <= total a.
Proof.
  intros Ha Hk. rewrite <- (insert_delete_id a k b) by done.
  rewrite total_insert_None by apply lookup_delete_eq.
  pose proof (total_nonneg _ (all_nonneg_delete a k Ha)). lia.
Qed.

#[export] Hint Resolve all_nonneg_insert all_nonneg_delete : go.

(** What the operations do to the accounts. *)
Lemma Deposit_Accts name amount app :
  Accts (Deposit name amount app) =
    <[name := match Accts app !! name with
              | None => amount | Some b => wrap64 (b + amount) end]> (Accts app).
Proof. unfold Deposit. by case_match. Qed.

Lemma Transfer_Accts src dest amount app :
  Accts (Transfer src dest amount app) =
    match Accts app !! src with
    | Some b =>
        if decide (b < amount) then Accts app
        else
          let a1 := <[src := wrap64 (b - amount)]> (Accts app) in
          <[dest := match a1 !! dest with
                    | None => amount | Some d => wrap64 (d + amount) end]> a1
    | None => Accts app
    end.
Proof. unfold Transfer. repeat (case_match; try done). Qed.

(** Adding to an account, as both operations do. *)
Lemma credit_ok a name amount bound :
  all_nonneg a -> 0 <= amount -> total a + amount <= bound -> bound < 2 ^ 63 ->
  let a' := <[name := match a !! name with
                      | None => amount | Some b => wrap64 (b + amount) end]> a in
  all_nonneg a' /\ total a' = total a + amount.
Proof.
  intros Ha Hamt Hb Hbound. cbn. destruct (a !! name) as [b|] eqn:Hn.
  - pose proof (Ha _ _ Hn). pose proof (balance_le_total _ _ _ Ha Hn).
    rewrite wrap64_id by (unfold int64_range; lia).
    split; [apply all_nonneg_insert; [done|lia]|].
    rewrite (total_insert_Some _ _ b) by done. lia.
  - split; [by apply all_nonneg_insert|]. rewrite total_insert_None by done. lia.
Qed.

Lemma Transfer_ok src dest amount app :
  all_nonneg (Accts app) -> 0 <= amount -> total (Accts app) < 2 ^ 63 ->
  all_nonneg (Accts (Transfer src dest amount app)) /\
  total (Accts (Transfer src dest amount app)) = total (Accts app).
Proof.
  intros Ha Hamt Hb. rewrite Transfer_Accts. destruct (Accts app !! src) as [b|] eqn:Hs; [|done].
  case_decide; [done|]. pose proof (balance_le_total _ _ _ Ha Hs).
  cbn. rewrite (wrap64_id (b - amount)) by (unfold int64_range; lia).
  assert (all_nonneg (<[src := b - amount]> (Accts app))) as Ha1.
  { apply all_nonneg_insert; [done|lia]. }
  assert (total (<[src := b - amount]> (Accts app)) = total (Accts app) - amount) as Ht.
  { rewrite (total_insert_Some _ _ b) by done. lia. }
  destruct (credit_ok _ dest amount (total (Accts app)) Ha1 Hamt) as [H1 H2]; [lia|done|].
  split; [done|]. rewrite H2. lia.
Qed.

Definition deposited (msgs : list Message) : Z :=
  foldr (fun m acc => (if IsDeposit m then Amount m else 0) + acc) 0 msgs.

Lemma deposited_nonneg msgs : Forall (fun m => 0 <= Amount m) msgs -> 0 <= deposited msgs.
Proof.
  induction 1 as [|m l Hm _ IH]; [done|].
  change (0 <= (if IsDeposit m then Amount m else 0) + deposited l). case_match; lia.
Qed.

Lemma ListenFrom_ok msgs app app' :
  all_nonneg (Accts app) -> Forall (fun m => 0 <= Amount m) msgs ->
  total (Accts app) + deposited msgs < 2 ^ 63 ->
  ListenFrom msgs app = Ret app' ->
  all_nonneg (Accts app') /\ total (Accts app') = total (Accts app) + deposited msgs.
Proof.
  intros Ha Hall. revert app Ha. induction Hall as [|m msgs Hm Hall IH]; intros app Ha Hb H.
  { injection H as <-. split; [done|]. cbn. lia. }
  cbn [ListenFrom] in H. bind_inv H. rename r into app1. cbn [deposited foldr] in *.
  fold (deposited msgs) in *. pose proof (deposited_nonneg _ Hall).
  unfold apply_message in E. revert E Hb. destruct (IsDeposit m); intros E Hb.
  - bind_inv E. injection E as <-. set (app0 := write _ app) in *.
    change (Accts app) with (Accts app0) in Ha, Hb |- *.
    destruct (credit_ok (Accts app0) r (Amount m) (2 ^ 63 - 1) Ha Hm) as [H1 H2]; [lia|lia|].
    cbn zeta in H1, H2. rewrite <- (Deposit_Accts r (Amount m) app0) in H1, H2.
    destruct (IH _ H1) as [H3 H4]; [lia|done|]. split; [done|lia].
  - bind_inv E. bind_inv E. injection E as <-. set (app0 := write _ app) in *.
    destruct (Transfer_ok r r0 (Amount m) app0 Ha Hm) as [H1 H2]; [cbn; lia|].
    change (Accts app0) with (Accts app) in H2.
    destruct (IH _ H1) as [H3 H4]; [lia|done|]. split; [done|lia].
Qed.

(** ** Theorems *)

(** C34 Solvency and conservation: on any sequence of delivered transactions
    with amounts that are not negative and deposits that sum to less than
    [2^63], no balance is negative and the total of the balances is exactly
    what was deposited (so no addition has wrapped around).  The sequence being
    arbitrary, so it is at every moment.  Without the bound on the deposits the
    code wraps around: [two_deposits_overflow]. *)
Theorem ledger_solvent msgs app :
  Forall (fun m => 0 <= Amount m) msgs -> deposited msgs < 2 ^ 63 ->
  ListenFrom msgs Init = Ret app ->
  all_nonneg (Accts app) /\ total (Accts app) = deposited msgs.
Proof.
  intros Hall Hb H. apply (ListenFrom_ok msgs Init app); done.
Qed.

Definition ex_tx (dep : bool) (names : list string) (amount : Z) : Message := {|
  Id := "x"; Sender := 1; Priority := 0; Index := -1; NodeId := "node1"; RNodeId := "node1";
  Status := "a"; IsDeliverable := true; IsDeposit := dep; Names := names; Amount := amount |}.

Definition ex_txs : list Message :=
  [ex_tx true ["a"] 10; ex_tx false ["a"; "b"] 4; ex_tx false ["b"; "c"] 9; ex_tx true ["b"] 1].

Lemma ledger_solvent_witness :
  all_nonneg (Accts (value_or Init (ListenFrom ex_txs Init))) /\
  total (Accts (value_or Init (ListenFrom ex_txs Init))) = deposited ex_txs.
Proof.
  apply (ledger_solvent ex_txs).
  - repeat constructor; cbn; lia.
  - vm_compute. reflexivity.
  - vm_compute. reflexivity.
Defined.

(** Two deposits of [2^62], each of which [strconv.Atoi] accepts, leave the
    account with [- 2^63]: [Deposit] adds without a check. *)
Example two_deposits_overflow :
  Accts (value_or Init (ListenFrom [ex_tx true ["a"] (2 ^ 62); ex_tx true ["a"] (2 ^ 62)] Init))
    !! "a" = Some (- 2 ^ 63).
Proof. vm_compute. reflexivity. Qed.

(** [Transfer] moves money or does nothing: it is rejected exactly when the
    source does not exist or holds less than the amount; otherwise the source
    loses the amount, the destination (created if it does not exist) gains it
    and nobody else changes; a transfer to the same account changes nothing.
    In every case the balances are printed once. *)
Theorem Transfer_spec src dest amount app :
  (forall k b, Accts app !! k = Some b -> int64_range b) ->
  (Accts app !! src = None \/ (exists b, Accts app !! src = Some b /\ b < amount) ->
     Transfer src dest amount app = print app) /\
  (forall b, Accts app !! src = Some b -> amount <= b ->
     let app' := Transfer src dest amount app in
     (forall k, k <> src -> k <> dest -> Accts app' !! k = Accts app !! k) /\
     (src = dest -> Accts app' = Accts app) /\
     (src <> dest ->
        Accts app' !! src = Some (wrap64 (b - amount)) /\
        Accts app' !! dest =
          Some (match Accts app !! dest with
                | None => amount | Some d => wrap64 (d + amount) end)) /\
     written app' = written app ++ [print_line app']).
Proof.
  intros Hr. split.
  - unfold Transfer. intros [->|(b & -> & Hb)]; [done|]. by rewrite decide_True.
  - intros b Hs Hb. cbn zeta. split_and!.
    + intros k Hk1 Hk2. rewrite Transfer_Accts, Hs, decide_False by lia.
      by rewrite !lookup_insert_ne.
    + intros ->. rewrite Transfer_Accts, Hs, decide_False by lia. cbn zeta.
      rewrite lookup_insert_eq, insert_insert_eq. apply insert_id. rewrite Hs. f_equal.
      rewrite wrap64_add_l. replace (b - amount + amount) with b by lia.
      symmetry. by eapply wrap64_id, Hr.
    + intros Hne. rewrite Transfer_Accts, Hs, decide_False by lia. cbn zeta.
      rewrite lookup_insert_eq, lookup_insert_ne, lookup_insert_eq by done.
      by rewrite (lookup_insert_ne _ src dest).
    + unfold Transfer. rewrite Hs, decide_False by lia. by case_match.
Qed.

Lemma Transfer_spec_witness :
  Accts (Transfer "a" "b" 4 (Deposit "a" 10 Init)) !! "b" = Some 4.
Proof.
  assert (forall k b, Accts (Deposit "a" 10 Init) !! k = Some b -> int64_range b) as Hr.
  { intros k b. rewrite Deposit_Accts, lookup_insert. case_decide; [|done].
    intros [= <-]. vm_compute. split; congruence. }
  destruct (Transfer_spec "a" "b" 4 (Deposit "a" 10 Init) Hr) as [_ H].
  destruct (H 10 eq_refl ltac:(lia)) as (_ & _ & H2 & _).
  destruct (H2 ltac:(discriminate)) as [_ ->]. reflexivity.
Defined.

(** Neither operation checks the sign of the amount: a transfer of a
    negative amount is accepted, takes money from the destination and can
    leave it with a negative balance. *)
Theorem negative_transfer_overdraws :
  exists msgs app, ListenFrom msgs Init = Ret app /\
    Forall (fun m => IsDeposit m = true -> 0 <= Amount m) msgs /\
    Accts app !! "a" = Some 15 /\ Accts app !! "b" = Some (-5).
Proof.
  exists [ex_tx true ["a"] 10; ex_tx false ["a"; "b"] (-5)].
  eexists. split; [vm_compute; reflexivity|]. split.
  - repeat constructor; cbn; lia.
  - split; reflexivity.
Qed.
