(* ===== verification/MulticastReplicas.v ===== *)
(** * MulticastReplicas: what the network of nodes guarantees without failures

    The theorems on whole runs of the multicast demo: nothing panics, the nodes
    deliver one sequence, everything that is read is delivered everywhere, and
    so the ledgers of the nodes agree. *)
From S2P Require Import Prelude MessagePQ Multicast IsisSpec MulticastNet MulticastOrder Ledger.

(** Nothing is on its way: the connections are empty, no [Deliver] goroutine
    holds a message and every [Cast] goroutine has finished. *)
Definition quiescent (n : net) : Prop :=
  (forall f t, link n f t = [] /\ inbox n !! (f, t) = None) /\
  (forall self order msg, (self, order, msg) ∈ casting n -> order = []).

(** No two messages that [a] and [b] have delivered have the same agreed
    priority and the same sender. *)
Definition keys_distinct (n : net) (a b : string) : Prop :=
  forall x y, x ∈ log_of n a -> y ∈ log_of n b -> order_key x = order_key y -> Id x = Id y.

(** ** From the protocol to the program *)

Lemma same_ids_same_contents T l1 l2 :
  Forall (from_tx T) l1 -> Forall (from_tx T) l2 -> Id <$> l1 = Id <$> l2 ->
  content <$> l1 = content <$> l2.
Proof.
  intros H1. revert l2. induction H1 as [|x l1 (t & Ht & Hc) _ IH]; intros [|y l2] H2 Hids; try done.
  apply Forall_cons in H2 as [(t' & Ht' & Hc') H2]. injection Hids as Hid Hids.
  rewrite !fmap_cons. rewrite (IH l2 H2 Hids). f_equal. rewrite Hid in Ht. congruence.
Qed.

Lemma log_from_tx ps T n s a :
  sim ps T n s -> a ∈ ps -> Forall (from_tx T) (log_of n a).
Proof.
  intros Hsim Ha. destruct (sim_node _ _ _ _ Hsim a Ha) as [m Hm].
  apply Forall_forall, (ns_log _ _ _ _ _ _ (sim_nodes _ _ _ _ Hsim a m Hm)).
Qed.

Lemma order_prefix_contents ps T n s a b :
  sim ps T n s -> a ∈ ps -> b ∈ ps -> order s a `prefix_of` order s b ->
  (content <$> log_of n a) `prefix_of` (content <$> log_of n b).
Proof.
  intros Hsim Ha Hb [k Hk]. rewrite !(sim_order _ _ _ _ Hsim) in Hk.
  apply fmap_app_inv in Hk as (l1 & l2 & H1 & _ & Hlog).
  pose proof (log_from_tx _ _ _ _ b Hsim Hb) as Hfb. rewrite Hlog in Hfb |- *.
  apply Forall_app in Hfb as [Hf1 _]. rewrite fmap_app.
  rewrite (same_ids_same_contents T (log_of n a) l1); [by eexists|by eapply log_from_tx|done|].
  apply (f_equal (fmap fst)) in H1. by rewrite <- !list_fmap_compose in H1.
Qed.

Lemma quiescent_channels ps T n s f t : sim ps T n s -> quiescent n -> chan s f t = [].
Proof.
  intros Hsim [Hq _]. rewrite (sim_chan _ _ _ _ Hsim). unfold pipe. destruct (Hq f t) as [-> ->]. done.
Qed.

(** The delivered ids of a quiescent network. *)
Lemma quiescent_ids ps T n s txs a :
  inv ps s -> sim ps T n s -> (2 <= length ps)%nat -> quiescent n -> a ∈ ps ->
  NoDup (Id <$> txs) -> (forall t, t ∈ txs <-> T !! Id t = Some t) ->
  Id <$> log_of n a ≡ₚ Id <$> txs.
Proof.
  intros Hi Hsim Hlen Hq Ha Hnd HT.
  assert ((order s a).*1 = Id <$> log_of n a) as Hids.
  { rewrite (sim_order _ _ _ _ Hsim), <- list_fmap_compose. done. }
  apply NoDup_Permutation.
  - rewrite <- Hids. apply (inv_nodup _ _ Hi).
  - done.
  - intros x. split.
    + intros (d & -> & Hd)%list_elem_of_fmap.
      pose proof (log_from_tx _ _ _ _ a Hsim Ha) as Hf. rewrite Forall_forall in Hf.
      destruct (Hf d Hd) as (t & Ht & Hc). assert (Id t = Id d) as Hid by (by eapply (sim_ids _ _ _ _ Hsim)).
      rewrite <- Hid. apply list_elem_of_fmap_2. apply HT. by rewrite Hid.
    + intros (t & -> & Ht)%list_elem_of_fmap. apply HT in Ht.
      assert (sent s !! Id t = Some (Sender t)) as Hs by by rewrite (sim_sent _ _ _ _ Hsim), lookup_fmap, Ht.
      rewrite <- Hids. eapply inv_quiescent; [done|done| |done| |done].
      { intros f u. by eapply quiescent_channels. }
      destruct (sim_started _ _ _ _ Hsim _ _ Ht) as [?|[Hw|(o & Ho & Hin)]]; [done| |].
      * erewrite quiescent_channels in Hw by done. by apply not_elem_of_nil in Hw.
      * destruct Hq as [_ Hcast]. rewrite (Hcast _ _ _ Ho) in Hin. by apply not_elem_of_nil in Hin.
Qed.

Lemma quiescent_contents ps T n s txs a :
  inv ps s -> sim ps T n s -> (2 <= length ps)%nat -> quiescent n -> a ∈ ps ->
  NoDup (Id <$> txs) -> (forall t, t ∈ txs <-> T !! Id t = Some t) ->
  content <$> log_of n a ≡ₚ content <$> txs.
Proof.
  intros Hi Hsim Hlen Hq Ha Hnd HT.
  pose proof (quiescent_ids ps T n s txs a Hi Hsim Hlen Hq Ha Hnd HT) as Hp.
  symmetry in Hp. apply Permutation_map_inv in Hp as (l & Hl & Hperm). rewrite Hperm.
  rewrite (same_ids_same_contents T txs l); [done| | |done].
  - apply Forall_forall. intros t Ht. exists t. split; [by apply HT|done].
  - rewrite <- Hperm. by eapply log_from_tx.
Qed.

Lemma ListenFrom_contents l1 l2 app :
  content <$> l1 = content <$> l2 -> ListenFrom l1 app = ListenFrom l2 app.
Proof.
  revert l2 app. induction l1 as [|x l1 IH]; intros [|y l2] app Hc; try done.
  rewrite !fmap_cons in Hc. injection Hc as _ _ Hd Hn Ha Hc. cbn [ListenFrom].
  assert (apply_message x app = apply_message y app) as ->.
  { unfold apply_message. by rewrite Hd, Hn, Ha. }
  destruct (apply_message y app) as [app'| |]; [by apply IH|done..].
Qed.

(** With distinct keys two logs are prefixes of each other. *)
Lemma logs_prefix ps T n s a b :
  inv ps s -> sim ps T n s -> a ∈ ps -> b ∈ ps -> keys_distinct n a b ->
  (content <$> log_of n a) `prefix_of` (content <$> log_of n b) \/
  (content <$> log_of n b) `prefix_of` (content <$> log_of n a).
Proof.
  intros Hi Hsim Ha Hb Hkey.
  destruct (inv_prefix ps s a b Hi) as [Hp|Hp]; [|left; by eapply order_prefix_contents|right; by eapply order_prefix_contents].
  intros d e. rewrite !(sim_order _ _ _ _ Hsim).
  intros (x & -> & Hx)%list_elem_of_fmap (y & -> & Hy)%list_elem_of_fmap Heq. by apply Hkey.
Qed.

(** ** Theorems *)

(** C7 The network of nodes refines the ISIS protocol: in every run without
    failures, whatever the interleaving of the goroutines and the orders in
    which the maps are ranged over, nothing panics, and the state reached is
    that of a reachable state of the protocol machine: the connections hold its
    channels, the tables count its proposals, the queues hold its undelivered
    messages and the logs are its deliveries. *)
Theorem network_refines_isis ps es :
  run_ok ps es ->
  match exec_all (net_init ps) es with
  | Ret n => exists s T, reachable ps s /\ sim ps T n s
  | Crash _ => False
  | Block => True
  end.
Proof.
  intros Hok. pose proof (run_outcome ps es Hok) as H.
  destruct (exec_all _ es) as [n| |]; [|done..]. destruct H as (s & T & ? & ? & _). by exists s, T.
Qed.

(** C4 Total order without failures: if no two messages get the same agreed
    priority and sender, then at every moment what one node has delivered is a
    prefix of what any other has delivered. *)
Theorem one_node_is_behind_the_other ps es n a b :
  run_ok ps es -> exec_all (net_init ps) es = Ret n -> a ∈ ps -> b ∈ ps -> keys_distinct n a b ->
  (content <$> log_of n a) `prefix_of` (content <$> log_of n b) \/
  (content <$> log_of n b) `prefix_of` (content <$> log_of n a).
Proof.
  intros Hok Hex. destruct (run_invariant ps es n Hok Hex) as (s & T & Hi & Hsim & _).
  by eapply logs_prefix.
Qed.

(** The exact condition: two nodes that deliver two messages in opposite orders
    have agreed on the same priority for both, and the messages come from one
    sender. *)
Theorem only_ties_are_reordered ps es n a b x y x' y' l1 l2 l3 k1 k2 k3 :
  run_ok ps es -> exec_all (net_init ps) es = Ret n ->
  log_of n a = l1 ++ x :: l2 ++ y :: l3 -> log_of n b = k1 ++ y' :: k2 ++ x' :: k3 ->
  Id x' = Id x -> Id y' = Id y -> order_key x = order_key y.
Proof.
  intros Hok Hex Ha Hb Hx Hy. destruct (run_invariant ps es n Hok Hex) as (s & T & Hi & Hsim & _).
  pose proof (sim_order _ _ _ _ Hsim a) as Hoa. rewrite Ha, !fmap_app, !fmap_cons, !fmap_app, !fmap_cons in Hoa.
  pose proof (sim_order _ _ _ _ Hsim b) as Hob. rewrite Hb, !fmap_app, !fmap_cons, !fmap_app, !fmap_cons in Hob.
  assert (entry_of x' = entry_of x) as Hex'.
  { eapply (inv_same_key ps s b a); [done|rewrite Hob; set_solver|rewrite Hoa; set_solver|done]. }
  assert (entry_of y' = entry_of y) as Hey'.
  { eapply (inv_same_key ps s b a); [done|rewrite Hob; set_solver|rewrite Hoa; set_solver|done]. }
  rewrite Hex', Hey' in Hob. exact (inv_total_order ps s a b _ _ _ _ _ _ _ _ Hi Hoa Hob).
Qed.

(** C14 The ledgers agree: once nothing is on its way any more in a run of at
    least two nodes without failures, two nodes that agreed on distinct keys
    are in the same state, whatever the interleaving. *)
Theorem ledgers_agree ps es n a b :
  run_ok ps es -> exec_all (net_init ps) es = Ret n -> (2 <= length ps)%nat -> quiescent n ->
  a ∈ ps -> b ∈ ps -> keys_distinct n a b ->
  ListenFrom (log_of n a) Init = ListenFrom (log_of n b) Init.
Proof.
  intros Hok Hex Hlen Hq Ha Hb Hkey. apply ListenFrom_contents.
  destruct (run_invariant ps es n Hok Hex) as (s & T & Hi & Hsim & _ & HT).
  pose proof Hok as (_ & _ & _ & Hids & _).
  pose proof (quiescent_ids ps T n s (txs_of es) a Hi Hsim Hlen Hq Ha Hids HT) as Hpa.
  pose proof (quiescent_ids ps T n s (txs_of es) b Hi Hsim Hlen Hq Hb Hids HT) as Hpb.
  assert (length (log_of n a) = length (log_of n b)) as Hl.
  { rewrite <- Hpb in Hpa. apply Permutation_length in Hpa. by rewrite !length_fmap in Hpa. }
  destruct (logs_prefix _ _ _ _ a b Hi Hsim Ha Hb Hkey) as [Hp|Hp].
  - apply prefix_length_eq; [done|]. rewrite !length_fmap. lia.
  - symmetry. apply prefix_length_eq; [done|]. rewrite !length_fmap. lia.
Qed.
