(* ===== verification/MulticastLiveness.v ===== *)
(** * MulticastLiveness: the network comes to rest

    Without failures and without new transactions the goroutines of the nodes
    have only finitely much to do: every message consumed is paid for by a
    measure of the protocol ([weight]), and as long as something is on its way
    some goroutine can move.  So every transaction is delivered in the end. *)
From S2P Require Import Prelude MessagePQ Multicast IsisSpec MulticastNet MulticastOrder Ledger MulticastReplicas.

(** ** Sums *)

Lemma sum_list_with_le {X} (g h : X -> nat) l :
  (forall x, x ∈ l -> g x <= h x)%nat -> (sum_list_with g l <= sum_list_with h l)%nat.
Proof.
  induction l as [|x l IH]; intros Hle; [done|]. cbn.
  pose proof (Hle x ltac:(left)). specialize (IH (fun y Hy => Hle y (list_elem_of_further _ _ _ Hy))). lia.
Qed.

Lemma sum_list_with_plus {X} (g h : X -> nat) l :
  sum_list_with (fun x => g x + h x)%nat l = (sum_list_with g l + sum_list_with h l)%nat.
Proof. induction l as [|x l IH]; cbn; lia. Qed.

(** A summand that is only there at one place. *)
Lemma sum_list_with_once `{EqDecision X} (a : X) (v : nat) l :
  NoDup l -> sum_list_with (fun x => if decide (x = a) then v else 0%nat) l =
    if decide (a ∈ l) then v else 0%nat.
Proof.
  induction 1 as [|x l Hx Hnd IH]; [done|]. cbn. rewrite IH.
  destruct (decide (x = a)) as [->|Hne].
  - rewrite decide_False by done. rewrite decide_True by (by left). lia.
  - apply decide_ext. set_solver.
Qed.

Lemma sum_list_with_ext {X} (g h : X -> nat) l :
  (forall x, g x = h x) -> sum_list_with g l = sum_list_with h l.
Proof. intros He. induction l as [|x l IH]; [done|]. cbn. by rewrite He, IH. Qed.

Lemma sum_list_with_zero {X} (l : list X) : sum_list_with (fun _ => 0%nat) l = 0%nat.
Proof. by induction l. Qed.

Section measure.
Context (ps : list string) (Hnd : NoDup ps).

(** The sum over all pairs of nodes. *)
Definition over_pairs (g : string -> string -> nat) : nat :=
  sum_list_with (fun f => sum_list_with (g f) ps) ps.

Lemma over_pairs_plus g h k :
  (forall f t, g f t = h f t + k f t)%nat -> over_pairs g = (over_pairs h + over_pairs k)%nat.
Proof.
  intros He. unfold over_pairs. rewrite <- sum_list_with_plus. apply sum_list_with_ext. intros f.
  rewrite <- sum_list_with_plus. apply sum_list_with_ext. intros t. apply He.
Qed.

Lemma over_pairs_from f k :
  f ∈ ps -> over_pairs (fun f' t => if decide (f' = f) then k t else 0%nat) = sum_list_with k ps.
Proof.
  intros Hf. unfold over_pairs. transitivity (sum_list_with (fun f' => if decide (f' = f) then sum_list_with k ps else 0%nat) ps).
  - apply sum_list_with_ext. intros f'. case_decide; [done|apply sum_list_with_zero].
  - rewrite sum_list_with_once by done. by rewrite decide_True.
Qed.

(** ** The measure of the protocol *)

Let N := length ps.

Definition wire_weight (w : wire) : nat :=
  match w with WInit _ => 1 | WProp _ _ => S N | WAgree _ _ => 1 end.

Definition chan_weight (l : list wire) : nat := sum_list_with wire_weight l.

Definition on_the_way (s : spec) : nat := over_pairs (fun f t => chan_weight (chan s f t)).

(** What is on the way, and what the first receipts to come will send. *)
Definition weight (s : spec) : nat :=
  on_the_way s + (2 * N + 1) * (N * size (sent s) - size (prop s)).

Lemma head_weight s f t w l :
  chan s f t = w :: l -> f ∈ ps -> t ∈ ps ->
  on_the_way s = (on_the_way (take_head f t s) + wire_weight w)%nat.
Proof.
  intros Hc Hf Ht. unfold on_the_way.
  rewrite (over_pairs_plus _ (fun f' t' => chan_weight (chan (take_head f t s) f' t'))
    (fun f' t' => if decide (f' = f) then if decide (t' = t) then wire_weight w else 0%nat else 0%nat)).
  - rewrite over_pairs_from, sum_list_with_once by done. by rewrite decide_True.
  - intros f' t'. cbn [chan take_head]. unfold chan_weight. destruct (decide (f' = f)) as [->|Hne].
    + destruct (decide (t' = t)) as [->|Hne].
      * rewrite decide_True, Hc by done. cbn [sum_list_with tail]. lia.
      * rewrite decide_False by tauto. lia.
    + rewrite decide_False by tauto. lia.
Qed.

Definition out_weight (out : list (string * wire)) : nat := sum_list_with (fun kw => wire_weight kw.2) out.

Lemma outs_weight out :
  (sum_list_with (fun t => chan_weight (outs t out)) ps <= out_weight out)%nat.
Proof.
  induction out as [|[k w] out IH].
  - cbn. rewrite sum_list_with_zero. done.
  - transitivity (sum_list_with (fun t => (if decide (t = k) then wire_weight w else 0) + chan_weight (outs t out))%nat ps).
    + apply sum_list_with_le. intros t _. unfold outs. rewrite filter_cons. cbn [fst].
      unfold chan_weight.
      repeat case_decide; try congruence; rewrite ?fmap_cons; cbn [sum_list_with snd]; lia.
    + rewrite sum_list_with_plus, sum_list_with_once by done. cbn [out_weight sum_list_with snd].
      unfold out_weight in IH. case_decide; lia.
Qed.

Lemma push_weight s self out :
  self ∈ ps -> (on_the_way (push self out s) <= on_the_way s + out_weight out)%nat.
Proof.
  intros Hself. unfold on_the_way.
  rewrite (over_pairs_plus _ (fun f t => chan_weight (chan s f t))
    (fun f t => if decide (f = self) then chan_weight (outs t out) else 0%nat)).
  - rewrite over_pairs_from by done. pose proof (outs_weight out). lia.
  - intros f t. cbn. unfold chan_weight. rewrite sum_list_with_app. f_equal. by case_decide.
Qed.

Lemma out_weight_casts w ks : out_weight ((fun k => (k, w)) <$> ks) = (length ks * wire_weight w)%nat.
Proof. unfold out_weight. induction ks as [|k ks IH]; [done|]. cbn. rewrite IH. done. Qed.

(** No more proposals than nodes and messages. *)
Lemma map_size_bound {X Y} `{Countable X, Countable Y} {V} (m : gmap (X * Y) V) (l : list X) (k : list Y) :
  (forall x y, is_Some (m !! (x, y)) -> x ∈ l /\ y ∈ k) -> (size m <= length l * length k)%nat.
Proof.
  intros Hm. rewrite <- length_map_to_list, <- (length_fmap fst), <- length_prod.
  apply submseteq_length, NoDup_submseteq; [apply NoDup_fst_map_to_list|].
  intros [x y] ([x' v] & Heq & Hin)%list_elem_of_fmap. cbn in Heq. subst x'.
  apply elem_of_map_to_list in Hin. destruct (Hm x y) as [Hx Hy]; [by eexists|].
  apply list_elem_of_In, in_prod; by apply list_elem_of_In.
Qed.

Lemma work_weight s s' : inv ps s -> work ps s s' -> (weight s' < weight s)%nat.
Proof.
  intros Hi Hw. unfold weight. destruct Hw as [f t x l Hc Hs|f t x l i p encs Hc Hs Hx Hp He|f t x q l out Hc Ha|f t x p l ds Hc Hd].
  all: destruct (inv_ends _ _ Hi f t _ ltac:(rewrite Hc; left)) as [Hf Ht].
  all: pose proof (head_weight s f t _ l Hc Hf Ht) as Hhead; cbn [wire_weight] in Hhead.
  - cbn [sent prop take_head]. lia.
  - set (out := _ ++ _). pose proof (push_weight (offer t x p (take_head f t s)) t out Ht) as Hpush.
    change (on_the_way (offer t x p (take_head f t s))) with (on_the_way (take_head f t s)) in Hpush.
    assert (out_weight out <= 2 * N + 1)%nat as Hout.
    { unfold out, out_weight. rewrite sum_list_with_app. change (sum_list_with _ (_ <$> _)) with
        (out_weight ((fun k => (k, WInit x)) <$> filter (fun k => k <> t) encs)).
      rewrite out_weight_casts. cbn. pose proof (length_filter (fun k => k <> t) encs) as Hl.
      apply Permutation_length in He. unfold N in *. lia. }
    assert (prop s !! (t, x) = None) as Hnone by by apply eq_None_not_Some.
    cbn [sent prop push offer take_head]. rewrite map_size_insert_None by done.
    assert (S (size (prop s)) <= N * size (sent s))%nat as Hb.
    { rewrite <- (map_size_insert_None (t, x) p (prop s)) by done. rewrite <- (size_dom (sent s)).
      apply (map_size_bound _ ps (elements (dom (sent s)))). intros u y.
      rewrite lookup_insert_is_Some. intros [[= <- <-]|[_ [r Hr]]].
      - split; [done|]. apply elem_of_elements, elem_of_dom. by exists i.
      - apply (inv_prop _ _ Hi) in Hr as [Hu Hy]. split; [done|]. by apply elem_of_elements, elem_of_dom. }
    nia.
  - pose proof (push_weight (count f x (take_head f t s)) t out Ht) as Hpush.
    change (on_the_way (count f x (take_head f t s))) with (on_the_way (take_head f t s)) in Hpush.
    assert (out_weight out <= N)%nat as Hout.
    { destruct Ha as [[_ ->]|(_ & p & encs & _ & He & ->)]; [cbn; lia|].
      rewrite out_weight_casts, He. cbn. unfold N. lia. }
    cbn [sent prop push count take_head]. lia.
  - change (on_the_way (deliver _ _ _)) with (on_the_way (take_head f t s)).
    cbn [sent prop deliver settle take_head]. lia.
Qed.

Lemma cast_weight s x i t :
  inv ps s -> sent s !! x = Some i -> (weight (push (node_name i) [(t, WInit x)] s) <= S (weight s))%nat.
Proof.
  intros Hi Hx. assert (node_name i ∈ ps) as Hps by by eapply inv_sent.
  pose proof (push_weight s (node_name i) [(t, WInit x)] Hps) as Hpush. cbn in Hpush.
  unfold weight. cbn [sent prop push]. lia.
Qed.
End measure.

(** ** The measure of the network *)

Definition measure (ps : list string) (n : net) (s : spec) : nat :=
  (2 * weight ps s + 3 * casting_left n + (length ps * length ps - size (inbox n)))%nat.

Lemma inbox_bound ps T n s :
  inv ps s -> sim ps T n s -> (size (inbox n) <= length ps * length ps)%nat.
Proof.
  intros Hi Hsim. apply (map_size_bound (inbox n) ps ps). intros f t [m Hm].
  assert (wire_of m ∈ chan s f t) as Hin; [|by apply (inv_ends _ _ Hi) in Hin].
  rewrite (sim_chan _ _ _ _ Hsim). unfold pipe. rewrite Hm. by left.
Qed.

Lemma moves_measure ps T n n' s s' :
  NoDup ps -> inv ps s -> inv ps s' -> sim ps T n s -> sim ps T n' s' -> moves ps n s n' s' ->
  (measure ps n' s' < measure ps n s)%nat.
Proof.
  intros Hnd Hi Hi' Hsim Hsim' Hm. unfold measure.
  pose proof (inbox_bound ps T n s Hi Hsim) as Hb. pose proof (inbox_bound ps T n' s' Hi' Hsim') as Hb'.
  destruct Hm as [x i t Hx Ht Hcast Hin|s' Hw Hcast Hin|Hcast Hin].
  - pose proof (cast_weight ps Hnd s x i t Hi Hx). rewrite Hin. lia.
  - pose proof (work_weight ps Hnd s s' Hi Hw). lia.
  - lia.
Qed.

(** Internal events, one after the other. *)
Lemma internal_run ps T n s es n' :
  NoDup ps -> zlen ps < 2 ^ 62 -> Z.of_nat (size T) < 2 ^ 53 -> inv ps s -> sim ps T n s ->
  Forall internal es -> exec_all n es = Ret n' ->
  (length es <= measure ps n s)%nat /\ exists s', inv ps s' /\ sim ps T n' s'.
Proof.
  intros Hnd Hlen Hsize. revert n s. induction es as [|e es IH]; intros n s Hi Hsim Hint Hex.
  - injection Hex as <-. split; [cbn; lia|by exists s].
  - cbn in Hex. bind_inv Hex. rename r into n1. apply Forall_cons in Hint as [Hie Hint].
    assert (event_ok T e) as Hok by (by destruct e).
    pose proof (sim_exec ps T n s Hi Hnd Hsim Hlen Hsize e Hok) as H. rewrite E in H.
    destruct H as (s1 & Hs1 & Hmv & Hsim1). specialize (Hmv Hie).
    assert (txs_after T e = T) as HT by (by destruct e). rewrite HT in Hsim1.
    assert (inv ps s1) as Hi1 by (destruct Hs1 as [->|Hs1]; [done|by eapply step_inv]).
    destruct (IH n1 s1 Hi1 Hsim1 Hint Hex) as [Hl Hr]. split; [|done].
    pose proof (moves_measure ps T n n1 s s1 Hnd Hi Hi1 Hsim Hsim1 Hmv). cbn [length]. lia.
Qed.

(** ** Somebody can move *)

(** A schedule: the first [Cast] goroutine that has something to send, or the
    first connection with a message. *)
Definition next_event (n : net) : option event :=
  match list_find (fun c => c.1.2 <> []) (casting n) with
  | Some (k, _) => Some (EvSend k)
  | None =>
      match list_find (fun p => pipe n p.1 p.2 <> []) (list_prod (peers n) (peers n)) with
      | Some (_, (f, t)) =>
          if decide (inbox n !! (f, t) = None) then Some (EvRecv f t)
          else Some (EvHandle f t (peers n) (peers n))
      | None => None
      end
  end.

Fixpoint schedule (fuel : nat) (n : net) : list event :=
  match fuel with
  | O => []
  | S fuel =>
      match next_event n with
      | Some e => match exec n e with Ret n' => e :: schedule fuel n' | _ => [] end
      | None => []
      end
  end.

Section progress.
Context (ps : list string) (T : gmap string Message) (n : net) (s : spec).
Context (Hi : inv ps s) (Hnd : NoDup ps) (Hsim : sim ps T n s).
Context (Hlenps : zlen ps < 2 ^ 62) (Hsize : Z.of_nat (size T) < 2 ^ 53).

Lemma next_event_None : next_event n = None -> quiescent n.
Proof.
  unfold next_event. destruct (list_find _ (casting n)) as [[k c]|] eqn:Hc; [done|].
  destruct (list_find _ (list_prod _ _)) as [[k [f t]]|] eqn:Hp; [by case_decide|]. intros _.
  apply list_find_None in Hc. apply list_find_None in Hp. rewrite Forall_forall in Hc. pose proof (proj1 (Forall_forall _ _) Hp) as Hp'. split.
  - intros f t. assert (pipe n f t = []) as Hpipe.
    { destruct (pipe n f t) as [|m l] eqn:Hpf; [done|]. exfalso.
      assert (wire_of m ∈ chan s f t) as Hin by (rewrite (sim_chan _ _ _ _ Hsim), Hpf; by left).
      apply (inv_ends _ _ Hi) in Hin as [Hf Ht]. apply (Hp' (f, t)); [|cbn; by rewrite Hpf].
      rewrite (sim_peers _ _ _ _ Hsim). apply list_elem_of_In, in_prod; by apply list_elem_of_In. }
    unfold pipe in Hpipe. apply app_eq_nil in Hpipe as [Hin Hl]. split; [done|].
    by destruct (inbox n !! (f, t)).
  - intros self order msg Hin. specialize (Hc _ Hin). cbn in Hc. destruct order; [done|]. by destruct Hc.
Qed.

Lemma next_event_Some e : next_event n = Some e -> internal e /\ exists n', exec n e = Ret n'.
Proof.
  unfold next_event. destruct (list_find _ (casting n)) as [[k [[self order] msg]]|] eqn:Hc.
  - intros [= <-]. apply list_find_Some in Hc as (Hk & Hne & _). cbn in Hne. split; [done|].
    destruct order as [|to order]; [done|]. cbn. rewrite Hk.
    assert ((self, to :: order, msg) ∈ casting n) as Hin by by eapply list_elem_of_lookup_2.
    destruct (sim_casting _ _ _ _ Hsim _ _ _ Hin) as (HT & _ & Hself & _).
    destruct (sim_node _ _ _ _ Hsim self) as [m Hm].
    { rewrite Hself. eapply (inv_sent _ _ Hi (Id msg)). by rewrite (sim_sent _ _ _ _ Hsim), lookup_fmap, HT. }
    rewrite Hm. by eexists.
  - destruct (list_find _ (list_prod _ _)) as [[k [f t]]|] eqn:Hp; [|done].
    apply list_find_Some in Hp as (Hk & Hne & _). cbn in Hne.
    apply list_elem_of_lookup_2, list_elem_of_In, in_prod_iff in Hk as [_ Ht].
    rewrite (sim_peers _ _ _ _ Hsim) in Ht. apply list_elem_of_In in Ht.
    destruct (sim_node _ _ _ _ Hsim t Ht) as [m Hm]. case_decide as Hd; intros [= <-]; (split; [done|]); cbn [exec]; rewrite Hm.
    + unfold pipe in Hne. rewrite Hd in Hne |- *. cbn in Hne. destruct (link n f t) as [|msg rest]; [done|].
      rewrite (sim_closed _ _ _ _ Hsim). rewrite decide_False by set_solver.
      destruct (Deliver_step m f (Some msg)) as [m' [msg'|]]; by eexists.
    + destruct (inbox n !! (f, t)) as [msg|] eqn:Hin; [|done]. rewrite decide_True by done.
      assert (peers n ≡ₚ ps) as Hpeers by by rewrite (sim_peers _ _ _ _ Hsim).
      destruct (handle_any ps T n s f t msg m (peers n) (peers n) Hi Hnd Hsim Hlenps Hsize Hin Hm Hpeers)
        as (m' & out & s' & Hrun & _). rewrite Hrun, bind_Ret_l. by eexists.
Qed.
End progress.

(** ** Theorems *)

(** C6 Liveness without failures, for two or more nodes.  From any state of a run
    of at least two nodes without failures the goroutines can only take a
    bounded number of steps without a new transaction, and they can only stop
    when every node has delivered every transaction that was read, once and as
    it was read: so every transaction is delivered everywhere.  (A node that is
    alone never agrees on a priority and delivers nothing:
    [first_reply_never_agrees].) *)
Theorem every_transaction_is_delivered ps es n :
  run_ok ps es -> exec_all (net_init ps) es = Ret n -> (2 <= length ps)%nat ->
  exists bound, forall es' n', Forall internal es' -> exec_all n es' = Ret n' ->
    (length es' <= bound)%nat /\
    ((exists e n'', internal e /\ exec n' e = Ret n'') \/
     (forall a, a ∈ ps -> content <$> log_of n' a ≡ₚ content <$> txs_of es)).
Proof.
  intros Hok Hex Hlen. destruct (run_invariant ps es n Hok Hex) as (s & T & Hi & Hsim & Hsize & HT).
  pose proof Hok as (Hnd & Hps & _ & _ & Htx). unfold zlen in Htx. rewrite <- Hsize in Htx.
  exists (measure ps n s). intros es' n' Hint Hex'.
  destruct (internal_run ps T n s es' n' Hnd Hps Htx Hi Hsim Hint Hex') as (Hb & s' & Hi' & Hsim').
  split; [done|]. destruct (next_event n') as [e|] eqn:Hnext.
  - left. destruct (next_event_Some ps T n' s' Hi' Hnd Hsim' Hps Htx e Hnext) as (He & n'' & Hn). by exists e, n''.
  - right. intros a Ha. eapply quiescent_contents; [done..| |done| |done]; [by eapply next_event_None|apply Hok].
Qed.

(** ** A run *)

(** Two transactions at two of three nodes; each arrives first at its own
    node, and [y] also at the third. *)
Definition ex_tx (id : string) (i : Z) (name : string) : Message := {|
  Id := id; Sender := i; Priority := 0; Index := -1; NodeId := node_name i; RNodeId := node_name i;
  Status := "i"; IsDeliverable := false; IsDeposit := true; Names := [name]; Amount := 5 |}.

Definition ex_start : list event :=
  [EvTx "node1" (ex_tx "x" 1 "a") ["node1"; "node2"; "node3"];
   EvTx "node2" (ex_tx "y" 2 "b") ["node2"; "node3"; "node1"];
   EvSend 0; EvSend 1; EvSend 1; EvSend 1] ++
  recv3 "node2" "node3" ++ recv3 "node2" "node2" ++ recv3 "node1" "node1".

Definition net_after (n : net) (es : list event) : net := value_or (net_init []) (exec_all n es).

Definition ex_rest : list event := schedule 100 (net_after (net_init trio) ex_start).
Definition ex_end : net := net_after (net_init trio) (ex_start ++ ex_rest).

(** On the way the first node has delivered both, the third nothing. *)
Definition ex_middle : net := net_after (net_init trio) (ex_start ++ take 40 ex_rest).

Lemma ex_start_ok : run_ok trio ex_start.
Proof.
  split; [by apply (bool_decide_unpack _); vm_compute|].
  split; [vm_compute; reflexivity|]. split; [|split; [by apply (bool_decide_unpack _); vm_compute|vm_compute; reflexivity]].
  repeat constructor.
Qed.

#[export] Instance internal_dec e : Decision (internal e).
Proof. destruct e; cbn; apply _. Defined.

Lemma run_ok_internal ps es es' : run_ok ps es -> Forall internal es' -> run_ok ps (es ++ es').
Proof.
  intros (? & ? & Hf & Hids & Hlen) Hint.
  assert (Forall fair_event es' /\ txs_of es' = []) as [Hf' Htx].
  { induction Hint as [|e es' He _ [IH1 IH2]]; [done|]. destruct e; try done; (split; [by constructor|done]). }
  split_and!; [done|done|by apply Forall_app|..]; by rewrite txs_of_app, Htx, app_nil_r.
Qed.

Lemma ex_rest_internal : Forall internal ex_rest.
Proof. apply (bool_decide_unpack _). by vm_compute. Qed.

Lemma ex_end_reached : exec_all (net_init trio) (ex_start ++ ex_rest) = Ret ex_end.
Proof. apply value_or_Ret. by vm_compute. Qed.

Lemma ex_start_reached :
  exec_all (net_init trio) ex_start = Ret (net_after (net_init trio) ex_start).
Proof. apply value_or_Ret. by vm_compute. Qed.

Lemma ex_rest_reached : exec_all (net_after (net_init trio) ex_start) ex_rest = Ret ex_end.
Proof. pose proof ex_end_reached as H. by rewrite exec_all_app, ex_start_reached in H. Qed.

Lemma ex_middle_reached : exec_all (net_init trio) (ex_start ++ take 40 ex_rest) = Ret ex_middle.
Proof. apply value_or_Ret. by vm_compute. Qed.

Lemma ex_end_quiescent : quiescent ex_end.
Proof.
  pose proof (run_ok_internal _ _ _ ex_start_ok ex_rest_internal) as Hok.
  destruct (run_invariant _ _ _ Hok ex_end_reached) as (s & T & Hi & Hsim & _).
  apply (next_event_None trio T ex_end s Hi Hsim). by vm_compute.
Qed.

(** The logs of [ex_end], to decide facts about its messages. *)
Lemma ex_keys n a b :
  bool_decide (Forall (fun x => Forall (fun y => order_key x = order_key y -> Id x = Id y) (log_of n b)) (log_of n a)) = true ->
  keys_distinct n a b.
Proof.
  intros Hd%bool_decide_eq_true x y Hx Hy. rewrite Forall_forall in Hd.
  specialize (Hd x Hx). rewrite Forall_forall in Hd. by apply Hd.
Qed.

Lemma network_refines_isis_witness :
  exists s T, reachable trio s /\ sim trio T ex_end s /\ order s "node3" = [("x", (2, 1)); ("y", (2, 2))].
Proof.
  pose proof (network_refines_isis trio (ex_start ++ ex_rest)
    (run_ok_internal _ _ _ ex_start_ok ex_rest_internal)) as H.
  rewrite ex_end_reached in H. destruct H as (s & T & Hs & Hsim). exists s, T.
  split; [exact Hs|]. split; [exact Hsim|]. rewrite (sim_order _ _ _ _ Hsim). vm_compute. reflexivity.
Defined.

Lemma one_node_is_behind_the_other_witness :
  length (log_of ex_middle "node1") = 2%nat /\ length (log_of ex_middle "node3") = 0%nat /\
  ((content <$> log_of ex_middle "node1") `prefix_of` (content <$> log_of ex_middle "node3") \/
   (content <$> log_of ex_middle "node3") `prefix_of` (content <$> log_of ex_middle "node1")).
Proof.
  split; [vm_compute; reflexivity|]. split; [vm_compute; reflexivity|].
  apply (one_node_is_behind_the_other trio (ex_start ++ take 40 ex_rest) ex_middle "node1" "node3").
  - apply run_ok_internal; [exact ex_start_ok|]. apply Forall_take, ex_rest_internal.
  - exact ex_middle_reached.
  - apply (bool_decide_unpack _). by vm_compute.
  - apply (bool_decide_unpack _). by vm_compute.
  - apply ex_keys. by vm_compute.
Defined.

Lemma every_transaction_is_delivered_witness :
  Id <$> log_of ex_end "node3" = ["x"; "y"] /\
  exists bound, (length ex_rest <= bound)%nat /\
    ((exists e n'', internal e /\ exec ex_end e = Ret n'') \/
     (forall a, a ∈ trio -> content <$> log_of ex_end a ≡ₚ content <$> txs_of ex_start)).
Proof.
  split; [vm_compute; reflexivity|].
  destruct (every_transaction_is_delivered trio ex_start (net_after (net_init trio) ex_start) ex_start_ok)
    as [bound Hb].
  - exact ex_start_reached.
  - vm_compute. lia.
  - exists bound. exact (Hb ex_rest ex_end ex_rest_internal ex_rest_reached).
Defined.

Lemma ledgers_agree_witness :
  ListenFrom (log_of ex_end "node1") Init = ListenFrom (log_of ex_end "node2") Init /\
  Id <$> log_of ex_end "node2" = ["x"; "y"].
Proof.
  split; [|vm_compute; reflexivity].
  apply (ledgers_agree trio (ex_start ++ ex_rest) ex_end "node1" "node2").
  - exact (run_ok_internal _ _ _ ex_start_ok ex_rest_internal).
  - exact ex_end_reached.
  - vm_compute. lia.
  - exact ex_end_quiescent.
  - apply (bool_decide_unpack _). by vm_compute.
  - apply (bool_decide_unpack _). by vm_compute.
  - apply ex_keys. by vm_compute.
Defined.

(** The tie of [MulticastNet]: the only way to be reordered. *)
Definition tie_first (k : string) : Message := default (tx "") (log_of tie_run k !! 0%nat).
Definition tie_second (k : string) : Message := default (tx "") (log_of tie_run k !! 1%nat).

Lemma only_ties_are_reordered_witness :
  Id (tie_first "node1") = "x" /\ Id (tie_second "node1") = "y" /\
  order_key (tie_first "node1") = order_key (tie_second "node1").
Proof.
  split; [vm_compute; reflexivity|]. split; [vm_compute; reflexivity|].
  apply (only_ties_are_reordered ["node1"; "node2"] tie_schedule tie_run "node1" "node2"
    (tie_first "node1") (tie_second "node1") (tie_second "node2") (tie_first "node2") [] [] [] [] [] []).
  - split; [by apply (bool_decide_unpack _); vm_compute|]. split; [vm_compute; reflexivity|].
    split; [|split; [by apply (bool_decide_unpack _); vm_compute|vm_compute; reflexivity]].
    repeat constructor.
  - apply value_or_Ret. by vm_compute.
  - vm_compute. reflexivity.
  - vm_compute. reflexivity.
  - vm_compute. reflexivity.
  - vm_compute. reflexivity.
Defined.
