(* ===== verification/GoStrings.v ===== *)
(** * GoStrings: the string functions the parsers use

    [strings.Split] with a one-byte separator, [strings.TrimSuffix] of a
    newline, and [strconv.Atoi], with what parsing loses of printing: nothing.
    Used by the command and configuration parsers of the transactions demo and
    by the transaction parser of the multicast demo. *)
From Stdlib Require Import Ascii.
From S2P Require Import Prelude.

Definition nl : ascii := "010"%char.
Definition space : ascii := " "%char.
Definition dot : ascii := "."%char.
Definition colon : ascii := ":"%char.

(** [strings.Split(s, sep)] *)
Fixpoint Split (sep : ascii) (s : string) : list string :=
  match s with
  | EmptyString => [""]
  | String c s =>
      if Ascii.eqb c sep then "" :: Split sep s
      else match Split sep s with
           | w :: ws => String c w :: ws
           | [] => [String c ""]
           end
  end.

(** [strings.TrimSuffix(s, "\n")] *)
Fixpoint TrimNewline (s : string) : string :=
  match s with
  | EmptyString => ""
  | String c EmptyString => if Ascii.eqb c nl then "" else s
  | String c s => String c (TrimNewline s)
  end.

(** What successive calls of [ReadString] return: the lines with their newline,
    the last one without it and with [io.EOF]. *)
Fixpoint ReadLines (s : string) : list string :=
  match s with
  | EmptyString => [""]
  | String c s =>
      if Ascii.eqb c nl then String nl "" :: ReadLines s
      else match ReadLines s with
           | l :: ls => String c l :: ls
           | [] => [String c ""]
           end
  end.

Definition digit (c : ascii) : option Z :=
  let n := Z.of_nat (nat_of_ascii c) - 48 in
  if decide (0 <= n <= 9) then Some n else None.

Fixpoint parse_digits (acc : Z) (s : string) : option Z :=
  match s with
  | EmptyString => Some acc
  | String c s => d ← digit c; parse_digits (acc * 10 + d) s
  end.

(** [strconv.Atoi]: an optional sign, at least one digit, and an [int]. *)
Definition Atoi (s : string) : option Z :=
  let '(neg, s) := match s with
                   | String "-" s => (true, s)
                   | String "+" s => (false, s)
                   | _ => (false, s)
                   end in
  match s with
  | EmptyString => None
  | _ =>
      n ← parse_digits 0 s;
      let v := if neg : bool then - n else n in
      if decide (- 2 ^ 63 <= v < 2 ^ 63) then Some v else None
  end.

(** ** Lemmas *)

Fixpoint has_char (c : ascii) (s : string) : bool :=
  match s with
  | EmptyString => false
  | String d s => Ascii.eqb d c || has_char c s
  end.

Lemma append_cons c s s' : String c s +:+ s' = String c (s +:+ s').
Proof. done. Qed.

Lemma append_nil s : "" +:+ s = s.
Proof. done. Qed.

Lemma append_nil_r s : s +:+ "" = s.
Proof. induction s as [|c s IH]; [done|]. by rewrite append_cons, IH. Qed.

Lemma append_assoc s t u : (s +:+ t) +:+ u = s +:+ t +:+ u.
Proof. induction s as [|c s IH]; [done|]. by rewrite !append_cons, IH. Qed.

Lemma has_char_app c s s' : has_char c (s +:+ s') = has_char c s || has_char c s'.
Proof.
  induction s as [|d s IH]; [done|]. rewrite append_cons. cbn. by rewrite IH, orb_assoc.
Qed.

Lemma Split_nonempty sep s : Split sep s <> [].
Proof. destruct s as [|c s]; cbn; [done|]. by repeat case_match. Qed.

Lemma Split_word sep w : has_char sep w = false -> Split sep w = [w].
Proof.
  induction w as [|c w IH]; cbn; [done|]. intros [Hc Hw]%orb_false_elim.
  by rewrite Hc, IH.
Qed.

Lemma Split_cons sep w s :
  has_char sep w = false -> Split sep (w +:+ String sep s) = w :: Split sep s.
Proof.
  induction w as [|c w IH]; intros Hw.
  - rewrite append_nil. cbn. by rewrite Ascii.eqb_refl.
  - rewrite append_cons. cbn in *. apply orb_false_elim in Hw as [Hc Hw]. by rewrite Hc, IH.
Qed.

Lemma TrimNewline_id s : has_char nl s = false -> TrimNewline s = s.
Proof.
  induction s as [|c s IH]; [done|]. intros Hs. cbn in Hs. apply orb_false_elim in Hs as [Hc Hs].
  cbn -[Ascii.eqb]. destruct s as [|d s]; [by rewrite Hc|]. by rewrite IH.
Qed.

Lemma TrimNewline_line s : has_char nl s = false -> TrimNewline (s +:+ String nl "") = s.
Proof.
  induction s as [|c s IH]; [done|]. intros Hs. cbn in Hs. apply orb_false_elim in Hs as [Hc Hs].
  rewrite append_cons. cbn -[Ascii.eqb]. rewrite IH by done. by destruct (s +:+ String nl "") eqn:E; [destruct s|].
Qed.

Lemma ReadLines_nonempty s : ReadLines s <> [].
Proof. destruct s as [|c s]; cbn; [done|]. by repeat case_match. Qed.

Lemma ReadLines_Split s : map TrimNewline (ReadLines s) = Split nl s.
Proof.
  induction s as [|c s IH]; [done|]. cbn. destruct (Ascii.eqb c nl) eqn:Hc; cbn; [by rewrite IH|].
  rewrite <-IH. destruct (ReadLines s) as [|l ls]; cbn; rewrite Hc; [done|].
  by destruct l.
Qed.

(** ** Numbers *)

Lemma digit_pretty n : (n < 10)%N -> digit (pretty_N_char n) = Some (Z.of_N n).
Proof.
  intros Hn. assert (n ∈ (N.of_nat <$> seq 0 10)) as Hin.
  { apply list_elem_of_fmap. exists (N.to_nat n). split; [lia|]. apply elem_of_seq. lia. }
  revert n Hn Hin. cut (Forall (fun n => digit (pretty_N_char n) = Some (Z.of_N n)) (N.of_nat <$> seq 0 10)).
  - intros Hall n _ Hin. rewrite Forall_forall in Hall. by apply Hall.
  - repeat constructor.
Qed.

Lemma parse_pretty_N_go n s :
  parse_digits 0 (pretty_N_go n s) = parse_digits (Z.of_N n) s.
Proof.
  revert s. induction (N.lt_wf_0 n) as [n _ IH]; intros s.
  destruct (decide (0 < n)%N) as [Hn|Hn]; [|by assert (n = 0%N) as -> by lia].
  rewrite pretty_N_go_step by done. rewrite IH by (apply N.div_lt; lia). cbn.
  rewrite digit_pretty by (apply N.mod_lt; done). cbn. f_equal.
  rewrite N2Z.inj_div, N2Z.inj_mod. pose proof (Z.div_mod (Z.of_N n) 10). lia.
Qed.

Lemma parse_pretty_N (n : N) : parse_digits 0 (pretty n) = Some (Z.of_N n).
Proof.
  unfold pretty, pretty_N. case_decide; [by subst|]. by rewrite parse_pretty_N_go.
Qed.

Lemma has_char_pretty_N_go c n s :
  digit c = None -> has_char c s = false -> has_char c (pretty_N_go n s) = false.
Proof.
  intros Hc. revert s. induction (N.lt_wf_0 n) as [n _ IH]; intros s Hs.
  destruct (decide (0 < n)%N) as [Hn|Hn]; [|by assert (n = 0%N) as -> by lia].
  rewrite pretty_N_go_step by done. apply IH; [apply N.div_lt; lia|]. cbn.
  rewrite Hs, orb_false_r. apply Ascii.eqb_neq. intros <-.
  rewrite digit_pretty in Hc; [done|by apply N.mod_lt].
Qed.

Lemma has_char_pretty_N c (n : N) : digit c = None -> has_char c (pretty n : string) = false.
Proof.
  intros Hc. unfold pretty, pretty_N. case_decide.
  - cbn -[Ascii.eqb]. rewrite orb_false_r. apply Ascii.eqb_neq. by intros <-.
  - by apply has_char_pretty_N_go.
Qed.

Lemma has_char_Itoa c z : digit c = None -> c <> "-"%char -> has_char c (Itoa z) = false.
Proof.
  intros Hc Hm. unfold Itoa, pretty, pretty_Z. destruct z as [|n|n].
  - cbn -[Ascii.eqb]. rewrite orb_false_r. apply Ascii.eqb_neq. by intros <-.
  - by apply has_char_pretty_N.
  - rewrite has_char_app. apply orb_false_intro; [|by apply has_char_pretty_N].
    cbn -[Ascii.eqb]. rewrite orb_false_r. apply Ascii.eqb_neq. congruence.
Qed.

(** [Atoi] reads back what [Itoa] wrote. *)
Lemma Atoi_Itoa z : int64_range z -> Atoi (Itoa z) = Some z.
Proof.
  intros Hr. unfold int64_range in Hr. unfold Itoa, pretty, pretty_Z. destruct z as [|n|n].
  - done.
  - pose proof (parse_pretty_N (Npos n)) as Hp. unfold pretty, pretty_positive.
    pose proof (has_char_pretty_N "-"%char (Npos n) eq_refl) as Hm.
    pose proof (has_char_pretty_N "+"%char (Npos n) eq_refl) as Hpl.
    unfold Atoi. destruct (pretty (N.pos n)) as [|c s] eqn:E; [done|].
    cbn -[Ascii.eqb] in Hm, Hpl. apply orb_false_elim in Hm as [Hm _], Hpl as [Hpl _].
    apply Ascii.eqb_neq in Hm, Hpl.
    assert (match String c s with
            | String "-" s => (true, s) | String "+" s => (false, s) | _ => (false, String c s)
            end = (false, String c s)) as ->.
    { destruct c as [[] [] [] [] [] [] [] []]; done. }
    rewrite Hp. cbn [mbind option_bind]. by rewrite decide_True.
  - pose proof (parse_pretty_N (Npos n)) as Hp. unfold pretty, pretty_positive.
    change ("-" +:+ ?s) with (String "-" s). unfold Atoi.
    destruct (pretty (N.pos n)) as [|c s] eqn:E; [done|].
    rewrite Hp. cbn [mbind option_bind]. rewrite decide_True; [done|]. lia.
Qed.

Lemma Itoa_no_space z : has_char space (Itoa z) = false.
Proof. by apply has_char_Itoa. Qed.
Lemma Itoa_no_nl z : has_char nl (Itoa z) = false.
Proof. by apply has_char_Itoa. Qed.

Lemma has_char_string c d s : has_char c (String d s) = Ascii.eqb d c || has_char c s.
Proof. done. Qed.

Lemma TrimNewline_opt s (eol : bool) :
  has_char nl s = false -> TrimNewline (s +:+ if eol then String nl "" else "") = s.
Proof. intros Hs. destruct eol; [by apply TrimNewline_line|]. by rewrite append_nil_r, TrimNewline_id. Qed.
