(* ===== verification/Node.v ===== *)
(** * Node: start-up and input of a multicast node

    Models [multicast-demo/types/node.go] with [main.go] and [utils/errorUtil.go],
    without the sockets: [readConf], the names [Run] gives to the nodes, the
    connections and tables it sets up, and the loop that turns a line of input
    into the message that is multicast.  [resolve] is [net.ResolveIPAddr], [uuid]
    the fresh identifier of [uuid.NewString]. *)
From S2P Require Import Prelude GoStrings MessagePQ Multicast Ledger.

Record SockAddr : Set := mkSockAddr { sNodeId : string; sHost : string; sIp : string; sPort : string }.

Record Node : Set := mkNode { nid : string; nport : string; pool : list SockAddr }.

(** ** [readConf] *)

(** [ReadString('\n')]: the next line, and whether it ended at the end of the
    file; past the end it is empty. *)
Definition next_line (lines : list string) : string * bool * list string :=
  match lines with
  | [] => ("", true, [])
  | [l] => (l, true, [])
  | l :: lines => (l, false, lines)
  end.

Fixpoint readConf_lines (resolve : string -> option string) (num : nat) (lines : list string)
    (n : Node) : outcome Node :=
  match num with
  | O => Ret n
  | S num =>
      let '(line, _, lines) := next_line lines in
      let parsedLine := Split space (TrimNewline line) in
      w0 ← go_index parsedLine 0;
      n ← (if decide (w0 = nid n) then
             w2 ← go_index parsedLine 2; Ret (mkNode (nid n) w2 (pool n))
           else Ret n);
      w1 ← go_index parsedLine 1;
      match resolve w1 with
      | None => Crash UserPanic
      | Some ip =>
          w2 ← go_index parsedLine 2;
          readConf_lines resolve num lines (mkNode (nid n) (nport n) (pool n ++ [mkSockAddr w0 w1 ip w2]))
      end
  end.

Definition readConf (resolve : string -> option string) (content : string) (n : Node)
    : outcome (Node * Z) :=
  let '(lineNum, eof, lines) := next_line (ReadLines content) in
  if eof : bool then Crash UserPanic
  else match Atoi (TrimNewline lineNum) with
       | None => Crash UserPanic
       | Some num => n ← readConf_lines resolve (Z.to_nat num) lines n; Ret (n, num)
       end.

(** ** The names of the nodes (lines 84-91) *)

Definition node_name (i : Z) : string := "node" +:+ Itoa i.

Fixpoint rename (id : string) (i : Z) (nidx : Z) (p : list SockAddr) : list SockAddr * Z :=
  match p with
  | [] => ([], nidx)
  | a :: p =>
      let nidx := if decide (sNodeId a = id) then i + 1 else nidx in
      let '(p', r) := rename id (i + 1) nidx p in
      (mkSockAddr (node_name (i + 1)) (sHost a) (sIp a) (sPort a) :: p', r)
  end.

Definition Run_names (id : string) (n : Node) : Node :=
  let '(p, nidx) := rename id 0 0 (pool n) in mkNode (node_name nidx) (nport n) p.

(** ** The connections (lines 116-208) *)

(** Whose connection it is that was accepted: the name of the last node of the
    pool with the address it comes from. *)
Definition d_nid (p : list SockAddr) (remoteAddr : string) : outcome string :=
  ip ← go_index (Split colon remoteAddr) 0;
  Ret (foldl (fun d a => if decide (sIp a = ip) then sNodeId a else d) "" p).

(** The dialling goroutines store their connections in the order in which they
    succeed; each one tries again until it does. *)
Definition Store (conns : gmap string SockAddr) (a : SockAddr) : gmap string SockAddr :=
  <[sNodeId a := a]> conns.

(** The tables of the nodes that are connected, visited in the order [keys]. *)
Definition Range_conns (keys : list string) (m : Multicast) : Multicast :=
  foldl (fun m id => set_nfailCheck (<[id := false]> (nfailCheck m))
                       (set_messageNCheck (<[id := 0]> (messageNCheck m)) m)) m keys.

(** Lines 92-114: the node before it has connections. *)
Definition Run_fields (id : string) (numOfNodes : Z) : Multicast := {|
  A := 0; P := 0; curNodeId := id; aliveNodes := numOfNodes;
  nfailCheck := ∅; messageCheck := ∅; messageNCheck := ∅; pq := []; proposed := ∅; repliers := ∅;
|}.

(** What [Run] does between [readConf] and its input loop: [dialed] is the order
    in which the connections come about, [keys] the order of [conns.Range].
    A node that cannot load its own connection panics on its type assertion. *)
Definition Run_connect (id : string) (numOfNodes : Z) (n : Node) (dialed : list SockAddr) (keys : list string)
    : outcome (Node * Multicast * SockAddr) :=
  let n := Run_names id n in
  let conns := foldl Store ∅ dialed in
  let m := Range_conns keys (Run_fields (nid n) numOfNodes) in
  match conns !! nid n with
  | Some selfOutConn => Ret (n, m, selfOutConn)
  | None => Crash NilDeref
  end.

(** [Run] up to its input loop. *)
Definition Run (resolve : string -> option string) (id content : string) (dialed : list SockAddr)
    (keys : list string) : outcome (Node * Multicast * SockAddr * Application) :=
  '(n, numOfNodes) ← readConf resolve content (mkNode id "" []);
  '(n, m, self) ← Run_connect id numOfNodes n dialed keys;
  Ret (n, m, self, Init).

(** [utils/errorUtil.go] and [main.go]; [file] gives the content of a file. *)
Definition ExitFromErr (err : option string) : outcome unit :=
  match err with Some _ => Crash UserPanic | None => Ret () end.

Definition main (resolve : string -> option string) (file : string -> string) (args : list string)
    (dialed : list SockAddr) (keys : list string) : outcome (Node * Multicast * SockAddr * Application) :=
  _ ← ExitFromErr (if decide (length args <> 2%nat) then Some "usage: ./main [identifier] [configuration file]"
                   else None);
  nodeId ← go_index args 0;
  fp ← go_index args 1;
  Run resolve nodeId (file fp) dialed keys.

(** ** The input loop (lines 212-254) *)

(** [n.id[4:]] as a number. *)
Definition id_number (id : string) : outcome Z :=
  match id with
  | String _ (String _ (String _ (String _ rest))) =>
      match Atoi rest with Some z => Ret z | None => Crash UserPanic end
  | _ => Crash IndexPanic
  end.

Definition parse_tx (uuid id tx : string) : outcome Message :=
  let txList := Split space (TrimNewline tx) in
  w0 ← go_index txList 0;
  '(isDeposit, names, amount) ←
    (if decide (w0 <> "DEPOSIT") then
       w1 ← go_index txList 1; w3 ← go_index txList 3; w4 ← go_index txList 4;
       match Atoi w4 with None => Crash UserPanic | Some a => Ret (false, [w1; w3], a) end
     else
       w1 ← go_index txList 1; w2 ← go_index txList 2;
       match Atoi w2 with None => Crash UserPanic | Some a => Ret (true, [w1], a) end);
  nodeId ← id_number id;
  Ret {| Id := uuid; Sender := nodeId; Priority := 0; Index := -1; NodeId := id; RNodeId := id;
         Status := "i"; IsDeliverable := false; IsDeposit := isDeposit; Names := names;
         Amount := amount |}.

(** ** Round trip *)

Definition tx_line (msg : Message) : string :=
  match IsDeposit msg, Names msg with
  | true, [a] => "DEPOSIT " +:+ a +:+ " " +:+ Itoa (Amount msg)
  | false, [a; b] => "TRANSFER " +:+ a +:+ " -> " +:+ b +:+ " " +:+ Itoa (Amount msg)
  | _, _ => ""
  end.

(** What a node multicasts. *)
Definition is_tx (uuid : string) (i : Z) (msg : Message) : Prop :=
  msg = {| Id := uuid; Sender := i; Priority := 0; Index := -1; NodeId := node_name i;
           RNodeId := node_name i; Status := "i"; IsDeliverable := false;
           IsDeposit := IsDeposit msg; Names := Names msg; Amount := Amount msg |} /\
  length (Names msg) = (if IsDeposit msg then 1 else 2)%nat /\
  Forall (fun w => has_char space w = false /\ has_char nl w = false) (Names msg) /\
  int64_range (Amount msg).

Lemma id_number_node i : int64_range i -> id_number (node_name i) = Ret i.
Proof.
  intros Hi. transitivity (match Atoi (Itoa i) with Some z => Ret z | None => Crash UserPanic end);
    [reflexivity|]. by rewrite Atoi_Itoa.
Qed.

(** Transactions round trip: the line that describes a transaction is turned
    by node [i] into exactly the message that carries it -- a deposit with one
    account, a transfer with two, a 64-bit amount, sent by [i] with priority 0 --
    which the application can then apply without indexing past its names. *)
Theorem parse_tx_roundtrip uuid i msg (eol : bool) app :
  is_tx uuid i msg -> int64_range i ->
  parse_tx uuid (node_name i) (tx_line msg +:+ if eol then String nl "" else "") = Ret msg /\
  returns (apply_message msg app) = true.
Proof.
  intros (Hmsg & Hlen & Hw & Hr) Hi. destruct msg as [f1 f2 f3 f4 f5 f6 f7 f8 dep names n].
  cbn in *. injection Hmsg as -> -> -> -> -> -> -> ->.
  destruct dep, names as [|a [|b [|c names]]]; try discriminate Hlen; cbn [tx_line IsDeposit Names Amount].
  - apply Forall_singleton in Hw as [As An]. split; [|reflexivity].
    assert ("DEPOSIT " +:+ a +:+ " " +:+ Itoa n = "DEPOSIT" +:+ String space (a +:+ String space (Itoa n)))
      as -> by reflexivity.
    set (s := "DEPOSIT" +:+ _). assert (has_char nl s = false) as Hn.
    { unfold s. repeat (rewrite has_char_app || rewrite has_char_string). by rewrite An, Itoa_no_nl. }
    assert (Split space s = ["DEPOSIT"; a; Itoa n]) as Hsp
      by (unfold s; by rewrite !Split_cons, Split_word by (done || apply Itoa_no_space)).
    unfold parse_tx. rewrite TrimNewline_opt, Hsp by done.
    change (go_index ["DEPOSIT"; ?x; ?y] 0) with (Ret "DEPOSIT").
    change (go_index ["DEPOSIT"; ?x; ?y] 1) with (Ret x).
    change (go_index ["DEPOSIT"; ?x; ?y] 2) with (Ret y).
    rewrite bind_Ret_l, decide_False by (intros H; by apply H).
    rewrite !bind_Ret_l, Atoi_Itoa, bind_Ret_l, id_number_node by done. done.
  - apply Forall_cons in Hw as [[As An] [Bs Bn]%Forall_singleton]. split; [|reflexivity].
    assert ("TRANSFER " +:+ a +:+ " -> " +:+ b +:+ " " +:+ Itoa n =
      "TRANSFER" +:+ String space (a +:+ String space ("->" +:+ String space (b +:+ String space (Itoa n)))))
      as -> by reflexivity.
    set (s := "TRANSFER" +:+ _). assert (has_char nl s = false) as Hn.
    { unfold s. repeat (rewrite has_char_app || rewrite has_char_string). by rewrite An, Bn, Itoa_no_nl. }
    assert (Split space s = ["TRANSFER"; a; "->"; b; Itoa n]) as Hsp
      by (unfold s; by rewrite !Split_cons, Split_word by (done || apply Itoa_no_space)).
    unfold parse_tx. rewrite TrimNewline_opt, Hsp by done.
    change (go_index ["TRANSFER"; ?x; ?y; ?z; ?w] 0) with (Ret "TRANSFER").
    change (go_index ["TRANSFER"; ?x; ?y; ?z; ?w] 1) with (Ret x).
    change (go_index ["TRANSFER"; ?x; ?y; ?z; ?w] 3) with (Ret z).
    change (go_index ["TRANSFER"; ?x; ?y; ?z; ?w] 4) with (Ret w).
    rewrite bind_Ret_l, decide_True by done.
    rewrite !bind_Ret_l, Atoi_Itoa, bind_Ret_l, id_number_node by done. done.
Qed.

Lemma parse_tx_roundtrip_witness :
  exists msg, tx_line msg = "TRANSFER a -> b 5" /\
    parse_tx "u" "node3" "TRANSFER a -> b 5" = Ret msg /\ Names msg = ["a"; "b"] /\ Sender msg = 3.
Proof.
  set (msg := {| Id := "u"; Sender := 3; Priority := 0; Index := -1; NodeId := node_name 3;
    RNodeId := node_name 3; Status := "i"; IsDeliverable := false; IsDeposit := false;
    Names := ["a"; "b"]; Amount := 5 |}).
  assert (is_tx "u" 3 msg) as Htx.
  { split; [reflexivity|]. split; [reflexivity|]. split; [|unfold int64_range; cbn; lia].
    apply Forall_cons. split; [split; reflexivity|]. apply Forall_singleton. split; reflexivity. }
  assert (int64_range 3) as H3 by (unfold int64_range; lia).
  pose proof (proj1 (parse_tx_roundtrip "u" 3 msg false Init Htx H3)) as H.
  exists msg. split; [reflexivity|]. split; [|split; reflexivity].
  replace "node3" with (node_name 3) by (vm_compute; reflexivity).
  replace "TRANSFER a -> b 5" with (tx_line msg +:+ "") by (vm_compute; reflexivity). exact H.
Defined.

(** ** Names *)

(** The names are [node1], [node2], ... by position, and the node's own is that
    of its entry. *)
Lemma rename_spec id i nidx p :
  sNodeId <$> (rename id i nidx p).1 = (fun k => node_name (i + 1 + Z.of_nat k)) <$> seq 0 (length p) /\
  ((forall a, a ∈ p -> sNodeId a <> id) -> (rename id i nidx p).2 = nidx) /\
  (forall k a, p !! k = Some a -> sNodeId a = id ->
     (forall k' a', p !! k' = Some a' -> sNodeId a' = id -> k' = k) ->
     (rename id i nidx p).2 = i + 1 + Z.of_nat k).
Proof.
  revert i nidx. induction p as [|a p IH]; intros i nidx; cbn [rename].
  { split_and!; [done|done|]. intros k a Ha. by rewrite lookup_nil in Ha. }
  destruct (IH (i + 1) (if decide (sNodeId a = id) then i + 1 else nidx)) as (H1 & H2 & H3).
  destruct (rename id (i + 1) _ p) as [p' r] eqn:E. cbn in H1, H2, H3 |- *. split_and!.
  - rewrite H1. f_equal; [f_equal; lia|]. rewrite <-fmap_S_seq, <-list_fmap_compose.
    apply list_fmap_ext. intros _ k _. cbn. f_equal. lia.
  - intros Hne. rewrite H2 by (intros b Hb; apply Hne; by right).
    rewrite decide_False; [done|]. apply Hne. left.
  - intros [|k] b Hb Hid Huniq; cbn in Hb.
    + injection Hb as ->. rewrite decide_True in H2 by done. rewrite H2; [lia|].
      intros c Hc Hidc. apply list_elem_of_lookup in Hc as [k' Hk'].
      by specialize (Huniq (S k') c Hk' Hidc).
    + rewrite (H3 k b Hb Hid); [lia|]. intros k' b' Hk' Hid'.
      specialize (Huniq (S k') b' Hk' Hid'). lia.
Qed.

(** ** Starting a node *)

#[export] Instance node_name_inj : Inj (=) (=) node_name.
Proof. intros i j H. apply (inj (String.append "node")) in H. by apply (inj pretty) in H. Qed.

(** The node's own name is that of an entry with its id, or [node0]. *)
Lemma rename_own id i nidx p :
  ((exists a, a ∈ p /\ sNodeId a = id) -> i + 1 <= (rename id i nidx p).2 <= i + zlen p) /\
  ((forall a, a ∈ p -> sNodeId a <> id) -> (rename id i nidx p).2 = nidx).
Proof.
  split; [|by apply rename_spec]. revert i nidx. induction p as [|a p IH]; intros i nidx (b & Hb & Hid).
  { by apply not_elem_of_nil in Hb. }
  cbn [rename]. specialize (IH (i + 1) (if decide (sNodeId a = id) then i + 1 else nidx)).
  destruct (rename_spec id (i + 1) (if decide (sNodeId a = id) then i + 1 else nidx) p) as (_ & Hnone & _).
  destruct (rename id (i + 1) _ p) as [p' r]. cbn in *. unfold zlen in *. cbn [length].
  destruct (decide (Exists (fun c => sNodeId c = id) p)) as [Hex|Hno].
  - apply Exists_exists in Hex. specialize (IH Hex). lia.
  - assert (forall c, c ∈ p -> sNodeId c <> id) as Hall
      by (intros c Hc Hcid; apply Hno, Exists_exists; by exists c).
    rewrite (Hnone Hall). apply elem_of_cons in Hb as [->|Hb]; [|by destruct (Hall b Hb)].
    rewrite decide_True by done. lia.
Qed.

Lemma Run_names_pool id n :
  (sNodeId <$> pool (Run_names id n)) = (fun k => node_name (1 + Z.of_nat k)) <$> seq 0 (length (pool n)).
Proof.
  unfold Run_names. destruct (rename_spec id 0 0 (pool n)) as (H & _).
  destruct (rename id 0 0 (pool n)) as [p nidx]. exact H.
Qed.

Lemma Run_names_NoDup id n : NoDup (sNodeId <$> pool (Run_names id n)).
Proof.
  rewrite Run_names_pool. apply NoDup_fmap_2, NoDup_seq. intros x y Hxy%(inj node_name). lia.
Qed.

Lemma foldl_Store l conns :
  NoDup (sNodeId <$> l) ->
  foldl Store conns l = list_to_map ((fun a => (sNodeId a, a)) <$> l) ∪ conns.
Proof.
  revert conns. induction l as [|a l IH]; intros conns Hnd; cbn; [by rewrite (left_id_L ∅ (∪))|].
  apply NoDup_cons in Hnd as [Ha Hnd]. rewrite IH by done. unfold Store.
  rewrite <- insert_union_l, insert_union_r; [done|].
  apply not_elem_of_list_to_map_1. by rewrite <- list_fmap_compose.
Qed.

Lemma foldl_insert {V} (v : V) (keys : list string) (m : gmap string V) k :
  foldl (fun m id => <[id := v]> m) m keys !! k = if decide (k ∈ keys) then Some v else m !! k.
Proof.
  revert m. induction keys as [|x keys IH]; intros m; cbn; [by rewrite decide_False by apply not_elem_of_nil|].
  rewrite IH. destruct (decide (k ∈ keys)) as [Hk|Hk].
  - rewrite decide_True by by right. done.
  - destruct (decide (x = k)) as [->|Hne].
    + rewrite lookup_insert_eq, decide_True by left. done.
    + rewrite lookup_insert_ne, decide_False by (done || by apply not_elem_of_cons). done.
Qed.

Lemma list_to_map_const {V} (v : V) (keys : list string) k :
  (list_to_map ((fun x => (x, v)) <$> keys) : gmap string V) !! k = if decide (k ∈ keys) then Some v else None.
Proof.
  induction keys as [|x keys IH]; cbn; [by rewrite decide_False by apply not_elem_of_nil|].
  destruct (decide (x = k)) as [->|Hne].
  - rewrite lookup_insert_eq, decide_True by left. done.
  - rewrite lookup_insert_ne, IH by done. apply decide_ext. rewrite elem_of_cons. naive_solver.
Qed.

Lemma Range_conns_fields keys m :
  Range_conns keys m = set_nfailCheck (foldl (fun c id => <[id := false]> c) (nfailCheck m) keys)
    (set_messageNCheck (foldl (fun c id => <[id := 0]> c) (messageNCheck m) keys) m).
Proof.
  revert m. induction keys as [|k keys IH]; intros m; [by destruct m|].
  change (Range_conns (k :: keys) m) with (Range_conns keys
    (set_nfailCheck (<[k := false]> (nfailCheck m)) (set_messageNCheck (<[k := 0]> (messageNCheck m)) m))).
  by rewrite IH.
Qed.

Lemma Range_conns_init keys names num cur :
  keys ≡ₚ names -> zlen names = num -> Range_conns keys (Run_fields cur num) = Multicast_init cur names.
Proof.
  intros Hk <-. rewrite Range_conns_fields. unfold Multicast_init, Run_fields, set_nfailCheck, set_messageNCheck.
  cbn. f_equal; apply map_eq; intros k; rewrite foldl_insert, list_to_map_const, lookup_empty;
    apply decide_ext; by rewrite Hk.
Qed.

Lemma readConf_lines_pool resolve num lines n n' :
  readConf_lines resolve num lines n = Ret n' -> length (pool n') = (length (pool n) + num)%nat.
Proof.
  revert lines n. induction num as [|num IH]; intros lines n; cbn [readConf_lines].
  { intros [= <-]. lia. }
  destruct (next_line lines) as [[line eof] rest]. intros Hr. bind_inv Hr. bind_inv Hr. bind_inv Hr.
  destruct (resolve _); [|done]. bind_inv Hr. apply IH in Hr. rewrite Hr. cbn. rewrite length_app. cbn.
  assert (pool r0 = pool n) as ->; [|lia].
  destruct (decide _); [|by injection E0 as <-]. bind_inv E0. by injection E0 as <-.
Qed.

Lemma readConf_num resolve content id port n num :
  readConf resolve content (mkNode id port []) = Ret (n, num) -> zlen (pool n) = Z.max 0 num.
Proof.
  unfold readConf. destruct (next_line (ReadLines content)) as [[line eof] rest]. destruct eof; [done|].
  destruct (Atoi _) as [z|]; [|done]. intros Hr. bind_inv Hr. injection Hr as <- <-.
  apply readConf_lines_pool in E. unfold zlen. rewrite E. cbn. lia.
Qed.

(** The nodes start as the network of nodes takes them to: whatever the order in
    which connections come about and are visited, a node whose id is in the
    file gets the state [Multicast_init] over the names of all nodes, and reads
    its own messages from its own connection; a node whose id is not in the
    file panics. *)
Theorem Run_starts_node resolve id content n num dialed keys :
  readConf resolve content (mkNode id "" []) = Ret (n, num) ->
  dialed ≡ₚ pool (Run_names id n) -> keys ≡ₚ sNodeId <$> pool (Run_names id n) ->
  if decide (Exists (fun a => sNodeId a = id) (pool n)) then
    exists self, self ∈ pool (Run_names id n) /\ sNodeId self = nid (Run_names id n) /\
      Run resolve id content dialed keys =
        Ret (Run_names id n, Multicast_init (nid (Run_names id n)) (sNodeId <$> pool (Run_names id n)), self, Init)
  else Run resolve id content dialed keys = Crash NilDeref.
Proof.
  intros Hconf Hd Hk. pose proof (Run_names_NoDup id n) as Hnd. pose proof (Run_names_pool id n) as Hpool.
  unfold Run. rewrite Hconf, bind_Ret_l. apply readConf_num in Hconf. unfold Run_connect. set (n' := Run_names id n) in *.
  assert (nid n' = node_name (rename id 0 0 (pool n)).2) as Hnid
    by (unfold n', Run_names; by destruct (rename id 0 0 (pool n))).
  destruct (rename_own id 0 0 (pool n)) as [Hin Hout].
  assert (NoDup (sNodeId <$> dialed)) as Hndd by (by rewrite Hd).
  rewrite foldl_Store by done. rewrite map_union_empty.
  destruct (decide (Exists _ (pool n))) as [Hex|Hno].
  - apply Exists_exists in Hex. specialize (Hin Hex).
    assert (zlen (sNodeId <$> pool n') = num) as Hz.
    { rewrite Hpool. unfold zlen in *. rewrite length_fmap, length_seq. lia. }
    rewrite (Range_conns_init _ _ num) by done.
    assert (nid n' ∈ sNodeId <$> pool n') as Hel.
    { rewrite Hpool, Hnid. apply list_elem_of_fmap. exists (Z.to_nat ((rename id 0 0 (pool n)).2 - 1)).
      unfold zlen in Hin. split; [f_equal; lia|]. apply elem_of_seq. lia. }
    apply list_elem_of_fmap in Hel as (self & Hself & Hel). exists self. split; [done|]. split; [done|].
    rewrite (elem_of_list_to_map_1 _ (nid n') self); [done|by rewrite <- list_fmap_compose|].
    rewrite Hd. apply list_elem_of_fmap. exists self. by rewrite Hself.
  - rewrite (not_elem_of_list_to_map_1 _ (nid n')); [done|]. rewrite <- list_fmap_compose, Hd.
    change ((fst ∘ (fun a => (sNodeId a, a))) <$> pool n') with (sNodeId <$> pool n').
    rewrite Hpool, Hnid, Hout, list_elem_of_fmap.
    + intros (k & Hk0%(inj node_name) & _). lia.
    + intros a Ha Hid. apply Hno, Exists_exists. by exists a.
Qed.

Lemma Run_starts_node_witness :
  let addr i p := mkSockAddr (node_name i) "h" "10.0.0.1" p in
  Run (fun _ => Some "10.0.0.1") "b" ("2" +:+ String nl ("a h 1" +:+ String nl "b h 2"))
    [addr 2 "2"; addr 1 "1"] ["node2"; "node1"] =
  Ret (mkNode "node2" "2" [addr 1 "1"; addr 2 "2"], Multicast_init "node2" ["node1"; "node2"], addr 2 "2", Init).
Proof.
  intros addr. set (text := "2" +:+ _).
  assert (exists n, readConf (fun _ => Some "10.0.0.1") text (mkNode "b" "" []) = Ret (n, 2) /\
    pool n = [mkSockAddr "a" "h" "10.0.0.1" "1"; mkSockAddr "b" "h" "10.0.0.1" "2"] /\
    Run_names "b" n = mkNode "node2" "2" [addr 1 "1"; addr 2 "2"]) as (n & Hc & Hp & Hr)
    by (eexists; split; [vm_compute; reflexivity|]; split; vm_compute; reflexivity).
  pose proof (Run_starts_node (fun _ => Some "10.0.0.1") "b" text n 2 [addr 2 "2"; addr 1 "1"]
    ["node2"; "node1"] Hc) as H. rewrite Hr in H. cbn [pool nid] in H.
  rewrite decide_True in H by (rewrite Hp; right; left; reflexivity).
  destruct H as (self & Hs & Hid & H); [apply Permutation_swap|apply Permutation_swap|].
  rewrite H. f_equal. f_equal. f_equal.
  apply elem_of_cons in Hs as [->|Hs]; [discriminate Hid|]. by apply list_elem_of_singleton in Hs.
Defined.

(** ** Who is at the other end *)

Lemma d_nid_split p ip port :
  has_char colon ip = false ->
  d_nid p (ip +:+ ":" +:+ port) =
    Ret (foldl (fun d a => if decide (sIp a = ip) then sNodeId a else d) "" p).
Proof.
  intros Hip. unfold d_nid. change (":" +:+ port) with (String colon port). by rewrite Split_cons.
Qed.

Lemma foldl_no_ip p ip d :
  (forall a, a ∈ p -> sIp a <> ip) ->
  foldl (fun d a => if decide (sIp a = ip) then sNodeId a else d) d p = d.
Proof.
  revert d. induction p as [|a p IH]; intros d Hp; cbn; [done|].
  rewrite decide_False by (apply Hp; left). apply IH. intros b Hb. apply Hp. by right.
Qed.

(** An accepted connection is attributed to the last node of the pool at the
    address it comes from: to the node that dialled if no two nodes share an
    address, but to the wrong one for all the others of a host that runs
    several nodes (code bug) -- so their failures are reported under its name. *)
Theorem accepted_connection_name p q a port :
  has_char colon (sIp a) = false -> (forall b, b ∈ q -> sIp b <> sIp a) ->
  d_nid (p ++ a :: q) (sIp a +:+ ":" +:+ port) = Ret (sNodeId a) /\
  (forall b, b ∈ p -> sIp b = sIp a ->
     d_nid (p ++ a :: q) (sIp b +:+ ":" +:+ port) = Ret (sNodeId a)).
Proof.
  intros Hc Hq.
  assert (d_nid (p ++ a :: q) (sIp a +:+ ":" +:+ port) = Ret (sNodeId a)) as Ha.
  { rewrite d_nid_split, foldl_app by done. cbn. by rewrite decide_True, foldl_no_ip by done. }
  split; [done|]. by intros b _ ->.
Qed.
