(* ===== verification/TxLocks.v ===== *)
(** * TxLocks: accounts and their locks in the transactions demo

    Models [transactions-demo/server/account.go].  [sync.RWMutex] counts its
    readers and does not know its owners; the code keeps them in [tids] (by
    account) and [txLockInfo] (by transaction).  [AcquireRWLock] waits inside
    [RLock] or [Lock], so it is cut there: [AcquireRWLock_begin] runs up to the
    wait and [AcquireRWLock_end] is enabled when the mutex can be taken.  Go
    lets a waiting writer go before later readers; a scheduler that ignores the
    order of arrival has more runs, and the theorems hold for all of them. *)
From S2P Require Import Prelude.

(** The constants of [shared/types.go]. *)
Definition ABRT : string := "ABORT".
Definition ABRT_OK : string := "ABORTED".
Definition BGN : string := "BEGIN".
Definition CM : string := "COMMIT".
Definition CM_OK : string := "COMMIT OK".
Definition NF_ABRT : string := "NOT FOUND, ABORTED".
Definition OK : string := "OK".

Definition CheckError (e : option string) : outcome unit :=
  match e with Some _ => Crash LogFatal | None => Ret () end.

(** The order in which [for k, v := range m] visits a map: any order. *)
Class RangeOrder : Type := {
  range {A : Type} : gmap string A -> list (string * A);
  range_perm {A : Type} (m : gmap string A) : range m ≡ₚ map_to_list m;
}.

Definition range_keys : RangeOrder :=
  {| range := fun A m => map_to_list m; range_perm := fun A m => Permutation_refl _ |}.
Definition range_keys_rev : RangeOrder :=
  {| range := fun A m => reverse (map_to_list m);
     range_perm := fun A m => reverse_Permutation (map_to_list m) |}.

(** ** [sync.RWMutex] *)
Record RWMutex : Set := mkRWMutex { readers : nat; writer : bool }.

Definition new_RWMutex : RWMutex := {| readers := 0; writer := false |}.

Definition RLock (mu : RWMutex) : outcome RWMutex :=
  if writer mu then Block else Ret {| readers := S (readers mu); writer := false |}.
Definition RUnlock (mu : RWMutex) : outcome RWMutex :=
  match readers mu with
  | O => Crash UnlockPanic
  | S n => Ret {| readers := n; writer := writer mu |}
  end.
Definition WLock (mu : RWMutex) : outcome RWMutex :=
  if writer mu then Block
  else match readers mu with
       | O => Ret {| readers := 0; writer := true |}
       | S _ => Block
       end.
Definition WUnlock (mu : RWMutex) : outcome RWMutex :=
  if writer mu then Ret {| readers := readers mu; writer := false |} else Crash UnlockPanic.

(** ** The state *)

Record Lock : Set := mkLock {
  rwMu : RWMutex;
  tids : gmap string bool;    (** tid -> isRead *)
}.

Record Application : Set := mkApplication {
  locks : gmap string Lock;                        (** acctName -> Lock *)
  txLockInfo : gmap string (gmap string bool);     (** tid -> (acctName -> isRead) *)
  committedData : gmap string Z;
  cache : gmap string (gmap string Z);             (** tid -> (acctName -> change) *)
}.

Definition set_locks l (app : Application) : Application :=
  {| locks := l; txLockInfo := txLockInfo app; committedData := committedData app;
     cache := cache app |}.
Definition set_txLockInfo i (app : Application) : Application :=
  {| locks := locks app; txLockInfo := i; committedData := committedData app;
     cache := cache app |}.
Definition set_committedData d (app : Application) : Application :=
  {| locks := locks app; txLockInfo := txLockInfo app; committedData := d;
     cache := cache app |}.
Definition set_cache c (app : Application) : Application :=
  {| locks := locks app; txLockInfo := txLockInfo app; committedData := committedData app;
     cache := c |}.

(** [app.txLockInfo[tid][acctName] = isRead]: a write to a nil map panics. *)
Definition record_lock (tid acctName : string) (isRead : bool) (app : Application)
    : outcome Application :=
  match txLockInfo app !! tid with
  | Some info => Ret (set_txLockInfo (<[tid := <[acctName := isRead]> info]> (txLockInfo app)) app)
  | None => Crash NilMapWrite
  end.

(** ** [AcquireRWLock] *)

Inductive acquiring : Set :=
  | AcqDone
  | AcqWait (isRead : bool).

#[export] Instance acquiring_eq_dec : EqDecision acquiring.
Proof. solve_decision. Defined.

(** Lines 36-41: the lock object of the account, created if need be. *)
Definition init_lock (acctName : string) (app : Application) : Application :=
  match locks app !! acctName with
  | Some _ => app
  | None => set_locks (<[acctName := {| rwMu := new_RWMutex; tids := ∅ |}]> (locks app)) app
  end.

Definition lock_of (app : Application) (acctName : string) : Lock :=
  default {| rwMu := new_RWMutex; tids := ∅ |} (locks app !! acctName).

Definition AcquireRWLock_begin (tid acctName : string) (IsRead : bool) (app : Application)
    : outcome (Application * acquiring) :=
  let app := init_lock acctName app in
  let l := lock_of app acctName in
  if IsRead then
    match tids l !! tid with
    | Some false => Ret (app, AcqDone)      (* has write lock, wants to read *)
    | _ => Ret (app, AcqWait true)
    end
  else
    match tids l !! tid with
    | Some true =>                          (* lock upgrading *)
        mu ← RUnlock (rwMu l);
        let app1 := set_locks
          (<[acctName := {| rwMu := mu; tids := delete tid (tids l) |}]> (locks app)) app in
        Ret (set_txLockInfo (alter (delete acctName) tid (txLockInfo app1)) app1, AcqWait false)
    | Some false => Ret (app, AcqDone)
    | None => Ret (app, AcqWait false)
    end.

Definition AcquireRWLock_end (tid acctName : string) (isRead : bool) (app : Application)
    : outcome Application :=
  let l := lock_of app acctName in
  mu ← (if isRead then RLock (rwMu l) else WLock (rwMu l));
  record_lock tid acctName isRead
    (set_locks (<[acctName := {| rwMu := mu; tids := <[tid := isRead]> (tids l) |}]> (locks app)) app).

(** ** The operations, once they hold the lock *)

Definition cached (app : Application) (tid acctName : string) : option Z :=
  cache app !! tid ≫= (.!! acctName).

(** [app.cache[tid][acctName] = change] *)
Definition cache_store (tid acctName : string) (change : Z) (app : Application)
    : outcome Application :=
  match cache app !! tid with
  | Some c => Ret (set_cache (<[tid := <[acctName := change]> c]> (cache app)) app)
  | None => Crash NilMapWrite
  end.

Definition Balance (tid acctName : string) (app : Application) : string :=
  match committedData app !! acctName, cached app tid acctName with
  | None, None => NF_ABRT
  | inCommit, inCache =>
      acctName +:+ " = " +:+ Itoa (wrap64 (default 0 inCommit + default 0 inCache))
  end.

Definition Deposit (tid acctName : string) (amount : Z) (app : Application)
    : outcome (Application * string) :=
  app' ← cache_store tid acctName
    (match cached app tid acctName with
     | None => amount
     | Some change => wrap64 (change + amount)
     end) app;
  Ret (app', OK).

Definition Withdraw (tid acctName : string) (amount : Z) (app : Application)
    : outcome (Application * string) :=
  match committedData app !! acctName, cached app tid acctName with
  | None, None => Ret (app, NF_ABRT)
  | _, inCache =>
      app' ← cache_store tid acctName (wrap64 (default 0 inCache - amount)) app;
      Ret (app', OK)
  end.

(** ** [releaseLocks] *)

(** The body of the loop over [txLockInfo[tid]]. *)
Definition release_one (tid name : string) (isRead : bool) (app : Application)
    : outcome Application :=
  match locks app !! name with
  | None => Crash NilDeref
  | Some l =>
      mu ← (if isRead then RUnlock (rwMu l) else WUnlock (rwMu l));
      Ret (set_locks (<[name := {| rwMu := mu; tids := delete tid (tids l) |}]> (locks app)) app)
  end.

Fixpoint release_each (tid : string) (lockInfo : list (string * bool)) (app : Application)
    : outcome Application :=
  match lockInfo with
  | [] => Ret app
  | (name, isRead) :: lockInfo =>
      app' ← release_one tid name isRead app;
      release_each tid lockInfo app'
  end.

Definition releaseLocks `{RangeOrder} (tid : string) (app : Application) : outcome Application :=
  app' ← release_each tid (range (default ∅ (txLockInfo app !! tid))) app;
  Ret (set_txLockInfo (delete tid (txLockInfo app')) app').

(** ** The invariant of the locks

    A mutex held for writing has exactly one owner and no reader; otherwise
    its owners are readers and there are at most as many as it counts.  The
    two tables of owners agree. *)
Definition lock_ok (l : Lock) : Prop :=
  if writer (rwMu l) then exists t, tids l = {[t := false]} /\ readers (rwMu l) = 0%nat
  else (forall t r, tids l !! t = Some r -> r = true) /\
       (size (tids l) <= readers (rwMu l))%nat.

(** What [txLockInfo] says [tid] holds on the account. *)
Definition held (app : Application) (tid acctName : string) : option bool :=
  txLockInfo app !! tid ≫= (.!! acctName).

Definition locks_ok (app : Application) : Prop := forall a, lock_ok (lock_of app a).

Definition app_ok (app : Application) : Prop :=
  locks_ok app /\ forall t a, held app t a = tids (lock_of app a) !! t.

(** More readers are counted than there are owners. *)
Definition leaked (app : Application) (a : string) : Prop :=
  (size (tids (lock_of app a)) < readers (rwMu (lock_of app a)))%nat.

Lemma lock_of_set_locks app a l a' :
  lock_of (set_locks (<[a := l]> (locks app)) app) a' =
    if decide (a = a') then l else lock_of app a'.
Proof. unfold lock_of. cbn. rewrite lookup_insert. by case_decide. Qed.

Lemma lock_of_init app a a' : lock_of (init_lock a app) a' = lock_of app a'.
Proof.
  unfold init_lock. destruct (locks app !! a) eqn:Ha; [done|].
  rewrite lock_of_set_locks. case_decide; [|done]. subst. unfold lock_of. by rewrite Ha.
Qed.

Lemma init_lock_frame app a :
  txLockInfo (init_lock a app) = txLockInfo app /\
  committedData (init_lock a app) = committedData app /\ cache (init_lock a app) = cache app.
Proof. unfold init_lock. by case_match. Qed.

Lemma lock_ok_owner l t r : lock_ok l -> tids l !! t = Some r -> writer (rwMu l) = negb r.
Proof.
  unfold lock_ok. destruct (writer (rwMu l)).
  - intros (t' & -> & _). rewrite lookup_singleton. case_decide; [|done]. by intros [= <-].
  - intros [Hall _] Ht. by rewrite (Hall t r Ht).
Qed.

Lemma lock_ok_reader l t : lock_ok l -> tids l !! t = Some true -> (0 < readers (rwMu l))%nat.
Proof.
  intros Hok Ht. pose proof (lock_ok_owner l t true Hok Ht) as Hw. unfold lock_ok in Hok.
  rewrite Hw in Hok. destruct Hok as [_ Hs].
  assert (size (tids l) <> 0%nat); [|lia]. intros H0. apply map_size_empty_inv in H0.
  rewrite H0 in Ht. by rewrite lookup_empty in Ht.
Qed.

(** A write lock excludes every other owner. *)
Lemma lock_ok_exclusive l t t' r :
  lock_ok l -> tids l !! t = Some false -> tids l !! t' = Some r -> t' = t.
Proof.
  intros Hok Ht Ht'. pose proof (lock_ok_owner l t false Hok Ht) as Hw. unfold lock_ok in Hok.
  rewrite Hw in Hok. destruct Hok as (t0 & H0 & _). rewrite H0, lookup_singleton in Ht, Ht'.
  repeat case_decide; congruence.
Qed.

(** Giving a lock back: the mutex and its table of owners stay consistent,
    and surplus readers stay surplus. *)
Lemma unlock_ok l t (r : bool) :
  lock_ok l -> tids l !! t = Some r ->
  exists mu, (if r then RUnlock (rwMu l) else WUnlock (rwMu l)) = Ret mu /\
    lock_ok {| rwMu := mu; tids := delete t (tids l) |} /\
    ((size (tids l) < readers (rwMu l))%nat -> (size (delete t (tids l)) < readers mu)%nat).
Proof.
  intros Hok Ht. pose proof (lock_ok_owner l t r Hok Ht) as Hw.
  assert (size (tids l) <> 0%nat) as Hsz.
  { intros H0. apply map_size_empty_inv in H0. rewrite H0 in Ht. by rewrite lookup_empty in Ht. }
  assert (size (delete t (tids l)) = pred (size (tids l))) as Hsd
    by (by apply map_size_delete_Some).
  destruct r.
  - pose proof (lock_ok_reader l t Hok Ht) as Hr. unfold RUnlock. unfold lock_ok in *.
    rewrite Hw in *. cbn in *. destruct (readers (rwMu l)) as [|n]; [lia|].
    eexists. split; [done|]. cbn [rwMu readers writer tids]. rewrite Hsd. split; [|lia].
    destruct Hok as [Hall Hs]. split; [|lia]. intros t' r'. rewrite lookup_delete.
    case_decide; [done|apply Hall].
  - unfold WUnlock. unfold lock_ok in *. rewrite Hw in *. cbn in *.
    destruct Hok as (t0 & H0 & Hr). eexists. split; [done|].
    cbn [rwMu readers writer tids]. rewrite Hsd, H0, map_size_singleton, Hr. cbn.
    rewrite H0, lookup_singleton in Ht. case_decide; [|done]. subst t0.
    split; [|lia]. rewrite delete_singleton_eq. split; [|lia]. intros t' r'. by rewrite lookup_empty.
Qed.

(** Taking a lock. *)
Lemma lock_taken_ok l t (isRead : bool) mu :
  lock_ok l -> (if isRead then RLock (rwMu l) else WLock (rwMu l)) = Ret mu ->
  lock_ok {| rwMu := mu; tids := <[t := isRead]> (tids l) |} /\
  ((size (tids l) < readers (rwMu l))%nat -> (size (<[t := isRead]> (tids l)) < readers mu)%nat).
Proof.
  intros Hok Hmu. unfold lock_ok, RLock, WLock in *. destruct isRead.
  - destruct (writer (rwMu l)); [done|]. injection Hmu as <-. cbn. destruct Hok as [Hall Hs].
    assert (size (<[t := true]> (tids l)) <= S (size (tids l)))%nat as Hsz.
    { rewrite map_size_insert. case_match; unfold id; lia. }
    split; [split; [|lia]|lia]. intros t' r. rewrite lookup_insert. case_decide; [|apply Hall].
    by intros [= <-].
  - destruct (writer (rwMu l)); [done|]. destruct (readers (rwMu l)); [|done].
    injection Hmu as <-. cbn. destruct Hok as [_ Hs]. split; [|lia].
    exists t. split; [|done]. assert (tids l = ∅) as ->; [|done].
    apply map_size_empty_inv. lia.
Qed.


(** ** What the steps of the two operations do to the tables *)

Lemma held_set_locks l app t a : held (set_locks l app) t a = held app t a.
Proof. done. Qed.

Lemma held_frame app app' t a : txLockInfo app' = txLockInfo app -> held app' t a = held app t a.
Proof. unfold held. by intros ->. Qed.

Lemma app_ok_init a app : app_ok app -> app_ok (init_lock a app).
Proof.
  intros [Hl Ht]. split.
  - intros a'. rewrite lock_of_init. apply Hl.
  - intros t a'. rewrite lock_of_init, <-Ht. apply held_frame, init_lock_frame.
Qed.

Lemma leaked_init a app a' : leaked (init_lock a app) a' <-> leaked app a'.
Proof. unfold leaked. by rewrite lock_of_init. Qed.

(** What an operation leaves alone. *)
Definition frame (app app' : Application) : Prop :=
  committedData app' = committedData app /\ cache app' = cache app /\
  (forall t, is_Some (txLockInfo app' !! t) <-> is_Some (txLockInfo app !! t)) /\
  (forall a, leaked app a -> leaked app' a).

#[export] Instance frame_refl : Reflexive frame.
Proof. by intros app. Qed.

#[export] Instance frame_trans : Transitive frame.
Proof.
  intros x y z (H1 & H2 & H3 & H4) (G1 & G2 & G3 & G4).
  split_and!; [congruence|congruence| |auto]. intros t. by rewrite G3, H3.
Qed.

Lemma frame_init a app : frame app (init_lock a app).
Proof.
  pose proof (init_lock_frame app a) as (H1 & H2 & H3).
  split_and!; [done|done|by rewrite H1|]. intros a'. by rewrite leaked_init.
Qed.

(** Replacing the lock of one account. *)
Lemma leaked_set_lock app a l a' :
  leaked (set_locks (<[a := l]> (locks app)) app) a' <->
    if decide (a = a') then (size (tids l) < readers (rwMu l))%nat else leaked app a'.
Proof. unfold leaked. rewrite lock_of_set_locks. by case_decide. Qed.

Lemma locks_ok_set_lock app a l :
  locks_ok app -> lock_ok l -> locks_ok (set_locks (<[a := l]> (locks app)) app).
Proof. intros H Hl a'. rewrite lock_of_set_locks. by case_decide. Qed.

(** Lines 58-60: giving up the read lock before the write lock is taken. *)
Lemma upgrade_ok tid a app :
  app_ok app -> tids (lock_of app a) !! tid = Some true ->
  exists mu app', RUnlock (rwMu (lock_of app a)) = Ret mu /\
    app' = set_txLockInfo (alter (delete a) tid (txLockInfo app))
      (set_locks (<[a := {| rwMu := mu; tids := delete tid (tids (lock_of app a)) |}]> (locks app)) app) /\
    app_ok app' /\ frame app app' /\
    (forall t a', held app' t a' = if decide (t = tid /\ a' = a) then None else held app t a').
Proof.
  intros [Hl Ht] Hr. destruct (unlock_ok _ _ _ (Hl a) Hr) as (mu & Hmu & Hok & Hlk).
  eexists mu, _. split; [exact Hmu|]. split; [reflexivity|].
  assert (forall t a', held (set_txLockInfo (alter (delete a) tid (txLockInfo app))
      (set_locks (<[a := {| rwMu := mu; tids := delete tid (tids (lock_of app a)) |}]> (locks app)) app)) t a'
      = if decide (t = tid /\ a' = a) then None else held app t a') as Hheld.
  { intros t a'. unfold held. cbn. rewrite lookup_alter.
    destruct (decide (tid = t)) as [->|]; [|by rewrite decide_False by naive_solver].
    destruct (txLockInfo app !! t); cbn; [|by case_decide].
    rewrite lookup_delete. destruct (decide (a = a')) as [->|].
    - by rewrite decide_True.
    - by rewrite decide_False by naive_solver. }
  split_and!; [split|split_and!| ]; try done.
  - exact (locks_ok_set_lock app a _ Hl Hok).
  - intros t a'. rewrite Hheld. change (lock_of (set_txLockInfo ?i ?x) a') with (lock_of x a').
    rewrite lock_of_set_locks. destruct (decide (a = a')) as [<-|].
    + cbn. rewrite lookup_delete, <-Ht. repeat case_decide; naive_solver.
    + rewrite decide_False by naive_solver. apply Ht.
  - intros t. cbn. rewrite lookup_alter. case_decide; [subst|done].
    destruct (txLockInfo app !! t); cbn; [|done]. by split; eexists.
  - intros a' Ha'. change (leaked (set_txLockInfo ?i ?x) a') with (leaked x a').
    rewrite leaked_set_lock. case_decide; [subst a'|done]. by apply Hlk.
Qed.

(** The start of [AcquireRWLock] never stops the process. *)
Lemma begin_spec tid a isRead app :
  app_ok app ->
  exists app' w, AcquireRWLock_begin tid a isRead app = Ret (app', w) /\
    app_ok app' /\ frame app app' /\
    (forall t a', held app' t a' =
       if decide (t = tid /\ a' = a /\ isRead = false /\ held app t a' = Some true)
       then None else held app t a') /\
    match w with
    | AcqDone => held app' tid a = Some false
    | AcqWait r => r = isRead /\ held app' tid a <> Some false /\
                   (r = false -> held app' tid a = None)
    end.
Proof.
  intros Hok. pose proof (app_ok_init a app Hok) as Hok1. pose proof (frame_init a app) as Hf.
  pose proof Hok1 as [Hl1 Ht1].
  assert (forall t a', held (init_lock a app) t a' = held app t a') as Hh
    by (intros; apply held_frame, init_lock_frame).
  assert (tids (lock_of (init_lock a app) a) !! tid = held app tid a) as Hta
    by (by rewrite <-Ht1, Hh).
  unfold AcquireRWLock_begin. cbv zeta. rewrite Hta. destruct isRead.
  - destruct (held app tid a) as [[]|] eqn:Hheld; eexists _, _; (split; [reflexivity|]);
      (split; [done|]); (split; [done|]); (split; [intros t a'; rewrite Hh;
        by rewrite decide_False by naive_solver|]); rewrite Hh, Hheld; done.
  - destruct (held app tid a) as [[]|] eqn:Hheld.
    + destruct (upgrade_ok tid a _ Hok1 Hta) as (mu & app' & Hmu & -> & Hok' & Hf' & Hh').
      rewrite Hmu. eexists _, _. split; [reflexivity|]. split; [done|].
      split; [by etrans|]. split.
      * intros t a'. rewrite Hh', Hh. repeat case_decide; naive_solver.
      * rewrite Hh', decide_True by done. done.
    + eexists _, _. split; [reflexivity|]. split_and!; try done; [|by rewrite Hh].
      intros t a'. rewrite Hh. rewrite decide_False; [done|]. naive_solver.
    + eexists _, _. split; [reflexivity|]. split_and!; try done; rewrite ?Hh, ?Hheld; try done.
      intros t a'. rewrite Hh. rewrite decide_False; [done|]. naive_solver.
Qed.

(** The end of [AcquireRWLock]: the wait is over. *)
Lemma end_spec tid a (isRead : bool) app app' :
  app_ok app -> AcquireRWLock_end tid a isRead app = Ret app' ->
  app_ok app' /\ frame app app' /\
  (forall t a', held app' t a' = if decide (t = tid /\ a' = a) then Some isRead else held app t a').
Proof.
  intros [Hl Ht] H. unfold AcquireRWLock_end in H. cbv zeta in H. bind_inv H.
  destruct (lock_taken_ok _ tid isRead _ (Hl a) E) as [Hok Hlk].
  unfold record_lock in H. cbn in H. destruct (txLockInfo app !! tid) as [info|] eqn:Hinfo; [|done].
  injection H as <-.
  assert (forall t a', (<[tid := <[a := isRead]> info]> (txLockInfo app)) !! t ≫= (.!! a')
      = if decide (t = tid /\ a' = a) then Some isRead else held app t a') as Hheld.
  { intros t a'. unfold held. rewrite lookup_insert.
    destruct (decide (tid = t)) as [->|]; [|by rewrite decide_False by naive_solver].
    rewrite Hinfo. cbn. rewrite lookup_insert. destruct (decide (a = a')) as [->|].
    - by rewrite decide_True.
    - by rewrite decide_False by naive_solver. }
  split_and!; [split|split_and!| ]; try done.
  - exact (locks_ok_set_lock app a _ Hl Hok).
  - intros t a'. unfold held at 1. cbn [txLockInfo set_txLockInfo set_locks]. rewrite Hheld.
    change (lock_of (set_txLockInfo ?i ?x) a') with (lock_of x a').
    rewrite lock_of_set_locks. destruct (decide (a = a')) as [<-|].
    + cbn. rewrite lookup_insert, <-Ht. repeat case_decide; naive_solver.
    + rewrite decide_False by naive_solver. apply Ht.
  - intros t. cbn. rewrite lookup_insert. case_decide; [subst|done].
    rewrite Hinfo. by split; eexists.
  - intros a' Ha'. change (leaked (set_txLockInfo ?i ?x) a') with (leaked x a').
    rewrite leaked_set_lock. case_decide; [subst a'|done]. by apply Hlk.
Qed.

(** Once [ForwardCmd] has made the map of the transaction, it cannot panic. *)
Lemma end_no_crash tid a (isRead : bool) app :
  is_Some (txLockInfo app !! tid) ->
  AcquireRWLock_end tid a isRead app = Block \/
  exists app', AcquireRWLock_end tid a isRead app = Ret app'.
Proof.
  intros [info Hi]. unfold AcquireRWLock_end. cbv zeta. unfold RLock, WLock.
  destruct isRead, (writer _); try (by left); cbn;
    [|destruct (readers _); [|by left]; cbn]; unfold record_lock; cbn; rewrite Hi; eauto.
Qed.

(** When a lock can be taken. *)
Lemma end_blocked tid a (isRead : bool) app :
  app_ok app ->
  (exists t r, held app t a = Some r /\ (r = false \/ isRead = false)) \/
    (isRead = false /\ leaked app a) ->
  AcquireRWLock_end tid a isRead app = Block.
Proof.
  intros [Hl Ht] H. unfold AcquireRWLock_end. cbv zeta. specialize (Hl a).
  unfold RLock, WLock, leaked in *. destruct H as [(t & r & Hr & H)|[-> H]].
  - rewrite Ht in Hr. pose proof (lock_ok_owner _ _ _ Hl Hr) as Hw.
    destruct r; cbn in Hw; rewrite Hw; [|by destruct isRead].
    destruct H as [| ->]; [done|]. pose proof (lock_ok_reader _ _ Hl Hr).
    by destruct (readers _); [lia|].
  - destruct (writer _); [done|]. destruct (readers _); [lia|done].
Qed.

(** And when it is. *)
Lemma end_granted tid a (isRead : bool) app :
  app_ok app ->
  (if isRead then forall t, held app t a <> Some false
   else (forall t, held app t a = None) /\ ~ leaked app a) ->
  AcquireRWLock_end tid a isRead app <> Block.
Proof.
  intros [Hl Ht] H. unfold AcquireRWLock_end. cbv zeta. specialize (Hl a).
  unfold leaked, lock_ok in *. set (l := lock_of app a) in *.
  assert (writer (rwMu l) = true -> exists t, held app t a = Some false) as Hw.
  { intros Hw. rewrite Hw in Hl. destruct Hl as (t & Htd & _). exists t.
    rewrite Ht. fold l. rewrite Htd. apply lookup_singleton_eq. }
  unfold RLock, WLock. destruct isRead.
  - destruct (writer (rwMu l)); [destruct Hw as [t Hh]; [done|by destruct (H t)]|].
    cbn. unfold record_lock. cbn. by destruct (txLockInfo app !! tid).
  - destruct H as [Hn Hlk]. destruct (writer (rwMu l)); [destruct Hw as [t Hh]; [done|congruence]|].
    assert (tids l = ∅) as Hem by (apply map_eq; intros t; unfold l;
      by rewrite <-Ht, Hn, lookup_empty).
    rewrite Hem, map_size_empty in Hlk. destruct (readers (rwMu l)); [|lia].
    cbn. unfold record_lock. cbn. by destruct (txLockInfo app !! tid).
Qed.

(** ** [releaseLocks] gives back everything and stops nothing *)

Lemma release_one_spec tid name (isRead : bool) app :
  locks_ok app -> tids (lock_of app name) !! tid = Some isRead ->
  exists app', release_one tid name isRead app = Ret app' /\ locks_ok app' /\
    txLockInfo app' = txLockInfo app /\ frame app app' /\
    (forall a, tids (lock_of app' a) =
       if decide (a = name) then delete tid (tids (lock_of app a)) else tids (lock_of app a)).
Proof.
  intros Hl Ht. destruct (unlock_ok _ _ _ (Hl name) Ht) as (mu & Hmu & Hok & Hlk).
  unfold release_one. destruct (locks app !! name) as [l|] eqn:Hn.
  2:{ unfold lock_of in Ht. rewrite Hn in Ht. cbn in Ht. by rewrite lookup_empty in Ht. }
  assert (lock_of app name = l) as Hlo by (unfold lock_of; by rewrite Hn). rewrite Hlo in *.
  rewrite Hmu. eexists. split; [reflexivity|].
  split; [by apply locks_ok_set_lock|]. split; [done|]. split.
  - split_and!; try done. intros a Ha. rewrite leaked_set_lock. case_decide; [|done].
    subst a. unfold leaked in Ha. rewrite Hlo in Ha. by apply Hlk.
  - intros a. rewrite lock_of_set_locks. destruct (decide (name = a)) as [<-|].
    + by rewrite decide_True, Hlo.
    + by rewrite decide_False.
Qed.

Lemma release_each_spec tid lockInfo app :
  locks_ok app -> NoDup (lockInfo.*1) ->
  (forall name r, (name, r) ∈ lockInfo -> tids (lock_of app name) !! tid = Some r) ->
  exists app', release_each tid lockInfo app = Ret app' /\ locks_ok app' /\
    txLockInfo app' = txLockInfo app /\ frame app app' /\
    (forall a, tids (lock_of app' a) =
       if decide (a ∈ lockInfo.*1) then delete tid (tids (lock_of app a)) else tids (lock_of app a)).
Proof.
  revert app. induction lockInfo as [|[name r] lockInfo IH]; intros app Hl Hnd Hall; cbn.
  { exists app. split_and!; try done. }
  apply NoDup_cons in Hnd as [Hnin Hnd].
  destruct (release_one_spec tid name r app) as (app1 & -> & Hl1 & Hi1 & Hf1 & Ht1);
    [done|apply Hall; left|].
  rewrite bind_Ret_l. destruct (IH app1) as (app' & -> & Hl' & Hi' & Hf' & Ht'); [done|done| |].
  { intros n' r' Hin. rewrite Ht1, decide_False; [apply Hall; by right|].
    intros ->. apply Hnin. by apply (list_elem_of_fmap_2 fst _ (name, r')). }
  exists app'. split_and!; [done|done|congruence|by etrans|].
  intros a. rewrite Ht', Ht1. destruct (decide (a = name)) as [->|].
  - rewrite decide_False by done. by rewrite decide_True by set_solver.
  - repeat case_decide; set_solver.
Qed.

(** [releaseLocks] in whatever order the map is ranged over. *)
Lemma releaseLocks_spec `{RangeOrder} tid app :
  app_ok app ->
  exists app', releaseLocks tid app = Ret app' /\ app_ok app' /\
    committedData app' = committedData app /\ cache app' = cache app /\
    txLockInfo app' = delete tid (txLockInfo app) /\
    (forall a, leaked app a -> leaked app' a).
Proof.
  intros [Hl Ht]. set (info := default ∅ (txLockInfo app !! tid)).
  assert (forall a r, (a, r) ∈ range info <-> held app tid a = Some r) as Hin.
  { intros a r. rewrite (range_perm info), elem_of_map_to_list. unfold info, held.
    destruct (txLockInfo app !! tid); [done|]. cbn. by rewrite lookup_empty. }
  destruct (release_each_spec tid (range info) app) as (app1 & Hr & Hl1 & Hi1 & Hf1 & Ht1); [done| | |].
  { rewrite (range_perm info). apply NoDup_fst_map_to_list. }
  { intros name r Hn. rewrite <-Ht. by apply Hin. }
  unfold releaseLocks. fold info. rewrite Hr, bind_Ret_l.
  destruct Hf1 as (F1 & F2 & F3 & F4).
  eexists. split; [reflexivity|]. cbn. rewrite Hi1. split_and!; try done.
  split; [exact Hl1|]. intros t a. unfold held. cbn.
  change (lock_of (set_txLockInfo ?i ?x) a) with (lock_of x a). rewrite Ht1, lookup_delete.
  change (txLockInfo app !! t ≫= _) with (held app t a).
  destruct (decide (a ∈ (range info).*1)) as [Hm|Hm].
  - rewrite lookup_delete. destruct (decide (tid = t)); [done|apply Ht].
  - destruct (decide (tid = t)) as [<-|]; [|apply Ht]. cbn. rewrite <-Ht.
    destruct (held app tid a) as [r|] eqn:Hh; [|done]. exfalso. apply Hm.
    by apply (list_elem_of_fmap_2 fst _ (a, r)), Hin.
Qed.
