(* ===== verification/TxServer.v ===== *)
(** * TxServer: the participant of the transactions demo

    Models the participant half of [transactions-demo/server/rpc.go]
    ([ForwardCmd], [Prepare], [Commit]) over the accounts of [TxLocks], and
    the interleavings of concurrent calls.  Each call is a goroutine: a
    [ForwardCmd] is cut where it can wait for a lock and between taking the lock
    and using it; [Prepare] and [Commit] are one step each. *)
From S2P Require Import Prelude TxLocks.

Record Command : Set := mkCommand {
  Tid : string;
  Branch : string;
  Account : string;
  Method : string;
  Amount : Z;
}.

#[export] Instance Command_eq_dec : EqDecision Command.
Proof. solve_decision. Defined.

(** ** [ForwardCmd] *)

(** Lines 223-229: the maps of the transaction are made on its first command. *)
Definition make_maps (tid : string) (app : Application) : Application :=
  let app := match cache app !! tid with
             | Some _ => app
             | None => set_cache (<[tid := ∅]> (cache app)) app
             end in
  match txLockInfo app !! tid with
  | Some _ => app
  | None => set_txLockInfo (<[tid := ∅]> (txLockInfo app)) app
  end.

(** The lock the command asks for; no command asks for one otherwise. *)
Definition wants (cmd : Command) : option bool :=
  if decide (Method cmd = "DEPOSIT") then Some false
  else if decide (Method cmd = "WITHDRAW") then Some false
  else if decide (Method cmd = "BALANCE") then Some true
  else None.

Inductive phase : Set :=
  | Waiting (isRead : bool)
  | Locked
  | Finished (reply : string).

#[export] Instance phase_eq_dec : EqDecision phase.
Proof. solve_decision. Defined.

Definition ForwardCmd_begin (cmd : Command) (app : Application) : outcome (Application * phase) :=
  let app := make_maps (Tid cmd) app in
  match wants cmd with
  | None => Ret (app, Finished "")
  | Some isRead =>
      '(app, w) ← AcquireRWLock_begin (Tid cmd) (Account cmd) isRead app;
      Ret (app, match w with AcqDone => Locked | AcqWait r => Waiting r end)
  end.

Definition ForwardCmd_body (branch : string) (cmd : Command) (app : Application)
    : outcome (Application * string) :=
  if decide (Method cmd = "DEPOSIT") then Deposit (Tid cmd) (Account cmd) (Amount cmd) app
  else if decide (Method cmd = "WITHDRAW") then Withdraw (Tid cmd) (Account cmd) (Amount cmd) app
  else if decide (Method cmd = "BALANCE") then
    let res := Balance (Tid cmd) (Account cmd) app in
    Ret (app, if decide (res = NF_ABRT) then res else branch +:+ "." +:+ res)
  else Ret (app, "").

(** ** [Prepare] and [Commit] *)

(** The value the account would have after the commit of [tid]. *)
Definition tentative (app : Application) (tid acctName : string) : Z :=
  wrap64 (default 0 (committedData app !! acctName) + default 0 (cached app tid acctName)).

Definition Prepare `{RangeOrder} (tid : string) (app : Application) : bool :=
  forallb (fun p => negb (bool_decide (tentative app tid p.1 < 0)))
    (range (default ∅ (txLockInfo app !! tid))).

(** [srv.app.committedData[acctName] += change] *)
Definition apply_change (d : gmap string Z) (p : string * Z) : gmap string Z :=
  <[p.1 := wrap64 (default 0 (d !! p.1) + p.2)]> d.

Definition Commit_print `{RangeOrder} (d : gmap string Z) : string :=
  foldl (fun s p => s +:+ "Account name: " +:+ p.1 +:+ " Balance: " +:+ Itoa p.2 +:+ " ")
    "Non-zero balance: " (range d).

Definition Commit `{RangeOrder} (DoCommit : bool) (tid : string) (app : Application)
    : outcome (Application * string) :=
  let '(app, out) :=
    if DoCommit then
      let d := foldl apply_change (committedData app) (range (default ∅ (cache app !! tid))) in
      (set_committedData d app, Commit_print d)
    else (app, "") in
  app' ← releaseLocks tid (set_cache (delete tid (cache app)) app);
  Ret (app', out).

(** [Start]: the maps of a fresh participant. *)
Definition new_Application : Application :=
  {| locks := ∅; txLockInfo := ∅; committedData := ∅; cache := ∅ |}.

(** ** Interleavings

    [hist] and [log] are ghosts: the commands of a live transaction with their
    replies, and the histories of the committed ones; [prepared] is the last
    answer to [Prepare] of a transaction that has done nothing since. *)
Record participant : Set := mkParticipant {
  app : Application;
  calls : list (Command * phase);
  prepared : gmap string bool;
  hist : gmap string (list (Command * string));
  log : list (list (Command * string));
}.

Definition new_participant : participant :=
  {| app := new_Application; calls := []; prepared := ∅; hist := ∅; log := [] |}.

Inductive event : Set :=
  | EForward (cmd : Command)
  | EAcquire (i : nat)
  | EBody (i : nat)
  | EPrepare (tid : string)
  | ECommit (tid : string) (doCommit : bool).

Definition tid_hist (p : participant) (tid : string) : list (Command * string) :=
  default [] (hist p !! tid).

Definition record_reply (cmd : Command) (reply : string) (p : participant)
    : gmap string (list (Command * string)) :=
  <[Tid cmd := tid_hist p (Tid cmd) ++ [(cmd, reply)]]> (hist p).

Definition step `{RangeOrder} (branch : string) (e : event) (p : participant)
    : outcome participant :=
  match e with
  | EForward cmd =>
      '(a, ph) ← ForwardCmd_begin cmd (app p);
      Ret {| app := a; calls := calls p ++ [(cmd, ph)];
             prepared := delete (Tid cmd) (prepared p);
             hist := match ph with Finished r => record_reply cmd r p | _ => hist p end;
             log := log p |}
  | EAcquire i =>
      match calls p !! i with
      | Some (cmd, Waiting isRead) =>
          a ← AcquireRWLock_end (Tid cmd) (Account cmd) isRead (app p);
          Ret {| app := a; calls := <[i := (cmd, Locked)]> (calls p); prepared := prepared p;
                 hist := hist p; log := log p |}
      | _ => Block
      end
  | EBody i =>
      match calls p !! i with
      | Some (cmd, Locked) =>
          '(a, r) ← ForwardCmd_body branch cmd (app p);
          Ret {| app := a; calls := <[i := (cmd, Finished r)]> (calls p); prepared := prepared p;
                 hist := record_reply cmd r p; log := log p |}
      | _ => Block
      end
  | EPrepare tid =>
      Ret {| app := app p; calls := calls p;
             prepared := <[tid := Prepare tid (app p)]> (prepared p); hist := hist p; log := log p |}
  | ECommit tid doCommit =>
      '(a, _) ← Commit doCommit tid (app p);
      Ret {| app := a; calls := calls p; prepared := delete tid (prepared p);
             hist := delete tid (hist p);
             log := if doCommit then log p ++ [tid_hist p tid] else log p |}
  end.

Fixpoint steps `{RangeOrder} (branch : string) (es : list event) (p : participant)
    : outcome participant :=
  match es with
  | [] => Ret p
  | e :: es => p' ← step branch e p; steps branch es p'
  end.

(** ** What the coordinator and the client guarantee

    [client.go] waits for the reply to a command before it sends the next one
    of the transaction, and [TwoPhaseCommit] sends [Commit] only when every
    participant has answered [Prepare] with true. *)
Definition unfinished (tid : string) (c : Command * phase) : bool :=
  bool_decide (Tid c.1 = tid) && match c.2 with Finished _ => false | _ => true end.

Definition idle (p : participant) (tid : string) : bool :=
  forallb (fun c => negb (unfinished tid c)) (calls p).

Definition disciplined (p : participant) (e : event) : bool :=
  match e with
  | EForward cmd => idle p (Tid cmd)
  | EAcquire _ | EBody _ => true
  | EPrepare tid => idle p tid
  | ECommit tid doCommit =>
      idle p tid && (negb doCommit || bool_decide (prepared p !! tid = Some true))
  end.

(** The command turns a read lock into a write lock. *)
Definition upgrades (p : participant) (e : event) : bool :=
  match e with
  | EForward cmd =>
      bool_decide (wants cmd = Some false) &&
      bool_decide (held (app p) (Tid cmd) (Account cmd) = Some true)
  | _ => false
  end.

(** The runs whose events are all allowed. *)
Inductive reachable `{RangeOrder} (branch : string) (allowed : participant -> event -> bool)
    : participant -> Prop :=
  | reach_new : reachable branch allowed new_participant
  | reach_step p e p' : reachable branch allowed p -> allowed p e = true ->
      step branch e p = Ret p' -> reachable branch allowed p'.

Definition no_upgrade (p : participant) (e : event) : bool :=
  disciplined p e && negb (upgrades p e).

Fixpoint run_allowed `{RangeOrder} (branch : string) (allowed : participant -> event -> bool)
    (es : list event) (p : participant) : bool :=
  match es with
  | [] => true
  | e :: es =>
      allowed p e &&
      match step branch e p with Ret p' => run_allowed branch allowed es p' | _ => false end
  end.

Lemma reachable_run `{RangeOrder} branch allowed es p :
  reachable branch allowed p -> run_allowed branch allowed es p = true ->
  reachable branch allowed (value_or p (steps branch es p)).
Proof.
  revert p. induction es as [|e es IH]; intros p Hp Hr; cbn in *; [done|].
  apply andb_prop in Hr as [Ha Hr]. destruct (step branch e p) as [p'| |] eqn:Hs; [|done..].
  rewrite bind_Ret_l. assert (reachable branch allowed p') as Hp' by (by eapply reach_step).
  specialize (IH p' Hp' Hr). destruct (steps branch es p'); [exact IH|exact Hp..].
Qed.
