(* ===== verification/TxSpec.v ===== *)
(** * TxSpec: the abstract bank, and the participant's operations against it

    The specification runs the commands of a transaction one after the other,
    alone, directly on the balances: no locks, no caches, no deltas.  The file
    relates each operation of [TxLocks] and [TxServer] to it. *)
From Stdlib Require Import Ascii.
From S2P Require Import Prelude TxLocks TxServer.

(** ** The specification *)

Definition balance_reply (branch acctName : string) (v : Z) : string :=
  branch +:+ "." +:+ acctName +:+ " = " +:+ Itoa v.

Definition spec_cmd (branch : string) (cmd : Command) (d : gmap string Z)
    : gmap string Z * string :=
  let a := Account cmd in
  if decide (Method cmd = "DEPOSIT") then
    (<[a := wrap64 (default 0 (d !! a) + Amount cmd)]> d, OK)
  else if decide (Method cmd = "WITHDRAW") then
    match d !! a with
    | None => (d, NF_ABRT)
    | Some v => (<[a := wrap64 (v - Amount cmd)]> d, OK)
    end
  else if decide (Method cmd = "BALANCE") then
    (d, match d !! a with None => NF_ABRT | Some v => balance_reply branch a v end)
  else (d, "").

Fixpoint spec_run (branch : string) (cmds : list Command) (d : gmap string Z)
    : gmap string Z * list string :=
  match cmds with
  | [] => (d, [])
  | cmd :: cmds =>
      let '(d', r) := spec_cmd branch cmd d in
      let '(d'', rs) := spec_run branch cmds d' in
      (d'', r :: rs)
  end.

(** Replaying committed transactions one by one; [None] when a reply differs
    from the recorded one. *)
Fixpoint replay (branch : string) (l : list (list (Command * string))) (d : gmap string Z)
    : option (gmap string Z) :=
  match l with
  | [] => Some d
  | h :: l =>
      let '(d', rs) := spec_run branch (h.*1) d in
      if decide (rs = h.*2) then replay branch l d' else None
  end.

Lemma spec_run_snoc branch cmds cmd d :
  spec_run branch (cmds ++ [cmd]) d =
    let '(d', rs) := spec_run branch cmds d in
    let '(d'', r) := spec_cmd branch cmd d' in (d'', rs ++ [r]).
Proof.
  revert d. induction cmds as [|c cmds IH]; intros d; cbn.
  { by destruct (spec_cmd branch cmd d). }
  destruct (spec_cmd branch c d) as [d1 r1]. rewrite IH.
  destruct (spec_run branch cmds d1) as [d2 rs]. by destruct (spec_cmd branch cmd d2).
Qed.

Lemma replay_snoc branch l h d d' rs :
  replay branch l d = Some d' -> spec_run branch (h.*1) d' = (rs, h.*2) ->
  replay branch (l ++ [h]) d = Some rs.
Proof.
  revert d. induction l as [|h' l IH]; cbn; intros d Hr Hs.
  - injection Hr as ->. rewrite Hs. by rewrite decide_True.
  - destruct (spec_run branch h'.*1 d) as [d1 rs1]. case_decide; [|done]. by apply IH.
Qed.

(** A command reads and writes its own account only, and only when it is one
    of the three supported. *)
Lemma spec_cmd_frame branch cmd d a :
  wants cmd = None \/ a <> Account cmd -> (spec_cmd branch cmd d).1 !! a = d !! a.
Proof.
  unfold spec_cmd, wants. intros H.
  destruct (decide (Method cmd = "DEPOSIT")); cbn;
    [rewrite lookup_insert_ne; [done|naive_solver]|].
  destruct (decide (Method cmd = "WITHDRAW")); cbn.
  - destruct (d !! Account cmd); cbn; [rewrite lookup_insert_ne; [done|naive_solver]|done].
  - by destruct (decide (Method cmd = "BALANCE")).
Qed.

Lemma spec_cmd_local branch cmd d1 d2 :
  (wants cmd <> None -> d1 !! Account cmd = d2 !! Account cmd) ->
  (spec_cmd branch cmd d1).2 = (spec_cmd branch cmd d2).2 /\
  (wants cmd <> None ->
   (spec_cmd branch cmd d1).1 !! Account cmd = (spec_cmd branch cmd d2).1 !! Account cmd).
Proof.
  unfold spec_cmd, wants. intros H.
  destruct (decide (Method cmd = "DEPOSIT")); cbn;
    [rewrite H by done; split; [done|by rewrite !lookup_insert_eq]|].
  destruct (decide (Method cmd = "WITHDRAW")); cbn.
  - rewrite H by done. destruct (d2 !! Account cmd) eqn:E; cbn; [by rewrite !lookup_insert_eq|].
    split; [done|]. intros _. by rewrite H, E by done.
  - destruct (decide (Method cmd = "BALANCE")); [|done]. cbn. by rewrite H.
Qed.

(** The accounts a list of commands works on. *)
Definition works_on (cmds : list Command) (a : string) : Prop :=
  exists cmd, cmd ∈ cmds /\ wants cmd <> None /\ Account cmd = a.

Lemma works_on_cons cmd cmds a :
  works_on (cmd :: cmds) a <-> (wants cmd <> None /\ Account cmd = a) \/ works_on cmds a.
Proof.
  unfold works_on. split.
  - intros (c & [->|Hc]%elem_of_cons & ? & ?); [by left|right; by exists c].
  - intros [[? ?]|(c & ? & ? & ?)]; [exists cmd|exists c]; set_solver.
Qed.

Lemma works_on_app cmds cmds' a :
  works_on (cmds ++ cmds') a <-> works_on cmds a \/ works_on cmds' a.
Proof.
  induction cmds as [|c cmds IH]; cbn; [|rewrite !works_on_cons, IH; tauto].
  split; [tauto|]. intros [(c & Hc & _)|]; [by apply not_elem_of_nil in Hc|done].
Qed.

Lemma spec_run_frame branch cmds d a :
  ~ works_on cmds a -> (spec_run branch cmds d).1 !! a = d !! a.
Proof.
  revert d. induction cmds as [|cmd cmds IH]; intros d Ha; cbn; [done|].
  rewrite works_on_cons in Ha. pose proof (spec_cmd_frame branch cmd d a) as Hf.
  destruct (spec_cmd branch cmd d) as [d' r]. cbn in Hf.
  specialize (IH d'). destruct (spec_run branch cmds d') as [d'' rs]. cbn in *.
  rewrite IH by tauto. apply Hf. destruct (wants cmd) eqn:Hw; [|by left]. right. intros ->.
  apply Ha. left. by split.
Qed.

(** Two databases that agree on those accounts give the same replies and agree
    on them afterwards. *)
Lemma spec_run_local branch cmds d1 d2 :
  (forall a, works_on cmds a -> d1 !! a = d2 !! a) ->
  (spec_run branch cmds d1).2 = (spec_run branch cmds d2).2 /\
  forall a, d1 !! a = d2 !! a \/ works_on cmds a ->
    (spec_run branch cmds d1).1 !! a = (spec_run branch cmds d2).1 !! a.
Proof.
  revert d1 d2. induction cmds as [|cmd cmds IH]; intros d1 d2 Hd; cbn.
  { split; [done|]. intros a [?|(c & Hc & _)]; [done|by apply not_elem_of_nil in Hc]. }
  destruct (spec_cmd_local branch cmd d1 d2) as [Hr Ha].
  { intros Hw. apply Hd, works_on_cons. by left. }
  assert (forall a, d1 !! a = d2 !! a ->
    (spec_cmd branch cmd d1).1 !! a = (spec_cmd branch cmd d2).1 !! a) as Hall.
  { intros a Heq. destruct (decide (wants cmd <> None /\ a = Account cmd)) as [[Hw ->]|Hne].
    - by apply Ha.
    - assert (wants cmd = None \/ a <> Account cmd)
        by (destruct (wants cmd); [right; intros ->; apply Hne; done|by left]).
      by rewrite !spec_cmd_frame. }
  destruct (spec_cmd branch cmd d1) as [e1 r1], (spec_cmd branch cmd d2) as [e2 r2]. cbn in *.
  destruct (IH e1 e2) as [Hr' Ha'].
  { intros a Hw. apply Hall, Hd, works_on_cons. by right. }
  destruct (spec_run branch cmds e1) as [f1 s1], (spec_run branch cmds e2) as [f2 s2]. cbn in *.
  split; [congruence|]. intros a [Heq|Hw]; apply Ha'.
  - left. by apply Hall.
  - apply works_on_cons in Hw as [[Hw <-]|Hw]; [left; by apply Ha|by right].
Qed.

(** ** The balances as a transaction sees them *)

Definition view_entry (c ch : option Z) : option Z :=
  match c, ch with
  | None, None => None
  | _, _ => Some (wrap64 (default 0 c + default 0 ch))
  end.

Definition tx_view (app : Application) (tid : string) : gmap string Z :=
  merge view_entry (committedData app) (default ∅ (cache app !! tid)).

Lemma lookup_tx_view app tid a :
  tx_view app tid !! a = view_entry (committedData app !! a) (cached app tid a).
Proof.
  unfold tx_view, cached. rewrite lookup_merge. unfold diag_None.
  destruct (cache app !! tid) as [c|]; cbn; rewrite ?lookup_empty;
    [destruct (committedData app !! a), (c !! a)|destruct (committedData app !! a)]; done.
Qed.

Fixpoint has_eq (s : string) : bool :=
  match s with
  | EmptyString => false
  | String c s => Ascii.eqb c "="%char || has_eq s
  end.

Lemma has_eq_app s s' : has_eq (s +:+ s') = has_eq s || has_eq s'.
Proof. induction s as [|c s IH]; [done|].
  change (Ascii.eqb c "=" || has_eq (s +:+ s') = Ascii.eqb c "=" || has_eq s || has_eq s').
  by rewrite IH, orb_assoc. Qed.

(** The line of a balance is never mistaken for the error reply. *)
Lemma balance_line_not_NF a s : a +:+ " = " +:+ s <> NF_ABRT.
Proof.
  intros H. assert (has_eq (a +:+ " = " +:+ s) = true) as Ht.
  { rewrite has_eq_app. cbn. by rewrite orb_true_r. }
  by rewrite H in Ht.
Qed.

Lemma cached_cache_store tid a v app app' t a' :
  cache_store tid a v app = Ret app' ->
  cached app' t a' = if decide (t = tid /\ a' = a) then Some v else cached app t a'.
Proof.
  unfold cache_store, cached. destruct (cache app !! tid) as [c|] eqn:Hc; [|done].
  intros [= <-]. cbn. rewrite lookup_insert. destruct (decide (tid = t)) as [<-|].
  - rewrite Hc. cbn. rewrite lookup_insert. repeat case_decide; naive_solver.
  - by rewrite decide_False by naive_solver.
Qed.

(** What using a lock leaves alone. *)
Definition body_frame (cmd : Command) (app app' : Application) : Prop :=
  locks app' = locks app /\ txLockInfo app' = txLockInfo app /\
  committedData app' = committedData app /\
  (forall t, t <> Tid cmd -> cache app' !! t = cache app !! t) /\
  is_Some (cache app' !! Tid cmd) /\
  (forall a, a <> Account cmd -> cached app' (Tid cmd) a = cached app (Tid cmd) a) /\
  (wants cmd = Some true -> app' = app).

Lemma cache_store_frame cmd v app :
  wants cmd = Some false -> is_Some (cache app !! Tid cmd) ->
  exists app', cache_store (Tid cmd) (Account cmd) v app = Ret app' /\ body_frame cmd app app' /\
    tx_view app' (Tid cmd) =
      <[Account cmd := wrap64 (default 0 (committedData app !! Account cmd) + v)]>
        (tx_view app (Tid cmd)).
Proof.
  intros Hw [c Hc].
  destruct (cache_store (Tid cmd) (Account cmd) v app) as [app'| |] eqn:Hs;
    [|by unfold cache_store in Hs; rewrite Hc in Hs..].
  exists app'. split; [done|].
  pose proof (fun t a => cached_cache_store _ _ _ _ _ t a Hs) as Hcs.
  unfold cache_store in Hs. rewrite Hc in Hs. injection Hs as Hs.
  split.
  - rewrite <-Hs. split_and!; try done; cbn.
    + intros t Ht. by rewrite lookup_insert_ne.
    + rewrite lookup_insert_eq. by eexists.
    + intros a Ha. rewrite Hs, Hcs. by rewrite decide_False by naive_solver.
    + congruence.
  - apply map_eq. intros a. rewrite lookup_tx_view, Hcs, <-Hs. cbn. rewrite lookup_insert.
    destruct (decide (Account cmd = a)) as [<-|].
    + rewrite decide_True by done. unfold view_entry. by case_match.
    + rewrite decide_False by naive_solver. by rewrite lookup_tx_view.
Qed.

(** Every operation, on every branch, does what the specification says. *)
Lemma body_spec branch cmd app :
  wants cmd <> None -> is_Some (cache app !! Tid cmd) ->
  exists app' r, ForwardCmd_body branch cmd app = Ret (app', r) /\ body_frame cmd app app' /\
    spec_cmd branch cmd (tx_view app (Tid cmd)) = (tx_view app' (Tid cmd), r).
Proof.
  intros Hw Hc. unfold ForwardCmd_body, spec_cmd, Deposit, Withdraw, Balance.
  pose proof (lookup_tx_view app (Tid cmd) (Account cmd)) as Hv.
  destruct (decide (Method cmd = "DEPOSIT")) as [Hm|Hm];
    [|destruct (decide (Method cmd = "WITHDRAW")) as [Hm'|Hm'];
      [|destruct (decide (Method cmd = "BALANCE")) as [Hm''|Hm'']]].
  - assert (wants cmd = Some false) as Hw' by (unfold wants; by rewrite decide_True).
    match goal with |- context [cache_store _ _ ?v app] =>
      destruct (cache_store_frame cmd v app Hw' Hc) as (app' & -> & Hf & Hv') end.
    rewrite bind_Ret_l. eexists _, _. split; [reflexivity|]. split; [done|].
    rewrite Hv', Hv. f_equal. f_equal. unfold view_entry.
    destruct (committedData app !! Account cmd), (cached app (Tid cmd) (Account cmd)); cbn;
      rewrite ?wrap64_add_l, ?wrap64_add_r; f_equal; lia.
  - assert (wants cmd = Some false) as Hw' by (unfold wants; by rewrite decide_False, decide_True).
    destruct (cache_store_frame cmd
      (wrap64 (default 0 (cached app (Tid cmd) (Account cmd)) - Amount cmd)) app Hw' Hc)
      as (app' & Hs & Hf & Hv').
    rewrite Hv.
    destruct (committedData app !! Account cmd) as [c|] eqn:Hcd,
      (cached app (Tid cmd) (Account cmd)) as [ch|]; cbv beta iota zeta; cbn [view_entry];
      [..|by eexists _, _; split; [reflexivity|]; split; [by split_and!|]].
    all: eexists _, _; (split; [etrans; [exact (f_equal (fun m => m ≫= fun a => Ret (a, OK)) Hs)
      |reflexivity]|]); (split; [done|]); rewrite Hv'; f_equal; f_equal;
      cbn; rewrite <-?Z.add_opp_r, ?wrap64_add_l, ?wrap64_add_r; f_equal; lia.
  - rewrite Hv. eexists app, _. split; [reflexivity|]. split; [by split_and!|]. f_equal.
    destruct (committedData app !! Account cmd), (cached app (Tid cmd) (Account cmd));
      cbn [view_entry]; first [by rewrite decide_False by apply balance_line_not_NF
                              |by rewrite decide_True].
  - unfold wants in Hw. by rewrite !decide_False in Hw.
Qed.

(** ** The start of a command *)

Lemma decide_ext_if {A} (P Q : Prop) `{Decision P, Decision Q} (x y : A) :
  (P <-> Q) -> (if decide P then x else y) = (if decide Q then x else y).
Proof. intros HPQ. repeat case_decide; tauto. Qed.

Lemma make_entry {A} (m : gmap string A) k x t :
  is_Some (match m !! k with Some _ => m | None => <[k := x]> m end !! t) <->
  t = k \/ is_Some (m !! t).
Proof.
  destruct (m !! k) eqn:E.
  - split; [by right|]. intros [->|?]; [by rewrite E|done].
  - rewrite lookup_insert_is_Some. destruct (decide (k = t)); naive_solver.
Qed.

Lemma make_maps_spec tid app :
  app_ok app ->
  let app' := make_maps tid app in
  app_ok app' /\ locks app' = locks app /\ committedData app' = committedData app /\
  (forall t a, held app' t a = held app t a) /\ (forall t a, cached app' t a = cached app t a) /\
  (forall t, is_Some (cache app' !! t) <-> t = tid \/ is_Some (cache app !! t)) /\
  (forall t, is_Some (txLockInfo app' !! t) <-> t = tid \/ is_Some (txLockInfo app !! t)) /\
  (forall a, leaked app a -> leaked app' a).
Proof.
  intros [Hl Ht] app'.
  assert (locks app' = locks app) as Hlk by (unfold app', make_maps; by repeat case_match).
  assert (forall a, lock_of app' a = lock_of app a) as Hlo by (unfold lock_of; by rewrite Hlk).
  assert (committedData app' = committedData app)
    by (unfold app', make_maps; by repeat case_match).
  assert (forall t a, held app' t a = held app t a) as Hh.
  { intros t a. unfold held, app', make_maps.
    destruct (cache app !! tid); cbn; destruct (txLockInfo app !! tid) eqn:E; cbn; try done;
      rewrite lookup_insert; case_decide; try done; subst; rewrite E; cbn; by rewrite lookup_empty. }
  assert (forall t a, cached app' t a = cached app t a).
  { intros t a. unfold cached, app', make_maps.
    destruct (cache app !! tid) eqn:E; cbn; destruct (txLockInfo app !! tid); cbn; try done;
      rewrite lookup_insert; case_decide; try done; subst; rewrite E; cbn; by rewrite lookup_empty. }
  split_and!; try done.
  - split; [intros a; rewrite Hlo; apply Hl|]. intros t a. by rewrite Hh, Hlo.
  - intros t. assert (cache app' = match cache app !! tid with
      Some _ => cache app | None => <[tid := ∅]> (cache app) end) as ->
      by (unfold app', make_maps; by repeat case_match).
    apply make_entry.
  - intros t. assert (txLockInfo app' = match txLockInfo app !! tid with
      Some _ => txLockInfo app | None => <[tid := ∅]> (txLockInfo app) end) as ->
      by (unfold app', make_maps; destruct (cache app !! tid); cbn;
        by destruct (txLockInfo app !! tid)).
    apply make_entry.
  - intros a. unfold leaked. by rewrite Hlo.
Qed.

(** What a phase promises the rest of the call. *)
Definition call_ok (app : Application) (c : Command * phase) : Prop :=
  match c.2 with
  | Finished _ => True
  | Waiting r =>
      wants c.1 = Some r /\ is_Some (cache app !! Tid c.1) /\ is_Some (txLockInfo app !! Tid c.1)
  | Locked =>
      wants c.1 <> None /\ is_Some (cache app !! Tid c.1) /\ is_Some (txLockInfo app !! Tid c.1) /\
      exists r, held app (Tid c.1) (Account c.1) = Some r /\ (wants c.1 = Some false -> r = false)
  end.

Lemma ForwardCmd_begin_spec cmd app :
  app_ok app ->
  exists app' ph, ForwardCmd_begin cmd app = Ret (app', ph) /\ app_ok app' /\
    committedData app' = committedData app /\
    (forall t a, cached app' t a = cached app t a) /\
    (forall t, is_Some (cache app !! t) -> is_Some (cache app' !! t)) /\
    (forall t, is_Some (txLockInfo app !! t) -> is_Some (txLockInfo app' !! t)) /\
    (forall t a, held app' t a =
       if decide (t = Tid cmd /\ a = Account cmd /\ wants cmd = Some false /\ held app t a = Some true)
       then None else held app t a) /\
    (forall a, leaked app a -> leaked app' a) /\
    call_ok app' (cmd, ph) /\
    match ph with Finished r => wants cmd = None /\ r = "" | _ => wants cmd <> None end.
Proof.
  intros Hok. destruct (make_maps_spec (Tid cmd) app Hok) as (Hok1 & _ & Hc1 & Hh1 & Hca1 & Hic & Hit & Hlk).
  unfold ForwardCmd_begin. set (app1 := make_maps (Tid cmd) app) in *.
  destruct (wants cmd) as [isRead|] eqn:Hw.
  2:{ eexists _, _. split; [reflexivity|]. split_and!; try done.
      - intros t Hs. apply Hic. by right.
      - intros t Hs. apply Hit. by right.
      - intros t a. by rewrite Hh1, decide_False by (intros (_ & _ & ? & _); congruence). }
  destruct (begin_spec (Tid cmd) (Account cmd) isRead app1 Hok1)
    as (app' & w & -> & Hok' & (F1 & F2 & F3 & F4) & Hh' & Hphase).
  rewrite bind_Ret_l. eexists _, _. split; [reflexivity|].
  assert (forall t a, cached app' t a = cached app t a) as Hca
    by (intros t a; rewrite <-Hca1; unfold cached; by rewrite F2).
  split_and!; try done; try congruence.
  - intros t Hs. rewrite F2, Hic. by right.
  - intros t Hs. rewrite F3, Hit. by right.
  - intros t a. rewrite Hh', Hh1. apply decide_ext_if.
    split; [intros (? & ? & -> & ?)|intros (? & ? & [= ->] & ?)]; by split_and!.
  - intros a Ha. by apply F4, Hlk.
  - unfold call_ok. destruct w; cbn; rewrite F2, F3, Hic, Hit.
    + split_and!; [congruence|by left|by left|]. by eexists.
    + destruct Hphase as (-> & _). by split_and!; [|left|left].
  - destruct w; congruence.
Qed.

(** ** [Commit] *)

Lemma apply_changes_lookup (l : list (string * Z)) d a :
  NoDup (l.*1) ->
  foldl apply_change d l !! a =
    match list_to_map (M:=gmap string Z) l !! a with
    | Some ch => Some (wrap64 (default 0 (d !! a) + ch))
    | None => d !! a
    end.
Proof.
  revert d. induction l as [|[k v] l IH]; intros d Hnd; cbn; [by rewrite lookup_empty|].
  apply NoDup_cons in Hnd as [Hk Hnd]. rewrite IH by done. unfold apply_change. cbn.
  rewrite !lookup_insert. destruct (decide (k = a)) as [<-|]; [|done].
  by rewrite (not_elem_of_list_to_map_1 l k Hk).
Qed.

(** The balances after a commit are the balances as the transaction saw them. *)
Lemma commit_is_view `{RangeOrder} tid app :
  map_Forall (fun _ v => int64_range v) (committedData app) ->
  foldl apply_change (committedData app) (range (default ∅ (cache app !! tid))) = tx_view app tid.
Proof.
  intros Hr. apply map_eq. intros a. set (c := default ∅ (cache app !! tid)).
  assert (NoDup (range c).*1) as Hnd by (rewrite range_perm; apply NoDup_fst_map_to_list).
  rewrite apply_changes_lookup by done. rewrite lookup_tx_view.
  rewrite (list_to_map_proper (range c) (map_to_list c)) by (try done; by rewrite range_perm).
  rewrite list_to_map_to_list.
  assert (c !! a = cached app tid a) as ->.
  { unfold c, cached. destruct (cache app !! tid); [done|]. cbn. by rewrite lookup_empty. }
  unfold view_entry. destruct (cached app tid a), (committedData app !! a) eqn:E; cbn; try done.
  by rewrite Z.add_0_r, wrap64_id by exact (Hr _ _ E).
Qed.

Lemma Commit_spec `{RangeOrder} (doCommit : bool) tid app :
  app_ok app -> map_Forall (fun _ v => int64_range v) (committedData app) ->
  exists app' out, Commit doCommit tid app = Ret (app', out) /\ app_ok app' /\
    committedData app' = (if doCommit then tx_view app tid else committedData app) /\
    cache app' = delete tid (cache app) /\ txLockInfo app' = delete tid (txLockInfo app) /\
    (forall a, leaked app a -> leaked app' a).
Proof.
  intros Hok Hr. unfold Commit. destruct doCommit.
  - rewrite commit_is_view by done. set (d := tx_view app tid).
    destruct (releaseLocks_spec tid (set_cache (delete tid (cache (set_committedData d app)))
      (set_committedData d app))) as (app' & -> & H'); [exact Hok|].
    rewrite bind_Ret_l. eexists _, _. split; [reflexivity|]. exact H'.
  - destruct (releaseLocks_spec tid (set_cache (delete tid (cache app)) app)) as (app' & -> & H');
      [exact Hok|]. rewrite bind_Ret_l. eexists _, _. split; [reflexivity|]. exact H'.
Qed.

Lemma tx_view_range app tid :
  map_Forall (fun _ v => int64_range v) (committedData app) ->
  map_Forall (fun _ v => int64_range v) (tx_view app tid).
Proof.
  intros Hr a v. rewrite lookup_tx_view. unfold view_entry.
  destruct (committedData app !! a), (cached app tid a); intros [= <-]; apply wrap64_range.
Qed.

(** [Prepare] says yes exactly when no account it locked would go below zero. *)
Lemma Prepare_true `{RangeOrder} tid app :
  Prepare tid app = true <-> forall a r, held app tid a = Some r -> 0 <= tentative app tid a.
Proof.
  unfold Prepare. rewrite <-Is_true_true, forallb_True, Forall_forall. unfold held. split.
  - intros Hall a r Ha. assert ((a, r) ∈ range (default ∅ (txLockInfo app !! tid))) as Hin.
    { rewrite range_perm, elem_of_map_to_list. by destruct (txLockInfo app !! tid). }
    specialize (Hall _ Hin). cbn in Hall. case_bool_decide; [done|lia].
  - intros Hall [a r] Hin. rewrite range_perm, elem_of_map_to_list in Hin. cbn.
    case_bool_decide as Hlt; [|done].
    destruct (txLockInfo app !! tid) eqn:E; cbn in *; [|by rewrite lookup_empty in Hin].
    specialize (Hall a r Hin). lia.
Qed.
