(* ===== verification/TxProps.v ===== *)
(** * TxProps: what the participant of the transactions demo guarantees

    The invariant of every disciplined run of [TxServer], and the theorems on
    locking, isolation, solvency and serializability that follow from it. *)
From S2P Require Import Prelude TxLocks TxServer TxSpec.

(** ** The invariant *)

Lemma idle_spec p t :
  idle p t = true <-> forall i c, calls p !! i = Some c -> unfinished t c = false.
Proof.
  unfold idle. rewrite <-Is_true_true, forallb_True, Forall_lookup.
  split; intros Hall i c Hc; specialize (Hall i c Hc); by destruct (unfinished t c).
Qed.

Lemma exclusive app t t' a r :
  app_ok app -> held app t a = Some false -> held app t' a = Some r -> t' = t.
Proof. intros [Hl Ht]. rewrite !Ht. by apply lock_ok_exclusive. Qed.

Record inv (p : participant) : Prop := {
  inv_app : app_ok (app p);
  inv_seq : forall i j c c' t, calls p !! i = Some c -> calls p !! j = Some c' ->
    unfinished t c = true -> unfinished t c' = true -> i = j;
  inv_calls : forall i c, calls p !! i = Some c -> call_ok (app p) c;
  inv_cache : forall t a v, cached (app p) t a = Some v -> held (app p) t a = Some false;
  inv_data : map_Forall (fun _ v => 0 <= v /\ int64_range v) (committedData (app p));
  inv_prep : forall t, prepared p !! t = Some true ->
    idle p t = true /\ forall a r, held (app p) t a = Some r -> 0 <= tentative (app p) t a;
}.

Lemma inv_range p : inv p -> map_Forall (fun _ v => int64_range v) (committedData (app p)).
Proof. intros Hi a v Hv. by apply (inv_data p Hi a v Hv). Qed.

Lemma call_ok_mono app app' c :
  call_ok app c ->
  (unfinished (Tid c.1) c = true ->
   (is_Some (cache app !! Tid c.1) -> is_Some (cache app' !! Tid c.1)) /\
   (is_Some (txLockInfo app !! Tid c.1) -> is_Some (txLockInfo app' !! Tid c.1)) /\
   held app' (Tid c.1) (Account c.1) = held app (Tid c.1) (Account c.1)) ->
  call_ok app' c.
Proof.
  unfold call_ok, unfinished. destruct c as [cmd []]; cbn; rewrite ?bool_decide_true by done; cbn.
  - intros (Hw & Hc & Ht) (Hc' & Ht' & _); [done|]. auto.
  - intros (Hw & Hc & Ht & Hr) (Hc' & Ht' & Hh); [done|]. rewrite Hh. auto.
  - done.
Qed.

Lemma unfinished_Tid t c : unfinished t c = true -> Tid c.1 = t.
Proof. unfold unfinished. intros [H _]%andb_prop. by apply bool_decide_eq_true in H. Qed.

Lemma inv_new : inv new_participant.
Proof. by split. Qed.

(** A call in progress and the lock it holds, after a change of the call [i]. *)
Lemma seq_insert p i c0 c1 :
  inv p -> calls p !! i = Some c0 ->
  (forall t, unfinished t c1 = true -> unfinished t c0 = true) ->
  forall j k c c' t, <[i := c1]> (calls p) !! j = Some c -> <[i := c1]> (calls p) !! k = Some c' ->
    unfinished t c = true -> unfinished t c' = true -> j = k.
Proof.
  intros Hi Hc0 Hun j k c c' t Hj Hk Uc Uc'.
  apply list_lookup_insert_Some in Hj as [(-> & <- & _)|[Hj0 Hj]];
    apply list_lookup_insert_Some in Hk as [(-> & <- & _)|[Hk0 Hk]]; try done;
    eapply (inv_seq p Hi _ _ _ _ t); eauto.
Qed.

Lemma idle_insert p i c0 c1 t :
  calls p !! i = Some c0 ->
  (forall t, unfinished t c1 = true -> unfinished t c0 = true) ->
  idle p t = true ->
  forall j c, <[i := c1]> (calls p) !! j = Some c -> unfinished t c = false.
Proof.
  rewrite idle_spec. intros Hc0 Hun Hid j c.
  intros [(-> & <- & _)|[_ Hj]]%list_lookup_insert_Some; [|by eapply Hid].
  specialize (Hid _ _ Hc0). destruct (unfinished t c1) eqn:E; [|done]. by rewrite (Hun _ E) in Hid.
Qed.

Lemma no_upgrade_disciplined p e : no_upgrade p e = true -> disciplined p e = true.
Proof. by intros [? _]%andb_prop. Qed.

(** ** Every step preserves it *)

Section steps.
Context `{RangeOrder} (branch : string).

Lemma inv_EForward cmd p :
  inv p -> idle p (Tid cmd) = true ->
  exists p', step branch (EForward cmd) p = Ret p' /\ inv p'.
Proof.
  intros Hi Hid. cbn.
  destruct (ForwardCmd_begin_spec cmd (app p) (inv_app p Hi)) as
    (app' & ph & -> & Hok & Hc & Hca & Hic & Hit & Hh & Hlk & Hcall & Hph).
  rewrite bind_Ret_l. eexists. split; [reflexivity|].
  pose proof (proj1 (idle_spec _ _) Hid) as Hid'.
  assert (forall t a, t <> Tid cmd -> held app' t a = held (app p) t a) as Hne
    by (intros t a Ht; rewrite Hh, decide_False; [done|by intros [? _]]).
  split; cbn -[idle].
  - done.
  - intros i j c c' t Hc1 Hc2 U1 U2.
    assert (forall k d, (calls p ++ [(cmd, ph)]) !! k = Some d -> unfinished t d = true ->
      calls p !! k = Some d /\ t <> Tid cmd \/ (k = length (calls p) /\ t = Tid cmd)) as Hcase.
    { intros k d [Hk|[Hk Hd]]%lookup_app_Some Ud.
      - left. split; [done|]. intros ->. by rewrite (Hid' _ _ Hk) in Ud.
      - apply list_lookup_singleton_Some in Hd as [Hz <-]. right. split; [lia|].
        by apply unfinished_Tid in Ud. }
    destruct (Hcase _ _ Hc1 U1) as [[? ?]|[-> ?]], (Hcase _ _ Hc2 U2) as [[? ?]|[-> ?]]; try done.
    by eapply (inv_seq p Hi _ _ _ _ t).
  - intros i c [Hk|[Hk Hd]]%lookup_app_Some.
    + apply (call_ok_mono (app p)); [by eapply inv_calls|]. intros U. split_and!; [auto..|].
      apply Hne. intros Heq. rewrite Heq in U. by rewrite (Hid' _ _ Hk) in U.
    + by apply list_lookup_singleton_Some in Hd as [_ <-].
  - intros t a v. rewrite Hca, Hh. intros Hv%(inv_cache p Hi). rewrite Hv.
    rewrite decide_False; [done|]. by intros (_ & _ & _ & ?).
  - rewrite Hc. apply (inv_data p Hi).
  - intros t [Ht Hp]%lookup_delete_Some. destruct (inv_prep p Hi t Hp) as [Hidt Hall]. split.
    + apply idle_spec. cbn. intros i c [Hk|[Hk Hd]]%lookup_app_Some.
      * by apply (proj1 (idle_spec _ _) Hidt i).
      * apply list_lookup_singleton_Some in Hd as [_ <-]. unfold unfinished. cbn.
        by rewrite bool_decide_false.
    + intros a r. rewrite Hne by done. unfold tentative. rewrite Hc, Hca. apply Hall.
Qed.

Lemma inv_EAcquire i p :
  inv p -> step branch (EAcquire i) p = Block \/
  exists p', step branch (EAcquire i) p = Ret p' /\ inv p'.
Proof.
  intros Hi. cbn. destruct (calls p !! i) as [[cmd [isRead| |]]|] eqn:Hc0; try (by left).
  destruct (inv_calls p Hi _ _ Hc0) as (Hw & Hca & Hin). cbn in *.
  destruct (end_no_crash (Tid cmd) (Account cmd) isRead (app p) Hin) as [->|[app' Hend]]; [by left|].
  right. rewrite Hend, bind_Ret_l. eexists. split; [reflexivity|].
  pose proof (end_spec _ _ _ _ _ (inv_app p Hi) Hend) as (Hok & (F1 & F2 & F3 & F4) & Hh).
  assert (forall t r, held (app p) t (Account cmd) = Some r -> r = false -> False) as Hfree.
  { intros t r Hr ->. rewrite end_blocked in Hend; [done|apply (inv_app p Hi)|].
    left. exists t, false. auto. }
  assert (forall t, unfinished t (cmd, Locked) = true -> unfinished t (cmd, Waiting isRead) = true)
    as Hun by done.
  split; cbn -[idle].
  - done.
  - by apply (seq_insert p i (cmd, Waiting isRead)).
  - intros j c [(-> & <- & _)|[Hne Hj]]%list_lookup_insert_Some.
    + cbn. rewrite F2, F3, Hh, decide_True by done. split_and!; try done; [by rewrite Hw|].
      exists isRead. split; [done|]. rewrite Hw. by intros [= ->].
    + apply (call_ok_mono (app p)); [by eapply inv_calls|]. intros U.
      rewrite F2, F3. split_and!; [done..|]. rewrite Hh, decide_False; [done|].
      intros [Ht _]. apply Hne. apply (inv_seq p Hi _ _ _ _ (Tid c.1) Hc0 Hj); [|done].
      unfold unfinished. cbn. by rewrite bool_decide_true.
  - intros t a v. unfold cached. rewrite F2. intros Hv%(inv_cache p Hi). rewrite Hh.
    case_decide as Hd; [|done]. destruct Hd as [-> ->]. by destruct (Hfree _ _ Hv).
  - rewrite F1. apply (inv_data p Hi).
  - intros t Hp. destruct (inv_prep p Hi t Hp) as [Hidt Hall]. split.
    + apply idle_spec. by apply (idle_insert p i (cmd, Waiting isRead)).
    + intros a r. rewrite Hh, decide_False; [unfold tentative, cached; rewrite F1, F2; apply Hall|].
      intros [-> _]. pose proof (proj1 (idle_spec _ _) Hidt _ _ Hc0) as U.
      unfold unfinished in U. cbn in U. by rewrite bool_decide_true in U.
Qed.

Lemma held_body cmd app app' t a : body_frame cmd app app' -> held app' t a = held app t a.
Proof. intros (_ & Hi & _). unfold held. by rewrite Hi. Qed.

Lemma app_ok_body cmd app app' : body_frame cmd app app' -> app_ok app -> app_ok app'.
Proof.
  intros Hf [Hl Ht]. pose proof Hf as (Hlk & _).
  assert (forall a, lock_of app' a = lock_of app a) as Hlo by (unfold lock_of; by rewrite Hlk).
  split; [intros a; rewrite Hlo; apply Hl|]. intros t a. by rewrite (held_body _ _ _ _ _ Hf), Hlo.
Qed.

Lemma cached_body cmd app app' t a :
  body_frame cmd app app' -> t <> Tid cmd \/ a <> Account cmd -> cached app' t a = cached app t a.
Proof.
  intros (_ & _ & _ & Hot & _ & Hoa & _) Hne. destruct (decide (t = Tid cmd)) as [->|Ht].
  - apply Hoa. by destruct Hne.
  - unfold cached. by rewrite Hot.
Qed.

(** The step of the call, with the specification of what it does. *)
Lemma EBody_cases i p :
  inv p -> step branch (EBody i) p = Block \/
  exists cmd app' r, calls p !! i = Some (cmd, Locked) /\
    step branch (EBody i) p =
      Ret {| app := app'; calls := <[i := (cmd, Finished r)]> (calls p); prepared := prepared p;
             hist := record_reply cmd r p; log := log p |} /\
    body_frame cmd (app p) app' /\
    spec_cmd branch cmd (tx_view (app p) (Tid cmd)) = (tx_view app' (Tid cmd), r).
Proof.
  intros Hi. unfold step. destruct (calls p !! i) as [[cmd [isRead| |]]|] eqn:Hc0; try (by left).
  right. destruct (inv_calls p Hi _ _ Hc0) as (Hw & Hca & Hin & _). cbn in *.
  destruct (body_spec branch cmd (app p) Hw Hca) as (app' & r & -> & Hf & Hs).
  by exists cmd, app', r.
Qed.

Lemma inv_EBody i p :
  inv p -> step branch (EBody i) p = Block \/
  exists p', step branch (EBody i) p = Ret p' /\ inv p'.
Proof.
  intros Hi. destruct (EBody_cases i p Hi) as [?|(cmd & app' & r & Hc0 & -> & Hf & _)]; [by left|].
  right. eexists. split; [reflexivity|].
  destruct (inv_calls p Hi _ _ Hc0) as (Hw & Hca & Hin & rd & Hrd & Hwr). cbn in Hw, Hca, Hin, Hrd, Hwr.
  pose proof Hf as (_ & Hinfo & Hcd & Hot & Hca' & _ & Hro).
  assert (forall t, unfinished t (cmd, Finished r) = true -> unfinished t (cmd, Locked) = true)
    as Hun by (intros t; unfold unfinished; cbn; by rewrite andb_false_r).
  split; cbn -[idle].
  - apply (app_ok_body _ _ _ Hf), (inv_app p Hi).
  - by apply (seq_insert p i (cmd, Locked)).
  - intros j c [(-> & <- & _)|[Hne Hj]]%list_lookup_insert_Some; [done|].
    apply (call_ok_mono (app p)); [by eapply inv_calls|]. intros U.
    rewrite Hinfo, (held_body _ _ _ _ _ Hf). split_and!; [|done..].
    destruct (decide (Tid c.1 = Tid cmd)) as [->|Ht]; [done|by rewrite Hot].
  - intros t a v Hv. rewrite (held_body _ _ _ _ _ Hf).
    destruct (decide (t = Tid cmd /\ a = Account cmd)) as [[-> ->]|Hne].
    + destruct (wants cmd) as [[]|] eqn:Hwc; [rewrite Hro in Hv by done| |done].
      * by apply (inv_cache p Hi) in Hv.
      * by rewrite Hrd, Hwr.
    + rewrite (cached_body cmd (app p)) in Hv; [by apply (inv_cache p Hi) in Hv|done|].
      destruct (decide (t = Tid cmd)); [right; naive_solver|by left].
  - rewrite Hcd. apply (inv_data p Hi).
  - intros t Hp. destruct (inv_prep p Hi t Hp) as [Hidt Hall]. split.
    + apply idle_spec. by apply (idle_insert p i (cmd, Locked)).
    + intros a r'. rewrite (held_body _ _ _ _ _ Hf). unfold tentative. rewrite Hcd.
      rewrite (cached_body cmd (app p)); [apply Hall|done|]. left. intros ->.
      pose proof (proj1 (idle_spec _ _) Hidt _ _ Hc0) as U.
      unfold unfinished in U. cbn in U. by rewrite bool_decide_true in U.
Qed.

Lemma inv_EPrepare t p :
  inv p -> idle p t = true -> exists p', step branch (EPrepare t) p = Ret p' /\ inv p'.
Proof.
  intros Hi Hid. eexists. split; [reflexivity|]. destruct Hi as [H1 H2 H3 H4 H5 H6].
  split; cbn -[idle Prepare]; try done. intros t' Ht'.
  apply lookup_insert_Some in Ht' as [[<- Hp]|[_ Ht']]; [|by apply H6].
  split; [done|]. by apply Prepare_true.
Qed.

(** What a commit leaves of the other transactions. *)
Lemma other_committed p app' (doCommit : bool) tid t a r :
  inv p -> committedData app' = (if doCommit then tx_view (app p) tid else committedData (app p)) ->
  t <> tid -> held (app p) t a = Some r ->
  committedData app' !! a = committedData (app p) !! a.
Proof.
  intros Hi Hcd Ht Hh. rewrite Hcd. destruct doCommit; [|done]. rewrite lookup_tx_view.
  destruct (cached (app p) tid a) as [ch|] eqn:Hch.
  - apply (inv_cache p Hi) in Hch. by destruct (Ht (exclusive _ _ _ _ _ (inv_app p Hi) Hch Hh)).
  - unfold view_entry. destruct (committedData (app p) !! a) as [v|] eqn:Hv; [|done].
    cbn. by rewrite Z.add_0_r, wrap64_id by exact (inv_range p Hi _ _ Hv).
Qed.

Lemma inv_ECommit t (doCommit : bool) p :
  inv p -> idle p t = true -> (doCommit = true -> prepared p !! t = Some true) ->
  exists app', step branch (ECommit t doCommit) p =
      Ret {| app := app'; calls := calls p; prepared := delete t (prepared p);
             hist := delete t (hist p);
             log := if doCommit then log p ++ [tid_hist p t] else log p |} /\
    committedData app' = (if doCommit then tx_view (app p) t else committedData (app p)) /\
    cache app' = delete t (cache (app p)) /\ txLockInfo app' = delete t (txLockInfo (app p)) /\
    (forall a, leaked (app p) a -> leaked app' a) /\
    inv {| app := app'; calls := calls p; prepared := delete t (prepared p);
           hist := delete t (hist p);
           log := if doCommit then log p ++ [tid_hist p t] else log p |}.
Proof.
  intros Hi Hid Hprep. unfold step.
  destruct (Commit_spec doCommit t (app p) (inv_app p Hi) (inv_range p Hi))
    as (app' & out & -> & Hok & Hcd & Hca & Hinfo & Hlk).
  rewrite bind_Ret_l. exists app'. split_and!; try done.
  pose proof (proj1 (idle_spec _ _) Hid) as Hid'.
  assert (forall t' a, t' <> t -> held app' t' a = held (app p) t' a) as Hh
    by (intros t' a Ht; unfold held; by rewrite Hinfo, lookup_delete_ne).
  assert (forall t' a, t' <> t -> cached app' t' a = cached (app p) t' a) as Hc
    by (intros t' a Ht; unfold cached; by rewrite Hca, lookup_delete_ne).
  split; cbn -[idle].
  - done.
  - apply (inv_seq p Hi).
  - intros i c Hj. apply (call_ok_mono (app p)); [by eapply inv_calls|]. intros U.
    assert (Tid c.1 <> t) by (intros Heq; rewrite Heq in U; by rewrite (Hid' _ _ Hj) in U).
    by rewrite Hca, Hinfo, !lookup_delete_ne, Hh by done.
  - intros t' a v. destruct (decide (t' = t)) as [->|Ht].
    + unfold cached. by rewrite Hca, lookup_delete_eq.
    + rewrite Hc, Hh by done. apply (inv_cache p Hi).
  - intros a v. rewrite Hcd. destruct doCommit; [|apply (inv_data p Hi)].
    intros Hv. split; [|exact (tx_view_range _ t (inv_range p Hi) a v Hv)].
    destruct (inv_prep p Hi t (Hprep eq_refl)) as [_ Hall]. rewrite lookup_tx_view in Hv.
    unfold tentative in Hall. destruct (cached (app p) t a) as [ch|] eqn:Hch.
    + specialize (Hall a false (inv_cache p Hi _ _ _ Hch)). rewrite Hch in Hall.
      unfold view_entry in Hv. case_match; injection Hv as <-; exact Hall.
    + unfold view_entry in Hv. destruct (committedData (app p) !! a) as [w|] eqn:Hw; [|done].
      injection Hv as <-. cbn. rewrite Z.add_0_r, wrap64_id by exact (inv_range p Hi _ _ Hw).
      by apply (inv_data p Hi a w Hw).
  - intros t' [Ht Hp]%lookup_delete_Some. destruct (inv_prep p Hi t' Hp) as [Hidt Hall].
    split; [exact Hidt|]. intros a r. rewrite Hh by done. intros Hr. unfold tentative.
    rewrite Hc by done. rewrite (other_committed p app' doCommit t t' a r); auto. by apply (Hall a r).
Qed.

(** A disciplined step stops no process, and keeps the invariant. *)
Lemma inv_step e p :
  inv p -> disciplined p e = true ->
  step branch e p = Block \/ exists p', step branch e p = Ret p' /\ inv p'.
Proof.
  intros Hi Hd. destruct e as [cmd|i|i|t|t doCommit].
  - right. by apply inv_EForward.
  - by apply inv_EAcquire.
  - by apply inv_EBody.
  - right. by apply inv_EPrepare.
  - right. cbn in Hd. apply andb_prop in Hd as [Hid Hp].
    destruct (inv_ECommit t doCommit p Hi Hid) as (app' & -> & _ & _ & _ & _ & Hi'); [|eauto].
    intros ->. cbn in Hp. by apply bool_decide_eq_true in Hp.
Qed.

Lemma inv_reachable allowed p :
  (forall p e, allowed p e = true -> disciplined p e = true) ->
  reachable branch allowed p -> inv p.
Proof.
  intros Hall. induction 1 as [|p e p' Hp IH Ha Hs]; [apply inv_new|].
  destruct (inv_step e p IH (Hall _ _ Ha)) as [Hb|(q & Hq & Hi)]; congruence.
Qed.
End steps.

(** ** Serializability

    The history of a live transaction is what the specification would do with
    its commands on the committed balances of this moment: the accounts it
    worked on are locked, so other commits do not change them. *)
Definition hist_ok (branch : string) (app : Application) (h : list (Command * string)) (t : string)
    : Prop :=
  spec_run branch (h.*1) (committedData app) = (tx_view app t, h.*2) /\
  (forall a, works_on (h.*1) a -> is_Some (held app t a)) /\
  (forall a v, cached app t a = Some v -> works_on (h.*1) a).

Lemma view_uncached app t a :
  map_Forall (fun _ v => int64_range v) (committedData app) ->
  cached app t a = None -> tx_view app t !! a = committedData app !! a.
Proof.
  intros Hr Hc. rewrite lookup_tx_view, Hc. unfold view_entry.
  destruct (committedData app !! a) as [v|] eqn:Hv; [|done].
  cbn. by rewrite Z.add_0_r, wrap64_id by exact (Hr _ _ Hv).
Qed.

Lemma hist_ok_mono branch app app' h t :
  hist_ok branch app h t ->
  map_Forall (fun _ v => int64_range v) (committedData app') ->
  (forall a, works_on (h.*1) a -> committedData app' !! a = committedData app !! a) ->
  (forall a, cached app' t a = cached app t a) ->
  (forall a, is_Some (held app t a) -> is_Some (held app' t a)) ->
  hist_ok branch app' h t.
Proof.
  intros (Hrun & Hheld & Hcached) Hr Hcd Hca Hh. split_and!.
  - destruct (spec_run_local branch (h.*1) (committedData app') (committedData app) Hcd) as [Hrs Hl].
    rewrite Hrun in Hrs, Hl. pose proof (fun a => spec_run_frame branch (h.*1) (committedData app') a) as Hf.
    destruct (spec_run branch h.*1 (committedData app')) as [d rs]. cbn in *. subst rs. f_equal.
    apply map_eq. intros a. destruct (cached app t a) as [ch|] eqn:Hch.
    + assert (works_on (h.*1) a) as Hw by (by eapply Hcached).
      rewrite Hl by (by right). by rewrite !lookup_tx_view, Hca, Hcd.
    + rewrite view_uncached by (try done; by rewrite Hca).
      destruct (decide (committedData app' !! a = committedData app !! a)) as [Heq|Hne].
      * rewrite Hl by (by left). rewrite lookup_tx_view, Hch, <-Heq. unfold view_entry.
        destruct (committedData app' !! a) as [v|] eqn:Hv; [|done].
        cbn. by rewrite Z.add_0_r, wrap64_id by exact (Hr _ _ Hv).
      * apply Hf. intros Hw. by apply Hne, Hcd.
  - intros a Hw. by apply Hh, Hheld.
  - intros a v. rewrite Hca. apply Hcached.
Qed.

Lemma hist_ok_nil branch app t :
  map_Forall (fun _ v => int64_range v) (committedData app) ->
  (forall a, cached app t a = None) -> hist_ok branch app [] t.
Proof.
  intros Hr Hc. split_and!; cbn.
  - f_equal. apply map_eq. intros a. by rewrite view_uncached.
  - by intros a (c & Hin%not_elem_of_nil & _).
  - intros a v. by rewrite Hc.
Qed.

Lemma spec_cmd_unsupported branch cmd d : wants cmd = None -> spec_cmd branch cmd d = (d, "").
Proof. unfold wants, spec_cmd. intros H. by repeat case_decide. Qed.

Lemma works_on_snoc (h : list (Command * string)) cmd r a :
  works_on ((h ++ [(cmd, r)]).*1) a <->
  works_on (h.*1) a \/ (wants cmd <> None /\ Account cmd = a).
Proof.
  rewrite fmap_app, works_on_app. cbn. rewrite works_on_cons.
  split; [intros [?|[?|(c & Hin%not_elem_of_nil & _)]]|intros [?|?]]; tauto.
Qed.

(** The history grows by a command done according to the specification. *)
Lemma hist_ok_snoc branch app app' h cmd r :
  hist_ok branch app h (Tid cmd) ->
  committedData app' = committedData app ->
  spec_cmd branch cmd (tx_view app (Tid cmd)) = (tx_view app' (Tid cmd), r) ->
  (forall a, held app' (Tid cmd) a = held app (Tid cmd) a) ->
  (wants cmd <> None -> is_Some (held app (Tid cmd) (Account cmd))) ->
  (forall a, wants cmd = None \/ a <> Account cmd ->
     cached app' (Tid cmd) a = cached app (Tid cmd) a) ->
  hist_ok branch app' (h ++ [(cmd, r)]) (Tid cmd).
Proof.
  intros (Hrun & Hheld & Hcached) Hcd Hs Hh Hw Hc. split_and!.
  - rewrite !fmap_app. cbn. by rewrite spec_run_snoc, Hcd, Hrun, Hs.
  - intros a [Hwa|[Hwc <-]]%works_on_snoc; rewrite Hh; auto.
  - intros a v Hv. apply works_on_snoc.
    destruct (decide (wants cmd <> None /\ Account cmd = a)) as [?|Hne]; [by right|].
    left. apply (Hcached a v). rewrite <-Hc; [done|].
    destruct (wants cmd); [right; intros ->; by apply Hne|by left].
Qed.

Record serial (branch : string) (p : participant) : Prop := {
  serial_inv : inv p;
  serial_hist : forall t, hist_ok branch (app p) (tid_hist p t) t;
  serial_log : replay branch (log p) ∅ = Some (committedData (app p));
}.

Section serial.
Context `{RangeOrder} (branch : string).

Lemma serial_new : serial branch new_participant.
Proof.
  split; [apply inv_new| |done]. intros t. unfold tid_hist. cbn.
  rewrite lookup_empty. by apply hist_ok_nil.
Qed.

Lemma tid_hist_record cmd r p t :
  default [] (record_reply cmd r p !! t) =
    if decide (t = Tid cmd) then tid_hist p t ++ [(cmd, r)] else tid_hist p t.
Proof.
  unfold record_reply. rewrite lookup_insert. destruct (decide (t = Tid cmd)) as [->|Ht].
  - by rewrite decide_True.
  - by rewrite decide_False by congruence.
Qed.

Lemma serial_EForward cmd p p' :
  serial branch p -> idle p (Tid cmd) = true -> upgrades p (EForward cmd) = false ->
  step branch (EForward cmd) p = Ret p' -> serial branch p'.
Proof.
  intros [Hi Hh Hl] Hid Hup Hs.
  destruct (inv_EForward branch cmd p Hi Hid) as (p'' & Hs' & Hi').
  rewrite Hs in Hs'. apply (inj Ret) in Hs' as <-.
  cbn in Hs. destruct (ForwardCmd_begin_spec cmd (app p) (inv_app p Hi)) as
    (app' & ph & Hb & Hok & Hc & Hca & Hic & Hit & Hheld & Hlk & Hcall & Hph).
  rewrite Hb, bind_Ret_l in Hs. apply (inj Ret) in Hs. subst p'.
  assert (forall t a, held app' t a = held (app p) t a) as Hhe.
  { intros t a. rewrite Hheld. match goal with |- context [decide ?P] => destruct (decide P) as [Hd|] end;
      [|done]. destruct Hd as (-> & -> & Hw & Hr).
    cbn in Hup. by rewrite !bool_decide_true in Hup. }
  split; [done| |cbn; by rewrite Hc].
  assert (forall t, hist_ok branch app' (tid_hist p t) t) as Hsame.
  { intros t. apply (hist_ok_mono branch (app p)); [apply Hh|..].
    - rewrite Hc. apply (inv_range p Hi).
    - intros a _. by rewrite Hc.
    - apply Hca.
    - intros a. by rewrite Hhe. }
  intros t. unfold tid_hist. cbn. destruct ph as [r| |r]; [apply Hsame..|].
  rewrite tid_hist_record. destruct (decide (t = Tid cmd)) as [->|]; [|apply Hsame].
  destruct Hph as [Hw ->]. apply (hist_ok_snoc branch app'); [apply Hsame|done| |done|done|done].
  by rewrite spec_cmd_unsupported.
Qed.

Lemma serial_EAcquire i p p' :
  serial branch p -> step branch (EAcquire i) p = Ret p' -> serial branch p'.
Proof.
  intros [Hi Hh Hl] Hs. destruct (inv_EAcquire branch i p Hi) as [Hb|(p'' & Hs' & Hi')]; [congruence|].
  rewrite Hs in Hs'. apply (inj Ret) in Hs' as <-. cbn in Hs.
  destruct (calls p !! i) as [[cmd [isRead| |]]|] eqn:Hc0; try done. bind_inv Hs.
  apply (inj Ret) in Hs. subst p'.
  destruct (end_spec _ _ _ _ _ (inv_app p Hi) E) as (Hok & (F1 & F2 & _ & _) & Hheld).
  split; [done| |cbn; by rewrite F1]. intros t. unfold tid_hist. cbn.
  apply (hist_ok_mono branch (app p)); [apply Hh|..].
  - rewrite F1. apply (inv_range p Hi).
  - intros a _. by rewrite F1.
  - intros a. unfold cached. by rewrite F2.
  - intros a Ha. rewrite Hheld. by case_decide.
Qed.

Lemma serial_EBody i p p' :
  serial branch p -> step branch (EBody i) p = Ret p' -> serial branch p'.
Proof.
  intros [Hi Hh Hl] Hs. destruct (inv_EBody branch i p Hi) as [Hb|(p'' & Hs' & Hi')]; [congruence|].
  rewrite Hs in Hs'. apply (inj Ret) in Hs' as <-.
  destruct (EBody_cases branch i p Hi) as [?|(cmd & app' & r & Hc0 & Hs' & Hf & Hspec)]; [congruence|].
  rewrite Hs in Hs'. apply (inj Ret) in Hs' as ->.
  destruct (inv_calls p Hi _ _ Hc0) as (Hw & _ & _ & rd & Hrd & _). cbn in Hw, Hrd.
  pose proof Hf as (_ & _ & Hcd & _). split; [done| |cbn; by rewrite Hcd].
  intros t. unfold tid_hist. cbn [hist app]. rewrite tid_hist_record.
  destruct (decide (t = Tid cmd)) as [->|Ht].
  - apply (hist_ok_snoc branch (app p)); [apply Hh|done|done|..].
    + intros a. by apply (held_body cmd).
    + intros _. by eexists.
    + intros a [?|?]; [done|]. apply (cached_body cmd); auto.
  - apply (hist_ok_mono branch (app p)); [apply Hh|..].
    + rewrite Hcd. apply (inv_range p Hi).
    + intros a _. by rewrite Hcd.
    + intros a. apply (cached_body cmd); auto.
    + intros a. by rewrite (held_body cmd (app p) app' t a Hf).
Qed.

Lemma serial_ECommit t (doCommit : bool) p p' :
  serial branch p -> disciplined p (ECommit t doCommit) = true ->
  step branch (ECommit t doCommit) p = Ret p' -> serial branch p'.
Proof.
  intros [Hi Hh Hl] Hd Hs. cbn in Hd. apply andb_prop in Hd as [Hid Hp].
  destruct (inv_ECommit branch t doCommit p Hi Hid) as
    (app' & Hs' & Hcd & Hca & Hinfo & _ & Hi').
  { intros ->. cbn in Hp. by apply bool_decide_eq_true in Hp. }
  rewrite Hs in Hs'. apply (inj Ret) in Hs' as ->. split; [done| |].
  - intros t'. unfold tid_hist. cbn. destruct (decide (t' = t)) as [->|Ht].
    + rewrite lookup_delete_eq. apply hist_ok_nil; [exact (inv_range _ Hi')|].
      intros a. unfold cached. by rewrite Hca, lookup_delete_eq.
    + rewrite lookup_delete_ne by done. apply (hist_ok_mono branch (app p)); [apply Hh|..].
      * exact (inv_range _ Hi').
      * intros a Hw. destruct (Hh t') as (_ & Hheld & _). destruct (Hheld a Hw) as [r Hr].
        by apply (other_committed p app' doCommit t t' a r).
      * intros a. unfold cached. by rewrite Hca, lookup_delete_ne.
      * intros a. unfold held. by rewrite Hinfo, lookup_delete_ne.
  - cbn. rewrite Hcd. destruct doCommit; [|done]. eapply replay_snoc; [exact Hl|]. apply Hh.
Qed.

Lemma serial_reachable p : reachable branch no_upgrade p -> serial branch p.
Proof.
  induction 1 as [|p e p' Hp IH Ha Hs]; [apply serial_new|].
  apply andb_prop in Ha as [Hd Hu]. apply negb_true_iff in Hu.
  destruct e as [cmd|i|i|t|t doCommit].
  - by apply (serial_EForward cmd p).
  - by apply (serial_EAcquire i p).
  - by apply (serial_EBody i p).
  - destruct (inv_EPrepare branch t p (serial_inv _ _ IH) Hd) as (q & Hq & Hi).
    rewrite Hs in Hq. apply (inj Ret) in Hq as <-. apply (inj Ret) in Hs as <-.
    split; [done|apply (serial_hist _ _ IH)|apply (serial_log _ _ IH)].
  - by apply (serial_ECommit t doCommit p).
Qed.
End serial.

(** ** Lost readers *)

Section leaks.
Context `{RangeOrder} (branch : string).

Lemma leaked_step e p p' a :
  inv p -> disciplined p e = true -> step branch e p = Ret p' -> leaked (app p) a ->
  leaked (app p') a.
Proof.
  intros Hi Hd Hs Hlk. destruct e as [cmd|i|i|t|t doCommit]; cbn in Hs.
  - destruct (ForwardCmd_begin_spec cmd (app p) (inv_app p Hi)) as
      (app' & ph & Hb & _ & _ & _ & _ & _ & _ & Hl & _).
    rewrite Hb, bind_Ret_l in Hs. apply (inj Ret) in Hs as <-. by apply Hl.
  - destruct (calls p !! i) as [[cmd [isRead| |]]|]; try done. bind_inv Hs.
    apply (inj Ret) in Hs as <-.
    destruct (end_spec _ _ _ _ _ (inv_app p Hi) E) as (_ & (_ & _ & _ & Hl) & _). by apply Hl.
  - destruct (EBody_cases branch i p Hi) as [Hb|(cmd & app' & r & _ & Hs' & (Hl & _) & _)].
    + unfold step in Hb. by rewrite Hs in Hb.
    + unfold step in Hs'. rewrite Hs in Hs'. apply (inj Ret) in Hs' as ->.
      unfold leaked, lock_of in *. cbn. by rewrite Hl.
  - by apply (inj Ret) in Hs as <-.
  - apply andb_prop in Hd as [Hid Hpr].
    destruct (inv_ECommit branch t doCommit p Hi Hid) as (app' & Hs' & _ & _ & _ & Hl & _).
    { intros ->. cbn in Hpr. by apply bool_decide_eq_true in Hpr. }
    unfold step in Hs'. rewrite Hs in Hs'. apply (inj Ret) in Hs' as ->. by apply Hl.
Qed.

Lemma leaked_steps es p p' a :
  inv p -> leaked (app p) a -> run_allowed branch disciplined es p = true ->
  steps branch es p = Ret p' -> inv p' /\ leaked (app p') a.
Proof.
  revert p. induction es as [|e es IH]; intros p Hi Hlk Hr Hs.
  - by apply (inj Ret) in Hs as <-.
  - cbn [run_allowed steps] in Hr, Hs. apply andb_prop in Hr as [Hd Hr]. bind_inv Hs.
    rewrite E in Hr. destruct (inv_step branch e p Hi Hd) as [Hb|(q & Hq & Hi')]; [congruence|].
    rewrite E in Hq. apply (inj Ret) in Hq as <-. apply (IH r); auto. by apply (leaked_step e p).
Qed.
End leaks.
