(* ===== verification/TxTheorems.v ===== *)
(** * TxTheorems: the properties of the participant

    Serializability, mutual exclusion, solvency, absence of crashes, the effect
    of a commit, when a lock is granted; and executions the code admits that break
    what it means to do: a lock leaked by two BALANCE commands, transactions
    that are not serializable because one upgraded a lock, and a deadlock. *)
From S2P Require Import Prelude TxLocks TxServer TxSpec TxProps.

Lemma disciplined_id (p : participant) (e : event) : disciplined p e = true -> disciplined p e = true.
Proof. done. Qed.

(** ** Executions used as witnesses *)

Definition cmd_of (t a m : string) (n : Z) : Command :=
  {| Tid := t; Branch := "A"; Account := a; Method := m; Amount := n |}.

(** A whole command of a transaction that finds its lock free, the [i]th call. *)
Definition run_cmd (i : nat) (c : Command) : list event := [EForward c; EAcquire i; EBody i].

Definition two_transactions : list event :=
  run_cmd 0 (cmd_of "t1" "x" "DEPOSIT" 100) ++
  [EForward (cmd_of "t2" "y" "DEPOSIT" 7); EForward (cmd_of "t1" "y" "BALANCE" (-1));
   EAcquire 1; EBody 1; EPrepare "t2"; ECommit "t2" true; EAcquire 2; EBody 2] ++
  [EForward (cmd_of "t1" "x" "WITHDRAW" 30); EBody 3; EForward (cmd_of "t1" "x" "BALANCE" (-1)); EBody 4;
   EPrepare "t1"; ECommit "t1" true].

(** [t1] reads [x], then writes it; [t2] gets in between. *)
Definition upgrade_race : list event :=
  run_cmd 0 (cmd_of "t0" "x" "DEPOSIT" 100) ++ [EPrepare "t0"; ECommit "t0" true] ++
  run_cmd 1 (cmd_of "t1" "x" "BALANCE" (-1)) ++
  [EForward (cmd_of "t1" "x" "DEPOSIT" 1)] ++
  run_cmd 3 (cmd_of "t2" "x" "DEPOSIT" 50) ++ [EPrepare "t2"; ECommit "t2" true] ++
  [EAcquire 2; EBody 2] ++ [EForward (cmd_of "t1" "x" "BALANCE" (-1)); EBody 4] ++
  [EPrepare "t1"; ECommit "t1" true].

(** One transaction asks for the same balance twice, then commits. *)
Definition double_balance : list event :=
  run_cmd 0 (cmd_of "t1" "x" "BALANCE" (-1)) ++ run_cmd 1 (cmd_of "t1" "x" "BALANCE" (-1)) ++
  [EPrepare "t1"; ECommit "t1" true].

(** [t1] holds [x] and has answered [Prepare]. *)
Definition one_prepared : list event :=
  run_cmd 0 (cmd_of "t1" "x" "DEPOSIT" 100) ++ [EPrepare "t1"].

Definition after (es : list event) : participant :=
  value_or new_participant (@steps range_keys "A" es new_participant).

Section theorems.
Context `{RangeOrder} (branch : string).

Lemma reachable_inv p : reachable branch disciplined p -> inv p.
Proof. apply inv_reachable, disciplined_id. Qed.

(** C1 Strict two-phase locking makes the participant serializable: in every
    run, however the calls of concurrent transactions interleave, the
    committed balances are those of running the committed transactions one
    after the other, in commit order and each one alone, on an empty bank --
    and every reply a committed transaction got is the reply it would have
    got there.  The runs are those in which no transaction turns a read lock
    into a write lock. *)
Theorem serializable p :
  reachable branch no_upgrade p ->
  replay branch (log p) ∅ = Some (committedData (app p)).
Proof. intros Hp. apply (serial_log branch), (serial_reachable branch p Hp). Qed.

(** C27 Mutual exclusion: in every disciplined run an account locked for
    writing by a transaction is held by no other, and its mutex is in the
    writing state; an account held for reading has its mutex in the reading
    state, with at least as many readers as owners. *)
Theorem mutual_exclusion p t a r :
  reachable branch disciplined p -> held (app p) t a = Some r ->
  let l := lock_of (app p) a in
  writer (rwMu l) = negb r /\
  (r = false -> forall t', is_Some (held (app p) t' a) -> t' = t) /\
  (r = true -> (0 < size (tids l) <= readers (rwMu l))%nat).
Proof.
  intros Hp Hh l. pose proof (inv_app _ (reachable_inv p Hp)) as Hok. pose proof Hok as [Hl Ht].
  pose proof Hh as Hh'. rewrite Ht in Hh'. split_and!.
  - exact (lock_ok_owner _ t r (Hl a) Hh').
  - intros -> t' [r' Hr]. by apply (exclusive (app p) t t' a r').
  - intros ->. pose proof (lock_ok_owner _ _ _ (Hl a) Hh') as Hw. specialize (Hl a).
    unfold lock_ok in Hl. rewrite Hw in Hl. fold l in Hl, Hh'. destruct Hl as [_ Hs].
    split; [|done]. destruct (decide (size (tids l) = 0%nat)) as [H0|]; [|lia].
    apply map_size_empty_inv in H0. rewrite H0 in Hh'. by rewrite lookup_empty in Hh'.
Qed.

(** C16 Solvency: in every disciplined run no committed balance is negative,
    although [Withdraw] checks nothing: [Prepare] checks, and the locks keep
    what it checked true until the commit.  A transaction that answered
    [Prepare] with true can commit at any later time: every balance it sees
    is non-negative. *)
Theorem balances_never_negative p :
  reachable branch disciplined p ->
  map_Forall (fun _ v => 0 <= v < 2 ^ 63) (committedData (app p)) /\
  (forall t, prepared p !! t = Some true -> map_Forall (fun _ v => 0 <= v) (tx_view (app p) t)).
Proof.
  intros Hp. pose proof (reachable_inv p Hp) as Hi. split.
  - intros a v Hv. destruct (inv_data p Hi a v Hv) as [? []]. lia.
  - intros t Ht a v Hv. destruct (inv_prep p Hi t Ht) as [_ Hall].
    rewrite lookup_tx_view in Hv. unfold tentative in Hall.
    destruct (cached (app p) t a) as [ch|] eqn:Hch.
    + specialize (Hall a false (inv_cache p Hi _ _ _ Hch)). rewrite Hch in Hall.
      unfold view_entry in Hv. case_match; injection Hv as <-; exact Hall.
    + unfold view_entry in Hv. destruct (committedData (app p) !! a) as [w|] eqn:Hw; [|done].
      injection Hv as <-. cbn. rewrite Z.add_0_r, wrap64_id by exact (inv_range p Hi _ _ Hw).
      by apply (inv_data p Hi a w Hw).
Qed.

(** No disciplined step stops the process: no unlock of a mutex that is not
    held, no write to a nil map, no nil lock.  A step either happens or, for
    a lock that is not free or a call that is not at that point, waits; and a
    command, a [Prepare] or a [Commit] that arrives is always started. *)
Theorem disciplined_step_never_crashes p e :
  reachable branch disciplined p -> disciplined p e = true ->
  (step branch e p = Block \/ exists p', step branch e p = Ret p') /\
  (step branch e p = Block -> exists i, e = EAcquire i \/ e = EBody i).
Proof.
  intros Hp Hd. pose proof (reachable_inv p Hp) as Hi. split.
  - destruct (inv_step branch e p Hi Hd) as [?|(p' & ? & _)]; eauto.
  - destruct e as [cmd|i|i|t|t doCommit]; intros Hb; eauto; exfalso.
    + destruct (inv_EForward branch cmd p Hi Hd) as (p' & Hs & _). congruence.
    + done.
    + cbn in Hd. apply andb_prop in Hd as [Hid Hpr].
      destruct (inv_ECommit branch t doCommit p Hi Hid) as (app' & Hs & _); [|congruence].
      intros ->. cbn in Hpr. by apply bool_decide_eq_true in Hpr.
Qed.

(** The effect of [Commit]: a committed transaction's balances become the
    committed ones, exactly as it saw them; an aborted one changes none.
    Either way its cache is gone, it holds no lock on any account, and no
    other transaction's changes, locks or replies move. *)
Theorem Commit_effect p t (doCommit : bool) :
  reachable branch disciplined p -> disciplined p (ECommit t doCommit) = true ->
  exists p', step branch (ECommit t doCommit) p = Ret p' /\
    committedData (app p') = (if doCommit then tx_view (app p) t else committedData (app p)) /\
    (forall a, held (app p') t a = None /\ tids (lock_of (app p') a) !! t = None /\
       cached (app p') t a = None) /\
    (forall t' a, t' <> t -> held (app p') t' a = held (app p) t' a /\
       cached (app p') t' a = cached (app p) t' a /\
       (is_Some (held (app p) t' a) ->
        committedData (app p') !! a = committedData (app p) !! a)).
Proof.
  intros Hp Hd. pose proof (reachable_inv p Hp) as Hi.
  cbn in Hd. apply andb_prop in Hd as [Hid Hpr].
  destruct (inv_ECommit branch t doCommit p Hi Hid) as (app' & Hs & Hcd & Hca & Hinfo & _ & Hi').
  { intros ->. cbn in Hpr. by apply bool_decide_eq_true in Hpr. }
  eexists. split; [exact Hs|]. cbn. split_and!.
  - done.
  - intros a. assert (held app' t a = None) as Hh
      by (unfold held; by rewrite Hinfo, lookup_delete_eq).
    split; [done|]. split; [by rewrite <-(proj2 (inv_app _ Hi')); cbn|].
    unfold cached. by rewrite Hca, lookup_delete_eq.
  - intros t' a Ht. unfold held at 1, cached at 1. rewrite Hinfo, Hca, !lookup_delete_ne by done.
    split_and!; [done|done|]. intros [r Hr]. by apply (other_committed p app' doCommit t t' a r).
Qed.

(** When a waiting command gets its lock: a reader exactly when no
    transaction holds the account for writing; a writer exactly when no
    transaction holds it at all and no reader of the mutex was lost. *)
Theorem lock_granted_iff p i cmd isRead :
  reachable branch disciplined p -> calls p !! i = Some (cmd, Waiting isRead) ->
  (exists p', step branch (EAcquire i) p = Ret p') <->
  (if isRead then forall t, held (app p) t (Account cmd) <> Some false
   else (forall t, held (app p) t (Account cmd) = None) /\ ~ leaked (app p) (Account cmd)).
Proof.
  intros Hp Hc. pose proof (reachable_inv p Hp) as Hi. pose proof (inv_app p Hi) as Hok.
  destruct (inv_calls p Hi _ _ Hc) as (Hw & Hca & Hin). cbn in Hw, Hca, Hin.
  transitivity (AcquireRWLock_end (Tid cmd) (Account cmd) isRead (app p) <> Block).
  { unfold step. rewrite Hc.
    destruct (end_no_crash (Tid cmd) (Account cmd) isRead (app p) Hin) as [->|[app' ->]]; cbn.
    - split; [by intros [p' ?]|done].
    - split; [done|eauto]. }
  split.
  - intros Hnb. destruct isRead.
    + intros t Ht. apply Hnb, end_blocked; [done|]. left. exists t, false. auto.
    + split.
      * intros t. destruct (held (app p) t (Account cmd)) as [r|] eqn:Hr; [|done].
        exfalso. apply Hnb, end_blocked; [done|]. left. exists t, r. auto.
      * intros Hlk. apply Hnb, end_blocked; [done|]. by right.
  - apply end_granted; done.
Qed.

(** A lost reader is lost for good (code bug): once the mutex of an account
    counts more readers than the account has owners, it does so after any
    further disciplined events, and no command ever gets the write lock of
    the account again. *)
Theorem leaked_reader_blocks_writers_forever p a es p' :
  reachable branch disciplined p -> leaked (app p) a ->
  run_allowed branch disciplined es p = true -> steps branch es p = Ret p' ->
  leaked (app p') a /\
  forall i cmd, calls p' !! i = Some (cmd, Waiting false) -> Account cmd = a ->
    step branch (EAcquire i) p' = Block.
Proof.
  intros Hp Hlk Hr Hs.
  assert (inv p' /\ leaked (app p') a) as [Hi Hlk'].
  { apply (leaked_steps branch es p); auto using reachable_inv. }
  split; [done|]. intros i cmd Hc <-. unfold step. rewrite Hc.
  by rewrite end_blocked; [|apply (inv_app _ Hi)|right].
Qed.
End theorems.

(** ** The operations against the specification *)

(** C33 [Deposit], [Withdraw] and [Balance], called by [ForwardCmd] with the
    lock held, do to the balances the transaction sees, and reply, what the
    specification does on plain balances -- on every branch, the unknown
    account included -- and touch nothing but the transaction's own entry for
    the account. *)
Theorem operations_refine_spec branch cmd app :
  wants cmd <> None -> is_Some (cache app !! Tid cmd) ->
  exists app' r, ForwardCmd_body branch cmd app = Ret (app', r) /\
    spec_cmd branch cmd (tx_view app (Tid cmd)) = (tx_view app' (Tid cmd), r) /\
    committedData app' = committedData app /\ locks app' = locks app /\
    txLockInfo app' = txLockInfo app /\
    (forall t a, t <> Tid cmd \/ a <> Account cmd -> cached app' t a = cached app t a).
Proof.
  intros Hw Hc. destruct (body_spec branch cmd app Hw Hc) as (app' & r & Hb & Hf & Hs).
  exists app', r. pose proof Hf as (Hl & Hi & Hcd & _). split_and!; try done.
  intros t a. by apply (cached_body cmd).
Qed.

(** ** Executions that go wrong *)

#[local] Existing Instance range_keys.

Lemma reachable_after allowed es :
  run_allowed "A" allowed es new_participant = true -> reachable "A" allowed (after es).
Proof. intros Hr. apply reachable_run; [apply reach_new|done]. Qed.

(** C36 The lock upgrade of [AcquireRWLock] gives up the read lock before it
    waits for the write lock (code bug): another transaction commits in
    between, and the run is not serializable -- no order of the committed
    transactions gives the replies that were sent. *)
Theorem lock_upgrade_not_serializable :
  exists es p, run_allowed "A" disciplined es new_participant = true /\
    steps "A" es new_participant = Ret p /\ length (log p) = 3%nat /\
    forall l, l ≡ₚ log p -> replay "A" l ∅ = None.
Proof.
  exists upgrade_race, (after upgrade_race). split_and!; [vm_compute; reflexivity..|].
  intros l Hl%symmetry. apply permutations_Permutation in Hl.
  assert (forallb (fun l => match replay "A" l ∅ with None => true | Some _ => false end)
    (permutations (log (after upgrade_race))) = true) as Hall by (vm_compute; reflexivity).
  rewrite <-Is_true_true, forallb_True, Forall_forall in Hall.
  specialize (Hall l Hl). by destruct (replay "A" l ∅).
Qed.

(** A transaction that asks for the same balance twice takes the read lock
    twice and gives it back once (code bug): after its commit the mutex of the
    account still counts a reader, though nobody holds it. *)
Theorem double_balance_loses_a_reader :
  exists es p, run_allowed "A" disciplined es new_participant = true /\
    steps "A" es new_participant = Ret p /\ log p <> [] /\
    (forall t, held (app p) t "x" = None) /\ leaked (app p) "x".
Proof.
  exists double_balance, (after double_balance).
  split_and!; [vm_compute; reflexivity..|vm_compute; done| |vm_compute; lia].
  intros t. assert (txLockInfo (app (after double_balance)) = ∅) as Hi by (vm_compute; reflexivity).
  unfold held. by rewrite Hi, lookup_empty.
Qed.

(** Two transactions that lock two accounts in opposite orders wait for each
    other for ever: there is no deadlock detection (the code for it is
    commented out), and neither can even be aborted, since its command never
    returns. *)
Theorem deadlock_is_possible :
  exists es p, run_allowed "A" disciplined es new_participant = true /\
    steps "A" es new_participant = Ret p /\ idle p "t1" = false /\ idle p "t2" = false /\
    forall i, step "A" (EAcquire i) p = Block /\ step "A" (EBody i) p = Block.
Proof.
  exists (run_cmd 0 (cmd_of "t1" "x" "DEPOSIT" 1) ++ run_cmd 1 (cmd_of "t2" "y" "DEPOSIT" 1) ++
    [EForward (cmd_of "t1" "y" "DEPOSIT" 1); EForward (cmd_of "t2" "x" "DEPOSIT" 1)]).
  eexists. split; [vm_compute; reflexivity|]. split; [vm_compute; reflexivity|].
  split; [vm_compute; reflexivity|]. split; [vm_compute; reflexivity|].
  intros [|[|[|[|i]]]]; vm_compute; split; reflexivity.
Qed.

(** ** Witnesses *)

Lemma serializable_witness :
  reachable "A" no_upgrade (after two_transactions) /\
  replay "A" (log (after two_transactions)) ∅ = Some (committedData (app (after two_transactions))) /\
  committedData (app (after two_transactions)) !! "x" = Some 70 /\
  length (log (after two_transactions)) = 2%nat.
Proof.
  assert (reachable "A" no_upgrade (after two_transactions)) as Hr
    by (apply reachable_after; vm_compute; reflexivity).
  split; [exact Hr|]. split; [exact (serializable "A" _ Hr)|]. split; vm_compute; reflexivity.
Defined.

Lemma one_prepared_reachable : reachable "A" disciplined (after one_prepared).
Proof. apply reachable_after. vm_compute. reflexivity. Qed.

Lemma mutual_exclusion_witness :
  held (app (after one_prepared)) "t1" "x" = Some false /\
  writer (rwMu (lock_of (app (after one_prepared)) "x")) = true.
Proof.
  assert (held (app (after one_prepared)) "t1" "x" = Some false) as Hh by (vm_compute; reflexivity).
  split; [exact Hh|].
  exact (proj1 (mutual_exclusion "A" _ "t1" "x" false one_prepared_reachable Hh)).
Defined.

Lemma balances_never_negative_witness :
  map_Forall (fun _ v => 0 <= v < 2 ^ 63) (committedData (app (after two_transactions))) /\
  committedData (app (after two_transactions)) !! "y" = Some 7.
Proof.
  assert (reachable "A" disciplined (after two_transactions)) as Hr
    by (apply reachable_after; vm_compute; reflexivity).
  split; [exact (proj1 (balances_never_negative "A" _ Hr))|vm_compute; reflexivity].
Defined.

Lemma disciplined_step_never_crashes_witness :
  disciplined (after one_prepared) (ECommit "t1" true) = true /\
  (step "A" (ECommit "t1" true) (after one_prepared) = Block \/
   exists p', step "A" (ECommit "t1" true) (after one_prepared) = Ret p').
Proof.
  assert (disciplined (after one_prepared) (ECommit "t1" true) = true) as Hd by (vm_compute; reflexivity).
  split; [exact Hd|].
  exact (proj1 (disciplined_step_never_crashes "A" _ _ one_prepared_reachable Hd)).
Defined.

Lemma Commit_effect_witness :
  exists p', step "A" (ECommit "t1" true) (after one_prepared) = Ret p' /\
    committedData (app p') !! "x" = Some 100.
Proof.
  assert (disciplined (after one_prepared) (ECommit "t1" true) = true) as Hd by (vm_compute; reflexivity).
  destruct (Commit_effect "A" _ "t1" true one_prepared_reachable Hd) as (p' & Hs & Hcd & _).
  exists p'. split; [exact Hs|]. rewrite Hcd. vm_compute. reflexivity.
Defined.

Lemma lock_granted_iff_witness :
  let p := after (one_prepared ++ [EForward (cmd_of "t2" "x" "BALANCE" (-1))]) in
  calls p !! 1%nat = Some (cmd_of "t2" "x" "BALANCE" (-1), Waiting true) /\
  ~ exists p', step "A" (EAcquire 1) p = Ret p'.
Proof.
  intros p. assert (reachable "A" disciplined p) as Hr by (apply reachable_after; vm_compute; reflexivity).
  assert (calls p !! 1%nat = Some (cmd_of "t2" "x" "BALANCE" (-1), Waiting true)) as Hc
    by (vm_compute; reflexivity).
  split; [exact Hc|]. intros Hex.
  apply (proj1 (lock_granted_iff "A" p 1 _ true Hr Hc)) with (t := "t1") in Hex.
  apply Hex. vm_compute. reflexivity.
Defined.

Lemma leaked_reader_blocks_writers_forever_witness :
  let p := after double_balance in
  let es := [EForward (cmd_of "t2" "x" "DEPOSIT" 5)] in
  leaked (app p) "x" /\ step "A" (EAcquire 2) (value_or p (steps "A" es p)) = Block.
Proof.
  intros p es. assert (reachable "A" disciplined p) as Hr by (apply reachable_after; vm_compute; reflexivity).
  assert (leaked (app p) "x") as Hlk by (vm_compute; lia).
  split; [exact Hlk|].
  refine (proj2 (leaked_reader_blocks_writers_forever "A" p "x" es _ Hr Hlk _ _)
    2%nat (cmd_of "t2" "x" "DEPOSIT" 5) _ _); vm_compute; reflexivity.
Defined.

Lemma operations_refine_spec_witness :
  exists app' r,
    ForwardCmd_body "A" (cmd_of "t1" "x" "WITHDRAW" 30) (app (after one_prepared)) = Ret (app', r) /\
    r = OK /\ tx_view app' "t1" !! "x" = Some 70.
Proof.
  destruct (operations_refine_spec "A" (cmd_of "t1" "x" "WITHDRAW" 30) (app (after one_prepared)))
    as (app' & r & Hb & Hs & _); [vm_compute; discriminate|vm_compute; eexists; reflexivity|].
  exists app', r. split; [exact Hb|].
  match type of Hs with ?x = _ => let y := eval vm_compute in x in
    assert (x = y) as Hx by (vm_compute; reflexivity) end.
  rewrite Hx in Hs. cbn in Hs. injection Hs as Hv Hr. rewrite <-Hv, <-Hr. split; reflexivity.
Defined.
