(* ===== verification/TxCoord.v ===== *)
(** * TxCoord: the coordinator of the transactions demo

    Models [SendCoord], [TwoPhaseCommit] and [DoAbort] of
    [transactions-demo/server/rpc.go], [readFile] and [Start] of
    [server/server.go].  A server is coordinator and participant; the
    participant half is [TxServer].  [TwoPhaseCommit] takes the answers of the
    participants in the order the channel delivers them. *)
From S2P Require Import Prelude GoStrings TxLocks TxServer.

Record branchAddr : Set := mkBranchAddr { addr : string; aport : string }.

Record Server : Set := mkServer {
  branch : string;
  port : string;
  canCommit : gmap string Z;
  haveCommitted : gmap string Z;
  branchInfo : gmap string branchAddr;
  rpcClients : gset string;
  relatedBranches : gmap string (gmap string bool);
}.

Definition set_port pt (s : Server) : Server :=
  {| branch := branch s; port := pt; canCommit := canCommit s; haveCommitted := haveCommitted s;
     branchInfo := branchInfo s; rpcClients := rpcClients s; relatedBranches := relatedBranches s |}.
Definition set_canCommit c (s : Server) : Server :=
  {| branch := branch s; port := port s; canCommit := c; haveCommitted := haveCommitted s;
     branchInfo := branchInfo s; rpcClients := rpcClients s; relatedBranches := relatedBranches s |}.
Definition set_haveCommitted c (s : Server) : Server :=
  {| branch := branch s; port := port s; canCommit := canCommit s; haveCommitted := c;
     branchInfo := branchInfo s; rpcClients := rpcClients s; relatedBranches := relatedBranches s |}.
Definition set_branchInfo i (s : Server) : Server :=
  {| branch := branch s; port := port s; canCommit := canCommit s; haveCommitted := haveCommitted s;
     branchInfo := i; rpcClients := rpcClients s; relatedBranches := relatedBranches s |}.
Definition set_rpcClients c (s : Server) : Server :=
  {| branch := branch s; port := port s; canCommit := canCommit s; haveCommitted := haveCommitted s;
     branchInfo := branchInfo s; rpcClients := c; relatedBranches := relatedBranches s |}.
Definition set_relatedBranches r (s : Server) : Server :=
  {| branch := branch s; port := port s; canCommit := canCommit s; haveCommitted := haveCommitted s;
     branchInfo := branchInfo s; rpcClients := rpcClients s; relatedBranches := r |}.

(** ** [readFile] and [Start] *)

Definition readFile_line (line : string) (srv : Server) : outcome Server :=
  let parsed := Split space (TrimNewline line) in
  curBranch ← go_index parsed 0;
  curAddr ← go_index parsed 1;
  curPort ← go_index parsed 2;
  let srv := if decide (branch srv = curBranch) then set_port curPort srv else srv in
  Ret (set_branchInfo (<[curBranch := {| addr := curAddr; aport := curPort |}]> (branchInfo srv)) srv).

Fixpoint readFile_lines (lines : list string) (srv : Server) : outcome Server :=
  match lines with
  | [] => Ret srv
  | line :: lines => srv' ← readFile_line line srv; readFile_lines lines srv'
  end.

Definition readFile (content : string) (srv : Server) : outcome Server :=
  readFile_lines (ReadLines content) srv.

Definition Start (br content : string) : outcome Server :=
  readFile content
    {| branch := br; port := ""; canCommit := ∅; haveCommitted := ∅; branchInfo := ∅;
       rpcClients := ∅; relatedBranches := ∅ |}.

(** [main]: [file] gives the content of a file.  Serving the connections is the
    event loop of [TxSystem]. *)
Definition main (file : string -> string) (args : list string) : outcome Server :=
  _ ← CheckError (if decide (length args <> 2%nat) then Some "usage: ./server [branch] [configuration file]"
                  else None);
  br ← go_index args 0;
  fp ← go_index args 1;
  Start br (file fp).

(** ** [DoAbort] and [TwoPhaseCommit] *)

(** [Commit] messages to the participants, and the reply to the client. *)
Record verdict : Set := mkVerdict {
  vDoCommit : bool;
  vBranches : list string;
  vReply : string;
}.

Definition forget (tid : string) (srv : Server) : Server :=
  set_relatedBranches (delete tid (relatedBranches srv))
    (set_haveCommitted (delete tid (haveCommitted srv))
       (set_canCommit (delete tid (canCommit srv)) srv)).

Definition related (srv : Server) (tid : string) : gmap string bool :=
  default ∅ (relatedBranches srv !! tid).

Definition DoAbort `{RangeOrder} (tid : string) (srv : Server) : Server * verdict :=
  (forget tid srv,
   {| vDoCommit := false; vBranches := (range (related srv tid)).*1; vReply := ABRT_OK |}).

(** The condition [srv.canCommit[tid] == len(srv.relatedBranches[tid])]. *)
Definition all_can (srv : Server) (tid : string) : bool :=
  bool_decide (default 0 (canCommit srv !! tid) = Z.of_nat (size (related srv tid))).

Fixpoint collect (tid : string) (replies : list bool) (srv : Server) : outcome Server :=
  if all_can srv tid then Ret srv
  else match replies with
       | [] => Block
       | true :: replies =>
           collect tid replies
             (set_canCommit (<[tid := default 0 (canCommit srv !! tid) + 1]> (canCommit srv)) srv)
       | false :: _ => Ret srv
       end.

Definition TwoPhaseCommit `{RangeOrder} (tid : string) (replies : list bool) (srv : Server)
    : outcome (Server * verdict) :=
  match relatedBranches srv !! tid with
  | None => Crash LogFatal
  | Some branches =>
      if decide (dom branches ⊆ rpcClients srv) then
        srv' ← collect tid replies srv;
        if all_can srv' tid then
          Ret (srv', {| vDoCommit := true; vBranches := (range branches).*1; vReply := CM_OK |})
        else Ret (DoAbort tid srv')
      else Crash NilDeref
  end.

(** The goroutine that waits for the participants to have committed. *)
Fixpoint cleanup (tid : string) (replies : list bool) (srv : Server) : outcome Server :=
  if decide (default 0 (haveCommitted srv !! tid) = Z.of_nat (size (related srv tid)))
  then Ret (forget tid srv)
  else match replies with
       | [] => Block
       | true :: replies =>
           cleanup tid replies
             (set_haveCommitted (<[tid := default 0 (haveCommitted srv !! tid) + 1]> (haveCommitted srv)) srv)
       | false :: replies => cleanup tid replies srv
       end.

(** ** [SendCoord] *)

Definition parse_cmd (tid cmdString : string) : outcome Command :=
  let splited := Split space (TrimNewline cmdString) in
  if decide (length splited = 2%nat) then
    w1 ← go_index splited 1;
    let s := Split dot w1 in
    b ← go_index s 0; a ← go_index s 1; m ← go_index splited 0;
    Ret {| Tid := tid; Branch := b; Account := a; Method := m; Amount := -1 |}
  else
    w1 ← go_index splited 1;
    let s := Split dot w1 in
    w2 ← go_index splited 2;
    match Atoi w2 with
    | None => Crash LogFatal
    | Some bal =>
        b ← go_index s 0; a ← go_index s 1; m ← go_index splited 0;
        Ret {| Tid := tid; Branch := b; Account := a; Method := m; Amount := bal |}
    end.

Inductive request : Set :=
  | RReply (reply : string)         (* the reply is known *)
  | RTwoPhase                       (* [TwoPhaseCommit] takes over *)
  | RAbort                          (* [DoAbort] takes over *)
  | RForward (cmd : Command).       (* waits for the participant's [ForwardCmd] *)

(** [dial] is [rpc.Dial] of an address: does a server answer there? *)
Definition connect (dial : string -> bool) (b : string) (srv : Server) : outcome Server :=
  if decide (b ∈ rpcClients srv) then Ret srv
  else
    let '(a, pt) := match branchInfo srv !! b with
                    | Some i => (addr i, aport i)
                    | None => ("", "")
                    end in
    if dial (a +:+ ":" +:+ pt) then Ret (set_rpcClients ({[b]} ∪ rpcClients srv) srv)
    else Crash LogFatal.

Definition relate (tid b : string) (srv : Server) : outcome Server :=
  match relatedBranches srv !! tid with
  | None => Crash NilMapWrite
  | Some m =>
      match m !! b with
      | Some _ => Ret srv
      | None => Ret (set_relatedBranches (<[tid := <[b := true]> m]> (relatedBranches srv)) srv)
      end
  end.

Definition SendCoord (dial : string -> bool) (tid cmdString : string) (srv : Server)
    : outcome (Server * request) :=
  if decide (cmdString = BGN) then
    Ret (set_relatedBranches (<[tid := ∅]> (relatedBranches srv))
           (set_haveCommitted (<[tid := 0]> (haveCommitted srv))
              (set_canCommit (<[tid := 0]> (canCommit srv)) srv)), RReply OK)
  else if decide (cmdString = CM) then Ret (srv, RTwoPhase)
  else if decide (cmdString = ABRT) then Ret (srv, RAbort)
  else
    cmd ← parse_cmd tid cmdString;
    srv1 ← connect dial (Branch cmd) srv;
    srv2 ← relate tid (Branch cmd) srv1;
    Ret (srv2, RForward cmd).

(** After the participant's answer: an unknown account aborts the transaction. *)
Definition SendCoord_end `{RangeOrder} (tid reply : string) (srv : Server)
    : Server * option verdict :=
  if decide (reply = NF_ABRT) then
    let '(srv', v) := DoAbort tid srv in (srv', Some v)
  else (srv, None).
