(* ===== verification/TxCoordProps.v ===== *)
(** * TxCoordProps: two-phase commit is atomic

    The decision of the coordinator, the participants that carry it out, and
    the coordinator's own bookkeeping. *)
From S2P Require Import Prelude GoStrings TxLocks TxServer TxSpec TxProps TxCoord.

(** ** The decision *)

(** The collecting loop counts the yeses before the first no. *)
Lemma collect_spec tid replies srv n :
  default 0 (canCommit srv !! tid) = n -> 0 <= n ->
  length replies = (size (related srv tid) - Z.to_nat n)%nat -> n <= Z.of_nat (size (related srv tid)) ->
  exists srv', collect tid replies srv = Ret srv' /\
    all_can srv' tid = forallb id replies /\
    relatedBranches srv' = relatedBranches srv /\ haveCommitted srv' = haveCommitted srv /\
    rpcClients srv' = rpcClients srv.
Proof.
  revert srv n. induction replies as [|r replies IH]; intros srv n Hn H0 Hlen Hle.
  - assert (all_can srv tid = true) as Ha.
    { unfold all_can. apply bool_decide_eq_true_2. rewrite Hn. cbn in Hlen. lia. }
    exists srv. cbn. by rewrite Ha.
  - assert (all_can srv tid = false) as Ha.
    { unfold all_can. apply bool_decide_eq_false_2. rewrite Hn. cbn in Hlen. lia. }
    cbn [collect]. rewrite Ha. destruct r; [|by exists srv].
    destruct (IH (set_canCommit (<[tid := default 0 (canCommit srv !! tid) + 1]> (canCommit srv)) srv)
      (n + 1)) as (srv' & -> & Hall & Hr & Hh & Hc); cbn.
    + by rewrite lookup_insert_eq, Hn.
    + lia.
    + change (related (set_canCommit ?c ?s) tid) with (related s tid). cbn in Hlen. lia.
    + change (related (set_canCommit ?c ?s) tid) with (related s tid). cbn in Hlen. lia.
    + by exists srv'.
Qed.

Section coordinator.
Context `{RangeOrder}.

Lemma TwoPhaseCommit_spec tid replies srv branches :
  relatedBranches srv !! tid = Some branches -> dom branches ⊆ rpcClients srv ->
  default 0 (canCommit srv !! tid) = 0 -> length replies = size branches ->
  exists srv', TwoPhaseCommit tid replies srv =
    Ret (srv', if forallb id replies
               then {| vDoCommit := true; vBranches := (range branches).*1; vReply := CM_OK |}
               else {| vDoCommit := false; vBranches := (range branches).*1; vReply := ABRT_OK |}).
Proof.
  intros Hb Hd H0 Hlen.
  assert (related srv tid = branches) as Hrel by (unfold related; by rewrite Hb).
  destruct (collect_spec tid replies srv 0) as (srv' & Hc & Ha & Hr & _); [done|lia|rewrite Hrel; lia|lia|].
  unfold TwoPhaseCommit. rewrite Hb, decide_True by done. rewrite Hc, bind_Ret_l, Ha.
  destruct (forallb id replies); [by eexists|]. unfold DoAbort, related. rewrite Hr, Hb. by eexists.
Qed.
End coordinator.

(** ** The participants *)

Section cluster.
Context `{RangeOrder}.

(** [cli.Call("Server.Prepare", ...)]: the answer of a branch, false when the
    call fails. *)
Definition prepare_reply (tid : string) (ps : gmap string participant) (b : string) : bool :=
  match ps !! b with Some p => Prepare tid (app p) | None => false end.

Definition prepare_at (tid b : string) (ps : gmap string participant) : gmap string participant :=
  alter (fun p => value_or p (step b (EPrepare tid) p)) b ps.

Definition commit_at (tid : string) (doCommit : bool) (b : string) (ps : gmap string participant) : outcome (gmap string participant) :=
  match ps !! b with
  | None => Ret ps
  | Some p => p' ← step b (ECommit tid doCommit) p; Ret (<[b := p']> ps)
  end.

Fixpoint commit_all (tid : string) (doCommit : bool) (bs : list string) (ps : gmap string participant) : outcome (gmap string participant) :=
  match bs with
  | [] => Ret ps
  | b :: bs => ps' ← commit_at tid doCommit b ps; commit_all tid doCommit bs ps'
  end.

(** A whole two-phase commit: the participants answer in the order
    [arrival], the coordinator decides, and its verdict is carried out. *)
Definition run_2pc (tid : string) (arrival : list string) (srv : Server) (ps : gmap string participant)
    : outcome (Server * gmap string participant * string) :=
  let replies := map (prepare_reply tid ps) arrival in
  let ps := foldr (prepare_at tid) ps arrival in
  '(srv, v) ← TwoPhaseCommit tid replies srv;
  ps ← commit_all tid (vDoCommit v) (vBranches v) ps;
  Ret (srv, ps, vReply v).

Lemma prepare_at_lookup tid x ps b :
  prepare_at tid x ps !! b =
    if decide (x = b) then (fun p => value_or p (step b (EPrepare tid) p)) <$> ps !! b else ps !! b.
Proof. unfold prepare_at. rewrite lookup_alter. destruct (decide (x = b)); by subst. Qed.

Lemma prepare_all_lookup tid l ps b :
  NoDup l ->
  foldr (prepare_at tid) ps l !! b =
    if decide (b ∈ l) then (fun p => value_or p (step b (EPrepare tid) p)) <$> ps !! b else ps !! b.
Proof.
  induction l as [|x l IH]; intros Hnd; cbn -[step]; [done|].
  apply NoDup_cons in Hnd as [Hx Hnd]. rewrite prepare_at_lookup, !IH by done.
  destruct (decide (x = b)) as [->|Hne].
  - rewrite decide_False by done. by rewrite decide_True by left.
  - destruct (decide (b ∈ l)); [by rewrite decide_True by (by right)|].
    rewrite decide_False; [done|]. by intros [->|?]%elem_of_cons.
Qed.

Lemma commit_all_lookup tid doCommit bs ps :
  NoDup bs ->
  (forall b p, b ∈ bs -> ps !! b = Some p -> exists p', step b (ECommit tid doCommit) p = Ret p') ->
  exists ps', commit_all tid doCommit bs ps = Ret ps' /\
    forall b, ps' !! b =
      if decide (b ∈ bs)
      then (fun p => value_or p (step b (ECommit tid doCommit) p)) <$> ps !! b else ps !! b.
Proof.
  revert ps. induction bs as [|x bs IH]; intros ps Hnd Hall; cbn -[step]; [by exists ps|].
  apply NoDup_cons in Hnd as [Hx Hnd].
  assert (exists ps1, commit_at tid doCommit x ps = Ret ps1 /\
    forall b, ps1 !! b = if decide (b = x)
      then (fun p => value_or p (step b (ECommit tid doCommit) p)) <$> ps !! b else ps !! b)
    as (ps1 & -> & Hps1).
  { unfold commit_at. destruct (ps !! x) as [p|] eqn:Hp.
    - destruct (Hall x p) as [p' Hs]; [by left|done|]. rewrite Hs. eexists. split; [reflexivity|].
      intros b. rewrite lookup_insert. destruct (decide (x = b)) as [<-|].
      + rewrite decide_True by done. rewrite Hp. cbn -[step]. by rewrite Hs.
      + by rewrite decide_False by congruence.
    - exists ps. split; [done|]. intros b. destruct (decide (b = x)) as [->|]; [by rewrite Hp|done]. }
  rewrite bind_Ret_l. destruct (IH ps1 Hnd) as (ps' & -> & Hps').
  { intros b p Hb. rewrite Hps1, decide_False by (by intros ->). apply Hall. by right. }
  exists ps'. split; [done|]. intros b. rewrite Hps', Hps1.
  destruct (decide (b = x)) as [->|Hne].
  - rewrite decide_False by done. by rewrite decide_True by left.
  - destruct (decide (b ∈ bs)); [by rewrite decide_True by (by right)|].
    rewrite decide_False; [done|]. by intros [->|?]%elem_of_cons.
Qed.

(** A participant that has prepared carries out the verdict. *)
Lemma commit_after_prepare tid (doCommit : bool) b p :
  reachable b disciplined p -> idle p tid = true -> (doCommit = true -> Prepare tid (app p) = true) ->
  exists p1 p', step b (EPrepare tid) p = Ret p1 /\ step b (ECommit tid doCommit) p1 = Ret p' /\
    reachable b disciplined p' /\
    committedData (app p') = (if doCommit then tx_view (app p) tid else committedData (app p)) /\
    (forall a, held (app p') tid a = None).
Proof.
  intros Hp Hid Hprep. eexists. assert (step b (EPrepare tid) p = Ret
    {| app := app p; calls := calls p; prepared := <[tid := Prepare tid (app p)]> (prepared p);
       hist := hist p; log := log p |}) as Hs1 by reflexivity.
  assert (reachable b disciplined
    {| app := app p; calls := calls p; prepared := <[tid := Prepare tid (app p)]> (prepared p);
       hist := hist p; log := log p |}) as Hp1 by exact (reach_step b disciplined p (EPrepare tid) _ Hp Hid Hs1).
  set (p1 := {| app := app p |}) in *.
  assert (inv p1) as Hi by (apply (inv_reachable b disciplined); done).
  assert (prepared p1 !! tid = Some (Prepare tid (app p))) as Hpr by apply lookup_insert_eq.
  assert (idle p1 tid = true) as Hid1 by exact Hid.
  destruct (inv_ECommit b tid doCommit p1 Hi Hid1) as (app' & Hs2 & Hcd & Hca & Hinfo & _ & Hi').
  { intros ->. by rewrite Hpr, Hprep. }
  eexists. split; [exact Hs1|]. split; [exact Hs2|]. split; [|split; [exact Hcd|]].
  - apply (reach_step b disciplined p1 _ _ Hp1) with (2 := Hs2). unfold disciplined. rewrite Hid1, Hpr.
    destruct doCommit; [by rewrite Hprep|done].
  - intros a. unfold held. cbn. by rewrite Hinfo, lookup_delete_eq.
Qed.
End cluster.

Section atomicity.
Context `{RangeOrder}.

Lemma range_keys_elem (m : gmap string bool) b : b ∈ (range m).*1 <-> is_Some (m !! b).
Proof.
  rewrite (range_perm m). rewrite list_elem_of_fmap. split.
  - intros ([k v] & -> & Hin). apply elem_of_map_to_list in Hin. by eexists.
  - intros [v Hv]. exists (b, v). split; [done|]. by apply elem_of_map_to_list.
Qed.

Lemma forallb_id_map {A} (f : A -> bool) l : forallb id (map f l) = forallb f l.
Proof. induction l as [|x l IH]; [done|]. cbn. by rewrite IH. Qed.

(** C3 Two-phase commit is atomic: whatever the order in which the participants
    answer, it ends; the client is told COMMIT OK exactly when every branch
    the transaction used could commit; and then each of those branches has
    committed what the transaction saw there, otherwise none has changed a
    balance.  In both cases the transaction holds no lock there any more,
    every participant is again in a state of a disciplined run, and the
    branches it did not use are untouched. *)
Theorem two_phase_commit_atomic tid arrival srv ps branches :
  relatedBranches srv !! tid = Some branches -> dom branches ⊆ rpcClients srv ->
  default 0 (canCommit srv !! tid) = 0 -> arrival ≡ₚ (map_to_list branches).*1 ->
  (forall b p, ps !! b = Some p -> reachable b disciplined p /\ idle p tid = true) ->
  let ok := forallb (prepare_reply tid ps) arrival in
  exists srv' ps', run_2pc tid arrival srv ps = Ret (srv', ps', if ok then CM_OK else ABRT_OK) /\
    forall b p, ps !! b = Some p ->
      exists p', ps' !! b = Some p' /\ reachable b disciplined p' /\
        if decide (is_Some (branches !! b))
        then committedData (app p') = (if ok then tx_view (app p) tid else committedData (app p)) /\
             (forall a, held (app p') tid a = None)
        else p' = p.
Proof.
  intros Hb Hd H0 Harr Hps ok.
  assert (NoDup arrival) as Hnd by (rewrite Harr; apply NoDup_fst_map_to_list).
  assert (forall b, b ∈ arrival <-> is_Some (branches !! b)) as Hin
    by (intros b; rewrite Harr, <-(range_perm branches); apply range_keys_elem).
  assert (NoDup (range branches).*1) as Hndr by (rewrite range_perm; apply NoDup_fst_map_to_list).
  destruct (TwoPhaseCommit_spec tid (map (prepare_reply tid ps) arrival) srv branches) as (srv' & Htp);
    [done..| |].
  { rewrite length_map, Harr, length_fmap. apply length_map_to_list. }
  unfold run_2pc. rewrite Htp, bind_Ret_l.
  assert (forallb id (map (prepare_reply tid ps) arrival) = ok) as Hok
    by apply forallb_id_map.
  rewrite Hok. set (ps1 := foldr (prepare_at tid) ps arrival).
  assert (forall b p, b ∈ arrival -> ps !! b = Some p -> exists p1 p', ps1 !! b = Some p1 /\
    step b (ECommit tid ok) p1 = Ret p' /\ reachable b disciplined p' /\
    committedData (app p') = (if ok then tx_view (app p) tid else committedData (app p)) /\
    (forall a, held (app p') tid a = None)) as Hcommit.
  { intros b p Hbin Hp. destruct (Hps b p Hp) as [Hr Hid].
    destruct (commit_after_prepare tid ok b p Hr Hid) as (p1 & p' & Hs1 & Hs2 & Hrest).
    - intros Htrue. unfold ok in Htrue. rewrite <-Is_true_true, forallb_True, Forall_forall in Htrue.
      specialize (Htrue b Hbin). unfold prepare_reply in Htrue. rewrite Hp in Htrue. by destruct (Prepare _ _).
    - exists p1, p'. split; [|done]. unfold ps1.
      rewrite prepare_all_lookup, decide_True, Hp by done. cbn -[step]. by rewrite Hs1. }
  destruct (commit_all_lookup tid ok (range branches).*1 ps1 Hndr) as (ps' & Hca & Hps').
  { intros b q Hbr%range_keys_elem%Hin Hq. pose proof Hq as Hq'. unfold ps1 in Hq'.
    rewrite prepare_all_lookup, decide_True in Hq' by done.
    apply fmap_Some in Hq' as (p & Hp & _).
    destruct (Hcommit b p Hbr Hp) as (p1 & p' & Hp1 & Hs & _). exists p'. congruence. }
  exists srv', ps'. split; [by destruct ok; cbn [vDoCommit vBranches]; rewrite Hca|].
  intros b p Hp. rewrite Hps'.
  destruct (decide (is_Some (branches !! b))) as [Hbr|Hbr].
  - rewrite decide_True by (by apply range_keys_elem).
    destruct (Hcommit b p (proj2 (Hin b) Hbr) Hp) as (p1 & p' & Hp1 & Hs & Hr & Hcd & Hh).
    rewrite Hp1. exists p'. cbn -[step]. by rewrite Hs.
  - rewrite decide_False by (by rewrite range_keys_elem). exists p.
    split; [|split; [by apply Hps|done]]. unfold ps1.
    rewrite prepare_all_lookup, decide_False by (try done; by rewrite Hin). done.
Qed.
End atomicity.

(** ** The coordinator's bookkeeping *)

(** Every branch a transaction uses has a client: [TwoPhaseCommit] never calls
    through a nil one. *)
Definition clients_ok (srv : Server) : Prop :=
  forall tid m, relatedBranches srv !! tid = Some m -> dom m ⊆ rpcClients srv.

Lemma connect_spec dial b srv srv' :
  connect dial b srv = Ret srv' ->
  b ∈ rpcClients srv' /\ rpcClients srv ⊆ rpcClients srv' /\
  relatedBranches srv' = relatedBranches srv /\ canCommit srv' = canCommit srv.
Proof.
  unfold connect. destruct (decide (b ∈ rpcClients srv)); [by intros [= <-]|].
  destruct (match branchInfo srv !! b with Some i => _ | None => _ end) as [x y].
  destruct (dial _); [|done]. intros [= <-]. cbn. set_solver.
Qed.

Lemma relate_spec tid b srv srv' :
  relate tid b srv = Ret srv' ->
  rpcClients srv' = rpcClients srv /\ canCommit srv' = canCommit srv /\
  (exists m, relatedBranches srv !! tid = Some m /\
     exists m', relatedBranches srv' !! tid = Some m' /\ dom m' = {[b]} ∪ dom m) /\
  (forall t, t <> tid -> relatedBranches srv' !! t = relatedBranches srv !! t).
Proof.
  unfold relate. destruct (relatedBranches srv !! tid) as [m|] eqn:Hm; [|done].
  destruct (m !! b) eqn:Hb; intros [= <-]; cbn; (split; [done|]); (split; [done|]); split.
  - exists m. split; [done|]. exists m. split; [done|].
    assert (b ∈ dom m) by (apply elem_of_dom; eauto). set_solver.
  - done.
  - exists m. split; [done|]. exists (<[b := true]> m). rewrite lookup_insert_eq. split; [done|].
    by rewrite dom_insert_L.
  - intros t Ht. by rewrite lookup_insert_ne.
Qed.

Lemma parse_cmd_Tid tid line cmd : parse_cmd tid line = Ret cmd -> Tid cmd = tid.
Proof.
  unfold parse_cmd. intros E. destruct (decide _).
  - repeat bind_inv E. by injection E as <-.
  - do 2 bind_inv E. destruct (Atoi _); [|done]. repeat bind_inv E. by injection E as <-.
Qed.

(** What [SendCoord] does to the coordinator: a transaction that has begun
    counts no yes yet, every branch it uses has a client that was dialled, the
    command just sent is to such a branch, and other transactions are not
    affected.  (The first conjunct is what two-phase commit starts from.) *)
Theorem SendCoord_spec dial tid cmdString srv srv' req :
  clients_ok srv -> SendCoord dial tid cmdString srv = Ret (srv', req) ->
  clients_ok srv' /\
  (cmdString = BGN -> canCommit srv' !! tid = Some 0 /\ relatedBranches srv' !! tid = Some ∅) /\
  (forall cmd, req = RForward cmd -> parse_cmd tid cmdString = Ret cmd /\ Tid cmd = tid /\
     Branch cmd ∈ rpcClients srv' /\ is_Some (related srv' tid !! Branch cmd)) /\
  (cmdString <> BGN -> canCommit srv' = canCommit srv /\
     forall b, is_Some (related srv tid !! b) -> is_Some (related srv' tid !! b)) /\
  (forall t, t <> tid -> relatedBranches srv' !! t = relatedBranches srv !! t /\
     canCommit srv' !! t = canCommit srv !! t).
Proof.
  intros Hok. unfold SendCoord.
  destruct (decide (cmdString = BGN)) as [->|Hb].
  { intros [= <- <-]. cbn. split_and!; try done.
    - intros t m. cbn. rewrite lookup_insert_Some. intros [[_ <-]|[_ Hm]]; [set_solver|by eapply Hok].
    - intros _. by rewrite !lookup_insert_eq.
    - intros t Ht. by rewrite !lookup_insert_ne. }
  destruct (decide (cmdString = CM)); [by intros [= <- <-]; split_and!|].
  destruct (decide (cmdString = ABRT)); [by intros [= <- <-]; split_and!|].
  intros Hs. bind_inv Hs. bind_inv Hs. bind_inv Hs. injection Hs as <- <-.
  rename r into cmd, r0 into s1, r1 into s2.
  destruct (connect_spec _ _ _ _ E0) as (Hin & Hsub & Hr1 & Hc1).
  destruct (relate_spec _ _ _ _ E1) as (Hcl & Hc2 & (m & Hm & m' & Hm' & Hdom) & Hot).
  pose proof (parse_cmd_Tid _ _ _ E) as Htid.
  split_and!.
  - intros t mt Hn. rewrite Hcl. destruct (decide (t = tid)) as [->|Ht].
    + rewrite Hm' in Hn. injection Hn as <-. rewrite Hr1 in Hm. specialize (Hok _ _ Hm). set_solver.
    + rewrite Hot, Hr1 in Hn by done. specialize (Hok _ _ Hn). set_solver.
  - done.
  - intros cmd' [= <-]. rewrite Hcl. split_and!; try done. unfold related. rewrite Hm'. cbn.
    apply elem_of_dom. set_solver.
  - intros _. split; [congruence|]. intros b. unfold related. rewrite <-Hr1, Hm, Hm'. cbn.
    rewrite <-!elem_of_dom. set_solver.
  - intros t Ht. rewrite Hot, Hr1, Hc2, Hc1 by done. done.
Qed.

(** [Commit] never assigns its reply: [HaveCommitted] keeps its zero value. *)
Definition Commit_reply : bool := false.

Lemma cleanup_blocks tid n srv :
  default 0 (haveCommitted srv !! tid) <> Z.of_nat (size (related srv tid)) ->
  cleanup tid (replicate n Commit_reply) srv = Block.
Proof. intros Hne. induction n as [|n IH]; cbn; by rewrite decide_False. Qed.

(** The goroutine that clears a committed transaction never does (code bug):
    [Commit] leaves [HaveCommitted] false, so however many replies arrive it
    goes on waiting, and the coordinator keeps the transaction for ever --
    unless the transaction used no branch at all. *)
Theorem cleanup_never_ends `{RangeOrder} tid arrival srv ps srv' ps' reply n :
  run_2pc tid arrival srv ps = Ret (srv', ps', reply) -> reply = CM_OK ->
  haveCommitted srv !! tid = Some 0 ->
  if decide (related srv tid = ∅) then cleanup tid (replicate n Commit_reply) srv' = Ret (forget tid srv')
  else cleanup tid (replicate n Commit_reply) srv' = Block.
Proof.
  unfold run_2pc. intros Hrun Hreply H0. bind_inv Hrun. destruct r as [s v]. bind_inv Hrun.
  injection Hrun as <- <- <-. unfold TwoPhaseCommit in E.
  destruct (relatedBranches srv !! tid) as [m|] eqn:Hm; [|done].
  destruct (decide (dom m ⊆ rpcClients srv)); [|done]. bind_inv E.
  assert (s = r0) as ->.
  { destruct (all_can r0 tid); injection E as <- <-; [done|]. by cbn in Hreply. }
  assert (haveCommitted r0 = haveCommitted srv /\ relatedBranches r0 = relatedBranches srv) as [Hh Hr].
  { revert E1. generalize (map (prepare_reply tid ps) arrival). clear. intros l. revert srv.
    induction l as [|b l IH]; intros srv; cbn; destruct (all_can srv tid); try by intros [= <-].
    destruct b; [|by intros [= <-]]. intros E1. by apply IH in E1. }
  assert (related r0 tid = related srv tid) as Hrel by (unfold related; by rewrite Hr).
  destruct (decide (related srv tid = ∅)) as [He|He].
  - destruct n; cbn; by rewrite Hh, H0, Hrel, He, decide_True.
  - apply cleanup_blocks. rewrite Hh, H0, Hrel. cbn. intros Hz. apply He, map_size_empty_inv. lia.
Qed.

(** ** Witnesses *)

#[local] Existing Instance range_keys.

Definition ex_deposit (b a : string) (n : Z) : participant :=
  value_or new_participant (steps b
    [EForward (mkCommand "t" b a "DEPOSIT" n); EAcquire 0; EBody 0] new_participant).

Definition ex_parts : gmap string participant :=
  <["A" := ex_deposit "A" "x" 5]> (<["B" := ex_deposit "B" "y" (-3)]> ∅).

Definition ex_coord : Server :=
  {| branch := "C"; port := ""; canCommit := {["t" := 0]}; haveCommitted := {["t" := 0]};
     branchInfo := ∅; rpcClients := {["A"; "B"]};
     relatedBranches := {["t" := <["A" := true]> {["B" := true]}]} |}.

Lemma ex_parts_ok b p :
  ex_parts !! b = Some p -> reachable b disciplined p /\ idle p "t" = true.
Proof.
  unfold ex_parts. rewrite !lookup_insert_Some, lookup_empty.
  intros [[<- <-]|[_ [[<- <-]|[_ ?]]]]; [..|done];
    (split; [apply reachable_run; [apply reach_new|]|]; vm_compute; reflexivity).
Qed.

(** [A] could commit, [B] could not: nobody does. *)
Lemma two_phase_commit_atomic_witness :
  exists srv' ps', run_2pc "t" ["B"; "A"] ex_coord ex_parts = Ret (srv', ps', ABRT_OK) /\
    exists p', ps' !! "A" = Some p' /\ committedData (app p') = ∅ /\ held (app p') "t" "x" = None.
Proof.
  destruct (two_phase_commit_atomic "t" ["B"; "A"] ex_coord ex_parts (<["A" := true]> {["B" := true]}))
    as (srv' & ps' & Hrun & Hall).
  - reflexivity.
  - vm_compute. set_solver.
  - reflexivity.
  - vm_compute. apply perm_swap.
  - apply ex_parts_ok.
  - exists srv', ps'. split; [exact Hrun|].
    destruct (Hall "A" (ex_deposit "A" "x" 5)) as (p' & Hp' & _ & H'); [reflexivity|].
    exists p'. split; [exact Hp'|]. revert H'. case_decide as Hd.
    + intros [Hcd Hh]. split; [rewrite Hcd; vm_compute; reflexivity|apply Hh].
    + exfalso. apply Hd. vm_compute. eexists. reflexivity.
Defined.

Lemma SendCoord_spec_witness :
  exists srv' req, SendCoord (fun _ => true) "u" BGN ex_coord = Ret (srv', req) /\
    canCommit srv' !! "u" = Some 0.
Proof.
  eexists _, _. split; [reflexivity|].
  apply (SendCoord_spec (fun _ => true) "u" BGN ex_coord _ (RReply OK)); [|reflexivity|reflexivity].
  intros t m. unfold ex_coord. cbn. rewrite lookup_singleton_Some. intros [_ <-]. set_solver.
Defined.

Lemma cleanup_never_ends_witness :
  exists srv' ps', run_2pc "t" ["A"] (set_relatedBranches {["t" := {["A" := true]}]} ex_coord) ex_parts
      = Ret (srv', ps', CM_OK) /\
    cleanup "t" (replicate 10 Commit_reply) srv' = Block.
Proof.
  eexists _, _. split; [vm_compute; reflexivity|].
  match goal with |- cleanup _ _ ?s = _ =>
    exact (cleanup_never_ends "t" ["A"] (set_relatedBranches {["t" := {["A" := true]}]} ex_coord) ex_parts
      s _ CM_OK 10 eq_refl eq_refl eq_refl) end.
Defined.
