(* ===== verification/TxParse.v ===== *)
(** * TxParse: the coordinator's command and configuration parsers

    What [SendCoord] makes of every line, the round trip of the configuration
    file read by [Start], and the inputs that stop the server. *)
From Stdlib Require Import Ascii.
From S2P Require Import Prelude GoStrings TxLocks TxServer TxSpec TxCoord TxCoordProps.

Definition word (w : string) : bool :=
  negb (has_char space w) && negb (has_char nl w) && negb (has_char dot w).

Lemma word_spec w :
  word w = true -> has_char space w = false /\ has_char nl w = false /\ has_char dot w = false.
Proof. unfold word. by destruct (has_char space w), (has_char nl w), (has_char dot w). Qed.

(** ** What [SendCoord] makes of a line

    The lines by their shape, without the functions of the parser: [lacks] is a
    field without a separator, [ends] what may follow a field. *)
Definition lacks (c : ascii) (w : string) : Prop := has_char c w = false.
Definition ends (c : ascii) (rest : string) : Prop := rest = "" \/ exists s, rest = String c s.

(** The line without the newline it may end in. *)
Definition chomped (line body : string) : Prop :=
  line = body +:+ String nl "" \/ (line = body /\ forall s, line <> s +:+ String nl "").

(** A word that names an account: its branch, a dot, its name, and whatever
    follows another dot. *)
Inductive names : string -> string -> string -> Prop :=
  | names_intro b a rest :
      lacks dot b -> lacks dot a -> ends dot rest ->
      names (b +:+ String dot (a +:+ rest)) b a.

Inductive reads (tid : string) : string -> outcome Command -> Prop :=
  | reads_balance m w b a :
      lacks space m -> lacks space w -> names w b a ->
      reads tid (m +:+ String space w) (Ret (mkCommand tid b a m (-1)))
  | reads_amount m w b a n rest v :
      lacks space m -> lacks space w -> lacks space n -> ends space rest ->
      names w b a -> Atoi n = Some v ->
      reads tid (m +:+ String space (w +:+ String space (n +:+ rest))) (Ret (mkCommand tid b a m v))
  | reads_bad_amount m w n rest :
      lacks space m -> lacks space w -> lacks space n -> ends space rest -> Atoi n = None ->
      reads tid (m +:+ String space (w +:+ String space (n +:+ rest))) (Crash LogFatal)
  | reads_one_word m :
      lacks space m -> reads tid m (Crash IndexPanic)
  | reads_no_branch m w :
      lacks space m -> lacks space w -> lacks dot w ->
      reads tid (m +:+ String space w) (Crash IndexPanic)
  | reads_no_branch_amount m w n rest v :
      lacks space m -> lacks space w -> lacks space n -> ends space rest ->
      lacks dot w -> Atoi n = Some v ->
      reads tid (m +:+ String space (w +:+ String space (n +:+ rest))) (Crash IndexPanic).

Lemma TrimNewline_snoc s : TrimNewline (s +:+ String nl "") = s.
Proof.
  induction s as [|c s IH]; [done|]. rewrite append_cons.
  destruct (s +:+ String nl "") as [|d t] eqn:E; [by destruct s|].
  change (TrimNewline (String c (String d t))) with (String c (TrimNewline (String d t))).
  by rewrite IH.
Qed.

Lemma chomped_TrimNewline line : chomped line (TrimNewline line).
Proof.
  unfold chomped. induction line as [|c line IH].
  { right. split; [done|]. intros s Hs. by destruct s. }
  destruct line as [|d t].
  - cbn -[Ascii.eqb]. destruct (Ascii.eqb_spec c nl) as [->|Hc]; [by left|]. right. split; [done|].
    intros [|x [|y s]] Hs; rewrite ?append_cons in Hs; [|done..]. by injection Hs.
  - change (TrimNewline (String c (String d t))) with (String c (TrimNewline (String d t))).
    destruct IH as [IH|[IH Hno]]; [left; rewrite append_cons; congruence|right].
    split; [congruence|]. intros [|x s] Hs; [done|]. rewrite append_cons in Hs. injection Hs as _ Hs.
    by apply (Hno s).
Qed.

Lemma chomped_inj line body : chomped line body -> TrimNewline line = body.
Proof.
  intros [->|[-> Hno]]; [apply TrimNewline_snoc|].
  destruct (chomped_TrimNewline body) as [H|[H _]]; [by apply Hno in H|done].
Qed.

Lemma first_field sep s : exists w rest, s = w +:+ rest /\ lacks sep w /\ ends sep rest.
Proof.
  induction s as [|c s (w & rest & -> & Hw & Hr)]; [exists "", ""; by repeat split; left|].
  destruct (Ascii.eqb_spec c sep) as [->|Hc].
  - exists "", (String sep (w +:+ rest)). split_and!; [done|done|right; eauto].
  - exists (String c w), rest. split_and!; [done| |done]. unfold lacks. cbn.
    by destruct (Ascii.eqb_spec c sep).
Qed.

Lemma Split_field sep w rest :
  lacks sep w -> ends sep rest -> exists ws, Split sep (w +:+ rest) = w :: ws.
Proof.
  intros Hw [->|[s ->]]; [|by rewrite Split_cons; eauto].
  rewrite append_nil_r, Split_word by done. by exists [].
Qed.

Lemma names_Split w b a : names w b a -> exists ws, Split dot w = b :: a :: ws.
Proof.
  intros [b' a' rest Hb Ha Hr]. rewrite Split_cons by done.
  destruct (Split_field dot a' rest Ha Hr) as [ws ->]. by exists ws.
Qed.

(** A word names an account or lacks a dot. *)
Lemma names_or_not w : lacks dot w \/ exists b a, names w b a.
Proof.
  destruct (first_field dot w) as (b & rest & -> & Hb & [->|[s ->]]).
  - left. by rewrite append_nil_r.
  - destruct (first_field dot s) as (a & rest & -> & Ha & Hr). right. eauto using names.
Qed.

(** Every line has a shape... *)
Lemma reads_total tid body : exists r, reads tid body r.
Proof.
  destruct (first_field space body) as (m & rest & -> & Hm & [->|[s ->]]).
  { rewrite append_nil_r. eauto using reads. }
  destruct (first_field space s) as (w & rest & -> & Hw & [->|[s' ->]]).
  { rewrite append_nil_r. destruct (names_or_not w) as [|(b & a & ?)]; eauto using reads. }
  destruct (first_field space s') as (n & rest & -> & Hn & Hr).
  destruct (Atoi n) eqn:Hv; [|eauto using reads].
  destruct (names_or_not w) as [|(b & a & ?)]; eauto using reads.
Qed.

(** ... and the parser goes by it. *)
Lemma parse_cmd_reads tid line r : reads tid (TrimNewline line) r -> parse_cmd tid line = r.
Proof.
  unfold parse_cmd. generalize (TrimNewline line). intros body [ | | | | | ].
  - destruct (names_Split _ _ _ H1) as [ws Hs].
    rewrite Split_cons, Split_word, decide_True by done.
    change (go_index [m; ?x] 1) with (Ret x). rewrite bind_Ret_l, Hs. reflexivity.
  - destruct (names_Split _ _ _ H3) as [ws Hs]. destruct (Split_field space n rest H1 H2) as [vs Hv].
    rewrite !Split_cons, Hv, decide_False by done.
    change (go_index (m :: w :: n :: vs) 1) with (Ret w).
    change (go_index (m :: w :: n :: vs) 2) with (Ret n). by rewrite !bind_Ret_l, H4, Hs.
  - destruct (Split_field space n rest H1 H2) as [vs Hv].
    rewrite !Split_cons, Hv, decide_False by done.
    change (go_index (m :: w :: n :: vs) 1) with (Ret w).
    change (go_index (m :: w :: n :: vs) 2) with (Ret n). by rewrite !bind_Ret_l, H3.
  - by rewrite Split_word.
  - rewrite Split_cons, Split_word, decide_True by done.
    change (go_index [m; ?x] 1) with (Ret x). by rewrite bind_Ret_l, Split_word.
  - destruct (Split_field space n rest H1 H2) as [vs Hv].
    rewrite !Split_cons, Hv, decide_False by done.
    change (go_index (m :: w :: n :: vs) 1) with (Ret w).
    change (go_index (m :: w :: n :: vs) 2) with (Ret n). by rewrite !bind_Ret_l, H4, Split_word.
Qed.

(** C37 What [SendCoord] makes of a line that is none of BEGIN, COMMIT and
    ABORT, for every line.  One newline at its end does not count.  Of the form
    [m b.a], whatever the method [m], it is the command of [m] on the account [a]
    of branch [b] with the amount -1; of the form [m b.a n] with a number [n], that
    of amount [n]; what follows another dot or another space is ignored.  If [n]
    is not a number the server ends in [log.Fatal]; if there is no second word,
    or the second word has no dot, it indexes out of range. *)
Theorem parse_cmd_exact tid line r :
  parse_cmd tid line = r <-> exists body, chomped line body /\ reads tid body r.
Proof.
  split.
  - intros <-. destruct (reads_total tid (TrimNewline line)) as [r Hr].
    exists (TrimNewline line). split; [apply chomped_TrimNewline|].
    by rewrite (parse_cmd_reads tid line r Hr).
  - intros (body & <-%chomped_inj & Hr). by apply parse_cmd_reads.
Qed.

(** A line without an amount is taken with the amount -1 whatever its method
    (code bug): a WITHDRAW puts 1 into the account. *)
Example withdraw_without_amount :
  parse_cmd "t" "WITHDRAW A.x" = Ret (mkCommand "t" "A" "x" "WITHDRAW" (-1)).
Proof. reflexivity. Qed.

(** A line without a space that is none of BEGIN, COMMIT and ABORT -- a
    misspelt COMMIT, an empty line -- stops the whole server: [SendCoord] indexes
    the second word of the line (code bug).  So does a command for an account
    written without its branch. *)
Theorem unknown_line_stops_the_server dial tid cmdString srv :
  cmdString ∉ [BGN; CM; ABRT] ->
  (has_char space cmdString = false \/
   exists m a, cmdString = m +:+ " " +:+ a /\ word m = true /\ word a = true) ->
  SendCoord dial tid cmdString srv = Crash IndexPanic.
Proof.
  intros Hnot Hcmd. unfold SendCoord.
  rewrite !decide_False by (intros ->; apply Hnot; rewrite !elem_of_cons; tauto).
  assert (parse_cmd tid cmdString = Crash IndexPanic) as ->; [|done].
  destruct Hcmd as [Hs|(m & a & -> & (Ms & Mn & Md)%word_spec & (As & An & Ad)%word_spec)];
    unfold parse_cmd.
  - assert (has_char space (TrimNewline cmdString) = false) as Ht.
    { clear Hnot. revert Hs. induction cmdString as [|c s IH]; [done|]. intros [Hc Hs]%orb_false_elim.
      specialize (IH Hs). destruct s as [|d s]; cbn -[Ascii.eqb TrimNewline].
      - cbn -[Ascii.eqb]. destruct (Ascii.eqb c nl); [done|]. by rewrite has_char_string, Hc.
      - change (TrimNewline (String c (String d s))) with (String c (TrimNewline (String d s))).
        by rewrite has_char_string, Hc. }
    by rewrite (Split_word _ _ Ht).
  - assert (has_char nl (m +:+ " " +:+ a) = false) as Hn by (by rewrite !has_char_app, Mn, An).
    rewrite (TrimNewline_id _ Hn). change (" " +:+ a) with (String space a).
    rewrite Split_cons, Split_word by done. rewrite decide_True by done.
    change (go_index [m; ?x] 1) with (Ret x). by rewrite bind_Ret_l, Split_word.
Qed.

(** ** The configuration file *)

Definition config_line (e : string * branchAddr) : string :=
  e.1 +:+ " " +:+ addr e.2 +:+ " " +:+ aport e.2.

(** Lines separated, not ended, by newlines. *)
Fixpoint config_text (es : list (string * branchAddr)) : string :=
  match es with
  | [] => ""
  | [e] => config_line e
  | e :: es => config_line e +:+ String nl (config_text es)
  end.

Definition plain (w : string) : bool := negb (has_char space w) && negb (has_char nl w).

Definition entry_ok (e : string * branchAddr) : bool :=
  plain e.1 && plain (addr e.2) && plain (aport e.2).

Lemma plain_spec w : plain w = true -> has_char space w = false /\ has_char nl w = false.
Proof. unfold plain. by destruct (has_char space w), (has_char nl w). Qed.

Lemma entry_ok_spec e :
  entry_ok e = true ->
  has_char nl (config_line e) = false /\
  Split space (config_line e) = [e.1; addr e.2; aport e.2].
Proof.
  unfold entry_ok, config_line. intros [[H1 H2]%andb_prop H3]%andb_prop.
  apply plain_spec in H1 as [S1 N1], H2 as [S2 N2], H3 as [S3 N3].
  split; [by rewrite !has_char_app, N1, N2, N3|].
  change (" " +:+ aport e.2) with (String space (aport e.2)).
  change (" " +:+ ?s) with (String space s).
  by rewrite !Split_cons, Split_word by done.
Qed.

Lemma config_text_Split e es :
  Forall (fun e => entry_ok e = true) (e :: es) ->
  Split nl (config_text (e :: es)) = map config_line (e :: es).
Proof.
  revert e. induction es as [|e' es IH]; intros e Hall.
  - apply Forall_inv, entry_ok_spec in Hall as [Hn _]. by apply Split_word.
  - inversion Hall as [|? ? He Hes]; subst. apply entry_ok_spec in He as [Hn _].
    change (config_text (e :: e' :: es)) with (config_line e +:+ String nl (config_text (e' :: es))).
    rewrite Split_cons by done. by rewrite IH.
Qed.

Lemma readFile_line_ok line e srv :
  TrimNewline line = config_line e -> Split space (config_line e) = [e.1; addr e.2; aport e.2] ->
  readFile_line line srv =
    Ret (set_branchInfo (<[e.1 := e.2]> (branchInfo srv))
           (if decide (branch srv = e.1) then set_port (aport e.2) srv else srv)).
Proof.
  intros Hl Hs. unfold readFile_line. rewrite Hl, Hs. destruct e as [b [x y]]. cbn [fst snd addr aport].
  change (go_index [b; x; y] 0) with (Ret b). change (go_index [b; x; y] 1) with (Ret x).
  change (go_index [b; x; y] 2) with (Ret y). rewrite !bind_Ret_l.
  by destruct (decide (branch srv = b)).
Qed.

Lemma readFile_lines_ok es lines srv :
  map TrimNewline lines = map config_line es -> Forall (fun e => entry_ok e = true) es ->
  NoDup es.*1 ->
  exists srv', readFile_lines lines srv = Ret srv' /\ branch srv' = branch srv /\
    branchInfo srv' = list_to_map es ∪ branchInfo srv /\
    port srv' = match (list_to_map es : gmap string branchAddr) !! branch srv with
                | Some i => aport i | None => port srv end.
Proof.
  revert lines srv. induction es as [|[b i] es IH]; intros [|l lines] srv Hmap Hall Hnd; try done; cbn.
  { exists srv. cbn. split_and!; try done. by rewrite (left_id_L ∅ (∪)). }
  injection Hmap as Hl Hmap. apply NoDup_cons in Hnd as [Hb Hnd].
  inversion Hall as [|? ? He Hes]; subst. apply entry_ok_spec in He as [_ Hsp].
  rewrite (readFile_line_ok l (b, i) srv Hl Hsp), bind_Ret_l.
  match goal with |- context [readFile_lines lines ?s] =>
    destruct (IH lines s Hmap Hes Hnd) as (srv' & -> & Hbr & Hbi & Hpt) end.
  exists srv'. split; [done|].
  assert (list_to_map (M:=gmap string branchAddr) es !! b = None) as Hnone
    by (by apply not_elem_of_list_to_map_1).
  destruct i as [ia ip]. cbn -[decide] in *.
  rewrite Hbr, Hbi, Hpt. destruct (decide (branch srv = b)) as [Heq|Hne]; cbn; split_and!; try done.
  - by rewrite <-insert_union_l, <-insert_union_r by done.
  - by rewrite Heq, Hnone, lookup_insert_eq.
  - by rewrite <-insert_union_l, <-insert_union_r by done.
  - by rewrite lookup_insert_ne by done.
Qed.

(** The configuration file round trips: [Start] on the text of a list of
    branches with distinct names reads exactly these branches, and takes its own
    port from its own line. *)
Theorem Start_reads_config br e es :
  Forall (fun e => entry_ok e = true) (e :: es) -> NoDup (e :: es).*1 ->
  exists srv, Start br (config_text (e :: es)) = Ret srv /\ branch srv = br /\
    branchInfo srv = list_to_map (e :: es) /\
    (forall i, (br, i) ∈ e :: es -> port srv = aport i).
Proof.
  intros Hall Hnd. unfold Start, readFile.
  match goal with |- context [readFile_lines ?l ?s] =>
    destruct (readFile_lines_ok (e :: es) l s) as (srv & -> & Hbr & Hbi & Hpt) end; try done.
  { by rewrite ReadLines_Split, config_text_Split. }
  cbn [branch branchInfo port] in *. exists srv. split_and!; try done.
  - rewrite Hbi. apply (right_id_L ∅ (∪)).
  - intros i Hi. rewrite Hpt. by rewrite (elem_of_list_to_map_1 (e :: es) br i Hnd Hi).
Qed.

Lemma readFile_line_cases line srv :
  readFile_line line srv = Crash IndexPanic \/ exists srv', readFile_line line srv = Ret srv'.
Proof.
  assert (forall l (i : Z), go_index l i = Crash IndexPanic \/ exists w : string, go_index l i = Ret w)
    as Hgo by (intros l i; unfold go_index; case_decide; [case_match|]; eauto).
  unfold readFile_line.
  set (parsed := Split space (TrimNewline line)).
  destruct (Hgo parsed 0) as [H0|[w0 H0]]; rewrite H0; [by left|rewrite bind_Ret_l].
  destruct (Hgo parsed 1) as [H1|[w1 H1]]; rewrite H1; [by left|rewrite bind_Ret_l].
  destruct (Hgo parsed 2) as [H2|[w2 H2]]; rewrite H2; [by left|rewrite bind_Ret_l]. eauto.
Qed.

(** A configuration file that ends in a newline, as editors leave it, stops
    the server when it starts: the empty last line has no second word (code
    bug). *)
Theorem trailing_newline_stops_Start br content :
  Start br (content +:+ String nl "") = Crash IndexPanic.
Proof.
  assert (exists ls, ReadLines (content +:+ String nl "") = ls ++ [""]) as [ls Hls].
  { induction content as [|c s [ls IH]]; [by exists [String nl ""]|].
    rewrite append_cons. cbn -[Ascii.eqb]. rewrite IH. destruct (Ascii.eqb c nl).
    - by exists (String nl "" :: ls).
    - destruct ls as [|l ls]; [|by exists (String c l :: ls)]. exfalso. clear -IH.
      apply (f_equal length) in IH. revert IH. induction s as [|d s IHs]; [done|].
      rewrite append_cons. cbn -[Ascii.eqb].
      assert (exists l ls, ReadLines (s +:+ String nl "") = l :: ls) as (l & ls & Heq).
      { destruct (ReadLines (s +:+ String nl "")) eqn:E; [|eauto].
        by apply ReadLines_nonempty in E. }
      rewrite Heq in *. destruct (Ascii.eqb d nl); cbn in *; [lia|]. exact IHs. }
  unfold Start, readFile. rewrite Hls. generalize (mkServer br "" ∅ ∅ ∅ ∅ ∅). clear Hls content.
  induction ls as [|l ls IH]; intros srv; cbn [Datatypes.app readFile_lines].
  - by unfold readFile_line.
  - destruct (readFile_line_cases l srv) as [->|[srv' ->]]; [done|].
    rewrite bind_Ret_l. apply IH.
Qed.

(** ** Witnesses *)

Lemma unknown_line_stops_the_server_witness :
  SendCoord (fun _ => true) "t" "COMIT" (mkServer "A" "" ∅ ∅ ∅ ∅ ∅) = Crash IndexPanic.
Proof.
  refine (unknown_line_stops_the_server (fun _ => true) "t" "COMIT" _ _ _).
  - rewrite !elem_of_cons. intros [|[|[|H]]]; [discriminate..|]. by apply not_elem_of_nil in H.
  - left. reflexivity.
Defined.

Lemma Start_reads_config_witness :
  exists srv, Start "B" (config_text [("A", mkBranchAddr "localhost" "10001");
                                      ("B", mkBranchAddr "localhost" "10002")]) = Ret srv /\
    port srv = "10002".
Proof.
  destruct (Start_reads_config "B" ("A", mkBranchAddr "localhost" "10001")
    [("B", mkBranchAddr "localhost" "10002")]) as (srv & Hs & _ & _ & Hp).
  - repeat constructor.
  - apply NoDup_cons. split; [|apply NoDup_singleton].
    intros H%list_elem_of_singleton. discriminate.
  - exists srv. split; [exact Hs|]. apply (Hp (mkBranchAddr "localhost" "10002")).
    right. left.
Defined.
