(* ===== verification/TxClient.v ===== *)
(** * TxClient: the client of the transactions demo

    Models [transactions-demo/client/client.go]: [readConfig], and the loop of
    [processTransaction] cut at the remote call -- [submit] is what a turn does
    before it, [finished] what it decides on the reply.  The random number of
    [Intn(5)] and the servers are arguments. *)
From Stdlib Require Import Ascii.
From S2P Require Import Prelude GoStrings TxLocks TxServer TxCoord TxParse.

Record branchInfo : Set := mkBranchInfo { biBranch : string; biAddr : string; biPort : string }.
Record Client : Set := mkClient { id : string; branches : list branchInfo }.

(** ** [readConfig] *)

Definition readConfig_line (line : string) (cli : Client) : outcome Client :=
  let parsed := Split space (TrimNewline line) in
  curBranch ← go_index parsed 0;
  curAddr ← go_index parsed 1;
  curPort ← go_index parsed 2;
  Ret {| id := id cli; branches := branches cli ++ [mkBranchInfo curBranch curAddr curPort] |}.

Fixpoint readConfig_lines (lines : list string) (cli : Client) : outcome Client :=
  match lines with
  | [] => Ret cli
  | line :: lines => cli' ← readConfig_line line cli; readConfig_lines lines cli'
  end.

Definition readConfig (content : string) (cli : Client) : outcome Client :=
  readConfig_lines (ReadLines content) cli.

(** Lines 118-124 of [main]: a fresh id and the configuration. *)
Definition main_client (uuid content : string) : outcome Client :=
  readConfig content {| id := uuid; branches := [] |}.

Definition main (file : string -> string) (args : list string) (uuid : string) : outcome Client :=
  _ ← CheckError (if decide (length args <> 2%nat) then Some "usage: ./client [client id] [configuration file]"
                  else None);
  fp ← go_index args 1;
  main_client uuid (file fp).

(** ** [processTransaction] *)

(** [strings.Trim(line, " \r\n")] *)
Definition cutset (c : ascii) : bool :=
  Ascii.eqb c " " || Ascii.eqb c "013" || Ascii.eqb c "010".

Fixpoint TrimLeft (s : string) : string :=
  match s with
  | String c s' => if cutset c then TrimLeft s' else s
  | EmptyString => ""
  end.

Fixpoint TrimRight (s : string) : string :=
  match s with
  | String c s' =>
      match TrimRight s' with
      | EmptyString => if cutset c then "" else String c ""
      | t => String c t
      end
  | EmptyString => ""
  end.

Definition Trim (s : string) : string := TrimRight (TrimLeft s).

(** What [ReadString] gives before [io.EOF]: an unfinished last line is lost. *)
Definition input_lines (input : string) : list string := removelast (ReadLines input).

(** A turn of the loop up to the call of [SendCoord]: [BEGIN] picks a
    coordinator; the call is made on [coordClient], nil before the first
    [BEGIN].  The result is the address it goes to and the command. *)
Definition submit (cli : Client) (rand : Z) (dial : string -> bool) (line : string)
    (coordClient : option string) : outcome (string * string) :=
  let line := Trim line in
  coordClient ←
    (if decide (line = BGN) then
       coordinator ← go_index (branches cli) (rand mod 5);
       let a := biAddr coordinator +:+ ":" +:+ biPort coordinator in
       if dial a then Ret (Some a) else Crash LogFatal
     else Ret coordClient);
  match coordClient with
  | Some a => Ret (a, line)
  | None => Crash NilDeref
  end.

(** Lines 95-106: does the reply, which is printed, end the session? *)
Definition finished (reply : string) : bool :=
  bool_decide (reply = ABRT_OK) || bool_decide (reply = NF_ABRT) || bool_decide (reply = CM_OK).

Section session.
Context {St : Type} (dial : string -> bool) (serve : St -> string -> string -> string -> outcome (St * string)).

(** The loop: [input] are the lines with the number drawn in each turn,
    [serve st address tid cmd] is the answer of the server at the address.  The
    result are the requests made and what was printed. *)
Fixpoint processTransaction (cli : Client) (input : list (string * Z)) (coordClient : option string) (st : St)
    : outcome (St * list (string * string)) :=
  match input with
  | [] => Ret (st, [])
  | (line, rand) :: input =>
      '(a, cmd) ← submit cli rand dial line coordClient;
      '(st, reply) ← serve st a (id cli) cmd;
      if finished reply then Ret (st, [(cmd, reply)])
      else
        '(st, rest) ← processTransaction cli input (Some a) st;
        Ret (st, (cmd, reply) :: rest)
  end.

(** A session sends the lines of its input one by one, trimmed, each after
    the reply to the one before, and stops at the first reply that ends a
    transaction: what it has sent is a beginning of the input, only the last
    reply can be such a reply, and unless it is one all lines were sent. *)
Theorem session_follows_the_input cli input coordClient st st' log :
  processTransaction cli input coordClient st = Ret (st', log) ->
  log.*1 `prefix_of` map (fun x => Trim x.1) input /\
  (forall l1 x l2, log = l1 ++ x :: l2 -> finished x.2 = true -> l2 = []) /\
  (length log = length input \/ exists x, last log = Some x /\ finished x.2 = true) /\
  (coordClient = None -> forall x rest, log = x :: rest -> x.1 = BGN).
Proof.
  revert coordClient st log. induction input as [|[line rand] input IH]; intros co st log; cbn [processTransaction].
  { intros [= <- <-]. split; [done|]. split; [by intros []|]. split; [by left|done]. }
  intros H. bind_inv H. destruct r as [a cmd]. bind_inv H. destruct r as [st1 reply].
  assert (cmd = Trim line /\ (co = None -> cmd = BGN)) as [-> Hbgn].
  { unfold submit in E. destruct (decide (Trim line = BGN)) as [Hb|Hb].
    - bind_inv E. destruct r as [a'|]; [|done]. injection E as <- <-. done.
    - rewrite bind_Ret_l in E. destruct co as [a'|]; [|done]. injection E as <- <-. done. }
  destruct (finished reply) eqn:Hf.
  - injection H as <- <-. split; [by eexists|]. split; [|split].
    + intros [|y l1] x l2 [= <- Hl] _; [done|by destruct l1].
    + right. by eexists.
    + intros Hc x rest [= <- <-]. by apply Hbgn.
  - bind_inv H. destruct r as [st2 rest]. injection H as <- <-.
    destruct (IH _ _ _ E1) as (Hp & Hfin & Hlen & _). split; [|split; [|split]].
    + cbn. by apply prefix_cons.
    + intros [|y l1] x l2 [= <- Hl] Hx; [cbn in Hx; congruence|]. by apply (Hfin l1 x).
    + destruct Hlen as [Hlen|(x & Hx & Hfx)]; [left; cbn; by rewrite Hlen|]. right. exists x.
      split; [|done]. destruct rest; [done|exact Hx].
    + intros Hc x l [= <- <-]. by apply Hbgn.
Qed.
End session.

(** ** The configuration *)

Definition info_of (e : string * branchAddr) : branchInfo := mkBranchInfo e.1 (addr e.2) (aport e.2).

Lemma readConfig_lines_ok es lines cli :
  map TrimNewline lines = map config_line es -> Forall (fun e => entry_ok e = true) es ->
  readConfig_lines lines cli = Ret {| id := id cli; branches := branches cli ++ map info_of es |}.
Proof.
  revert lines cli. induction es as [|[b [x y]] es IH]; intros [|l lines] cli Hmap Hall; try done; cbn.
  { rewrite app_nil_r. by destruct cli. }
  injection Hmap as Hl Hmap. inversion Hall as [|? ? He Hes]; subst.
  apply entry_ok_spec in He as [_ Hsp]. unfold readConfig_line. rewrite Hl, Hsp. cbn [fst snd addr aport].
  change (go_index [b; x; y] 0) with (Ret b). change (go_index [b; x; y] 1) with (Ret x).
  change (go_index [b; x; y] 2) with (Ret y). rewrite !bind_Ret_l, (IH lines _ Hmap Hes). cbn.
  by rewrite <- (assoc_L (++)).
Qed.

(** Client and servers agree on the configuration: the client reads from the
    text of a configuration its branches in order, and [BEGIN] calls the server
    whose number was drawn, at the address that [Start] reads for that branch.
    A number without a branch, as is drawn with fewer than five branches, stops
    the client. *)
Theorem BEGIN_calls_a_server uuid e es rand dial co :
  Forall (fun e => entry_ok e = true) (e :: es) -> NoDup (e :: es).*1 ->
  exists cli, main_client uuid (config_text (e :: es)) = Ret cli /\ id cli = uuid /\
    branches cli = map info_of (e :: es) /\
    forall line, Trim line = BGN ->
      match (e :: es) !! Z.to_nat (rand mod 5) with
      | None => submit cli rand dial line co = Crash IndexPanic
      | Some (b, i) =>
          let a := addr i +:+ ":" +:+ aport i in
          submit cli rand dial line co = (if dial a then Ret (a, BGN) else Crash LogFatal) /\
          forall br, exists srv, Start br (config_text (e :: es)) = Ret srv /\
            TxCoord.branchInfo srv !! b = Some i
      end.
Proof.
  intros Hall Hnd. exists {| id := uuid; branches := map info_of (e :: es) |}. split.
  { unfold main_client, readConfig. rewrite (readConfig_lines_ok (e :: es)); [done| |done].
    by rewrite ReadLines_Split, config_text_Split. }
  split; [done|]. split; [done|]. intros line Hline. unfold submit. rewrite Hline, decide_True by done.
  cbn [branches]. pose proof (Z.mod_pos_bound rand 5 ltac:(lia)) as Hr. unfold go_index.
  rewrite decide_True by lia. change (map info_of) with (fmap (M := list) info_of). rewrite list_lookup_fmap.
  destruct ((e :: es) !! Z.to_nat (rand mod 5)) as [[b i]|] eqn:Hk; [|done]. cbn. split.
  - by destruct (dial _).
  - intros br. destruct (Start_reads_config br e es Hall Hnd) as (srv & Hs & _ & Hbi & _).
    exists srv. split; [done|]. rewrite Hbi. apply elem_of_list_to_map_1; [done|].
    by eapply list_elem_of_lookup_2.
Qed.

(** ** Witnesses *)

Lemma session_follows_the_input_witness :
  let serve (n : Z) (a tid cmd : string) := Ret (n + 1, if decide (cmd = CM) then CM_OK else OK) in
  let input := [("BEGIN
", 7); ("DEPOSIT A.x 5
", 0); (" COMMIT
", 0); ("BALANCE A.x
", 0)] in
  let log := [(BGN, OK); ("DEPOSIT A.x 5", OK); (CM, CM_OK)] in
  processTransaction (fun _ => true) serve
    (mkClient "t" [mkBranchInfo "A" "h" "1"; mkBranchInfo "B" "h" "2"; mkBranchInfo "C" "h" "3"]) input None 0 =
    Ret (3, log) /\
  log.*1 `prefix_of` map (fun x => Trim x.1) input.
Proof.
  intros serve input log. split; [vm_compute; reflexivity|].
  refine (proj1 (session_follows_the_input (fun _ => true) serve
    (mkClient "t" [mkBranchInfo "A" "h" "1"; mkBranchInfo "B" "h" "2"; mkBranchInfo "C" "h" "3"]) input None 0 3 log _)).
  vm_compute. reflexivity.
Defined.

Lemma BEGIN_calls_a_server_witness :
  exists cli, main_client "u" (config_text [("A", mkBranchAddr "h" "1"); ("B", mkBranchAddr "h" "2")]) = Ret cli /\
    submit cli 6 (fun _ => true) "BEGIN" None = Ret ("h:2", BGN) /\
    submit cli 2 (fun _ => true) "BEGIN" None = Crash IndexPanic.
Proof.
  assert (Forall (fun e => entry_ok e = true) [("A", mkBranchAddr "h" "1"); ("B", mkBranchAddr "h" "2")]) as Hall
    by (repeat constructor).
  assert (NoDup [("A", mkBranchAddr "h" "1"); ("B", mkBranchAddr "h" "2")].*1) as Hnd.
  { apply NoDup_cons. split; [|apply NoDup_singleton]. intros H%list_elem_of_singleton. discriminate. }
  destruct (BEGIN_calls_a_server "u" ("A", mkBranchAddr "h" "1") [("B", mkBranchAddr "h" "2")] 6
    (fun _ => true) None Hall Hnd) as (cli & Hc & _ & _ & Hb).
  destruct (BEGIN_calls_a_server "u" ("A", mkBranchAddr "h" "1") [("B", mkBranchAddr "h" "2")] 2
    (fun _ => true) None Hall Hnd) as (cli' & Hc' & _ & _ & Hb').
  assert (cli' = cli) as -> by congruence. exists cli. split; [exact Hc|]. split.
  - exact (proj1 (Hb "BEGIN" eq_refl)).
  - exact (Hb' "BEGIN" eq_refl).
Defined.
