(* ===== verification/TxSystem.v ===== *)
(** * TxSystem: the whole bank

    The clients of [client.go], the coordinators of [server/rpc.go] and the
    participants as one system.  A session is a client with its transaction:
    where its current call is, and what the transaction has on its way -- the
    [Prepare] calls that have not arrived ([pend]), the answers that have not
    ([fly]) and those the coordinator has read ([got]), the [Commit] calls that
    have not arrived ([commits]).  An event moves one of these, in any order; a
    crash of a server ends the run.

    The theorems discharge what [TxServer] assumes of its callers: every
    participant of the system is in a state of a disciplined run. *)
From S2P Require Import Prelude GoStrings TxLocks TxServer TxSpec TxProps TxCoord TxCoordProps TxClient.

(** Where the client's call is; [b] is the branch of the coordinator. *)
Inductive sphase : Set :=
  | Ready                                         (* the client reads its next line *)
  | Sent (b : string) (cmd : Command)             (* [ForwardCmd] is on its way *)
  | Running (b : string) (cmd : Command) (i : nat) (* it is the [i]-th call there *)
  | Voting (b : string)                           (* [TwoPhaseCommit] collects *)
  | Over.                                         (* the client has ended *)

Record session : Set := mkSession {
  cli : Client;
  conn : option string;                           (* [coordClient] *)
  ph : sphase;
  pend : list string;
  fly : list (string * bool);
  got : list (string * bool);
  commits : list (string * bool);
  replied : list string;                          (* what the client printed *)
}.

Record system : Type := mkSystem {
  coords : gmap string Server;
  parts : gmap string participant;
  sessions : gmap string session;
}.

Definition set_coord b srv (S : system) : system :=
  {| coords := <[b := srv]> (coords S); parts := parts S; sessions := sessions S |}.
Definition set_part b p (S : system) : system :=
  {| coords := coords S; parts := <[b := p]> (parts S); sessions := sessions S |}.
Definition set_session tid s (S : system) : system :=
  {| coords := coords S; parts := parts S; sessions := <[tid := s]> (sessions S) |}.

(** The client reads on, or ends. *)
Definition after_reply (r : string) : sphase := if finished r then Over else Ready.

Definition new_session (c : Client) : session :=
  {| cli := c; conn := None; ph := Ready; pend := []; fly := []; got := []; commits := []; replied := [] |}.

(** The phase, the connection and the reply change. *)
Definition goes (p : sphase) (co : option string) (r : list string) (s : session) : session :=
  {| cli := cli s; conn := co; ph := p; pend := pend s; fly := fly s; got := got s;
     commits := commits s; replied := replied s ++ r |}.

(** The client has its last reply, and the [Commit] calls are made. *)
Definition decided (v : verdict) (reply : string) (s : session) : session :=
  {| cli := cli s; conn := conn s; ph := Over; pend := pend s; fly := fly s; got := got s;
     commits := map (fun b => (b, vDoCommit v)) (vBranches v); replied := replied s ++ [reply] |}.

Inductive sevent : Type :=
  | VStart (c : Client)
  | VLine (tid line : string) (rand : Z)
  | VEof (tid : string)
  | VDeliver (tid : string)                       (* the command arrives *)
  | VServe (b : string) (acquire : bool) (i : nat) (* a call gets its lock, or does its work *)
  | VReply (tid : string)                         (* its reply arrives *)
  | VPrepare (tid : string) (k : nat)
  | VVote (tid : string) (k : nat)
  | VDecide (tid : string)
  | VCommit (tid : string) (k : nat)
  | VCleanup (tid b : string).

Section system.
Context `{RangeOrder} (site : string -> option string).

(** [site a]: the branch whose server answers at the address. *)
Definition dial (a : string) : bool := bool_decide (is_Some (site a)).

(** What [SendCoord] does next, on the coordinator [b]. *)
Definition dispatch (tid b : string) (s : session) (srv : Server) (req : request) (S : system) : outcome system :=
  match req with
  | RReply r => Ret (set_coord b srv (set_session tid (goes (after_reply r) (conn s) [r] s) S))
  | RForward c => Ret (set_coord b srv (set_session tid (goes (Sent b c) (conn s) [] s) S))
  | RAbort =>
      let '(srv, v) := DoAbort tid srv in
      Ret (set_coord b srv (set_session tid (decided v (vReply v) s) S))
  | RTwoPhase =>
      match TwoPhaseCommit tid [] srv with
      | Crash c => Crash c
      | Ret (srv, v) => Ret (set_coord b srv (set_session tid (decided v (vReply v) s) S))
      | Block =>
          Ret (set_coord b srv (set_session tid
                 {| cli := cli s; conn := conn s; ph := Voting b; pend := (range (related srv tid)).*1;
                    fly := []; got := []; commits := []; replied := replied s |} S))
      end
  end.

(** A line of the client [s]: [submit], then [SendCoord] at the coordinator. *)
Definition send_line (tid line : string) (rand : Z) (s : session) (S : system) : outcome system :=
  match submit (cli s) rand dial line (conn s) with
  | Ret (a, cmd) =>
      match (b ← site a; pair b <$> coords S !! b) with
      | Some (b, srv) =>
          '(srv, req) ← SendCoord dial tid cmd srv;
          dispatch tid b (goes Ready (Some a) [] s) srv req S
      | None => Ret (set_session tid (goes Over None [] s) S)
      end
  | Crash _ => Ret (set_session tid (goes Over None [] s) S)      (* the client ends *)
  | Block => Block
  end.

Definition deliver (tid : string) (s : session) (S : system) : outcome system :=
  match ph s with
  | Sent b c =>
      match parts S !! Branch c with
      | Some p =>
          p' ← step (Branch c) (EForward c) p;
          Ret (set_part (Branch c) p' (set_session tid (goes (Running b c (length (calls p))) (conn s) [] s) S))
      | None => Block
      end
  | _ => Block
  end.

Definition reply (tid : string) (s : session) (S : system) : outcome system :=
  match ph s with
  | Running b c i =>
      match coords S !! b, p ← parts S !! Branch c; calls p !! i with
      | Some srv, Some (_, Finished r) =>
          let '(srv, v) := SendCoord_end tid r srv in
          Ret (set_coord b srv (set_session tid
                 (match v with Some v => decided v r s | None => goes (after_reply r) (conn s) [r] s end) S))
      | _, _ => Block
      end
  | _ => Block
  end.

Definition prepare (tid : string) (k : nat) (s : session) (S : system) : outcome system :=
  match pend s !! k with
  | Some b =>
      match parts S !! b with
      | Some p =>
          p' ← step b (EPrepare tid) p;
          Ret (set_part b p' (set_session tid
                 {| cli := cli s; conn := conn s; ph := ph s; pend := delete k (pend s);
                    fly := fly s ++ [(b, Prepare tid (app p))]; got := got s; commits := commits s;
                    replied := replied s |} S))
      | None => Block
      end
  | None => Block
  end.

Definition vote (tid : string) (k : nat) (s : session) (S : system) : outcome system :=
  match fly s !! k with
  | Some x =>
      Ret (set_session tid
             {| cli := cli s; conn := conn s; ph := ph s; pend := pend s; fly := delete k (fly s);
                got := got s ++ [x]; commits := commits s; replied := replied s |} S)
  | None => Block
  end.

Definition decide_2pc (tid : string) (s : session) (S : system) : outcome system :=
  match ph s with
  | Voting b =>
      match coords S !! b with
      | Some srv =>
          '(srv, v) ← TwoPhaseCommit tid (got s).*2 srv;
          Ret (set_coord b srv (set_session tid (decided v (vReply v) s) S))
      | None => Block
      end
  | _ => Block
  end.

Definition commit (tid : string) (k : nat) (s : session) (S : system) : outcome system :=
  match commits s !! k with
  | Some (b, doCommit) =>
      match parts S !! b with
      | Some p =>
          p' ← step b (ECommit tid doCommit) p;
          Ret (set_part b p' (set_session tid
                 {| cli := cli s; conn := conn s; ph := ph s; pend := pend s; fly := fly s; got := got s;
                    commits := delete k (commits s); replied := replied s |} S))
      | None => Block
      end
  | None => Block
  end.

(** The clean-up of a transaction that used no branch. *)
Definition clean (tid b : string) (s : session) (S : system) : outcome system :=
  match ph s, coords S !! b with
  | Over, Some srv => srv ← cleanup tid [] srv; Ret (set_coord b srv S)
  | _, _ => Block
  end.

Definition exec (e : sevent) (S : system) : outcome system :=
  let on tid (f : session -> system -> outcome system) :=
    match sessions S !! tid with Some s => f s S | None => Block end in
  match e with
  | VStart c =>
      match sessions S !! id c with
      | None => Ret (set_session (id c) (new_session c) S)
      | Some _ => Block
      end
  | VLine tid line rand =>
      on tid (fun s S => match ph s with Ready => send_line tid line rand s S | _ => Block end)
  | VEof tid =>
      on tid (fun s S => match ph s with
                         | Ready => Ret (set_session tid (goes Over (conn s) [] s) S)
                         | _ => Block end)
  | VDeliver tid => on tid (deliver tid)
  | VServe b acquire i =>
      match parts S !! b with
      | Some p => p' ← step b (if acquire then EAcquire i else EBody i) p; Ret (set_part b p' S)
      | None => Block
      end
  | VReply tid => on tid (reply tid)
  | VPrepare tid k => on tid (prepare tid k)
  | VVote tid k => on tid (vote tid k)
  | VDecide tid => on tid (decide_2pc tid)
  | VCommit tid k => on tid (commit tid k)
  | VCleanup tid b => on tid (clean tid b)
  end.

Fixpoint exec_all (es : list sevent) (S : system) : outcome system :=
  match es with
  | [] => Ret S
  | e :: es => S' ← exec e S; exec_all es S'
  end.

(** The servers as [Start] leaves them, and nobody connected. *)
Definition fresh_system (S : system) : Prop :=
  (forall b srv, coords S !! b = Some srv -> exists content, Start b content = Ret srv) /\
  (forall b p, parts S !! b = Some p -> p = new_participant) /\ sessions S = ∅.

Inductive system_reachable : system -> Prop :=
  | sys_start S : fresh_system S -> system_reachable S
  | sys_exec S e S' : system_reachable S -> exec e S = Ret S' -> system_reachable S'.
End system.

(** ** What other transactions see *)

(** Nothing changes for the transaction [t] at a participant but its calls
    getting on. *)
Definition quiet (t : string) (p p' : participant) : Prop :=
  (forall i c, calls p' !! i = Some c -> unfinished t c = true ->
     exists c0, calls p !! i = Some c0 /\ unfinished t c0 = true) /\
  prepared p' !! t = prepared p !! t.

Definition coord_quiet (t : string) (srv srv' : Server) : Prop :=
  relatedBranches srv' !! t = relatedBranches srv !! t /\ canCommit srv' !! t = canCommit srv !! t.

Definition sys_quiet (t : string) (S S' : system) : Prop :=
  (forall b, option_Forall2 (quiet t) (parts S !! b) (parts S' !! b)) /\
  (forall b, option_Forall2 (coord_quiet t) (coords S !! b) (coords S' !! b)).

#[export] Instance quiet_refl t : Reflexive (quiet t).
Proof. intros p. split; [by eauto|done]. Qed.
#[export] Instance coord_quiet_refl t : Reflexive (coord_quiet t).
Proof. by intros srv. Qed.

Lemma quiet_idle t p p' : quiet t p p' -> idle p t = true -> idle p' t = true.
Proof.
  intros [Hq _]. rewrite !idle_spec. intros Hid i c Hc. destruct (unfinished t c) eqn:Hu; [|done].
  destruct (Hq i c Hc Hu) as (c0 & Hc0 & Hu0). by rewrite (Hid i c0 Hc0) in Hu0.
Qed.

(** The transaction an event of a participant belongs to. *)
Definition of_tid (t : string) (e : event) : bool :=
  match e with
  | EForward cmd => bool_decide (Tid cmd = t)
  | EAcquire _ | EBody _ => false
  | EPrepare t' | ECommit t' _ => bool_decide (t' = t)
  end.

Lemma quiet_insert_call t p p' i c0 c1 :
  calls p !! i = Some c0 -> calls p' = <[i := c1]> (calls p) -> prepared p' = prepared p ->
  (unfinished t c1 = true -> unfinished t c0 = true) -> quiet t p p'.
Proof.
  intros Hi Hc Hp Hu. split; [|by rewrite Hp]. intros j c. rewrite Hc. destruct (decide (i = j)) as [<-|Hne].
  - rewrite list_lookup_insert_eq by by eapply lookup_lt_Some. intros [= <-] H1. exists c0. auto.
  - rewrite list_lookup_insert_ne by done. by eauto.
Qed.

Section frame.
Context `{RangeOrder}.

Lemma step_quiet b e p p' t :
  step b e p = Ret p' -> of_tid t e = false -> quiet t p p'.
Proof.
  intros Hs Ht. destruct e as [cmd|i|i|t'|t' doCommit]; cbn in Hs, Ht.
  - apply bool_decide_eq_false_1 in Ht. bind_inv Hs. destruct r as [a phs]. injection Hs as <-. split.
    + cbn. intros i c [Hc|[_ Hc]]%lookup_app_Some Hu; [by eauto|].
      apply list_lookup_singleton_Some in Hc as [_ <-].
      apply unfinished_Tid in Hu. cbn in Hu. congruence.
    + cbn. by rewrite lookup_delete_ne.
  - destruct (calls p !! i) as [[cmd [r| |r]]|] eqn:Hi; try done. bind_inv Hs. injection Hs as <-.
    by eapply (quiet_insert_call t p _ i (cmd, Waiting r) (cmd, Locked)).
  - destruct (calls p !! i) as [[cmd [r| |r]]|] eqn:Hi; try done. bind_inv Hs. destruct r as [a rep].
    injection Hs as <-. eapply (quiet_insert_call t p _ i (cmd, Locked) (cmd, Finished rep)); [done..|].
    unfold unfinished. cbn. by rewrite andb_false_r.
  - apply bool_decide_eq_false_1 in Ht. injection Hs as <-. split; cbn; [by eauto|].
    by rewrite lookup_insert_ne.
  - apply bool_decide_eq_false_1 in Ht. bind_inv Hs. destruct r as [a out]. injection Hs as <-.
    split; cbn; [by eauto|]. by rewrite lookup_delete_ne.
Qed.

Lemma sys_quiet_part t b p p' S :
  parts S !! b = Some p -> quiet t p p' -> sys_quiet t S (set_part b p' S).
Proof.
  intros Hp Hq. split; intros b'; cbn; [|by destruct (coords S !! b'); constructor].
  destruct (decide (b = b')) as [<-|Hne].
  - rewrite lookup_insert_eq, Hp. by constructor.
  - rewrite lookup_insert_ne by done. by destruct (parts S !! b'); constructor.
Qed.

Lemma sys_quiet_coord t b srv srv' S :
  coords S !! b = Some srv -> coord_quiet t srv srv' -> sys_quiet t S (set_coord b srv' S).
Proof.
  intros Hp Hq. split; intros b'; cbn; [by destruct (parts S !! b'); constructor|].
  destruct (decide (b = b')) as [<-|Hne].
  - rewrite lookup_insert_eq, Hp. by constructor.
  - rewrite lookup_insert_ne by done. by destruct (coords S !! b'); constructor.
Qed.

(** The coordinator works on one transaction at a time. *)
Lemma forget_quiet t tid srv : t <> tid -> coord_quiet t srv (forget tid srv).
Proof. intros Ht. unfold forget. split; cbn; by rewrite lookup_delete_ne. Qed.

Lemma collect_quiet t tid replies srv srv' :
  t <> tid -> collect tid replies srv = Ret srv' -> coord_quiet t srv srv'.
Proof.
  intros Ht. revert srv. induction replies as [|r replies IH]; intros srv; cbn;
    destruct (all_can srv tid); try (by intros [= <-]).
  destruct r; [|by intros [= <-]]. intros [H1 H2]%IH. cbn in *. rewrite lookup_insert_ne in H2 by done. by split.
Qed.

Lemma TwoPhaseCommit_quiet t tid replies srv srv' v :
  t <> tid -> TwoPhaseCommit tid replies srv = Ret (srv', v) -> coord_quiet t srv srv'.
Proof.
  intros Ht. unfold TwoPhaseCommit. destruct (relatedBranches srv !! tid); [|done].
  case_decide; [|done]. intros Hc. bind_inv Hc. apply (collect_quiet t) in E; [|done].
  destruct (all_can r tid); injection Hc as <- <-; [done|].
  destruct (forget_quiet t tid r Ht) as [H1 H2], E as [H3 H4]. split; [by rewrite H1|by rewrite H2].
Qed.

Lemma SendCoord_quiet t dl tid cmd srv srv' req :
  t <> tid -> SendCoord dl tid cmd srv = Ret (srv', req) -> coord_quiet t srv srv'.
Proof.
  intros Ht. unfold SendCoord.
  case_decide; [intros [= <- <-]; split; cbn; by rewrite lookup_insert_ne|].
  case_decide; [by intros [= <- <-]|]. case_decide; [by intros [= <- <-]|].
  intros Hs. bind_inv Hs. bind_inv Hs. bind_inv Hs. injection Hs as <- <-.
  destruct (connect_spec _ _ _ _ E0) as (_ & _ & Hr1 & Hc1).
  destruct (relate_spec _ _ _ _ E1) as (_ & Hc2 & _ & Hot). split; [by rewrite Hot, Hr1|by rewrite Hc2, Hc1].
Qed.
End frame.

(** ** The invariant *)

Definition idle_all (t : string) (S : system) : Prop :=
  forall b p, parts S !! b = Some p -> idle p t = true.
(** No coordinator counts a yes for the transaction. *)
Definition no_yes (t : string) (S : system) : Prop :=
  forall b srv, coords S !! b = Some srv -> default 0 (canCommit srv !! t) = 0.
Definition nothing_sent (s : session) : Prop :=
  pend s = [] /\ fly s = [] /\ got s = [] /\ commits s = [].
(** The branches marked true have prepared since the transaction's last command. *)
Definition said_yes (t : string) (l : list (string * bool)) (S : system) : Prop :=
  forall b p, (b, true) ∈ l -> parts S !! b = Some p -> prepared p !! t = Some true.

Definition sess_ok (t : string) (s : session) (S : system) : Prop :=
  match ph s with
  | Ready => idle_all t S /\ no_yes t S /\ nothing_sent s
  | Sent _ c => Tid c = t /\ idle_all t S /\ no_yes t S /\ nothing_sent s
  | Running _ c i =>
      no_yes t S /\ nothing_sent s /\
      forall b p j c', parts S !! b = Some p -> calls p !! j = Some c' -> unfinished t c' = true ->
        b = Branch c /\ j = i
  | Voting b =>
      idle_all t S /\ no_yes t S /\ commits s = [] /\ said_yes t (fly s ++ got s) S /\
      exists srv m, coords S !! b = Some srv /\ relatedBranches srv !! t = Some m /\
        pend s ++ (fly s).*1 ++ (got s).*1 ≡ₚ (map_to_list m).*1
  | Over =>
      idle_all t S /\ NoDup (commits s).*1 /\ said_yes t (commits s) S /\
      (forall b, (b, true) ∈ commits s -> pend s = [])
  end.

Section invariant.
Context `{RangeOrder} (site : string -> option string).

Definition sys_ok (S : system) : Prop :=
  (forall b p, parts S !! b = Some p -> reachable b disciplined p) /\
  (forall t, match sessions S !! t with
             | Some s => sess_ok t s S
             | None => idle_all t S /\ no_yes t S
             end).

(** A participant or a coordinator of the later state, in the earlier one. *)
Lemma sys_quiet_parts t S S' b p' :
  sys_quiet t S S' -> parts S' !! b = Some p' -> exists p, parts S !! b = Some p /\ quiet t p p'.
Proof. intros [Hp _] Hb. specialize (Hp b). rewrite Hb in Hp. inversion Hp; subst. by eexists. Qed.
Lemma sys_quiet_coords t S S' b srv' :
  sys_quiet t S S' -> coords S' !! b = Some srv' -> exists srv, coords S !! b = Some srv /\ coord_quiet t srv srv'.
Proof. intros [_ Hp] Hb. specialize (Hp b). rewrite Hb in Hp. inversion Hp; subst. by eexists. Qed.
Lemma sys_quiet_coords' t S S' b srv :
  sys_quiet t S S' -> coords S !! b = Some srv -> exists srv', coords S' !! b = Some srv' /\ coord_quiet t srv srv'.
Proof. intros [_ Hp] Hb. specialize (Hp b). rewrite Hb in Hp. inversion Hp; subst. by eexists. Qed.

Lemma idle_all_quiet t S S' : sys_quiet t S S' -> idle_all t S -> idle_all t S'.
Proof.
  intros Hq Hi b p' Hb. destruct (sys_quiet_parts t S S' b p' Hq Hb) as (p & Hp & Hpp).
  by eapply quiet_idle, (Hi b p).
Qed.
Lemma no_yes_quiet t S S' : sys_quiet t S S' -> no_yes t S -> no_yes t S'.
Proof.
  intros Hq Hi b srv' Hb. destruct (sys_quiet_coords t S S' b srv' Hq Hb) as (srv & Hs & _ & ->).
  by apply (Hi b srv).
Qed.
Lemma said_yes_quiet t l S S' : sys_quiet t S S' -> said_yes t l S -> said_yes t l S'.
Proof.
  intros Hq Hi b p' Hin Hb. destruct (sys_quiet_parts t S S' b p' Hq Hb) as (p & Hp & _ & ->).
  by apply (Hi b p).
Qed.

Lemma sess_ok_quiet t s S S' : sys_quiet t S S' -> sess_ok t s S -> sess_ok t s S'.
Proof.
  intros Hq. unfold sess_ok.
  destruct (ph s) as [|b c|b c i|b|]; intros Hs;
    repeat match goal with Hx : _ /\ _ |- _ => destruct Hx end;
    split_and?; eauto using idle_all_quiet, no_yes_quiet, said_yes_quiet.
  - intros b' p' j c' Hb Hc Hu. destruct (sys_quiet_parts t S S' b' p' Hq Hb) as (p & Hp & Hcalls & _).
    destruct (Hcalls j c' Hc Hu) as (c0 & Hc0 & Hu0). by eauto.
  - destruct H4 as (srv & m & Hsrv & Hm & Hperm).
    destruct (sys_quiet_coords' t S S' b srv Hq Hsrv) as (srv' & Hsrv' & Hr & _).
    exists srv', m. by rewrite Hr.
Qed.

Lemma sys_ok_others tid S S' :
  sys_ok S -> (forall t, t <> tid -> sys_quiet t S S' /\ sessions S' !! t = sessions S !! t) ->
  (forall b p, parts S' !! b = Some p -> reachable b disciplined p) ->
  (exists s, sessions S' !! tid = Some s /\ sess_ok tid s S') -> sys_ok S'.
Proof.
  intros [_ Hs] Hot Hp (s & Htid & Hok). split; [done|]. intros t. destruct (decide (t = tid)) as [->|Hne].
  { by rewrite Htid. }
  destruct (Hot t Hne) as [Hq ->]. specialize (Hs t). destruct (sessions S !! t).
  - by eapply sess_ok_quiet.
  - destruct Hs. split; [by eapply idle_all_quiet|by eapply no_yes_quiet].
Qed.

(** *** What an event changes *)

Lemma ok_session tid s' S :
  sys_ok S -> sess_ok tid s' (set_session tid s' S) -> sys_ok (set_session tid s' S).
Proof.
  intros HS Hs'. apply (sys_ok_others tid S); [done| |apply HS|].
  - intros t Ht. split; [|by cbn; rewrite lookup_insert_ne].
    split; intros b; cbn; [destruct (parts S !! b)|destruct (coords S !! b)]; by constructor.
  - exists s'. cbn. by rewrite lookup_insert_eq.
Qed.

Lemma ok_coord tid s' b srv srv' S :
  sys_ok S -> coords S !! b = Some srv -> (forall t, t <> tid -> coord_quiet t srv srv') ->
  sess_ok tid s' (set_coord b srv' (set_session tid s' S)) ->
  sys_ok (set_coord b srv' (set_session tid s' S)).
Proof.
  intros HS Hb Hq Hs'. apply (sys_ok_others tid S); [done| |apply HS|].
  - intros t Ht. split; [|by cbn; rewrite lookup_insert_ne].
    apply (sys_quiet_coord t b srv srv' (set_session tid s' S)); auto.
  - exists s'. cbn. by rewrite lookup_insert_eq.
Qed.

Lemma ok_part tid s' b e p p' S :
  sys_ok S -> parts S !! b = Some p -> step b e p = Ret p' -> disciplined p e = true ->
  (forall t, t <> tid -> of_tid t e = false) ->
  sess_ok tid s' (set_part b p' (set_session tid s' S)) ->
  sys_ok (set_part b p' (set_session tid s' S)).
Proof.
  intros HS Hb Hst Hd Ht Hs'. apply (sys_ok_others tid S); [done| | |].
  - intros t Hne. split; [|by cbn; rewrite lookup_insert_ne].
    apply (sys_quiet_part t b p p' (set_session tid s' S)); [done|]. eapply step_quiet; [done|by apply Ht].
  - intros b' q Hq. cbn in Hq. apply lookup_insert_Some in Hq as [[<- <-]|[_ Hq]]; [|by apply HS].
    by eapply reach_step; [apply HS| |].
  - exists s'. cbn. by rewrite lookup_insert_eq.
Qed.

(** A participant changed, and the transaction stays idle everywhere. *)
Lemma idle_all_part t b p p' s S :
  idle_all t S -> parts S !! b = Some p -> (idle p t = true -> idle p' t = true) ->
  idle_all t (set_part b p' (set_session t s S)).
Proof.
  intros Hi Hb Hp b' q Hq. cbn in Hq. apply lookup_insert_Some in Hq as [[<- <-]|[_ Hq]].
  - by apply Hp, (Hi b).
  - by apply (Hi b').
Qed.

Lemma no_yes_coord t b srv' s S :
  no_yes t S -> default 0 (canCommit srv' !! t) = 0 -> no_yes t (set_coord b srv' (set_session t s S)).
Proof.
  intros Hn Hz b' q Hq. cbn in Hq. apply lookup_insert_Some in Hq as [[<- <-]|[_ Hq]]; [done|].
  by apply (Hn b').
Qed.

(** *** The votes *)

(** A commit: the transaction's count of yeses went from 0 to the number of its
    branches, so every vote read so far is a yes. *)
Lemma collect_commit tid replies srv srv' n :
  collect tid replies srv = Ret srv' -> all_can srv' tid = true ->
  default 0 (canCommit srv !! tid) = Z.of_nat n -> (n <= size (related srv tid))%nat ->
  (length replies <= size (related srv tid) - n)%nat ->
  length replies = (size (related srv tid) - n)%nat /\ Forall (eq true) replies /\
  relatedBranches srv' = relatedBranches srv.
Proof.
  revert srv n. induction replies as [|r replies IH]; intros srv n; cbn [collect].
  - destruct (all_can srv tid) eqn:Ha; [|done]. intros [= <-] _ Hn Hle _.
    apply bool_decide_eq_true_1 in Ha. split; [cbn; lia|]. split; [constructor|done].
  - destruct (all_can srv tid) eqn:Ha.
    + intros [= <-] _ Hn Hle Hlen. apply bool_decide_eq_true_1 in Ha. cbn in Hlen. lia.
    + destruct r; [|intros [= <-] Hc; congruence]. intros Hc Hac Hn Hle Hlen.
      destruct (IH _ (S n) Hc Hac) as (Hl & Hf & Hr); cbn.
      * rewrite lookup_insert_eq. cbn. lia.
      * change (related (set_canCommit ?c srv) tid) with (related srv tid). cbn in Hlen. lia.
      * change (related (set_canCommit ?c srv) tid) with (related srv tid). cbn in Hlen. lia.
      * change (related (set_canCommit ?c srv) tid) with (related srv tid) in Hl.
        split; [cbn; cbn in Hlen; lia|]. split; [by constructor|done].
Qed.

Lemma TwoPhaseCommit_verdict tid votes srv srv' v m rest :
  TwoPhaseCommit tid votes srv = Ret (srv', v) -> default 0 (canCommit srv !! tid) = 0 ->
  relatedBranches srv !! tid = Some m -> (length rest + length votes = size m)%nat ->
  vBranches v ≡ₚ (map_to_list m).*1 /\
  (vDoCommit v = true -> rest = (@nil string) /\ Forall (eq true) votes).
Proof.
  unfold TwoPhaseCommit. intros Hc Hz Hm Hlen. rewrite Hm in Hc. case_decide; [|done]. bind_inv Hc.
  assert (related srv tid = m) as Hrel by (unfold related; by rewrite Hm).
  assert (related r tid = related srv tid) as Hrel'.
  { clear -E. revert srv E. induction votes as [|x votes IH]; intros srv; cbn; destruct (all_can srv tid);
      try (by intros [= <-]). destruct x; [|by intros [= <-]]. by intros ->%IH. }
  destruct (all_can r tid) eqn:Ha; injection Hc as <- <-; cbn.
  - split; [by rewrite range_perm|]. intros _.
    destruct (collect_commit tid votes srv r 0 E Ha) as (Hl & Hf & _); rewrite ?Hrel; [done|lia|lia|].
    split; [|done]. apply length_zero_iff_nil. rewrite Hrel in Hl. lia.
  - split; [|done]. by rewrite Hrel', Hrel, range_perm.
Qed.

Lemma fst_commits (v : bool) (bs : list string) : (map (fun b => (b, v)) bs).*1 = bs.
Proof. induction bs as [|b bs IH]; [done|]. cbn. by rewrite IH. Qed.

Lemma in_commits (b : string) (v : bool) bs : (b, true) ∈ map (fun b : string => (b, v)) bs -> v = true /\ b ∈ bs.
Proof.
  intros Hin. apply list_elem_of_In, in_map_iff in Hin as (b' & [= <- <-] & Hb).
  split; [done|by apply list_elem_of_In].
Qed.

(** A transaction that is over with an abort. *)
Lemma aborted_ok t s v r b srv S :
  idle_all t S -> NoDup (vBranches v) -> vDoCommit v = false ->
  sess_ok t (decided v r s) (set_coord b srv (set_session t (decided v r s) S)).
Proof.
  intros Hi Hnd Hv. unfold sess_ok. cbn. rewrite fst_commits.
  split; [exact Hi|]. split; [done|]. split.
  - intros b' p Hin%in_commits. rewrite Hv in Hin. by destruct Hin.
  - intros b' Hin%in_commits. rewrite Hv in Hin. by destruct Hin.
Qed.

Lemma range_NoDup (m : gmap string bool) : NoDup (range m).*1.
Proof. rewrite range_perm. apply NoDup_fst_map_to_list. Qed.

(** *** The invariant is kept *)

Lemma SendCoord_facts dl tid cmd srv srv' req :
  SendCoord dl tid cmd srv = Ret (srv', req) ->
  (default 0 (canCommit srv !! tid) = 0 -> default 0 (canCommit srv' !! tid) = 0) /\
  (forall c, req = RForward c -> Tid c = tid).
Proof.
  unfold SendCoord. case_decide; [intros [= <- <-]; split; [cbn; by rewrite lookup_insert_eq|done]|].
  case_decide; [by intros [= <- <-]|]. case_decide; [by intros [= <- <-]|].
  intros Hs. bind_inv Hs. bind_inv Hs. bind_inv Hs. injection Hs as <- <-.
  destruct (connect_spec _ _ _ _ E0) as (_ & _ & _ & Hc1). destruct (relate_spec _ _ _ _ E1) as (_ & Hc2 & _).
  split; [by rewrite Hc2, Hc1|]. intros c [= <-]. by eapply parse_cmd_Tid.
Qed.

Lemma TwoPhaseCommit_start tid srv :
  default 0 (canCommit srv !! tid) = 0 ->
  match TwoPhaseCommit tid [] srv with
  | Ret (_, v) => vBranches v = []
  | Crash _ => True
  | Block => exists m, relatedBranches srv !! tid = Some m
  end.
Proof.
  intros Hz. unfold TwoPhaseCommit. destruct (relatedBranches srv !! tid) as [m|] eqn:Hm; [|done].
  case_decide; [|done]. cbn. destruct (all_can srv tid) eqn:Ha; [|by exists m]. cbn. rewrite Ha.
  apply bool_decide_eq_true_1 in Ha. rewrite Hz in Ha. unfold related in Ha. rewrite Hm in Ha. cbn in *.
  assert (length (range m).*1 = 0%nat) as Hl
    by (rewrite length_fmap, range_perm, length_map_to_list; lia).
  by apply length_zero_iff_nil.
Qed.

Lemma over_ok tid co s S :
  idle_all tid S -> nothing_sent s -> sess_ok tid (goes Over co [] s) (set_session tid (goes Over co [] s) S).
Proof.
  intros Hi (_ & _ & _ & Hc). unfold sess_ok. cbn. rewrite Hc. split; [exact Hi|]. split; [constructor|].
  by split; [intros ? ? ?%not_elem_of_nil|intros ? ?%not_elem_of_nil].
Qed.

Lemma send_line_ok tid line rand s S S' :
  sys_ok S -> sessions S !! tid = Some s -> ph s = Ready ->
  send_line site tid line rand s S = Ret S' -> sys_ok S'.
Proof.
  intros HS Hs Hph. pose proof (proj2 HS tid) as Hok. rewrite Hs in Hok. unfold sess_ok in Hok.
  rewrite Hph in Hok. destruct Hok as (Hi & Hn & Hno). unfold send_line.
  destruct (submit _ _ _ _ _) as [[a cmd]|c|]; [|intros [= <-]; by apply ok_session, over_ok|done].
  destruct (site a) as [b|]; cbn; [|intros [= <-]; by apply ok_session, over_ok].
  destruct (coords S !! b) as [srv|] eqn:Hb; cbn; [|intros [= <-]; by apply ok_session, over_ok].
  intros Hd. bind_inv Hd. destruct r as [srv1 req].
  destruct (SendCoord_facts _ _ _ _ _ _ E) as [Hz Hfw]. specialize (Hz (Hn b srv Hb)).
  assert (forall t, t <> tid -> coord_quiet t srv srv1) as Hq by (intros t Ht; by eapply SendCoord_quiet).
  unfold dispatch in Hd. destruct Hno as (Hp & Hf & Hg & Hc). destruct req as [r| | |c].
  - injection Hd as <-. apply (ok_coord tid _ b srv srv1); [done..|]. unfold sess_ok, after_reply. cbn.
    destruct (finished r); cbn.
    + rewrite Hc. split; [exact Hi|]. split; [constructor|]. by split; [intros ? ? ?%not_elem_of_nil|intros ? ?%not_elem_of_nil].
    + split; [exact Hi|]. split; [by apply no_yes_coord|done].
  - pose proof (TwoPhaseCommit_start tid srv1 Hz) as Hst.
    destruct (TwoPhaseCommit tid [] srv1) as [[srv2 v]|c|] eqn:Htp; [|done|].
    + injection Hd as <-. apply (ok_coord tid _ b srv srv2); [done|done| |].
      * intros t Ht. destruct (Hq t Ht) as [H1 H2], (TwoPhaseCommit_quiet t tid [] srv1 srv2 v Ht Htp) as [H3 H4].
        split; [by rewrite H3|by rewrite H4].
      * unfold sess_ok. cbn. rewrite Hst. cbn. split; [exact Hi|]. split; [constructor|].
        by split; [intros ? ? ?%not_elem_of_nil|intros ? ?%not_elem_of_nil].
    + injection Hd as <-. apply (ok_coord tid _ b srv srv1); [done..|]. destruct Hst as [m Hm].
      unfold sess_ok. cbn. split; [exact Hi|]. split; [by apply no_yes_coord|]. split; [done|].
      split; [by intros ? ? ?%not_elem_of_nil|]. exists srv1, m. split; [by rewrite lookup_insert_eq|].
      split; [done|]. unfold related. rewrite Hm, !app_nil_r. cbn. by rewrite range_perm.
  - destruct (DoAbort tid srv1) as [srv2 v] eqn:Hab. injection Hd as <-.
    unfold DoAbort in Hab. injection Hab as <- <-. apply (ok_coord tid _ b srv); [done|done| |].
    + intros t Ht. destruct (Hq t Ht) as [H1 H2], (forget_quiet t tid srv1 Ht) as [H3 H4].
      split; [by rewrite H3|by rewrite H4].
    + by apply aborted_ok; [|apply range_NoDup|].
  - injection Hd as <-. apply (ok_coord tid _ b srv srv1); [done..|]. unfold sess_ok. cbn.
    split; [by apply Hfw|]. split; [exact Hi|]. split; [by apply no_yes_coord|done].
Qed.

Lemma deliver_ok tid s S S' :
  sys_ok S -> sessions S !! tid = Some s -> deliver tid s S = Ret S' -> sys_ok S'.
Proof.
  intros HS Hs. pose proof (proj2 HS tid) as Hok. rewrite Hs in Hok. unfold sess_ok in Hok.
  unfold deliver. destruct (ph s) as [|b c| | |]; try done. destruct Hok as (Ht & Hi & Hn & Hno).
  destruct (parts S !! Branch c) as [p|] eqn:Hp; [|done]. intros Hd. bind_inv Hd. injection Hd as <-.
  apply (ok_part tid _ _ (EForward c) p); [done|done|done| | |].
  - cbn. rewrite Ht. by apply (Hi (Branch c)).
  - intros t Hne. cbn. apply bool_decide_eq_false_2. congruence.
  - unfold sess_ok. cbn. split; [exact Hn|]. split; [exact Hno|]. intros b' q j c' Hq Hj Hu.
    apply lookup_insert_Some in Hq as [[<- <-]|[_ Hq]].
    + split; [done|]. cbn in E. bind_inv E. destruct r0 as [a phs]. injection E as <-. cbn in Hj.
      apply lookup_app_Some in Hj as [Hj|[Hle Hj]].
      * pose proof (Hi _ _ Hp) as Hid. rewrite idle_spec in Hid. by rewrite (Hid j c' Hj) in Hu.
      * apply list_lookup_singleton_Some in Hj as [Hj _]. lia.
    + pose proof (Hi _ _ Hq) as Hid. rewrite idle_spec in Hid. by rewrite (Hid j c' Hj) in Hu.
Qed.

Lemma reply_ok tid s S S' :
  sys_ok S -> sessions S !! tid = Some s -> reply tid s S = Ret S' -> sys_ok S'.
Proof.
  intros HS Hs. pose proof (proj2 HS tid) as Hok. rewrite Hs in Hok. unfold sess_ok in Hok.
  unfold reply. destruct (ph s) as [| |b c i| |]; try done. destruct Hok as (Hn & Hno & Honly).
  destruct (coords S !! b) as [srv|] eqn:Hb; [|done].
  destruct (parts S !! Branch c) as [p|] eqn:Hp; [|done]. cbn.
  destruct (calls p !! i) as [[cmd [r| |r]]|] eqn:Hcall; try done.
  assert (idle_all tid S) as Hi.
  { intros b' q Hq. apply idle_spec. intros j c' Hj. destruct (unfinished tid c') eqn:Hu; [|done]. exfalso.
    destruct (Honly b' q j c' Hq Hj Hu) as [-> ->]. rewrite Hp in Hq. injection Hq as <-.
    rewrite Hcall in Hj. injection Hj as <-. unfold unfinished in Hu. cbn in Hu. by rewrite andb_false_r in Hu. }
  unfold SendCoord_end. case_decide.
  - intros [= <-]. apply (ok_coord tid _ b srv); [done|done|intros t Ht; by apply forget_quiet|].
    by apply aborted_ok; [|apply range_NoDup|].
  - intros [= <-]. apply (ok_coord tid _ b srv); [done|done|done|]. destruct Hno as (Hp' & Hf & Hg & Hc).
    unfold sess_ok, after_reply. cbn. destruct (finished r); cbn.
    + rewrite Hc. split; [exact Hi|]. split; [constructor|]. by split; [intros ? ? ?%not_elem_of_nil|intros ? ?%not_elem_of_nil].
    + split; [exact Hi|]. split; [|done]. apply no_yes_coord; [done|by apply (Hn b)].
Qed.

Lemma delete_perm {A} (l : list A) k x : l !! k = Some x -> l ≡ₚ x :: delete k l.
Proof. apply delete_Permutation. Qed.

Lemma elem_of_deleted {A} (l : list A) k x y : l !! k = Some x -> y ∈ l <-> y = x \/ y ∈ delete k l.
Proof. intros Hk. by rewrite (delete_perm _ _ _ Hk) at 1; rewrite elem_of_cons. Qed.

Lemma perm_move {A} (l l' : list A) k x : l !! k = Some x -> l ++ l' ≡ₚ delete k l ++ x :: l'.
Proof.
  intros Hk. etrans; [apply Permutation_app_tail, (delete_perm _ _ _ Hk)|]. cbn. apply Permutation_middle.
Qed.

Lemma pend_idle tid k b s S : sess_ok tid s S -> pend s !! k = Some b -> idle_all tid S.
Proof.
  unfold sess_ok. intros Hok Hk.
  destruct (ph s); [|destruct Hok as (_ & _ & _ & Hno)|destruct Hok as (_ & Hno & _)|apply Hok..];
    [destruct Hok as (_ & _ & Hno)|..]; destruct Hno as (Hpe & _); by rewrite Hpe in Hk.
Qed.

Lemma commits_over tid k x s S : sess_ok tid s S -> commits s !! k = Some x -> ph s = Over.
Proof.
  unfold sess_ok. intros Hok Hk. destruct (ph s); [..|done]; exfalso.
  1: destruct Hok as (_ & _ & _ & _ & _ & Hc); by rewrite Hc in Hk.
  1: destruct Hok as (_ & _ & _ & _ & _ & _ & Hc); by rewrite Hc in Hk.
  1: destruct Hok as (_ & (_ & _ & _ & Hc) & _); by rewrite Hc in Hk.
  1: destruct Hok as (_ & _ & Hc & _); by rewrite Hc in Hk.
Qed.

Lemma commit_disciplined tid k b f p s S :
  sess_ok tid s S -> commits s !! k = Some (b, f) -> parts S !! b = Some p ->
  disciplined p (ECommit tid f) = true.
Proof.
  intros Hok Hk Hp. pose proof (commits_over _ _ _ _ _ Hok Hk) as Hph. unfold sess_ok in Hok. rewrite Hph in Hok.
  destruct Hok as (Hi & _ & Hy & _). cbn. rewrite (Hi b p Hp). cbn. destruct f; [|done]. cbn.
  apply bool_decide_eq_true_2. apply (Hy b p); [by eapply list_elem_of_lookup_2|done].
Qed.

Lemma prepare_ok tid k s S S' :
  sys_ok S -> sessions S !! tid = Some s -> prepare tid k s S = Ret S' -> sys_ok S'.
Proof.
  intros HS Hs. pose proof (proj2 HS tid) as Hok. rewrite Hs in Hok.
  unfold prepare. destruct (pend s !! k) as [b|] eqn:Hk; [|done].
  destruct (parts S !! b) as [p|] eqn:Hp; [|done]. intros Hd. bind_inv Hd. injection Hd as <-.
  assert (idle_all tid S) as Hi by (by eapply pend_idle).
  apply (ok_part tid _ b (EPrepare tid) p); [done|done|done|by apply (Hi b)| |].
  { intros t Hne. cbn. apply bool_decide_eq_false_2. congruence. }
  injection E as <-. unfold sess_ok in *. cbn [ph]. destruct (ph s) as [| | |b0|].
  1: destruct Hok as (_ & _ & Hpe & _); by rewrite Hpe in Hk.
  1: destruct Hok as (_ & _ & _ & Hpe & _); by rewrite Hpe in Hk.
  1: destruct Hok as (_ & (Hpe & _) & _); by rewrite Hpe in Hk.
  - destruct Hok as (_ & Hn & Hc & Hy & srv & m & Hsrv & Hm & Hperm).
    cbn [commits fly got pend].
    split; [by eapply idle_all_part|]. split; [exact Hn|]. split; [done|]. split.
    + intros b' q Hin Hq. cbn in Hq. apply lookup_insert_Some in Hq as [[<- <-]|[Hne Hq]].
      * cbn. rewrite lookup_insert_eq. f_equal.
        assert ((b, true) ∉ fly s ++ got s) as Hnot.
        { intros Hin'. assert (NoDup (pend s ++ (fly s).*1 ++ (got s).*1)) as Hnd
            by (rewrite Hperm; apply NoDup_fst_map_to_list).
          rewrite <- fmap_app in Hnd. apply NoDup_app in Hnd as (_ & Hdis & _).
          apply (Hdis b); [by eapply list_elem_of_lookup_2|]. apply list_elem_of_fmap. by exists (b, true). }
        rewrite !elem_of_app, list_elem_of_singleton in Hin. rewrite elem_of_app in Hnot.
        destruct Hin as [[Hin|Hin]|Hin]; [tauto| |tauto]. by injection Hin.
      * apply (Hy b' q); [|done]. rewrite !elem_of_app, list_elem_of_singleton in Hin.
        rewrite elem_of_app. destruct Hin as [[Hin|Hin]|Hin]; [tauto| |tauto]. injection Hin as -> _. done.
    + exists srv, m. split; [exact Hsrv|]. split; [exact Hm|]. rewrite <- Hperm.
      rewrite (perm_move (pend s) _ _ _ Hk), fmap_app, <- (assoc_L (++)). f_equiv. cbn.
      symmetry. apply Permutation_middle.
  - destruct Hok as (_ & Hnd & Hy & Hpe). cbn [commits]. split; [by eapply idle_all_part|].
    split; [done|]. split; intros b'; [intros q|]; intros Hin; specialize (Hpe b' Hin); by rewrite Hpe in Hk.
Qed.

Lemma vote_ok tid k s S S' :
  sys_ok S -> sessions S !! tid = Some s -> vote tid k s S = Ret S' -> sys_ok S'.
Proof.
  intros HS Hs. pose proof (proj2 HS tid) as Hok. rewrite Hs in Hok. unfold sess_ok in Hok.
  unfold vote. destruct (fly s !! k) as [x|] eqn:Hk; [|done]. intros [= <-].
  apply ok_session; [done|]. unfold sess_ok. cbn [ph]. destruct (ph s) as [| | |b0|].
  1: destruct Hok as (_ & _ & _ & Hf & _); by rewrite Hf in Hk.
  1: destruct Hok as (_ & _ & _ & _ & Hf & _); by rewrite Hf in Hk.
  1: destruct Hok as (_ & (_ & Hf & _) & _); by rewrite Hf in Hk.
  - destruct Hok as (Hi & Hn & Hc & Hy & srv & m & Hsrv & Hm & Hperm).
    cbn [commits fly got pend]. split; [exact Hi|]. split; [exact Hn|]. split; [done|]. split.
    + intros b' q Hin. apply (Hy b' q). revert Hin. rewrite !elem_of_app, (elem_of_deleted _ _ _ _ Hk), list_elem_of_singleton. tauto.
    + exists srv, m. split; [exact Hsrv|]. split; [exact Hm|]. rewrite <- Hperm. f_equiv.
      rewrite <- !fmap_app. apply fmap_Permutation. rewrite (perm_move (fly s) _ _ _ Hk). f_equiv.
      symmetry. apply Permutation_cons_append.
  - exact Hok.
Qed.

Lemma decide_ok tid s S S' :
  sys_ok S -> sessions S !! tid = Some s -> decide_2pc tid s S = Ret S' -> sys_ok S'.
Proof.
  intros HS Hs. pose proof (proj2 HS tid) as Hok. rewrite Hs in Hok. unfold sess_ok in Hok.
  unfold decide_2pc. destruct (ph s) as [| | |b|]; try done.
  destruct Hok as (Hi & Hn & Hc & Hy & srv & m & Hsrv & Hm & Hperm). rewrite Hsrv.
  intros Hd. bind_inv Hd. destruct r as [srv' v]. injection Hd as <-.
  destruct (TwoPhaseCommit_verdict tid (got s).*2 srv srv' v m (pend s ++ (fly s).*1) E (Hn b srv Hsrv) Hm)
    as [Hbr Hyes].
  { pose proof (Permutation_length Hperm) as Hlen. rewrite (length_fmap _ (map_to_list m)), length_map_to_list in Hlen.
    rewrite <- Hlen, !length_app, !length_fmap. lia. }
  apply (ok_coord tid _ b srv); [done|done| |].
  { intros t Ht. by eapply TwoPhaseCommit_quiet. }
  unfold sess_ok. cbn. rewrite fst_commits. split; [exact Hi|].
  split; [rewrite Hbr; apply NoDup_fst_map_to_list|]. split.
  - intros b' p [Hv Hb']%in_commits Hp. destruct (Hyes Hv) as [Hrest Hall].
    apply app_eq_nil in Hrest as [Hpe Hfl]. apply (fmap_nil_inv fst) in Hfl. apply (Hy b' p); [|exact Hp].
    rewrite Hbr, <- Hperm, Hpe, Hfl in Hb'. cbn in Hb'.
    apply list_elem_of_fmap in Hb' as ([b1 r] & -> & Hin). rewrite Hfl. cbn.
    rewrite Forall_forall in Hall. rewrite (Hall r); [done|]. apply list_elem_of_fmap. by exists (b1, r).
  - intros b' [Hv _]%in_commits. destruct (Hyes Hv) as [Hrest _]. by apply app_eq_nil in Hrest as [? _].
Qed.

Lemma commit_ok tid k s S S' :
  sys_ok S -> sessions S !! tid = Some s -> commit tid k s S = Ret S' -> sys_ok S'.
Proof.
  intros HS Hs. pose proof (proj2 HS tid) as Hok. rewrite Hs in Hok.
  unfold commit. destruct (commits s !! k) as [[b f]|] eqn:Hk; [|done].
  destruct (parts S !! b) as [p|] eqn:Hp; [|done]. intros Hd. bind_inv Hd. injection Hd as <-.
  pose proof (commit_disciplined _ _ _ _ _ _ _ Hok Hk Hp) as Hdis.
  pose proof (commits_over _ _ _ _ _ Hok Hk) as Hph. unfold sess_ok in Hok. rewrite Hph in Hok.
  destruct Hok as (Hi & Hnd & Hy & Hpe). pose proof (delete_perm _ _ _ Hk) as Hdel.
  apply (ok_part tid _ b (ECommit tid f) p); [done..| |].
  { intros t Hne. cbn. apply bool_decide_eq_false_2. congruence. }
  rewrite Hdel in Hnd. cbn in Hnd. apply NoDup_cons in Hnd as [Hb Hnd].
  unfold sess_ok. cbn [ph commits pend]. rewrite Hph. split; [|split; [done|split]].
  - eapply idle_all_part; [exact Hi|done|]. cbn in E. bind_inv E. destruct r0 as [a out]. by injection E as <-.
  - intros b' q Hin Hq. cbn in Hq. apply lookup_insert_Some in Hq as [[<- <-]|[Hne Hq]].
    + exfalso. apply Hb, list_elem_of_fmap. by exists (b, true).
    + apply (Hy b' q); [|done]. rewrite Hdel. by right.
  - intros b' Hin. apply (Hpe b'). rewrite Hdel. by right.
Qed.

Lemma clean_ok tid b s S S' :
  sys_ok S -> sessions S !! tid = Some s -> clean tid b s S = Ret S' -> sys_ok S'.
Proof.
  intros HS Hs. unfold clean. destruct (ph s) eqn:Hph; try done.
  destruct (coords S !! b) as [srv|] eqn:Hb; [|done]. cbn. case_decide; [|done]. cbn. intros [= <-].
  apply (sys_ok_others tid S); [done| |apply HS|].
  - intros t Ht. split; [|done]. eapply sys_quiet_coord; [done|by apply forget_quiet].
  - exists s. split; [exact Hs|]. pose proof (proj2 HS tid) as Hok. rewrite Hs in Hok.
    unfold sess_ok in *. by rewrite Hph in *.
Qed.

Lemma serve_ok b e p p' S :
  sys_ok S -> parts S !! b = Some p -> step b e p = Ret p' ->
  match e with EAcquire _ | EBody _ => true | _ => false end = true -> sys_ok (set_part b p' S).
Proof.
  intros HS Hb Hst He.
  assert (forall t, sys_quiet t S (set_part b p' S)) as Hq.
  { intros t. eapply sys_quiet_part; [done|]. eapply step_quiet; [done|]. by destruct e. }
  split.
  - intros b' q Hq'. cbn in Hq'. apply lookup_insert_Some in Hq' as [[<- <-]|[_ Hq']]; [|by apply HS].
    eapply reach_step; [by apply HS| |done]. by destruct e.
  - intros t. pose proof (proj2 HS t) as Ht. cbn. destruct (sessions S !! t).
    + by eapply sess_ok_quiet.
    + destruct Ht. split; [by eapply idle_all_quiet|by eapply no_yes_quiet].
Qed.

Lemma sys_exec_ok e S S' : sys_ok S -> exec site e S = Ret S' -> sys_ok S'.
Proof.
  intros HS He. destruct e as [c|tid line rand|tid|tid|b acq i|tid|tid k|tid k|tid|tid k|tid b]; cbn in He.
  - destruct (sessions S !! id c) eqn:Hs; [done|]. injection He as <-. apply ok_session; [done|].
    pose proof (proj2 HS (id c)) as Hok. rewrite Hs in Hok. destruct Hok. by split_and!.
  - destruct (sessions S !! tid) as [s|] eqn:Hs; [|done]. destruct (ph s) eqn:Hph; try done.
    by eapply send_line_ok.
  - destruct (sessions S !! tid) as [s|] eqn:Hs; [|done]. destruct (ph s) eqn:Hph; try done.
    injection He as <-. pose proof (proj2 HS tid) as Hok. rewrite Hs in Hok. unfold sess_ok in Hok.
    rewrite Hph in Hok. destruct Hok as (Hi & _ & Hno). by apply ok_session, over_ok.
  - destruct (sessions S !! tid) as [s|] eqn:Hs; [|done]. by eapply deliver_ok.
  - destruct (parts S !! b) as [p|] eqn:Hp; [|done]. bind_inv He. injection He as <-.
    eapply serve_ok; [done..|]. by destruct acq.
  - destruct (sessions S !! tid) as [s|] eqn:Hs; [|done]. by eapply reply_ok.
  - destruct (sessions S !! tid) as [s|] eqn:Hs; [|done]. by eapply prepare_ok.
  - destruct (sessions S !! tid) as [s|] eqn:Hs; [|done]. by eapply vote_ok.
  - destruct (sessions S !! tid) as [s|] eqn:Hs; [|done]. by eapply decide_ok.
  - destruct (sessions S !! tid) as [s|] eqn:Hs; [|done]. by eapply commit_ok.
  - destruct (sessions S !! tid) as [s|] eqn:Hs; [|done]. by eapply clean_ok.
Qed.
End invariant.

(** ** Theorems *)

Lemma Start_fields br content srv :
  Start br content = Ret srv -> canCommit srv = ∅ /\ relatedBranches srv = ∅.
Proof.
  assert (forall lines s s', readFile_lines lines s = Ret s' ->
    canCommit s' = canCommit s /\ relatedBranches s' = relatedBranches s) as Hlines.
  { induction lines as [|l lines IH]; intros s s' Hs; cbn in Hs; [by injection Hs as <-|].
    bind_inv Hs. unfold readFile_line in E. do 3 bind_inv E. injection E as <-.
    destruct (IH _ _ Hs) as [-> ->]. cbn. by destruct (decide (branch s = r0)). }
  intros Hs. by destruct (Hlines _ _ _ Hs).
Qed.

Section theorems.
Context `{RangeOrder} (site : string -> option string).

Lemma system_ok S : system_reachable site S -> sys_ok S.
Proof.
  induction 1 as [S (Hc & Hp & Hs)|S e S' _ IH He]; [|by eapply sys_exec_ok].
  split.
  - intros b p Hb. rewrite (Hp b p Hb). constructor.
  - intros t. rewrite Hs, lookup_empty. split.
    + intros b p Hb. by rewrite (Hp b p Hb).
    + intros b srv Hb. destruct (Hc b srv Hb) as [content Hst]. by rewrite (proj1 (Start_fields _ _ _ Hst)).
Qed.

Lemma session_ok S tid s : system_reachable site S -> sessions S !! tid = Some s -> sess_ok tid s S.
Proof. intros HS Hs. pose proof (proj2 (system_ok S HS) tid) as Hok. by rewrite Hs in Hok. Qed.

Lemma disciplined_step_ok b e p :
  reachable b disciplined p -> disciplined p e = true -> step b e p = Block \/ exists p', step b e p = Ret p'.
Proof.
  intros Hp Hd. assert (inv p) as Hi by (by apply (inv_reachable b disciplined)).
  destruct (inv_step b e p Hi Hd) as [?|(p' & ? & _)]; eauto.
Qed.

(** The calls that reach a participant. *)
Definition participant_event (e : sevent) : bool :=
  match e with VDeliver _ | VServe _ _ _ | VPrepare _ _ | VCommit _ _ => true | _ => false end.

(** C8 The discipline that the theorems on one participant assume is what the
    clients and the coordinators do: however sessions, forwarded commands,
    lock waits, prepares, votes and commits interleave, every participant of
    the bank is in a state of a disciplined run, and no call that reaches one
    ever panics there. *)
Theorem every_participant_is_disciplined S :
  system_reachable site S ->
  (forall b p, parts S !! b = Some p -> reachable b disciplined p) /\
  (forall e c, participant_event e = true -> exec site e S <> Crash c).
Proof.
  intros HS. pose proof (system_ok S HS) as Hok. split; [apply Hok|].
  assert (forall b e p, parts S !! b = Some p -> disciplined p e = true ->
    step b e p = Block \/ exists p', step b e p = Ret p') as Hstep
    by (intros b e p Hp; by apply disciplined_step_ok, Hok).
  intros e c He. destruct e as [| | |tid|b acq i| |tid k| | |tid k|]; try done; cbn.
  - destruct (sessions S !! tid) as [s|] eqn:Hs; [|done]. pose proof (session_ok S tid s HS Hs) as Hses.
    unfold deliver. destruct (ph s) as [|b' c'| | |] eqn:Hph; try done.
    destruct (parts S !! Branch c') as [p|] eqn:Hp; [|done].
    unfold sess_ok in Hses. rewrite Hph in Hses. destruct Hses as (Ht & Hi & _).
    destruct (Hstep _ (EForward c') p Hp) as [->|[p' ->]]; [|done..]. cbn. rewrite Ht. by apply (Hi _ p Hp).
  - destruct (parts S !! b) as [p|] eqn:Hp; [|done].
    destruct (Hstep b (if acq then EAcquire i else EBody i) p Hp) as [->|[p' ->]]; [|done..]. by destruct acq.
  - destruct (sessions S !! tid) as [s|] eqn:Hs; [|done]. pose proof (session_ok S tid s HS Hs) as Hses.
    unfold prepare. destruct (pend s !! k) as [b|] eqn:Hk; [|done]. destruct (parts S !! b) as [p|] eqn:Hp; [|done].
    destruct (Hstep b (EPrepare tid) p Hp) as [->|[p' ->]]; [|done..]. by apply (pend_idle tid k b s S Hses Hk b).
  - destruct (sessions S !! tid) as [s|] eqn:Hs; [|done]. pose proof (session_ok S tid s HS Hs) as Hses.
    unfold commit. destruct (commits s !! k) as [[b f]|] eqn:Hk; [|done].
    destruct (parts S !! b) as [p|] eqn:Hp; [|done].
    destruct (Hstep b (ECommit tid f) p Hp) as [->|[p' ->]]; [|done..]. by eapply commit_disciplined.
Qed.

(** C20 A commit that is on its way will be carried out as it was promised,
    whatever the other transactions do meanwhile: at every branch it is
    addressed to, the transaction has answered yes and runs nothing, the
    balances it sees there are not negative, and delivering it makes exactly
    these the committed balances and gives back all the transaction's locks. *)
Theorem promised_commits_are_kept S tid s k b p :
  system_reachable site S -> sessions S !! tid = Some s -> commits s !! k = Some (b, true) ->
  parts S !! b = Some p ->
  idle p tid = true /\ prepared p !! tid = Some true /\
  map_Forall (fun _ v => 0 <= v) (tx_view (app p) tid) /\
  exists S' p', exec site (VCommit tid k) S = Ret S' /\ parts S' !! b = Some p' /\
    committedData (app p') = tx_view (app p) tid /\ (forall a, held (app p') tid a = None).
Proof.
  intros HS Hs Hk Hp. pose proof (session_ok S tid s HS Hs) as Hses.
  pose proof (commit_disciplined _ _ _ _ _ _ _ Hses Hk Hp) as Hd. cbn in Hd.
  apply andb_prop in Hd as [Hid Hpr%bool_decide_eq_true_1].
  assert (inv p) as Hi by (apply (inv_reachable b disciplined); [done|]; by apply (system_ok S HS)).
  split; [done|]. split; [done|].
  destruct (inv_ECommit b tid true p Hi Hid (fun _ => Hpr)) as (app' & Hst & Hcd & _ & Hinfo & _ & Hi').
  split.
  - intros a v Hv. pose proof (inv_data _ Hi' a v) as Hdata. cbn in Hdata. rewrite Hcd in Hdata.
    by apply Hdata in Hv as [? _].
  - cbn. rewrite Hs. unfold commit. rewrite Hk, Hp, Hst. cbn. eexists _, _. split; [reflexivity|]. cbn.
    split; [apply lookup_insert_eq|]. cbn. split; [exact Hcd|].
    intros a. unfold held. by rewrite Hinfo, lookup_delete_eq.
Qed.

(** The bank as a whole is solvent and its locks exclude each other: in every
    reachable state of the system, at every branch, no committed balance is
    negative or out of 64 bits, and an account locked for writing by a
    transaction is held by no other. *)
Theorem bank_is_safe S b p :
  system_reachable site S -> parts S !! b = Some p ->
  map_Forall (fun _ v => 0 <= v < 2 ^ 63) (committedData (app p)) /\
  (forall t t' a r, held (app p) t a = Some false -> held (app p) t' a = Some r -> t' = t).
Proof.
  intros HS Hp. assert (inv p) as Hi by (apply (inv_reachable b disciplined); [done|]; by apply (system_ok S HS)).
  split.
  - intros a v Hv. destruct (inv_data p Hi a v Hv) as [? []]. lia.
  - intros t t' a r. apply exclusive, (inv_app p Hi).
Qed.
End theorems.
