(* ===== verification/TxSerial.v ===== *)
(** * TxSerial: serializability of the whole bank

    Each participant is serializable ([TxProps]), in the order of its own
    commits.  This file shows that one order does for all branches: the order
    in which the coordinators decide.  At a branch a decided transaction may be
    committed later than one decided after it; its locks keep the two apart. *)
From S2P Require Import Prelude GoStrings TxLocks TxServer TxSpec TxProps TxCoord TxCoordProps TxClient TxSystem.

(** ** One participant

    [ts] are the transactions that are decided but not yet committed here, and
    [o] the histories of the decided ones, in the order of the decisions. *)

(** The balances once the decided transactions are all committed. *)
Record settles (branch : string) (ts : list string) (o : list (list (Command * string)))
    (p : participant) (d : gmap string Z) : Prop := {
  st_replay : replay branch o ∅ = Some d;
  st_owed : forall t a v, t ∈ ts -> cached (app p) t a = Some v -> d !! a = tx_view (app p) t !! a;
  st_free : forall a, (forall t, t ∈ ts -> cached (app p) t a = None) -> d !! a = committedData (app p) !! a;
}.

Lemma settles_new branch : settles branch [] [] new_participant ∅.
Proof. split; [done| |done]. by intros t a v ?%not_elem_of_nil. Qed.

(** Calls of other transactions do not matter. *)
Lemma settles_frame branch ts o p p' d :
  settles branch ts o p d -> committedData (app p') = committedData (app p) ->
  (forall t a, t ∈ ts -> cached (app p') t a = cached (app p) t a) -> settles branch ts o p' d.
Proof.
  intros [Hr Ho Hf] Hcd Hc. split; [done| |].
  - intros t a v Ht. rewrite lookup_tx_view, Hcd, Hc, <- lookup_tx_view by done. by apply Ho.
  - intros a Ha. rewrite Hcd. apply Hf. intros t Ht. rewrite <- Hc by done. by apply Ha.
Qed.

(** A decision: the transaction holds its locks, so what it saw is what it
    would see after all the decided ones. *)
Lemma settles_decide branch ts o p d t :
  serial branch p -> settles branch ts o p d -> t ∉ ts ->
  exists d', settles branch (t :: ts) (o ++ [tid_hist p t]) p d'.
Proof.
  intros [Hi Hh _] [Hr Ho Hf] Ht. destruct (Hh t) as (Hrun & Hheld & Hcached).
  set (h := tid_hist p t) in *.
  assert (forall a, works_on (h.*1) a -> forall t', t' ∈ ts -> cached (app p) t' a = None) as Hexcl.
  { intros a Hw t' Ht'. destruct (cached (app p) t' a) as [v|] eqn:Hc; [|done]. exfalso.
    apply (inv_cache p Hi) in Hc. destruct (Hheld a Hw) as [r Hr'].
    pose proof (exclusive _ _ _ _ _ (inv_app p Hi) Hc Hr') as ->. done. }
  assert (forall a, works_on (h.*1) a -> d !! a = committedData (app p) !! a) as Hsame
    by (intros a Hw; by apply Hf, Hexcl).
  destruct (spec_run_local branch (h.*1) d (committedData (app p)) Hsame) as [Hrs Hl].
  pose proof (fun a => spec_run_frame branch (h.*1) d a) as Hfr. rewrite Hrun in Hrs, Hl.
  destruct (spec_run branch h.*1 d) as [d' rs] eqn:Hd. cbn in *. exists d'. split.
  - eapply replay_snoc; [exact Hr|]. by rewrite Hd, Hrs.
  - intros t' a v [->|Ht']%elem_of_cons Hc.
    + apply Hl. right. by eapply Hcached.
    + rewrite Hfr; [by eapply Ho|]. intros Hw. by rewrite (Hexcl a Hw t' Ht') in Hc.
  - intros a Ha. assert (cached (app p) t a = None) as Hct by (apply Ha; left).
    rewrite <- (view_uncached (app p) t a (inv_range p Hi) Hct).
    assert (d !! a = committedData (app p) !! a) as Hda by (apply Hf; intros t' Ht'; apply Ha; by right).
    apply Hl. by left.
Qed.

(** A commit: the balances get what they were owed. *)
Lemma settles_commit branch ts o p p' d t :
  inv p -> settles branch ts o p d -> t ∈ ts ->
  committedData (app p') = tx_view (app p) t -> cache (app p') = delete t (cache (app p)) ->
  settles branch (filter (fun t' => t' <> t) ts) o p' d.
Proof.
  intros Hi [Hr Ho Hf] Ht Hcd Hca.
  assert (forall t' a, cached (app p') t' a = if decide (t' = t) then None else cached (app p) t' a) as Hc.
  { intros t' a. unfold cached. rewrite Hca. destruct (decide (t' = t)) as [->|Hne];
      [by rewrite lookup_delete_eq|by rewrite lookup_delete_ne]. }
  split; [done| |].
  - intros t' a v [Hne Ht']%list_elem_of_filter Hv. rewrite Hc, decide_False in Hv by done.
    rewrite (Ho t' a v Ht' Hv), !lookup_tx_view, Hc, decide_False, Hcd by done. f_equal.
    symmetry. apply view_uncached; [by apply inv_range|].
    destruct (cached (app p) t a) as [w|] eqn:Hw; [|done]. exfalso. apply Hne.
    apply (inv_cache p Hi) in Hv, Hw. by apply (exclusive _ _ _ _ _ (inv_app p Hi) Hw Hv).
  - intros a Ha. rewrite Hcd. destruct (cached (app p) t a) as [w|] eqn:Hw; [by eapply Ho|].
    rewrite (view_uncached _ _ _ (inv_range p Hi) Hw). apply Hf. intros t' Ht'.
    destruct (decide (t' = t)) as [->|Hne]; [done|].
    specialize (Ha t'). rewrite Hc, decide_False in Ha by done. by apply Ha, list_elem_of_filter.
Qed.

(** The commands of a history are the transaction's. *)
Definition owns_hist (p : participant) : Prop :=
  forall t c, c ∈ (tid_hist p t).*1 -> Tid c = t.

Lemma owns_record p p' cmd r :
  owns_hist p -> hist p' = record_reply cmd r p -> owns_hist p'.
Proof.
  intros Hp Hh t c. unfold tid_hist at 1. rewrite Hh, tid_hist_record.
  case_decide as Ht; [|by apply Hp]. rewrite fmap_app. intros [Hc|Hc]%elem_of_app; [by apply Hp|].
  by apply list_elem_of_singleton in Hc as ->.
Qed.

Lemma owns_step `{RangeOrder} branch e p p' : owns_hist p -> step branch e p = Ret p' -> owns_hist p'.
Proof.
  intros Hp Hs. destruct e as [cmd|i|i|t|t doCommit]; cbn in Hs.
  - bind_inv Hs. destruct r as [a phs]. injection Hs as <-. destruct phs; [exact Hp..|].
    by eapply owns_record.
  - destruct (calls p !! i) as [[cmd [r| |r]]|]; try done. bind_inv Hs. by injection Hs as <-.
  - destruct (calls p !! i) as [[cmd [r| |r]]|]; try done. bind_inv Hs. destruct r as [a rep].
    injection Hs as <-. by eapply owns_record.
  - by injection Hs as <-.
  - bind_inv Hs. destruct r as [a out]. injection Hs as <-. intros t' c. unfold tid_hist. cbn.
    destruct (decide (t' = t)) as [->|Hne]; [rewrite lookup_delete_eq; by intros ?%not_elem_of_nil|].
    rewrite lookup_delete_ne by done. apply Hp.
Qed.

(** ** The order of the decisions *)

(** Decided to commit, but not committed at the branch yet. *)
Definition owed (S : system) (b t : string) : Prop :=
  exists s, sessions S !! t = Some s /\ (b, true) ∈ commits s.

(** The histories of a transaction, by branch. *)
Definition histories : Type := gmap string (list (Command * string)).

(** A decision to commit puts the transaction, with its histories at the
    branches it commits at, at the end of the order. *)
Definition decision (e : sevent) (S' : system) : list (string * histories) :=
  match e with
  | VDecide tid =>
      match sessions S' !! tid with
      | Some s =>
          if existsb snd (commits s) then
            [(tid, map_imap (fun b p => if decide ((b, true) ∈ commits s) then Some (tid_hist p tid) else None)
                     (parts S'))]
          else []
      | None => []
      end
  | _ => []
  end.

(** The histories at one branch. *)
Definition at_branch (b : string) (o : list (string * histories)) : list (list (Command * string)) :=
  omap (fun x => x.2 !! b) o.

(** The event delivers a command that turns a read lock into a write lock. *)
Definition sys_upgrades (e : sevent) (S : system) : bool :=
  match e with
  | VDeliver tid =>
      match sessions S !! tid with
      | Some s =>
          match ph s with
          | Sent _ c =>
              match parts S !! Branch c with Some p => upgrades p (EForward c) | None => false end
          | _ => false
          end
      | None => false
      end
  | _ => false
  end.

(** The runs of the bank without lock upgrades, with the order of their decisions. *)
Inductive ordered_run `{RangeOrder} (site : string -> option string) : list (string * histories) -> system -> Prop :=
  | run_start S : fresh_system S -> ordered_run site [] S
  | run_exec o S e S' : ordered_run site o S -> sys_upgrades e S = false -> exec site e S = Ret S' ->
      ordered_run site (o ++ decision e S') S'.

Lemma ordered_run_reachable `{RangeOrder} site o S : ordered_run site o S -> system_reachable site S.
Proof. induction 1; [by apply sys_start|by eapply sys_exec]. Qed.

(** ** The invariant *)

(** Branch [b] in state [p], with the decided transactions [ts] it still has
    to commit. *)
Record branch_ok `{RangeOrder} (S : system) (o : list (string * histories)) (b : string) (p : participant)
    (ts : list string) : Prop := {
  b_run : reachable b no_upgrade p;
  b_owns : owns_hist p;
  b_owed : forall t, t ∈ ts <-> owed S b t;
  b_nodup : NoDup ts;
  b_log : log p ++ map (tid_hist p) ts ≡ₚ at_branch b o;
  b_settles : exists d, settles b ts (at_branch b o) p d;
}.

(** What happens to a decided transaction's session. *)
Definition told (S : system) (t : string) : Prop :=
  exists s, sessions S !! t = Some s /\ ph s = Over /\ last (replied s) = Some CM_OK.

Record bank_ok `{RangeOrder} (o : list (string * histories)) (S : system) : Prop := {
  o_nodup : NoDup o.*1;
  o_told : forall t, t ∈ o.*1 -> told S t;
  o_own : forall t m b h c, (t, m) ∈ o -> m !! b = Some h -> c ∈ h.*1 -> Tid c = t;
  o_parts : forall b p, parts S !! b = Some p -> exists ts, branch_ok S o b p ts;
}.

(** A step that changes no participant and owes nothing new. *)
Record calm (S S' : system) : Prop := {
  c_parts : parts S' = parts S;
  c_owed : forall b t, owed S' b t <-> owed S b t;
  c_told : forall t, told S t -> told S' t;
}.

Section bank.
Context `{RangeOrder} (site : string -> option string).

Lemma branch_ok_ext S S' o b p ts :
  (forall t, owed S' b t <-> owed S b t) -> branch_ok S o b p ts -> branch_ok S' o b p ts.
Proof. intros Ho []. split; try done. intros t. by rewrite Ho. Qed.

Lemma calm_ok o S S' : bank_ok o S -> calm S S' -> bank_ok o S'.
Proof.
  intros [Hn Ht Hw Hp] [Hpa Ho Hto]. split; [done|auto|done|]. intros b p. rewrite Hpa. intros Hb.
  destruct (Hp b p Hb) as [ts Hts]. exists ts. by apply (branch_ok_ext S).
Qed.

(** The session changes, not what it owes, and an end is the end. *)
Lemma session_facts tid s s' S S' :
  sessions S !! tid = Some s -> sessions S' = <[tid := s']> (sessions S) ->
  (forall b, (b, true) ∈ commits s' <-> (b, true) ∈ commits s) ->
  (ph s = Over -> ph s' = Over /\ replied s' = replied s) ->
  (forall b t, owed S' b t <-> owed S b t) /\ (forall t, told S t -> told S' t).
Proof.
  intros Hs Hs' Hc Ho. split.
  - intros b t. unfold owed. rewrite Hs'. destruct (decide (tid = t)) as [<-|Hne].
    + rewrite lookup_insert_eq, Hs. split; intros (? & [= <-] & Hin); eexists; (split; [done|]); by apply Hc.
    + by rewrite lookup_insert_ne.
  - intros t (q & Hq & Hover & Hr). unfold told. rewrite Hs'. destruct (decide (tid = t)) as [<-|Hne].
    + rewrite Hs in Hq. injection Hq as <-. destruct (Ho Hover) as [H1 H2].
      exists s'. by rewrite lookup_insert_eq, H2.
    + exists q. by rewrite lookup_insert_ne.
Qed.

Lemma session_calm tid s s' S S' :
  sessions S !! tid = Some s -> sessions S' = <[tid := s']> (sessions S) -> parts S' = parts S ->
  (forall b, (b, true) ∈ commits s' <-> (b, true) ∈ commits s) ->
  (ph s = Over -> ph s' = Over /\ replied s' = replied s) -> calm S S'.
Proof. intros Hs Hs' Hp Hc Ho. destruct (session_facts tid s s' S S' Hs Hs' Hc Ho). by split. Qed.

Lemma start_calm c S : sessions S !! id c = None -> calm S (set_session (id c) (new_session c) S).
Proof.
  intros Hs. split; [done| |].
  - intros b t. unfold owed. cbn. destruct (decide (id c = t)) as [<-|Hne].
    + rewrite lookup_insert_eq, Hs. split; [|by intros (? & ? & _)].
      by intros (? & [= <-] & ?%not_elem_of_nil).
    + by rewrite lookup_insert_ne.
  - intros t (q & Hq & ?). exists q. cbn. rewrite lookup_insert_ne; [done|]. intros <-. congruence.
Qed.

Lemma no_true_decided v r s b : vDoCommit v = false \/ vBranches v = [] -> (b, true) ∉ commits (decided v r s).
Proof.
  cbn. intros [Hv|Hv]; [|rewrite Hv; by apply not_elem_of_nil]. intros [Ht _]%in_commits. congruence.
Qed.

Lemma sess_commits tid s S : sess_ok tid s S -> ph s <> Over -> commits s = [].
Proof.
  unfold sess_ok. intros Hok Hne.
  destruct (ph s); [destruct Hok as (_ & _ & Hno)|destruct Hok as (_ & _ & _ & Hno)|destruct Hok as (_ & Hno & _)
    |by destruct Hok as (_ & _ & Hc & _)|done]; by destruct Hno as (_ & _ & _ & Hc).
Qed.

Lemma send_line_calm tid line rand s S S' :
  sys_ok S -> sessions S !! tid = Some s -> ph s = Ready -> send_line site tid line rand s S = Ret S' -> calm S S'.
Proof.
  intros HS Hs Hph. pose proof (proj2 HS tid) as Hok. rewrite Hs in Hok.
  assert (commits s = []) as Hc by (by eapply sess_commits; [|rewrite Hph]).
  assert (forall co r p, parts S = parts S ->
    forall b, (b, true) ∈ commits (goes p co r s) <-> (b, true) ∈ commits s) as Hgo by done.
  assert (ph s = Over -> False) as Hno by (by rewrite Hph).
  assert (forall s' S1, sessions S1 = <[tid := s']> (sessions S) -> parts S1 = parts S ->
    (forall b, (b, true) ∉ commits s') -> calm S S1) as Hcalm.
  { intros s' S1 H1 H2 H3. apply (session_calm tid s s'); [done..| |by intros ?%Hno].
    intros b. rewrite Hc. split; [by intros ?%H3|by intros ?%not_elem_of_nil]. }
  assert (forall p co r b, (b, true) ∉ commits (goes p co r s)) as Hg
    by (intros p co r b; cbn; rewrite Hc; by apply not_elem_of_nil).
  unfold send_line. destruct (submit _ _ _ _ _) as [[a cmd]|c|]; [|intros [= <-]; by apply (Hcalm (goes Over None [] s))|done].
  destruct (site a) as [b|]; cbn; [|intros [= <-]; by apply (Hcalm (goes Over None [] s))].
  destruct (coords S !! b) as [srv|] eqn:Hb; cbn; [|intros [= <-]; by apply (Hcalm (goes Over None [] s))].
  intros Hd. bind_inv Hd. destruct r as [srv1 req]. unfold dispatch in Hd.
  destruct (SendCoord_facts _ _ _ _ _ _ E) as [Hz _]. unfold sess_ok in Hok. rewrite Hph in Hok.
  destruct Hok as (_ & Hn & _). specialize (Hz (Hn b srv Hb)). destruct req as [r| | |c].
  - injection Hd as <-. eapply Hcalm; [reflexivity|done|]. intros b'. apply Hg.
  - pose proof (TwoPhaseCommit_start tid srv1 Hz) as Hst.
    destruct (TwoPhaseCommit tid [] srv1) as [[srv2 v]|c|]; [|done|];
      injection Hd as <-; (eapply Hcalm; [reflexivity|done|]); intros b'.
    + apply no_true_decided. by right.
    + by apply not_elem_of_nil.
  - destruct (DoAbort tid srv1) as [srv2 v] eqn:Hab. injection Hd as <-. unfold DoAbort in Hab.
    injection Hab as <- <-. eapply Hcalm; [reflexivity|done|]. intros b'. apply no_true_decided. by left.
  - injection Hd as <-. eapply Hcalm; [reflexivity|done|]. intros b'. apply Hg.
Qed.

Lemma reply_calm tid s S S' :
  sys_ok S -> sessions S !! tid = Some s -> reply tid s S = Ret S' -> calm S S'.
Proof.
  intros HS Hs. pose proof (proj2 HS tid) as Hok. rewrite Hs in Hok. unfold reply.
  destruct (ph s) as [| |b c i| |] eqn:Hph; try done.
  assert (commits s = []) as Hc by (by eapply sess_commits; [|rewrite Hph]).
  destruct (coords S !! b) as [srv|]; [|done]. destruct (parts S !! Branch c) as [p|]; [|done]. cbn.
  destruct (calls p !! i) as [[cmd [r| |r]]|]; try done.
  unfold SendCoord_end. destruct (decide (r = NF_ABRT)); intros [= <-];
    (eapply session_calm; [exact Hs|reflexivity|done| |by rewrite Hph]); intros b'; rewrite Hc;
    (split; [|by intros ?%not_elem_of_nil]); [|by rewrite <- Hc].
  intros Hin. exfalso. revert Hin. apply no_true_decided. by left.
Qed.

(** *** Events at a participant *)

Definition commits_true (e : event) : bool := match e with ECommit _ true => true | _ => false end.

(** What an event leaves alone for the transactions it is not about. *)
Lemma step_foreign b e p p' :
  inv p -> disciplined p e = true -> commits_true e = false -> step b e p = Ret p' ->
  log p' = log p /\ committedData (app p') = committedData (app p) /\
  forall t, idle p t = true -> of_tid t e = false ->
    tid_hist p' t = tid_hist p t /\ forall a, cached (app p') t a = cached (app p) t a.
Proof.
  intros Hi Hd Hct Hs. destruct e as [cmd|i|i|t0|t0 doCommit].
  - cbn in Hs. destruct (ForwardCmd_begin_spec cmd (app p) (inv_app p Hi)) as
      (app' & phs & Hb & _ & Hcd & Hca & _).
    rewrite Hb, bind_Ret_l in Hs. injection Hs as <-. split_and!; [done|done|].
    intros t _ Hne%bool_decide_eq_false_1. split; [|intros a; apply Hca]. unfold tid_hist. cbn.
    destruct phs; [done..|]. rewrite tid_hist_record. by rewrite decide_False.
  - cbn in Hs. destruct (calls p !! i) as [[cmd [isRead| |]]|]; try done. bind_inv Hs. injection Hs as <-.
    destruct (end_spec _ _ _ _ _ (inv_app p Hi) E) as (_ & (F1 & F2 & _) & _). split_and!; [done|done|].
    intros t _ _. split; [done|]. intros a. unfold cached. cbn. by rewrite F2.
  - destruct (EBody_cases b i p Hi) as [Hb|(cmd & app' & r & Hc0 & Hs' & Hf & _)]; [congruence|].
    rewrite Hs in Hs'. apply (inj Ret) in Hs' as ->. pose proof Hf as (_ & _ & Hcd & _).
    split_and!; [done|done|]. intros t Hid _.
    assert (t <> Tid cmd) as Hne.
    { intros ->. pose proof (proj1 (idle_spec _ _) Hid _ _ Hc0) as Hu. unfold unfinished in Hu.
      cbn in Hu. by rewrite bool_decide_true in Hu. }
    split; [unfold tid_hist at 1; cbn; rewrite tid_hist_record; by rewrite decide_False|].
    intros a. apply (cached_body cmd); auto.
  - injection Hs as <-. split_and!; [done|done|]. done.
  - destruct doCommit; [done|]. cbn in Hd. apply andb_prop in Hd as [Hid _].
    destruct (inv_ECommit b t0 false p Hi Hid) as (app' & Hs' & Hcd & Hca & _); [done|].
    rewrite Hs in Hs'. apply (inj Ret) in Hs' as ->. split_and!; [done|done|].
    intros t _ Hne%bool_decide_eq_false_1. unfold tid_hist, cached. cbn. rewrite Hca.
    by rewrite !lookup_delete_ne by done.
Qed.

Lemma owed_idle S b t p : sys_ok S -> owed S b t -> parts S !! b = Some p -> idle p t = true.
Proof.
  intros HS (s & Hs & Hin) Hp. pose proof (proj2 HS t) as Hok. rewrite Hs in Hok.
  apply list_elem_of_lookup in Hin as [k Hk]. pose proof (commits_over _ _ _ _ _ Hok Hk) as Hph.
  unfold sess_ok in Hok. rewrite Hph in Hok. by apply (proj1 Hok b).
Qed.

Lemma part_keeps o S S' b e p p' :
  sys_ok S -> bank_ok o S -> parts S !! b = Some p -> step b e p = Ret p' -> no_upgrade p e = true ->
  commits_true e = false -> (forall t, owed S b t -> of_tid t e = false) ->
  parts S' = <[b := p']> (parts S) -> (forall b t, owed S' b t <-> owed S b t) ->
  (forall t, told S t -> told S' t) -> bank_ok o S'.
Proof.
  intros HS [Hn Ht Hw Hp] Hb Hst Hup Hct Hof Hpa Ho Hto. split; [done|auto|done|].
  intros b' q. rewrite Hpa. intros [[<- <-]|[_ Hq]]%lookup_insert_Some.
  2:{ destruct (Hp b' q Hq) as [ts Hts]. exists ts. by apply (branch_ok_ext S). }
  destruct (Hp b p Hb) as [ts [Hr Hown Howed Hnd Hlog [d Hset]]]. exists ts.
  pose proof (inv_reachable b no_upgrade p no_upgrade_disciplined Hr) as Hi.
  destruct (step_foreign b e p p' Hi) as (Hl & Hcd & Hf); [by apply andb_prop in Hup as [? _]|done..|].
  assert (forall t, t ∈ ts -> tid_hist p' t = tid_hist p t /\ forall a, cached (app p') t a = cached (app p) t a)
    as Hsame by (intros t Hin%Howed; apply Hf; [by eapply owed_idle|by apply Hof]).
  split.
  - by eapply reach_step.
  - by eapply owns_step.
  - intros t. by rewrite Ho.
  - done.
  - rewrite Hl, <- Hlog. f_equiv. erewrite list_fmap_ext; [reflexivity|].
    intros i t Hi'. apply Hsame. by eapply list_elem_of_lookup_2.
  - exists d. apply (settles_frame b ts _ p); [done..|]. intros t a Hin. by apply Hsame.
Qed.

(** A decided transaction commits at a branch. *)
Lemma commit_keeps o S S' b t p p' s k :
  sys_ok S -> bank_ok o S -> sessions S !! t = Some s -> commits s !! k = Some (b, true) ->
  parts S !! b = Some p -> step b (ECommit t true) p = Ret p' ->
  disciplined p (ECommit t true) = true ->
  parts S' = <[b := p']> (parts S) ->
  (forall b' t', owed S' b' t' <-> owed S b' t' /\ (b' = b -> t' <> t)) ->
  (forall t, told S t -> told S' t) -> bank_ok o S'.
Proof.
  intros HS [Hn Ht Hw Hp] Hs Hk Hb Hst Hd Hpa Ho Hto. split; [done|auto|done|].
  intros b' q. rewrite Hpa. intros [[<- <-]|[Hne Hq]]%lookup_insert_Some.
  2:{ destruct (Hp b' q Hq) as [ts Hts]. exists ts. apply (branch_ok_ext S); [|done].
      intros t'. rewrite Ho. naive_solver. }
  destruct (Hp b p Hb) as [ts [Hr Hown Howed Hnd Hlog [d Hset]]]. exists (filter (fun t' => t' <> t) ts).
  pose proof (inv_reachable b no_upgrade p no_upgrade_disciplined Hr) as Hi.
  pose proof Hd as Hd'. cbn in Hd'. apply andb_prop in Hd' as [Hid Hpr%bool_decide_eq_true_1].
  destruct (inv_ECommit b t true p Hi Hid (fun _ => Hpr)) as (app' & Hst' & Hcd & Hca & _).
  rewrite Hst in Hst'. apply (inj Ret) in Hst' as ->.
  assert (t ∈ ts) as Hin.
  { apply Howed. exists s. split; [done|]. by eapply list_elem_of_lookup_2. }
  split.
  - eapply reach_step; [exact Hr| |exact Hst]. unfold no_upgrade. by rewrite Hd.
  - by eapply owns_step.
  - intros t'. rewrite list_elem_of_filter, Howed, Ho. naive_solver.
  - by apply NoDup_filter.
  - rewrite <- Hlog. cbn [log]. rewrite <- (assoc_L (++)). f_equiv.
    assert (forall l, NoDup l -> t ∈ l ->
      [tid_hist p t] ++ map (tid_hist p) (filter (fun t' => t' <> t) l) ≡ₚ map (tid_hist p) l) as Hmap.
    { clear. intros l. induction l as [|x l IH]; intros Hnd Hin; [by apply not_elem_of_nil in Hin|].
      apply NoDup_cons in Hnd as [Hx Hnd]. rewrite filter_cons. destruct (decide (x <> t)) as [Hne|He].
      - apply elem_of_cons in Hin as [->|Hin]; [done|]. cbn. rewrite <- IH by done. cbn. by constructor.
      - apply dec_stable in He as ->. cbn. f_equiv. f_equiv.
        rewrite filter_all; [done|]. by intros y Hy ->. }
    rewrite <- (Hmap ts) by done. cbn. f_equiv. erewrite list_fmap_ext; [reflexivity|].
    intros i t' Hi'. apply list_elem_of_lookup_2, list_elem_of_filter in Hi' as [Hne _].
    unfold tid_hist. cbn. by rewrite lookup_delete_ne.
  - exists d. by apply (settles_commit b ts _ p _ d t).
Qed.

(** *** Decisions *)

Lemma at_branch_app b o o' : at_branch b (o ++ o') = at_branch b o ++ at_branch b o'.
Proof. apply omap_app. Qed.

Lemma decided_owed S S' tid s s' :
  sessions S !! tid = Some s -> commits s = [] -> sessions S' = <[tid := s']> (sessions S) ->
  forall b t, owed S' b t <-> owed S b t \/ (t = tid /\ (b, true) ∈ commits s').
Proof.
  intros Hs Hc Hs' b t. unfold owed. rewrite Hs'. destruct (decide (tid = t)) as [<-|Hne].
  - rewrite lookup_insert_eq, Hs. split.
    + intros (? & [= <-] & Hin). by right.
    + intros [(? & [= <-] & Hin)|[_ Hin]]; [rewrite Hc in Hin; by apply not_elem_of_nil in Hin|by eexists].
  - rewrite lookup_insert_ne by done. naive_solver.
Qed.

Lemma decision_keeps o S S' tid s s' :
  bank_ok o S -> sessions S !! tid = Some s -> ph s <> Over -> commits s = [] ->
  sessions S' = <[tid := s']> (sessions S) -> parts S' = parts S ->
  ph s' = Over -> last (replied s') = Some CM_OK -> existsb snd (commits s') = true ->
  bank_ok (o ++ decision (VDecide tid) S') S'.
Proof.
  intros [Hn Ht Hw Hp] Hs Hph Hc Hs' Hpa Hph' Hlast Hex.
  assert (sessions S' !! tid = Some s') as Hs1 by (by rewrite Hs', lookup_insert_eq).
  cbn. rewrite Hs1, Hex. set (m := map_imap _ (parts S')).
  assert (forall b, m !! b = if decide ((b, true) ∈ commits s') then p ← parts S !! b; Some (tid_hist p tid) else None)
    as Hm.
  { intros b. unfold m. rewrite map_lookup_imap, Hpa. destruct (parts S !! b); cbn; by case_decide. }
  pose proof (decided_owed S S' tid s s' Hs Hc Hs') as Howed'.
  assert (tid ∉ o.*1) as Hnew.
  { intros (s0 & Hs0 & Hover & _)%Ht. congruence. }
  split.
  - rewrite fmap_app. apply NoDup_app. split; [done|]. split; [|apply NoDup_singleton].
    by intros x Hx ->%list_elem_of_singleton.
  - intros t. rewrite fmap_app. intros [Hin|Hin]%elem_of_app.
    + destruct (Ht t Hin) as (q & Hq & ?). exists q. rewrite Hs', lookup_insert_ne; [done|].
      intros <-. by apply Hnew.
    + apply list_elem_of_singleton in Hin as ->. by exists s'.
  - intros t m' b h c [Hin|Hin]%elem_of_app; [by eapply Hw|]. apply list_elem_of_singleton in Hin as [= -> ->].
    rewrite Hm. case_decide; [|done]. destruct (parts S !! b) as [p|] eqn:Hb; [|done]. intros [= <-].
    destruct (Hp b p Hb) as [ts Hts]. apply (b_owns _ _ _ _ _ Hts).
  - intros b p. rewrite Hpa. intros Hb. destruct (Hp b p Hb) as [ts Hts].
    pose proof Hts as [Hr Hown Howed Hnd Hlog [d Hset]].
    assert (at_branch b [(tid, m)] = if decide ((b, true) ∈ commits s') then [tid_hist p tid] else []) as Hat.
    { unfold at_branch. cbn. rewrite Hm, Hb. by case_decide. }
    destruct (decide ((b, true) ∈ commits s')) as [Hin|Hout].
    + assert (tid ∉ ts) as Htid.
      { intros (q & Hq & Hqin)%Howed. rewrite Hs in Hq. injection Hq as <-. rewrite Hc in Hqin.
        by apply not_elem_of_nil in Hqin. }
      exists (tid :: ts). split.
      * done.
      * done.
      * intros t. rewrite elem_of_cons, Howed, Howed'. naive_solver.
      * by constructor.
      * rewrite at_branch_app, Hat, <- Hlog. cbn. rewrite <- Permutation_middle. apply Permutation_cons_append.
      * rewrite at_branch_app, Hat. apply (settles_decide b ts _ p d tid); [|done..].
        by apply serial_reachable.
    + exists ts. split; try done.
      * intros t. rewrite Howed, Howed'. naive_solver.
      * by rewrite at_branch_app, Hat, app_nil_r.
      * exists d. by rewrite at_branch_app, Hat, app_nil_r.
Qed.

Lemma TwoPhaseCommit_says tid replies srv srv' v :
  TwoPhaseCommit tid replies srv = Ret (srv', v) -> vDoCommit v = true -> vReply v = CM_OK.
Proof.
  unfold TwoPhaseCommit. destruct (relatedBranches srv !! tid); [|done]. case_decide; [|done].
  intros Hc. bind_inv Hc. by destruct (all_can r tid); injection Hc as <- <-.
Qed.

Lemma decide_keeps o tid s S S' :
  sys_ok S -> bank_ok o S -> sessions S !! tid = Some s -> decide_2pc tid s S = Ret S' ->
  bank_ok (o ++ decision (VDecide tid) S') S'.
Proof.
  intros HS Hok Hs. pose proof (proj2 HS tid) as Hse. rewrite Hs in Hse. unfold decide_2pc.
  destruct (ph s) as [| | |b|] eqn:Hph; try done.
  assert (ph s <> Over) as Hne by (by rewrite Hph). pose proof (sess_commits tid s S Hse Hne) as Hc.
  destruct (coords S !! b) as [srv|]; [|done]. intros Hd. bind_inv Hd. destruct r as [srv' v].
  injection Hd as <-. set (s' := decided v (vReply v) s).
  destruct (existsb snd (commits s')) eqn:Hex.
  - assert (vDoCommit v = true) as Hv.
    { apply existsb_exists in Hex as ([b' f] & Hin%list_elem_of_In & Hf). cbn in Hf. subst f.
      by apply in_commits in Hin as [? _]. }
    eapply decision_keeps; [exact Hok|exact Hs|done|done|reflexivity|done|done| |exact Hex]. cbn. rewrite last_snoc. f_equal. by eapply TwoPhaseCommit_says.
  - cbn. rewrite lookup_insert_eq. fold s'. rewrite Hex, app_nil_r. eapply calm_ok; [exact Hok|].
    eapply session_calm; [exact Hs|reflexivity|done| |by rewrite Hph]. intros b'. fold s'. rewrite Hc.
    split; [|by intros ?%not_elem_of_nil]. intros Hin. exfalso.
    assert (existsb snd (commits s') = true) as Ht; [|congruence].
    apply existsb_exists. exists (b', true). by apply list_elem_of_In in Hin.
Qed.

(** *** The invariant is kept *)

Lemma deliver_keeps o tid s S S' :
  sys_ok S -> bank_ok o S -> sessions S !! tid = Some s -> sys_upgrades (VDeliver tid) S = false ->
  deliver tid s S = Ret S' -> bank_ok o S'.
Proof.
  intros HS Hok Hs Hup. pose proof (proj2 HS tid) as Hse. rewrite Hs in Hse. unfold sys_upgrades in Hup. rewrite Hs in Hup.
  unfold deliver. destruct (ph s) as [|b c| | |] eqn:Hph; try done.
  pose proof (sess_commits tid s S Hse ltac:(by rewrite Hph)) as Hc. unfold sess_ok in Hse. rewrite Hph in Hse.
  destruct Hse as (Ht & Hid & _). destruct (parts S !! Branch c) as [p|] eqn:Hp; [|done].
  intros Hd. bind_inv Hd. injection Hd as <-.
  match goal with |- bank_ok o (set_part _ _ (set_session _ ?s' _)) =>
    destruct (session_facts tid s s' S (set_session tid s' S) Hs eq_refl) as [Ho Hto];
      [by intros b'; cbn; rewrite Hc|by rewrite Hph|] end.
  eapply (part_keeps o S _ (Branch c) (EForward c) p); [done..| |done| |reflexivity|exact Ho|exact Hto].
  - unfold no_upgrade. rewrite Hup, andb_true_r. cbn. rewrite Ht. by apply (Hid (Branch c)).
  - intros t (q & Hq & Hin). cbn. apply bool_decide_eq_false_2. intros <-. rewrite Ht, Hs in Hq.
    injection Hq as <-. rewrite Hc in Hin. by apply not_elem_of_nil in Hin.
Qed.

Lemma prepare_keeps o tid k s S S' :
  sys_ok S -> bank_ok o S -> sessions S !! tid = Some s -> prepare tid k s S = Ret S' -> bank_ok o S'.
Proof.
  intros HS Hok Hs. pose proof (proj2 HS tid) as Hse. rewrite Hs in Hse.
  unfold prepare. destruct (pend s !! k) as [b|] eqn:Hk; [|done].
  destruct (parts S !! b) as [p|] eqn:Hp; [|done]. intros Hd. bind_inv Hd. injection Hd as <-.
  match goal with |- bank_ok o (set_part _ _ (set_session _ ?s' _)) =>
    destruct (session_facts tid s s' S (set_session tid s' S) Hs eq_refl) as [Ho Hto]; [done..|] end.
  eapply (part_keeps o S _ b (EPrepare tid) p); [done..| |done| |reflexivity|exact Ho|exact Hto].
  - unfold no_upgrade. cbn. rewrite andb_true_r. by eapply (pend_idle tid k b s S).
  - intros t (q & Hq & Hin). cbn. apply bool_decide_eq_false_2. intros <-. rewrite Hs in Hq. injection Hq as <-.
    apply list_elem_of_lookup in Hin as Hin'. destruct Hin' as [j Hj].
    pose proof (commits_over _ _ _ _ _ Hse Hj) as Hph. unfold sess_ok in Hse. rewrite Hph in Hse.
    destruct Hse as (_ & _ & _ & Hpe). by rewrite (Hpe b Hin) in Hk.
Qed.

Lemma commit_any_keeps o tid k s S S' :
  sys_ok S -> bank_ok o S -> sessions S !! tid = Some s -> commit tid k s S = Ret S' -> bank_ok o S'.
Proof.
  intros HS Hok Hs. pose proof (proj2 HS tid) as Hse. rewrite Hs in Hse.
  unfold commit. destruct (commits s !! k) as [[b f]|] eqn:Hk; [|done].
  destruct (parts S !! b) as [p|] eqn:Hp; [|done]. intros Hd. bind_inv Hd. injection Hd as <-.
  pose proof (commit_disciplined _ _ _ _ _ _ _ Hse Hk Hp) as Hdis.
  pose proof (commits_over _ _ _ _ _ Hse Hk) as Hph. unfold sess_ok in Hse. rewrite Hph in Hse.
  destruct Hse as (_ & Hnd & _ & _). pose proof (delete_perm _ _ _ Hk) as Hdel.
  rewrite Hdel in Hnd. cbn in Hnd. apply NoDup_cons in Hnd as [Hb _].
  assert (forall f', (b, f') ∉ delete k (commits s)) as Hb'
    by (intros f' Hin; apply Hb, list_elem_of_fmap; by exists (b, f')).
  match goal with |- bank_ok o (set_part _ _ (set_session _ ?q _)) => set (s' := q) end.
  assert (forall t, told S t -> told (set_session tid s' S) t) as Hto.
  { intros t (q & Hq & Hover & Hr). unfold told. cbn. destruct (decide (tid = t)) as [<-|Hne].
    - rewrite lookup_insert_eq. exists s'. rewrite Hs in Hq. by injection Hq as <-.
    - exists q. by rewrite lookup_insert_ne. }
  destruct f.
  - eapply (commit_keeps o S _ b tid p _ s k); [done..|reflexivity| |exact Hto].
    intros b' t'. unfold owed. cbn. destruct (decide (tid = t')) as [<-|Hne].
    + rewrite lookup_insert_eq, Hs. split.
      * intros (? & [= <-] & Hin). split; [|by intros -> ?; apply (Hb' true)].
        eexists. split; [done|]. rewrite Hdel. by right.
      * intros [(? & [= <-] & Hin) Hne]. eexists. split; [done|]. cbn. rewrite Hdel in Hin.
        apply elem_of_cons in Hin as [[= ->]|Hin]; [by destruct (Hne eq_refl)|done].
    + rewrite lookup_insert_ne by done. naive_solver.
  - destruct (session_facts tid s s' S (set_session tid s' S) Hs eq_refl) as [Ho _]; [|done|].
    { intros b'. cbn. rewrite (elem_of_deleted _ _ _ _ Hk). naive_solver. }
    eapply (part_keeps o S _ b (ECommit tid false) p); [done..| |done| |reflexivity|exact Ho|exact Hto].
    + unfold no_upgrade. by rewrite Hdis.
    + intros t (q & Hq & Hin). cbn. apply bool_decide_eq_false_2. intros <-. rewrite Hs in Hq. injection Hq as <-.
      rewrite Hdel in Hin. apply elem_of_cons in Hin as [[=]|Hin]. by apply (Hb' true).
Qed.

Lemma bank_exec_ok o e S S' :
  sys_ok S -> bank_ok o S -> sys_upgrades e S = false -> exec site e S = Ret S' ->
  bank_ok (o ++ decision e S') S'.
Proof.
  intros HS Hok Hup He.
  destruct e as [c|tid line rand|tid|tid|b acq i|tid|tid k|tid k|tid|tid k|tid b];
    cbn in He; try (cbn [decision]; rewrite app_nil_r).
  - destruct (sessions S !! id c) eqn:Hs; [done|]. injection He as <-. by eapply calm_ok, start_calm.
  - destruct (sessions S !! tid) as [s|] eqn:Hs; [|done]. destruct (ph s) eqn:Hph; try done.
    by eapply calm_ok, send_line_calm.
  - destruct (sessions S !! tid) as [s|] eqn:Hs; [|done]. destruct (ph s) eqn:Hph; try done.
    injection He as <-. eapply calm_ok; [exact Hok|]. by eapply session_calm; [exact Hs|..|rewrite Hph].
  - destruct (sessions S !! tid) as [s|] eqn:Hs; [|done]. by eapply deliver_keeps.
  - destruct (parts S !! b) as [p|] eqn:Hp; [|done]. bind_inv He. injection He as <-.
    eapply (part_keeps o S _ b (if acq then EAcquire i else EBody i) p); [done..| | | |reflexivity|done|done];
      by destruct acq.
  - destruct (sessions S !! tid) as [s|] eqn:Hs; [|done]. by eapply calm_ok, reply_calm.
  - destruct (sessions S !! tid) as [s|] eqn:Hs; [|done]. by eapply prepare_keeps.
  - destruct (sessions S !! tid) as [s|] eqn:Hs; [|done]. unfold vote in He.
    destruct (fly s !! k); [|done]. injection He as <-. eapply calm_ok; [exact Hok|].
    by eapply session_calm; [exact Hs|..].
  - destruct (sessions S !! tid) as [s|] eqn:Hs; [|done]. by eapply decide_keeps.
  - destruct (sessions S !! tid) as [s|] eqn:Hs; [|done]. by eapply commit_any_keeps.
  - destruct (sessions S !! tid) as [s|] eqn:Hs; [|done]. unfold clean in He.
    destruct (ph s); try done. destruct (coords S !! b); [|done]. bind_inv He. injection He as <-.
    eapply calm_ok; [exact Hok|]. by split.
Qed.

Lemma ordered_run_ok o S : ordered_run site o S -> bank_ok o S.
Proof.
  induction 1 as [S (_ & Hp & Hs)|o S e S' Hr IH Hup He].
  - split; [constructor|by intros t ?%not_elem_of_nil|by intros t m b h c ?%not_elem_of_nil|].
    intros b p Hb. exists []. rewrite (Hp b p Hb). split.
    + constructor.
    + intros t c. unfold tid_hist. cbn. rewrite lookup_empty. by intros ?%not_elem_of_nil.
    + intros t. split; [by intros ?%not_elem_of_nil|]. intros (s & Hs' & _).
      by rewrite Hs, lookup_empty in Hs'.
    + constructor.
    + done.
    + exists ∅. apply settles_new.
  - eapply bank_exec_ok; [|done..]. by eapply (system_ok site), ordered_run_reachable.
Qed.

(** ** The theorem *)

(** C2 One serial order for the whole bank: in every run without lock upgrades,
    however clients, coordinators and branches interleave, the transactions
    decided to commit, in the order of the decisions, are a serial order at all
    branches at once.  Run one after the other, each alone, on empty branches,
    their commands give every reply the clients got; and at a branch with no
    commit on its way they give exactly the balances, and are exactly the
    transactions committed there, in whatever order that was.  Where commits
    are still on their way ([ts]), the serial run has the balances that each of
    these transactions sees of what it changed, and the committed balances of
    all other accounts.  Each transaction occurs once, with its own commands,
    and its client was told COMMIT OK last. *)
Theorem bank_serializable o S :
  ordered_run site o S ->
  NoDup o.*1 /\ (forall t, t ∈ o.*1 -> told S t) /\
  (forall t m b h c, (t, m) ∈ o -> m !! b = Some h -> c ∈ h.*1 -> Tid c = t) /\
  forall b p, parts S !! b = Some p ->
    ((forall t, ~ owed S b t) ->
       log p ≡ₚ at_branch b o /\ replay b (at_branch b o) ∅ = Some (committedData (app p))) /\
    exists ts d, (forall t, t ∈ ts <-> owed S b t) /\
      log p ++ map (tid_hist p) ts ≡ₚ at_branch b o /\ replay b (at_branch b o) ∅ = Some d /\
      (forall t a v, t ∈ ts -> cached (app p) t a = Some v -> d !! a = tx_view (app p) t !! a) /\
      (forall a, (forall t, t ∈ ts -> cached (app p) t a = None) -> d !! a = committedData (app p) !! a).
Proof.
  intros [Hn Ht Hw Hp]%ordered_run_ok. split; [done|]. split; [done|]. split; [done|].
  intros b p Hb. destruct (Hp b p Hb) as [ts [_ _ Howed _ Hlog [d [Hr Ho Hf]]]]. split.
  - intros Hnone. assert (ts = []) as ->.
    { destruct ts as [|t ts]; [done|]. exfalso. apply (Hnone t), Howed. left. }
    rewrite app_nil_r in Hlog. split; [done|]. rewrite Hr. f_equal. apply map_eq. intros a. apply Hf.
    by intros t ?%not_elem_of_nil.
  - exists ts, d. by split_and!.
Qed.
End bank.

(** Runs by their events. *)
Fixpoint order_all `{RangeOrder} (site : string -> option string) (es : list sevent)
    (o : list (string * histories)) (S : system) : outcome (list (string * histories) * system) :=
  match es with
  | [] => Ret (o, S)
  | e :: es => if sys_upgrades e S then Block else S' ← exec site e S; order_all site es (o ++ decision e S') S'
  end.

Lemma order_all_run `{RangeOrder} site es o S o' S' :
  ordered_run site o S -> order_all site es o S = Ret (o', S') -> ordered_run site o' S'.
Proof.
  revert o S. induction es as [|e es IH]; intros o S Hr He; cbn [order_all] in He.
  - by injection He as <- <-.
  - destruct (sys_upgrades e S) eqn:Hu; [done|]. bind_inv He. apply (IH (o ++ decision e r) r); [|done].
    by eapply run_exec.
Qed.
