(* ===== verification/TxSystemProps.v ===== *)
(** * TxSystemProps: two-phase commit in the running bank

    A commit that has been sent always ends, executions in which sessions
    strand locks, and the concrete systems at which the theorems of
    [TxSystem] are applied. *)
From S2P Require Import Prelude GoStrings TxLocks TxServer TxSpec TxProps TxCoord TxCoordProps TxParse TxClient TxSystem TxSerial.

(** ** A commit always ends *)

Section liveness.
Context `{RangeOrder} (site : string -> option string).

(** The events of one transaction. *)
Definition own (tid : string) (e : sevent) : bool :=
  match e with
  | VPrepare t _ | VVote t _ | VDecide t | VCommit t _ => bool_decide (t = tid)
  | _ => false
  end.

(** From [S] the events of the transaction alone lead to a state as in [Q]. *)
Definition ends_in (tid : string) (S : system) (Q : session -> system -> Prop) : Prop :=
  exists es S' s', Forall (fun e => own tid e = true) es /\ exec_all site es S = Ret S' /\
    sessions S' !! tid = Some s' /\ Q s' S'.

Lemma ends_here tid S s (Q : session -> system -> Prop) : sessions S !! tid = Some s -> Q s S -> ends_in tid S Q.
Proof. intros Hs HQ. exists [], S, s. by split_and!. Qed.

Lemma ends_step tid e S S1 Q :
  own tid e = true -> exec site e S = Ret S1 -> ends_in tid S1 Q -> ends_in tid S Q.
Proof.
  intros Ho He (es & S' & s' & Hes & Hrun & Hrest). exists (e :: es), S', s'.
  split; [by constructor|]. split; [|done]. cbn. by rewrite He.
Qed.

Lemma drain_commits tid n S s :
  system_reachable site S -> sessions S !! tid = Some s -> ph s = Over -> pend s = [] -> fly s = [] ->
  length (commits s) = n -> (forall b f, (b, f) ∈ commits s -> is_Some (parts S !! b)) ->
  ends_in tid S (fun s' S' => ph s' = Over /\ pend s' = [] /\ fly s' = [] /\ commits s' = [] /\ got s' = got s /\
    replied s' = replied s /\
    forall b p', parts S' !! b = Some p' ->
      (forall f, (b, f) ∈ commits s -> forall a, held (app p') tid a = None) /\
      (b ∉ (commits s).*1 -> parts S !! b = Some p')).
Proof.
  revert S s. induction n as [|n IH]; intros S s HS Hs Hph Hpe Hf Hlen Hparts.
  - apply length_zero_iff_nil in Hlen. eapply ends_here; [done|]. rewrite Hlen. split_and!; try done.
    intros b p' Hp. split; [by intros f ?%not_elem_of_nil|done].
  - destruct (commits s) as [|[b f] cs] eqn:Hc; [done|].
    assert (commits s !! 0%nat = Some (b, f)) as Hk by (by rewrite Hc).
    pose proof (session_ok site S tid s HS Hs) as Hses.
    destruct (Hparts b f) as [p Hp]; [left|].
    pose proof (commit_disciplined _ _ _ _ _ _ _ Hses Hk Hp) as Hd. cbn in Hd.
    apply andb_prop in Hd as [Hid Hpr].
    assert (inv p) as Hi by (apply (inv_reachable b disciplined); [done|]; by apply (system_ok site S HS)).
    destruct (inv_ECommit b tid f p Hi Hid) as (app' & Hst & _ & _ & Hinfo & _).
    { intros ->. by apply bool_decide_eq_true_1 in Hpr. }
    assert (NoDup (b :: cs.*1)) as Hnd.
    { unfold sess_ok in Hses. rewrite Hph in Hses. destruct Hses as (_ & Hnd & _). by rewrite Hc in Hnd. }
    apply NoDup_cons in Hnd as [Hb Hnd].
    eassert (exec site (VCommit tid 0) S = Ret _) as He.
    { cbn. rewrite Hs. unfold commit. rewrite Hk, Hp, Hst. reflexivity. }
    eapply (ends_step tid (VCommit tid 0)); [by apply bool_decide_eq_true_2|exact He|].
    match type of He with _ = Ret (set_part b ?q (set_session tid ?t S)) =>
      set (p1 := q) in *; set (s1 := t) in * end.
    assert (commits s1 = cs) as Hcs by (unfold s1; cbn; by rewrite Hc).
    destruct (IH (set_part b p1 (set_session tid s1 S)) s1) as (es & S' & s' & Hes & Hrun & Hs' & HQ).
    + eapply sys_exec; [exact HS|exact He].
    + cbn. by rewrite lookup_insert_eq.
    + exact Hph.
    + exact Hpe.
    + exact Hf.
    + rewrite Hcs. cbn in Hlen. lia.
    + intros b' f'. rewrite Hcs. intros Hin. cbn. destruct (decide (b = b')) as [<-|Hne]; [rewrite lookup_insert_eq; by eexists|].
      rewrite lookup_insert_ne by done. apply (Hparts b' f'). by right.
    + exists es, S', s'. split; [done|]. split; [done|]. split; [done|].
      rewrite Hcs in HQ. destruct HQ as (? & ? & ? & ? & ? & ? & HQ). split_and!; [done..|].
      intros b' p' Hp'. destruct (HQ b' p' Hp') as [Hin Hout]. split.
      * intros f' [[= -> ->]|Hin']%elem_of_cons; [|by apply (Hin f')]. intros a.
        specialize (Hout Hb). cbn in Hout. rewrite lookup_insert_eq in Hout. injection Hout as <-.
        unfold held. cbn. by rewrite Hinfo, lookup_delete_eq.
      * intros Hnot. cbn in Hnot. apply not_elem_of_cons in Hnot as [Hne Hnot]. specialize (Hout Hnot).
        cbn in Hout. by rewrite lookup_insert_ne in Hout.
Qed.

(** What a session that has sent COMMIT comes to; [m] are the branches of its
    transaction at the coordinator. *)
Definition settled (tid : string) (m : gmap string bool) (replies : list string) (s' : session) (S' : system)
    : Prop :=
  ph s' = Over /\ pend s' = [] /\ fly s' = [] /\ commits s' = [] /\
  (replied s' = replies ++ [CM_OK] \/ replied s' = replies ++ [ABRT_OK]) /\
  forall b p' a, b ∈ dom m -> parts S' !! b = Some p' -> held (app p') tid a = None.

Lemma vote_ends tid n S s b srv m :
  system_reachable site S -> sessions S !! tid = Some s -> ph s = Voting b -> coords S !! b = Some srv ->
  relatedBranches srv !! tid = Some m -> dom m ⊆ rpcClients srv ->
  (forall b', b' ∈ dom m -> is_Some (parts S !! b')) ->
  (2 * length (pend s) + length (fly s) = n)%nat -> ends_in tid S (settled tid m (replied s)).
Proof.
  revert S s. induction n as [|n IH]; intros S s HS Hs Hph Hsrv Hm Hdom Hparts Hn;
    pose proof (session_ok site S tid s HS Hs) as Hses; unfold sess_ok in Hses; rewrite Hph in Hses;
    destruct Hses as (Hi & Hno & _ & _ & srv0 & m0 & Hsrv0 & Hm0 & Hperm);
    rewrite Hsrv in Hsrv0; injection Hsrv0 as <-; rewrite Hm in Hm0; injection Hm0 as <-.
  - assert (pend s = [] /\ fly s = []) as [Hpe Hf] by (split; apply length_zero_iff_nil; lia).
    rewrite Hpe, Hf in Hperm. cbn in Hperm.
    destruct (TwoPhaseCommit_spec tid (got s).*2 srv m Hm Hdom (Hno b srv Hsrv)) as [srv' Htp].
    { pose proof (Permutation_length Hperm) as Hl. by rewrite !length_fmap, length_map_to_list in *. }
    set (v := if forallb Datatypes.id (got s).*2 then _ else _) in Htp.
    assert (vBranches v = (range m).*1) as Hbr by (unfold v; by destruct (forallb Datatypes.id _)).
    assert (vReply v = CM_OK \/ vReply v = ABRT_OK) as Hr by (unfold v; destruct (forallb Datatypes.id _); [by left|by right]).
    eassert (exec site (VDecide tid) S = Ret _) as He.
    { cbn. rewrite Hs. unfold decide_2pc. rewrite Hph, Hsrv, Htp. reflexivity. }
    eapply (ends_step tid (VDecide tid)); [by apply bool_decide_eq_true_2|exact He|].
    set (s1 := decided v (vReply v) s). set (S1 := set_coord b srv' (set_session tid s1 S)).
    destruct (drain_commits tid (length (commits s1)) S1 s1) as (es & S' & s' & Hes & Hrun & Hs' & HQ).
    + by eapply sys_exec.
    + cbn. by rewrite lookup_insert_eq.
    + done.
    + exact Hpe.
    + exact Hf.
    + done.
    + intros b' f Hin%list_elem_of_In%in_map_iff. destruct Hin as (b0 & [= <- _] & Hin%list_elem_of_In).
      apply Hparts. rewrite Hbr in Hin. by apply elem_of_dom, range_keys_elem.
    + exists es, S', s'. split; [done|]. split; [done|]. split; [done|].
      destruct HQ as (H1 & H2 & H3 & H4 & _ & H6 & H7). split_and!; [done..| |].
      * rewrite H6. cbn. destruct Hr as [->| ->]; [by left|by right].
      * intros b' p' a Hb' Hp'. destruct (H7 b' p' Hp') as [Hheld _]. apply (Hheld (vDoCommit v)).
        apply list_elem_of_In, in_map_iff. exists b'. split; [done|]. apply list_elem_of_In.
        rewrite Hbr. by apply range_keys_elem, elem_of_dom.
  - destruct (pend s) as [|b' bs] eqn:Hpe.
    + destruct (fly s) as [|x fl] eqn:Hf; [cbn in Hn; lia|].
      eassert (exec site (VVote tid 0) S = Ret _) as He.
      { cbn. rewrite Hs. unfold vote. rewrite Hf. reflexivity. }
      eapply (ends_step tid (VVote tid 0)); [by apply bool_decide_eq_true_2|exact He|].
      match goal with |- ends_in _ (set_session tid ?t S) _ => apply (IH (set_session tid t S) t) end;
        try done; [by eapply sys_exec|cbn; by rewrite lookup_insert_eq|].
      cbn. rewrite Hpe. cbn in *. lia.
    + destruct (Hparts b') as [p Hp].
      { apply elem_of_dom, range_keys_elem. rewrite range_perm, <- Hperm. left. }
      eassert (exec site (VPrepare tid 0) S = Ret _) as He.
      { cbn. rewrite Hs. unfold prepare. rewrite Hpe. cbn. rewrite Hp. reflexivity. }
      eapply (ends_step tid (VPrepare tid 0)); [by apply bool_decide_eq_true_2|exact He|].
      match goal with |- ends_in _ (set_part b' ?q (set_session tid ?t S)) _ =>
        apply (IH (set_part b' q (set_session tid t S)) t) end;
        try done; [by eapply sys_exec|cbn; by rewrite lookup_insert_eq| |].
      * intros b1 Hb1. cbn. destruct (decide (b' = b1)) as [<-|Hne]; [rewrite lookup_insert_eq; by eexists|].
        rewrite lookup_insert_ne by done. by apply Hparts.
      * cbn. rewrite length_app. cbn in *. lia.
Qed.

(** C13 A COMMIT always comes to its end, whatever the other transactions hold or
    wait for: from any reachable state in which a coordinator collects votes,
    the calls of that transaction alone lead to a state in which nothing of it
    is on its way, the client has been told COMMIT OK or ABORTED, and no
    branch of the transaction keeps a lock for it. *)
Theorem commit_always_ends S tid s b srv m :
  system_reachable site S -> sessions S !! tid = Some s -> ph s = Voting b -> coords S !! b = Some srv ->
  relatedBranches srv !! tid = Some m -> dom m ⊆ rpcClients srv ->
  (forall b', b' ∈ dom m -> is_Some (parts S !! b')) ->
  exists es S' s', Forall (fun e => own tid e = true) es /\ exec_all site es S = Ret S' /\
    sessions S' !! tid = Some s' /\ settled tid m (replied s) s' S'.
Proof. intros. by eapply vote_ends. Qed.
End liveness.

(** ** A bank of two branches *)

#[local] Existing Instance range_keys.

Definition ex_text : string := config_text [("A", mkBranchAddr "h" "1"); ("B", mkBranchAddr "h" "2")].
Definition ex_server (b : string) : Server := value_or (mkServer b "" ∅ ∅ ∅ ∅ ∅) (Start b ex_text).
Definition ex_bank : system :=
  {| coords := <["A" := ex_server "A"]> {["B" := ex_server "B"]};
     parts := <["A" := new_participant]> {["B" := new_participant]}; sessions := ∅ |}.
Definition ex_site (a : string) : option string :=
  if decide (a = "h:1") then Some "A" else if decide (a = "h:2") then Some "B" else None.
Definition ex_client (tid : string) : Client :=
  value_or (mkClient tid []) (main_client tid ex_text).

Lemma ex_bank_fresh : fresh_system ex_bank.
Proof.
  split; [|split; [|done]].
  - intros b srv. cbn. rewrite lookup_insert_Some, lookup_singleton_Some.
    intros [[<- <-]|[_ [<- <-]]]; exists ex_text; apply value_or_Ret; vm_compute; reflexivity.
  - intros b p. cbn. rewrite lookup_insert_Some, lookup_singleton_Some. by intros [[_ <-]|[_ [_ <-]]].
Qed.

Lemma ex_bank_reachable : system_reachable ex_site ex_bank.
Proof. apply sys_start, ex_bank_fresh. Qed.

Lemma reachable_exec_all `{RangeOrder} site es S S' :
  system_reachable site S -> exec_all site es S = Ret S' -> system_reachable site S'.
Proof.
  revert S. induction es as [|e es IH]; intros S HS Hr; cbn in Hr; [by injection Hr as <-|].
  bind_inv Hr. apply (IH r); [by eapply sys_exec|done].
Qed.

(** A command that finds its lock free, the [i]-th call of the branch. *)
Definition ex_command (tid line b : string) (i : nat) : list sevent :=
  [VLine tid line 0; VDeliver tid; VServe b true i; VServe b false i; VReply tid].
Definition ex_commit (tid : string) : list sevent :=
  [VLine tid "COMMIT" 0; VPrepare tid 0; VVote tid 0; VDecide tid; VCommit tid 0].

Definition ex_after (es : list sevent) : system := value_or ex_bank (exec_all ex_site es ex_bank).

Lemma ex_after_spec es :
  returns (exec_all ex_site es ex_bank) = true ->
  exec_all ex_site es ex_bank = Ret (ex_after es) /\ system_reachable ex_site (ex_after es).
Proof.
  intros Hr. assert (exec_all ex_site es ex_bank = Ret (ex_after es)) as He by (by apply value_or_Ret).
  split; [done|]. by eapply reachable_exec_all; [apply ex_bank_reachable|].
Qed.

(** A client that sends BEGIN a second time is given another coordinator. *)
Definition ex_two_begins : list sevent :=
  [VStart (ex_client "t"); VLine "t" "BEGIN" 0] ++ ex_command "t" "DEPOSIT A.x 5" "A" 0 ++
  [VLine "t" "BEGIN" 1] ++ ex_command "t" "DEPOSIT B.y 7" "B" 0 ++ ex_commit "t".

(** A client whose input ends before COMMIT. *)
Definition ex_end_of_input : list sevent :=
  [VStart (ex_client "t"); VLine "t" "BEGIN" 0] ++ ex_command "t" "DEPOSIT A.x 5" "A" 0 ++ [VEof "t"].

(** Sessions can strand locks (code bugs).  After a second BEGIN, which the
    client takes to another coordinator, COMMIT OK covers only what came after
    it: the deposit before it is lost, and its account stays locked although
    nothing of the transaction is left to come.  So does an account whose
    client's input ends before COMMIT. *)
Theorem sessions_can_strand_locks :
  (exists S s p, exec_all ex_site ex_two_begins ex_bank = Ret S /\ sessions S !! "t" = Some s /\
     replied s = [OK; OK; OK; OK; CM_OK] /\
     ph s = Over /\ pend s = [] /\ fly s = [] /\ commits s = [] /\
     parts S !! "A" = Some p /\ held (app p) "t" "x" = Some false /\ committedData (app p) = ∅) /\
  (exists S s p, exec_all ex_site ex_end_of_input ex_bank = Ret S /\ sessions S !! "t" = Some s /\
     ph s = Over /\ pend s = [] /\ fly s = [] /\ commits s = [] /\
     parts S !! "A" = Some p /\ held (app p) "t" "x" = Some false).
Proof.
  split; [exists (ex_after ex_two_begins)|exists (ex_after ex_end_of_input)]; eexists _, _.
  - split; [apply ex_after_spec; vm_compute; reflexivity|]. split; [vm_compute; reflexivity|].
    do 5 (split; [vm_compute; reflexivity|]). split; [vm_compute; reflexivity|]. split; vm_compute; reflexivity.
  - split; [apply ex_after_spec; vm_compute; reflexivity|]. split; [vm_compute; reflexivity|].
    do 4 (split; [vm_compute; reflexivity|]). split; vm_compute; reflexivity.
Qed.

(** ** Witnesses *)

Definition ex_voting : list sevent :=
  [VStart (ex_client "t"); VLine "t" "BEGIN" 0] ++ ex_command "t" "DEPOSIT A.x 5" "A" 0 ++ [VLine "t" "COMMIT" 0].
Definition ex_decided : list sevent := ex_voting ++ [VPrepare "t" 0; VVote "t" 0; VDecide "t"].

Lemma every_participant_is_disciplined_witness :
  exists p, parts (ex_after ex_decided) !! "A" = Some p /\ reachable "A" disciplined p.
Proof.
  destruct (ex_after_spec ex_decided) as [_ HS]; [vm_compute; reflexivity|].
  assert (exists p, parts (ex_after ex_decided) !! "A" = Some p) as [p Hp]
    by (eexists; vm_compute; reflexivity).
  exists p. split; [exact Hp|].
  exact (proj1 (every_participant_is_disciplined ex_site _ HS) "A" p Hp).
Defined.

Lemma promised_commits_are_kept_witness :
  exists S' p', exec ex_site (VCommit "t" 0) (ex_after ex_decided) = Ret S' /\ parts S' !! "A" = Some p' /\
    committedData (app p') !! "x" = Some 5.
Proof.
  destruct (ex_after_spec ex_decided) as [_ HS]; [vm_compute; reflexivity|].
  assert (exists s p, sessions (ex_after ex_decided) !! "t" = Some s /\ commits s !! 0%nat = Some ("A", true) /\
    parts (ex_after ex_decided) !! "A" = Some p /\ tx_view (app p) "t" !! "x" = Some 5) as (s & p & Hs & Hk & Hp & Hv).
  { eexists _, _. split; [vm_compute; reflexivity|]. split; [vm_compute; reflexivity|].
    split; [vm_compute; reflexivity|]. rewrite lookup_tx_view. vm_compute. reflexivity. }
  destruct (promised_commits_are_kept ex_site _ "t" s 0 "A" p HS Hs Hk Hp) as (_ & _ & _ & S' & p' & He & Hp' & Hcd & _).
  exists S', p'. split; [exact He|]. split; [exact Hp'|]. rewrite Hcd. exact Hv.
Defined.

Lemma bank_is_safe_witness :
  exists p, parts (ex_after ex_decided) !! "A" = Some p /\ held (app p) "t" "x" = Some false /\
    forall t r, held (app p) t "x" = Some r -> t = "t".
Proof.
  destruct (ex_after_spec ex_decided) as [_ HS]; [vm_compute; reflexivity|].
  assert (exists p, parts (ex_after ex_decided) !! "A" = Some p /\ held (app p) "t" "x" = Some false)
    as (p & Hp & Hh) by (eexists; split; vm_compute; reflexivity).
  exists p. split; [exact Hp|]. split; [exact Hh|]. intros t r.
  exact (proj2 (bank_is_safe ex_site _ "A" p HS Hp) "t" t "x" r Hh).
Defined.

Lemma commit_always_ends_witness :
  exists es S' s', exec_all ex_site es (ex_after ex_voting) = Ret S' /\ sessions S' !! "t" = Some s' /\ ph s' = Over.
Proof.
  destruct (ex_after_spec ex_voting) as [_ HS]; [vm_compute; reflexivity|].
  assert (exists s srv, sessions (ex_after ex_voting) !! "t" = Some s /\ ph s = Voting "A" /\
    coords (ex_after ex_voting) !! "A" = Some srv /\ relatedBranches srv !! "t" = Some {["A" := true]} /\
    bool_decide (dom ({["A" := true]} : gmap string bool) ⊆ rpcClients srv) = true)
    as (s & srv & Hs & Hph & Hc & Hr & Hd).
  { eexists _, _. split; [vm_compute; reflexivity|]. split; [vm_compute; reflexivity|].
    split; [vm_compute; reflexivity|]. split; vm_compute; reflexivity. }
  destruct (commit_always_ends ex_site _ "t" s "A" srv {["A" := true]} HS Hs Hph Hc Hr)
    as (es & S' & s' & _ & He & Hs' & Hq).
  - by apply bool_decide_eq_true_1 in Hd.
  - intros b Hb. rewrite dom_singleton_L in Hb. apply elem_of_singleton in Hb as ->.
    eexists. vm_compute. reflexivity.
  - exists es, S', s'. split; [exact He|]. split; [exact Hs'|]. exact (proj1 Hq).
Defined.

(** Two transactions over both branches.  The coordinators decide "t" first;
    branch A commits "u" first, branch B "t" first. *)
Definition ex_two_orders : list sevent :=
  [VStart (ex_client "t"); VLine "t" "BEGIN" 0; VStart (ex_client "u"); VLine "u" "BEGIN" 1] ++
  ex_command "t" "DEPOSIT A.x 5" "A" 0 ++ ex_command "u" "DEPOSIT A.y 7" "A" 1 ++
  ex_command "u" "DEPOSIT B.y 1" "B" 0 ++ ex_command "t" "DEPOSIT B.x 2" "B" 1 ++
  concat (map (fun t => [VLine t "COMMIT" 0; VPrepare t 0; VPrepare t 0; VVote t 0; VVote t 0; VDecide t]) ["t"; "u"]) ++
  [VCommit "u" 0; VCommit "t" 1; VCommit "t" 0; VCommit "u" 0].

Lemma bank_serializable_witness :
  exists o S p, order_all ex_site ex_two_orders [] ex_bank = Ret (o, S) /\ o.*1 = ["t"; "u"] /\
    parts S !! "A" = Some p /\ (at_branch "A" o <> log p) /\ (log p ≡ₚ at_branch "A" o) /\
    replay "A" (at_branch "A" o) ∅ = Some (committedData (app p)).
Proof.
  assert (exists r p, order_all ex_site ex_two_orders [] ex_bank = Ret r /\ r.1.*1 = ["t"; "u"] /\
    parts r.2 !! "A" = Some p /\ bool_decide (at_branch "A" r.1 <> log p) = true /\
    bool_decide (map_Forall (fun _ s => commits s = []) (sessions r.2)) = true) as (r & p & He & Ho & Hp & Hl & Hc).
  { exists (value_or ([], ex_bank) (order_all ex_site ex_two_orders [] ex_bank)). eexists.
    split; [apply value_or_Ret; vm_compute; reflexivity|]. split; [vm_compute; reflexivity|].
    split; [vm_compute; reflexivity|]. split; vm_compute; reflexivity. }
  destruct r as [o S]. exists o, S, p. split; [exact He|]. split; [exact Ho|]. split; [exact Hp|].
  apply bool_decide_eq_true_1 in Hl, Hc. split; [exact Hl|].
  assert (ordered_run ex_site o S) as Hr.
  { eapply order_all_run; [|exact He]. apply run_start, ex_bank_fresh. }
  refine (proj1 (proj2 (proj2 (proj2 (bank_serializable ex_site o S Hr))) "A" p Hp) _).
  intros t (s & Hs & Hin). rewrite (Hc t s Hs) in Hin. by apply not_elem_of_nil in Hin.
Defined.
