(* ===== verification/LabGob.v ===== *)
(** * LabGob: the checks of [labgob], and what they are worth

    Models [raft-demo/src/labgob/labgob.go].  A [reflect.Type] is a pointer to
    a type descriptor, so a type is a name here and [universe] holds the
    descriptors; types may refer to each other in cycles.  [checkType] marks
    the types it has seen in [checked], whose lock is never held across the
    recursion; a run of it is not interleaved with another here.

    [assign] is what [encoding/gob] documents of an encoder and a decoder: only
    the exported fields that are not zero travel, and what does not travel
    leaves the destination as it was.  The values are those of booleans,
    integers, floats, complex numbers, strings, structs, slices, arrays, maps,
    pointers and interfaces; a nil slice and an empty one, which gob does not
    tell apart, are one value.  Types with their own encoders ([GobEncoder],
    [BinaryMarshaler]) and fields of channel or function type, which gob skips,
    have no values here. *)
From stdpp Require Import gmap sets relations.
From S2P Require Import Prelude.

#[local] Open Scope Z_scope.
#[local] Set Warnings "-register-all".

(** ** Types *)

Inductive rtype : Set :=
  | RStruct (name : string) (fields : list (string * string))
  | RSeq (elem : string)                     (** slice, array or pointer *)
  | RMap (key elem : string)
  | RBasic (name : string)                   (** booleans, numbers, strings *)
  | ROther.                                  (** interfaces, channels, functions *)

Abbreviation universe := (gmap string rtype).

Definition desc (U : universe) (t : string) : rtype := default ROther (U !! t).

(** [unicode.IsUpper] of the first rune, for names that start in ASCII. *)
Definition is_upper (name : string) : bool :=
  match name with
  | String c _ => bool_decide (65 <= Z.of_nat (Ascii.nat_of_ascii c) <= 90)
  | EmptyString => false
  end.

(** ** The state of the package *)

Inductive report : Set :=
  | LowerCase (field struct : string)
  | NonDefault (what : string).

#[export] Instance report_eq_dec : EqDecision report.
Proof. solve_decision. Defined.

Record labgob : Set := mkLabgob {
  errorCount : Z;
  checked : gset string;
  printed : list report;
}.

Definition labgob_init : labgob := {| errorCount := 0; checked := ∅; printed := [] |}.

Definition mark (t : string) (s : labgob) : labgob :=
  {| errorCount := errorCount s; checked := {[t]} ∪ checked s; printed := printed s |}.

(** Lines 92-99 *)
Definition checkField (name : string) (field : string) (s : labgob) : labgob :=
  if is_upper field then s
  else {| errorCount := errorCount s + 1; checked := checked s;
          printed := printed s ++ [LowerCase field name] |}.

(** The loop over the fields; [check] is the recursive call. *)
Fixpoint checkFields (check : string -> labgob -> option labgob) (name : string)
    (fields : list (string * string)) (s : labgob) : option labgob :=
  match fields with
  | [] => Some s
  | (field, t) :: fields =>
      s' ← check t (checkField name field s);
      checkFields check name fields s'
  end.

(** [None]: out of fuel, which does not happen with one unit per type. *)
Fixpoint checkType (fuel : nat) (U : universe) (t : string) (s : labgob) : option labgob :=
  match fuel with
  | O => None
  | S fuel =>
      if decide (t ∈ checked s) then Some s
      else
        let s := mark t s in
        match desc U t with
        | RStruct name fields => checkFields (checkType fuel U) name fields s
        | RSeq elem => checkType fuel U elem s
        | RMap key elem => s' ← checkType fuel U elem s; checkType fuel U key s'
        | RBasic _ | ROther => Some s
        end
  end.

(** ** What [checkType] computes *)

Definition children (d : rtype) : list string :=
  match d with
  | RStruct _ fields => fields.*2
  | RSeq elem => [elem]
  | RMap key elem => [elem; key]
  | _ => []
  end.

Definition complaints (d : rtype) : list report :=
  match d with
  | RStruct name fields =>
      (fun f => LowerCase f name) <$> filter (fun f => is_upper f = false) fields.*1
  | _ => []
  end.

Definition refers (U : universe) (t t' : string) : Prop := t' ∈ children (desc U t).

Definition universe_ok (U : universe) : Prop :=
  forall t t', t ∈ dom U -> refers U t t' -> t' ∈ dom U.

Definition closed (U : universe) (X : gset string) : Prop :=
  forall t t', t ∈ X -> refers U t t' -> t' ∈ X.

Definition complaints_of (U : universe) (X : gset string) : list report :=
  concat ((fun t => complaints (desc U t)) <$> elements X).

Lemma complaints_of_union U X Y :
  X ## Y -> complaints_of U (X ∪ Y) ≡ₚ complaints_of U X ++ complaints_of U Y.
Proof.
  intros HXY. unfold complaints_of. rewrite elements_disj_union by done.
  by rewrite fmap_app, concat_app.
Qed.

Lemma complaints_of_singleton U t : complaints_of U {[t]} = complaints (desc U t).
Proof. unfold complaints_of. rewrite elements_singleton. cbn. apply app_nil_r. Qed.

(** What a visit of the types [ts] does, [own] being complaints made on the
    way: everything new is reachable from [ts], closed, and reported once. *)
Definition visits (U : universe) (ts : list string) (own : list report) (s s' : labgob) : Prop :=
  checked s ⊆ checked s' /\ checked s' ⊆ checked s ∪ dom U /\
  (forall t, t ∈ ts -> t ∈ checked s') /\
  (forall x, x ∈ checked s' -> x ∉ checked s ->
     (exists t, t ∈ ts /\ rtc (refers U) t x) /\ forall y, refers U x y -> y ∈ checked s') /\
  exists l, printed s' = printed s ++ l /\ errorCount s' = errorCount s + zlen l /\
    l ≡ₚ own ++ complaints_of U (checked s' ∖ checked s).

Lemma visits_refl U s : visits U [] [] s s.
Proof.
  unfold visits. split_and!; [done|set_solver|set_solver|done|].
  exists []. rewrite app_nil_r, difference_diag_L. unfold complaints_of. rewrite elements_empty.
  split_and!; [done|unfold zlen; cbn; lia|done].
Qed.

Lemma visits_trans U ts1 ts2 o1 o2 s s1 s2 :
  visits U ts1 o1 s s1 -> visits U ts2 o2 s1 s2 -> visits U (ts1 ++ ts2) (o1 ++ o2) s s2.
Proof.
  intros (I1 & D1 & T1 & N1 & l1 & P1 & E1 & C1) (I2 & D2 & T2 & N2 & l2 & P2 & E2 & C2).
  unfold visits. split_and!; [set_solver|set_solver| | |].
  - intros t [Ht|Ht]%elem_of_app; [by apply I2, T1|by apply T2].
  - intros x Hx Hn. destruct (decide (x ∈ checked s1)) as [H1|H1].
    + destruct (N1 x H1 Hn) as [(t & Ht & Hr) Hc]. split; [|by intros y Hy; apply I2, Hc].
      exists t. split; [|done]. apply elem_of_app. by left.
    + destruct (N2 x Hx H1) as [(t & Ht & Hr) Hc]. split; [|done].
      exists t. split; [|done]. apply elem_of_app. by right.
  - exists (l1 ++ l2). rewrite P2, P1, (assoc_L (++)). split_and!; [done| |].
    + rewrite E2, E1. unfold zlen. rewrite length_app. lia.
    + rewrite C1, C2.
      replace (checked s2 ∖ checked s) with ((checked s1 ∖ checked s) ∪ (checked s2 ∖ checked s1)).
      * rewrite complaints_of_union by set_solver. solve_Permutation.
      * apply set_eq. intros x. destruct (decide (x ∈ checked s1)); set_solver.
Qed.

Lemma visits_field U name f s :
  visits U [] (complaints (RStruct name [(f, "")])) s (checkField name f s).
Proof.
  unfold checkField, complaints. change [(f, "")].*1 with [f].
  destruct (is_upper f) eqn:Hf.
  - rewrite filter_cons_False by by rewrite Hf. apply visits_refl.
  - rewrite filter_cons_True by done. unfold visits. cbn.
    split_and!; [done|set_solver|set_solver|done|].
    exists [LowerCase f name]. rewrite difference_diag_L. unfold complaints_of.
    rewrite elements_empty. by split_and!.
Qed.

Lemma complaints_cons name f t fields :
  complaints (RStruct name ((f, t) :: fields)) =
    complaints (RStruct name [(f, "")]) ++ complaints (RStruct name fields).
Proof.
  unfold complaints. change ((f, t) :: fields).*1 with (f :: fields.*1).
  change [(f, "")].*1 with [f]. destruct (is_upper f) eqn:Hf.
  - by rewrite !filter_cons_False by by rewrite Hf.
  - by rewrite !filter_cons_True by done.
Qed.

(** Marking a type and visiting its children visits the type. *)
Lemma visits_mark U t s s' :
  t ∈ dom U -> t ∉ checked s ->
  visits U (children (desc U t)) (complaints (desc U t)) (mark t s) s' -> visits U [t] [] s s'.
Proof.
  intros Ht Hn (I & D & T & N & l & Hp & He & Hc). cbn in *. unfold visits.
  split_and!; [set_solver|set_solver| | |].
  - intros ? ->%list_elem_of_singleton. set_solver.
  - intros x Hx Hxn. destruct (decide (x = t)) as [->|Hxt].
    + split; [|by intros y Hy; apply T]. exists t. split; [left|done].
    + destruct (N x Hx) as [(c & Hc' & Hr) Hcl]; [set_solver|]. split; [|done].
      exists t. split; [left|]. eapply rtc_l; [exact Hc'|done].
  - exists l. split_and!; [done..|]. rewrite Hc, app_nil_l.
    replace (checked s' ∖ checked s) with ({[t]} ∪ checked s' ∖ ({[t]} ∪ checked s)).
    + rewrite complaints_of_union by set_solver. by rewrite complaints_of_singleton.
    + apply set_eq. intros x. destruct (decide (x = t)); set_solver.
Qed.

Definition unseen (U : universe) (s : labgob) : nat := size (dom U ∖ checked s).

Lemma unseen_mono U s s' : checked s ⊆ checked s' -> (unseen U s' <= unseen U s)%nat.
Proof. intros H. apply subseteq_size. set_solver. Qed.

Lemma unseen_mark U t s :
  t ∈ dom U -> t ∉ checked s -> (unseen U (mark t s) < unseen U s)%nat.
Proof. intros Ht Hn. apply subset_size. set_solver. Qed.

Lemma checkFields_visits U check n name fields s :
  (forall t s, t ∈ dom U -> (unseen U s < n)%nat ->
     exists s', check t s = Some s' /\ visits U [t] [] s s') ->
  (forall t, t ∈ fields.*2 -> t ∈ dom U) -> (unseen U s < n)%nat ->
  exists s', checkFields check name fields s = Some s' /\
    visits U fields.*2 (complaints (RStruct name fields)) s s'.
Proof.
  intros Hcheck. revert s. induction fields as [|[f t] fields IH]; intros s Hdom Hs.
  - exists s. split; [done|apply visits_refl].
  - pose proof (visits_field U name f s) as Hf.
    destruct (Hcheck t (checkField name f s)) as (s1 & E1 & V1).
    { apply Hdom. left. }
    { eapply Nat.le_lt_trans; [apply unseen_mono, Hf|done]. }
    pose proof (visits_trans _ _ _ _ _ _ _ _ Hf V1) as V. cbn [app] in V. rewrite app_nil_r in V.
    destruct (IH s1) as (s2 & E2 & V2).
    { intros t' Ht'. apply Hdom. by right. }
    { eapply Nat.le_lt_trans; [apply unseen_mono, V|done]. }
    exists s2. cbn [checkFields]. rewrite E1. split; [exact E2|].
    rewrite complaints_cons. exact (visits_trans _ _ _ _ _ _ _ _ V V2).
Qed.

Lemma checkType_visits U fuel t s :
  universe_ok U -> t ∈ dom U -> (unseen U s < fuel)%nat ->
  exists s', checkType fuel U t s = Some s' /\ visits U [t] [] s s'.
Proof.
  intros HU. revert t s. induction fuel as [|fuel IH]; intros t s Ht Hs; [lia|].
  cbn [checkType]. case_decide as Hin.
  { exists s. split; [done|]. destruct (visits_refl U s) as (?&?&?&?&?).
    split_and!; [done|done|by intros ? ->%list_elem_of_singleton|done|done]. }
  pose proof (unseen_mark U t s Ht Hin) as Hlt.
  cut (exists s', match desc U t with
    | RStruct name fields => checkFields (checkType fuel U) name fields (mark t s)
    | RSeq elem => checkType fuel U elem (mark t s)
    | RMap key elem => s' ← checkType fuel U elem (mark t s); checkType fuel U key s'
    | _ => Some (mark t s) end = Some s' /\
    visits U (children (desc U t)) (complaints (desc U t)) (mark t s) s').
  { intros (s' & E & V). exists s'. split; [exact E|]. by apply visits_mark. }
  assert (forall c, c ∈ children (desc U t) -> c ∈ dom U) as Hc by (intros c; by apply HU).
  destruct (desc U t) as [name fields|elem|key elem|b|]; cbn [children complaints] in *.
  - apply (checkFields_visits U _ fuel); [|done|lia]. intros c s1 Hd Hs1. by apply IH.
  - apply IH; [apply Hc; left|lia].
  - destruct (IH elem (mark t s)) as (s1 & -> & V1); [apply Hc; left|lia|].
    destruct (IH key s1) as (s2 & E2 & V2).
    { apply Hc. right. left. }
    { eapply Nat.le_lt_trans; [apply unseen_mono, V1|lia]. }
    exists s2. split; [exact E2|]. exact (visits_trans _ _ _ _ _ _ _ _ V1 V2).
  - exists (mark t s). split; [done|apply visits_refl].
  - exists (mark t s). split; [done|apply visits_refl].
Qed.

Lemma closed_rtc U X t t' : closed U X -> t ∈ X -> rtc (refers U) t t' -> t' ∈ X.
Proof. intros HX Ht Hr. induction Hr; [done|]. apply IHHr. by eapply HX. Qed.

Lemma checkType_spec U t s :
  universe_ok U -> t ∈ dom U -> closed U (checked s) ->
  exists s', checkType (S (size (dom U))) U t s = Some s' /\ closed U (checked s') /\
    (forall x, x ∈ checked s' <-> x ∈ checked s \/ rtc (refers U) t x) /\
    exists l, printed s' = printed s ++ l /\ errorCount s' = errorCount s + zlen l /\
      l ≡ₚ complaints_of U (checked s' ∖ checked s).
Proof.
  intros HU Ht Hs. destruct (checkType_visits U (S (size (dom U))) t s HU Ht)
    as (s' & E & I & _ & T & N & Hl).
  { unfold unseen. apply Nat.lt_succ_r, subseteq_size. set_solver. }
  assert (closed U (checked s')) as Hcl.
  { intros x y Hx Hxy. destruct (decide (x ∈ checked s)) as [H|H].
    - by apply I, (Hs x).
    - by apply (N x Hx H). }
  exists s'. split_and!; [done..| |exact Hl]. intros x. split.
  - intros Hx. destruct (decide (x ∈ checked s)) as [|Hn]; [by left|right].
    destruct (N x Hx Hn) as [(t' & ->%list_elem_of_singleton & Hr) _]. done.
  - intros [Hx|Hr]; [by apply I|]. eapply closed_rtc; [done|apply T; left|done].
Qed.

(** C28 [checkType] terminates on every type, cyclic ones included -- one unit of
    fuel per type of the program is enough -- and checks exactly what it should:
    from a state in which what is checked is closed, it marks the types that can
    be reached from [t], and it complains about every lower-case field of each
    newly marked struct, exactly once. *)
Theorem checkType_exact U t s :
  universe_ok U -> t ∈ dom U -> closed U (checked s) ->
  exists s', checkType (S (size (dom U))) U t s = Some s' /\ closed U (checked s') /\
    (forall x, x ∈ checked s' <-> x ∈ checked s \/ rtc (refers U) t x) /\
    exists l, printed s' = printed s ++ l /\ errorCount s' = errorCount s + zlen l /\
      l ≡ₚ complaints_of U (checked s' ∖ checked s).
Proof. apply checkType_spec. Qed.

(** ** Values *)

Inductive basic : Set :=
  | BBool (b : bool)
  | BNum (n : Z)
  | BFloat (bits : Z)                        (** as [math.Float64bits] *)
  | BComplex (re im : Z)                     (** the bits of its parts *)
  | BString (s : string).

#[export] Instance basic_eq_dec : EqDecision basic.
Proof. solve_decision. Defined.

(** [tname] is the name of the type of a basic or struct value.  The entries of
    a map are in the order in which the encoder visits them. *)
Inductive gval : Set :=
  | VBasic (tname : string) (b : basic)
  | VStruct (tname : string) (fields : list (string * gval))
  | VSlice (elems : list gval)
  | VArray (elems : list gval)
  | VMap (entries : option (list (gval * gval)))
  | VPtr (v : option gval)
  | VIface (v : option gval).

#[export] Instance gval_eq_dec : EqDecision gval.
Proof.
  refine (fix IH (x y : gval) {struct x} : Decision (x = y) :=
    let list_dec := fix go (l l' : list gval) {struct l} : Decision (l = l') :=
      match l, l' with
      | [], [] => left eq_refl
      | a :: l, b :: l' => cast_if_and (IH a b) (go l l')
      | _, _ => right _
      end in
    let fields_dec := fix go (l l' : list (string * gval)) {struct l} : Decision (l = l') :=
      match l, l' with
      | [], [] => left eq_refl
      | (f, a) :: l, (g, b) :: l' => cast_if_and3 (decide (f = g)) (IH a b) (go l l')
      | _, _ => right _
      end in
    let entries_dec := fix go (l l' : list (gval * gval)) {struct l} : Decision (l = l') :=
      match l, l' with
      | [], [] => left eq_refl
      | (k, a) :: l, (k', b) :: l' => cast_if_and3 (IH k k') (IH a b) (go l l')
      | _, _ => right _
      end in
    match x, y with
    | VBasic n b, VBasic n' b' => cast_if_and (decide (n = n')) (decide (b = b'))
    | VStruct n fs, VStruct n' fs' => cast_if_and (decide (n = n')) (fields_dec fs fs')
    | VSlice es, VSlice es' => cast_if (list_dec es es')
    | VArray es, VArray es' => cast_if (list_dec es es')
    | VMap None, VMap None => left eq_refl
    | VMap (Some es), VMap (Some es') => cast_if (entries_dec es es')
    | VPtr None, VPtr None => left eq_refl
    | VPtr (Some v), VPtr (Some v') => cast_if (IH v v')
    | VIface None, VIface None => left eq_refl
    | VIface (Some v), VIface (Some v') => cast_if (IH v v')
    | _, _ => right _
    end); try congruence.
  Unshelve. all: congruence.
Defined.

(** A value in an [interface{}]: its type and itself, or nil. *)
Abbreviation eface := (option (string * gval)).

Definition zero_basic (b : basic) : basic :=
  match b with
  | BBool _ => BBool false
  | BNum _ => BNum 0
  | BFloat _ => BFloat 0
  | BComplex _ _ => BComplex 0 0
  | BString _ => BString ""
  end.

(** [f == 0], which holds of the negative zero too *)
Definition float_zero (bits : Z) : bool := bool_decide (bits = 0 \/ bits = 2 ^ 63).

(** Is the value equal, in the sense of [==], to the zero of its type? *)
Definition is_zero (b : basic) : bool :=
  match b with
  | BFloat bits => float_zero bits
  | BComplex re im => float_zero re && float_zero im
  | _ => bool_decide (b = zero_basic b)
  end.

Lemma is_zero_zero b : is_zero (zero_basic b) = true.
Proof. by destruct b. Qed.

(** The zero value of the type of a value. *)
Fixpoint zero (v : gval) : gval :=
  match v with
  | VBasic tn b => VBasic tn (zero_basic b)
  | VStruct tn fields => VStruct tn (map (fun fv => (fv.1, zero fv.2)) fields)
  | VSlice _ => VSlice []
  | VArray elems => VArray (map zero elems)
  | VMap _ => VMap None
  | VPtr _ => VPtr None
  | VIface _ => VIface None
  end.

(** *** [checkDefault] *)

(** Lines 160-172 *)
Definition warn (what : string) (s : labgob) : labgob :=
  {| errorCount := errorCount s + 1; checked := checked s;
     printed := if decide (errorCount s < 1) then printed s ++ [NonDefault what] else printed s |}.

(** [ro]: the value was reached through an unexported field, and [Interface]
    panics on it. *)
Fixpoint checkDefault1 (value : gval) (depth : nat) (name : string) (ro : bool) (s : labgob)
    : outcome labgob :=
  if decide (3 < depth)%nat then Ret s
  else
    match value with
    | VStruct _ fields =>
        (fix go (fields : list (string * gval)) (s : labgob) : outcome labgob :=
           match fields with
           | [] => Ret s
           | (f, vv) :: fields =>
               let name1 := if decide (name = "") then f else name +:+ "." +:+ f in
               s' ← checkDefault1 vv (S depth) name1 (ro || negb (is_upper f)) s;
               go fields s'
           end) fields s
    | VPtr None => Ret s
    | VPtr (Some v) => checkDefault1 v (S depth) name ro s
    | VBasic _ (BComplex _ _) => Ret s
    | VBasic tn b =>
        if ro then Crash UserPanic
        else if is_zero b then Ret s
        else Ret (warn (if decide (name = "") then tn else name) s)
    | VSlice _ | VArray _ | VMap _ | VIface _ => Ret s
    end.

Definition checkDefault (value : eface) (s : labgob) : outcome labgob :=
  match value with
  | None => Ret s
  | Some (_, v) => checkDefault1 v 1 "" false s
  end.

(** *** [encoding/gob] *)

(** Is a field with this value transmitted? *)
Fixpoint sent (v : gval) : bool :=
  match v with
  | VBasic _ b => negb (is_zero b)
  | VStruct _ _ | VArray _ => true
  | VSlice elems => negb (bool_decide (elems = []))
  | VMap None | VPtr None | VIface None => false
  | VPtr (Some v) => sent v
  | VMap (Some _) | VIface (Some _) => true
  end.

(** A store into a map *)
Fixpoint map_put (k v : gval) (l : list (gval * gval)) : list (gval * gval) :=
  match l with
  | [] => [(k, v)]
  | (k', v') :: l => if decide (k = k') then (k, v) :: l else (k', v') :: map_put k v l
  end.

(** The destination [dst] after it received [src], a value of its type.  A map
    is allocated if the destination has none, a nil map that was transmitted
    (as an element) included; its keys and elements are decoded afresh. *)
Fixpoint assign (dst src : gval) {struct src} : gval :=
  match src with
  | VBasic _ _ => src
  | VStruct tn ss =>
      VStruct tn
        ((fix go (ss ds : list (string * gval)) : list (string * gval) :=
            match ss, ds with
            | (f, s) :: ss, (_, d) :: ds =>
                (f, if is_upper f && sent s then assign d s else d) :: go ss ds
            | _, _ => []
            end) ss (match dst with VStruct _ ds => ds | _ => [] end))
  | VSlice ss =>
      VSlice
        ((fix go (ss ds : list gval) : list gval :=
            match ss with
            | [] => []
            | s :: ss =>
                match ds with
                | d :: ds => assign d s :: go ss ds
                | [] => assign (zero s) s :: go ss []
                end
            end) ss (match dst with VSlice ds => ds | _ => [] end))
  | VArray ss =>
      VArray
        ((fix go (ss ds : list gval) : list gval :=
            match ss, ds with
            | s :: ss, d :: ds => assign d s :: go ss ds
            | _, _ => []
            end) ss (match dst with VArray ds => ds | _ => [] end))
  | VMap (Some ss) =>
      VMap (Some
        ((fix go (ss ds : list (gval * gval)) : list (gval * gval) :=
            match ss with
            | [] => ds
            | (k, v) :: ss => go ss (map_put (assign (zero k) k) (assign (zero v) v) ds)
            end) ss (match dst with VMap (Some ds) => ds | _ => [] end)))
  | VMap None => VMap (Some (match dst with VMap (Some ds) => ds | _ => [] end))
  | VPtr (Some s) =>
      VPtr (Some (assign (match dst with VPtr (Some d) => d | _ => zero s end) s))
  | VPtr None => dst
  | VIface (Some s) => VIface (Some (assign (zero s) s))
  | VIface None => VIface None
  end.

(** Pointers are flattened: the value sent is the one they lead to. *)
Fixpoint deref (v : gval) : gval :=
  match v with VPtr (Some v) => deref v | _ => v end.

(** *** [Encode], [Decode], [Register] *)

Definition checkValue (U : universe) (value : eface) (s : labgob) : outcome labgob :=
  match value with
  | None => Crash NilDeref                 (* [reflect.TypeOf(nil).Kind()] *)
  | Some (t, _) =>
      match checkType (S (size (dom U))) U t s with Some s' => Ret s' | None => Block end
  end.

Definition Encode (U : universe) (e : eface) (s : labgob) : outcome (labgob * gval) :=
  s' ← checkValue U e s;
  Ret (s', match e with Some (_, v) => deref v | None => VPtr None end).

(** [value.Interface()] is the value it was made from. *)
Definition EncodeValue (U : universe) (value : eface) (s : labgob) : outcome (labgob * gval) :=
  s' ← checkValue U value s;
  Ret (s', match value with Some (_, v) => deref v | None => VPtr None end).

Definition Register (U : universe) (value : eface) (s : labgob) : outcome labgob :=
  checkValue U value s.

(** [msg] is what the encoder sent, [e] holds a pointer to the destination; the
    result is the value it points to afterwards. *)
Definition Decode (U : universe) (e : eface) (msg : gval) (s : labgob) : outcome (labgob * gval) :=
  s1 ← checkValue U e s;
  s2 ← checkDefault e s1;
  Ret (s2, assign (match e with Some (_, v) => deref v | None => VPtr None end) msg).

(** ** Typing *)

Lemma gval_rect_nested (Q : gval -> Prop) :
  (forall tn b, Q (VBasic tn b)) ->
  (forall tn fields, Forall (fun fv => Q fv.2) fields -> Q (VStruct tn fields)) ->
  (forall elems, Forall Q elems -> Q (VSlice elems)) ->
  (forall elems, Forall Q elems -> Q (VArray elems)) ->
  Q (VMap None) -> (forall es, Forall (fun kv => Q kv.1 /\ Q kv.2) es -> Q (VMap (Some es))) ->
  Q (VPtr None) -> (forall v, Q v -> Q (VPtr (Some v))) ->
  Q (VIface None) -> (forall v, Q v -> Q (VIface (Some v))) ->
  forall v, Q v.
Proof.
  intros HB HS HL HA HM0 HM HP0 HP HI0 HI. fix IH 1. intros [tn b|tn fs|es|es|[es|]|[v|]|[v|]].
  - apply HB.
  - apply HS. induction fs as [|[f v] fs IHfs]; constructor; [apply IH|exact IHfs].
  - apply HL. induction es as [|e es IHes]; constructor; [apply IH|exact IHes].
  - apply HA. induction es as [|e es IHes]; constructor; [apply IH|exact IHes].
  - apply HM. induction es as [|[k v] es IHes]; constructor; [split; apply IH|exact IHes].
  - exact HM0.
  - apply HP, IH.
  - exact HP0.
  - apply HI, IH.
  - exact HI0.
Qed.

(** [v] is a value of type [t]; [reg] are the types registered for the values
    an [interface{}] may hold. *)
Fixpoint has_type (U : universe) (reg : list string) (v : gval) (t : string) : Prop :=
  match v, desc U t with
  | VBasic tn _, RBasic n => tn = n
  | VStruct tn fs, RStruct n fts =>
      tn = n /\
      (fix go (fs : list (string * gval)) (fts : list (string * string)) : Prop :=
         match fs, fts with
         | [], [] => True
         | (f, v) :: fs, (f', t') :: fts => f = f' /\ has_type U reg v t' /\ go fs fts
         | _, _ => False
         end) fs fts
  | VSlice vs, RSeq e | VArray vs, RSeq e =>
      (fix go (vs : list gval) : Prop :=
         match vs with [] => True | v :: vs => has_type U reg v e /\ go vs end) vs
  | VMap None, RMap _ _ => True
  | VMap (Some es), RMap k e =>
      NoDup es.*1 /\
      (fix go (es : list (gval * gval)) : Prop :=
         match es with
         | [] => True
         | (x, v) :: es => has_type U reg x k /\ has_type U reg v e /\ go es
         end) es
  | VPtr None, RSeq _ => True
  | VPtr (Some v), RSeq e => has_type U reg v e
  | VIface None, ROther => True
  | VIface (Some v), ROther => exists t', t' ∈ reg /\ has_type U reg v t'
  | _, _ => False
  end.

(** No nil at the end of the pointers: gob refuses a nil pointer among the
    elements of a slice, an array or a map and in an interface, and a nil map
    there arrives as an empty one. *)
Fixpoint leads (v : gval) : Prop :=
  match v with
  | VPtr None | VMap None => False
  | VPtr (Some v) => leads v
  | _ => True
  end.

(** What gob can represent: a field that does not travel holds the zero of its
    type -- not a pointer to a zero, nor the negative zero --, and no nil is
    among the elements. *)
Fixpoint representable (v : gval) : Prop :=
  match v with
  | VBasic _ _ | VPtr None | VMap None | VIface None => True
  | VStruct _ fs =>
      (fix go (fs : list (string * gval)) : Prop :=
         match fs with
         | [] => True
         | (_, v) :: fs => (if sent v then representable v else zero v = v) /\ go fs
         end) fs
  | VSlice vs | VArray vs =>
      (fix go (vs : list gval) : Prop :=
         match vs with [] => True | v :: vs => leads v /\ representable v /\ go vs end) vs
  | VMap (Some es) =>
      (fix go (es : list (gval * gval)) : Prop :=
         match es with
         | [] => True
         | (k, v) :: es => (leads k /\ representable k) /\ (leads v /\ representable v) /\ go es
         end) es
  | VPtr (Some v) => representable v
  | VIface (Some v) => leads v /\ representable v
  end.

Lemma sent_leads v : sent v = true -> leads v.
Proof.
  induction v as [tn b|tn fs _|es _|es _| |es _| |v IH| |v _] using gval_rect_nested; cbn; done || auto.
Qed.

Lemma map_put_new k v l : k ∉ l.*1 -> map_put k v l = l ++ [(k, v)].
Proof.
  induction l as [|[k' v'] l IH]; [done|]. cbn. intros [Hk Hl]%not_elem_of_cons.
  by rewrite decide_False, IH.
Qed.

(** No type that can be reached from the types of [X] has a lower-case field. *)
Definition no_lower (U : universe) (X : gset string) : Prop :=
  closed U X /\ forall t, t ∈ X -> complaints (desc U t) = [].

Lemma complaints_nil name fields f t :
  complaints (RStruct name fields) = [] -> (f, t) ∈ fields -> is_upper f = true.
Proof.
  intros Hc Hin. destruct (is_upper f) eqn:Hf; [done|]. exfalso.
  assert (LowerCase f name ∈ complaints (RStruct name fields)) as H; [|rewrite Hc in H; by apply not_elem_of_nil in H].
  apply list_elem_of_fmap. exists f. split; [done|]. apply list_elem_of_filter. split; [done|].
  apply list_elem_of_fmap. by exists (f, t).
Qed.

Lemma no_lower_field U X t n fts f t' :
  no_lower U X -> t ∈ X -> desc U t = RStruct n fts -> (f, t') ∈ fts -> is_upper f = true /\ t' ∈ X.
Proof.
  intros [Hcl Hno] Ht Hd Hin. split.
  - eapply complaints_nil; [|done]. rewrite <- Hd. by apply Hno.
  - apply (Hcl t); [done|]. unfold refers. rewrite Hd. cbn. apply list_elem_of_fmap.
    by exists (f, t').
Qed.

Lemma no_lower_child U X t t' : no_lower U X -> t ∈ X -> t' ∈ children (desc U t) -> t' ∈ X.
Proof. intros [Hcl _] Ht Hin. by apply (Hcl t). Qed.

Lemma assign_zero U reg X v t :
  no_lower U X -> (forall t', t' ∈ reg -> t' ∈ X) -> t ∈ X ->
  has_type U reg v t -> representable v -> leads v -> assign (zero v) v = v.
Proof.
  intros HX Hreg. revert t.
  induction v as [tn b|tn fs IH|es IH|es IH| |es IH| |v IH| |v IH] using gval_rect_nested;
    intros t Ht Hty Hre Hp; try done.
  - cbn in Hty. destruct (desc U t) as [n fts| | | |] eqn:Hd; try done. destruct Hty as [-> Hty].
    pose proof (fun f t' => no_lower_field U X t n fts f t' HX Ht Hd) as Hf.
    cbn [zero assign]. f_equal. clear Hd Ht Hp.
    revert fts Hty Hf. induction fs as [|[f v] fs IHfs]; intros [|[f' t'] fts] Hty Hf; try done.
    cbn in Hty, Hre |- *. destruct Hty as (<- & Hv & Hty). destruct Hre as [Hrv Hre].
    apply Forall_cons in IH as [IHv IH]. cbn in IHv.
    destruct (Hf f t') as [Hup Ht']; [left|]. rewrite Hup. cbn [andb].
    rewrite (IHfs IH Hre fts Hty) by (intros f0 t0 H0; apply Hf; by right).
    do 2 f_equal. destruct (sent v) eqn:Hs; [|done].
    apply (IHv t'); [done..|]. by apply sent_leads.
  - cbn in Hty. destruct (desc U t) as [|e| | |] eqn:Hd; try done.
    assert (e ∈ X) as He by (apply (no_lower_child U X t e HX Ht); rewrite Hd; left).
    cbn [zero assign]. f_equal. clear Hd Ht Hp.
    induction es as [|v es IHes]; [done|]. cbn in Hty, Hre |- *.
    destruct Hty as [Hv Hty]. destruct Hre as (Hl & Hrv & Hre).
    apply Forall_cons in IH as [IHv IH]. rewrite (IHes IH Hty Hre). f_equal. by apply (IHv e).
  - cbn in Hty. destruct (desc U t) as [|e| | |] eqn:Hd; try done.
    assert (e ∈ X) as He by (apply (no_lower_child U X t e HX Ht); rewrite Hd; left).
    cbn [zero assign]. f_equal. clear Hd Ht Hp.
    induction es as [|v es IHes]; [done|]. cbn in Hty, Hre |- *.
    destruct Hty as [Hv Hty]. destruct Hre as (Hl & Hrv & Hre).
    apply Forall_cons in IH as [IHv IH]. rewrite (IHes IH Hty Hre). f_equal. by apply (IHv e).
  - cbn in Hty. destruct (desc U t) as [| |k e| |] eqn:Hd; try done. destruct Hty as [Hnd Hty].
    assert (e ∈ X) as He by (apply (no_lower_child U X t e HX Ht); rewrite Hd; left).
    assert (k ∈ X) as Hk by (apply (no_lower_child U X t k HX Ht); rewrite Hd; right; left).
    cbn [zero assign]. do 2 f_equal. clear Hd Ht Hp.
    change es with ([] ++ es) in Hnd at 1. change es with ([] ++ es) at 2. revert Hnd.
    generalize (@nil (gval * gval)). revert Hty Hre.
    induction es as [|[x v] es IHes]; intros Hty Hre ds Hnd; [by rewrite app_nil_r|].
    cbn in Hty, Hre. destruct Hty as (Hx & Hv & Hty). destruct Hre as ([Hlx Hrx] & [Hlv Hrv] & Hre).
    apply Forall_cons in IH as [[IHx IHv] IH]. cbn in IHx, IHv.
    rewrite (IHx k), (IHv e) by done. rewrite map_put_new.
    + rewrite (IHes IH Hty Hre (ds ++ [(x, v)])); rewrite <- (assoc_L (++)); done.
    + rewrite fmap_app in Hnd. apply NoDup_app in Hnd as (_ & Hdis & _).
      intros Hin. apply (Hdis x Hin). left.
  - cbn in Hty. destruct (desc U t) as [|e| | |] eqn:Hd; try done.
    assert (e ∈ X) as He by (apply (no_lower_child U X t e HX Ht); rewrite Hd; left).
    cbn in Hre, Hp |- *. do 2 f_equal. by apply (IH e).
  - cbn in Hty. destruct (desc U t) eqn:Hd; try done. destruct Hty as (t' & Ht' & Hty).
    cbn in Hre |- *. destruct Hre as [Hl Hre]. do 2 f_equal. apply (IH t'); auto.
Qed.

Lemma checkDefault1_zero U reg X v t :
  no_lower U X -> t ∈ X -> has_type U reg v t ->
  forall d name s, checkDefault1 (zero v) d name false s = Ret s.
Proof.
  intros HX. revert t.
  induction v as [tn b|tn fs IH|es IH|es IH| |es IH| |v IH| |v IH] using gval_rect_nested;
    intros t Ht Hty d name s; cbn [zero checkDefault1]; case_decide as Hd; try done.
  - rewrite is_zero_zero. by destruct b.
  - cbn in Hty. destruct (desc U t) as [n fts| | | |] eqn:Hdt; try done. destruct Hty as [-> Hty].
    pose proof (fun f t' => no_lower_field U X t n fts f t' HX Ht Hdt) as Hf.
    clear Hdt Ht Hd. revert s fts Hty Hf.
    induction fs as [|[f v] fs IHfs]; intros s [|[f' t'] fts] Hty Hf; try done.
    cbn in Hty. destruct Hty as (<- & Hv & Hty). apply Forall_cons in IH as [IHv IH].
    destruct (Hf f t') as [Hup Ht']; [left|]. cbn [map fst snd]. rewrite Hup. cbn [orb negb].
    rewrite (IHv t') by done. rewrite bind_Ret_l. apply (IHfs IH s fts Hty).
    intros f0 t0 H0. apply Hf. by right.
Qed.

(** Checking types one after the other, as [Register], [Encode] and [Decode] do. *)
Fixpoint check_all (U : universe) (ts : list string) (s : labgob) : option labgob :=
  match ts with
  | [] => Some s
  | t :: ts => s' ← checkType (S (size (dom U))) U t s; check_all U ts s'
  end.

Lemma check_all_spec U ts s s' :
  universe_ok U -> (forall t, t ∈ ts -> t ∈ dom U) -> closed U (checked s) ->
  printed s ≡ₚ complaints_of U (checked s) -> errorCount s = zlen (printed s) ->
  check_all U ts s = Some s' ->
  closed U (checked s') /\ printed s' ≡ₚ complaints_of U (checked s') /\
  errorCount s' = zlen (printed s') /\
  (forall t, t ∈ checked s -> t ∈ checked s') /\ forall t, t ∈ ts -> t ∈ checked s'.
Proof.
  intros HU. revert s. induction ts as [|t ts IH]; intros s Hdom Hcl Hp He H; cbn [check_all] in H.
  { injection H as <-. split_and!; try done. by intros t ?%not_elem_of_nil. }
  destruct (checkType_spec U t s HU) as (s1 & E1 & Hcl1 & Hin1 & l & Hp1 & He1 & Hl);
    [apply Hdom; left|done|]. rewrite E1 in H.
  destruct (IH s1) as (Hcl' & Hp' & He' & Hmono & Hts).
  - intros t' Ht'. apply Hdom. by right.
  - done.
  - rewrite Hp1, Hp, Hl. rewrite <- complaints_of_union by set_solver.
    replace (checked s ∪ checked s1 ∖ checked s) with (checked s1); [done|].
    apply set_eq. intros x. destruct (decide (x ∈ checked s)) as [Hx|]; [|set_solver].
    assert (x ∈ checked s1) by (apply Hin1; by left). set_solver.
  - rewrite He1, He, Hp1. unfold zlen. rewrite length_app. lia.
  - exact H.
  - split_and!; [done..| |].
    + intros x Hx. apply Hmono, Hin1. by left.
    + intros x [->|Hx]%elem_of_cons; [|by apply Hts]. apply Hmono, Hin1. by right.
Qed.

Lemma check_all_init U ts s :
  universe_ok U -> (forall t, t ∈ ts -> t ∈ dom U) ->
  check_all U ts labgob_init = Some s -> errorCount s = 0 ->
  no_lower U (checked s) /\ forall t, t ∈ ts -> t ∈ checked s.
Proof.
  intros HU Hdom H He0. apply check_all_spec in H as (Hcl & Hp & He & _ & Hts); try done.
  - split; [|done]. split; [done|]. intros t Ht. destruct (printed s) as [|r l].
    + destruct (complaints (desc U t)) as [|c cs] eqn:Hc; [done|]. exfalso.
      apply (not_elem_of_nil c). rewrite Hp.
      unfold complaints_of. apply list_elem_of_In, in_concat. exists (c :: cs). split; [|by left].
      apply list_elem_of_In, list_elem_of_fmap. exists t. split; [done|]. by apply elem_of_elements.
    + rewrite He in He0. unfold zlen in He0. cbn in He0. lia.
Qed.

Lemma silent_types_lossless U reg ts s t pt tn fs :
  universe_ok U -> (forall t, t ∈ ts -> t ∈ dom U) -> (forall t, t ∈ reg -> t ∈ ts) ->
  check_all U ts labgob_init = Some s -> errorCount s = 0 -> t ∈ ts -> pt ∈ ts ->
  let v := VStruct tn fs in
  has_type U reg v t -> representable v ->
  Encode U (Some (t, v)) s = Ret (s, v) /\
  Decode U (Some (pt, VPtr (Some (zero v)))) v s = Ret (s, v).
Proof.
  intros HU Hdom Hreg H He Ht Hpt v Hty Hre.
  destruct (check_all_init U ts s HU Hdom H He) as [Hno Hin].
  assert (forall t w, t ∈ ts -> checkValue U (Some (t, w)) s = Ret s) as Hcv.
  { intros t0 w Ht0. cbn [checkValue checkType]. by rewrite decide_True by by apply Hin. }
  split.
  - unfold Encode. by rewrite Hcv by done.
  - unfold Decode. rewrite Hcv, bind_Ret_l by done. cbn [checkDefault].
    replace (checkDefault1 (VPtr (Some (zero v))) 1 "" false s)
      with (checkDefault1 (zero v) 2 "" false s) by done.
    rewrite (checkDefault1_zero U reg (checked s) v t), bind_Ret_l by auto.
    do 2 f_equal. apply (assign_zero U reg (checked s) v t); auto. exact I.
Qed.

(** C25 What the warnings of [labgob] are worth: if it has checked the types of
    the program -- those registered for interfaces included -- and printed
    nothing, then every struct built from booleans, numbers, strings, structs,
    slices, arrays, maps, pointers and interfaces that gob can represent
    ([representable]) reaches a variable that holds the zero value of its type
    exactly as it was sent, with no new warning and no panic.  (A nil and an
    empty slice are one value here.) *)
Theorem silent_types_lose_nothing U reg ts s t pt tn fs :
  universe_ok U -> (forall t, t ∈ ts -> t ∈ dom U) -> (forall t, t ∈ reg -> t ∈ ts) ->
  check_all U ts labgob_init = Some s -> errorCount s = 0 -> t ∈ ts -> pt ∈ ts ->
  let v := VStruct tn fs in
  has_type U reg v t -> representable v ->
  Encode U (Some (t, v)) s = Ret (s, v) /\
  Decode U (Some (pt, VPtr (Some (zero v)))) v s = Ret (s, v).
Proof. apply silent_types_lossless. Qed.

(** ** Decoding into a variable that is not zero *)

(** Booleans, integers and strings *)
Definition plain (b : basic) : Prop :=
  match b with BFloat _ | BComplex _ _ => False | _ => True end.

Lemma plain_is_zero b : plain b -> is_zero b = bool_decide (b = zero_basic b).
Proof. by destruct b. Qed.

Lemma plain_field tn b :
  plain b ->
  if sent (VBasic tn b) then representable (VBasic tn b) else zero (VBasic tn b) = VBasic tn b.
Proof.
  intros Hb. cbn. rewrite plain_is_zero by done. case_bool_decide as H; cbn; [|done]. by rewrite <- H.
Qed.

(** The RPC structs of the program: exported fields of these types. *)
Definition flat (fs : list (string * gval)) : Prop :=
  Forall (fun fv => is_upper fv.1 = true /\ exists tn b, fv.2 = VBasic tn b /\ plain b) fs.

Definition nonzero (fs : list (string * gval)) : list (string * gval) :=
  filter (fun fv => sent fv.2 = true) fs.

Lemma checkDefault_flat pt tn fs s :
  flat fs ->
  exists s', checkDefault (Some (pt, VPtr (Some (VStruct tn fs)))) s = Ret s' /\
    errorCount s' = errorCount s + zlen (nonzero fs).
Proof.
  intros Hf. cbn [checkDefault checkDefault1]. rewrite !decide_False by lia.
  revert s. induction Hf as [|[f v] fs [Hup (t & b & Hv & Hpl)] Hfs IH]; intros s.
  - exists s. split; [done|]. unfold nonzero, zlen. cbn. lia.
  - cbn [fst snd] in Hup, Hv. subst v. cbn [checkDefault1]. rewrite Hup, decide_False by lia.
    rewrite (decide_True (P := "" = "")) by done. cbn [orb negb]. unfold nonzero.
    match goal with |- context [match b with BBool _ => ?x | _ => _ end] =>
      assert (forall y, match b with BComplex _ _ => y | _ => x end = x) as Hx by (by destruct b) end.
    rewrite Hx. clear Hx. destruct (is_zero b) eqn:Hb.
    + destruct (IH s) as (s' & E & He). exists s'. rewrite bind_Ret_l. split; [exact E|].
      rewrite filter_cons_False; [done|]. cbn. by rewrite Hb.
    + rewrite bind_Ret_l. destruct (IH (warn (if decide (f = "") then t else f) s)) as (s' & E & He).
      exists s'. split; [exact E|]. rewrite He.
      rewrite filter_cons_True by (cbn; by rewrite Hb).
      unfold nonzero, zlen. cbn [warn errorCount length]. lia.
Qed.

Lemma nonzero_nil fs : flat fs -> nonzero fs = [] <-> zero (VStruct "" fs) = VStruct "" fs.
Proof.
  induction 1 as [|[f v] fs [Hup (t & b & Hv & Hpl)] Hfs IH]; [done|].
  cbn [fst snd] in Hup, Hv. subst v. unfold nonzero. cbn [zero map fst snd].
  pose proof (plain_is_zero b Hpl) as Hz. destruct (decide (b = zero_basic b)) as [Hb|Hb].
  - rewrite filter_cons_False by (cbn; by rewrite Hz, bool_decide_eq_true_2).
    fold (nonzero fs). rewrite IH, <- Hb. cbn [zero]. split; intros [= H]; by rewrite H.
  - rewrite filter_cons_True by (cbn; by rewrite Hz, bool_decide_eq_false_2).
    split; [done|]. intros [= ? _]. by destruct Hb.
Qed.

Lemma assign_flat tn fs tn' ss :
  flat fs -> zero (VStruct tn' ss) = zero (VStruct tn fs) -> nonzero fs = [] ->
  assign (VStruct tn fs) (VStruct tn' ss) = VStruct tn' ss.
Proof.
  intros Hf. cbn [zero assign]. intros [= -> Hz] Hn. f_equal. revert ss Hz.
  induction Hf as [|[f v] fs [Hup (t & b & Hv & Hpl)] Hfs IH]; intros [|[f' w] ss] Hz; try done.
  cbn [fst snd] in Hup, Hv. subst v. cbn in Hz. injection Hz as -> Hw Hz.
  unfold nonzero in Hn. destruct (decide (sent (VBasic t b) = true)) as [Hb|Hb].
  { by rewrite filter_cons_True in Hn. }
  rewrite filter_cons_False in Hn by done. rewrite Hup, (IH Hn ss Hz). f_equal. f_equal.
  cbn in Hb. rewrite (plain_is_zero b Hpl) in Hb.
  apply not_true_is_false, negb_false_iff, bool_decide_eq_true in Hb.
  destruct w as [t' b'| | | | | |]; try discriminate Hw. injection Hw as -> Hzb. cbn.
  rewrite (plain_is_zero b') by by destruct b, b'.
  case_bool_decide as Hb'; [|done]. cbn. by rewrite Hb, <- Hzb, <- Hb'.
Qed.

Lemma zero_idemp v : zero (zero v) = zero v.
Proof.
  induction v as [?[]|tn fs IH|es _|es IH| |es _| |v _| |v _] using gval_rect_nested; try done; cbn; f_equal.
  - induction IH as [|[f v] fs Hv Hfs IH]; [done|]. cbn in *. by rewrite IH, Hv.
  - induction IH as [|v es Hv Hes IH]; [done|]. cbn in *. by rewrite IH, Hv.
Qed.

Lemma assign_from_zero tn fs :
  flat fs -> assign (VStruct tn fs) (zero (VStruct tn fs)) = VStruct tn fs.
Proof.
  intros Hf. cbn [zero assign]. f_equal.
  induction Hf as [|[f v] fs [Hup (t & b & Hv & Hpl)] Hfs IH]; [done|].
  cbn [fst snd] in Hup, Hv. subst v. cbn [map fst snd zero sent]. rewrite IH, Hup.
  by rewrite is_zero_zero.
Qed.

(** On the replies of the program -- structs of exported basic fields --
    [checkDefault] is exact: it counts the fields that are not zero, and it
    counts none exactly when every reply that can arrive will be stored as it
    was sent. *)
Theorem checkDefault_exact pt tn fs s :
  flat fs ->
  exists s', checkDefault (Some (pt, VPtr (Some (VStruct tn fs)))) s = Ret s' /\
    errorCount s' = errorCount s + zlen (nonzero fs) /\
    (errorCount s' = errorCount s <->
     forall src, zero src = zero (VStruct tn fs) -> assign (VStruct tn fs) src = src).
Proof.
  intros Hf. destruct (checkDefault_flat pt tn fs s Hf) as (s' & E & He).
  exists s'. split_and!; [done..|]. rewrite He. split.
  - intros Hn src Hsrc. assert (nonzero fs = []) as Hnil.
    { destruct (nonzero fs); [done|]. unfold zlen in Hn. cbn in Hn. lia. }
    destruct src as [| tn' ss | | | | |]; try discriminate Hsrc. by apply assign_flat.
  - intros Hall. assert (nonzero fs = []) as ->; [|unfold zlen; cbn; lia].
    apply (nonzero_nil fs Hf). specialize (Hall _ (zero_idemp _)).
    rewrite assign_from_zero in Hall by done. cbn in Hall |- *. by injection Hall as <-.
Qed.

(** ** What the checks miss *)

(** The warnings stop short of their purpose (code bug): [checkDefault] looks
    at no more than three levels, of which the pointer and the struct are two,
    so a value left in a nested struct draws no warning although gob will merge
    the reply into it. *)
Theorem nested_default_is_missed :
  let dst n := VStruct "R" [("In", VStruct "S" [("X", VBasic "int" (BNum n))])] in
  (forall n s, checkDefault (Some ("*R", VPtr (Some (dst n)))) s = Ret s) /\
  assign (dst 1) (dst 0) = dst 1.
Proof. done. Qed.

(** A nil in an [interface{}] stops the process: [Decode] and [Encode] ask
    for the kind of its type before the test for nil in [checkDefault]. *)
Theorem nil_interface_panics U msg s :
  Encode U None s = Crash NilDeref /\ Decode U None msg s = Crash NilDeref /\
  checkDefault None s = Ret s.
Proof. done. Qed.

(** ** Witnesses *)

(** [type Tree struct { Left *Tree; val int }] *)
Definition ex_tree : universe :=
  list_to_map [("Tree", RStruct "Tree" [("Left", "*Tree"); ("val", "int")]);
               ("*Tree", RSeq "Tree"); ("int", RBasic "int")].

Lemma universe_ok_dec U :
  forallb (fun td => forallb (fun c => bool_decide (c ∈ dom U)) (children td.2)) (map_to_list U) = true ->
  universe_ok U.
Proof.
  intros H t t' Ht Hr. apply elem_of_dom in Ht as [d Hd]. rewrite forallb_forall in H.
  assert (In (t, d) (map_to_list U)) as Hin by (by apply list_elem_of_In, elem_of_map_to_list).
  specialize (H (t, d) Hin). rewrite forallb_forall in H.
  apply (bool_decide_eq_true_1 (t' ∈ dom U)), H. unfold refers, desc in Hr. rewrite Hd in Hr.
  by apply list_elem_of_In.
Qed.

Lemma checkType_exact_witness :
  universe_ok ex_tree /\ "*Tree" ∈ dom ex_tree /\
  exists s', checkType 4 ex_tree "*Tree" labgob_init = Some s' /\ closed ex_tree (checked s') /\
    printed s' = [LowerCase "val" "Tree"].
Proof.
  assert (universe_ok ex_tree) as HU by (apply universe_ok_dec; vm_compute; reflexivity).
  assert ("*Tree" ∈ dom ex_tree) as Ht
    by (apply elem_of_dom; exists (RSeq "Tree"); vm_compute; reflexivity).
  split; [exact HU|]. split; [exact Ht|].
  destruct (checkType_exact ex_tree "*Tree" labgob_init HU Ht) as (s' & E & Hcl & _).
  - intros x y Hx. apply not_elem_of_empty in Hx. destruct Hx.
  - exists s'. split; [exact E|]. split; [exact Hcl|].
    assert (checkType (S (size (dom ex_tree))) ex_tree "*Tree" labgob_init = Some s') as E' by exact E.
    revert E'. vm_compute. intros [= <-]. reflexivity.
Defined.

Definition ex_reply (n : Z) (b : bool) : list (string * gval) :=
  [("Term", VBasic "int" (BNum n)); ("VoteGranted", VBasic "bool" (BBool b))].

Lemma checkDefault_exact_witness :
  flat (ex_reply 3 false) /\
  exists s', checkDefault (Some ("*RequestVoteReply", VPtr (Some (VStruct "RequestVoteReply" (ex_reply 3 false)))))
      labgob_init = Ret s' /\ errorCount s' = 1.
Proof.
  assert (flat (ex_reply 3 false)) as Hf.
  { repeat (constructor; [split; [reflexivity|eexists _, _; split; [reflexivity|exact I]]|]). constructor. }
  split; [exact Hf|].
  destruct (checkDefault_exact "*RequestVoteReply" "RequestVoteReply" _ labgob_init Hf) as (s' & E & He & _).
  exists s'. split; [exact E|]. rewrite He. reflexivity.
Defined.

(** The struct of [TestGOB] ([labgob/test_test.go]): a slice of structs, a map
    to pointers, an interface that holds a registered struct; and a float and
    an array beside them. *)
Definition ex_types : universe := list_to_map
  [("int", RBasic "int"); ("string", RBasic "string"); ("float64", RBasic "float64");
   ("[]T1", RSeq "T1"); ("*T1", RSeq "T1"); ("map[int]*T1", RMap "int" "*T1");
   ("[2]float64", RSeq "float64"); ("interface {}", ROther); ("*T2", RSeq "T2");
   ("T1", RStruct "T1" [("T1int0", "int"); ("T1int1", "int"); ("T1string0", "string"); ("T1string1", "string")]);
   ("T2", RStruct "T2" [("T2slice", "[]T1"); ("T2map", "map[int]*T1"); ("T2t3", "interface {}");
                        ("T2array", "[2]float64")]);
   ("T3", RStruct "T3" [("T3int999", "int")])].

Definition ex_t1 (i0 i1 : Z) (s0 s1 : string) : gval :=
  VStruct "T1" [("T1int0", VBasic "int" (BNum i0)); ("T1int1", VBasic "int" (BNum i1));
    ("T1string0", VBasic "string" (BString s0)); ("T1string1", VBasic "string" (BString s1))].

Definition ex_t2 : list (string * gval) :=
  [("T2slice", VSlice [ex_t1 0 0 "" ""; ex_t1 0 1 "" "6.824"]);
   ("T2map", VMap (Some [(VBasic "int" (BNum 99), VPtr (Some (ex_t1 1 2 "x" "y")))]));
   ("T2t3", VIface (Some (VStruct "T3" [("T3int999", VBasic "int" (BNum 999))])));
   ("T2array", VArray [VBasic "float64" (BFloat (2 ^ 63)); VBasic "float64" (BFloat 0)])].

Definition ex_roots : list string := ["T3"; "T2"; "*T2"].
Definition ex_checked : labgob := default labgob_init (check_all ex_types ex_roots labgob_init).

Lemma ex_t2_typed : has_type ex_types ["T3"] (VStruct "T2" ex_t2) "T2".
Proof.
  assert (desc ex_types "T2" = RStruct "T2" [("T2slice", "[]T1"); ("T2map", "map[int]*T1");
    ("T2t3", "interface {}"); ("T2array", "[2]float64")]) as D2 by (vm_compute; reflexivity).
  assert (desc ex_types "T1" = RStruct "T1" [("T1int0", "int"); ("T1int1", "int");
    ("T1string0", "string"); ("T1string1", "string")]) as D1 by (vm_compute; reflexivity).
  assert (desc ex_types "T3" = RStruct "T3" [("T3int999", "int")]) as D3 by (vm_compute; reflexivity).
  assert (desc ex_types "int" = RBasic "int") as Di by (vm_compute; reflexivity).
  assert (desc ex_types "string" = RBasic "string") as Ds by (vm_compute; reflexivity).
  assert (desc ex_types "float64" = RBasic "float64") as Df by (vm_compute; reflexivity).
  assert (desc ex_types "[]T1" = RSeq "T1") as Dl by (vm_compute; reflexivity).
  assert (desc ex_types "*T1" = RSeq "T1") as Dp by (vm_compute; reflexivity).
  assert (desc ex_types "[2]float64" = RSeq "float64") as Da by (vm_compute; reflexivity).
  assert (desc ex_types "map[int]*T1" = RMap "int" "*T1") as Dm by (vm_compute; reflexivity).
  assert (desc ex_types "interface {}" = ROther) as Dn by (vm_compute; reflexivity).
  generalize dependent ex_types. intros U **. unfold ex_t2, ex_t1.
  repeat progress (cbn [has_type]; rewrite ?D2, ?D1, ?Di, ?Ds, ?Df, ?Dl, ?Dp, ?Da, ?Dm, ?Dn).
  split_and!; try done.
  - apply NoDup_singleton.
  - exists "T3". split; [left|]. by rewrite D3, Di.
Qed.

Lemma silent_types_lose_nothing_witness :
  check_all ex_types ex_roots labgob_init = Some ex_checked /\ errorCount ex_checked = 0 /\
  Encode ex_types (Some ("T2", VStruct "T2" ex_t2)) ex_checked = Ret (ex_checked, VStruct "T2" ex_t2) /\
  Decode ex_types (Some ("*T2", VPtr (Some (zero (VStruct "T2" ex_t2))))) (VStruct "T2" ex_t2) ex_checked
    = Ret (ex_checked, VStruct "T2" ex_t2).
Proof.
  assert (check_all ex_types ex_roots labgob_init = Some ex_checked) as H by (vm_compute; reflexivity).
  assert (errorCount ex_checked = 0) as He by (vm_compute; reflexivity).
  split; [exact H|]. split; [exact He|].
  apply (silent_types_lose_nothing ex_types ["T3"] ex_roots ex_checked "T2" "*T2" "T2" ex_t2).
  - apply universe_ok_dec. vm_compute. reflexivity.
  - intros t Ht. apply elem_of_dom. unfold ex_roots in Ht. rewrite !elem_of_cons in Ht.
    destruct Ht as [->|[->|[->|Ht]]]; [eexists; vm_compute; reflexivity..|].
    apply not_elem_of_nil in Ht. destruct Ht.
  - intros t ->%list_elem_of_singleton. left.
  - exact H.
  - exact He.
  - right. left.
  - right. right. left.
  - exact ex_t2_typed.
  - repeat split; vm_compute; reflexivity || exact I.
Defined.
