(* ===== verification/LabRpc.v ===== *)
(** * LabRpc: the simulated network of the Raft tests

    Models [raft-demo/src/labrpc/labrpc.go].  A call is three goroutines: the
    caller in [Call], [processReq], and the one that runs the handler; [call]
    keeps where each of them is, and an [event] runs one of them for one step:
    a critical section of [mu], a channel operation, a timer.  [Codec] is what
    the package relies on from the encoder ([LabGob]); a receiver object is a
    state of type [obj] with its methods. *)
From Stdlib Require Import Ascii.
From stdpp Require Import gmap.
From S2P Require Import Prelude GoStrings.

#[local] Open Scope Z_scope.

(** What labgob gives to labrpc: an encoder, and a decoder that inverts it. *)
Class Codec (A : Type) := {
  gob_encode : A -> list Byte.byte;
  gob_decode : list Byte.byte -> option A;
  gob_zero : A;
  gob_decode_encode : forall a, gob_decode (gob_encode a) = Some a;
}.

(** ** Services and servers *)

(** [strings.LastIndex(s, ".")], as what is before and after it *)
Fixpoint last_dot (s : string) : option (string * string) :=
  match s with
  | EmptyString => None
  | String c s =>
      match last_dot s with
      | Some (a, b) => Some (String c a, b)
      | None => if Ascii.eqb c dot then Some ("", s) else None
      end
  end.

Section network.
Context {obj A : Type} {CA : Codec A}.

(** A [reflect.Method] of the receiver: its name, whether it is exported
    ([PkgPath] is empty), its shape, and its function. *)
Record method : Type := mkMethod {
  mname : string;
  exported : bool;
  numIn : Z;
  in2_ptr : bool;
  numOut : Z;
  func : obj -> A -> outcome (obj * A);
}.

Record Service : Type := mkService {
  sname : string;
  rcvr : obj;
  methods : gmap string method;
}.

Record Server : Type := mkServer {
  services : gmap string Service;
  count : Z;
}.

(** The test of lines 462-466: does the method look like a handler? *)
Definition handler_like (m : method) : bool :=
  exported m && bool_decide (numIn m = 3) && in2_ptr m && bool_decide (numOut m = 0).

Definition MakeService (name : string) (o : obj) (ms : list method) : Service :=
  {| sname := name; rcvr := o;
     methods := foldl (fun acc m => if handler_like m then <[mname m := m]> acc else acc) ∅ ms |}.

Definition MakeServer : Server := {| services := ∅; count := 0 |}.

Definition AddService (svc : Service) (rs : Server) : Server :=
  {| services := <[sname svc := svc]> (services rs); count := count rs |}.

Definition Server_GetCount (rs : Server) : Z := count rs.

(** [Server.dispatch] up to the call of [service.dispatch]: the service and
    the method that the request names. *)
Definition Server_dispatch (svcMeth : string) (rs : Server)
    : outcome (Server * (string * string)) :=
  let rs := {| services := services rs; count := count rs + 1 |} in
  match last_dot svcMeth with
  | None => Crash IndexPanic                       (* [svcMeth[:-1]] *)
  | Some (serviceName, methodName) =>
      match services rs !! serviceName with
      | Some _ => Ret (rs, (serviceName, methodName))
      | None => Crash LogFatal
      end
  end.

(** [Service.dispatch]: decode, call, encode.  The reply is returned as it is
    and as it is encoded. *)
Definition Service_dispatch (methname : string) (args : list Byte.byte) (svc : Service)
    : outcome (Service * A * list Byte.byte) :=
  match methods svc !! methname with
  | None => Crash LogFatal
  | Some m =>
      '(o, reply) ← func m (rcvr svc) (default gob_zero (gob_decode args));
      Ret ({| sname := sname svc; rcvr := o; methods := methods svc |}, reply, gob_encode reply)
  end.

(** ** Calls *)

(** The caller: sending the request, waiting for the reply, returned. *)
Inductive cphase : Type :=
  | CSend
  | CWait
  | CRet (r : option A).           (* [Some reply]: true; [None]: false *)

(** [processReq]; [srv] is the server it read with the end's name. *)
Inductive pphase : Type :=
  | PIdle                                                        (* not accepted yet *)
  | PStart
  | PDelay (name : iface) (srv : nat) (rel lr : bool)            (* before the drop *)
  | PWait (name : iface) (srv : nat) (rel lr : bool)             (* the select *)
  | PGot (name : iface) (srv : nat) (rel lr : bool) (r : option (list Byte.byte))
  | PLate (b : list Byte.byte)                                   (* [AfterFunc], line 284 *)
  | PTimer                                                       (* [AfterFunc], line 304 *)
  | PSend (r : option (list Byte.byte))                          (* on [replyCh] *)
  | PEnd.

(** The goroutine of the handler *)
Inductive dphase : Type :=
  | DNone
  | DStart (srv : nat)
  | DCall (srv : nat) (service meth : string)
  | DReady (b : list Byte.byte)                                  (* on [ech] *)
  | DEnd.

Record call : Type := mkCall {
  cend : iface;
  cmeth : string;
  cargs : list Byte.byte;
  cph : cphase;
  pph : pphase;
  dph : dphase;
}.

Definition set_c c k := mkCall (cend k) (cmeth k) (cargs k) c (pph k) (dph k).
Definition set_p p k := mkCall (cend k) (cmeth k) (cargs k) (cph k) p (dph k).
Definition set_d d k := mkCall (cend k) (cmeth k) (cargs k) (cph k) (pph k) d.

(** ** The network *)

(** [heap] holds the [Server] objects: a [*Server] is a position in it.  The
    last two fields are not the code's: the calls, and [ran], the handlers that
    returned, with their replies. *)
Record Network : Type := mkNetwork {
  reliable : bool;
  longDelays : bool;
  longReordering : bool;
  ends : gset iface;
  enabled : gmap iface bool;
  servers : gmap iface (option nat);
  connections : gmap iface iface;
  ncount : Z;
  nbytes : Z;
  done_closed : bool;
  loop_alive : bool;
  heap : list Server;
  calls : list call;
  ran : list (nat * A);
}.

Definition MakeNetwork : Network :=
  {| reliable := true; longDelays := false; longReordering := false; ends := ∅; enabled := ∅;
     servers := ∅; connections := ∅; ncount := 0; nbytes := 0; done_closed := false;
     loop_alive := true; heap := []; calls := []; ran := [] |}.

Definition set_reliable x (n : Network) : Network :=
  mkNetwork x (longDelays n) (longReordering n)
    (ends n) (enabled n) (servers n) (connections n) (ncount n) (nbytes n) (done_closed n)
    (loop_alive n) (heap n) (calls n) (ran n).
Definition set_longDelays x (n : Network) : Network :=
  mkNetwork (reliable n) x (longReordering n)
    (ends n) (enabled n) (servers n) (connections n) (ncount n) (nbytes n) (done_closed n)
    (loop_alive n) (heap n) (calls n) (ran n).
Definition set_longReordering x (n : Network) : Network :=
  mkNetwork (reliable n) (longDelays n) x
    (ends n) (enabled n) (servers n) (connections n) (ncount n) (nbytes n) (done_closed n)
    (loop_alive n) (heap n) (calls n) (ran n).
Definition set_ends x (n : Network) : Network :=
  mkNetwork (reliable n) (longDelays n)
    (longReordering n) x (enabled n) (servers n) (connections n) (ncount n) (nbytes n)
    (done_closed n) (loop_alive n) (heap n) (calls n) (ran n).
Definition set_enabled x (n : Network) : Network :=
  mkNetwork (reliable n) (longDelays n)
    (longReordering n) (ends n) x (servers n) (connections n) (ncount n) (nbytes n) (done_closed
    n) (loop_alive n) (heap n) (calls n) (ran n).
Definition set_servers x (n : Network) : Network :=
  mkNetwork (reliable n) (longDelays n)
    (longReordering n) (ends n) (enabled n) x (connections n) (ncount n) (nbytes n) (done_closed
    n) (loop_alive n) (heap n) (calls n) (ran n).
Definition set_connections x (n : Network) : Network :=
  mkNetwork (reliable n) (longDelays n)
    (longReordering n) (ends n) (enabled n) (servers n) x (ncount n) (nbytes n) (done_closed n)
    (loop_alive n) (heap n) (calls n) (ran n).
Definition set_ncount x (n : Network) : Network :=
  mkNetwork (reliable n) (longDelays n)
    (longReordering n) (ends n) (enabled n) (servers n) (connections n) x (nbytes n) (done_closed
    n) (loop_alive n) (heap n) (calls n) (ran n).
Definition set_nbytes x (n : Network) : Network :=
  mkNetwork (reliable n) (longDelays n)
    (longReordering n) (ends n) (enabled n) (servers n) (connections n) (ncount n) x (done_closed
    n) (loop_alive n) (heap n) (calls n) (ran n).
Definition set_done_closed x (n : Network) : Network :=
  mkNetwork (reliable n) (longDelays n)
    (longReordering n) (ends n) (enabled n) (servers n) (connections n) (ncount n) (nbytes n) x
    (loop_alive n) (heap n) (calls n) (ran n).
Definition set_loop_alive x (n : Network) : Network :=
  mkNetwork (reliable n) (longDelays n)
    (longReordering n) (ends n) (enabled n) (servers n) (connections n) (ncount n) (nbytes n)
    (done_closed n) x (heap n) (calls n) (ran n).
Definition set_heap x (n : Network) : Network :=
  mkNetwork (reliable n) (longDelays n)
    (longReordering n) (ends n) (enabled n) (servers n) (connections n) (ncount n) (nbytes n)
    (done_closed n) (loop_alive n) x (calls n) (ran n).
Definition set_calls x (n : Network) : Network :=
  mkNetwork (reliable n) (longDelays n)
    (longReordering n) (ends n) (enabled n) (servers n) (connections n) (ncount n) (nbytes n)
    (done_closed n) (loop_alive n) (heap n) x (ran n).
Definition set_ran x (n : Network) : Network :=
  mkNetwork (reliable n) (longDelays n)
    (longReordering n) (ends n) (enabled n) (servers n) (connections n) (ncount n) (nbytes n)
    (done_closed n) (loop_alive n) (heap n) (calls n) x.

(** *** The operations of the tests (lines 167-380) *)

Definition Cleanup (n : Network) : outcome Network :=
  if done_closed n then Crash UserPanic else Ret (set_done_closed true n).
Definition Reliable (yes : bool) (n : Network) : Network := set_reliable yes n.
Definition LongReordering (yes : bool) (n : Network) : Network := set_longReordering yes n.
Definition LongDelays (yes : bool) (n : Network) : Network := set_longDelays yes n.

Definition MakeEnd (endname : iface) (n : Network) : outcome Network :=
  if decide (endname ∈ ends n) then Crash LogFatal
  else Ret (set_connections (<[endname := INil]> (connections n))
             (set_enabled (<[endname := false]> (enabled n))
                (set_ends ({[endname]} ∪ ends n) n))).

Definition AddServer (servername : iface) (rs : nat) (n : Network) : Network :=
  set_servers (<[servername := Some rs]> (servers n)) n.
Definition DeleteServer (servername : iface) (n : Network) : Network :=
  set_servers (<[servername := None]> (servers n)) n.
Definition Connect (endname servername : iface) (n : Network) : Network :=
  set_connections (<[endname := servername]> (connections n)) n.
Definition Enable (endname : iface) (on : bool) (n : Network) : Network :=
  set_enabled (<[endname := on]> (enabled n)) n.

(** [rn.servers[name]]: the pointer, nil for an unknown name *)
Definition server_at (n : Network) (name : iface) : option nat := mjoin (servers n !! name).

Definition GetCount (servername : iface) (n : Network) : outcome Z :=
  match server_at n servername ≫= (heap n !!.) with
  | Some rs => Ret (Server_GetCount rs)
  | None => Crash NilDeref
  end.
Definition GetTotalCount (n : Network) : Z := ncount n.
Definition GetTotalBytes (n : Network) : Z := nbytes n.

(** *** [processReq] *)

(** [readEndnameInfo] and the test of line 221: the server, when the end is
    enabled and leads to one. *)
Definition readEndnameInfo (endname : iface) (n : Network) : option (iface * nat) :=
  if default false (enabled n !! endname) then
    match default INil (connections n !! endname) with
    | INil => None
    | name => pair name <$> server_at n name
    end
  else None.

Definition isServerDead (endname servername : iface) (server : nat) (n : Network) : bool :=
  bool_decide (default false (enabled n !! endname) = false) ||
  bool_decide (server_at n servername <> Some server).

(** [(rand.Int() % 1000) < 100] on an unreliable network *)
Definition drops (rel : bool) (r : Z) : bool := negb rel && bool_decide (r mod 1000 < 100).

Definition add_bytes (b : list Byte.byte) (n : Network) : Network :=
  set_nbytes (wrap64 (nbytes n + zlen b)) n.

Definition set_call (k : nat) (c : call) (n : Network) : Network :=
  set_calls (<[k := c]> (calls n)) n.

Inductive admin : Type :=
  | OCleanup
  | OReliable (yes : bool)
  | OLongReordering (yes : bool)
  | OLongDelays (yes : bool)
  | OMakeEnd (endname : iface)
  | ONewServer (rs : Server)
  | OAddServer (servername : iface) (rs : nat)
  | ODeleteServer (servername : iface)
  | OConnect (endname servername : iface)
  | OEnable (endname : iface) (on : bool).

Definition administer (o : admin) (n : Network) : outcome Network :=
  match o with
  | OCleanup => Cleanup n
  | OReliable yes => Ret (Reliable yes n)
  | OLongReordering yes => Ret (LongReordering yes n)
  | OLongDelays yes => Ret (LongDelays yes n)
  | OMakeEnd endname => MakeEnd endname n
  | ONewServer rs => Ret (set_heap (heap n ++ [rs]) n)
  | OAddServer name rs =>
      if decide (rs < length (heap n))%nat then Ret (AddServer name rs n) else Block
  | ODeleteServer name => Ret (DeleteServer name n)
  | OConnect e name => Ret (Connect e name n)
  | OEnable e on => Ret (Enable e on n)
  end.

Inductive event : Type :=
  | EAdmin (o : admin)
  | ECall (endname : iface) (svcMeth : string) (args : A)
  | ELoopEnd                                  (* the loop of [MakeNetwork] sees [done] *)
  | EAccept (k : nat)                         (* it takes a request *)
  | EAbort (k : nat)                          (* [Call] sees [done] *)
  | ERead (k : nat)
  | EForward (k : nat) (r : Z)                (* [r]: [rand.Int()] *)
  | EDispatch (k : nat)
  | ERun (k : nat)
  | EReceive (k : nat)                        (* the handler's reply arrives *)
  | ETick (k : nat)                           (* 100 ms have passed *)
  | EDrain (k : nat)                          (* the reply to an abandoned request *)
  | EFinish (k : nat) (r1 r2 : Z)
  | ELate (k : nat)
  | ETimer (k : nat)
  | EReturn (k : nat).

(** One step of the goroutines of the call [c], the [k]-th. *)
Definition call_step (e : event) (k : nat) (c : call) (n : Network) : outcome Network :=
  match e, cph c, pph c, dph c with
  | EAccept _, CSend, PIdle, _ =>
      if loop_alive n then
        Ret (set_call k (set_p PStart (set_c CWait c))
               (add_bytes (cargs c) (set_ncount (wrap32 (ncount n + 1)) n)))
      else Block
  | EAbort _, CSend, PIdle, _ =>
      if done_closed n then Ret (set_call k (set_c (CRet None) c) n) else Block
  | ERead _, _, PStart, _ =>
      Ret (set_call k (set_p match readEndnameInfo (cend c) n with
                             | Some (name, srv) => PDelay name srv (reliable n) (longReordering n)
                             | None => PTimer
                             end c) n)
  | EForward _ r, _, PDelay name srv rel lr, _ =>
      Ret (set_call k (if drops rel r then set_p (PSend None) c
                       else set_d (DStart srv) (set_p (PWait name srv rel lr) c)) n)
  | EDispatch _, _, _, DStart srv =>
      match heap n !! srv with
      | None => Crash NilDeref
      | Some rs =>
          '(rs', (service, meth)) ← Server_dispatch (cmeth c) rs;
          Ret (set_call k (set_d (DCall srv service meth) c) (set_heap (<[srv := rs']> (heap n)) n))
      end
  | ERun _, _, _, DCall srv service meth =>
      match heap n !! srv ≫= (fun rs => pair rs <$> services rs !! service) with
      | None => Crash NilDeref
      | Some (rs, svc) =>
          '(svc', reply, b) ← Service_dispatch meth (cargs c) svc;
          let rs' := {| services := <[service := svc']> (services rs); count := count rs |} in
          Ret (set_call k (set_d (DReady b) c)
                 (set_ran (ran n ++ [(k, reply)]) (set_heap (<[srv := rs']> (heap n)) n)))
      end
  | EReceive _, _, PWait name srv rel lr, DReady b =>
      Ret (set_call k (set_d DEnd (set_p (PGot name srv rel lr (Some b)) c)) n)
  | ETick _, _, PWait name srv rel lr, _ =>
      Ret (if isServerDead (cend c) name srv n
           then set_call k (set_p (PGot name srv rel lr None) c) n else n)
  | EDrain _, _, (PGot _ _ _ _ None | PSend _ | PEnd), DReady b =>
      Ret (set_call k (set_d DEnd c) n)
  | EFinish _ r1 r2, _, PGot name srv rel lr r, _ =>
      match r with
      | Some b =>
          if isServerDead (cend c) name srv n then Ret (set_call k (set_p (PSend None) c) n)
          else if drops rel r1 then Ret (set_call k (set_p (PSend None) c) n)
          else if lr && bool_decide (r2 mod 900 < 600) then Ret (set_call k (set_p (PLate b) c) n)
          else Ret (set_call k (set_p (PSend (Some b)) c) (add_bytes b n))
      | None => Ret (set_call k (set_p (PSend None) c) n)
      end
  | ELate _, _, PLate b, _ => Ret (set_call k (set_p (PSend (Some b)) c) (add_bytes b n))
  | ETimer _, _, PTimer, _ => Ret (set_call k (set_p (PSend None) c) n)
  | EReturn _, CWait, PSend r, _ =>
      match r with
      | None => Ret (set_call k (set_p PEnd (set_c (CRet None) c)) n)
      | Some b =>
          match gob_decode b with
          | Some reply => Ret (set_call k (set_p PEnd (set_c (CRet (Some reply)) c)) n)
          | None => Crash LogFatal
          end
      end
  | _, _, _, _ => Block
  end.

Definition call_of (e : event) : option nat :=
  match e with
  | EAdmin _ | ECall _ _ _ | ELoopEnd => None
  | EAccept k | EAbort k | ERead k | EForward k _ | EDispatch k | ERun k | EReceive k | ETick k
  | EDrain k | EFinish k _ _ | ELate k | ETimer k | EReturn k => Some k
  end.

Definition exec (e : event) (n : Network) : outcome Network :=
  match e with
  | EAdmin o => administer o n
  | ECall endname svcMeth args =>
      if decide (endname ∈ ends n) then
        Ret (set_calls (calls n ++ [mkCall endname svcMeth (gob_encode args) CSend PIdle DNone]) n)
      else Block
  | ELoopEnd => if done_closed n && loop_alive n then Ret (set_loop_alive false n) else Block
  | _ => match call_of e with
         | Some k => match calls n !! k with Some c => call_step e k c n | None => Block end
         | None => Block
         end
  end.

Fixpoint exec_all (es : list event) (n : Network) : outcome Network :=
  match es with
  | [] => Ret n
  | e :: es => n' ← exec e n; exec_all es n'
  end.

Definition reachable (n : Network) : Prop := exists es, exec_all es MakeNetwork = Ret n.

(** ** What a call can have done *)

(** Where the goroutines of a call can be at the same time. *)
Definition phases_ok (c : call) : Prop :=
  match cph c, pph c with
  | CSend, PIdle | CRet None, (PIdle | PEnd) | CRet (Some _), PEnd => True
  | CWait, (PStart | PDelay _ _ _ _ | PWait _ _ _ _ | PGot _ _ _ _ _ | PLate _ | PTimer | PSend _) => True
  | _, _ => False
  end /\
  match pph c, dph c with
  | (PIdle | PStart | PDelay _ _ _ _ | PTimer), DNone => True
  | PWait _ _ _ _, (DStart _ | DCall _ _ _ | DReady _) => True
  | PGot _ _ _ _ None, (DStart _ | DCall _ _ _ | DReady _ | DEnd) => True
  | (PGot _ _ _ _ (Some _) | PLate _ | PSend (Some _)), DEnd => True
  | (PSend None | PEnd), _ => True
  | _, _ => False
  end.

(** The replies a call carries come from its handler, which ran at most once. *)
Definition replies_ok (ran : list (nat * A)) (k : nat) (c : call) : Prop :=
  match dph c with
  | DNone | DStart _ | DCall _ _ _ => k ∉ ran.*1
  | DReady b => exists a, (k, a) ∈ ran /\ b = gob_encode a
  | DEnd => k ∈ ran.*1
  end /\
  match pph c with
  | PGot _ _ _ _ (Some b) | PLate b | PSend (Some b) => exists a, (k, a) ∈ ran /\ b = gob_encode a
  | _ => True
  end /\
  match cph c with CRet (Some a) => (k, a) ∈ ran | _ => True end.

Definition net_ok (n : Network) : Prop :=
  NoDup (ran n).*1 /\ (forall k, k ∈ (ran n).*1 -> (k < length (calls n))%nat) /\
  (forall k c, calls n !! k = Some c -> phases_ok c /\ replies_ok (ran n) k c).

Lemma net_ok_set_call n k c c' :
  net_ok n -> calls n !! k = Some c -> phases_ok c' -> replies_ok (ran n) k c' ->
  net_ok (set_call k c' n).
Proof.
  intros (Hnd & Hlt & Hc) Hk Hp Hr. unfold net_ok. cbn. split_and!; [done| |].
  - intros k' Hk'. rewrite length_insert. by apply Hlt.
  - intros k' c0 H0. destruct (decide (k = k')) as [->|Hne].
    + rewrite list_lookup_insert_eq in H0 by by eapply lookup_lt_Some. by injection H0 as <-.
    + rewrite list_lookup_insert_ne in H0 by done. by apply Hc.
Qed.

Lemma replies_ok_snoc ran k k' a c :
  k <> k' -> replies_ok ran k c -> replies_ok (ran ++ [(k', a)]) k c.
Proof.
  intros Hne (Hd & Hp & Hr). unfold replies_ok. split_and!.
  - destruct (dph c); rewrite ?fmap_app, ?elem_of_app.
    + intros [?|[?|?%not_elem_of_nil]%elem_of_cons]; by auto.
    + intros [?|[?|?%not_elem_of_nil]%elem_of_cons]; by auto.
    + intros [?|[?|?%not_elem_of_nil]%elem_of_cons]; by auto.
    + destruct Hd as (a' & Ha & ->). exists a'. split; [|done]. apply elem_of_app. by left.
    + by left.
  - destruct (pph c) as [| | | |? ? ? ? [b|]|b| |[b|]|]; try done;
      destruct Hp as (a' & Ha & ->); exists a'; (split; [apply elem_of_app; by left|done]).
  - destruct (cph c) as [| |[a'|]]; try done. apply elem_of_app. by left.
Qed.

Lemma net_ok_frame n n' : calls n' = calls n -> ran n' = ran n -> net_ok n -> net_ok n'.
Proof. unfold net_ok. by intros -> ->. Qed.

Lemma administer_frame o n n' :
  administer o n = Ret n' -> calls n' = calls n /\ ran n' = ran n.
Proof.
  destruct o; cbn; unfold Cleanup, MakeEnd; intros H; repeat case_match; by simplify_eq.
Qed.

Lemma ERun_ok k n c srv service meth n' :
  net_ok n -> calls n !! k = Some c -> dph c = DCall srv service meth ->
  call_step (ERun k) k c n = Ret n' -> net_ok n'.
Proof.
  intros Hn Hk Hd H. destruct c as [e m args cp pp dp]. cbn in Hd. subst dp.
  assert (exists reply srvs, n' = set_call k (mkCall e m args cp pp (DReady (gob_encode reply)))
            (set_ran (ran n ++ [(k, reply)]) (set_heap srvs n))) as (reply & srvs & ->).
  { cbn in H. destruct (heap n !! srv ≫= _) as [[rs svc]|]; [|done]. bind_inv H.
    destruct r as [[svc' reply] b]. injection H as <-. unfold Service_dispatch in E.
    destruct (methods svc !! meth) as [m'|]; [|done]. bind_inv E. destruct r as [o r].
    injection E as <- <- <-. by eexists _, _. }
  destruct Hn as (Hnd & Hlt & Hc). destruct (Hc k _ Hk) as [Hp (Hnk & Hpp & Hcc)]. cbn in Hnk, Hpp, Hcc.
  unfold net_ok. cbn. rewrite fmap_app. cbn. split_and!.
  - apply NoDup_app. split_and!; [done| |apply NoDup_singleton].
    intros x Hx ->%list_elem_of_singleton. done.
  - intros k' [Hk'| ->%list_elem_of_singleton]%elem_of_app; rewrite length_insert; [by apply Hlt|].
    by eapply lookup_lt_Some.
  - intros k' c0 H0. destruct (decide (k = k')) as [<-|Hne].
    + rewrite list_lookup_insert_eq in H0 by by eapply lookup_lt_Some. injection H0 as <-.
      split; [exact Hp|]. split_and!; cbn.
      * exists reply. split; [|done]. apply elem_of_app. right. left.
      * destruct pp as [| | | |? ? ? ? [b|]|b| |[b|]|]; try done; by destruct Hp as [_ ?].
      * destruct cp as [| |[a|]]; try done. apply elem_of_app. by left.
    + rewrite list_lookup_insert_ne in H0 by done. destruct (Hc k' c0 H0) as [Hp' Hr'].
      split; [done|]. by apply replies_ok_snoc.
Qed.

Lemma elem_ran (l : list (nat * A)) k a : (k, a) ∈ l -> k ∈ l.*1.
Proof. intros Hin. apply list_elem_of_fmap. by exists (k, a). Qed.

(** [phases] settles what the invariant says of one call that made a step. *)
Ltac phases :=
  match goal with Hc : phases_ok ?c /\ replies_ok _ _ ?c |- _ =>
    destruct c as [ce cm ca cp pp dp]; cbn in *; subst;
    destruct Hc as [[? ?] (? & ? & ?)]; cbn in *; repeat split; cbn in *;
    try tauto; repeat case_match; simplify_eq; try tauto; eauto;
    match goal with Hx : exists a, (_, a) ∈ _ /\ _ |- _ =>
      destruct Hx as (? & ? & ->); rewrite ?gob_decode_encode in *; simplify_eq; eauto using elem_ran
    end
  end.

Lemma call_step_ok e k c n n' :
  net_ok n -> calls n !! k = Some c -> call_of e = Some k -> call_step e k c n = Ret n' -> net_ok n'.
Proof.
  intros Hn Hk He Hs. pose proof (proj2 (proj2 Hn) k c Hk) as Hc.
  destruct (match e with ERun _ => true | _ => false end) eqn:Her.
  { destruct e; try done. injection He as ->. destruct (dph c) as [|?|srv sv mt|?|] eqn:Hd.
    3: by eapply ERun_ok.
    all: cbn in Hs; rewrite Hd in Hs; by destruct (cph c), (pph c). }
  assert (exists n1 c1, n' = set_call k c1 n1 /\ calls n1 = calls n /\ ran n1 = ran n /\
    phases_ok c1 /\ replies_ok (ran n) k c1 \/ n' = n) as (n1 & c1 & [(-> & E1 & E2 & Hp & Hr)| ->]).
  2: { apply (net_ok_set_call n1 k c c1); [by apply (net_ok_frame n)|by rewrite E1|done|by rewrite E2]. }
  2: done.
  destruct e; try done; injection He as ->; cbn in Hs; repeat case_match; try discriminate Hs;
    try (bind_inv Hs; destruct r as [rs' [sv mt]]); injection Hs as <-.
  all: try (eexists n, c; right; reflexivity).
  all: eexists _, _; left; split; [reflexivity|]; split; [reflexivity|]; split; [reflexivity|].
  all: clear Hk Hn; phases.
Qed.

Lemma call_exec_ok e n n' : net_ok n -> exec e n = Ret n' -> net_ok n'.
Proof.
  intros Hn Hs. destruct (call_of e) as [k|] eqn:Hc.
  - assert (match calls n !! k with Some c => call_step e k c n | None => Block end = Ret n') as Hs'.
    { destruct e; try done; injection Hc as ->; exact Hs. }
    destruct (calls n !! k) as [c|] eqn:Hk; [|done]. by eapply call_step_ok.
  - destruct e; try done; cbn in Hs.
    + apply administer_frame in Hs as [E1 E2]. by apply (net_ok_frame n).
    + case_decide; [|done]. injection Hs as <-. destruct Hn as (Hnd & Hlt & Hall).
      unfold net_ok. cbn. split_and!; [done| |].
      * intros k Hk. rewrite length_app. specialize (Hlt k Hk). cbn. lia.
      * intros k c [Hk|(Hk & Heq)]%lookup_app_Some; [by apply Hall|].
        apply list_lookup_singleton_Some in Heq as [Hk0 <-]. split; [done|]. unfold replies_ok. cbn.
        split_and!; try done. intros Hin%Hlt. lia.
    + case_match; [|done]. injection Hs as <-. by apply (net_ok_frame n).
Qed.

Lemma call_exec_all_ok es n n' : net_ok n -> exec_all es n = Ret n' -> net_ok n'.
Proof.
  revert n. induction es as [|e es IH]; intros n Hn Hs; cbn in Hs.
  - by injection Hs as <-.
  - bind_inv Hs. eapply IH; [by eapply call_exec_ok|done].
Qed.

Lemma reachable_ok n : reachable n -> net_ok n.
Proof.
  intros [es Hes]. eapply call_exec_all_ok; [|exact Hes]. unfold net_ok. cbn. split_and!.
  - constructor.
  - by intros k Hk%not_elem_of_nil.
  - done.
Qed.

(** *** A call can always be brought to its end *)

(** The handler of the call has not returned and its server is alive. *)
Definition in_handler (n : Network) (c : call) : Prop :=
  match pph c, dph c with
  | PWait name srv _ _, (DStart _ | DCall _ _ _) => isServerDead (cend c) name srv n = false
  | _, _ => False
  end.

Definition returned (c : call) : Prop := match cph c with CRet _ => True | _ => False end.

(** In at most [m] steps of its own goroutines the call returns or is in its
    handler. *)
Definition drives (k : nat) (m : nat) (n : Network) : Prop :=
  exists es n' c', Forall (fun e => call_of e = Some k) es /\ (length es <= m)%nat /\
    exec_all es n = Ret n' /\ calls n' !! k = Some c' /\ (returned c' \/ in_handler n' c').

Lemma drives_here k m n c :
  calls n !! k = Some c -> returned c \/ in_handler n c -> drives k m n.
Proof. intros Hk Hc. exists [], n, c. split_and!; [constructor|cbn; lia|done..]. Qed.

Lemma drives_step e k m n c n1 :
  calls n !! k = Some c -> call_of e = Some k -> call_step e k c n = Ret n1 ->
  drives k m n1 -> drives k (S m) n.
Proof.
  intros Hk He Hs (es & n' & c' & Hes & Hlen & Hrun & Hc' & Hfin).
  exists (e :: es), n', c'. split_and!; [by constructor|cbn; lia| |done..].
  cbn [exec_all]. assert (exec e n = Ret n1) as ->; [|exact Hrun].
  unfold exec. destruct e; try done; injection He as ->; cbn [call_of]; by rewrite Hk.
Qed.

Lemma calls_set_call n0 k c c' (n : Network) :
  calls n !! k = Some c -> calls n0 = calls n -> calls (set_call k c' n0) !! k = Some c'.
Proof. intros Hk Hn. cbn. rewrite Hn. apply list_lookup_insert_eq. by eapply lookup_lt_Some. Qed.

Lemma drives_send k n c r :
  net_ok n -> calls n !! k = Some c -> cph c = CWait -> pph c = PSend r -> drives k 1 n.
Proof.
  intros Hn Hk Hc Hp. destruct (proj2 (proj2 Hn) k c Hk) as [_ (_ & Hr & _)]. rewrite Hp in Hr.
  destruct r as [b|].
  - destruct Hr as (a & _ & ->).
    eapply (drives_step (EReturn k)); [done|done| |].
    + cbn. by rewrite Hc, Hp, gob_decode_encode.
    + eapply drives_here; [by eapply calls_set_call|by left].
  - eapply (drives_step (EReturn k)); [done|done| |].
    + cbn. by rewrite Hc, Hp.
    + eapply drives_here; [by eapply calls_set_call|by left].
Qed.

(** A step to a state from which the call is driven on. *)
Lemma drives_to e k m n c n0 c1 :
  net_ok n -> calls n !! k = Some c -> call_of e = Some k ->
  call_step e k c n = Ret (set_call k c1 n0) -> calls n0 = calls n ->
  (net_ok (set_call k c1 n0) -> calls (set_call k c1 n0) !! k = Some c1 ->
   drives k m (set_call k c1 n0)) -> drives k (S m) n.
Proof.
  intros Hn Hk He Hs Hcalls Hd. eapply drives_step; [done|done|exact Hs|]. apply Hd.
  - by eapply call_step_ok.
  - by eapply calls_set_call.
Qed.

Lemma drives_got k n c name srv rel lr r :
  net_ok n -> calls n !! k = Some c -> cph c = CWait -> pph c = PGot name srv rel lr r -> drives k 2 n.
Proof.
  intros Hn Hk Hc Hp.
  assert (exists r' n0, call_step (EFinish k 100 600) k c n = Ret (set_call k (set_p (PSend r') c) n0) /\
    calls n0 = calls n) as (r' & n0 & Hs & Hn0).
  { cbn. rewrite Hp. destruct r as [b|]; [|by eexists _, _].
    destruct (isServerDead _ _ _ _); [by eexists _, _|].
    assert (drops rel 100 = false) as -> by by destruct rel.
    rewrite (bool_decide_eq_false_2 (600 mod 900 < 600)) by by vm_compute.
    rewrite andb_false_r. by eexists (Some b), (add_bytes b n). }
  eapply (drives_to (EFinish k 100 600)); [done|done|done|exact Hs|done|]. intros Hn1 Hk1.
  eapply drives_send; [exact Hn1|exact Hk1|exact Hc|done].
Qed.

Lemma drives_wait k n c name srv rel lr :
  net_ok n -> calls n !! k = Some c -> cph c = CWait -> pph c = PWait name srv rel lr -> drives k 3 n.
Proof.
  intros Hn Hk Hc Hp. destruct (isServerDead (cend c) name srv n) eqn:Hdead.
  - eapply (drives_to (ETick k)); [done|done|done| |done|].
    + cbn. by rewrite Hp, Hdead.
    + intros Hn1 Hk1. eapply drives_got; [exact Hn1|exact Hk1|exact Hc|done].
  - destruct (proj2 (proj2 Hn) k c Hk) as [[_ Hpd] _]. rewrite Hp in Hpd.
    destruct (dph c) as [|s0|s0 sv mt|b|] eqn:Hd; try done.
    + eapply drives_here; [done|]. right. unfold in_handler. by rewrite Hp, Hd.
    + eapply drives_here; [done|]. right. unfold in_handler. by rewrite Hp, Hd.
    + eapply (drives_to (EReceive k)); [done|done|done| |done|].
      * cbn. by rewrite Hp, Hd.
      * intros Hn1 Hk1. eapply drives_got; [exact Hn1|exact Hk1|exact Hc|done].
Qed.

Lemma drives_timer k n c :
  net_ok n -> calls n !! k = Some c -> cph c = CWait -> pph c = PTimer -> drives k 2 n.
Proof.
  intros Hn Hk Hc Hp. eapply (drives_to (ETimer k)); [done|done|done| |done|].
  - cbn. by rewrite Hp.
  - intros Hn1 Hk1. eapply drives_send; [exact Hn1|exact Hk1|exact Hc|done].
Qed.

Lemma drives_delay k n c name srv rel lr :
  net_ok n -> calls n !! k = Some c -> cph c = CWait -> pph c = PDelay name srv rel lr -> drives k 4 n.
Proof.
  intros Hn Hk Hc Hp. eapply (drives_to (EForward k 100)); [done|done|done| |done|].
  - cbn. rewrite Hp. assert (drops rel 100 = false) as -> by by destruct rel. done.
  - intros Hn1 Hk1. eapply drives_wait; [exact Hn1|exact Hk1|exact Hc|done].
Qed.

Lemma drives_mono k m m' n : (m <= m')%nat -> drives k m n -> drives k m' n.
Proof.
  intros Hm (es & n' & c' & Hes & Hlen & Hrest). exists es, n', c'. split_and!; [done|lia|apply Hrest..].
Qed.

(** C26 A call returns: in every reachable state of the network, a call that was
    accepted can be brought, by at most five steps of its own goroutines and
    timers, either to its return or to where its handler runs on a server that
    is still there.  So no call is ever stuck but for its handler, whatever
    servers are deleted and ends disabled meanwhile. *)
Theorem call_returns n k c :
  reachable n -> calls n !! k = Some c -> cph c = CWait -> drives k 5 n.
Proof.
  intros Hn%reachable_ok Hk Hc. destruct (proj2 (proj2 Hn) k c Hk) as [[Hp _] _]. rewrite Hc in Hp.
  destruct (pph c) as [| |name srv rel lr|name srv rel lr|name srv rel lr r|b| |r|] eqn:E; try done.
  - destruct (readEndnameInfo (cend c) n) as [[name srv]|] eqn:Hr.
    + eapply (drives_to (ERead k)); [done|done|done|cbn; rewrite E, Hr; done|done|].
      intros Hn1 Hk1. eapply drives_delay; [exact Hn1|exact Hk1|exact Hc|done].
    + eapply (drives_to (ERead k)); [done|done|done|cbn; rewrite E, Hr; done|done|].
      intros Hn1 Hk1. apply (drives_mono k 2); [lia|].
      eapply drives_timer; [exact Hn1|exact Hk1|exact Hc|done].
  - apply (drives_mono k 4); [lia|]. by eapply drives_delay.
  - apply (drives_mono k 3); [lia|]. by eapply drives_wait.
  - apply (drives_mono k 2); [lia|]. by eapply drives_got.
  - apply (drives_mono k 2); [lia|]. eapply (drives_to (ELate k)) with (n0 := add_bytes b n);
      [done|done|done|cbn; by rewrite E|done|].
    intros Hn1 Hk1. eapply drives_send; [exact Hn1|exact Hk1|exact Hc|done].
  - apply (drives_mono k 2); [lia|]. by eapply drives_timer.
  - apply (drives_mono k 1); [lia|]. by eapply drives_send.
Qed.

(** C15 A call is executed at most once, and what it returns is real: in every
    reachable state no handler has returned twice for the same call; a call that
    returned true carries the reply that its handler returned; and a call that
    was aborted before the network took it has not been executed. *)
Theorem calls_execute_at_most_once n :
  reachable n ->
  NoDup (ran n).*1 /\
  forall k c, calls n !! k = Some c ->
    (forall a, cph c = CRet (Some a) -> (k, a) ∈ ran n) /\
    (pph c = PIdle -> k ∉ (ran n).*1).
Proof.
  intros (Hnd & _ & Hall)%reachable_ok. split; [done|]. intros k c Hk.
  destruct (Hall k c Hk) as [[_ Hpd] (Hd & _ & Hc)]. split.
  - intros a Ha. by rewrite Ha in Hc.
  - intros Hp. rewrite Hp in Hpd. by destruct (dph c).
Qed.

(** *** Deleted servers *)

(** A call whose server is gone and that has no reply of it in hand. *)
Definition orphan (name : iface) (srv : nat) (n : Network) (k : nat) : Prop :=
  server_at n name <> Some srv /\
  exists c, calls n !! k = Some c /\
    match pph c with
    | PWait name' srv' _ _ | PGot name' srv' _ _ _ => name' = name /\ srv' = srv /\ cph c = CWait
    | PSend None => cph c = CWait
    | PEnd => cph c = CRet None
    | _ => False
    end.

Lemma administer_server o n n' name srv :
  server_at n name <> Some srv -> o <> OAddServer name srv -> administer o n = Ret n' ->
  server_at n' name <> Some srv.
Proof.
  intros Hs Ho He. destruct o as [| | | |e0| |nm rs|nm|? ?|? ?]; cbn in He; unfold Cleanup, MakeEnd in He;
    repeat case_match; simplify_eq; try done; unfold server_at in *; cbn.
  - rewrite lookup_insert. destruct (decide (nm = name)) as [->|]; [|done].
    intros Heq. apply Ho. cbn in Heq. by injection Heq as ->.
  - rewrite lookup_insert. by case_decide.
Qed.

Lemma call_step_servers e k c n n' :
  call_step e k c n = Ret n' -> servers n' = servers n /\
  forall k', k' <> k -> calls n' !! k' = calls n !! k'.
Proof.
  intros Hs. destruct e; cbn in Hs; repeat case_match; try discriminate Hs;
    try (bind_inv Hs; repeat case_match); simplify_eq;
    (split; [done|]; intros k' Hk'; cbn; by rewrite ?list_lookup_insert_ne).
Qed.

Lemma orphan_call_step e k c n n' name srv :
  calls n !! k = Some c -> call_of e = Some k -> orphan name srv n k ->
  call_step e k c n = Ret n' -> orphan name srv n' k.
Proof.
  intros Hk He [Hsrv (c0 & Hk0 & Hm)] Hs. rewrite Hk in Hk0. injection Hk0 as <-.
  destruct (call_step_servers e k c n n' Hs) as [Hsv _].
  split; [unfold server_at in *; by rewrite Hsv|].
  assert (isServerDead (cend c) name srv n = true) as Hdead.
  { unfold isServerDead. by rewrite (bool_decide_eq_true_2 _ Hsrv), orb_true_r. }
  destruct e; try done; injection He as ->; cbn in Hs; repeat case_match; try discriminate Hs;
    try (bind_inv Hs; repeat case_match); simplify_eq; try done; destruct_and?; simplify_eq;
    first [ eexists; split; [apply list_lookup_insert_eq; by eapply lookup_lt_Some|];
            cbn; repeat case_match; simplify_eq; by split_and?
          | exists c; split; [done|]; by repeat case_match
          | congruence ].
Qed.

Lemma orphan_exec e n n' name srv k :
  orphan name srv n k -> e <> EAdmin (OAddServer name srv) -> exec e n = Ret n' ->
  orphan name srv n' k.
Proof.
  intros Ho Hne Hs. destruct (call_of e) as [k'|] eqn:Hc.
  - assert (match calls n !! k' with Some c => call_step e k' c n | None => Block end = Ret n') as Hs'.
    { destruct e; try done; injection Hc as ->; exact Hs. }
    destruct (calls n !! k') as [c'|] eqn:Hk'; [|done].
    destruct (decide (k' = k)) as [->|Hkk]; [by eapply orphan_call_step|].
    destruct (call_step_servers _ _ _ _ _ Hs') as [Hsv Hoth]. destruct Ho as [Hsrv Hcall].
    split; [unfold server_at in *; by rewrite Hsv|]. by rewrite Hoth by done.
  - destruct Ho as [Hsrv (c & Hk & Hm)]. destruct e; try done; cbn in Hs.
    + split.
      { eapply administer_server; [exact Hsrv| |exact Hs]. intros Heq. apply Hne. by rewrite Heq. }
      exists c.
      destruct (administer_frame _ _ _ Hs) as [Hcalls _]. by rewrite Hcalls.
    + case_decide; [|done]. injection Hs as <-. split; [done|]. exists c. split; [|done].
      cbn. by apply lookup_app_l_Some.
    + case_match; [|done]. injection Hs as <-. split; [done|]. by exists c.
Qed.

(** No reply comes from a deleted server: when the server that a call waits
    for has been deleted or replaced, the call cannot return true any more,
    even if its handler returns, as long as the same server object is not added
    again under its name. *)
Theorem deleted_server_never_replies n es n' k c c' name srv rel lr a :
  calls n !! k = Some c -> cph c = CWait -> pph c = PWait name srv rel lr ->
  server_at n name <> Some srv -> Forall (fun e => e <> EAdmin (OAddServer name srv)) es ->
  exec_all es n = Ret n' -> calls n' !! k = Some c' -> cph c' <> CRet (Some a).
Proof.
  intros Hk Hc Hp Hsrv Hes Hrun Hk' Hr.
  assert (orphan name srv n k) as Ho.
  { split; [done|]. exists c. by rewrite Hp. }
  clear Hk Hc Hp Hsrv. revert n Ho Hrun. induction Hes as [|e es He Hes IH]; intros n Ho Hrun; cbn in Hrun.
  - injection Hrun as <-. destruct Ho as [_ (c0 & Hk0 & Hm)]. rewrite Hk' in Hk0. injection Hk0 as <-.
    repeat case_match; try done; naive_solver congruence.
  - bind_inv Hrun. eapply IH; [|exact Hrun]. by eapply orphan_exec.
Qed.

(** *** Dispatch *)

Lemma last_dot_app s m : has_char dot m = false -> last_dot (s +:+ "." +:+ m) = Some (s, m).
Proof.
  intros Hm. induction s as [|c s IH].
  - cbn -[last_dot]. change ("" +:+ "." +:+ m) with (String dot m). cbn.
    assert (last_dot m = None) as ->; [|done].
    induction m as [|c m IHm]; [done|]. rewrite has_char_string in Hm.
    apply orb_false_elim in Hm as [Hc Hm]. cbn. by rewrite IHm, Hc.
  - change (String c s +:+ "." +:+ m) with (String c (s +:+ "." +:+ m)). cbn. by rewrite IH.
Qed.

Lemma last_dot_None s : has_char dot s = false -> last_dot s = None.
Proof.
  induction s as [|c s IH]; [done|]. rewrite has_char_string. intros [Hc Hs]%orb_false_elim.
  cbn. by rewrite IH, Hc.
Qed.

Lemma MakeService_methods name o ms meth m :
  methods (MakeService name o ms) !! meth = Some m ->
  m ∈ ms /\ handler_like m = true /\ mname m = meth.
Proof.
  unfold MakeService. cbn [methods].
  cut (forall acc : gmap string method,
    foldl (fun acc m => if handler_like m then <[mname m := m]> acc else acc) acc ms !! meth = Some m ->
    acc !! meth = Some m \/ m ∈ ms /\ handler_like m = true /\ mname m = meth).
  { intros Hcut Hm. by destruct (Hcut _ Hm) as [He|?]; [rewrite lookup_empty in He|]. }
  induction ms as [|x ms IH]; intros acc Hm; cbn in Hm; [by left|].
  rewrite elem_of_cons. destruct (IH _ Hm) as [Hacc|(? & ? & ?)]; [|tauto].
  destruct (handler_like x) eqn:Hh; [|by left].
  rewrite lookup_insert in Hacc. case_decide as Heq; [|by left]. injection Hacc as ->. tauto.
Qed.

Lemma MakeService_lookup name o ms m :
  NoDup (mname <$> ms) ->
  methods (MakeService name o ms) !! mname m = Some m <-> m ∈ ms /\ handler_like m = true.
Proof.
  unfold MakeService. cbn [methods].
  assert (forall acc : gmap string method, NoDup (mname <$> ms) -> (forall m', m' ∈ ms -> acc !! mname m' = None) ->
    foldl (fun acc m => if handler_like m then <[mname m := m]> acc else acc) acc ms !! mname m = Some m <->
      acc !! mname m = Some m \/ m ∈ ms /\ handler_like m = true) as Hfold.
  { induction ms as [|x ms IH]; intros acc Hnd Hacc.
    - cbn. split; [by left|]. intros [Hm|[Hm _]]; [done|]. by apply not_elem_of_nil in Hm.
    - cbn in Hnd. apply NoDup_cons in Hnd as [Hx Hnd]. cbn [foldl].
      assert (forall m', m' ∈ ms -> mname m' <> mname x) as Hdiff.
      { intros m' Hm' Heq. apply Hx. rewrite <- Heq. by apply list_elem_of_fmap_2. }
      rewrite IH; [| |]. 2: done.
      + destruct (handler_like x) eqn:Hh; rewrite elem_of_cons.
        * rewrite lookup_insert. destruct (decide (mname x = mname m)) as [Heq|Hne].
          -- split; [intros [[= ->]|?]; tauto|]. intros [Hm|[[->|Hm] ?]]; [|tauto|].
             ++ rewrite <- Heq, Hacc in Hm by left. done.
             ++ by destruct (Hdiff m Hm).
          -- split; [tauto|]. intros [?|[[->|?] ?]]; tauto.
        * split; [tauto|]. intros [?|[[->|?] ?]]; [tauto|congruence|tauto].
      + intros m' Hm'. destruct (handler_like x); [|apply Hacc; by right].
        rewrite lookup_insert_ne by (intros Heq; by apply (Hdiff m')). apply Hacc. by right. }
  intros Hnd. rewrite Hfold by (done || intros; apply lookup_empty).
  rewrite lookup_empty. naive_solver.
Qed.

(** Requests find their handler: on a server with one service, made from an
    object whose methods have different names, the request ["S.m"] runs the
    method [m] of that object on the decoded arguments and encodes its reply,
    exactly when [m] is exported, takes two arguments besides the receiver, the
    second a pointer, and returns nothing; any other method or service stops
    the process, and a name without a dot is an index out of range.  Every
    request that reaches a service is counted. *)
Theorem requests_are_routed sn o ms rs req :
  NoDup (mname <$> ms) -> rs = AddService (MakeService sn o ms) MakeServer ->
  (forall m args, m ∈ ms -> handler_like m = true -> has_char dot (mname m) = false ->
     req = sn +:+ "." +:+ mname m ->
     Server_dispatch req rs = Ret ({| services := services rs; count := 1 |}, (sn, mname m)) /\
     forall svc, services rs !! sn = Some svc ->
       Service_dispatch (mname m) (gob_encode args) svc =
         ('(o', reply) ← func m o args;
          Ret ({| sname := sn; rcvr := o'; methods := methods svc |}, reply, gob_encode reply))) /\
  (forall meth args svc, (forall m, m ∈ ms -> handler_like m = true -> mname m <> meth) ->
     services rs !! sn = Some svc -> Service_dispatch meth args svc = Crash LogFatal) /\
  (forall s meth, s <> sn -> has_char dot meth = false -> req = s +:+ "." +:+ meth ->
     Server_dispatch req rs = Crash LogFatal) /\
  (has_char dot req = false -> Server_dispatch req rs = Crash IndexPanic).
Proof.
  intros Hnd ->.
  assert (forall svc, services (AddService (MakeService sn o ms) MakeServer) !! sn = Some svc ->
    svc = MakeService sn o ms) as Hsvc.
  { intros svc Hs. cbn in Hs. rewrite lookup_insert_eq in Hs. by injection Hs as <-. }
  split_and!.
  - intros m args Hm Hh Hd ->. split.
    + unfold Server_dispatch. rewrite last_dot_app by done. cbn. by rewrite lookup_insert_eq.
    + intros svc ->%Hsvc. unfold Service_dispatch.
      rewrite (proj2 (MakeService_lookup sn o ms m Hnd)) by done.
      by rewrite gob_decode_encode.
  - intros meth args svc Hno ->%Hsvc. unfold Service_dispatch.
    destruct (methods (MakeService sn o ms) !! meth) as [m|] eqn:Hm; [|done]. exfalso.
    destruct (MakeService_methods sn o ms meth m Hm) as (Hin & Hh & Hname). by apply (Hno m).
  - intros s meth Hne Hd ->. unfold Server_dispatch. rewrite last_dot_app by done. cbn.
    by rewrite lookup_insert_ne.
  - intros Hd. unfold Server_dispatch. by rewrite last_dot_None.
Qed.
End network.

(** ** Witnesses *)

#[export] Instance bytes_codec : Codec (list Byte.byte) := {|
  gob_encode := fun a => a; gob_decode := fun b => Some b; gob_zero := [];
  gob_decode_encode := fun a => eq_refl |}.

(** A counter whose one handler adds the length of its argument and echoes it. *)
Definition ex_method : @method Z (list Byte.byte) :=
  mkMethod "Add" true 3 true 0 (fun o a => Ret (o + zlen a, a)).
Definition ex_server : @Server Z (list Byte.byte) :=
  AddService (MakeService "Counter" 0 [ex_method]) MakeServer.

Abbreviation ex_event := (@event Z (list Byte.byte)).
Definition ex_setup : list ex_event :=
  [EAdmin (OMakeEnd (IString "e")); EAdmin (ONewServer ex_server); EAdmin (OAddServer (IInt 0) 0);
   EAdmin (OConnect (IString "e") (IInt 0)); EAdmin (OEnable (IString "e") true);
   ECall (IString "e") "Counter.Add" [Byte.x01; Byte.x02]; EAccept 0; ERead 0; EForward 0 500;
   EDispatch 0].
Definition ex_answer : list ex_event := [ERun 0; EReceive 0; EFinish 0 500 700; EReturn 0].

Definition ex_net (es : list ex_event) : Network := value_or MakeNetwork (exec_all es MakeNetwork).
Definition ex_call (es : list ex_event) : call :=
  default (mkCall INil "" [] CSend PIdle DNone) (calls (ex_net es) !! 0%nat).

Lemma calls_execute_at_most_once_witness :
  cph (ex_call (ex_setup ++ ex_answer)) = CRet (Some [Byte.x01; Byte.x02]) /\
  (0%nat, [Byte.x01; Byte.x02]) ∈ ran (ex_net (ex_setup ++ ex_answer)).
Proof.
  assert (cph (ex_call (ex_setup ++ ex_answer)) = CRet (Some [Byte.x01; Byte.x02])) as Hc
    by (vm_compute; reflexivity).
  split; [exact Hc|].
  destruct (calls_execute_at_most_once (ex_net (ex_setup ++ ex_answer))) as [_ Hall].
  - exists (ex_setup ++ ex_answer). vm_compute. reflexivity.
  - destruct (Hall 0%nat (ex_call (ex_setup ++ ex_answer))) as [Hret _].
    + vm_compute. reflexivity.
    + exact (Hret _ Hc).
Defined.

Lemma call_returns_witness :
  cph (ex_call (ex_setup ++ [ERun 0%nat])) = CWait /\ drives 0 5 (ex_net (ex_setup ++ [ERun 0%nat])).
Proof.
  assert (cph (ex_call (ex_setup ++ [ERun 0%nat])) = CWait) as Hc by (vm_compute; reflexivity).
  split; [exact Hc|].
  refine (call_returns (ex_net (ex_setup ++ [ERun 0%nat])) 0 (ex_call (ex_setup ++ [ERun 0%nat])) _ _ Hc).
  - exists (ex_setup ++ [ERun 0%nat]). vm_compute. reflexivity.
  - vm_compute. reflexivity.
Defined.

(** The server is deleted while the handler runs; the handler returns, and the
    call gets false. *)
Definition ex_deleted : list ex_event := ex_setup ++ [EAdmin (ODeleteServer (IInt 0))].
Definition ex_after : list ex_event := [ERun 0; EReceive 0; EFinish 0 500 700; EReturn 0].

Lemma deleted_server_never_replies_witness :
  cph (ex_call (ex_deleted ++ ex_after)) = CRet None /\
  forall a, cph (ex_call (ex_deleted ++ ex_after)) <> CRet (Some a).
Proof.
  split; [vm_compute; reflexivity|]. intros a.
  refine (deleted_server_never_replies (ex_net ex_deleted) ex_after (ex_net (ex_deleted ++ ex_after)) 0
    (ex_call ex_deleted) (ex_call (ex_deleted ++ ex_after)) (IInt 0) 0 true false a _ _ _ _ _ _ _).
  - vm_compute. reflexivity.
  - vm_compute. reflexivity.
  - vm_compute. reflexivity.
  - vm_compute. discriminate.
  - repeat constructor; discriminate.
  - vm_compute. reflexivity.
  - vm_compute. reflexivity.
Defined.

Lemma requests_are_routed_witness :
  Server_dispatch "Counter.Add" ex_server = Ret ({| services := services ex_server; count := 1 |}, ("Counter", "Add")) /\
  Server_dispatch "Other.Add" ex_server = Crash LogFatal.
Proof.
  destruct (requests_are_routed "Counter" 0 [ex_method] ex_server "Counter.Add") as [Hrun _].
  { apply NoDup_singleton. }
  { reflexivity. }
  destruct (requests_are_routed "Counter" 0 [ex_method] ex_server "Other.Add") as (_ & _ & Hfatal & _).
  { apply NoDup_singleton. }
  { reflexivity. }
  split.
  - apply (Hrun ex_method []); [left|reflexivity..].
  - apply (Hfatal "Other" "Add"); [discriminate|reflexivity..].
Defined.
