(* ===== verification/RaftNode.v ===== *)
(** * RaftNode: one Raft server

    Models [raft-demo/src/raft/raft.go], [rpc.go] and [util.go]: the state of a
    server and one definition per critical section.  A goroutine is cut where it
    releases [mu] or waits, so a function that takes the lock twice is two
    definitions.  What a section hands to others -- goroutines it starts,
    RPCs it sends, messages on [applyCh] and [entryCh] -- is a list of effects. *)
From S2P Require Import Prelude.

Definition FOLLOWER : Z := 0.
Definition CANDIDATE : Z := 1.
Definition LEADER : Z := 2.
Definition DEAD : Z := -1.        (* the state [Kill] leaves *)

Record LogEntry : Set := mkEntry {
  eCommand : iface;
  eTerm : Z;
  eIndex : Z;
}.

#[export] Instance LogEntry_eq_dec : EqDecision LogEntry.
Proof. solve_decision. Defined.

Record ApplyMsg : Set := mkApply {
  CommandValid : bool;
  mCommand : iface;
  CommandIndex : Z;
}.

Record Raft : Set := mkRaft {
  me : Z;
  dead : bool;
  currentTerm : Z;
  votedFor : Z;
  log : list LogEntry;
  commitIndex : Z;
  lastApplied : Z;
  nextIndex : list Z;
  matchIndex : list Z;
  state : Z;
  votesGot : Z;
  numPeers : Z;
  rpcCh : Z;               (* notifications in the buffered channel *)
}.

Definition set_dead x (rf : Raft) : Raft := mkRaft (me rf) x (currentTerm rf) (votedFor rf) (log rf)
  (commitIndex rf) (lastApplied rf) (nextIndex rf) (matchIndex rf) (state rf) (votesGot rf) (numPeers rf) (rpcCh rf).
Definition set_currentTerm x (rf : Raft) : Raft := mkRaft (me rf) (dead rf) x (votedFor rf) (log rf)
  (commitIndex rf) (lastApplied rf) (nextIndex rf) (matchIndex rf) (state rf) (votesGot rf) (numPeers rf) (rpcCh rf).
Definition set_votedFor x (rf : Raft) : Raft := mkRaft (me rf) (dead rf) (currentTerm rf) x (log rf)
  (commitIndex rf) (lastApplied rf) (nextIndex rf) (matchIndex rf) (state rf) (votesGot rf) (numPeers rf) (rpcCh rf).
Definition set_log x (rf : Raft) : Raft := mkRaft (me rf) (dead rf) (currentTerm rf) (votedFor rf) x
  (commitIndex rf) (lastApplied rf) (nextIndex rf) (matchIndex rf) (state rf) (votesGot rf) (numPeers rf) (rpcCh rf).
Definition set_commitIndex x (rf : Raft) : Raft := mkRaft (me rf) (dead rf) (currentTerm rf) (votedFor rf) (log rf)
  x (lastApplied rf) (nextIndex rf) (matchIndex rf) (state rf) (votesGot rf) (numPeers rf) (rpcCh rf).
Definition set_lastApplied x (rf : Raft) : Raft := mkRaft (me rf) (dead rf) (currentTerm rf) (votedFor rf) (log rf)
  (commitIndex rf) x (nextIndex rf) (matchIndex rf) (state rf) (votesGot rf) (numPeers rf) (rpcCh rf).
Definition set_nextIndex x (rf : Raft) : Raft := mkRaft (me rf) (dead rf) (currentTerm rf) (votedFor rf) (log rf)
  (commitIndex rf) (lastApplied rf) x (matchIndex rf) (state rf) (votesGot rf) (numPeers rf) (rpcCh rf).
Definition set_matchIndex x (rf : Raft) : Raft := mkRaft (me rf) (dead rf) (currentTerm rf) (votedFor rf) (log rf)
  (commitIndex rf) (lastApplied rf) (nextIndex rf) x (state rf) (votesGot rf) (numPeers rf) (rpcCh rf).
Definition set_state x (rf : Raft) : Raft := mkRaft (me rf) (dead rf) (currentTerm rf) (votedFor rf) (log rf)
  (commitIndex rf) (lastApplied rf) (nextIndex rf) (matchIndex rf) x (votesGot rf) (numPeers rf) (rpcCh rf).
Definition set_votesGot x (rf : Raft) : Raft := mkRaft (me rf) (dead rf) (currentTerm rf) (votedFor rf) (log rf)
  (commitIndex rf) (lastApplied rf) (nextIndex rf) (matchIndex rf) (state rf) x (numPeers rf) (rpcCh rf).
Definition set_rpcCh x (rf : Raft) : Raft := mkRaft (me rf) (dead rf) (currentTerm rf) (votedFor rf) (log rf)
  (commitIndex rf) (lastApplied rf) (nextIndex rf) (matchIndex rf) (state rf) (votesGot rf) (numPeers rf) x.

(** ** Messages *)

Record RequestVoteArgs : Set := mkRVArgs {
  rvTerm : Z; CandidateId : Z; LastLogIndex : Z; LastLogTerm : Z }.
Record RequestVoteReply : Set := mkRVReply { rvrTerm : Z; VoteGranted : bool }.
Record AppendEntriesArgs : Set := mkAEArgs {
  aeTerm : Z; LeaderId : Z; PrevLogIndex : Z; PrevLogTerm : Z; Entries : list LogEntry;
  LeaderCommit : Z }.
Record AppendEntriesReply : Set := mkAEReply {
  FollowerId : Z; aerTerm : Z; aerLastLogIndex : Z; IsHeartbeat : bool; Success : bool }.

Inductive effect : Set :=
  | GoToFollower
  | GoToCandidate
  | GoStartElection
  | GoToLeader
  | GoCommitAt (index : Z)
  | SendRequestVote (server : Z) (args : RequestVoteArgs)
  | SendAppendEntries (server : Z) (args : AppendEntriesArgs)
  | SendEntry (e : LogEntry)          (* on [entryCh] *)
  | Apply (msg : ApplyMsg).           (* on [applyCh] *)

(** ** [Make] and small accessors *)

Definition Make (peers : Z) (i : Z) : Raft * list effect :=
  ({| me := i; dead := false; currentTerm := 0; votedFor := 0;
      log := [mkEntry (IInt 0) 0 0]; commitIndex := 0; lastApplied := 0; nextIndex := [];
      matchIndex := []; state := FOLLOWER; votesGot := 0; numPeers := peers; rpcCh := 0 |},
   [GoToFollower]).

Definition isState (s : Z) (rf : Raft) : bool := bool_decide (state rf = s).
Definition killed (rf : Raft) : bool := dead rf.
Definition GetState (rf : Raft) : Z * bool := (currentTerm rf, isState LEADER rf).
Definition Kill (rf : Raft) : Raft := set_state DEAD (set_dead true rf).
Definition isElected (rf : Raft) : bool := bool_decide (numPeers rf / 2 < votesGot rf).

(** [rf.rpcCh <- 1], a channel of capacity [numPeers]; the sender holds [mu]. *)
Definition notify (rf : Raft) : outcome Raft :=
  if decide (state rf = FOLLOWER) then
    if decide (rpcCh rf < numPeers rf) then Ret (set_rpcCh (rpcCh rf + 1) rf) else Block
  else Ret rf.

(** ** [Start] *)

(** The check of line 38, in a critical section of its own. *)
Definition Start_check (rf : Raft) : bool := isState LEADER rf.

Definition Start_append (command : iface) (rf : Raft) : Raft * (Z * Z * bool) * list effect :=
  let newEntry := mkEntry command (currentTerm rf) (zlen (log rf)) in
  (set_log (log rf ++ [newEntry]) rf, (zlen (log rf), currentTerm rf, true), [SendEntry newEntry]).

Definition Start (command : iface) (rf : Raft) : Raft * (Z * Z * bool) * list effect :=
  if Start_check rf then Start_append command rf else (rf, (-1, -1, false), []).

(** ** [RequestVote] *)

Definition isCandUpToDate (args : RequestVoteArgs) (rf : Raft) : bool :=
  match last (log rf) with
  | None => true
  | Some e =>
      bool_decide (eTerm e < LastLogTerm args) ||
      (bool_decide (LastLogTerm args = eTerm e) &&
       bool_decide (zlen (log rf) - 1 <= LastLogIndex args))
  end.

Definition RequestVote (args : RequestVoteArgs) (rf : Raft)
    : outcome (Raft * RequestVoteReply * list effect) :=
  rf ← notify rf;
  let '(rf, effs, voteGranted) :=
    if decide (currentTerm rf <= rvTerm args) then
      let '(rf, effs) :=
        if decide (currentTerm rf < rvTerm args) then
          let rf := set_currentTerm (rvTerm args) rf in
          if decide (state rf <> FOLLOWER) then (set_state FOLLOWER rf, [GoToFollower])
          else (rf, [])
        else (rf, []) in
      if decide (votedFor rf = -1 \/ votedFor rf = CandidateId args) then
        if isCandUpToDate args rf then (set_votedFor (CandidateId args) rf, effs, true)
        else (rf, effs, false)
      else (rf, effs, false)
    else (rf, [], false) in
  Ret (rf, mkRVReply (currentTerm rf) voteGranted, effs).

(** ** [AppendEntries] *)

(** Lines 117-129: the loop that looks for a conflict.  [inLog] is the list of
    the positions found in the log. *)
Fixpoint scan (i : Z) (entries : list LogEntry) (l : list LogEntry) (inLog : list Z)
    : outcome (list LogEntry * list Z) :=
  match entries with
  | [] => Ret (l, inLog)
  | e :: entries =>
      if decide (eIndex e < zlen l) then
        old ← go_index l (eIndex e);
        if decide (eTerm old <> eTerm e) then
          l ← go_prefix l (eIndex e);
          Ret (l, inLog)
        else scan (i + 1) entries l (i :: inLog)
      else scan (i + 1) entries l inLog
  end.

(** Lines 133-144: once an entry is missing, it and all later ones are appended. *)
Fixpoint append_missing (i : Z) (entries : list LogEntry) (inLog : list Z) (needAppend : bool)
    (l : list LogEntry) : list LogEntry :=
  match entries with
  | [] => l
  | e :: entries =>
      let needAppend := needAppend || negb (bool_decide (i ∈ inLog)) in
      append_missing (i + 1) entries inLog needAppend (if needAppend then l ++ [e] else l)
  end.

(** Lines 152-160: [n] iterations of the loop that sends the committed entries. *)
Fixpoint apply_from (n : nat) (i : Z) (l : list LogEntry) : outcome (list effect) :=
  match n with
  | O => Ret []
  | S n =>
      e ← go_index l (i + 1);
      es ← apply_from n (i + 1) l;
      Ret (Apply (mkApply true (eCommand e) (eIndex e)) :: es)
  end.

Definition reconcile (entries : list LogEntry) (l : list LogEntry) : outcome (list LogEntry) :=
  '(l, inLog) ← (if decide (0 < zlen l) then scan 0 entries l [] else Ret (l, []));
  Ret (append_missing 0 entries inLog false l).

(** Lines 147-162 *)
Definition advance_commit (leaderCommit : Z) (rf : Raft) : outcome (Raft * list effect) :=
  if decide (commitIndex rf < leaderCommit) then
    e ← go_index (log rf) (zlen (log rf) - 1);
    let c := fmin leaderCommit (eIndex e) in
    effs ← apply_from (Z.to_nat (c - commitIndex rf)) (commitIndex rf) (log rf);
    Ret (set_commitIndex c rf, effs)
  else Ret (rf, []).

Definition AppendEntries (args : AppendEntriesArgs) (rf : Raft)
    : outcome (Raft * AppendEntriesReply * list effect) :=
  rf ← notify rf;
  let hb := bool_decide (Entries args = []) in
  if decide (aeTerm args < currentTerm rf) then
    Ret (rf, mkAEReply (me rf) (currentTerm rf) 0 hb false, [])
  else
    let '(rf, effs) :=
      if decide (currentTerm rf < aeTerm args \/ state rf = CANDIDATE) then
        let rf := set_currentTerm (aeTerm args) rf in
        if decide (state rf <> FOLLOWER) then (set_state FOLLOWER rf, [GoToFollower])
        else (rf, [])
      else (rf, []) in
    mismatch ← (if decide (PrevLogTerm args <> -1) then
                  if decide (zlen (log rf) - 1 < PrevLogIndex args) then Ret true
                  else e ← go_index (log rf) (PrevLogIndex args);
                       Ret (bool_decide (eTerm e <> PrevLogTerm args))
                else Ret false);
    if mismatch : bool then
      Ret (rf, mkAEReply (me rf) (currentTerm rf) 0 hb false, effs)
    else
      l ← reconcile (Entries args) (log rf);
      let rf := set_log l rf in
      '(rf, applied) ← advance_commit (LeaderCommit args) rf;
      Ret (rf, mkAEReply (me rf) (currentTerm rf) (zlen (log rf) - 1) hb true, effs ++ applied).

(** ** The follower, the candidate and the leader *)

Definition toFollower_begin (rf : Raft) : Raft := set_votedFor (-1) rf.

(** One turn of the loop of [toFollower]; [None] when the loop ends. *)
Definition toFollower_rpc (rf : Raft) : outcome Raft :=
  if decide (0 < rpcCh rf) then Ret (set_rpcCh (rpcCh rf - 1) rf) else Block.
Definition toFollower_timeout (rf : Raft) : Raft * list effect :=
  (set_state CANDIDATE rf, [GoToCandidate]).

(** The loop condition of [toFollower], [toCandidate] and [toLeader]. *)
Definition still (s : Z) (rf : Raft) : bool := negb (killed rf) && isState s rf.

Definition toCandidate_turn (rf : Raft) : Raft * list effect :=
  (set_currentTerm (currentTerm rf + 1) (set_state CANDIDATE rf), [GoStartElection]).

Definition others (rf : Raft) : list Z :=
  filter (fun si => si <> me rf) (seqZ 0 (numPeers rf)).

Definition startElection_begin (rf : Raft) : outcome (Raft * list effect) :=
  if killed rf then Ret (rf, [])
  else
    let rf := set_votesGot 1 (set_votedFor (me rf) rf) in
    e ← go_index (log rf) (zlen (log rf) - 1);
    let args := mkRVArgs (currentTerm rf) (me rf) (eIndex e) (eTerm e) in
    Ret (rf, map (fun si => SendRequestVote si args) (others rf)).

(** A reply taken from the channel of the election; true when the election is
    over. *)
Definition startElection_reply (reply : RequestVoteReply) (rf : Raft) : Raft * list effect * bool :=
  if decide (currentTerm rf < rvrTerm reply) then
    (set_state FOLLOWER (set_currentTerm (rvrTerm reply) rf), [GoToFollower], true)
  else if VoteGranted reply then
    let rf := set_votesGot (votesGot rf + 1) rf in
    if isElected rf then (set_state LEADER rf, [GoToLeader], true) else (rf, [], false)
  else (rf, [], false).

Definition toLeader_begin (rf : Raft) : Raft :=
  let next := map (fun si => if decide (si = me rf) then 0 else zlen (log rf)) (seqZ 0 (numPeers rf)) in
  let mtch := map (fun _ => 0) (seqZ 0 (numPeers rf)) in
  set_matchIndex mtch (set_nextIndex next rf).

(** Lines 207-220: the arguments for one peer. *)
Definition replicate_args (si : Z) (rf : Raft) : outcome AppendEntriesArgs :=
  let lastLogIndex := zlen (log rf) - 1 in
  e ← go_index (log rf) lastLogIndex;
  next ← go_index (nextIndex rf) si;
  if decide (next <= lastLogIndex) then
    p ← go_index (log rf) (next - 1);
    entries ← go_suffix (log rf) next;
    Ret (mkAEArgs (currentTerm rf) (me rf) (next - 1) (eTerm p) entries (commitIndex rf))
  else Ret (mkAEArgs (currentTerm rf) (me rf) lastLogIndex (eTerm e) [] (commitIndex rf)).

Fixpoint replicate_to (peers : list Z) (rf : Raft) : outcome (list effect) :=
  match peers with
  | [] => Ret []
  | si :: peers =>
      args ← replicate_args si rf;
      effs ← replicate_to peers rf;
      Ret (SendAppendEntries si args :: effs)
  end.

Definition replicate (rf : Raft) : outcome (list effect) :=
  if decide (state rf = LEADER) then replicate_to (others rf) rf else Ret [].

Fixpoint count_match (index : Z) (peers : list Z) (rf : Raft) : outcome Z :=
  match peers with
  | [] => Ret 0
  | si :: peers =>
      m ← go_index (matchIndex rf) si;
      n ← count_match index peers rf;
      Ret (if decide (index <= m) then n + 1 else n)
  end.

(** The arguments of the [DPrintf] of line 241 are evaluated, printing or not. *)
Definition commitAt (index : Z) (rf : Raft) : outcome (Raft * list effect) :=
  if decide (index <= commitIndex rf) then Ret (rf, [])
  else
    e ← go_index (log rf) index;
    n ← count_match index (others rf) rf;
    let rf := if decide (numPeers rf / 2 < 1 + n /\ eTerm e = currentTerm rf)
              then set_commitIndex index rf else rf in
    effs ← apply_from (Z.to_nat (commitIndex rf - lastApplied rf)) (lastApplied rf) (log rf);
    Ret (set_lastApplied (Z.max (lastApplied rf) (commitIndex rf)) rf, effs).

(** [handleReply] takes a reply from [aereplyCh] and locks twice: once to
    compare terms (true when it returns), once to update its tables. *)
Definition handleReply_term (reply : AppendEntriesReply) (rf : Raft) : Raft * list effect * bool :=
  if decide (currentTerm rf < aerTerm reply) then
    (set_state FOLLOWER (set_currentTerm (aerTerm reply) rf), [GoToFollower], true)
  else (rf, [], false).

Definition handleReply_update (reply : AppendEntriesReply) (rf : Raft) : outcome (Raft * list effect) :=
  if Success reply then
    if IsHeartbeat reply then Ret (rf, [])
    else
      m ← go_index (matchIndex rf) (FollowerId reply);
      mi ← (if decide (m < aerLastLogIndex reply)
            then go_store (matchIndex rf) (FollowerId reply) (aerLastLogIndex reply)
            else Ret (matchIndex rf));
      ni ← go_store (nextIndex rf) (FollowerId reply) (aerLastLogIndex reply + 1);
      Ret (set_nextIndex ni (set_matchIndex mi rf), [GoCommitAt (aerLastLogIndex reply)])
  else
    n ← go_index (nextIndex rf) (FollowerId reply);
    ni ← go_store (nextIndex rf) (FollowerId reply) (n - 1);
    Ret (set_nextIndex ni rf, []).
