(* ===== verification/RaftWire.v ===== *)
(** * RaftWire: the RPC structs of Raft on the wire

    The structs of [raft-demo/src/raft/rpc.go] and [util.go] as values that
    [labgob] transmits, with their type descriptors.  What a server sends is
    what the other receives, so [RaftNet] may pass the arguments as values. *)
From S2P Require Import Prelude LabGob RaftNode.

(** ** The types *)
Definition rpc_types : universe := list_to_map [
  ("int", RBasic "int"); ("bool", RBasic "bool"); ("string", RBasic "string");
  ("interface {}", ROther); ("[]LogEntry", RSeq "LogEntry");
  ("LogEntry", RStruct "LogEntry" [("Command", "interface {}"); ("Term", "int"); ("Index", "int")]);
  ("RequestVoteArgs", RStruct "RequestVoteArgs"
     [("Term", "int"); ("CandidateId", "int"); ("LastLogIndex", "int"); ("LastLogTerm", "int")]);
  ("RequestVoteReply", RStruct "RequestVoteReply" [("Term", "int"); ("VoteGranted", "bool")]);
  ("AppendEntriesArgs", RStruct "AppendEntriesArgs"
     [("Term", "int"); ("LeaderId", "int"); ("PrevLogIndex", "int"); ("PrevLogTerm", "int");
      ("Entries", "[]LogEntry"); ("LeaderCommit", "int")]);
  ("AppendEntriesReply", RStruct "AppendEntriesReply"
     [("FollowerId", "int"); ("Term", "int"); ("LastLogIndex", "int"); ("IsHeartbeat", "bool");
      ("Success", "bool")]);
  ("*RequestVoteArgs", RSeq "RequestVoteArgs"); ("*RequestVoteReply", RSeq "RequestVoteReply");
  ("*AppendEntriesArgs", RSeq "AppendEntriesArgs"); ("*AppendEntriesReply", RSeq "AppendEntriesReply")].

(** The types the four RPC values bring to [checkValue], and those that a
    command may have. *)
Definition rpc_roots : list string :=
  ["*RequestVoteArgs"; "RequestVoteArgs"; "*RequestVoteReply"; "RequestVoteReply";
   "*AppendEntriesArgs"; "AppendEntriesArgs"; "*AppendEntriesReply"; "AppendEntriesReply";
   "int"; "string"].
Definition command_types : list string := ["int"; "string"].

(** ** The values *)

Definition num (n : Z) : gval := VBasic "int" (BNum n).
Definition flag (b : bool) : gval := VBasic "bool" (BBool b).

Definition wire_command (c : iface) : gval :=
  VIface match c with
         | INil => None
         | IInt n => Some (num n)
         | IString s => Some (VBasic "string" (BString s))
         end.

Definition wire_entry (e : LogEntry) : gval :=
  VStruct "LogEntry" [("Command", wire_command (eCommand e)); ("Term", num (eTerm e)); ("Index", num (eIndex e))].

Definition wire_RequestVoteArgs (a : RequestVoteArgs) : gval :=
  VStruct "RequestVoteArgs" [("Term", num (rvTerm a)); ("CandidateId", num (CandidateId a));
    ("LastLogIndex", num (LastLogIndex a)); ("LastLogTerm", num (LastLogTerm a))].
Definition wire_RequestVoteReply (r : RequestVoteReply) : gval :=
  VStruct "RequestVoteReply" [("Term", num (rvrTerm r)); ("VoteGranted", flag (VoteGranted r))].
Definition wire_AppendEntriesArgs (a : AppendEntriesArgs) : gval :=
  VStruct "AppendEntriesArgs" [("Term", num (aeTerm a)); ("LeaderId", num (LeaderId a));
    ("PrevLogIndex", num (PrevLogIndex a)); ("PrevLogTerm", num (PrevLogTerm a));
    ("Entries", VSlice (wire_entry <$> Entries a)); ("LeaderCommit", num (LeaderCommit a))].
Definition wire_AppendEntriesReply (r : AppendEntriesReply) : gval :=
  VStruct "AppendEntriesReply" [("FollowerId", num (FollowerId r)); ("Term", num (aerTerm r));
    ("LastLogIndex", num (aerLastLogIndex r)); ("IsHeartbeat", flag (IsHeartbeat r));
    ("Success", flag (Success r))].

(** An RPC value, with its type. *)
Inductive rpc_value : string -> gval -> Prop :=
  | rpc_rv a : rpc_value "RequestVoteArgs" (wire_RequestVoteArgs a)
  | rpc_rvr r : rpc_value "RequestVoteReply" (wire_RequestVoteReply r)
  | rpc_ae a : rpc_value "AppendEntriesArgs" (wire_AppendEntriesArgs a)
  | rpc_aer r : rpc_value "AppendEntriesReply" (wire_AppendEntriesReply r).

Lemma rpc_types_ok : universe_ok rpc_types.
Proof. apply universe_ok_dec. vm_compute. reflexivity. Qed.

Definition ht := has_type rpc_types command_types.

(** The descriptors, looked up once. *)
Lemma rpc_desc :
  desc rpc_types "int" = RBasic "int" /\ desc rpc_types "bool" = RBasic "bool" /\
  desc rpc_types "string" = RBasic "string" /\ desc rpc_types "interface {}" = ROther /\
  desc rpc_types "[]LogEntry" = RSeq "LogEntry" /\
  desc rpc_types "LogEntry" =
    RStruct "LogEntry" [("Command", "interface {}"); ("Term", "int"); ("Index", "int")] /\
  desc rpc_types "RequestVoteArgs" = RStruct "RequestVoteArgs"
     [("Term", "int"); ("CandidateId", "int"); ("LastLogIndex", "int"); ("LastLogTerm", "int")] /\
  desc rpc_types "RequestVoteReply" =
    RStruct "RequestVoteReply" [("Term", "int"); ("VoteGranted", "bool")] /\
  desc rpc_types "AppendEntriesArgs" = RStruct "AppendEntriesArgs"
     [("Term", "int"); ("LeaderId", "int"); ("PrevLogIndex", "int"); ("PrevLogTerm", "int");
      ("Entries", "[]LogEntry"); ("LeaderCommit", "int")] /\
  desc rpc_types "AppendEntriesReply" = RStruct "AppendEntriesReply"
     [("FollowerId", "int"); ("Term", "int"); ("LastLogIndex", "int"); ("IsHeartbeat", "bool");
      ("Success", "bool")].
Proof. repeat split. Qed.

(** [ht_step] reads the type of a value off its descriptor. *)
Ltac ht_step :=
  let Di := fresh in let Db := fresh in let Ds := fresh in let Df := fresh in let Dl := fresh in
  let De := fresh in let Dv := fresh in let Dr := fresh in let Da := fresh in let Dp := fresh in
  destruct rpc_desc as (Di & Db & Ds & Df & Dl & De & Dv & Dr & Da & Dp);
  repeat progress (unfold ht, num, flag, wire_command in *; cbn [has_type];
    rewrite ?Di, ?Db, ?Ds, ?Df, ?Dl, ?De, ?Dv, ?Dr, ?Da, ?Dp);
  clear Di Db Ds Df Dl De Dv Dr Da Dp.

Lemma command_typed c : ht (wire_command c) "interface {}".
Proof.
  ht_step. destruct c as [|n|s]; [done| |]; [exists "int"|exists "string"]; ht_step;
    (split; [|done]); unfold command_types; rewrite !elem_of_cons; tauto.
Qed.

Lemma entries_typed es : ht (VSlice (wire_entry <$> es)) "[]LogEntry".
Proof.
  ht_step. induction es as [|e es IH]; [done|]. cbn [fmap list_fmap]. split; [|exact IH].
  unfold wire_entry. pose proof (command_typed (eCommand e)). ht_step. by split_and!.
Qed.

Lemma num_field n : if sent (num n) then representable (num n) else zero (num n) = num n.
Proof. by apply (plain_field "int" (BNum n)). Qed.

Lemma flag_field b : if sent (flag b) then representable (flag b) else zero (flag b) = flag b.
Proof. by apply (plain_field "bool" (BBool b)). Qed.

Lemma entries_representable es : representable (VSlice (wire_entry <$> es)).
Proof.
  cbn [representable]. induction es as [|e es IH]; [done|]. cbn [fmap list_fmap].
  split_and!; [done| |exact IH]. unfold wire_entry. cbn [representable].
  split_and!; [by destruct (eCommand e)|apply num_field..|done].
Qed.

Lemma rpc_value_typed t v : rpc_value t v -> ht v t /\ representable v.
Proof.
  intros [a|r|a|r].
  - split; [|by split_and!; [apply num_field..|]]. unfold wire_RequestVoteArgs. ht_step. by split_and!.
  - split; [|by split_and!; [apply num_field|apply flag_field|]].
    unfold wire_RequestVoteReply. ht_step. by split_and!.
  - pose proof (entries_typed (Entries a)) as He. pose proof (entries_representable (Entries a)) as Hre.
    split.
    + unfold wire_AppendEntriesArgs. revert He. generalize (VSlice (wire_entry <$> Entries a)).
      intros w He. ht_step. by split_and!.
    + unfold wire_AppendEntriesArgs. cbn [representable]. split_and!; try apply num_field; [|done].
      destruct (Entries a); [done|exact Hre].
  - split; [|by split_and!; [apply num_field..|apply flag_field|apply flag_field|]].
    unfold wire_AppendEntriesReply. ht_step. by split_and!.
Qed.

Lemma rpc_roots_known t : t ∈ rpc_roots -> t ∈ dom rpc_types.
Proof.
  intros Ht. assert (Forall (fun t => t ∈ dom rpc_types) rpc_roots) as Hall.
  { unfold rpc_roots. repeat constructor; apply elem_of_dom; eexists; reflexivity. }
  rewrite Forall_forall in Hall. by apply Hall.
Qed.

Lemma command_types_checked t : t ∈ command_types -> t ∈ rpc_roots.
Proof. unfold command_types, rpc_roots. rewrite !elem_of_cons. tauto. Qed.

Definition rpc_checked : labgob :=
  default labgob_init (check_all rpc_types rpc_roots labgob_init).

(** C29 Remote calls are faithful: [labgob] finds nothing to complain about in the
    types of Raft's RPCs, and from then on every argument and every reply that
    is encoded, whatever terms, indexes, entries and commands it carries, is
    decoded into a fresh variable of its type as it was sent. *)
Theorem rpc_values_survive t v :
  rpc_value t v ->
  check_all rpc_types rpc_roots labgob_init = Some rpc_checked /\ errorCount rpc_checked = 0 /\
  Encode rpc_types (Some (t, v)) rpc_checked = Ret (rpc_checked, v) /\
  Decode rpc_types (Some ("*" +:+ t, VPtr (Some (zero v)))) v rpc_checked = Ret (rpc_checked, v).
Proof.
  intros Hv. assert (check_all rpc_types rpc_roots labgob_init = Some rpc_checked) as H by by vm_compute.
  assert (errorCount rpc_checked = 0) as He by by vm_compute. split; [done|]. split; [done|].
  assert (t ∈ rpc_roots /\ "*" +:+ t ∈ rpc_roots) as [Ht Hpt].
  { unfold rpc_roots. rewrite !elem_of_cons. destruct Hv; split; tauto. }
  destruct (rpc_value_typed t v Hv) as [Hty Hre].
  assert (exists tn fs, v = VStruct tn fs) as (tn & fs & ->) by (destruct Hv; by eexists _, _).
  apply (silent_types_lossless rpc_types command_types rpc_roots);
    [exact rpc_types_ok|exact rpc_roots_known|exact command_types_checked|exact H|exact He
    |exact Ht|exact Hpt|exact Hty|exact Hre].
Qed.

(** ** Witnesses *)
Lemma rpc_values_survive_witness :
  Decode rpc_types (Some ("*RequestVoteReply", VPtr (Some (zero (wire_RequestVoteReply (mkRVReply 7 true))))))
    (wire_RequestVoteReply (mkRVReply 7 true)) rpc_checked =
    Ret (rpc_checked, wire_RequestVoteReply (mkRVReply 7 true)).
Proof.
  destruct (rpc_values_survive "RequestVoteReply" (wire_RequestVoteReply (mkRVReply 7 true)) (rpc_rvr _))
    as (_ & _ & _ & H).
  exact H.
Defined.
