(* ===== verification/RaftProps.v ===== *)
(** * RaftProps: what one Raft server guarantees

    The log a server keeps, what [AppendEntries] does to it against a reference
    definition of the consistency rule, the order in which entries are applied,
    and the rules for votes, terms and commits. *)
From S2P Require Import Prelude RaftNode.

(** ** Logs

    Position is index: the entry at position [i] says so. *)
Definition log_ok (l : list LogEntry) : Prop :=
  0 < zlen l /\ forall i e, l !! i = Some e -> eIndex e = Z.of_nat i.

(** [es] numbered from [p]. *)
Definition numbered (p : nat) (es : list LogEntry) : Prop :=
  forall i e, es !! i = Some e -> eIndex e = Z.of_nat (p + i).

Lemma numbered_cons p e es : numbered p (e :: es) <-> eIndex e = Z.of_nat p /\ numbered (S p) es.
Proof.
  split.
  - intros H. split; [rewrite (H 0%nat e eq_refl); lia|].
    intros i e' Hi. rewrite (H (S i) e' Hi). lia.
  - intros [H0 H] [|i] e' Hi; cbn in Hi; [injection Hi as <-; lia|]. rewrite (H i e' Hi). lia.
Qed.

Lemma numbered_app p es es' : numbered p es -> numbered (p + length es) es' -> numbered p (es ++ es').
Proof.
  intros H H' i e [Hi|[Hl Hi]]%lookup_app_Some; [by apply H|]. rewrite (H' _ _ Hi). lia.
Qed.

Lemma numbered_take p es n : numbered p es -> numbered p (take n es).
Proof. intros H i e [Hi _]%lookup_take_Some. by apply H. Qed.

Lemma numbered_drop p es n : numbered p es -> numbered (p + n) (drop n es).
Proof. intros H i e Hi. rewrite lookup_drop in Hi. rewrite (H _ _ Hi). lia. Qed.

Lemma log_ok_numbered l : log_ok l <-> 0 < zlen l /\ numbered 0 l.
Proof. unfold log_ok, numbered. cbn. done. Qed.

(** ** The consistency rule of Raft, as a reference

    Entries [es] go to positions [p], [p + 1], ...: those already there with the
    same term are skipped; from the first that is missing or differs, the log
    is cut and the rest appended. *)
Fixpoint reference (p : nat) (es l : list LogEntry) : list LogEntry :=
  match es with
  | [] => l
  | e :: es' =>
      match l !! p with
      | Some old => if decide (eTerm old = eTerm e) then reference (S p) es' l else take p l ++ es
      | None => take p l ++ es
      end
  end.

(** After the scan no position beyond [i] is marked. *)
Definition fresh_from (i : Z) (inLog : list Z) : Prop := forall j, j ∈ inLog -> j < i.

Lemma append_missing_all i es inLog l :
  append_missing i es inLog true l = l ++ es.
Proof.
  revert i l. induction es as [|e es IH]; intros i l; cbn; [by rewrite app_nil_r|].
  by rewrite IH, <-app_assoc.
Qed.

Lemma append_missing_fresh i es inLog l :
  fresh_from i inLog -> append_missing i es inLog false l = l ++ es.
Proof.
  intros Hf. destruct es as [|e es]; cbn; [by rewrite app_nil_r|].
  rewrite bool_decide_false; [cbn; by rewrite append_missing_all, <-app_assoc|].
  intros Hi. specialize (Hf i Hi). lia.
Qed.

(** Entries past the end of the log: the scan changes nothing. *)
Lemma scan_past p i es l inLog :
  numbered p es -> (length l <= p)%nat -> scan i es l inLog = Ret (l, inLog).
Proof.
  revert p i. induction es as [|e es IH]; intros p i Hn Hp; cbn; [done|].
  apply numbered_cons in Hn as [He Hn]. rewrite decide_False by (unfold zlen; lia).
  by apply (IH (S p)); [|lia].
Qed.

(** The two loops of [AppendEntries] together are the reference. *)
Lemma scan_append p i es l inLog :
  numbered p es -> (p <= length l)%nat -> fresh_from i inLog ->
  exists l' inLog', scan i es l inLog = Ret (l', inLog') /\
    append_missing i es inLog' false l' = reference p es l /\
    (forall j, j < i -> j ∈ inLog' <-> j ∈ inLog).
Proof.
  revert p i inLog. induction es as [|e es IH]; intros p i inLog Hn Hp Hf; cbn.
  { exists l, inLog. done. }
  pose proof (proj1 (numbered_cons _ _ _) Hn) as [He Hn']. rewrite He.
  destruct (l !! p) as [old|] eqn:Hold.
  - apply lookup_lt_Some in Hold as Hlt. rewrite decide_True by (unfold zlen; lia).
    rewrite (go_index_nat _ _ _ Hold), bind_Ret_l.
    destruct (decide (eTerm old = eTerm e)) as [Ht|Ht].
    + rewrite decide_False by (intros H; by apply H).
      destruct (IH (S p) (i + 1) (i :: inLog) Hn') as (l' & inLog' & Hs & Ha & Hin); [lia| |].
      { intros j [->|Hj]%elem_of_cons; [lia|]. specialize (Hf j Hj). lia. }
      exists l', inLog'. split; [done|]. split.
      * rewrite (bool_decide_true (i ∈ inLog')); [cbn; exact Ha|]. apply Hin; [lia|left].
      * intros j Hj. rewrite Hin by lia. rewrite elem_of_cons. split; [intros [->|?]; [lia|done]|by right].
    + rewrite decide_True by done. unfold go_prefix. rewrite decide_True by (unfold zlen; lia).
      rewrite bind_Ret_l, Nat2Z.id. eexists _, _. split; [reflexivity|]. split; [|done].
      pose proof (append_missing_fresh i (e :: es) inLog (take p l) Hf) as Ha. exact Ha.
  - apply lookup_ge_None in Hold. rewrite decide_False by (unfold zlen; lia).
    rewrite (scan_past (S p)) by (try done; lia). eexists _, _. split; [reflexivity|]. split; [|done].
    pose proof (append_missing_fresh i (e :: es) inLog l Hf) as Ha.
    rewrite take_ge by lia. exact Ha.
Qed.

Lemma reconcile_spec p es l :
  0 < zlen l -> numbered p es -> (p <= length l)%nat ->
  reconcile es l = Ret (reference p es l).
Proof.
  intros Hl Hn Hp. unfold reconcile. rewrite decide_True by done.
  destruct (scan_append p 0 es l [] Hn Hp) as (l' & inLog' & -> & Ha & _).
  { by intros j Hj%not_elem_of_nil. }
  by rewrite bind_Ret_l, Ha.
Qed.

(** ** What the reference promises *)

Lemma reference_numbered p es l :
  numbered 0 l -> numbered p es -> (p <= length l)%nat -> numbered 0 (reference p es l).
Proof.
  revert p. induction es as [|e es IH]; intros p Hl Hn Hp; cbn; [done|].
  assert (numbered 0 (take p l ++ e :: es)) as Hcut.
  { apply numbered_app; [by apply numbered_take|]. by rewrite length_take, Nat.min_l. }
  destruct (l !! p) as [old|] eqn:Hold; [|done]. case_decide; [|done].
  apply lookup_lt_Some in Hold. apply numbered_cons in Hn as [_ Hn]. by apply IH.
Qed.

Lemma reference_prefix p es l i : (i < p)%nat -> (p <= length l)%nat -> reference p es l !! i = l !! i.
Proof.
  revert p. induction es as [|e es IH]; intros p Hi Hp; cbn; [done|].
  assert ((take p l ++ e :: es) !! i = l !! i) as Hcut.
  { rewrite lookup_app_l by (rewrite length_take; lia). apply lookup_take_lt. done. }
  destruct (l !! p) as [old|] eqn:Hold; [|done]. case_decide; [|done].
  apply lookup_lt_Some in Hold. apply IH; lia.
Qed.

(** Every entry sent is in the new log, up to the identity of its term. *)
Lemma reference_has p es l i e :
  (p <= length l)%nat -> es !! i = Some e ->
  exists e', reference p es l !! (p + i)%nat = Some e' /\ eTerm e' = eTerm e.
Proof.
  revert p i. induction es as [|e0 es IH]; intros p i Hp Hi; cbn; [done|].
  assert (exists e', (take p l ++ e0 :: es) !! (p + i)%nat = Some e' /\ eTerm e' = eTerm e) as Hcut.
  { exists e. rewrite lookup_app_r by (rewrite length_take; lia).
    rewrite length_take, Nat.min_l by done. by replace (p + i - p)%nat with i by lia. }
  destruct (l !! p) as [old|] eqn:Hold; [|done]. case_decide as Ht; [|done].
  apply lookup_lt_Some in Hold as Hlt. destruct i as [|i]; cbn in Hi.
  - injection Hi as <-. exists old. split; [|done]. rewrite reference_prefix by lia.
    by rewrite Nat.add_0_r.
  - destruct (IH (S p) i) as (e' & He' & Ht'); [lia|done|]. exists e'.
    by replace (p + S i)%nat with (S p + i)%nat by lia.
Qed.

Lemma reference_length p es l :
  (p <= length l)%nat -> (p + length es <= length (reference p es l))%nat.
Proof.
  revert p. induction es as [|e es IH]; intros p Hp; cbn; [lia|].
  destruct (l !! p) as [old|] eqn:Hold; [case_decide|].
  - apply lookup_lt_Some in Hold. specialize (IH (S p)). lia.
  - rewrite length_app, length_take. cbn. lia.
  - rewrite length_app, length_take. cbn. lia.
Qed.

Lemma reference_length_le p es l :
  (p <= length l)%nat -> (length (reference p es l) <= length l `max` (p + length es))%nat.
Proof.
  revert p. induction es as [|e es IH]; intros p Hp; cbn; [lia|].
  destruct (l !! p) as [old|] eqn:Hold; [case_decide|].
  - apply lookup_lt_Some in Hold. specialize (IH (S p)). lia.
  - rewrite length_app, length_take. cbn. lia.
  - rewrite length_app, length_take. cbn. lia.
Qed.

(** A log that agrees with all that was sent is left alone: a late or repeated
    message never shortens it. *)
Lemma reference_id p es l :
  (forall i e, es !! i = Some e -> exists old, l !! (p + i)%nat = Some old /\ eTerm old = eTerm e) ->
  reference p es l = l.
Proof.
  revert p. induction es as [|e es IH]; intros p Hall; cbn; [done|].
  destruct (Hall 0%nat e eq_refl) as (old & Hold & Ht). rewrite Nat.add_0_r in Hold.
  rewrite Hold, decide_True by done. apply IH. intros i e' Hi.
  destruct (Hall (S i) e' Hi) as (o & Ho & Hot). exists o. by replace (S p + i)%nat with (p + S i)%nat by lia.
Qed.

(** Entries that are not contradicted stay. *)
Lemma reference_keeps p es l n i :
  (p <= length l)%nat -> (n <= length l)%nat ->
  (forall j e, es !! j = Some e -> (p + j < n)%nat ->
     exists old, l !! (p + j)%nat = Some old /\ eTerm old = eTerm e) ->
  (i < n)%nat -> reference p es l !! i = l !! i.
Proof.
  revert p. induction es as [|e es IH]; intros p Hp Hn Hall Hi; cbn; [done|].
  assert ((n <= p)%nat -> (take p l ++ e :: es) !! i = l !! i) as Hcut.
  { intros Hnp. rewrite lookup_app_l by (rewrite length_take; lia). apply lookup_take_lt. lia. }
  destruct (decide (n <= p)%nat) as [Hle|Hgt].
  - destruct (l !! p) as [old|] eqn:Hold; [|auto]. case_decide; [|auto].
    apply lookup_lt_Some in Hold. apply (reference_prefix (S p)); lia.
  - destruct (Hall 0%nat e eq_refl) as (old & Hold & Ht); [lia|]. rewrite Nat.add_0_r in Hold.
    rewrite Hold, decide_True by done. apply lookup_lt_Some in Hold.
    apply IH; try lia. intros j e' Hj Hlt.
    destruct (Hall (S j) e' Hj) as (o & Ho & Hot); [lia|].
    exists o. by replace (S p + j)%nat with (p + S j)%nat by lia.
Qed.

(** ** Applying entries *)

Definition apply_msg (e : LogEntry) : effect := Apply (mkApply true (eCommand e) (eIndex e)).

Lemma apply_from_spec n (i : nat) l :
  (i + n < length l)%nat ->
  apply_from n (Z.of_nat i) l = Ret (map apply_msg (take n (drop (S i) l))).
Proof.
  revert i. induction n as [|n IH]; intros i Hi; cbn; [done|].
  destruct (lookup_lt_is_Some_2 l (S i)) as [e He]; [lia|].
  replace (Z.of_nat i + 1) with (Z.of_nat (S i)) by lia.
  rewrite (go_index_nat _ _ _ He), bind_Ret_l, IH by lia. rewrite bind_Ret_l.
  by rewrite (drop_S l e (S i) He).
Qed.

(** A number a [float64] represents exactly. *)
Definition exact (z : Z) : Prop := - 2 ^ 53 <= z <= 2 ^ 53.

Definition node_ok (rf : Raft) : Prop :=
  log_ok (log rf) /\ zlen (log rf) <= 2 ^ 53 /\ 0 <= commitIndex rf.

(** Arguments whose entries are numbered from [PrevLogIndex + 1] on.  A
    [PrevLogTerm] of -1 asks for no check of the previous entry; with any other
    one [PrevLogIndex] is an index. *)
Definition args_wf (args : AppendEntriesArgs) : Prop :=
  -1 <= PrevLogIndex args /\ (PrevLogTerm args <> -1 -> 0 <= PrevLogIndex args) /\
  numbered (Z.to_nat (PrevLogIndex args + 1)) (Entries args) /\ exact (LeaderCommit args) /\
  PrevLogIndex args + zlen (Entries args) < 2 ^ 53.

(** The arguments a leader sends. *)
Definition args_ok (args : AppendEntriesArgs) : Prop :=
  0 <= PrevLogIndex args /\ PrevLogTerm args <> -1 /\
  numbered (S (Z.to_nat (PrevLogIndex args))) (Entries args) /\ exact (LeaderCommit args) /\
  PrevLogIndex args + zlen (Entries args) < 2 ^ 53.

Lemma args_ok_wf args : args_ok args -> args_wf args.
Proof.
  intros (Hp & _ & Hnum & Hex & Hlen). split_and!; [lia|done| |done|done].
  by replace (Z.to_nat (PrevLogIndex args + 1)) with (S (Z.to_nat (PrevLogIndex args))) by lia.
Qed.

Lemma log_ok_last l :
  log_ok l -> exists e, go_index l (zlen l - 1) = Ret e /\ last l = Some e /\ eIndex e = zlen l - 1.
Proof.
  intros [H0 Hn]. unfold zlen in *. destruct (lookup_lt_is_Some_2 l (length l - 1)) as [e He]; [lia|].
  exists e. split_and!.
  - replace (Z.of_nat (length l) - 1) with (Z.of_nat (length l - 1)) by lia. by apply go_index_nat.
  - by rewrite last_lookup_length.
  - rewrite (Hn _ _ He). lia.
Qed.

(** The new commit index, and the entries applied on the way to it. *)
Definition new_commit (leaderCommit : Z) (rf : Raft) : Z :=
  if decide (commitIndex rf < leaderCommit) then Z.min leaderCommit (zlen (log rf) - 1)
  else commitIndex rf.

Definition applied_between (a b : Z) (l : list LogEntry) : list effect :=
  map apply_msg (take (Z.to_nat (b - a)) (drop (S (Z.to_nat a)) l)).

Lemma advance_commit_spec leaderCommit rf :
  log_ok (log rf) -> zlen (log rf) <= 2 ^ 53 -> 0 <= commitIndex rf -> exact leaderCommit ->
  advance_commit leaderCommit rf =
    Ret (set_commitIndex (new_commit leaderCommit rf) rf,
         applied_between (commitIndex rf) (new_commit leaderCommit rf) (log rf)).
Proof.
  intros Hl Hsz Hc Hex. unfold advance_commit, new_commit, applied_between.
  destruct (decide (commitIndex rf < leaderCommit)) as [Hlt|Hge].
  2:{ rewrite Z.sub_diag. cbn. by destruct rf. }
  destruct (log_ok_last _ Hl) as (e & He & _ & Hi). rewrite He, bind_Ret_l, Hi.
  destruct Hl as [H0 _]. unfold exact in Hex. rewrite fmin_exact by lia.
  set (c := Z.min leaderCommit (zlen (log rf) - 1)). unfold zlen in *.
  destruct (Z_of_nat_complete (commitIndex rf) Hc) as [k Hk]. rewrite Hk, Nat2Z.id.
  destruct (decide (c <= Z.of_nat k)) as [Hle|Hgt].
  - by replace (Z.to_nat (c - Z.of_nat k)) with 0%nat by lia.
  - by rewrite apply_from_spec by lia.
Qed.

(** ** The shape of [AppendEntries] *)

(** Lines 93-100. *)
Definition steps_down (args : AppendEntriesArgs) (rf : Raft) : Prop :=
  currentTerm rf < aeTerm args \/ state rf = CANDIDATE.

#[export] Instance steps_down_dec args rf : Decision (steps_down args rf).
Proof. unfold steps_down. apply _. Defined.

Definition accepts (args : AppendEntriesArgs) (l : list LogEntry) : Prop :=
  exists e, l !! Z.to_nat (PrevLogIndex args) = Some e /\ eTerm e = PrevLogTerm args.

#[export] Instance accepts_dec args l : Decision (accepts args l).
Proof.
  refine (match l !! Z.to_nat (PrevLogIndex args) as o
    return Decision (exists e, o = Some e /\ eTerm e = PrevLogTerm args) with
  | Some e => cast_if (decide (eTerm e = PrevLogTerm args)) | None => right _ end); naive_solver.
Defined.

(** The check of the previous entry (lines 104-110): none for [PrevLogTerm] -1. *)
Definition admits (args : AppendEntriesArgs) (l : list LogEntry) : Prop :=
  PrevLogTerm args = -1 \/ accepts args l.

#[export] Instance admits_dec args l : Decision (admits args l).
Proof. unfold admits. apply _. Defined.

Definition notified (rf rf' : Raft) : Prop := exists n, rf' = set_rpcCh n rf.

Lemma notify_Ret rf : 
  (state rf = FOLLOWER -> rpcCh rf < numPeers rf) -> exists n, notify rf = Ret (set_rpcCh n rf).
Proof.
  intros H. unfold notify. destruct (decide (state rf = FOLLOWER)) as [Hs|Hs].
  - rewrite decide_True by auto. by eexists.
  - exists (rpcCh rf). by destruct rf.
Qed.

Lemma mismatch_spec args l :
  (PrevLogTerm args <> -1 -> 0 <= PrevLogIndex args) ->
  (if decide (PrevLogTerm args <> -1) then
     if decide (zlen l - 1 < PrevLogIndex args) then Ret true
     else e ← go_index l (PrevLogIndex args); Ret (bool_decide (eTerm e <> PrevLogTerm args))
   else Ret false) = Ret (negb (bool_decide (admits args l))).
Proof.
  intros H0. destruct (decide (PrevLogTerm args <> -1)) as [Ht|Ht].
  2:{ rewrite bool_decide_true; [done|]. left. destruct (decide (PrevLogTerm args = -1)); tauto. }
  specialize (H0 Ht). assert (bool_decide (admits args l) = bool_decide (accepts args l)) as ->.
  { apply bool_decide_ext. unfold admits. tauto. }
  destruct (decide (zlen l - 1 < PrevLogIndex args)) as [Hlt|Hge].
  - rewrite bool_decide_false; [done|]. intros (e & He & _). apply lookup_lt_Some in He.
    unfold zlen in Hlt. lia.
  - destruct (go_index_total l (PrevLogIndex args)) as [e He]; [lia|]. rewrite He, bind_Ret_l.
    apply go_index_Ret in He as [_ He]. f_equal.
    destruct (decide (eTerm e = PrevLogTerm args)) as [Heq|Hne].
    + rewrite bool_decide_false by (intros Hn; by apply Hn). rewrite (bool_decide_true (accepts args l)); [done|by exists e].
    + rewrite bool_decide_true by done. rewrite bool_decide_false; [done|].
      intros (e' & He' & Ht'). congruence.
Qed.

(** The server after the term check, before the log is looked at. *)
Definition adopt (args : AppendEntriesArgs) (rf : Raft) : Raft :=
  if decide (steps_down args rf) then set_state FOLLOWER (set_currentTerm (aeTerm args) rf) else rf.

Definition adopt_effs (args : AppendEntriesArgs) (rf : Raft) : list effect :=
  if decide (steps_down args rf /\ state rf <> FOLLOWER) then [GoToFollower] else [].

Lemma adopt_effs_no_apply args rf m : Apply m ∉ adopt_effs args rf.
Proof.
  unfold adopt_effs. destruct (decide _); [|apply not_elem_of_nil].
  rewrite list_elem_of_singleton. done.
Qed.

Lemma adopt_fields args rf :
  log (adopt args rf) = log rf /\ me (adopt args rf) = me rf /\
  commitIndex (adopt args rf) = commitIndex rf /\ votedFor (adopt args rf) = votedFor rf.
Proof. unfold adopt. by destruct (decide _). Qed.

Lemma adopt_term args rf :
  currentTerm rf <= aeTerm args -> currentTerm (adopt args rf) = aeTerm args.
Proof.
  intros Hle. unfold adopt. destruct (decide (steps_down args rf)) as [|Hs]; [done|].
  assert (~ currentTerm rf < aeTerm args) by (intros ?; apply Hs; by left). lia.
Qed.

(** The loops that merge the entries into the log, when these continue it. *)
Lemma reconcile_ok p es l :
  log_ok l -> numbered p es -> (p <= length l)%nat ->
  reconcile es l = Ret (reference p es l) /\ log_ok (reference p es l) /\
  zlen (reference p es l) <= Z.max (zlen l) (Z.of_nat p + zlen es).
Proof.
  intros Hl Hnum Hp. split; [apply reconcile_spec; [apply Hl|done|done]|].
  pose proof (reference_length p es l Hp) as Hge. pose proof (reference_length_le p es l Hp) as Hle.
  split; [|unfold zlen; lia]. apply log_ok_numbered. apply log_ok_numbered in Hl as [H0 Hnl]. split.
  - destruct es; [done|]. unfold zlen. cbn [length] in *. lia.
  - by apply reference_numbered.
Qed.

(** [AppendEntries] on arguments of every kind: the entries of an unchecked
    message must not leave a gap in the log. *)
Lemma AppendEntries_shape args rf :
  node_ok rf -> args_wf args -> (PrevLogTerm args = -1 -> PrevLogIndex args < zlen (log rf)) ->
  (state rf = FOLLOWER -> rpcCh rf < numPeers rf) ->
  exists n,
  AppendEntries args rf =
    let rf0 := set_rpcCh n rf in
    let hb := bool_decide (Entries args = []) in
    if decide (aeTerm args < currentTerm rf) then
      Ret (rf0, mkAEReply (me rf) (currentTerm rf) 0 hb false, [])
    else
      let rf1 := adopt args rf0 in
      if decide (admits args (log rf)) then
        let rf2 := set_log (reference (Z.to_nat (PrevLogIndex args + 1)) (Entries args) (log rf)) rf1 in
        let c := new_commit (LeaderCommit args) rf2 in
        Ret (set_commitIndex c rf2,
             mkAEReply (me rf) (currentTerm rf1) (zlen (log rf2) - 1) hb true,
             adopt_effs args rf ++ applied_between (commitIndex rf) c (log rf2))
      else Ret (rf1, mkAEReply (me rf) (currentTerm rf1) 0 hb false, adopt_effs args rf).
Proof.
  intros (Hl & Hsz & Hc) (Hp & Hpt & Hnum & Hex & Hlen) Hgap Hn.
  destruct (notify_Ret rf Hn) as [n Hnot]. exists n. unfold AppendEntries.
  rewrite Hnot, bind_Ret_l. cbv zeta. set (rf0 := set_rpcCh n rf).
  change (currentTerm rf0) with (currentTerm rf). change (me rf0) with (me rf).
  destruct (decide (aeTerm args < currentTerm rf)) as [Hlt|Hge]; [done|].
  match goal with |- context [let '(x, y) := ?t in _] =>
    assert (t = (adopt args rf0, adopt_effs args rf)) as -> end.
  { unfold adopt, adopt_effs. destruct (decide (steps_down args rf0)) as [Hs|Hs].
    - rewrite decide_True by exact Hs.
      change (state (set_currentTerm (aeTerm args) rf0)) with (state rf).
      destruct (decide (state rf <> FOLLOWER)) as [Hf|Hf].
      + by rewrite decide_True by (split; [exact Hs|done]).
      + rewrite decide_False by (by intros [_ ?]). f_equal.
        destruct (decide (state rf = FOLLOWER)) as [Hfo|]; [|by destruct Hf].
        unfold set_state, set_currentTerm, rf0. cbn. by rewrite Hfo.
    - rewrite decide_False by exact Hs. by rewrite decide_False by (intros [Hs' _]; exact (Hs Hs')). }
  destruct (adopt_fields args rf0) as (Hlog & Hme & Hci & _).
  rewrite Hlog, mismatch_spec, bind_Ret_l by done. rewrite Hme.
  change (log rf0) with (log rf). change (me rf0) with (me rf).
  destruct (decide (admits args (log rf))) as [Ha|Ha].
  2:{ by rewrite bool_decide_false. }
  rewrite bool_decide_true by done. cbn [negb].
  assert (Z.to_nat (PrevLogIndex args + 1) <= length (log rf))%nat as Hple.
  { destruct Ha as [Ha|(e & He & _)]; [specialize (Hgap Ha); unfold zlen in Hgap; lia|].
    apply lookup_lt_Some in He. lia. }
  destruct (reconcile_ok _ _ _ Hl Hnum Hple) as (Hrec & Hl' & Hsz'). rewrite Hrec, bind_Ret_l.
  set (l' := reference _ _ _) in *.
  rewrite (advance_commit_spec (LeaderCommit args) (set_log l' (adopt args rf0)));
    [|exact Hl'|cbn; lia|cbn; by rewrite Hci|exact Hex].
  rewrite bind_Ret_l. cbn [commitIndex log set_log set_commitIndex me currentTerm].
  by rewrite Hci, Hme.
Qed.

(** The same for the messages a leader sends, which are all checked. *)
Lemma AppendEntries_cases args rf :
  node_ok rf -> args_ok args -> (state rf = FOLLOWER -> rpcCh rf < numPeers rf) ->
  exists n,
  AppendEntries args rf =
    let rf0 := set_rpcCh n rf in
    let hb := bool_decide (Entries args = []) in
    if decide (aeTerm args < currentTerm rf) then
      Ret (rf0, mkAEReply (me rf) (currentTerm rf) 0 hb false, [])
    else
      let rf1 := adopt args rf0 in
      if decide (accepts args (log rf)) then
        let rf2 := set_log (reference (S (Z.to_nat (PrevLogIndex args))) (Entries args) (log rf)) rf1 in
        let c := new_commit (LeaderCommit args) rf2 in
        Ret (set_commitIndex c rf2,
             mkAEReply (me rf) (currentTerm rf1) (zlen (log rf2) - 1) hb true,
             adopt_effs args rf ++ applied_between (commitIndex rf) c (log rf2))
      else Ret (rf1, mkAEReply (me rf) (currentTerm rf1) 0 hb false, adopt_effs args rf).
Proof.
  intros Hok Ha Hn. pose proof Ha as (Hp & Hpt & _).
  destruct (AppendEntries_shape args rf Hok (args_ok_wf _ Ha) (fun H => False_ind _ (Hpt H)) Hn)
    as [n ->]. exists n. cbv zeta.
  replace (Z.to_nat (PrevLogIndex args + 1)) with (S (Z.to_nat (PrevLogIndex args))) by lia.
  destruct (decide (aeTerm args < currentTerm rf)); [done|].
  destruct (decide (admits args (log rf))) as [[?|?]|Hno]; [done|by rewrite decide_True|].
  rewrite decide_False; [done|]. intros ?. apply Hno. by right.
Qed.

(** The entries applied, by index. *)
Lemma applied_between_seq a b l :
  0 <= a -> a <= b < zlen l -> numbered 0 l ->
  applied_between a b l =
    map (fun i => Apply (mkApply true (value_or INil (fmap eCommand (go_index l i))) i))
      (seqZ (a + 1) (b - a)).
Proof.
  intros Ha Hb Hn. unfold applied_between, zlen in *.
  destruct (Z_of_nat_complete a Ha) as [k ->]. rewrite Nat2Z.id.
  destruct (Z_of_nat_complete (b - Z.of_nat k)) as [n Hbn]; [lia|]. rewrite Hbn, Nat2Z.id.
  apply list_eq. intros i. change (@map LogEntry effect) with (@fmap list _ LogEntry effect).
  change (@map Z effect) with (@fmap list _ Z effect). rewrite !list_lookup_fmap.
  destruct (decide (i < n)%nat) as [Hi|Hi].
  - rewrite lookup_take_lt, lookup_drop by done. rewrite lookup_seqZ_lt by lia.
    destruct (lookup_lt_is_Some_2 l (S k + i)) as [e He]; [lia|]. rewrite He. cbn.
    replace (Z.of_nat k + 1 + Z.of_nat i) with (Z.of_nat (S k + i)) by lia.
    rewrite (go_index_nat _ _ _ He). cbn. unfold apply_msg. by rewrite (Hn _ _ He).
  - rewrite lookup_take_ge by lia. by rewrite lookup_seqZ_ge by lia.
Qed.
