(* ===== verification/RaftTheorems.v ===== *)
(** * RaftTheorems: the properties of one Raft server

    [AppendEntries] against the reference consistency rule, application in
    order, votes, elections, commits, and what a leader sends. *)
From S2P Require Import Prelude RaftNode RaftProps.

(** A message that contradicts no committed entry: those it carries below the
    commit index are already there. *)
Definition respects_committed (args : AppendEntriesArgs) (rf : Raft) : Prop :=
  commitIndex rf < zlen (log rf) /\
  forall i e, Entries args !! i = Some e ->
    PrevLogIndex args + 1 + Z.of_nat i <= commitIndex rf ->
    exists old, log rf !! Z.to_nat (PrevLogIndex args + 1 + Z.of_nat i) = Some old /\
                eTerm old = eTerm e.

(** C9 [AppendEntries] implements the consistency rule of Raft, on every branch.
    A stale term is refused and changes nothing.  Otherwise the server adopts
    the term.  If PrevLogTerm is -1 the previous entry is not looked at and the
    message is accepted; if not, it is accepted exactly if the server has an
    entry at PrevLogIndex and of that term.  A refusal leaves the log and the
    commit index.  After an acceptance the log is the reference merge of the
    entries after PrevLogIndex, the commit index follows LeaderCommit up to the
    last entry, and what is applied is exactly the entries from the old commit
    index to the new one, in order.  It never panics.  The entries are numbered
    from PrevLogIndex + 1, and those of an unchecked message leave no gap; the
    notification channel of a follower has room (without, the handler waits),
    and indexes are below [2 ^ 53], where [float64] is exact. *)
Theorem AppendEntries_reconciles args rf :
  node_ok rf -> args_wf args -> (PrevLogTerm args = -1 -> PrevLogIndex args < zlen (log rf)) ->
  (state rf = FOLLOWER -> rpcCh rf < numPeers rf) ->
  exists rf' reply effs, AppendEntries args rf = Ret (rf', reply, effs) /\
    FollowerId reply = me rf /\ aerTerm reply = currentTerm rf' /\ votedFor rf' = votedFor rf /\
    currentTerm rf' = Z.max (currentTerm rf) (aeTerm args) /\
    (Success reply = true <->
       currentTerm rf <= aeTerm args /\ (PrevLogTerm args = -1 \/ accepts args (log rf))) /\
    if Success reply then
      log rf' = reference (Z.to_nat (PrevLogIndex args + 1)) (Entries args) (log rf) /\
      commitIndex rf' = (if decide (commitIndex rf < LeaderCommit args)
                         then Z.min (LeaderCommit args) (zlen (log rf') - 1) else commitIndex rf) /\
      aerLastLogIndex reply = zlen (log rf') - 1 /\
      effs = adopt_effs args rf ++ applied_between (commitIndex rf) (commitIndex rf') (log rf')
    else log rf' = log rf /\ commitIndex rf' = commitIndex rf /\ (forall m, Apply m ∉ effs).
Proof.
  intros Hok Ha Hgap Hn. destruct (AppendEntries_shape args rf Hok Ha Hgap Hn) as [n ->]. cbv zeta.
  destruct (decide (aeTerm args < currentTerm rf)) as [Hlt|Hge].
  { eexists _, _, _. split; [reflexivity|]. cbn. split_and!; try done; [lia|split; [done|lia]|].
    intros m. apply not_elem_of_nil. }
  set (rf0 := set_rpcCh n rf). destruct (adopt_fields args rf0) as (Hl & _ & Hc & Hv).
  assert (currentTerm (adopt args rf0) = Z.max (currentTerm rf) (aeTerm args)) as Hct.
  { rewrite (adopt_term args rf0); [|cbn]; lia. }
  destruct (decide (admits args (log rf))) as [Hacc|Hacc]; eexists _, _, _; (split; [reflexivity|]);
    cbn; rewrite ?Hct, ?Hv; split_and!; try done.
  - split; [|done]. intros _. split; [lia|done].
  - unfold new_commit. cbn. by rewrite Hc.
  - by split; [|intros [_ ?]].
  - intros m. apply adopt_effs_no_apply.
Qed.

(** What a checked message does to the log: nothing, or the merge. *)
Lemma AppendEntries_effect args rf rf' reply effs :
  node_ok rf -> args_ok args -> (state rf = FOLLOWER -> rpcCh rf < numPeers rf) ->
  AppendEntries args rf = Ret (rf', reply, effs) ->
  (log rf' = log rf /\ commitIndex rf' = commitIndex rf /\ (forall m, Apply m ∉ effs)) \/
  (accepts args (log rf) /\
   log rf' = reference (S (Z.to_nat (PrevLogIndex args))) (Entries args) (log rf) /\
   commitIndex rf' = (if decide (commitIndex rf < LeaderCommit args)
                      then Z.min (LeaderCommit args) (zlen (log rf') - 1) else commitIndex rf) /\
   effs = adopt_effs args rf ++ applied_between (commitIndex rf) (commitIndex rf') (log rf')).
Proof.
  intros Hok Ha Hn Hrun. destruct (AppendEntries_cases args rf Hok Ha Hn) as [n Hcase].
  rewrite Hrun in Hcase. cbv zeta in Hcase.
  destruct (adopt_fields args (set_rpcCh n rf)) as (Hl & _ & Hc & _).
  destruct (decide (aeTerm args < currentTerm rf)).
  { injection Hcase as -> _ ->. left. split_and!; try done. intros m. apply not_elem_of_nil. }
  destruct (decide (accepts args (log rf))) as [Hacc|Hacc]; injection Hcase as -> _ ->.
  - right. split_and!; try done. unfold new_commit. cbn. by rewrite Hc.
  - left. split_and!; try done. intros m. apply adopt_effs_no_apply.
Qed.

(** C22 Safety of what was applied: when the message contradicts no committed
    entry, the commit index does not move back, no entry up to the old commit
    index changes, every server state stays well-formed, and the messages sent
    on the apply channel carry the indexes that follow the old commit index,
    one by one, with the commands of the log at these indexes. *)
Theorem AppendEntries_applies_in_order args rf rf' reply effs :
  node_ok rf -> args_ok args -> respects_committed args rf ->
  AppendEntries args rf = Ret (rf', reply, effs) ->
  log_ok (log rf') /\ commitIndex rf <= commitIndex rf' < zlen (log rf') /\
  (forall i, Z.of_nat i <= commitIndex rf -> log rf' !! i = log rf !! i) /\
  exists pre, effs = pre ++ map (fun i => Apply (mkApply true (value_or INil (fmap eCommand (go_index (log rf') i))) i))
                              (seqZ (commitIndex rf + 1) (commitIndex rf' - commitIndex rf)) /\
    forall m, Apply m ∉ pre.
Proof.
  intros Hok Ha Hresp Hrun.
  assert (state rf = FOLLOWER -> rpcCh rf < numPeers rf) as Hn.
  { intros Hf. unfold AppendEntries, notify in Hrun. rewrite decide_True in Hrun by done.
    destruct (decide (rpcCh rf < numPeers rf)); done. }
  destruct (AppendEntries_effect args rf rf' reply effs Hok Ha Hn Hrun)
    as [(-> & Hc' & Hno)|(Hacc & Hl' & Hc' & ->)];
    destruct Hok as (Hl & Hsz & Hc), Hresp as [Hcl Hresp].
  { rewrite Hc'. split_and!; try done.
    exists effs. rewrite Z.sub_diag. cbn. by rewrite app_nil_r. }
  destruct Ha as (Hp & Hpt & Hnum & Hex & Hlen).
  destruct Hacc as (e0 & He0 & _). apply lookup_lt_Some in He0.
  pose proof (proj1 (log_ok_numbered _) Hl) as [Hl0 Hnl].
  assert (numbered 0 (log rf')) as Hnum' by (rewrite Hl'; apply reference_numbered; [done|done|lia]).
  assert (forall i, Z.of_nat i <= commitIndex rf -> log rf' !! i = log rf !! i) as Hkeep.
  { intros i Hi. rewrite Hl'. apply (reference_keeps _ _ _ (S (Z.to_nat (commitIndex rf)))); try lia.
    - unfold zlen in Hcl. lia.
    - intros j e Hj Hlt. destruct (Hresp j e Hj) as (old & Hold & Ht); [lia|].
      exists old. split; [|done]. rewrite <-Hold. f_equal. lia. }
  assert (commitIndex rf < zlen (log rf')) as Hcl'.
  { destruct (lookup_lt_is_Some_2 (log rf) (Z.to_nat (commitIndex rf))) as [e He]; [unfold zlen in Hcl; lia|].
    rewrite <-(Hkeep (Z.to_nat (commitIndex rf))) in He by lia. apply lookup_lt_Some in He. unfold zlen. lia. }
  assert (commitIndex rf <= commitIndex rf' < zlen (log rf')) as Hcc
    by (rewrite Hc'; destruct (decide (commitIndex rf < LeaderCommit args)); lia).
  split_and!; try done; [by apply log_ok_numbered; split; [lia|]|lia..|].
  exists (adopt_effs args rf). split; [f_equal|].
  - by apply applied_between_seq.
  - intros m. apply adopt_effs_no_apply.
Qed.

(** ** Votes *)

(** The candidate's log is at least as up to date: later last term, or the same
    last term and no shorter. *)
Definition up_to_date (args : RequestVoteArgs) (l : list LogEntry) : Prop :=
  forall e, last l = Some e ->
    eTerm e < LastLogTerm args \/ (LastLogTerm args = eTerm e /\ zlen l - 1 <= LastLogIndex args).

Lemma isCandUpToDate_spec args rf : isCandUpToDate args rf = true <-> up_to_date args (log rf).
Proof.
  unfold isCandUpToDate, up_to_date. destruct (last (log rf)) as [e|]; [|done].
  rewrite orb_true_iff, andb_true_iff, !bool_decide_eq_true. naive_solver.
Qed.

Definition grants (args : RequestVoteArgs) (rf : Raft) : Prop :=
  currentTerm rf <= rvTerm args /\ (votedFor rf = -1 \/ votedFor rf = CandidateId args) /\
  up_to_date args (log rf).

Lemma RequestVote_cases args rf :
  (state rf = FOLLOWER -> rpcCh rf < numPeers rf) ->
  exists rf' reply effs, RequestVote args rf = Ret (rf', reply, effs) /\
    log rf' = log rf /\ commitIndex rf' = commitIndex rf /\
    (numPeers rf' = numPeers rf /\ me rf' = me rf) /\
    currentTerm rf' = Z.max (currentTerm rf) (rvTerm args) /\ rvrTerm reply = currentTerm rf' /\
    state rf' = (if decide (currentTerm rf < rvTerm args) then FOLLOWER else state rf) /\
    effs = (if decide (currentTerm rf < rvTerm args /\ state rf <> FOLLOWER) then [GoToFollower] else []) /\
    (VoteGranted reply = true <-> grants args rf) /\
    votedFor rf' = (if VoteGranted reply then CandidateId args else votedFor rf).
Proof.
  intros Hn. destruct (notify_Ret rf Hn) as [n Hnot]. unfold RequestVote. rewrite Hnot, bind_Ret_l.
  set (rf0 := set_rpcCh n rf). change (currentTerm rf0) with (currentTerm rf).
  unfold grants. setoid_rewrite <-isCandUpToDate_spec.
  destruct (decide (currentTerm rf <= rvTerm args)) as [Hle|Hgt].
  2:{ eexists _, _, _. split; [reflexivity|]. cbn. split_and!; try done; try lia.
      all: first [by rewrite decide_False by lia | split; [done|lia]]. }
  assert (exists rf1 effs1, (if decide (currentTerm rf < rvTerm args) then
      if decide (state (set_currentTerm (rvTerm args) rf0) <> FOLLOWER)
      then (set_state FOLLOWER (set_currentTerm (rvTerm args) rf0), [GoToFollower])
      else (set_currentTerm (rvTerm args) rf0, []) else (rf0, [])) = (rf1, effs1) /\
      log rf1 = log rf /\ commitIndex rf1 = commitIndex rf /\
      (numPeers rf1 = numPeers rf /\ me rf1 = me rf) /\
      votedFor rf1 = votedFor rf /\ currentTerm rf1 = Z.max (currentTerm rf) (rvTerm args) /\
      state rf1 = (if decide (currentTerm rf < rvTerm args) then FOLLOWER else state rf) /\
      effs1 = (if decide (currentTerm rf < rvTerm args /\ state rf <> FOLLOWER) then [GoToFollower] else []))
    as (rf1 & effs1 & Heq & H1 & H2 & H3 & H4 & H5 & H6 & H7).
  { change (state (set_currentTerm (rvTerm args) rf0)) with (state rf).
    destruct (decide (currentTerm rf < rvTerm args)) as [Hlt|Hge].
    - destruct (decide (state rf = FOLLOWER)) as [Hf|Hf].
      + rewrite decide_False by (intros H; by apply H). eexists _, _. split; [reflexivity|]. cbn.
        split_and!; try done; [lia|]. by rewrite decide_False by (by intros [_ ?]).
      + rewrite decide_True by done. eexists _, _. split; [reflexivity|]. cbn.
        split_and!; try done; [lia|]. by rewrite decide_True.
    - eexists _, _. split; [reflexivity|]. cbn. split_and!; try done; [lia|].
      by rewrite decide_False by (by intros [? _]). }
  rewrite Heq. assert (isCandUpToDate args rf1 = isCandUpToDate args rf) as Hup
    by (unfold isCandUpToDate; by rewrite H1).
  rewrite Hup, H4.
  destruct (decide (votedFor rf = -1 \/ votedFor rf = CandidateId args)) as [Hv|Hv];
    [destruct (isCandUpToDate args rf) eqn:Hu|]; eexists _, _, _; (split; [reflexivity|]); cbn;
    rewrite ?H1, ?H2, ?H3, ?H4, ?H5; split_and!; try done; naive_solver.
Qed.

(** C24 [RequestVote] on every branch: the vote is given exactly when the
    candidate's term is not stale, the server has voted for nobody else since
    it last cleared its vote, and the candidate's log is at least as up to
    date; a newer term is adopted and makes the server a follower whether or
    not it votes; the log and the commit index never change. *)
Theorem RequestVote_grants args rf :
  (state rf = FOLLOWER -> rpcCh rf < numPeers rf) ->
  exists rf' reply effs, RequestVote args rf = Ret (rf', reply, effs) /\
    (VoteGranted reply = true <-> grants args rf) /\
    votedFor rf' = (if VoteGranted reply then CandidateId args else votedFor rf) /\
    currentTerm rf' = Z.max (currentTerm rf) (rvTerm args) /\ rvrTerm reply = currentTerm rf' /\
    (currentTerm rf < rvTerm args -> state rf' = FOLLOWER) /\
    (rvTerm args <= currentTerm rf -> state rf' = state rf /\ effs = []) /\
    log rf' = log rf /\ commitIndex rf' = commitIndex rf.
Proof.
  intros Hn. destruct (RequestVote_cases args rf Hn)
    as (rf' & reply & effs & Hr & H1 & H2 & H3 & H4 & H5 & H6 & H7 & H8 & H9).
  exists rf', reply, effs. split_and!; try done.
  - intros Hlt. by rewrite H6, decide_True.
  - intros Hge. rewrite H6, H7. by rewrite !decide_False by lia.
Qed.

(** RPCs handled one after the other; the candidates that got the vote. *)
Fixpoint handle_all (rpcs : list (RequestVoteArgs + AppendEntriesArgs)) (rf : Raft)
    : outcome (Raft * list Z) :=
  match rpcs with
  | [] => Ret (rf, [])
  | inl args :: rpcs =>
      '(rf, reply, _) ← RequestVote args rf;
      '(rf, granted) ← handle_all rpcs rf;
      Ret (rf, if VoteGranted reply then CandidateId args :: granted else granted)
  | inr args :: rpcs =>
      '(rf, _, _) ← AppendEntries args rf;
      handle_all rpcs rf
  end.

Lemma RequestVote_Ret args rf rf' reply effs :
  RequestVote args rf = Ret (rf', reply, effs) -> state rf = FOLLOWER -> rpcCh rf < numPeers rf.
Proof.
  intros Hr Hs. unfold RequestVote, notify in Hr. rewrite decide_True in Hr by done.
  destruct (decide (rpcCh rf < numPeers rf)); done.
Qed.

Lemma AppendEntries_votedFor args rf rf' reply effs :
  AppendEntries args rf = Ret (rf', reply, effs) -> votedFor rf' = votedFor rf.
Proof.
  unfold AppendEntries. intros H. bind_inv H. assert (votedFor r = votedFor rf) as Hv.
  { unfold notify in E. repeat (destruct (decide _); try done); by injection E as <-. }
  rewrite <-Hv. destruct (decide (aeTerm args < currentTerm r)); [by injection H as <- _ _|].
  match type of H with (let '(x, y) := ?t in _) = _ =>
    assert (votedFor t.1 = votedFor r) as Ht by (repeat destruct (decide _); done);
    destruct t as [r1 effs1] end.
  cbn in Ht. rewrite <-Ht. bind_inv H. destruct r0; [by injection H as <- _ _|].
  bind_inv H. bind_inv H. destruct r2 as [r2 ap]. injection H as <- _ _.
  unfold advance_commit in E2.
  match type of E2 with context [decide ?P] => destruct (decide P) end; [|by injection E2 as <- _].
  bind_inv E2. bind_inv E2. by injection E2 as <- _.
Qed.

(** A vote that is given stays. *)
Lemma handle_all_voted rpcs rf rf' granted :
  (forall args, inl args ∈ rpcs -> CandidateId args <> -1) ->
  handle_all rpcs rf = Ret (rf', granted) ->
  (forall c, c ∈ granted -> c = votedFor rf') /\
  (votedFor rf <> -1 -> votedFor rf' = votedFor rf).
Proof.
  revert rf rf' granted. induction rpcs as [|[args|args] rpcs IH]; intros rf rf' granted Hid Hh; cbn in Hh.
  - injection Hh as <- <-. split; [|done]. by intros c Hc%not_elem_of_nil.
  - bind_inv Hh. destruct r as [[rf1 reply] effs]. bind_inv Hh. destruct r as [rf2 gr].
    injection Hh as <- <-. destruct (RequestVote_cases args rf (RequestVote_Ret _ _ _ _ _ E))
      as (? & ? & ? & Hr & _ & _ & _ & _ & _ & _ & _ & Hg & Hv).
    rewrite E in Hr. injection Hr as <- <- <-.
    destruct (IH rf1 rf2 gr) as [Hall Hkeep]; [|done|].
    { intros a Ha. apply Hid. by right. }
    assert (CandidateId args <> -1) as Hc by (apply Hid; left).
    destruct (VoteGranted reply) eqn:Hgr.
    + rewrite Hv in Hkeep. split; [intros c [->|?]%elem_of_cons; [by rewrite Hkeep|auto]|].
      intros Hvf. destruct (proj1 Hg eq_refl) as (_ & Hor & _). rewrite Hkeep by done. naive_solver.
    + split; [done|]. by rewrite <-Hv.
  - bind_inv Hh. destruct r as [[rf1 reply] effs]. apply AppendEntries_votedFor in E.
    rewrite <-E. apply (IH rf1); [|done]. intros a Ha. apply Hid. by right.
Qed.

(** A server votes for at most one candidate for as long as it does not clear
    its vote: among any sequence of RPCs handled between two runs of
    [toFollower], whatever their terms, all votes go to the same candidate, the
    one [votedFor] names afterwards.  (That the terms do not matter is stricter
    than Raft, which lets a server vote again in a new term.) *)
Theorem votes_for_one_candidate rpcs rf rf' granted :
  (forall args, inl args ∈ rpcs -> CandidateId args <> -1) ->
  handle_all rpcs rf = Ret (rf', granted) ->
  forall c, c ∈ granted -> c = votedFor rf' /\ (votedFor rf = -1 \/ votedFor rf = c).
Proof.
  intros Hid Hh c Hc. destruct (handle_all_voted rpcs rf rf' granted Hid Hh) as [Hall Hkeep].
  rewrite (Hall c Hc). split; [done|]. destruct (decide (votedFor rf = -1)); [by left|].
  right. by rewrite Hkeep.
Qed.

(** ** The leader: what it commits and what it sends *)

Definition acked (index : Z) (rf : Raft) (si : Z) : bool :=
  match matchIndex rf !! Z.to_nat si with Some m => bool_decide (index <= m) | None => false end.

Definition matching (index : Z) (rf : Raft) : list Z :=
  filter (fun si => acked index rf si = true) (others rf).

Lemma others_in rf si : si ∈ others rf <-> 0 <= si < numPeers rf /\ si <> me rf.
Proof. unfold others. rewrite list_elem_of_filter, elem_of_seqZ. lia. Qed.

Lemma count_match_spec index rf l :
  (forall si, si ∈ l -> 0 <= si < zlen (matchIndex rf)) ->
  count_match index l rf =
    Ret (zlen (filter (fun si => acked index rf si = true) l)).
Proof.
  induction l as [|si l IH]; intros Hl; cbn [count_match]; [done|].
  destruct (go_index_total (matchIndex rf) si) as [m Hm]; [apply Hl; left|].
  rewrite Hm, bind_Ret_l, IH by (intros; apply Hl; by right). rewrite bind_Ret_l.
  apply go_index_Ret in Hm as [_ Hm]. rewrite filter_cons.
  assert (acked index rf si = bool_decide (index <= m)) as -> by (unfold acked; by rewrite Hm).
  destruct (decide (index <= m)) as [Hle|Hgt].
  - rewrite bool_decide_true, decide_True by done. f_equal. unfold zlen. cbn. lia.
  - by rewrite bool_decide_false, decide_False by done.
Qed.

Lemma apply_range a b l :
  0 <= a -> b < zlen l ->
  apply_from (Z.to_nat (b - a)) a l = Ret (applied_between a b l).
Proof.
  intros Ha Hb. unfold applied_between, zlen in *. destruct (Z_of_nat_complete a Ha) as [k ->].
  rewrite Nat2Z.id. destruct (decide (b <= Z.of_nat k)).
  - by replace (Z.to_nat (b - Z.of_nat k)) with 0%nat by lia.
  - by rewrite apply_from_spec by lia.
Qed.

Lemma commitAt_cases index rf e :
  zlen (matchIndex rf) = numPeers rf -> 0 <= lastApplied rf -> 0 <= commitIndex rf < zlen (log rf) ->
  commitIndex rf < index -> log rf !! Z.to_nat index = Some e ->
  commitAt index rf =
    let c := if decide (numPeers rf < 2 * (1 + zlen (matching index rf)) /\ eTerm e = currentTerm rf)
             then index else commitIndex rf in
    Ret (set_lastApplied (Z.max (lastApplied rf) c) (set_commitIndex c rf),
         applied_between (lastApplied rf) c (log rf)).
Proof.
  intros Hm Hla Hc Hgt He. unfold commitAt. rewrite decide_False by lia.
  assert (go_index (log rf) index = Ret e) as -> by (apply go_index_Ret; split; [lia|done]).
  rewrite bind_Ret_l, count_match_spec by (intros si [Hsi _]%others_in; lia).
  rewrite bind_Ret_l. fold (matching index rf). apply lookup_lt_Some in He as Hlt.
  assert (numPeers rf / 2 < 1 + zlen (matching index rf) <-> numPeers rf < 2 * (1 + zlen (matching index rf)))
    as Hmaj by (pose proof (Z.div_mod (numPeers rf) 2); pose proof (Z.mod_pos_bound (numPeers rf) 2); lia).
  destruct (decide (numPeers rf / 2 < 1 + zlen (matching index rf) /\ eTerm e = currentTerm rf)) as [Hd|Hd];
    rewrite Hmaj in Hd; cbv zeta.
  - rewrite (decide_True (P := _ < 2 * _ /\ _)) by done. cbn [commitIndex lastApplied log set_commitIndex].
    by rewrite apply_range, bind_Ret_l by (unfold zlen; lia).
  - rewrite (decide_False (P := _ < 2 * _ /\ _)) by done. rewrite apply_range, bind_Ret_l by lia.
    by destruct rf.
Qed.

(** C23 [commitAt]: the leader commits an index of its log exactly when a strict
    majority of the servers, itself counted, has acknowledged it and the entry
    there is of its current term; then it applies, in order, everything from
    the last applied entry to the commit index, and nothing when the index was
    already committed.  An index past the end of its log -- which a follower
    with a longer log does acknowledge -- stops the process (code bug: the
    arguments of the disabled [DPrintf] are evaluated). *)
Theorem commitAt_majority index rf :
  zlen (matchIndex rf) = numPeers rf -> 0 <= lastApplied rf -> 0 <= commitIndex rf < zlen (log rf) ->
  if decide (index <= commitIndex rf) then commitAt index rf = Ret (rf, [])
  else match log rf !! Z.to_nat index with
       | None => commitAt index rf = Crash IndexPanic
       | Some e =>
           exists rf' effs, commitAt index rf = Ret (rf', effs) /\
             (commitIndex rf' = index <->
                numPeers rf < 2 * (1 + zlen (matching index rf)) /\ eTerm e = currentTerm rf) /\
             (commitIndex rf' <> index -> commitIndex rf' = commitIndex rf) /\
             effs = applied_between (lastApplied rf) (commitIndex rf') (log rf) /\
             lastApplied rf' = Z.max (lastApplied rf) (commitIndex rf') /\
             log rf' = log rf /\ currentTerm rf' = currentTerm rf
       end.
Proof.
  intros Hm Hla Hc. destruct (decide (index <= commitIndex rf)) as [Hle|Hgt].
  { unfold commitAt. by rewrite decide_True. }
  destruct (log rf !! Z.to_nat index) as [e|] eqn:He.
  - rewrite (commitAt_cases index rf e) by (done || lia). eexists _, _. split; [reflexivity|].
    destruct (decide _) as [Hd|Hd]; cbn; split_and!; try done; split; [lia|done].
  - unfold commitAt. rewrite decide_False, go_index_crash; [done| |done]. right.
    apply lookup_ge_None in He. unfold zlen. lia.
Qed.

(** What a leader sends to one peer. *)
Lemma replicate_args_spec si rf next :
  log_ok (log rf) -> go_index (nextIndex rf) si = Ret next ->
  if decide (next <= 0) then replicate_args si rf = Crash IndexPanic
  else exists prev e, prev = Z.min (next - 1) (zlen (log rf) - 1) /\ log rf !! Z.to_nat prev = Some e /\
    replicate_args si rf = Ret (mkAEArgs (currentTerm rf) (me rf) prev (eTerm e)
      (drop (S (Z.to_nat prev)) (log rf)) (commitIndex rf)).
Proof.
  intros Hl Hnx. unfold replicate_args. destruct (log_ok_last _ Hl) as (e & He & _).
  rewrite He, bind_Ret_l, Hnx, bind_Ret_l. destruct Hl as [H0 _]. cbv zeta.
  destruct (decide (next <= 0)) as [Hneg|Hpos].
  - rewrite decide_True by lia. by rewrite go_index_crash by lia.
  - destruct (decide (next <= zlen (log rf) - 1)) as [Hle|Hgt].
    + destruct (go_index_total (log rf) (next - 1)) as [p Hp]; [lia|]. rewrite Hp, bind_Ret_l.
      unfold go_suffix. rewrite decide_True by lia. rewrite bind_Ret_l.
      apply go_index_Ret in Hp as [_ Hp]. exists (next - 1), p. split; [lia|]. split; [done|].
      by replace (S (Z.to_nat (next - 1))) with (Z.to_nat next) by lia.
    + apply go_index_Ret in He as [_ He]. exists (zlen (log rf) - 1), e. split; [lia|]. split; [done|].
      rewrite drop_ge; [done|]. unfold zlen. lia.
Qed.

Lemma replicate_args_ok si rf args :
  log_ok (log rf) -> zlen (log rf) < 2 ^ 53 -> 0 <= commitIndex rf < zlen (log rf) ->
  (forall e, e ∈ log rf -> 0 <= eTerm e) -> replicate_args si rf = Ret args ->
  args_ok args /\ exists e, log rf !! Z.to_nat (PrevLogIndex args) = Some e /\
    args = mkAEArgs (currentTerm rf) (me rf) (PrevLogIndex args) (eTerm e)
      (drop (S (Z.to_nat (PrevLogIndex args))) (log rf)) (commitIndex rf).
Proof.
  intros Hl Hsz Hc Hterms Hargs. destruct (go_index (nextIndex rf) si) as [next|c|] eqn:Hnx.
  2,3: unfold replicate_args in Hargs; destruct (log_ok_last _ Hl) as (e & He & _);
    rewrite He, bind_Ret_l, Hnx in Hargs; done.
  pose proof (replicate_args_spec si rf next Hl Hnx) as Hspec.
  destruct (decide (next <= 0)) as [|Hpos]; [congruence|].
  destruct Hspec as (prev & e0 & Hprev & He0 & Heq). rewrite Heq in Hargs. apply (inj Ret) in Hargs as <-.
  apply lookup_lt_Some in He0 as Hlt0. split; [|by exists e0].
  unfold args_ok, exact. cbn. split_and!; try lia.
  - assert (0 <= eTerm e0) by (apply Hterms, list_elem_of_lookup; eauto). lia.
  - pose proof (proj1 (log_ok_numbered _) Hl) as [_ Hn]. exact (numbered_drop 0 _ (S (Z.to_nat prev)) Hn).
  - unfold zlen in *. rewrite length_drop. lia.
Qed.

(** Replication brings agreement: when a leader sends its log to a peer and
    the peer accepts, then from PrevLogIndex to the end of the leader's log the
    two logs have entries of the same terms, the peer's log is at least as
    long, and it has not committed beyond its own last entry.  The leader
    never sends a commit index beyond the entries it sends. *)
Theorem replication_brings_agreement leader si args rf rf' reply effs :
  log_ok (log leader) -> zlen (log leader) < 2 ^ 53 -> 0 <= commitIndex leader < zlen (log leader) ->
  (forall e, e ∈ log leader -> 0 <= eTerm e) ->
  replicate_args si leader = Ret args ->
  node_ok rf -> AppendEntries args rf = Ret (rf', reply, effs) -> Success reply = true ->
  LeaderCommit args <= PrevLogIndex args + zlen (Entries args) /\
  zlen (log leader) <= zlen (log rf') /\
  forall i e, PrevLogIndex args <= Z.of_nat i -> log leader !! i = Some e ->
    exists e', log rf' !! i = Some e' /\ eTerm e' = eTerm e.
Proof.
  intros Hl Hsz Hc Hterms Hargs Hok Hrun Hs.
  destruct (replicate_args_ok si leader args Hl Hsz Hc Hterms Hargs) as (Ha & e0 & He0 & Heq).
  assert (0 <= PrevLogIndex args) as Hprev by apply Ha. set (prev := PrevLogIndex args) in *.
  apply lookup_lt_Some in He0 as Hlt0. clearbody prev. subst args. set (args := mkAEArgs _ _ _ _ _ _) in *.
  assert (state rf = FOLLOWER -> rpcCh rf < numPeers rf) as Hn.
  { intros Hf. unfold AppendEntries, notify in Hrun. rewrite decide_True in Hrun by done.
    destruct (decide (rpcCh rf < numPeers rf)); done. }
  destruct (AppendEntries_cases args rf Hok Ha Hn) as [n Hcase]. rewrite Hrun in Hcase. cbv zeta in Hcase.
  destruct (decide (aeTerm args < currentTerm rf)); [injection Hcase as _ -> _; done|].
  destruct (decide (accepts args (log rf))) as [Hacc|]; [|injection Hcase as _ -> _; done].
  injection Hcase as Hrf _ _. rewrite Hrf. cbn [log set_commitIndex set_log].
  destruct Hacc as (ep & Hep & Hept). apply lookup_lt_Some in Hep as Hplt. cbn in Hep, Hept, Hplt.
  split; [|split].
  - unfold args, zlen in *. cbn. rewrite length_drop. lia.
  - pose proof (reference_length (S (Z.to_nat prev)) (Entries args) (log rf)) as Hrl.
    unfold args, zlen in *. cbn in *. rewrite length_drop in Hrl. lia.
  - intros i e Hi He. cbn in Hi. destruct (decide (i = Z.to_nat prev)) as [->|Hne].
    + exists ep. cbn. rewrite reference_prefix by lia. split; [done|]. congruence.
    + cbn. destruct (reference_has (S (Z.to_nat prev)) (drop (S (Z.to_nat prev)) (log leader)) (log rf)
        (i - S (Z.to_nat prev)) e) as (e' & He' & Ht); [lia| |].
      * rewrite lookup_drop. by replace (S (Z.to_nat prev) + (i - S (Z.to_nat prev)))%nat with i by lia.
      * exists e'. by replace (S (Z.to_nat prev) + (i - S (Z.to_nat prev)))%nat with i in He' by lia.
Qed.
