(* ===== verification/RaftNet.v ===== *)
(** * RaftNet: a cluster of Raft servers

    Goroutines, messages in flight and timers of all servers are a list of
    tasks; an event runs one task for one critical section of [RaftNode].  The
    network delivers a message at most once, late, in any order or never, as
    [labrpc] does; timers may fire at any moment. *)
From S2P Require Import Prelude RaftNode.

Inductive task : Set :=
  | TFollower0                                   (* [toFollower], before it clears the vote *)
  | TFollower                                    (* its loop condition *)
  | TFollowerSel                                 (* its select *)
  | TCandidate                                   (* [toCandidate]'s loop condition *)
  | TCandidate1                                  (* its body *)
  | TElect0                                      (* [startElection] *)
  | TElect (ch : nat)                            (* its select *)
  | TLeader0                                     (* [toLeader] *)
  | TLeader (ch : nat)                           (* its loop condition *)
  | TLeaderSel (ch : nat)                        (* its select *)
  | TReplicate (ch : nat)
  | THandle (ch : nat)                           (* [handleReply], waiting *)
  | THandle1 (ch : nat) (reply : AppendEntriesReply)
  | TCommitAt (index : Z)
  | TStart1 (command : iface)                    (* [Start], past its check *)
  | MEntry (e : LogEntry)                        (* waiting to send on [entryCh] *)
  | MReqVote (from ch : nat) (args : RequestVoteArgs)
  | MVote (ch : nat) (reply : RequestVoteReply)
  | MAppend (from ch : nat) (args : AppendEntriesArgs)
  | MAppendReply (ch : nat) (reply : AppendEntriesReply).

#[export] Instance RequestVoteArgs_eq_dec : EqDecision RequestVoteArgs.
Proof. solve_decision. Defined.
#[export] Instance RequestVoteReply_eq_dec : EqDecision RequestVoteReply.
Proof. solve_decision. Defined.
#[export] Instance AppendEntriesArgs_eq_dec : EqDecision AppendEntriesArgs.
Proof. solve_decision. Defined.
#[export] Instance AppendEntriesReply_eq_dec : EqDecision AppendEntriesReply.
Proof. solve_decision. Defined.
#[export] Instance task_eq_dec : EqDecision task.
Proof. solve_decision. Defined.

(** [ch] names the reply channel an election or a leader made for itself. *)
Record cluster : Set := mkCluster {
  nodes : list Raft;
  tasks : list (nat * task);
  fresh : nat;
  delivered : list (nat * ApplyMsg);
}.

Definition spawn (n ch : nat) (eff : effect) : list (nat * task) :=
  match eff with
  | GoToFollower => [(n, TFollower0)]
  | GoToCandidate => [(n, TCandidate)]
  | GoStartElection => [(n, TElect0)]
  | GoToLeader => [(n, TLeader0)]
  | GoCommitAt i => [(n, TCommitAt i)]
  | SendRequestVote server args => [(Z.to_nat server, MReqVote n ch args)]
  | SendAppendEntries server args => [(Z.to_nat server, MAppend n ch args)]
  | SendEntry e => [(n, MEntry e)]
  | Apply _ => []
  end.

Definition applies (n : nat) (eff : effect) : list (nat * ApplyMsg) :=
  match eff with Apply m => [(n, m)] | _ => [] end.

Definition update (n ch : nat) (rf : Raft) (effs : list effect) (ts : list (nat * task)) (cl : cluster)
    : cluster :=
  {| nodes := <[n := rf]> (nodes cl); tasks := tasks cl ++ concat (map (spawn n ch) effs) ++ ts;
     fresh := fresh cl; delivered := delivered cl ++ concat (map (applies n) effs) |}.

Definition set_tasks ts (cl : cluster) : cluster :=
  {| nodes := nodes cl; tasks := ts; fresh := fresh cl; delivered := delivered cl |}.
Definition bump (cl : cluster) : cluster :=
  {| nodes := nodes cl; tasks := tasks cl; fresh := S (fresh cl); delivered := delivered cl |}.

(** How a select goes on: the message at this position of the list, or the
    timer. *)
Inductive choice : Set := Go | Timer | Take (j : nat).

(** *** The goroutines

    Each definition is a goroutine of server [n] whose state is [rf]: the task
    [t] says where it is, and the rest of the function is the next task. *)

Definition toFollower (n : nat) (t : task) (c : choice) (rf : Raft) (cl : cluster) : outcome cluster :=
  match t, c with
  | TFollower0, Go => Ret (update n 0 (toFollower_begin rf) [] [(n, TFollower)] cl)
  | TFollower, Go => Ret (update n 0 rf [] (if still FOLLOWER rf then [(n, TFollowerSel)] else []) cl)
  | TFollowerSel, Go => rf ← toFollower_rpc rf; Ret (update n 0 rf [] [(n, TFollower)] cl)
  | TFollowerSel, Timer => let '(rf, effs) := toFollower_timeout rf in Ret (update n 0 rf effs [] cl)
  | _, _ => Block
  end.

Definition toCandidate (n : nat) (t : task) (c : choice) (rf : Raft) (cl : cluster) : outcome cluster :=
  match t, c with
  | TCandidate, Go => Ret (update n 0 rf [] (if still CANDIDATE rf then [(n, TCandidate1)] else []) cl)
  | TCandidate1, Go => let '(rf, effs) := toCandidate_turn rf in Ret (update n 0 rf effs [] cl)
  | _, _ => Block
  end.

(** When it ends, [wg.Done] lets [toCandidate] go on.  The loop here and that of
    [handleReply] test [killed] before they wait: at the end of the step before,
    which takes in the later moments at which the code may test it, as a task
    that has ended is one that is never run again.  A server killed while it
    waits takes the next reply. *)
Definition startElection (n : nat) (t : task) (c : choice) (rf : Raft) (cl : cluster) : outcome cluster :=
  match t, c with
  | TElect0, Go =>
      if killed rf then Ret (update n 0 rf [] [] cl) else
      '(rf, effs) ← startElection_begin rf;
      Ret (bump (update n (fresh cl) rf effs [(n, TElect (fresh cl))] cl))
  | TElect ch, Timer => Ret (update n 0 rf [] [(n, TCandidate)] cl)
  | TElect ch, Take j =>
      match tasks cl !! j with
      | Some (n', MVote ch' reply) =>
          if decide (n' = n /\ ch' = ch) then
            let '(rf, effs, over) := startElection_reply reply rf in
            Ret (update n 0 rf effs
                   (if over : bool then [(n, TCandidate)] else if killed rf then [] else [(n, TElect ch)])
                   (set_tasks (delete j (tasks cl)) cl))
          else Block
      | _ => Block
      end
  | _, _ => Block
  end.

Definition toLeader (n : nat) (t : task) (c : choice) (rf : Raft) (cl : cluster) : outcome cluster :=
  match t, c with
  | TLeader0, Go =>
      Ret (bump (update n 0 (toLeader_begin rf) [] [(n, THandle (fresh cl)); (n, TLeader (fresh cl))] cl))
  | TLeader ch, Go => Ret (update n 0 rf [] (if still LEADER rf then [(n, TLeaderSel ch)] else []) cl)
  | TLeaderSel ch, Timer => Ret (update n 0 rf [] [(n, TReplicate ch); (n, TLeader ch)] cl)
  | TLeaderSel ch, Take j =>
      match tasks cl !! j with
      | Some (n', MEntry e) =>
          if decide (n' = n) then
            Ret (update n 0 rf [] [(n, TReplicate ch); (n, TLeader ch)]
                   (set_tasks (delete j (tasks cl)) cl))
          else Block
      | _ => Block
      end
  | _, _ => Block
  end.

Definition handleReply (n : nat) (t : task) (c : choice) (rf : Raft) (cl : cluster) : outcome cluster :=
  match t, c with
  | THandle ch, Take j =>
      match tasks cl !! j with
      | Some (n', MAppendReply ch' reply) =>
          if decide (n' = n /\ ch' = ch) then
            let '(rf, effs, over) := handleReply_term reply rf in
            Ret (update n 0 rf effs (if over : bool then [] else [(n, THandle1 ch reply)])
                   (set_tasks (delete j (tasks cl)) cl))
          else Block
      | _ => Block
      end
  | THandle1 ch reply, Go =>
      '(rf, effs) ← handleReply_update reply rf;
      Ret (update n 0 rf effs (if killed rf then [] else [(n, THandle ch)]) cl)
  | _, _ => Block
  end.

(** A call that arrives at [n]: the handler runs, and the reply goes back to the
    goroutine that made the call. *)
Definition sendRequestVote (n from ch : nat) (args : RequestVoteArgs) (rf : Raft) (cl : cluster) : outcome cluster :=
  '(rf, reply, effs) ← RequestVote args rf;
  Ret (update n 0 rf effs [(from, MVote ch reply)] cl).

Definition sendAppendEntries (n from ch : nat) (args : AppendEntriesArgs) (rf : Raft) (cl : cluster)
    : outcome cluster :=
  '(rf, reply, effs) ← AppendEntries args rf;
  Ret (update n 0 rf effs [(from, MAppendReply ch reply)] cl).

Definition run_task (n : nat) (t : task) (c : choice) (rf : Raft) (cl : cluster) : outcome cluster :=
  match t with
  | TFollower0 | TFollower | TFollowerSel => toFollower n t c rf cl
  | TCandidate | TCandidate1 => toCandidate n t c rf cl
  | TElect0 | TElect _ => startElection n t c rf cl
  | TLeader0 | TLeader _ | TLeaderSel _ => toLeader n t c rf cl
  | THandle _ | THandle1 _ _ => handleReply n t c rf cl
  | _ =>
      match t, c with
      | TReplicate ch, Go => effs ← replicate rf; Ret (update n ch rf effs [] cl)
      | TCommitAt index, Go => '(rf, effs) ← commitAt index rf; Ret (update n 0 rf effs [] cl)
      | TStart1 command, Go => let '(rf, _, effs) := Start_append command rf in Ret (update n 0 rf effs [] cl)
      | MReqVote from ch args, Go => sendRequestVote n from ch args rf cl
      | MAppend from ch args, Go => sendAppendEntries n from ch args rf cl
      | _, _ => Block
      end
  end.

Definition is_message (t : task) : bool :=
  match t with MReqVote _ _ _ | MVote _ _ | MAppend _ _ _ | MAppendReply _ _ => true | _ => false end.

Inductive event : Set :=
  | ERun (k : nat) (c : choice)              (* run task [k] *)
  | EDrop (k : nat)                          (* lose a message *)
  | EStart (n : nat) (command : iface)       (* a client calls [Start] *)
  | EKill (n : nat).

Definition exec (e : event) (cl : cluster) : outcome cluster :=
  match e with
  | ERun k c =>
      match tasks cl !! k with
      | Some (n, t) =>
          match nodes cl !! n with
          | Some rf => run_task n t c rf (set_tasks (delete k (tasks cl)) cl)
          | None => Block
          end
      | None => Block
      end
  | EDrop k =>
      match tasks cl !! k with
      | Some (_, t) => if is_message t then Ret (set_tasks (delete k (tasks cl)) cl) else Block
      | None => Block
      end
  | EStart n command =>
      match nodes cl !! n with
      | Some rf => if Start_check rf then Ret (update n 0 rf [] [(n, TStart1 command)] cl) else Ret cl
      | None => Block
      end
  | EKill n =>
      match nodes cl !! n with
      | Some rf => Ret (update n 0 (Kill rf) [] [] cl)
      | None => Block
      end
  end.

Definition init (peers : nat) : cluster :=
  {| nodes := map (fun i => (Make (Z.of_nat peers) (Z.of_nat i)).1) (seq 0 peers);
     tasks := map (fun i => (i, TFollower0)) (seq 0 peers);
     fresh := 0; delivered := [] |}.

(** Logs of at most [2 ^ 53] entries: what a [float64] can count. *)
Definition bounded (cl : cluster) : bool :=
  forallb (fun rf => bool_decide (zlen (log rf) <= 2 ^ 53)) (nodes cl).

Inductive reachable (peers : nat) : cluster -> Prop :=
  | reach_init : reachable peers (init peers)
  | reach_exec cl e cl' : reachable peers cl -> exec e cl = Ret cl' -> bounded cl' = true ->
      reachable peers cl'.

(** ** Scripts: events named by the task they run *)

Definition tag (t : task) : nat :=
  match t with
  | TFollower0 => 0 | TFollower => 1 | TFollowerSel => 2 | TCandidate => 3 | TCandidate1 => 4
  | TElect0 => 5 | TElect _ => 6 | TLeader0 => 7 | TLeader _ => 8 | TLeaderSel _ => 9
  | TReplicate _ => 10 | THandle _ => 11 | THandle1 _ _ => 12 | TCommitAt _ => 13 | TStart1 _ => 14
  | MEntry _ => 15 | MReqVote _ _ _ => 16 | MVote _ _ => 17 | MAppend _ _ _ => 18 | MAppendReply _ _ => 19
  end%nat.

Fixpoint position (n g : nat) (ts : list (nat * task)) : nat :=
  match ts with
  | [] => 0
  | (n', t) :: ts => if decide (n' = n /\ tag t = g) then 0 else S (position n g ts)
  end%nat.

(** The first task of server [n] with tag [g], run with the timer, with nothing,
    or taking the first message with tag [m] for the server. *)
Inductive how : Set := Plain | Tick | Recv (m : nat).

Inductive order : Set :=
  | Do (n g : nat) (h : how)
  | Client (n : nat) (command : iface)
  | Lose (n g : nat).

Definition event_of (o : order) (cl : cluster) : event :=
  match o with
  | Do n g h =>
      let k := position n g (tasks cl) in
      ERun k (match h with
              | Plain => Go | Tick => Timer
              | Recv m => Take (position n m (delete k (tasks cl)))
              end)
  | Client n command => EStart n command
  | Lose n g => EDrop (position n g (tasks cl))
  end.

Fixpoint script (os : list order) (cl : cluster) : outcome cluster :=
  match os with
  | [] => Ret cl
  | o :: os =>
      cl ← exec (event_of o cl) cl;
      if bounded cl then script os cl else Block
  end.

Lemma reachable_script peers os cl cl' :
  reachable peers cl -> script os cl = Ret cl' -> reachable peers cl'.
Proof.
  revert cl. induction os as [|o os IH]; intros cl Hr Hs; cbn [script] in Hs.
  - by injection Hs as <-.
  - bind_inv Hs. destruct (bounded r) eqn:Hb; [|done].
    apply (IH r); [|done]. by apply (reach_exec peers cl (event_of o cl)).
Qed.
