(* ===== verification/RaftCluster.v ===== *)
(** * RaftCluster: what holds in every run of a Raft cluster

    The invariant of the logs and of the messages in flight, and what follows:
    terms never go back, and no [AppendEntries] or [RequestVote] handler ever
    panics. *)
From S2P Require Import Prelude RaftNode RaftProps RaftTheorems RaftNet.

(** ** Terms along a log *)

Definition terms_sorted (l : list LogEntry) : Prop :=
  forall i j e e', (i <= j)%nat -> l !! i = Some e -> l !! j = Some e' -> eTerm e <= eTerm e'.

Definition terms_between (a b : Z) (l : list LogEntry) : Prop :=
  forall e, e ∈ l -> a <= eTerm e <= b.

Lemma terms_sorted_take l n : terms_sorted l -> terms_sorted (take n l).
Proof. intros H i j e e' Hij [Hi _]%lookup_take_Some [Hj _]%lookup_take_Some. by apply (H i j). Qed.

Lemma terms_sorted_drop l n : terms_sorted l -> terms_sorted (drop n l).
Proof. intros H i j e e' Hij. rewrite !lookup_drop. apply H. lia. Qed.

Lemma terms_sorted_tail e l : terms_sorted (e :: l) -> terms_sorted l.
Proof. intros H. exact (terms_sorted_drop (e :: l) 1 H). Qed.

Lemma terms_sorted_app l l' :
  terms_sorted l -> terms_sorted l' -> (forall e e', e ∈ l -> e' ∈ l' -> eTerm e <= eTerm e') ->
  terms_sorted (l ++ l').
Proof.
  intros H H' Hll i j e e' Hij [Hi|[Hil Hi]]%lookup_app_Some [Hj|[Hjl Hj]]%lookup_app_Some.
  - by apply (H i j).
  - apply Hll; apply list_elem_of_lookup; eauto.
  - apply lookup_lt_Some in Hj. lia.
  - apply (H' (i - length l)%nat (j - length l)%nat); [lia|done|done].
Qed.

Lemma take_le_last l p e0 e :
  terms_sorted l -> l !! p = Some e0 -> e ∈ take (S p) l -> eTerm e <= eTerm e0.
Proof.
  intros Hs H0 [i Hi]%list_elem_of_lookup. apply lookup_take_Some in Hi as [Hi Hlt].
  apply (Hs i p); [lia|done|done].
Qed.

(** The merge of sorted entries into a sorted log is sorted: they meet at the
    entry before. *)
Lemma reference_sorted p es l e0 :
  terms_sorted l -> l !! p = Some e0 -> terms_sorted es ->
  (forall e, e ∈ es -> eTerm e0 <= eTerm e) -> terms_sorted (reference (S p) es l).
Proof.
  revert p e0. induction es as [|e es IH]; intros p e0 Hl H0 Hes Hle; cbn [reference]; [done|].
  assert (terms_sorted (take (S p) l ++ e :: es)) as Hcut.
  { apply terms_sorted_app; [by apply terms_sorted_take|done|].
    intros x y Hx Hy. pose proof (take_le_last l p e0 x Hl H0 Hx). specialize (Hle y Hy). lia. }
  destruct (l !! S p) as [old|] eqn:Hold; [|done]. case_decide as Ht; [|done].
  apply (IH (S p) old Hl Hold (terms_sorted_tail _ _ Hes)). intros x Hx. rewrite Ht.
  apply list_elem_of_lookup in Hx as [i Hi]. apply (Hes 0%nat (S i)); [lia|done|done].
Qed.

Lemma reference_elem p es l e : e ∈ reference p es l -> e ∈ l \/ e ∈ es.
Proof.
  revert p. induction es as [|x es IH]; intros p; cbn [reference]; [by left|].
  assert (e ∈ take p l ++ x :: es -> e ∈ l \/ e ∈ x :: es) as Hcut.
  { intros [He|He]%elem_of_app; [left|by right]. 
    apply list_elem_of_lookup in He as [i Hi]. apply lookup_take_Some in Hi as [Hi _].
    apply list_elem_of_lookup. by exists i. }
  destruct (l !! p); [|done]. case_decide; [|done]. intros [?|?]%IH; [by left|right; by right].
Qed.

(** ** The invariant *)

Definition log_wf (l : list LogEntry) (t : Z) : Prop :=
  log_ok l /\ terms_sorted l /\ terms_between 0 t l.

Definition msg_wf (args : AppendEntriesArgs) : Prop :=
  args_ok args /\ 0 <= PrevLogTerm args /\ terms_sorted (Entries args) /\
  terms_between (PrevLogTerm args) (aeTerm args) (Entries args).

Record node_wf (n : nat) (N : nat) (rf : Raft) : Prop := {
  wf_me : me rf = Z.of_nat n;
  wf_peers : numPeers rf = Z.of_nat N;
  wf_log : log_wf (log rf) (currentTerm rf);
  wf_term : 0 <= currentTerm rf;
  wf_commit : 0 <= commitIndex rf <= 2 ^ 53;
}.

Definition eff_wf (e : effect) : Prop :=
  match e with SendAppendEntries _ args => msg_wf args | _ => True end.

Definition task_wf (t : nat * task) : Prop :=
  match t.2 with MAppend _ _ args => msg_wf args | _ => True end.

Record cluster_wf (N : nat) (cl : cluster) : Prop := {
  wf_nodes : forall n rf, nodes cl !! n = Some rf -> node_wf n N rf;
  wf_tasks : Forall task_wf (tasks cl);
}.

(** What a critical section may do to its server. *)
Definition evolves (n N : nat) (rf rf' : Raft) : Prop :=
  node_wf n N rf' /\ currentTerm rf <= currentTerm rf'.

Lemma log_wf_mono l t t' : log_wf l t -> t <= t' -> log_wf l t'.
Proof.
  intros (H1 & H2 & H3) Ht. split_and!; try done. intros e He. specialize (H3 e He). lia.
Qed.

(** Sections that leave the log, the commit index and the identity alone. *)
Lemma evolves_frame n N rf rf' :
  node_wf n N rf -> me rf' = me rf -> numPeers rf' = numPeers rf -> log rf' = log rf ->
  commitIndex rf' = commitIndex rf -> currentTerm rf <= currentTerm rf' -> evolves n N rf rf'.
Proof.
  intros [] H1 H2 H3 H4 H5. split; [|done]. split; try congruence; try lia.
  rewrite H3. by apply (log_wf_mono _ (currentTerm rf)).
Qed.

Lemma node_wf_ok n N rf : node_wf n N rf -> zlen (log rf) <= 2 ^ 53 -> node_ok rf.
Proof. intros [] Hsz. split; [apply wf_log0|]. split; [done|lia]. Qed.

Lemma log_wf_snoc l t c :
  log_wf l t -> 0 <= t -> log_wf (l ++ [mkEntry c t (zlen l)]) t.
Proof.
  intros (Hok & Hs & Hb) Ht. apply log_ok_numbered in Hok as [H0 Hn]. split_and!.
  - apply log_ok_numbered. split; [unfold zlen in *; rewrite length_app; cbn; lia|].
    apply numbered_app; [done|]. intros [|i] e Hi; cbn in Hi; [|by destruct i]. injection Hi as <-. cbn.
    unfold zlen. lia.
  - apply terms_sorted_app; [done| |].
    + intros [|i] [|j] e e' _ Hi Hj; cbn in Hi, Hj; [injection Hi as <-; injection Hj as <-; lia|..];
        by destruct i || by destruct j.
    + intros e e' He ->%list_elem_of_singleton. cbn. apply (Hb e He).
  - intros e [He| ->%list_elem_of_singleton]%elem_of_app; [by apply Hb|cbn; lia].
Qed.

(** ** Every critical section preserves it *)

Lemma AppendEntries_notified args rf rf' reply effs :
  AppendEntries args rf = Ret (rf', reply, effs) -> state rf = FOLLOWER -> rpcCh rf < numPeers rf.
Proof.
  intros Hr Hs. unfold AppendEntries, notify in Hr. rewrite decide_True in Hr by done.
  destruct (decide (rpcCh rf < numPeers rf)); done.
Qed.

Lemma adopt_effs_wf args rf : Forall eff_wf (adopt_effs args rf).
Proof. unfold adopt_effs. destruct (decide _); by repeat constructor. Qed.

Lemma applied_wf a b l : Forall eff_wf (applied_between a b l).
Proof. unfold applied_between. apply Forall_map, Forall_true. done. Qed.

Lemma reference_wf args l t :
  log_wf l t -> msg_wf args -> accepts args l -> t <= aeTerm args ->
  log_wf (reference (S (Z.to_nat (PrevLogIndex args))) (Entries args) l) (aeTerm args).
Proof.
  intros (Hok & Hs & Hb) ((Hp & _ & Hn & _) & Ht & Hes & Hbe) (e0 & He0 & Het) Hle.
  apply log_ok_numbered in Hok as [H0 Hnl]. apply lookup_lt_Some in He0 as Hlt. split_and!.
  - apply log_ok_numbered. split; [|apply reference_numbered; [done|done|lia]].
    pose proof (reference_length (S (Z.to_nat (PrevLogIndex args))) (Entries args) l).
    unfold zlen in *. lia.
  - apply (reference_sorted _ _ _ e0); try done. intros e He. rewrite Het. by apply Hbe.
  - intros e [He|He]%reference_elem; [specialize (Hb e He)|specialize (Hbe e He)]; lia.
Qed.

Lemma AppendEntries_evolves n N args rf rf' reply effs :
  node_wf n N rf -> zlen (log rf) <= 2 ^ 53 -> msg_wf args ->
  AppendEntries args rf = Ret (rf', reply, effs) -> zlen (log rf') <= 2 ^ 53 ->
  evolves n N rf rf' /\ Forall eff_wf effs.
Proof.
  intros Hwf Hsz Hm Hrun Hsz'. pose proof (node_wf_ok _ _ _ Hwf Hsz) as Hok.
  destruct (AppendEntries_cases args rf Hok (proj1 Hm) (AppendEntries_notified _ _ _ _ _ Hrun)) as [c Hcase].
  rewrite Hrun in Hcase. cbv zeta in Hcase. set (rf0 := set_rpcCh c rf) in *.
  destruct (decide (aeTerm args < currentTerm rf)) as [Hlt|Hge].
  { injection Hcase as -> _ ->. split; [|done]. by apply evolves_frame. }
  assert (me (adopt args rf0) = me rf /\ numPeers (adopt args rf0) = numPeers rf /\
    log (adopt args rf0) = log rf /\ commitIndex (adopt args rf0) = commitIndex rf /\
    currentTerm (adopt args rf0) = aeTerm args) as (H1 & H2 & H3 & H4 & H5).
  { unfold adopt. destruct (decide (steps_down args rf0)) as [Hs|Hs]; [done|]. split_and!; try done.
    assert (~ currentTerm rf < aeTerm args) by (intros ?; apply Hs; by left). cbn. lia. }
  destruct (decide (accepts args (log rf))) as [Hacc|]; injection Hcase as -> _ ->.
  - split; [|apply Forall_app; split; [apply adopt_effs_wf|apply applied_wf]].
    destruct Hwf. split; [split|]; cbn; try congruence; try lia.
    + rewrite H5. apply (reference_wf args (log rf) (currentTerm rf)); [done..|lia].
    + unfold new_commit. cbn. rewrite H4. cbn in Hsz'.
      destruct (decide (commitIndex rf < LeaderCommit args)); [|lia].
      pose proof (reference_length (S (Z.to_nat (PrevLogIndex args))) (Entries args) (log rf)) as Hr.
      destruct Hacc as (e0 & He0 & _). apply lookup_lt_Some in He0. unfold zlen in *. lia.
  - split; [|apply adopt_effs_wf]. apply evolves_frame; try done. lia.
Qed.

Lemma replicate_to_wf n N l rf effs :
  node_wf n N rf -> zlen (log rf) <= 2 ^ 53 -> replicate_to l rf = Ret effs -> Forall eff_wf effs.
Proof.
  intros Hwf Hsz. revert effs. induction l as [|si l IH]; intros effs Hr; cbn [replicate_to] in Hr.
  { apply (inj Ret) in Hr as <-. constructor. }
  bind_inv Hr. bind_inv Hr. apply (inj Ret) in Hr as <-. constructor; [|by apply IH].
  destruct Hwf as [_ _ (Hok & Hs & Hb) Ht Hc]. cbn.
  destruct (go_index (nextIndex rf) si) as [next|c|] eqn:Hnx.
  2,3: unfold replicate_args in E; destruct (log_ok_last _ Hok) as (e & He & _);
    rewrite He, bind_Ret_l, Hnx in E; done.
  pose proof (replicate_args_spec si rf next Hok Hnx) as Hspec.
  destruct (decide (next <= 0)) as [|Hpos]; [congruence|].
  destruct Hspec as (prev & e0 & Hprev & He0 & Heq). rewrite Heq in E. apply (inj Ret) in E as <-.
  assert (0 <= eTerm e0) by (apply Hb, list_elem_of_lookup; eauto).
  apply lookup_lt_Some in He0 as Hlt. pose proof (proj1 (log_ok_numbered _) Hok) as [H0 Hn].
  split_and!; cbn.
  - unfold args_ok, exact. cbn. split_and!; try lia.
    + exact (numbered_drop 0 _ (S (Z.to_nat prev)) Hn).
    + unfold zlen in *. rewrite length_drop. lia.
  - done.
  - by apply terms_sorted_drop.
  - intros e He. apply list_elem_of_lookup in He as [i Hi]. rewrite lookup_drop in Hi. split.
    + apply (Hs (Z.to_nat prev) (S (Z.to_nat prev) + i)%nat); [lia|done|done].
    + apply Hb, list_elem_of_lookup. eauto.
Qed.

Lemma apply_from_wf k i l effs : apply_from k i l = Ret effs -> Forall eff_wf effs.
Proof.
  revert i effs. induction k as [|k IH]; intros i effs Hr; cbn [apply_from] in Hr.
  - apply (inj Ret) in Hr as <-. constructor.
  - bind_inv Hr. bind_inv Hr. apply (inj Ret) in Hr as <-. constructor; [done|]. by apply (IH (i + 1)).
Qed.

Lemma commitAt_evolves n N index rf rf' effs :
  node_wf n N rf -> zlen (log rf) <= 2 ^ 53 -> commitAt index rf = Ret (rf', effs) ->
  evolves n N rf rf' /\ Forall eff_wf effs.
Proof.
  intros Hwf Hsz Hr. unfold commitAt in Hr.
  destruct (decide (index <= commitIndex rf)) as [Hle|Hgt].
  { apply (inj Ret) in Hr. injection Hr as <- <-. split; [|done]. by apply evolves_frame. }
  bind_inv Hr. bind_inv Hr. bind_inv Hr. apply (inj Ret) in Hr. injection Hr as <- <-.
  apply go_index_lt in E. split.
  - destruct (decide (numPeers rf / 2 < 1 + r0 /\ eTerm r = currentTerm rf)).
    + destruct Hwf. split; [split|]; cbn; try done; lia.
    + by apply evolves_frame.
  - by apply apply_from_wf in E1.
Qed.

(** ** Every event preserves it *)

Definition terms_grow (cl cl' : cluster) : Prop :=
  forall n rf rf', nodes cl !! n = Some rf -> nodes cl' !! n = Some rf' ->
    currentTerm rf <= currentTerm rf'.

Lemma evolves_refl n N rf : node_wf n N rf -> evolves n N rf rf.
Proof. intros H. by apply evolves_frame. Qed.

Lemma spawn_wf n ch effs : Forall eff_wf effs -> Forall task_wf (concat (map (spawn n ch) effs)).
Proof.
  induction 1 as [|e effs He _ IH]; cbn; [constructor|]. apply Forall_app. split; [|done].
  destruct e; cbn in *; rewrite ?Forall_singleton; done || by constructor.
Qed.

Lemma update_wf n N ch rf rf' effs ts cl :
  cluster_wf N cl -> nodes cl !! n = Some rf -> evolves n N rf rf' -> Forall eff_wf effs ->
  Forall task_wf ts ->
  cluster_wf N (update n ch rf' effs ts cl) /\ terms_grow cl (update n ch rf' effs ts cl).
Proof.
  intros [Hn Ht] Hrf [Hwf Hle] He Hts. split; [split|]; cbn.
  - intros k q [(-> & <- & _)|[_ Hq]]%list_lookup_insert_Some; [done|by apply Hn].
  - rewrite !Forall_app. split_and!; [done|by apply spawn_wf|done].
  - intros k q q' Hq [(-> & <- & _)|[_ Hq']]%list_lookup_insert_Some; [|assert (q = q') as -> by congruence; lia].
    assert (q = rf) as -> by congruence. done.
Qed.

Lemma cluster_wf_delete N k cl : cluster_wf N cl -> cluster_wf N (set_tasks (delete k (tasks cl)) cl).
Proof. intros [Hn Ht]. split; [done|]. by apply Forall_delete. Qed.

Lemma cluster_wf_bump N cl : cluster_wf N cl -> cluster_wf N (bump cl).
Proof. intros [Hn Ht]. by split. Qed.

(** Sections that are functions of the server only. *)
Lemma startElection_begin_evolves n N rf rf' effs :
  node_wf n N rf -> startElection_begin rf = Ret (rf', effs) ->
  evolves n N rf rf' /\ Forall eff_wf effs.
Proof.
  intros Hwf Hr. unfold startElection_begin in Hr. destruct (killed rf).
  { apply (inj Ret) in Hr. injection Hr as <- <-. split; [by apply evolves_refl|done]. }
  bind_inv Hr. apply (inj Ret) in Hr. injection Hr as <- <-. split; [by apply evolves_frame|].
  apply Forall_map, Forall_true. done.
Qed.

Lemma startElection_reply_evolves n N reply rf rf' effs over :
  node_wf n N rf -> startElection_reply reply rf = (rf', effs, over) ->
  evolves n N rf rf' /\ Forall eff_wf effs.
Proof.
  intros Hwf Hr. unfold startElection_reply in Hr.
  destruct (decide (currentTerm rf < rvrTerm reply)); [|destruct (VoteGranted reply); [destruct (isElected _)|]];
    injection Hr as <- <- _; (split; [apply evolves_frame; try done; cbn; lia|by repeat constructor]).
Qed.

Lemma handleReply_term_evolves n N reply rf rf' effs over :
  node_wf n N rf -> handleReply_term reply rf = (rf', effs, over) ->
  evolves n N rf rf' /\ Forall eff_wf effs.
Proof.
  intros Hwf Hr. unfold handleReply_term in Hr.
  destruct (decide (currentTerm rf < aerTerm reply));
    injection Hr as <- <- _; (split; [apply evolves_frame; try done; cbn; lia|by repeat constructor]).
Qed.

Lemma handleReply_update_evolves n N reply rf rf' effs :
  node_wf n N rf -> handleReply_update reply rf = Ret (rf', effs) ->
  evolves n N rf rf' /\ Forall eff_wf effs.
Proof.
  intros Hwf Hr. unfold handleReply_update in Hr. destruct (Success reply).
  - destruct (IsHeartbeat reply).
    + apply (inj Ret) in Hr. injection Hr as <- <-. split; [by apply evolves_refl|done].
    + do 3 bind_inv Hr. apply (inj Ret) in Hr. injection Hr as <- <-.
      split; [by apply evolves_frame|by repeat constructor].
  - do 2 bind_inv Hr. apply (inj Ret) in Hr. injection Hr as <- <-. split; [by apply evolves_frame|done].
Qed.

Lemma RequestVote_evolves n N args rf rf' reply effs :
  node_wf n N rf -> RequestVote args rf = Ret (rf', reply, effs) ->
  evolves n N rf rf' /\ Forall eff_wf effs.
Proof.
  intros Hwf Hr. destruct (RequestVote_cases args rf (RequestVote_Ret _ _ _ _ _ Hr))
    as (? & ? & ? & Hr' & H1 & H2 & [H3 H3'] & H4 & _ & _ & -> & _).
  rewrite Hr in Hr'. injection Hr' as <- <- ->. split; [apply evolves_frame; try done; lia|].
  destruct (decide _); by repeat constructor.
Qed.

Lemma Start_append_evolves n N command rf rf' r effs :
  node_wf n N rf -> Start_append command rf = (rf', r, effs) ->
  evolves n N rf rf' /\ Forall eff_wf effs.
Proof.
  intros Hwf Hr. injection Hr as <- _ <-. destruct Hwf. split; [|by repeat constructor].
  split; [split|]; cbn; try done. by apply log_wf_snoc.
Qed.

Lemma toFollower_rpc_evolves n N rf rf' :
  node_wf n N rf -> toFollower_rpc rf = Ret rf' -> evolves n N rf rf'.
Proof.
  intros Hwf Hr. unfold toFollower_rpc in Hr. destruct (decide (0 < rpcCh rf)); [|done].
  apply (inj Ret) in Hr as <-. by apply evolves_frame.
Qed.

Lemma bounded_lookup cl n rf : bounded cl = true -> nodes cl !! n = Some rf -> zlen (log rf) <= 2 ^ 53.
Proof.
  unfold bounded. rewrite <-Is_true_true, forallb_True, Forall_lookup. intros H Hn.
  specialize (H n rf Hn). by destruct (decide (zlen (log rf) <= 2 ^ 53)); [|rewrite bool_decide_false in H].
Qed.

(** What one task does, with the messages it takes from the list. *)
Definition keeps (N : nat) (cl cl' : cluster) : Prop := cluster_wf N cl' /\ terms_grow cl cl'.

Lemma keeps_update N n ch rf rf' effs ts cl :
  cluster_wf N cl -> nodes cl !! n = Some rf -> evolves n N rf rf' /\ Forall eff_wf effs ->
  Forall task_wf ts -> keeps N cl (update n ch rf' effs ts cl).
Proof. intros Hwf Hrf [He Heff] Hts. by apply (update_wf _ _ _ rf). Qed.

Lemma keeps_take N n rf rf' effs ts j cl :
  cluster_wf N cl -> nodes cl !! n = Some rf -> evolves n N rf rf' /\ Forall eff_wf effs ->
  Forall task_wf ts -> keeps N cl (update n 0 rf' effs ts (set_tasks (delete j (tasks cl)) cl)).
Proof.
  intros Hwf Hrf He Hts.
  exact (keeps_update N n 0 rf rf' effs ts _ (cluster_wf_delete N j cl Hwf) Hrf He Hts).
Qed.

Lemma keeps_bump N cl cl' : keeps N cl cl' -> keeps N cl (bump cl').
Proof. intros [Hwf Ht]. split; [by apply cluster_wf_bump|done]. Qed.

Lemma keeps_same N n rf ts cl :
  cluster_wf N cl -> nodes cl !! n = Some rf -> Forall task_wf ts -> keeps N cl (update n 0 rf [] ts cl).
Proof.
  intros Hwf Hrf Hts. apply (keeps_update N n 0 rf); [done|done| |done].
  split; [by apply evolves_refl, (wf_nodes _ _ Hwf)|done].
Qed.

(** A message taken from the list, when the right one is there. *)
Ltac take_message Hrun :=
  match type of Hrun with
  | context [match tasks ?cl !! ?j with _ => _ end] =>
      destruct (tasks cl !! j) as [[n' []]|]; try discriminate Hrun
  end;
  match type of Hrun with
  | context [if decide ?P then _ else _] => destruct (decide P); [|discriminate Hrun]
  end.

(** The code of the goroutine at its task. *)
Ltac unfold_task H :=
  cbn [run_task toFollower toCandidate startElection toLeader handleReply] in H;
  unfold sendRequestVote, sendAppendEntries in H.

Definition is_election (t : task) : bool :=
  match t with
  | TFollower0 | TFollower | TFollowerSel | TCandidate | TCandidate1 | TElect0 | TElect _ => true
  | _ => false
  end.

Lemma election_keeps N n t c rf cl cl' :
  cluster_wf N cl -> nodes cl !! n = Some rf -> is_election t = true ->
  run_task n t c rf cl = Ret cl' -> keeps N cl cl'.
Proof.
  intros Hwf Hrf Hel Hrun. pose proof (wf_nodes _ _ Hwf n rf Hrf) as Hn.
  destruct t; try discriminate Hel; destruct c; try discriminate Hrun; unfold_task Hrun.
  - apply (inj Ret) in Hrun as <-. apply (keeps_update N n 0 rf); [done|done| |by repeat constructor].
    split; [by apply evolves_frame|done].
  - apply (inj Ret) in Hrun as <-. apply keeps_same; [done|done|]. destruct (still _ _); by repeat constructor.
  - bind_inv Hrun. apply (inj Ret) in Hrun as <-.
    apply (keeps_update N n 0 rf); [done|done| |by repeat constructor].
    split; [by apply (toFollower_rpc_evolves n N rf)|done].
  - apply (inj Ret) in Hrun as <-. apply (keeps_update N n 0 rf); [done|done| |by constructor].
    split; [by apply evolves_frame|by repeat constructor].
  - apply (inj Ret) in Hrun as <-. apply keeps_same; [done|done|]. destruct (still _ _); by repeat constructor.
  - apply (inj Ret) in Hrun as <-. apply (keeps_update N n 0 rf); [done|done| |by constructor].
    split; [apply evolves_frame; try done; cbn; lia|by repeat constructor].
  - destruct (killed rf).
    + apply (inj Ret) in Hrun as <-. by apply keeps_same; [..|constructor].
    + bind_inv Hrun. destruct r as [rf' effs]. apply (inj Ret) in Hrun as <-. apply keeps_bump.
      apply (keeps_update N n _ rf); [done|done| |by repeat constructor].
      by apply startElection_begin_evolves.
  - apply (inj Ret) in Hrun as <-. apply keeps_same; [done|done|]. by repeat constructor.
  - take_message Hrun. destruct (startElection_reply _ rf) as [[rf' effs] over] eqn:He.
    apply (inj Ret) in Hrun as <-.
    apply (keeps_take N n rf); [done|done| |destruct over, (killed rf'); by repeat constructor].
    by apply (startElection_reply_evolves n N _ _ _ _ _ Hn) in He.
Qed.

Lemma other_keeps N n t c rf cl cl' :
  cluster_wf N cl -> nodes cl !! n = Some rf -> task_wf (n, t) -> bounded cl = true ->
  is_election t = false -> run_task n t c rf cl = Ret cl' -> bounded cl' = true -> keeps N cl cl'.
Proof.
  intros Hwf Hrf Ht Hb Hel Hrun Hb'. pose proof (wf_nodes _ _ Hwf n rf Hrf) as Hn.
  pose proof (bounded_lookup _ _ _ Hb Hrf) as Hsz.
  destruct t; try discriminate Hel; destruct c; try discriminate Hrun; unfold_task Hrun.
  - apply (inj Ret) in Hrun as <-. apply keeps_bump.
    apply (keeps_update N n _ rf); [done|done| |by repeat constructor]. split; [by apply evolves_frame|done].
  - apply (inj Ret) in Hrun as <-. apply keeps_same; [done|done|]. destruct (still _ _); by repeat constructor.
  - apply (inj Ret) in Hrun as <-. by apply keeps_same; [..|repeat constructor].
  - take_message Hrun. apply (inj Ret) in Hrun as <-.
    apply (keeps_take N n rf); [done|done| |by repeat constructor]. by split; [apply evolves_refl|].
  - bind_inv Hrun. apply (inj Ret) in Hrun as <-. apply (keeps_update N n _ rf); [done|done| |by constructor].
    split; [by apply evolves_refl|]. unfold replicate in E. destruct (decide (state rf = LEADER)).
    + by apply (replicate_to_wf n N _ rf r Hn Hsz E).
    + by apply (inj Ret) in E as <-.
  - take_message Hrun. destruct (handleReply_term _ rf) as [[rf' effs] over] eqn:He.
    apply (inj Ret) in Hrun as <-. apply (keeps_take N n rf); [done|done| |destruct over; by repeat constructor].
    by apply (handleReply_term_evolves n N _ _ _ _ _ Hn) in He.
  - bind_inv Hrun. destruct r as [rf' effs]. apply (inj Ret) in Hrun as <-.
    apply (keeps_update N n _ rf); [done|done| |destruct (killed rf'); by repeat constructor].
    by apply (handleReply_update_evolves n N reply).
  - bind_inv Hrun. destruct r as [rf' effs]. apply (inj Ret) in Hrun as <-.
    apply (keeps_update N n _ rf); [done|done| |by constructor]. by apply (commitAt_evolves n N index).
  - destruct (Start_append command rf) as [[rf' r] effs] eqn:He. apply (inj Ret) in Hrun as <-.
    apply (keeps_update N n _ rf); [done|done| |by constructor].
    by apply (Start_append_evolves n N _ _ _ _ _ Hn) in He.
  - bind_inv Hrun. destruct r as [[rf' reply] effs]. apply (inj Ret) in Hrun as <-.
    apply (keeps_update N n _ rf); [done|done| |by repeat constructor].
    by apply (RequestVote_evolves n N args rf rf' reply).
  - bind_inv Hrun. destruct r as [[rf' reply] effs]. apply (inj Ret) in Hrun as <-.
    apply (keeps_update N n _ rf); [done|done| |by repeat constructor].
    apply (AppendEntries_evolves n N args rf rf' reply effs Hn Hsz Ht E).
    apply (bounded_lookup _ n rf' Hb'). cbn. apply list_lookup_insert_eq. by apply lookup_lt_Some in Hrf.
Qed.

Lemma exec_keeps N e cl cl' :
  cluster_wf N cl -> bounded cl = true -> exec e cl = Ret cl' -> bounded cl' = true -> keeps N cl cl'.
Proof.
  intros Hwf Hb He Hb'. assert (forall k, keeps N cl (set_tasks (delete k (tasks cl)) cl)) as Hdel.
  { intros k. split; [by apply cluster_wf_delete|]. intros n rf rf' H1 H2. cbn in H2.
    assert (rf = rf') as -> by congruence. lia. }
  destruct e as [k c|k|n command|n]; cbn [exec] in He.
  - destruct (tasks cl !! k) as [[n t]|] eqn:Hk; [|done]. destruct (nodes cl !! n) as [rf|] eqn:Hrf; [|done].
    set (cl0 := set_tasks (delete k (tasks cl)) cl) in *.
    assert (keeps N cl0 cl') as [Hw Hg].
    { pose proof (proj1 (Hdel k)) as Hwf0. destruct (is_election t) eqn:Ht.
      - by apply (election_keeps N n t c rf).
      - apply (other_keeps N n t c rf); try done.
        exact (proj1 (Forall_lookup _ _) (wf_tasks _ _ Hwf) _ _ Hk). }
    split; [done|]. exact Hg.
  - destruct (tasks cl !! k) as [[n t]|]; [|done]. destruct (is_message t); [|done].
    apply (inj Ret) in He as <-. apply Hdel.
  - destruct (nodes cl !! n) as [rf|] eqn:Hrf; [|done]. destruct (Start_check rf); apply (inj Ret) in He as <-.
    + apply keeps_same; [done|done|by repeat constructor].
    + split; [done|]. intros m x y Hx Hy. assert (x = y) as -> by congruence. lia.
  - destruct (nodes cl !! n) as [rf|] eqn:Hrf; [|done]. apply (inj Ret) in He as <-.
    apply (keeps_update N n 0 rf); [done|done| |by constructor].
    split; [|done]. by apply evolves_frame; [apply (wf_nodes _ _ Hwf)|..].
Qed.

Lemma init_nodes peers n rf :
  nodes (init peers) !! n = Some rf -> rf = (Make (Z.of_nat peers) (Z.of_nat n)).1 /\ (n < peers)%nat.
Proof.
  cbn. change (@map nat Raft) with (@fmap list _ nat Raft). rewrite list_lookup_fmap.
  intros (i & Hi & ->)%fmap_Some. apply lookup_seq in Hi as [-> ?]. done.
Qed.

Lemma init_wf peers : cluster_wf peers (init peers) /\ bounded (init peers) = true.
Proof.
  split; [split|].
  - intros n rf [-> _]%init_nodes. split; cbn; try done. split_and!.
    + split; [done|]. intros [|i] e He; cbn in He; [by injection He as <-|by destruct i].
    + intros [|i] [|j] e e' _ Hi Hj; cbn in Hi, Hj; [injection Hi as <-; injection Hj as <-; lia|..];
        by destruct i || by destruct j.
    + intros e ->%list_elem_of_singleton. cbn. lia.
  - cbn. apply Forall_map, Forall_true. done.
  - unfold bounded. rewrite <-Is_true_true, forallb_True, Forall_lookup. intros n rf [-> _]%init_nodes.
    by rewrite bool_decide_true.
Qed.

Lemma reachable_wf peers cl : reachable peers cl -> cluster_wf peers cl /\ bounded cl = true.
Proof.
  induction 1 as [|cl e cl' Hr [Hwf Hb] He Hb']; [apply init_wf|].
  split; [|done]. by apply (exec_keeps peers e cl).
Qed.

(** ** The theorems *)

(** C17 The logs of a cluster: in every run every server's log starts with the
    dummy entry position 0, the entry at position [i] has index [i], the terms
    along the log never decrease and none exceeds the server's current term;
    and so it is with the entries of every AppendEntries in flight, which
    continue the entry it names. *)
Theorem logs_well_formed peers cl :
  reachable peers cl ->
  (forall n rf, nodes cl !! n = Some rf ->
     0 < zlen (log rf) /\ (forall i e, log rf !! i = Some e -> eIndex e = Z.of_nat i) /\
     terms_sorted (log rf) /\ terms_between 0 (currentTerm rf) (log rf)) /\
  (forall n from ch args, (n, MAppend from ch args) ∈ tasks cl ->
     numbered (S (Z.to_nat (PrevLogIndex args))) (Entries args) /\ terms_sorted (Entries args) /\
     terms_between (PrevLogTerm args) (aeTerm args) (Entries args)).
Proof.
  intros [Hwf _]%reachable_wf. split.
  - intros n rf Hn. destruct (wf_log _ _ _ (wf_nodes _ _ Hwf n rf Hn)) as ([H0 Hi] & Hs & Hb). done.
  - intros n from ch args Hin. pose proof (proj1 (Forall_forall _ _) (wf_tasks _ _ Hwf) _ Hin) as Hm.
    destruct Hm as ((_ & _ & Hn & _) & _ & Hs & Hb). done.
Qed.

(** Terms are monotone: no event makes a server's current term smaller. *)
Theorem terms_never_decrease peers cl e cl' :
  reachable peers cl -> exec e cl = Ret cl' -> bounded cl' = true ->
  forall n rf rf', nodes cl !! n = Some rf -> nodes cl' !! n = Some rf' ->
    currentTerm rf <= currentTerm rf'.
Proof. intros [Hwf Hb]%reachable_wf He Hb'. apply (exec_keeps peers e cl cl' Hwf Hb He Hb'). Qed.

(** C18 RPC handlers never panic: whenever a RequestVote or an AppendEntries that
    some server really sent reaches a server, in whatever state the two are by
    then, the handler either returns or waits on the full notification channel
    of a follower. *)
Theorem handlers_never_panic peers cl k n t rf :
  reachable peers cl -> tasks cl !! k = Some (n, t) -> nodes cl !! n = Some rf ->
  (exists from ch args, t = MAppend from ch args) \/ (exists from ch args, t = MReqVote from ch args) ->
  if decide (state rf = FOLLOWER /\ numPeers rf <= rpcCh rf)
  then exec (ERun k Go) cl = Block
  else exists cl', exec (ERun k Go) cl = Ret cl'.
Proof.
  intros [Hwf Hb]%reachable_wf Hk Hn Ht. cbn [exec]. rewrite Hk, Hn.
  pose proof (wf_nodes _ _ Hwf n rf Hn) as Hrf. pose proof (bounded_lookup _ _ _ Hb Hn) as Hsz.
  pose proof (proj1 (Forall_lookup _ _) (wf_tasks _ _ Hwf) _ _ Hk) as Hm.
  destruct (decide (state rf = FOLLOWER /\ numPeers rf <= rpcCh rf)) as [[Hf Hfull]|Hfree].
  - assert (notify rf = Block) as Hnot
      by (unfold notify; rewrite decide_True by done; by rewrite decide_False by lia).
    destruct Ht as [(from & ch & args & ->)|(from & ch & args & ->)]; cbn [run_task];
      unfold sendRequestVote, sendAppendEntries;
      [unfold AppendEntries|unfold RequestVote]; by rewrite Hnot.
  - assert (state rf = FOLLOWER -> rpcCh rf < numPeers rf) as Hn' by lia.
    destruct Ht as [(from & ch & args & ->)|(from & ch & args & ->)];
      cbn [run_task]; unfold sendRequestVote, sendAppendEntries.
    + destruct (AppendEntries_cases args rf (node_wf_ok _ _ _ Hrf Hsz) (proj1 Hm) Hn') as [c ->]. cbv zeta.
      destruct (decide (aeTerm args < currentTerm rf)); [eauto|].
      destruct (decide (accepts args (log rf))); eauto.
    + destruct (RequestVote_cases args rf Hn') as (rf' & reply & effs & -> & _). eauto.
Qed.
