(* ===== verification/RaftMatching.v ===== *)
(** * RaftMatching: the replication of logs, apart from elections

    Elections and [Start] break Raft's guarantees ([RaftTraces]).  This file
    shows what the rest of the code keeps when neither goes wrong: in every run
    in which a term has one leader and [Start] appends only while its server
    still is the leader, the logs match.  And it shows that this is not enough:
    a follower acknowledges the length of its own log, so even then a leader
    commits entries that are lost. *)
From S2P Require Import Prelude RaftNode RaftProps RaftTheorems RaftNet RaftCluster.

(** ** Runs with one leader per term *)

(** [lead t] is the only server that may be leader of term [t]. *)
Definition led_by (lead : Z -> nat) (cl : cluster) : bool :=
  forallb (fun p : nat * Raft => negb (isState LEADER p.2) || bool_decide (lead (currentTerm p.2) = p.1))
    (imap (fun n rf => (n, rf)) (nodes cl)).

(** The second critical section of [Start] runs while the server is still the
    leader. *)
Definition starts_in_office (e : event) (cl : cluster) : bool :=
  match e with
  | ERun k _ =>
      match tasks cl !! k with
      | Some (n, TStart1 _) =>
          match nodes cl !! n with Some rf => isState LEADER rf | None => true end
      | _ => true
      end
  | _ => true
  end.

Inductive led (lead : Z -> nat) (peers : nat) : cluster -> Prop :=
  | led_init : led lead peers (init peers)
  | led_exec cl e cl' : led lead peers cl -> starts_in_office e cl = true -> exec e cl = Ret cl' ->
      bounded cl' = true -> led_by lead cl' = true -> led lead peers cl'.

Lemma led_reachable lead peers cl : led lead peers cl -> reachable peers cl.
Proof. induction 1; [apply reach_init|by eapply reach_exec]. Qed.

Lemma led_by_spec lead cl n rf :
  led_by lead cl = true -> nodes cl !! n = Some rf -> state rf = LEADER -> lead (currentTerm rf) = n.
Proof.
  unfold led_by. rewrite <-Is_true_true, forallb_True, Forall_lookup. intros H Hn Hs.
  specialize (H n (n, rf)). rewrite list_lookup_imap, Hn in H. specialize (H eq_refl). cbn in H.
  unfold isState in H. rewrite (bool_decide_true (state rf = LEADER)) in H by done.
  by apply bool_decide_unpack in H.
Qed.

Lemma init_led_by lead peers : led_by lead (init peers) = true.
Proof.
  unfold led_by. rewrite <-Is_true_true, forallb_True, Forall_lookup. intros i p.
  rewrite list_lookup_imap. destruct (nodes (init peers) !! i) as [rf|] eqn:Hrf; [|done].
  apply init_nodes in Hrf as [-> _]. by intros [= <-].
Qed.

Lemma led_led_by lead peers cl : led lead peers cl -> led_by lead cl = true.
Proof. destruct 1; [apply init_led_by|done]. Qed.

(** A script all of whose states have the leaders [lead]; with [office] its
    [Start]s append in office. *)
Fixpoint led_script (office : bool) (lead : Z -> nat) (os : list order) (cl : cluster) : bool :=
  match os with
  | [] => true
  | o :: os =>
      let e := event_of o cl in
      (negb office || starts_in_office e cl) &&
      match exec e cl with
      | Ret cl => bounded cl && led_by lead cl && led_script office lead os cl
      | _ => false
      end
  end.

Lemma led_script_led lead peers os cl cl' :
  led lead peers cl -> led_script true lead os cl = true -> script os cl = Ret cl' -> led lead peers cl'.
Proof.
  revert cl. induction os as [|o os IH]; intros cl Hl Hos Hs; cbn [led_script script negb orb] in *.
  - by injection Hs as <-.
  - apply andb_prop in Hos as [Hoff Hos]. destruct (exec (event_of o cl) cl) as [cl1|c|] eqn:He; [|done..].
    apply andb_prop in Hos as [[Hb Hled]%andb_prop Hos]. rewrite bind_Ret_l, Hb in Hs.
    apply (IH cl1); [|done..]. by apply (led_exec lead peers cl (event_of o cl)).
Qed.

(** ** Matching logs *)

Definition match_upto (l l' : list LogEntry) : Prop :=
  forall i e e', l !! i = Some e -> l' !! i = Some e' -> eTerm e = eTerm e' ->
    take (S i) l = take (S i) l'.

Lemma match_upto_refl l : match_upto l l.
Proof. done. Qed.

Lemma match_upto_sym l l' : match_upto l l' -> match_upto l' l.
Proof. intros H i e e' He He' Ht. symmetry. by apply (H i e' e). Qed.

(** Two lists that agree up to [i] agree at every position up to [i]. *)
Lemma take_eq_lookup (l l' : list LogEntry) i j :
  take (S i) l = take (S i) l' -> (j <= i)%nat -> l !! j = l' !! j.
Proof.
  intros H Hj. rewrite <-(lookup_take_lt l (S i) j), <-(lookup_take_lt l' (S i) j) by lia. by rewrite H.
Qed.

(** [args] carries the entries of [L] after the one it names. *)
Definition carries (args : AppendEntriesArgs) (L : list LogEntry) : Prop :=
  0 <= PrevLogIndex args /\
  (exists e, L !! Z.to_nat (PrevLogIndex args) = Some e /\ eTerm e = PrevLogTerm args) /\
  Entries args = drop (S (Z.to_nat (PrevLogIndex args))) L.

(** The merge of what [L] has from position [p] on into a log that matches [L]
    and agrees with it below [p] gives one of the two. *)
Lemma reference_either p l L :
  match_upto l L -> take p l = take p L -> (p <= length l)%nat ->
  reference p (drop p L) l = l \/ reference p (drop p L) l = L.
Proof.
  remember (drop p L) as es eqn:Hes. revert p Hes.
  induction es as [|e es IH]; intros p Hes Hm Ht Hp; cbn [reference]; [by left|].
  assert (take p l ++ e :: es = L) as Hcut by (rewrite Ht, Hes; apply take_drop).
  assert (L !! p = Some e) as HL.
  { rewrite <-(Nat.add_0_r p), <-(lookup_drop L p 0), <-Hes. done. }
  destruct (l !! p) as [old|] eqn:Hold; [|by right]. case_decide as Hterm; [|by right].
  apply (IH (S p)); [|done| |by apply lookup_lt_Some in Hold].
  - by rewrite <-Nat.add_1_r, <-drop_drop, <-Hes.
  - by apply (Hm p old e).
Qed.

Lemma accepted_either args l L :
  match_upto l L -> carries args L -> accepts args l ->
  reference (S (Z.to_nat (PrevLogIndex args))) (Entries args) l = l \/
  reference (S (Z.to_nat (PrevLogIndex args))) (Entries args) l = L.
Proof.
  intros Hm (_ & (e & He & Het) & ->) (e' & He' & Het').
  apply reference_either; [done| |by apply lookup_lt_Some in He'].
  apply (Hm _ e' e); [done|done|congruence].
Qed.

(** ** The invariant

    [hist] are the logs a server has or had when it sent a message. *)

Definition dummy : LogEntry := mkEntry (IInt 0) 0 0.

Record matched (lead : Z -> nat) (hist : list (list LogEntry)) (cl : cluster) : Prop := {
  m_nodes : forall n rf, nodes cl !! n = Some rf -> log rf ∈ hist;
  m_tasks : forall n from ch args, (n, MAppend from ch args) ∈ tasks cl ->
    n <> lead (aeTerm args) /\ exists L, L ∈ hist /\ carries args L;
  m_heads : forall L, L ∈ hist -> L !! 0%nat = Some dummy;
  m_match : forall L L', L ∈ hist -> L' ∈ hist -> match_upto L L';
  (* an entry of term [t] is in the log of the leader of [t] while that is in term [t] *)
  m_created : forall L i e rf, L ∈ hist -> L !! i = Some e -> nodes cl !! lead (eTerm e) = Some rf ->
    eTerm e <= currentTerm rf /\ (currentTerm rf = eTerm e -> log rf !! i = Some e);
}.

Definition appends_of (cl cl' : cluster) : Prop :=
  forall n from ch args, (n, MAppend from ch args) ∈ tasks cl' -> (n, MAppend from ch args) ∈ tasks cl.

(** A step that changes no log and sends no entries. *)
Record quiet (n : nat) (rf : Raft) (cl cl' : cluster) : Prop := {
  q_nodes : exists rf', nodes cl' = <[n := rf']> (nodes cl) /\ log rf' = log rf /\
    currentTerm rf <= currentTerm rf';
  q_tasks : appends_of cl cl';
}.

Lemma quiet_matching lead hist n rf cl cl' :
  matched lead hist cl -> nodes cl !! n = Some rf -> quiet n rf cl cl' -> matched lead hist cl'.
Proof.
  intros [Hn Ht Hh Hm Hc] Hrf [(rf' & Hn' & Hl & Hle) Ht']. split; [| |done..|].
  - rewrite Hn'. intros k q [(_ & <- & _)|[_ Hq]]%list_lookup_insert_Some; [|by apply (Hn k)].
    rewrite Hl. by apply (Hn n).
  - intros k from ch args Hin. by apply (Ht k from ch), Ht'.
  - intros L i e q HL Hi. rewrite Hn'.
    intros [(Hk & <- & _)|[_ Hq]]%list_lookup_insert_Some; [|by apply (Hc L)].
    destruct (Hc L i e rf HL Hi) as [H1 H2]; [by rewrite <-Hk|].
    split; [lia|]. rewrite Hl. intros Heq. apply H2. lia.
Qed.

(** Nothing among the effects sends entries. *)
Definition sends_none (effs : list effect) : Prop :=
  Forall (fun e => match e with SendAppendEntries _ _ => False | _ => True end) effs.

(** A critical section that leaves the log alone and sends no entries. *)
Definition idle (rf rf' : Raft) (effs : list effect) : Prop :=
  log rf' = log rf /\ currentTerm rf <= currentTerm rf' /\ sends_none effs.

Definition no_append (ts : list (nat * task)) : Prop :=
  Forall (fun t : nat * task => match t.2 with MAppend _ _ _ => False | _ => True end) ts.

Lemma spawn_no_append n ch effs : sends_none effs -> no_append (concat (map (spawn n ch) effs)).
Proof.
  induction 1 as [|e effs He _ IH]; cbn; [constructor|]. apply Forall_app. split; [|done].
  destruct e; by repeat constructor.
Qed.

Lemma no_append_elem ts n from ch args : no_append ts -> (n, MAppend from ch args) ∉ ts.
Proof. intros H Hin. exact (proj1 (Forall_forall _ _) H _ Hin). Qed.

Lemma update_quiet n ch rf rf' effs ts cl cl0 :
  nodes cl0 = nodes cl -> appends_of cl cl0 ->
  idle rf rf' effs -> no_append ts -> quiet n rf cl (update n ch rf' effs ts cl0).
Proof.
  intros Hn Ht (Hl & Hle & He) Hts. split; [exists rf'; cbn; by rewrite Hn|].
  intros k from c args [H|[H|H]%elem_of_app]%elem_of_app; [by apply Ht|exfalso..].
  - by apply (no_append_elem _ _ _ _ _ (spawn_no_append n ch effs He) H).
  - by apply (no_append_elem _ _ _ _ _ Hts H).
Qed.

Lemma appends_refl cl : appends_of cl cl.
Proof. by intros k from ch args. Qed.

Lemma appends_delete j cl : appends_of cl (set_tasks (delete j (tasks cl)) cl).
Proof. intros k from ch args Hin. cbn in Hin. by apply list_elem_of_delete_inv in Hin. Qed.

#[local] Hint Resolve appends_refl appends_delete : core.

Definition touches_logs (t : task) : bool :=
  match t with TReplicate _ | TStart1 _ | MAppend _ _ _ => true | _ => false end.

Lemma apply_from_sends_none k i l effs : apply_from k i l = Ret effs -> sends_none effs.
Proof.
  revert i effs. induction k as [|k IH]; intros i effs Hr; cbn [apply_from] in Hr.
  - apply (inj Ret) in Hr as <-. constructor.
  - bind_inv Hr. bind_inv Hr. apply (inj Ret) in Hr as <-. constructor; [done|]. by apply (IH (i + 1)).
Qed.

Lemma RequestVote_quiet args rf rf' reply effs :
  RequestVote args rf = Ret (rf', reply, effs) ->
  idle rf rf' effs.
Proof.
  intros Hr. destruct (RequestVote_cases args rf (RequestVote_Ret _ _ _ _ _ Hr))
    as (? & ? & ? & Hr' & H1 & _ & _ & H4 & _ & _ & -> & _).
  rewrite Hr in Hr'. injection Hr' as <- <- ->. split_and!; [done|lia|].
  destruct (decide _); by repeat constructor.
Qed.

Lemma commitAt_quiet index rf rf' effs :
  commitAt index rf = Ret (rf', effs) ->
  idle rf rf' effs.
Proof.
  unfold commitAt. intros Hr. destruct (decide (index <= commitIndex rf)).
  { apply (inj Ret) in Hr. injection Hr as <- <-. split_and!; [done|lia|constructor]. }
  do 3 bind_inv Hr. apply (inj Ret) in Hr. injection Hr as <- <-.
  destruct (decide _); split_and!; try done; cbn; try lia; by apply apply_from_sends_none in E1.
Qed.

Lemma startElection_begin_quiet rf rf' effs :
  startElection_begin rf = Ret (rf', effs) ->
  idle rf rf' effs.
Proof.
  unfold startElection_begin. intros Hr. destruct (killed rf).
  - apply (inj Ret) in Hr. injection Hr as <- <-. split_and!; [done|lia|constructor].
  - bind_inv Hr. apply (inj Ret) in Hr. injection Hr as <- <-. split_and!; [done|cbn; lia|].
    apply Forall_map, Forall_true. done.
Qed.

Lemma replies_quiet rf :
  (forall reply rf' effs over, startElection_reply reply rf = (rf', effs, over) ->
     idle rf rf' effs) /\
  (forall reply rf' effs over, handleReply_term reply rf = (rf', effs, over) ->
     idle rf rf' effs) /\
  (forall reply rf' effs, handleReply_update reply rf = Ret (rf', effs) ->
     idle rf rf' effs).
Proof.
  unfold startElection_reply, handleReply_term, handleReply_update. split_and!.
  - intros reply rf' effs over Hr. repeat case_match; simplify_eq;
      (split; [done|split; [cbn; lia|by repeat constructor]]).
  - intros reply rf' effs over Hr. repeat case_match; simplify_eq;
      (split; [done|split; [cbn; lia|by repeat constructor]]).
  - intros reply rf' effs Hr. destruct (Success reply); [destruct (IsHeartbeat reply)|].
    + apply (inj Ret) in Hr. injection Hr as <- <-. split_and!; [done|lia|constructor].
    + do 3 bind_inv Hr. apply (inj Ret) in Hr. injection Hr as <- <-.
      split_and!; [done|cbn; lia|by repeat constructor].
    + do 2 bind_inv Hr. apply (inj Ret) in Hr. injection Hr as <- <-.
      split_and!; [done|cbn; lia|constructor].
Qed.

Lemma toFollower_rpc_quiet rf rf' : toFollower_rpc rf = Ret rf' -> idle rf rf' [].
Proof.
  unfold toFollower_rpc. intros Hr. destruct (decide _); [|done]. apply (inj Ret) in Hr as <-.
  by split_and!; [|cbn; lia|constructor].
Qed.

(** The goals [update_quiet] leaves. *)
Ltac quiet_tac :=
  first [done | apply appends_refl | apply appends_delete | by repeat constructor |
         split_and!; [done|cbn; lia|by repeat constructor] | repeat case_match; by repeat constructor].

Lemma quiet_task n t c rf cl cl' :
  nodes cl !! n = Some rf -> touches_logs t = false -> run_task n t c rf cl = Ret cl' ->
  quiet n rf cl cl'.
Proof.
  intros Hrf Ht Hrun. destruct (replies_quiet rf) as (Hel & Hht & Hhu).
  assert (forall cl1, quiet n rf cl cl1 -> quiet n rf cl (bump cl1)) as Hbump by (by intros cl1 []).
  destruct t; try discriminate Ht; destruct c; try discriminate Hrun; unfold_task Hrun;
    try match type of Hrun with context [killed ?x] => destruct (killed x) end;
    try (apply (inj Ret) in Hrun as <-; try apply Hbump; apply update_quiet; quiet_tac).
  - bind_inv Hrun. apply (inj Ret) in Hrun as <-. apply toFollower_rpc_quiet in E.
    apply update_quiet; quiet_tac.
  - bind_inv Hrun. destruct r as [rf' effs]. apply (inj Ret) in Hrun as <-. apply Hbump.
    apply startElection_begin_quiet in E. apply update_quiet; quiet_tac.
  - take_message Hrun. destruct (startElection_reply _ rf) as [[rf' effs] over] eqn:He.
    apply Hel in He. apply (inj Ret) in Hrun as <-. apply update_quiet; quiet_tac.
  - take_message Hrun. apply (inj Ret) in Hrun as <-. apply update_quiet; quiet_tac.
  - take_message Hrun. destruct (handleReply_term _ rf) as [[rf' effs] over] eqn:He.
    apply Hht in He. apply (inj Ret) in Hrun as <-. apply update_quiet; quiet_tac.
  - bind_inv Hrun. destruct r as [rf' effs]. apply (inj Ret) in Hrun as <-. apply Hhu in E.
    apply update_quiet; quiet_tac.
  - bind_inv Hrun. destruct r as [rf' effs]. apply (inj Ret) in Hrun as <-. apply commitAt_quiet in E.
    apply update_quiet; quiet_tac.
  - bind_inv Hrun. destruct r as [[rf' reply] effs]. apply (inj Ret) in Hrun as <-.
    apply RequestVote_quiet in E. apply update_quiet; quiet_tac.
Qed.

(** ** The steps that touch logs *)

(** What a leader sends: its log to others, with its commit index. *)
Definition sends_log (n : nat) (rf : Raft) (eff : effect) : Prop :=
  match eff with
  | SendAppendEntries si args => Z.to_nat si <> n /\ aeTerm args = currentTerm rf /\
      carries args (log rf) /\ LeaderCommit args = commitIndex rf /\
      (Entries args = [] \/ nextIndex rf !! Z.to_nat si = Some (PrevLogIndex args + 1))
  | _ => False
  end.

Lemma sent_from_log n N rf effs :
  node_wf n N rf -> replicate_to (others rf) rf = Ret effs -> Forall (sends_log n rf) effs.
Proof.
  intros Hwf. assert (forall si, si ∈ others rf -> Z.to_nat si <> n) as Hto.
  { intros si [? Hne]%others_in. rewrite (wf_me _ _ _ Hwf) in Hne. lia. }
  revert Hto effs. generalize (others rf) as l. induction l as [|si l IH]; intros Hto effs Hr;
    cbn [replicate_to] in Hr.
  { apply (inj Ret) in Hr as <-. constructor. }
  bind_inv Hr. bind_inv Hr. apply (inj Ret) in Hr as <-. constructor; [|apply IH; [set_solver|done]].
  split; [apply Hto; left|]. pose proof (proj1 (wf_log _ _ _ Hwf)) as Hok.
  destruct (go_index (nextIndex rf) si) as [next|c|] eqn:Hnx.
  2,3: unfold replicate_args in E; destruct (log_ok_last _ Hok) as (e & He & _);
    rewrite He, bind_Ret_l, Hnx in E; done.
  pose proof (replicate_args_spec si rf next Hok Hnx) as Hspec.
  destruct (decide (next <= 0)) as [|Hpos]; [congruence|].
  destruct Hspec as (prev & e0 & Hprev & He0 & Heq). rewrite Heq in E. apply (inj Ret) in E as <-.
  destruct Hok as [H0 _]. split; [done|]. split; [split; cbn; [lia|]; eauto|].
  split; [done|]. cbn. destruct (decide (next < zlen (log rf))).
  - right. apply go_index_Ret in Hnx as [_ ->]. f_equal. lia.
  - left. apply drop_ge. unfold zlen in *. lia.
Qed.

Lemma replicate_matching lead hist n N rf ch effs cl :
  matched lead hist cl -> nodes cl !! n = Some rf -> node_wf n N rf ->
  (state rf = LEADER -> lead (currentTerm rf) = n) -> replicate rf = Ret effs ->
  matched lead hist (update n ch rf effs [] cl).
Proof.
  intros [Hn Ht Hh Hm Hc] Hrf Hwf Hlead Hr.
  assert (<[n := rf]> (nodes cl) = nodes cl) as Hsame by by apply list_insert_id.
  split; cbn; rewrite ?Hsame; try done. rewrite app_nil_r.
  intros k from c args [Hin|Hin]%elem_of_app; [by apply (Ht k from c)|].
  unfold replicate in Hr. destruct (decide (state rf = LEADER)) as [Hs|].
  2:{ apply (inj Ret) in Hr as <-. by apply not_elem_of_nil in Hin. }
  apply (sent_from_log n N) in Hr; [|done]. specialize (Hlead Hs).
  induction Hr as [|e effs He _ IH]; cbn in Hin; [by apply not_elem_of_nil in Hin|].
  apply elem_of_app in Hin as [Hin|]; [|by apply IH].
  destruct e; try done. cbn in Hin.
  apply list_elem_of_singleton in Hin as [= -> -> -> ->]. destruct He as (H1 & H2 & H3 & _).
  split; [by rewrite H2, Hlead|]. exists (log rf). split; [by apply (Hn n)|done].
Qed.

Lemma AppendEntries_log n N args L rf rf' reply effs :
  node_wf n N rf -> zlen (log rf) <= 2 ^ 53 -> msg_wf args -> carries args L -> match_upto (log rf) L ->
  AppendEntries args rf = Ret (rf', reply, effs) ->
  currentTerm rf <= currentTerm rf' /\ sends_none effs /\
  (log rf' = log rf \/ (log rf' = L /\ currentTerm rf' = aeTerm args)).
Proof.
  intros Hwf Hsz Hm Hcar Hmat Hrun. pose proof (node_wf_ok _ _ _ Hwf Hsz) as Hok.
  destruct (AppendEntries_cases args rf Hok (proj1 Hm) (AppendEntries_notified _ _ _ _ _ Hrun)) as [c Hcase].
  rewrite Hrun in Hcase. cbv zeta in Hcase. set (rf0 := set_rpcCh c rf) in *.
  destruct (decide (aeTerm args < currentTerm rf)) as [Hlt|Hge].
  { injection Hcase as -> _ ->. cbn. split_and!; [lia|constructor|by left]. }
  assert (log (adopt args rf0) = log rf /\ currentTerm (adopt args rf0) = aeTerm args) as [H1 H2].
  { unfold adopt. destruct (decide (steps_down args rf0)) as [Hs|Hs]; [done|]. split; [done|].
    assert (~ currentTerm rf < aeTerm args) by (intros ?; apply Hs; by left). cbn. lia. }
  assert (sends_none (adopt_effs args rf0)) as Hadopt
    by (unfold adopt_effs; destruct (decide (steps_down args rf0 /\ state rf0 <> FOLLOWER));
        by repeat constructor).
  destruct (decide (accepts args (log rf))) as [Hacc|]; injection Hcase as -> _ ->; cbn.
  - rewrite H2. split_and!; [lia| |].
    + apply Forall_app. split; [done|]. apply Forall_map, Forall_true. done.
    + destruct (accepted_either args (log rf) L Hmat Hcar Hacc) as [->| ->]; [by left|by right].
  - rewrite H1, H2. split_and!; [lia|done|by left].
Qed.

Lemma accept_matching lead hist n rf rf' L effs ts cl :
  matched lead hist cl -> nodes cl !! n = Some rf -> L ∈ hist -> n <> lead (currentTerm rf') ->
  currentTerm rf <= currentTerm rf' -> log rf' = L -> sends_none effs -> no_append ts ->
  matched lead hist (update n 0 rf' effs ts cl).
Proof.
  intros [Hn Ht Hh Hm Hc] Hrf HL Hne Hle Hlog He Hts. split; cbn; try done.
  - intros k q [(_ & <- & _)|[_ Hq]]%list_lookup_insert_Some; [by rewrite Hlog|by apply (Hn k)].
  - intros k from c args [H|[H|H]%elem_of_app]%elem_of_app; [by apply (Ht k from c)|exfalso..].
    + by apply (no_append_elem _ _ _ _ _ (spawn_no_append n 0 effs He) H).
    + by apply (no_append_elem _ _ _ _ _ Hts H).
  - intros L0 i e q HL0 Hi [(Hk & <- & _)|[_ Hq]]%list_lookup_insert_Some; [|by apply (Hc L0)].
    destruct (Hc L0 i e rf HL0 Hi) as [H1 _]; [by rewrite <-Hk|]. split; [lia|].
    intros Heq. by rewrite Heq, <-Hk in Hne.
Qed.

Lemma take_snoc_lookup (l : list LogEntry) x i :
  (i < length l)%nat -> take (S i) (l ++ [x]) = take (S i) l.
Proof. intros Hi. rewrite take_app_le; [done|lia]. Qed.

Lemma append_matching lead hist n rf command rf' r effs cl :
  matched lead hist cl -> nodes cl !! n = Some rf -> lead (currentTerm rf) = n ->
  Start_append command rf = (rf', r, effs) ->
  matched lead (log rf' :: hist) (update n 0 rf' effs [] cl).
Proof.
  intros [Hn Ht Hh Hm Hc] Hrf Hlead Hr. injection Hr as <- _ <-.
  set (new := mkEntry command (currentTerm rf) (zlen (log rf))). set (l' := log rf ++ [new]).
  pose proof (Hn n rf Hrf) as Hl. pose proof (Hh _ Hl) as Hhead.
  pose proof (lookup_lt_Some _ _ _ Hhead) as Hpos.
  (* an entry of this term elsewhere is in the log already *)
  assert (forall L i e, L ∈ hist -> L !! i = Some e -> eTerm e = currentTerm rf -> log rf !! i = Some e)
    as Hown by (intros L i e HL Hi Hterm; apply (Hc L i e rf HL Hi); by rewrite Hterm, ?Hlead).
  assert (forall L, L ∈ hist -> match_upto l' L) as Hnew.
  { intros L HL i e e' He He' Hterm. apply lookup_app_Some in He as [He|[Hge He]].
    - unfold l'. rewrite take_snoc_lookup by (by apply lookup_lt_Some in He).
      by apply (Hm (log rf) L Hl HL i e e').
    - apply list_lookup_singleton_Some in He as [Hz <-]. exfalso.
      specialize (Hown L i e' HL He' (eq_sym Hterm)). apply lookup_lt_Some in Hown. lia. }
  split; cbn.
  - intros k q [(_ & <- & _)|[_ Hq]]%list_lookup_insert_Some; [left|right; by apply (Hn k)].
  - intros k from c args [H|H]%elem_of_app.
    + destruct (Ht k from c args H) as (H1 & L & HL & Hcar). split; [done|]. exists L. split; [by right|done].
    + by apply list_elem_of_singleton in H.
  - intros L [->|HL]%elem_of_cons; [|by apply Hh]. unfold l'. by rewrite lookup_app_l.
  - intros L L' [->|HL]%elem_of_cons [->|HL']%elem_of_cons.
    + apply match_upto_refl.
    + by apply Hnew.
    + by apply match_upto_sym, Hnew.
    + by apply Hm.
  - intros L i e q HL Hi Hq.
    assert ((exists L0, L0 ∈ hist /\ L0 !! i = Some e) \/ i = length (log rf) /\ e = new)
      as [(L0 & HL0 & Hi0)|[-> ->]].
    { apply elem_of_cons in HL as [->|HL]; [|left; by exists L].
      apply lookup_app_Some in Hi as [Hi|[Hge Hi]]; [left; by exists (log rf)|].
      apply list_lookup_singleton_Some in Hi as [Hz <-]. right. split; [lia|done]. }
    + apply list_lookup_insert_Some in Hq as [(Hk & <- & _)|[_ Hq]]; [|by apply (Hc L0)].
      destruct (Hc L0 i e rf HL0 Hi0) as [H1 H2]; [by rewrite <-Hk|]. cbn. split; [done|]. intros Heq.
      unfold l'. rewrite lookup_app_l; [by apply H2|]. by eapply lookup_lt_Some, H2.
    + cbn in Hq. rewrite Hlead, list_lookup_insert_eq in Hq by (by apply lookup_lt_Some in Hrf).
      injection Hq as <-. cbn. split; [done|]. intros _. unfold l'.
      by rewrite lookup_app_r, Nat.sub_diag by done.
Qed.

(** ** Every event preserves it *)

Lemma matching_delete lead hist k cl :
  matched lead hist cl -> matched lead hist (set_tasks (delete k (tasks cl)) cl).
Proof.
  intros [Hn Ht Hh Hm Hc]. split; try done. intros n from ch args Hin. apply (Ht n from ch).
  by apply (appends_delete k cl).
Qed.

Lemma run_task_matching lead hist N n t c rf cl cl' :
  matched lead hist cl -> cluster_wf N cl -> bounded cl = true -> led_by lead cl = true ->
  nodes cl !! n = Some rf -> task_wf (n, t) ->
  (forall from ch args, t = MAppend from ch args ->
     n <> lead (aeTerm args) /\ exists L, L ∈ hist /\ carries args L) ->
  (forall command, t = TStart1 command -> state rf = LEADER) ->
  run_task n t c rf cl = Ret cl' -> exists hist', matched lead hist' cl'.
Proof.
  intros Hmat Hwf Hb Hled Hrf Htwf Hmsg Hstart Hrun. pose proof (wf_nodes _ _ Hwf n rf Hrf) as Hn.
  destruct (touches_logs t) eqn:Ht.
  2:{ exists hist. by eapply (quiet_matching lead hist n rf cl), quiet_task. }
  destruct t; try discriminate Ht; destruct c; try discriminate Hrun; unfold_task Hrun.
  - bind_inv Hrun. apply (inj Ret) in Hrun as <-. exists hist.
    apply (replicate_matching lead hist n N); try done. by apply (led_by_spec lead cl).
  - destruct (Start_append command rf) as [[rf' r] effs] eqn:He. apply (inj Ret) in Hrun as <-.
    eexists. apply (append_matching lead hist n rf command rf' r effs cl); try done.
    apply (led_by_spec lead cl); [done..|by apply (Hstart command)].
  - bind_inv Hrun. destruct r as [[rf' reply] effs]. apply (inj Ret) in Hrun as <-. exists hist.
    destruct (Hmsg from ch args eq_refl) as (Hto & L & HL & Hcar).
    destruct (AppendEntries_log n N args L rf rf' reply effs) as (Hle & Hs & Hlog); try done.
    { by apply (bounded_lookup cl n). }
    { apply (m_match _ _ _ Hmat); [|done]. by apply (m_nodes _ _ _ Hmat n). }
    destruct Hlog as [Hlog|[Hlog Hterm]].
    + apply (quiet_matching lead hist n rf cl); [done..|]. apply update_quiet; by repeat constructor.
    + apply (accept_matching lead hist n rf rf' L); try done; [congruence|by repeat constructor].
Qed.

Lemma led_matching lead peers cl : led lead peers cl -> exists hist, matched lead hist cl.
Proof.
  induction 1 as [|cl e cl' Hr [hist IH] Hs He Hb Hl].
  { exists [[dummy]]. split.
    - intros n rf [-> _]%init_nodes. left.
    - cbn. intros n from ch args (i & [=] & _)%list_elem_of_fmap.
    - by intros L ->%list_elem_of_singleton.
    - intros L L' ->%list_elem_of_singleton ->%list_elem_of_singleton. apply match_upto_refl.
    - intros L [|i] e rf ->%list_elem_of_singleton Hi; cbn in Hi; [|done]. injection Hi as <-.
      by intros [-> _]%init_nodes. }
  pose proof (led_reachable _ _ _ Hr) as [Hwf Hb0]%reachable_wf.
  destruct e as [k c|k|n command|n]; cbn [exec] in He.
  - destruct (tasks cl !! k) as [[n t]|] eqn:Hk; [|done]. destruct (nodes cl !! n) as [rf|] eqn:Hrf; [|done].
    refine (run_task_matching lead hist peers n t c rf _ cl' (matching_delete lead hist k cl IH)
      (cluster_wf_delete peers k cl Hwf) Hb0 (led_led_by _ _ _ Hr) Hrf _ _ _ He).
    + exact (proj1 (Forall_lookup _ _) (wf_tasks _ _ Hwf) _ _ Hk).
    + intros from ch args ->. apply (m_tasks _ _ _ IH n from ch args).
      by apply list_elem_of_lookup_2 in Hk.
    + intros command ->. cbn [starts_in_office] in Hs. rewrite Hk, Hrf in Hs.
      by apply bool_decide_eq_true in Hs.
  - destruct (tasks cl !! k) as [[n t]|]; [|done]. destruct (is_message t); [|done].
    apply (inj Ret) in He as <-. exists hist. by apply matching_delete.
  - exists hist. destruct (nodes cl !! n) as [rf|] eqn:Hrf; [|done].
    destruct (Start_check rf); apply (inj Ret) in He as <-; [|done].
    apply (quiet_matching lead hist n rf cl); [done..|]. apply update_quiet; quiet_tac.
  - exists hist. destruct (nodes cl !! n) as [rf|] eqn:Hrf; [|done]. apply (inj Ret) in He as <-.
    apply (quiet_matching lead hist n rf cl); [done..|]. apply update_quiet; quiet_tac.
Qed.

(** ** The theorems *)

(** C10 Log Matching: in every run in which each term has one leader and [Start]
    appends only while its server is the leader, two logs that have entries of
    the same term at one index are the same up to that index: same commands,
    terms and indexes.  So it is with the entries in flight: they continue a
    log that matches all the others.  And a leader has every entry of its term
    that any log has, with all before it. *)
Theorem logs_match lead peers cl :
  led lead peers cl ->
  (forall n n' rf rf' i e e', nodes cl !! n = Some rf -> nodes cl !! n' = Some rf' ->
     log rf !! i = Some e -> log rf' !! i = Some e' -> eTerm e = eTerm e' ->
     take (S i) (log rf) = take (S i) (log rf')) /\
  (forall n from ch args, (n, MAppend from ch args) ∈ tasks cl ->
     exists L, carries args L /\
       forall n' rf' i e e', nodes cl !! n' = Some rf' -> L !! i = Some e -> log rf' !! i = Some e' ->
         eTerm e = eTerm e' -> take (S i) L = take (S i) (log rf')) /\
  (forall n n' rf rf' i e, nodes cl !! n = Some rf -> state rf = LEADER -> nodes cl !! n' = Some rf' ->
     log rf' !! i = Some e -> eTerm e = currentTerm rf -> take (S i) (log rf') = take (S i) (log rf)).
Proof.
  intros Hled. destruct (led_matching _ _ _ Hled) as [hist Hm].
  assert (forall n rf, nodes cl !! n = Some rf -> log rf ∈ hist) as Hin by apply Hm.
  split; [|split].
  - intros n n' rf rf' i e e' Hn%Hin Hn'%Hin He He' Ht. by apply (m_match _ _ _ Hm _ _ Hn Hn' i e e').
  - intros n from ch args Hmsg. destruct (m_tasks _ _ _ Hm n from ch args Hmsg) as (_ & L & HL & Hcar).
    exists L. split; [done|]. intros n' rf' i e e' Hn'%Hin He He' Ht.
    by apply (m_match _ _ _ Hm L _ HL Hn' i e e').
  - intros n n' rf rf' i e Hn Hs Hn'%Hin Hi Ht.
    pose proof (led_by_spec _ _ _ _ (led_led_by _ _ _ Hled) Hn Hs) as Hl.
    assert (log rf !! i = Some e) as He
      by (apply (m_created _ _ _ Hm _ i e rf Hn' Hi); [by rewrite Ht, Hl|done]).
    by apply (m_match _ _ _ Hm _ _ Hn' (Hin n rf Hn) i e e).
Qed.
