(* ===== verification/RaftChannels.v ===== *)
(** * RaftChannels: the reply channels of a cluster

    Every leader makes a channel for the replies to its AppendEntries; the
    goroutines it starts and the messages they send carry it.  No two leaders
    have the same, and a reply whose term [handleReply] has compared is not of
    a later term than its server. *)
From S2P Require Import Prelude RaftNode RaftProps RaftTheorems RaftNet RaftCluster RaftMatching.

(** The channel of a leader that a task carries. *)
Definition channel (t : task) : option nat :=
  match t with
  | TLeader ch | TLeaderSel ch | TReplicate ch | THandle ch | THandle1 ch _
  | MAppend _ ch _ | MAppendReply ch _ => Some ch
  | _ => None
  end.

Record tidy (cl : cluster) : Prop := {
  fresh_channels : forall n t ch, (n, t) ∈ tasks cl -> channel t = Some ch -> (ch < fresh cl)%nat;
  checked_replies : forall n ch reply rf, (n, THandle1 ch reply) ∈ tasks cl -> nodes cl !! n = Some rf ->
    aerTerm reply <= currentTerm rf;
}.

Lemma tidy_delete k cl : tidy cl -> tidy (set_tasks (delete k (tasks cl)) cl).
Proof.
  intros [Hf Hc]. split; cbn.
  - intros n t ch Hin%list_elem_of_delete_inv. by apply (Hf n).
  - intros n ch reply rf Hin%list_elem_of_delete_inv. by apply (Hc n ch).
Qed.

Lemma tidy_bump cl : tidy cl -> tidy (bump cl).
Proof. intros [Hf Hc]. split; [|done]. cbn. intros n t ch Hin Ht. specialize (Hf n t ch Hin Ht). lia. Qed.

Lemma spawn_channels n ch effs m t c :
  sends_none effs -> (m, t) ∈ concat (map (spawn n ch) effs) -> channel t <> Some c.
Proof.
  induction 1 as [|e effs He _ IH]; cbn; [by intros ?%not_elem_of_nil|].
  intros [Hin|Hin]%elem_of_app; [|by apply IH].
  destruct e; try done; cbn in Hin; try (by apply list_elem_of_singleton in Hin as [= -> ->]).
  by apply not_elem_of_nil in Hin.
Qed.

(** A step that adds tasks on channels in use. *)
Lemma tidy_update n ch rf rf' effs ts cl :
  tidy cl -> nodes cl !! n = Some rf -> currentTerm rf <= currentTerm rf' ->
  sends_none effs ->
  Forall (fun p => (forall c, channel p.2 = Some c -> (c < fresh cl)%nat) /\
    forall c reply, p.2 = THandle1 c reply -> p.1 = n /\ aerTerm reply <= currentTerm rf') ts ->
  tidy (update n ch rf' effs ts cl).
Proof.
  intros [Hf Hc] Hrf Hle He Hts. split; cbn.
  - intros m t c [Hin|[Hin|Hin]%elem_of_app]%elem_of_app Ht; [by apply (Hf m t)| |].
    + by destruct (spawn_channels n ch effs m t c He Hin).
    + by apply (proj1 (Forall_forall _ _) Hts (m, t) Hin).
  - intros m c reply q Hin Hq. apply elem_of_app in Hin as [Hin|[Hin|Hin]%elem_of_app].
    + apply list_lookup_insert_Some in Hq as [(-> & <- & _)|[_ Hq]]; [|by apply (Hc m c)].
      specialize (Hc m c reply rf Hin Hrf). lia.
    + exfalso. by apply (spawn_channels n ch effs m _ c He Hin).
    + destruct (proj2 (proj1 (Forall_forall _ _) Hts (m, THandle1 c reply) Hin) c reply eq_refl) as [Hm Ht].
      cbn in Hm. subst m. rewrite list_lookup_insert_eq in Hq by exact (lookup_lt_Some _ _ _ Hrf). by injection Hq as <-.
Qed.

Lemma idle_tidy n ch rf rf' effs ts cl :
  tidy cl -> nodes cl !! n = Some rf -> idle rf rf' effs ->
  Forall (fun p => (forall c, channel p.2 = Some c -> (c < fresh cl)%nat) /\
    forall c reply, p.2 = THandle1 c reply -> p.1 = n /\ aerTerm reply <= currentTerm rf') ts ->
  tidy (update n ch rf' effs ts cl).
Proof. intros Ht Hrf (_ & Hle & He). by apply (tidy_update n ch rf). Qed.

Lemma AppendEntries_sends args rf rf' reply effs :
  AppendEntries args rf = Ret (rf', reply, effs) -> currentTerm rf <= currentTerm rf' /\ sends_none effs.
Proof.
  unfold AppendEntries. intros Hr. bind_inv Hr. rename r into rf0.
  assert (currentTerm rf0 = currentTerm rf) as Ht
    by (unfold notify in E; repeat case_match; by simplify_eq).
  destruct (decide (aeTerm args < currentTerm rf0)).
  { apply (inj Ret) in Hr. injection Hr as <- _ <-. split; [lia|constructor]. }
  match type of Hr with (let '(_, _) := ?x in _) = _ => destruct x as [rf1 effs1] eqn:E1 end.
  assert (currentTerm rf0 <= currentTerm rf1 /\ sends_none effs1) as [Hle He].
  { repeat case_match; simplify_eq/=; (split; [lia|by repeat constructor]). }
  bind_inv Hr. destruct r.
  { apply (inj Ret) in Hr. injection Hr as <- _ <-. split; [lia|done]. }
  bind_inv Hr. bind_inv Hr. destruct r0 as [rf2 applied]. apply (inj Ret) in Hr. injection Hr as <- _ <-.
  unfold advance_commit in E3. destruct (decide (commitIndex (set_log r rf1) < LeaderCommit args)).
  - bind_inv E3. bind_inv E3. apply (inj Ret) in E3. injection E3 as <- <-. split; [cbn; lia|].
    apply Forall_app. split; [done|]. by apply apply_from_sends_none in E5.
  - apply (inj Ret) in E3. injection E3 as <- <-. split; [cbn; lia|]. by rewrite app_nil_r.
Qed.

Lemma replicate_channels n ch rf effs m t c :
  replicate rf = Ret effs -> (m, t) ∈ concat (map (spawn n ch) effs) ->
  (channel t = Some c -> c = ch) /\ forall c' reply, t <> THandle1 c' reply.
Proof.
  unfold replicate. destruct (decide _); [|intros Hr; apply (inj Ret) in Hr as <-; by intros ?%not_elem_of_nil].
  revert effs. generalize (others rf) as l. induction l as [|si l IH]; intros effs Hr Hin; cbn [replicate_to] in Hr.
  - apply (inj Ret) in Hr as <-. by apply not_elem_of_nil in Hin.
  - bind_inv Hr. bind_inv Hr. apply (inj Ret) in Hr as <-. cbn in Hin.
    apply elem_of_cons in Hin as [[= -> ->]|Hin]; [|by eapply IH]. split; [|done]. cbn. by intros [= ->].
Qed.

(** The obligations on the tasks that are added. *)
Ltac tidy_ts :=
  repeat case_match; repeat (apply Forall_cons; split); try apply Forall_nil; try done;
  (split; [intros c [= <-]; cbn; try done; eauto with lia|try done]).

Lemma run_task_tidy n t c rf cl cl' :
  tidy cl -> nodes cl !! n = Some rf ->
  (forall ch, channel t = Some ch -> (ch < fresh cl)%nat) ->
  run_task n t c rf cl = Ret cl' -> tidy cl'.
Proof.
  intros Htidy Hrf Hch Hr. destruct (replies_quiet rf) as (Hel & Hht & Hhu).
  assert (idle rf rf []) as Hsame by (split_and!; [done|lia|constructor]).
  destruct t; try discriminate Hr; destruct c; try discriminate Hr; unfold_task Hr;
    try match type of Hr with context [killed ?x] => destruct (killed x) end;
    try (apply (inj Ret) in Hr as <-; apply (idle_tidy n 0 rf); [done|done|quiet_tac|tidy_ts]).
  - bind_inv Hr. apply (inj Ret) in Hr as <-. apply toFollower_rpc_quiet in E.
    apply (idle_tidy n 0 rf); [done..|]; tidy_ts.
  - bind_inv Hr. destruct r as [rf' effs]. apply (inj Ret) in Hr as <-. apply tidy_bump.
    apply startElection_begin_quiet in E. apply (idle_tidy n _ rf); [done..|]; tidy_ts.
  - take_message Hr. destruct (startElection_reply _ rf) as [[rf' effs] over] eqn:He. apply Hel in He.
    apply (inj Ret) in Hr as <-. apply (idle_tidy n 0 rf); [by apply tidy_delete|done|done|]; tidy_ts.
  - apply (inj Ret) in Hr as <-.
    change (tidy (update n 0 (toLeader_begin rf) [] [(n, THandle (fresh cl)); (n, TLeader (fresh cl))] (bump cl))).
    apply (idle_tidy n 0 rf); [by apply tidy_bump|done|quiet_tac|].
    repeat (apply Forall_cons; split); try apply Forall_nil; try done; (split; [intros c [= <-]; cbn; lia|done]).
  - take_message Hr. apply (inj Ret) in Hr as <-. apply (idle_tidy n 0 rf); [by apply tidy_delete|done|done|]; tidy_ts.
  - bind_inv Hr. apply (inj Ret) in Hr as <-. destruct Htidy as [Hf Hc]. split; cbn; rewrite app_nil_r.
    + intros m t c [Hin|Hin]%elem_of_app Ht; [by apply (Hf m t)|].
      destruct (replicate_channels n ch rf r m t c E Hin) as [Hq _]. rewrite (Hq Ht). by apply Hch.
    + intros m c reply q [Hin|Hin]%elem_of_app Hq.
      * apply (Hc m c reply q Hin). by rewrite list_insert_id in Hq.
      * by destruct (proj2 (replicate_channels n ch rf r m _ c E Hin) c reply).
  - take_message Hr. destruct (handleReply_term _ rf) as [[rf' effs] over] eqn:He. apply (inj Ret) in Hr as <-.
    assert (over = false -> aerTerm reply <= currentTerm rf') as Hterm
      by (unfold handleReply_term in He; destruct (decide _); injection He as <- <- <-; [done|lia]).
    apply Hht in He. apply (idle_tidy n 0 rf); [by apply tidy_delete|done|done|].
    destruct over; [constructor|]. apply Forall_singleton. split; cbn.
    + intros c [= <-]. by apply Hch.
    + intros c rep [= <- <-]. split; [done|by apply Hterm].
  - bind_inv Hr. destruct r as [rf' effs]. apply (inj Ret) in Hr as <-. apply Hhu in E.
    apply (idle_tidy n 0 rf); [done..|]; tidy_ts.
  - bind_inv Hr. destruct r as [rf' effs]. apply (inj Ret) in Hr as <-. apply commitAt_quiet in E.
    apply (idle_tidy n 0 rf); [done..|]; tidy_ts.
  - apply (inj Ret) in Hr as <-. apply (tidy_update n 0 rf); [done|done|cbn; lia|by repeat constructor|constructor].
  - bind_inv Hr. destruct r as [[rf' reply] effs]. apply (inj Ret) in Hr as <-.
    apply RequestVote_quiet in E. apply (idle_tidy n 0 rf); [done..|]; tidy_ts.
  - bind_inv Hr. destruct r as [[rf' reply] effs]. apply (inj Ret) in Hr as <-.
    destruct (AppendEntries_sends _ _ _ _ _ E). apply (tidy_update n 0 rf); [done..|]; tidy_ts.
Qed.

Lemma reachable_tidy peers cl : reachable peers cl -> tidy cl.
Proof.
  induction 1 as [|cl e cl' Hr IH He _].
  { split; cbn.
    - by intros n t ch (i & [= -> ->] & _)%list_elem_of_fmap.
    - by intros n ch reply rf (i & [=] & _)%list_elem_of_fmap. }
  destruct e as [k c|k|n command|n]; cbn [exec] in He.
  - destruct (tasks cl !! k) as [[n t]|] eqn:Hk; [|done]. destruct (nodes cl !! n) as [rf|] eqn:Hrf; [|done].
    apply (run_task_tidy n t c rf (set_tasks (delete k (tasks cl)) cl)); [by apply tidy_delete|done| |done].
    intros ch Hch. cbn. apply (fresh_channels _ IH n t ch); [|done]. by apply list_elem_of_lookup_2 in Hk.
  - destruct (tasks cl !! k) as [[n t]|]; [|done]. destruct (is_message t); [|done].
    apply (inj Ret) in He as <-. by apply tidy_delete.
  - destruct (nodes cl !! n) as [rf|] eqn:Hrf; [|done]. destruct (Start_check rf); apply (inj Ret) in He as <-; [|done].
    apply (idle_tidy n 0 rf); [done|done|quiet_tac|tidy_ts].
  - destruct (nodes cl !! n) as [rf|] eqn:Hrf; [|done]. apply (inj Ret) in He as <-.
    apply (idle_tidy n 0 rf); [done|done|quiet_tac|tidy_ts].
Qed.
