(* ===== verification/RaftQuorum.v ===== *)
(** * RaftQuorum: orderly runs, quorums and leader completeness

    Three things the code does not ensure are what Raft's safety needs beyond the
    rules it follows ([RaftTraces] has executions in which they fail).  An
    [orderly] run is one in which they hold: every term has one leader, elected
    by a majority; [Start] appends in office; and [nextIndex] and [matchIndex]
    are those of the office: [replicate] and [commitAt] use them after
    [toLeader] has set them up, and the [handleReply] of an earlier office
    leaves them alone.

    This file defines orderly runs and the record of a run -- who held which
    log of a leader, who voted for whom -- and shows what follows from it: an
    entry that a majority has held in its term is in the log of every later
    leader. *)
From S2P Require Import Prelude RaftNode RaftProps RaftTheorems RaftNet RaftCluster RaftMatching RaftChannels.

(** ** Orderly runs *)

(** A candidate votes for itself when it asks for votes. *)
Definition own_ballot (rf : Raft) : list RequestVoteArgs :=
  match startElection_begin rf, last (log rf) with
  | Ret _, Some e => if killed rf then [] else [mkRVArgs (currentTerm rf) (me rf) (eIndex e) (eTerm e)]
  | _, _ => []
  end.

Definition given_ballot (args : RequestVoteArgs) (rf : Raft) : list RequestVoteArgs :=
  match RequestVote args rf with
  | Ret (_, reply, _) => if VoteGranted reply then [args] else []
  | _ => []
  end.

(** The ballots that an event casts: the voter and what it was asked. *)
Definition ballots (e : event) (cl : cluster) : list (nat * RequestVoteArgs) :=
  match e with
  | ERun k Go =>
      match tasks cl !! k with
      | Some (n, t) =>
          match nodes cl !! n, t with
          | Some rf, TElect0 => pair n <$> own_ballot rf
          | Some rf, MReqVote _ _ args => pair n <$> given_ballot args rf
          | _, _ => []
          end
      | None => []
      end
  | _ => []
  end.

Definition voters (N : nat) (bs : list (nat * RequestVoteArgs)) (t : Z) (c : nat) : list nat :=
  filter (fun v => Exists (fun b => b.1 = v /\ rvTerm b.2 = t /\ CandidateId b.2 = Z.of_nat c) bs) (seq 0 N).

(** Every leader has the votes of a majority in its term. *)
Definition leaders_elected (bs : list (nat * RequestVoteArgs)) (cl : cluster) : bool :=
  let N := length (nodes cl) in
  forallb (fun p : nat * Raft => negb (isState LEADER p.2) ||
      bool_decide (N < 2 * length (voters N bs (currentTerm p.2) p.1))%nat)
    (imap (fun n rf => (n, rf)) (nodes cl)).

Definition is_leader (n : nat) (cl : cluster) : bool :=
  match nodes cl !! n with Some rf => isState LEADER rf | None => false end.

(** [n] is the leader, and [toLeader] has set up its tables. *)
Definition in_office (n : nat) (cl : cluster) : bool :=
  is_leader n cl && bool_decide ((n, TLeader0) ∉ tasks cl).

(** The offices that an event opens: the channel, the leader and its term. *)
Definition opened (e : event) (cl : cluster) : list (nat * (nat * Z)) :=
  match e with
  | ERun k Go =>
      match tasks cl !! k with
      | Some (n, TLeader0) =>
          match nodes cl !! n with Some rf => [(fresh cl, (n, currentTerm rf))] | None => [] end
      | _ => []
      end
  | _ => []
  end.

(** The channel is that of an office of [n] in its current term. *)
Definition own_channel (os : list (nat * (nat * Z))) (n ch : nat) (cl : cluster) : bool :=
  match nodes cl !! n with
  | Some rf => bool_decide ((ch, (n, currentTerm rf)) ∈ os)
  | None => false
  end.

(** The tables are used and changed in the office they belong to; [own] asks
    this of [handleReply] too. *)
Definition tables_in_office (own : bool) (os : list (nat * (nat * Z))) (e : event) (cl : cluster) : bool :=
  match e with
  | ERun k _ =>
      match tasks cl !! k with
      | Some (n, TReplicate _) => negb (is_leader n cl) || in_office n cl
      | Some (n, THandle1 ch _) => negb own || negb (in_office n cl) || own_channel os n ch cl
      | Some (n, TCommitAt _) => in_office n cl
      | _ => true
      end
  | _ => true
  end.

(** [bs] are the ballots cast so far, [os] the offices opened so far. *)
Inductive orderly (lead : Z -> nat) (peers : nat) :
    list (nat * RequestVoteArgs) -> list (nat * (nat * Z)) -> cluster -> Prop :=
  | orderly_init : orderly lead peers [] [] (init peers)
  | orderly_exec bs os cl e cl' : orderly lead peers bs os cl ->
      starts_in_office e cl = true -> tables_in_office true os e cl = true ->
      exec e cl = Ret cl' -> bounded cl' = true -> led_by lead cl' = true ->
      leaders_elected (ballots e cl ++ bs) cl' = true ->
      orderly lead peers (ballots e cl ++ bs) (opened e cl ++ os) cl'.

(** A script all of whose steps are orderly (but for late replies, if not [own]). *)
Fixpoint orderly_script (own : bool) (lead : Z -> nat) (orders : list order) (bs : list (nat * RequestVoteArgs))
    (os : list (nat * (nat * Z))) (cl : cluster) : bool :=
  match orders with
  | [] => true
  | o :: orders =>
      let e := event_of o cl in
      starts_in_office e cl && tables_in_office own os e cl &&
      match exec e cl with
      | Ret cl' => bounded cl' && led_by lead cl' && leaders_elected (ballots e cl ++ bs) cl' &&
          orderly_script own lead orders (ballots e cl ++ bs) (opened e cl ++ os) cl'
      | _ => false
      end
  end.

Lemma orderly_script_orderly lead peers orders bs os cl cl' :
  orderly lead peers bs os cl -> orderly_script true lead orders bs os cl = true -> script orders cl = Ret cl' ->
  exists bs' os', orderly lead peers bs' os' cl'.
Proof.
  revert bs os cl. induction orders as [|o orders IH]; intros bs os cl Ho Hos Hs; cbn [orderly_script script] in *.
  - injection Hs as <-. by exists bs, os.
  - apply andb_prop in Hos as [[Hst Ht]%andb_prop Hos].
    destruct (exec (event_of o cl) cl) as [cl1|c|] eqn:He; [|done..].
    apply andb_prop in Hos as [[[Hb Hled]%andb_prop Hel]%andb_prop Hos]. rewrite bind_Ret_l, Hb in Hs.
    apply (IH (ballots (event_of o cl) cl ++ bs) (opened (event_of o cl) cl ++ os) cl1); [|done..].
    by apply (orderly_exec lead peers bs os cl).
Qed.

Lemma orderly_led lead peers bs os cl : orderly lead peers bs os cl -> led lead peers cl.
Proof.
  induction 1 as [|bs os cl e cl' _ IH Hs _ He Hb Hl _]; [apply led_init|]. by apply (led_exec lead peers cl e).
Qed.

Lemma voters_elem N bs t c v :
  v ∈ voters N bs t c <->
  (v < N)%nat /\ exists args, (v, args) ∈ bs /\ rvTerm args = t /\ CandidateId args = Z.of_nat c.
Proof.
  unfold voters. rewrite list_elem_of_filter, Exists_exists, elem_of_seq. split.
  - intros [([v' args] & Hin & <- & Ht & Hc) Hv]. split; [lia|]. by exists args.
  - intros [Hv (args & Hin & Ht & Hc)]. split; [by exists (v, args)|lia].
Qed.

Lemma leaders_elected_spec bs cl n rf :
  leaders_elected bs cl = true -> nodes cl !! n = Some rf -> state rf = LEADER ->
  (length (nodes cl) < 2 * length (voters (length (nodes cl)) bs (currentTerm rf) n))%nat.
Proof.
  unfold leaders_elected. rewrite <-Is_true_true, forallb_True, Forall_lookup. intros H Hn Hs.
  specialize (H n (n, rf)). rewrite list_lookup_imap, Hn in H. specialize (H eq_refl). cbn in H.
  unfold isState in H. rewrite (bool_decide_true (state rf = LEADER)) in H by done.
  by apply bool_decide_unpack in H.
Qed.

(** ** Majorities *)

Definition majority (N : nat) (Q : list nat) : Prop :=
  NoDup Q /\ (forall v, v ∈ Q -> (v < N)%nat) /\ (N < 2 * length Q)%nat.

Lemma majority_meet N Q Q' : majority N Q -> majority N Q' -> exists v, v ∈ Q /\ v ∈ Q'.
Proof.
  intros (Hd & Hin & Hl) (Hd' & Hin' & Hl').
  destruct (decide (Exists (fun v => v ∈ Q') Q)) as [Hex|Hno]; [by apply Exists_exists in Hex|exfalso].
  assert (NoDup (Q ++ Q')) as Hnd.
  { apply NoDup_app. split_and!; [done| |done]. intros v Hv Hv'. apply Hno, Exists_exists. by exists v. }
  assert (Q ++ Q' ⊆+ seq 0 N) as Hsub.
  { apply NoDup_submseteq; [done|]. intros v Hv. apply elem_of_seq.
    apply elem_of_app in Hv as [Hv|Hv]; [apply Hin in Hv|apply Hin' in Hv]; lia. }
  apply submseteq_length in Hsub. rewrite length_app, length_seq in Hsub. lia.
Qed.

Lemma voters_majority N bs t c :
  (N < 2 * length (voters N bs t c))%nat -> majority N (voters N bs t c).
Proof.
  intros H. split; [|split; [|done]].
  - apply NoDup_filter, NoDup_seq.
  - intros v Hv. by apply voters_elem in Hv as [? _].
Qed.

(** ** The record of a run *)

Record ghost : Set := mkGhost {
  hist : list (list LogEntry);             (* the logs servers have had *)
  elog : gmap Z (list LogEntry);           (* the log with which the leader of a term was elected *)
  llog : gmap Z (list LogEntry);           (* the last log it had in that term *)
  acks : list (nat * Z * list LogEntry);   (* [(v, t, L)]: in term [t], [v] held the log [L] of the leader *)
  asked : list RequestVoteArgs;            (* the requests for votes *)
  cast : list (nat * RequestVoteArgs);     (* the votes cast before the term had a leader *)
  refused : list (nat * Z * nat);          (* [(v, t, p)]: in term [t], [v] had not the leader's entry at [p] *)
}.

Section record.
Context (lead : Z -> nat) (N : nat).
Implicit Types (g : ghost) (l L : list LogEntry) (e : LogEntry) (i : nat) (t u T : Z).

Definition describes (args : RequestVoteArgs) l : Prop :=
  exists x, last l = Some x /\ LastLogTerm args = eTerm x /\ LastLogIndex args = zlen l - 1.

(** A leader between the terms [t] and [T] did not have the entry. *)
Definition superseded g t i e T : Prop :=
  exists u L, t < u < T /\ elog g !! u = Some L /\ L !! i <> Some e.

(** A majority held the entry in its term. *)
Definition chosen g i e : Prop :=
  i <> 0%nat /\ exists Q, majority N Q /\
    forall v, v ∈ Q -> exists L, (v, eTerm e, L) ∈ acks g /\ L !! i = Some e.

(** Up to index [c] the log [l] is that of a chosen entry of term [T] or before. *)
Definition committed g (c : nat) l T : Prop :=
  (c < length l)%nat /\
  (c = 0%nat \/ exists i e l0, chosen g i e /\ l0 ∈ hist g /\ l0 !! i = Some e /\ (c <= i)%nat /\
     eTerm e <= T /\ take (S c) l = take (S c) l0).

Record ghost_ok g : Prop := {
  g_heads : forall L, L ∈ hist g -> L !! 0%nat = Some dummy;
  g_sorted : forall L, L ∈ hist g -> terms_sorted L;
  g_match : forall L L', L ∈ hist g -> L' ∈ hist g -> match_upto L L';
  g_made : forall L i e, L ∈ hist g -> L !! i = Some e -> i <> 0%nat ->
    exists LL EE, llog g !! eTerm e = Some LL /\ elog g !! eTerm e = Some EE /\ LL !! i = Some e /\
      (length EE <= i)%nat;
  g_leader : forall t LL, llog g !! t = Some LL ->
    LL ∈ hist g /\ (lead t, t, LL) ∈ acks g /\ exists EE, elog g !! t = Some EE /\ EE `prefix_of` LL /\
      forall i e, LL !! i = Some e -> (length EE <= i)%nat -> eTerm e = t;
  g_elected : forall t EE, elog g !! t = Some EE ->
    EE ∈ hist g /\ terms_between 0 t EE /\ (exists LL, llog g !! t = Some LL /\ EE `prefix_of` LL) /\
    exists Q, majority N Q /\ forall v, v ∈ Q ->
      exists args, (v, args) ∈ cast g /\ rvTerm args = t /\ describes args EE;
  g_acks : forall v t L, (v, t, L) ∈ acks g ->
    (v < N)%nat /\ exists LL, llog g !! t = Some LL /\ L `prefix_of` LL;
  g_cast : forall v args t L i e, (v, args) ∈ cast g -> (v, t, L) ∈ acks g -> t < rvTerm args ->
    L !! i = Some e -> eTerm e = t ->
    superseded g t i e (rvTerm args) \/ exists l, l ∈ hist g /\ l !! i = Some e /\ up_to_date args l;
  g_refused : forall v t p, (v, t, p) ∈ refused g -> exists LL, llog g !! t = Some LL /\ (p < length LL)%nat;
}.

(** A log of the leader of a term has the entries of that term that any log has. *)
Lemma made_by_leader g L LL i e :
  ghost_ok g -> L ∈ hist g -> L !! i = Some e -> llog g !! eTerm e = Some LL ->
  take (S i) L = take (S i) LL.
Proof.
  intros Hg HL Hi HLL. destruct (g_leader g Hg _ _ HLL) as [HLLh _].
  destruct (decide (i = 0%nat)) as [->|Hne].
  - pose proof (g_heads g Hg _ HL) as H1. pose proof (g_heads g Hg _ HLLh) as H2.
    destruct L as [|x L], LL as [|y LL]; try discriminate. cbn in *. by simplify_eq.
  - destruct (g_made g Hg L i e HL Hi Hne) as (LL' & EE & H1 & _ & H2 & _).
    assert (LL' = LL) as -> by congruence. by apply (g_match g Hg L LL HL HLLh i e e).
Qed.

Lemma take_eq_at l L i e : take (S i) l = take (S i) L -> l !! i = Some e -> L !! i = Some e.
Proof. intros H Hi. by rewrite <-(take_eq_lookup l L i i H). Qed.

Lemma prefix_at l L i e : l `prefix_of` L -> l !! i = Some e -> L !! i = Some e.
Proof. intros H Hi. by eapply prefix_lookup_Some. Qed.

(** Leader completeness. *)
Lemma leader_complete g i e :
  ghost_ok g -> chosen g i e ->
  forall T EE, elog g !! T = Some EE -> eTerm e < T -> EE !! i = Some e.
Proof.
  intros Hg [Hi0 (Q & HQ & Hheld)].
  intros T. induction (Z.lt_wf (eTerm e) T) as [T _ IH]. intros EE HEE Ht.
  destruct (g_elected g Hg T EE HEE) as (HEEh & HEEt & (LT & HLT & HEL) & Q' & HQ' & Hcast).
  destruct (majority_meet N Q Q' HQ HQ') as (v & Hv & Hv').
  destruct (Hheld v Hv) as (L & HL & HLi). destruct (Hcast v Hv') as (args & Hargs & HT & x & Hx & Hxt & Hxi).
  destruct (g_cast g Hg v args (eTerm e) L i e) as [(u & LU & Hu & HLU & Hne)|(l & Hl & Hli & Hup)];
    [done|done|by rewrite HT|done|done| |].
  { exfalso. apply Hne. apply (IH u); [lia|done|lia]. }
  (* the last entries of [l] and of the log elected *)
  destruct (last l) as [y|] eqn:Hy; [|apply last_None in Hy as ->; done].
  specialize (Hup y Hy). rewrite last_lookup_length in Hy, Hx. set (j := (length EE - 1)%nat) in *.
  apply lookup_lt_Some in Hli as Hil. apply lookup_lt_Some in Hx as Hjl.
  assert (eTerm e <= eTerm y) as Hey by (apply (g_sorted g Hg l Hl i (length l - 1)%nat); [lia|done|done]).
  destruct (g_acks g Hg _ _ _ HL) as (_ & Lt & HLt & HLp).
  assert (j <> 0%nat) as Hj0.
  { intros Hj. rewrite Hj, (g_heads g Hg _ HEEh) in Hx. injection Hx as <-. cbn in Hxt.
    destruct (g_made g Hg l i e Hl Hli Hi0) as (L1 & E1 & HL1 & HE1 & _).
    destruct (g_elected g Hg _ _ HE1) as (HE1h & HE1t & _).
    pose proof (g_heads g Hg _ HE1h) as H0. apply list_elem_of_lookup_2, HE1t in H0. cbn in H0.
    unfold zlen in *. lia. }
  destruct (g_made g Hg EE j x HEEh Hx Hj0) as (LX & EX & HLX & HEX & HLXj & HEXj).
  assert (eTerm x < T) as HxT.
  { assert (eTerm x <= T) by (apply list_elem_of_lookup_2, HEEt in Hx; lia).
    assert (eTerm x <> T); [|lia]. intros HxT. rewrite HxT in HEX. assert (EX = EE) as -> by congruence. lia. }
  pose proof (made_by_leader g EE LX j x Hg HEEh Hx HLX) as HEL'.
  assert (LX !! i = Some e /\ (i <= j)%nat) as [HLXi Hij]; [|by rewrite (take_eq_lookup EE LX j i)].
  destruct (decide (eTerm x = eTerm e)) as [Heq|Hneq].
  - (* the same term: the log elected is no shorter *)
    rewrite Heq in HLX. assert (Lt = LX) as -> by congruence. split; [by apply (prefix_at L)|].
    unfold zlen in *. lia.
  - (* a later term: its leader had the entry when it was elected *)
    assert (EX !! i = Some e) as HEXi by (apply (IH (eTerm x)); [lia|done|lia]).
    destruct (g_elected g Hg _ _ HEX) as (_ & _ & (LX' & HLX' & Hpre) & _).
    assert (LX' = LX) as -> by congruence. apply lookup_lt_Some in HEXi as ?.
    split; [by apply (prefix_at EX)|lia].
Qed.

(** ** Growing records *)

Record extends g g' : Prop := {
  x_hist : forall L, L ∈ hist g -> L ∈ hist g';
  x_elog : forall t L, elog g !! t = Some L -> elog g' !! t = Some L;
  x_llog : forall t L, llog g !! t = Some L -> exists L', llog g' !! t = Some L' /\ L `prefix_of` L';
  x_acks : forall a, a ∈ acks g -> a ∈ acks g';
  x_asked : forall a, a ∈ asked g -> a ∈ asked g';
  x_cast : forall b, b ∈ cast g -> b ∈ cast g';
  x_refused : forall r, r ∈ refused g -> r ∈ refused g';
}.

Lemma extends_refl g : extends g g.
Proof. split; eauto. Qed.

Lemma chosen_mono g g' i e : extends g g' -> chosen g i e -> chosen g' i e.
Proof.
  intros Hx [Hi (Q & HQ & Hall)]. split; [done|]. exists Q. split; [done|].
  intros v Hv. destruct (Hall v Hv) as (L & HL & HLi). exists L. split; [by apply (x_acks _ _ Hx)|done].
Qed.

Lemma superseded_mono g g' t i e T T' :
  extends g g' -> T <= T' -> superseded g t i e T -> superseded g' t i e T'.
Proof.
  intros Hx Hle (u & L & Hu & HL & Hne). exists u, L. split; [lia|]. split; [by apply (x_elog _ _ Hx)|done].
Qed.

Lemma committed_mono g g' c l T T' :
  extends g g' -> T <= T' -> committed g c l T -> committed g' c l T'.
Proof.
  intros Hx Hle (Hc & H). split; [done|]. destruct H as [->|(i & e & l0 & Hch & Hl0 & Hi & Hci & Ht & Htk)]; [by left|].
  right. exists i, e, l0. split; [by apply (chosen_mono g)|]. split; [by apply (x_hist _ _ Hx)|].
  split_and!; try done. lia.
Qed.

(** What is committed in a log is committed in every log it is a prefix of. *)
Lemma committed_prefix g c l l' T :
  l `prefix_of` l' -> committed g c l T -> committed g c l' T.
Proof.
  intros [k ->] [Hc H]. split; [rewrite length_app; lia|].
  destruct H as [->|(i & e & l0 & Hch & Hl0 & Hi & Hci & Ht & Htk)]; [by left|].
  right. exists i, e, l0. split_and!; try done. rewrite take_app_le by lia. done.
Qed.

(** Two committed positions agree. *)
Lemma committed_agree g c c' l l' T T' j :
  ghost_ok g -> committed g c l T -> committed g c' l' T' -> l ∈ hist g -> l' ∈ hist g ->
  (j <= c)%nat -> (j <= c')%nat -> l !! j = l' !! j.
Proof.
  intros Hg [Hc H] [Hc' H'] Hl Hl' Hj Hj'.
  destruct (decide (j = 0%nat)) as [->|Hj0].
  { by rewrite (g_heads g Hg _ Hl), (g_heads g Hg _ Hl'). }
  destruct H as [->|(i & e & l0 & Hch & Hl0 & Hi & Hci & Ht & Htk)]; [lia|].
  destruct H' as [->|(i' & e' & l0' & Hch' & Hl0' & Hi' & Hci' & Ht' & Htk')]; [lia|].
  rewrite (take_eq_lookup l l0 c j), (take_eq_lookup l' l0' c' j) by done.
  (* [L] is the last log of the leader of the later of the two terms *)
  assert (forall i e l0 i' e' l0', chosen g i e -> l0 ∈ hist g -> l0 !! i = Some e -> (j <= i)%nat ->
    chosen g i' e' -> l0' ∈ hist g -> l0' !! i' = Some e' -> (j <= i')%nat -> eTerm e <= eTerm e' ->
    l0 !! j = l0' !! j) as Hlater.
  2:{ destruct (decide (eTerm e <= eTerm e')); [by apply (Hlater i e _ i' e'); try done; lia|].
      symmetry. apply (Hlater i' e' _ i e); try done; lia. }
  clear -Hg Hj0. intros i e l i' e' l' Hch Hl Hi Hj Hch' Hl' Hi' Hj' Hle.
  destruct (g_made g Hg l' i' e' Hl' Hi') as (L & E & HL & HE & _); [by destruct Hch'|].
  rewrite (take_eq_lookup l' L i' j) by (done || by apply (made_by_leader g l' L i' e')).
  destruct (decide (eTerm e = eTerm e')) as [Heq|Hne].
  - apply (take_eq_lookup l L i j); [|done]. apply (made_by_leader g l L i e); try done. by rewrite Heq.
  - assert (E !! i = Some e) as HEi by (apply (leader_complete g i e Hg Hch (eTerm e')); [done|lia]).
    destruct (g_elected g Hg _ _ HE) as (_ & _ & (L' & HL' & Hpre) & _). assert (L' = L) as -> by congruence.
    destruct (g_leader g Hg _ _ HL) as [HLh _].
    apply (take_eq_lookup l L i j); [|done]. apply (g_match g Hg l L Hl HLh i e e); [done| |done].
    by apply (prefix_at E).
Qed.

End record.
