(* ===== verification/RaftSafety.v ===== *)
(** * RaftSafety: orderly runs are safe

    The record of [RaftQuorum] is kept along every orderly run: what a server
    has acknowledged stays in its log unless a later leader was elected without
    it; votes go to logs that are up to date; a commit index covers entries a
    majority has held in their term.  So no two servers ever apply different
    commands at one index. *)
From S2P Require Import Prelude RaftNode RaftProps RaftTheorems RaftNet RaftCluster RaftMatching RaftChannels RaftQuorum.

Section safety.
Context (lead : Z -> nat) (N : nat).
Implicit Types (g : ghost) (l L : list LogEntry) (e : LogEntry) (i : nat) (t u T : Z).

(** ** The invariant *)

Record node_inv g (n : nat) (rf : Raft) : Prop := {
  s_hist : log rf ∈ hist g;
  s_llog : forall t LL, lead t = n -> llog g !! t = Some LL ->
    t <= currentTerm rf /\ (currentTerm rf = t -> log rf = LL);
  s_leader : state rf = LEADER -> exists EE, elog g !! currentTerm rf = Some EE;
  s_acks_term : forall t L, (n, t, L) ∈ acks g -> t <= currentTerm rf;
  s_acks : forall t L i e, (n, t, L) ∈ acks g -> L !! i = Some e -> eTerm e = t ->
    log rf !! i = Some e \/ superseded g t i e (currentTerm rf + 1);
  s_cast : forall args, (n, args) ∈ cast g -> rvTerm args <= currentTerm rf;
  s_asked : forall args, args ∈ asked g -> CandidateId args = Z.of_nat n -> lead (rvTerm args) = n ->
    rvTerm args <= currentTerm rf /\
    (currentTerm rf = rvTerm args -> elog g !! rvTerm args = None -> describes args (log rf));
  s_commit : committed N g (Z.to_nat (commitIndex rf)) (log rf) (currentTerm rf);
  s_refused : forall t p LL, (n, t, p) ∈ refused g -> llog g !! t = Some LL ->
    t <= currentTerm rf /\ (currentTerm rf = t -> log rf `prefix_of` LL \/ log rf !! p <> LL !! p);
  s_applied : 0 <= lastApplied rf <= commitIndex rf;
}.

(** The tables of a leader: what is acknowledged is held, and a next entry
    before those of its term has been refused. *)
Definition tables g (rf : Raft) : Prop :=
  (forall f m, matchIndex rf !! f = Some m -> m <= 0 \/ exists L, (f, currentTerm rf, L) ∈ acks g /\ m < zlen L) /\
  exists EE, elog g !! currentTerm rf = Some EE /\
    forall f x, nextIndex rf !! f = Some x -> Z.of_nat f <> me rf ->
      zlen EE <= x \/ exists p, (f, currentTerm rf, p) ∈ refused g /\ (p < length (log rf))%nat.

Definition counted g (n : nat) (cl : cluster) : Prop :=
  forall rf, nodes cl !! n = Some rf -> state rf = LEADER -> (n, TLeader0) ∈ tasks cl \/ tables g rf.

(** A message for [f] that brings the log of a leader. *)
Definition brings g (f : nat) (args : AppendEntriesArgs) L : Prop :=
  L ∈ hist g /\ carries args L /\
  (exists LL EE, llog g !! aeTerm args = Some LL /\ L `prefix_of` LL /\
     elog g !! aeTerm args = Some EE /\ EE `prefix_of` L /\
     (Entries args = [] \/ zlen EE <= PrevLogIndex args + 1 \/
      exists p, (f, aeTerm args, p) ∈ refused g /\ (p < length L)%nat)) /\
  committed N g (Z.to_nat (LeaderCommit args)) L (aeTerm args).

(** A reply to [n] on [ch], to a message of term [u]. *)
Definition answers g (os : list (nat * (nat * Z))) (n ch : nat) (reply : AppendEntriesReply) : Prop :=
  exists u, n = lead u /\ (exists LL, llog g !! u = Some LL) /\ (forall T, (ch, (n, T)) ∈ os -> T <= u) /\
    if Success reply then
      IsHeartbeat reply = false ->
      exists v L EE, FollowerId reply = Z.of_nat v /\ (v, u, L) ∈ acks g /\ aerLastLogIndex reply = zlen L - 1 /\
        elog g !! u = Some EE /\ EE `prefix_of` L
    else u < aerTerm reply \/ exists v p, FollowerId reply = Z.of_nat v /\ (v, u, p) ∈ refused g.

Definition task_inv g (os : list (nat * (nat * Z))) (p : nat * task) : Prop :=
  match p.2 with
  | MAppend from ch args => p.1 <> lead (aeTerm args) /\ from = lead (aeTerm args) /\
      (forall T, (ch, (from, T)) ∈ os -> T <= aeTerm args) /\ exists L, brings g p.1 args L
  | MReqVote _ _ args => args ∈ asked g
  | MAppendReply ch reply | THandle1 ch reply => answers g os p.1 ch reply
  | _ => True
  end.

Definition applied_inv g (p : nat * ApplyMsg) : Prop :=
  exists l j e c T, l ∈ hist g /\ committed N g c l T /\ (j <= c)%nat /\ l !! j = Some e /\
    p.2 = mkApply true (eCommand e) (Z.of_nat j).

Record safe g (bs : list (nat * RequestVoteArgs)) (os : list (nat * (nat * Z))) (cl : cluster) : Prop := {
  c_ghost : ghost_ok lead N g;
  c_size : length (nodes cl) = N;
  c_nodes : forall n rf, nodes cl !! n = Some rf -> node_inv g n rf;
  c_tasks : forall p, p ∈ tasks cl -> task_inv g os p;
  c_applied : forall p, p ∈ delivered cl -> applied_inv g p;
  c_asked : forall v args, (v, args) ∈ cast g -> args ∈ asked g;
  c_offices : forall ch n T rf, (ch, (n, T)) ∈ os -> nodes cl !! n = Some rf -> T <= currentTerm rf;
  c_ballots : forall v args, (v, args) ∈ bs -> elog g !! rvTerm args = None -> (v, args) ∈ cast g;
}.

(** ** What a step of one server may record *)

Record about (n : nat) g g' : Prop := {
  a_extends : extends g g';
  a_llog : forall t, lead t <> n -> llog g' !! t = llog g !! t;
  a_acks : forall v t L, (v, t, L) ∈ acks g' -> v <> n -> (v, t, L) ∈ acks g;
  a_cast : forall v args, (v, args) ∈ cast g' -> v <> n -> (v, args) ∈ cast g;
  a_asked : forall args, args ∈ asked g' -> CandidateId args <> Z.of_nat n -> args ∈ asked g;
  a_refused : forall v t p, (v, t, p) ∈ refused g' -> v <> n -> (v, t, p) ∈ refused g;
}.

Lemma about_refl n g : about n g g.
Proof. split; eauto using extends_refl. Qed.

Lemma elog_None g g' t : extends g g' -> elog g' !! t = None -> elog g !! t = None.
Proof.
  intros Hx H. destruct (elog g !! t) as [L|] eqn:HL; [|done]. apply (x_elog _ _ Hx) in HL. congruence.
Qed.

Lemma other_node n k g g' rf :
  ghost_ok lead N g -> about n g g' -> k <> n -> node_inv g k rf -> node_inv g' k rf.
Proof.
  intros Hg [Hx Hl Ha Hc Hq Hf] Hk []. split.
  - by apply (x_hist _ _ Hx).
  - intros t LL Ht HLL. apply s_llog0; [done|]. by rewrite <-Hl by congruence.
  - intros Hs. destruct (s_leader0 Hs) as [EE HEE]. exists EE. by apply (x_elog _ _ Hx).
  - intros t L HL. apply (s_acks_term0 t L). by apply Ha.
  - intros t L i e HL Hi Ht. apply Ha in HL; [|done].
    destruct (s_acks0 t L i e HL Hi Ht) as [?|Hs]; [by left|right].
    apply (superseded_mono g g' _ _ _ (currentTerm rf + 1)); [done|lia|done].
  - intros args Hargs. apply s_cast0. by apply Hc.
  - intros args Hargs Hcand Hlead. apply Hq in Hargs; [|lia].
    destruct (s_asked0 args Hargs Hcand Hlead) as [H1 H2]. split; [done|]. intros H3 H4.
    apply H2; [done|]. by apply (elog_None g g').
  - apply (committed_mono N g g' _ _ (currentTerm rf)); [done|lia|done].
  - intros t p LL Hp HLL. apply Hf in Hp; [|done]. destruct (g_refused _ _ _ Hg _ _ _ Hp) as (L & HL & Hlt).
    destruct (x_llog _ _ Hx t L HL) as (LL' & HLL' & Hpre). assert (LL' = LL) as -> by congruence.
    destruct (s_refused0 t p L Hp HL) as [H1 H2]. split; [done|]. intros Ht.
    destruct (H2 Ht) as [H3|H3]; [left; by transitivity L|right]. intros Heq. apply H3.
    rewrite Heq. destruct (lookup_lt_is_Some_2 L p Hlt) as [e He]. rewrite He. by apply (prefix_at L).
  - done.
Qed.

Lemma answers_mono g g' os n ch reply : extends g g' -> answers g os n ch reply -> answers g' os n ch reply.
Proof.
  intros Hx (u & Hn & (LL & HLL) & HT & H). exists u. split; [done|].
  destruct (x_llog _ _ Hx _ _ HLL) as (LL' & HLL' & _). split; [by exists LL'|]. split; [done|].
  destruct (Success reply).
  - intros Hh. destruct (H Hh) as (v & L & EE & H1 & H2 & H3 & H4 & H5). exists v, L, EE.
    split; [done|]. split; [by apply (x_acks _ _ Hx)|]. split; [done|]. split; [by apply (x_elog _ _ Hx)|done].
  - destruct H as [H|(v & p & Hv & Hp)]; [by left|right]. exists v, p. split; [done|]. by apply (x_refused _ _ Hx).
Qed.

Lemma brings_mono g g' f args L : extends g g' -> brings g f args L -> brings g' f args L.
Proof.
  intros Hx (HL & Hc & (LL & EE & HLL & Hp & HEE & Hp' & Hent) & Hcm). split; [by apply (x_hist _ _ Hx)|].
  split; [done|]. split; [|by apply (committed_mono N g g' _ _ (aeTerm args)); [|lia|]].
  destruct (x_llog _ _ Hx _ _ HLL) as (LL' & HLL' & Hp''). exists LL', EE. split; [done|].
  split; [by transitivity LL|]. split; [by apply (x_elog _ _ Hx)|]. split; [done|].
  destruct Hent as [?|[?|(p & Hr & ?)]]; [by left|right; by left|right; right].
  exists p. split; [by apply (x_refused _ _ Hx)|done].
Qed.

Lemma task_inv_mono g g' os p : extends g g' -> task_inv g os p -> task_inv g' os p.
Proof.
  intros Hx. destruct p as [n []]; cbn; try done.
  - by apply answers_mono.
  - apply (x_asked _ _ Hx).
  - intros (H1 & H2 & H3 & L & HL). split_and!; try done. exists L. by apply (brings_mono g).
  - by apply answers_mono.
Qed.

(** A new office has a new channel. *)
Lemma task_inv_open g os p ch x :
  channel p.2 <> Some ch -> task_inv g os p -> task_inv g ((ch, x) :: os) p.
Proof.
  destruct p as [n []]; cbn; try done.
  - intros Hne (u & H1 & H2 & H3 & H4). exists u. split_and!; try done.
    intros T [[= ? _]|HT]%elem_of_cons; [congruence|by apply H3].
  - intros Hne (H1 & H2 & H3 & H4). split_and!; try done.
    intros T [[= ? _]|HT]%elem_of_cons; [congruence|by apply H3].
  - intros Hne (u & H1 & H2 & H3 & H4). exists u. split_and!; try done.
    intros T [[= ? _]|HT]%elem_of_cons; [congruence|by apply H3].
Qed.

Lemma applied_inv_mono g g' p : extends g g' -> applied_inv g p -> applied_inv g' p.
Proof.
  intros Hx (l & j & e & c & T & Hl & Hc & Hj & Hi & Hp). exists l, j, e, c, T.
  split; [by apply (x_hist _ _ Hx)|]. split; [|done]. apply (committed_mono N g g' _ _ T); [done|lia|done].
Qed.

(** Nothing a leader uses of its tables changes. *)
Record same_tables (rf rf' : Raft) : Prop := {
  st_term : currentTerm rf' = currentTerm rf;
  st_match : matchIndex rf' = matchIndex rf;
  st_next : nextIndex rf' = nextIndex rf;
  st_me : me rf' = me rf;
  st_log : (length (log rf) <= length (log rf'))%nat;
}.

Lemma same_tables_refl rf : same_tables rf rf.
Proof. by split. Qed.

Lemma tables_mono g g' rf rf' : extends g g' -> same_tables rf rf' -> tables g rf -> tables g' rf'.
Proof.
  intros Hx [Ht Hm Hn Hme Hl] (H1 & EE & HEE & H2). unfold tables. rewrite Ht, Hm, Hn, Hme. split.
  - intros f m Hf. destruct (H1 f m Hf) as [?|(L & HL & Hlt)]; [by left|right].
    exists L. split; [by apply (x_acks _ _ Hx)|done].
  - exists EE. split; [by apply (x_elog _ _ Hx)|]. intros f x Hf Hne.
    destruct (H2 f x Hf Hne) as [?|(p & Hp & Hlt)]; [by left|right].
    exists p. split; [by apply (x_refused _ _ Hx)|lia].
Qed.

(** ** Steps *)

(** Taking messages from the list of tasks. *)
Record takes (cl cl1 : cluster) : Prop := {
  t_nodes : nodes cl1 = nodes cl;
  t_delivered : delivered cl1 = delivered cl;
  t_tasks : forall p, p ∈ tasks cl1 -> p ∈ tasks cl;
  t_pending : forall k, (k, TLeader0) ∈ tasks cl -> (k, TLeader0) ∈ tasks cl1;
}.

Lemma takes_refl cl : takes cl cl.
Proof. by split. Qed.

Lemma takes_delete j p cl :
  tasks cl !! j = Some p -> p.2 <> TLeader0 -> takes cl (set_tasks (delete j (tasks cl)) cl).
Proof.
  intros Hj Hp. split; cbn; try done.
  - intros q Hq. by apply list_elem_of_delete_inv in Hq.
  - intros k. apply (elem_of_delete_ne _ _ _ p); [done|]. by intros <-.
Qed.

(** What a step of [n] establishes. *)
Definition stepped g bs os (n : nat) (cl : cluster) : Prop :=
  exists g', about n g g' /\ safe g' bs os cl /\ counted g' n cl.

Lemma step_safe n ch rf rf' effs ts cl cl1 g g' bs bs' os :
  safe g bs os cl -> nodes cl !! n = Some rf -> takes cl cl1 -> about n g g' -> ghost_ok lead N g' ->
  node_inv g' n rf' -> currentTerm rf <= currentTerm rf' ->
  (forall p, p ∈ concat (map (spawn n ch) effs) ++ ts -> task_inv g' os p) ->
  (forall p, p ∈ concat (map (applies n) effs) -> applied_inv g' p) ->
  (forall v args, (v, args) ∈ cast g' -> args ∈ asked g') ->
  (forall v args, (v, args) ∈ bs' -> elog g' !! rvTerm args = None -> (v, args) ∈ cast g') ->
  safe g' bs' os (update n ch rf' effs ts cl1).
Proof.
  intros [] Hrf [] Hab Hg' Hn Hle Htasks Happ Hasked Hbs. pose proof (a_extends _ _ _ Hab) as Hx.
  split; try done; cbn.
  - by rewrite length_insert, t_nodes0.
  - intros k q. rewrite t_nodes0. intros [(-> & <- & _)|[Hk Hq]]%list_lookup_insert_Some; [done|].
    apply (other_node n k g g'); [done|done|congruence|by apply c_nodes0].
  - intros p [Hp|Hp]%elem_of_app; [|by apply Htasks].
    apply (task_inv_mono g g' os); [done|]. by apply c_tasks0, t_tasks0.
  - rewrite t_delivered0. intros p [Hp|Hp]%elem_of_app; [|by apply Happ].
    apply (applied_inv_mono g g'); [done|]. by apply c_applied0.
  - intros c k T q Hin. rewrite t_nodes0. intros [(-> & <- & _)|[_ Hq]]%list_lookup_insert_Some.
    + specialize (c_offices0 c k T rf Hin Hrf). lia.
    + by apply (c_offices0 c k T).
Qed.

Lemma counted_step n ch rf rf' effs ts cl cl1 g g' :
  counted g n cl -> nodes cl !! n = Some rf -> takes cl cl1 -> extends g g' ->
  (state rf' = LEADER -> state rf = LEADER /\ same_tables rf rf') ->
  counted g' n (update n ch rf' effs ts cl1).
Proof.
  intros Hc Hrf [Hn _ _ Hp] Hx Hs q Hq Hlead. cbn in Hq.
  rewrite Hn, list_lookup_insert_eq in Hq by (by apply lookup_lt_Some in Hrf). injection Hq as <-.
  destruct (Hs Hlead) as [H1 H2].
  destruct (Hc rf Hrf H1) as [Hin|Ht]; [left|right; by apply (tables_mono g g' rf)].
  cbn. apply elem_of_app. left. by apply Hp.
Qed.

(** A critical section that leaves the log and the commit index alone. *)
Record frame (rf rf' : Raft) : Prop := {
  f_log : log rf' = log rf;
  f_commit : commitIndex rf' = commitIndex rf;
  f_applied : lastApplied rf' = lastApplied rf;
  f_term : currentTerm rf <= currentTerm rf';
  f_leader : state rf' = LEADER -> state rf = LEADER /\ same_tables rf rf';
}.

(** Effects that send nothing, and those that apply nothing either. *)
Definition silent (eff : effect) : Prop :=
  match eff with SendRequestVote _ _ | SendAppendEntries _ _ => False | _ => True end.

Definition harmless (eff : effect) : Prop :=
  match eff with Apply _ => False | _ => silent eff end.

Lemma node_inv_frame g n rf rf' :
  node_inv g n rf -> log rf' = log rf -> commitIndex rf' = commitIndex rf -> lastApplied rf' = lastApplied rf ->
  currentTerm rf <= currentTerm rf' ->
  (state rf' = LEADER -> exists EE, elog g !! currentTerm rf' = Some EE) -> node_inv g n rf'.
Proof.
  intros [] Hl Hc Ha Ht Hs. split; rewrite ?Hl, ?Hc, ?Ha; try done.
  - intros t LL H1 H2. destruct (s_llog0 t LL H1 H2) as [H3 H4]. split; [lia|]. intros H5. apply H4. lia.
  - intros t L H. apply s_acks_term0 in H. lia.
  - intros t L i e H1 H2 H3. destruct (s_acks0 t L i e H1 H2 H3) as [?|Hsup]; [by left|right].
    apply (superseded_mono g g _ _ _ (currentTerm rf + 1)); [apply extends_refl|lia|done].
  - intros args H. apply s_cast0 in H. lia.
  - intros args H1 H2 H3. destruct (s_asked0 args H1 H2 H3) as [H4 H5]. split; [lia|].
    intros H6. apply H5. lia.
  - apply (committed_mono N g g _ _ (currentTerm rf)); [apply extends_refl|done|done].
  - intros t p LL H1 H2. destruct (s_refused0 t p LL H1 H2) as [H3 H4]. split; [lia|]. intros H5. apply H4. lia.
Qed.

Lemma frame_node g n rf rf' : frame rf rf' -> node_inv g n rf -> node_inv g n rf'.
Proof.
  intros [] Hn. apply (node_inv_frame g n rf); try done.
  intros Hs. destruct (f_leader0 Hs) as [H1 [-> _ _ _ _]]. by apply (s_leader _ _ _ Hn).
Qed.

Lemma silent_tasks g os n ch effs p :
  Forall silent effs -> p ∈ concat (map (spawn n ch) effs) -> task_inv g os p.
Proof.
  induction 1 as [|eff effs He _ IH]; cbn; [by intros ?%not_elem_of_nil|].
  intros [Hp|Hp]%elem_of_app; [|by apply IH].
  destruct eff; try done; cbn in Hp; try (by apply list_elem_of_singleton in Hp as ->).
  by apply not_elem_of_nil in Hp.
Qed.

Lemma harmless_silent effs : Forall harmless effs -> Forall silent effs.
Proof. intros He. apply (Forall_impl harmless); [done|]. by intros []. Qed.

Lemma harmless_tasks g os n ch effs p :
  Forall harmless effs -> p ∈ concat (map (spawn n ch) effs) -> task_inv g os p.
Proof. intros He. by apply silent_tasks, harmless_silent. Qed.

Lemma harmless_applies n effs p : Forall harmless effs -> p ∉ concat (map (applies n) effs).
Proof.
  induction 1 as [|eff effs He _ IH]; cbn; [by apply not_elem_of_nil|].
  intros [Hp|Hp]%elem_of_app; [|by apply IH]. by destruct eff; try done; apply not_elem_of_nil in Hp.
Qed.

Lemma idle_step n ch rf rf' effs ts cl cl1 g bs os :
  safe g bs os cl -> counted g n cl -> nodes cl !! n = Some rf -> takes cl cl1 -> frame rf rf' ->
  Forall harmless effs -> Forall (task_inv g os) ts ->
  stepped g bs os n (update n ch rf' effs ts cl1).
Proof.
  intros Hs Hc Hrf Htk Hf He Hts. exists g. split; [apply about_refl|]. split.
  - apply (step_safe n ch rf rf' effs ts cl cl1 g g bs bs os Hs Hrf Htk (about_refl n g) (c_ghost _ _ _ _ Hs));
      [| | | |exact (c_asked _ _ _ _ Hs)|exact (c_ballots _ _ _ _ Hs)].
    + apply (frame_node g n rf); [done|]. by apply (c_nodes _ _ _ _ Hs).
    + apply Hf.
    + intros p [Hp|Hp]%elem_of_app; [by apply (harmless_tasks g os n ch effs)|].
      exact (proj1 (Forall_forall _ _) Hts p Hp).
    + intros p Hp. by apply harmless_applies in Hp.
  - apply (counted_step n ch rf _ _ _ cl _ g); try done; [apply extends_refl|apply Hf].
Qed.

Lemma stepped_bump g bs os n cl : stepped g bs os n cl -> stepped g bs os n (bump cl).
Proof. intros (g' & Hab & [] & Hc). exists g'. split; [done|]. by split. Qed.

(** ** Votes *)

(** A vote is recorded if the term has no leader yet. *)
Definition vote (n : nat) (args : RequestVoteArgs) g : ghost :=
  mkGhost (hist g) (elog g) (llog g) (acks g) (args :: asked g)
    (match elog g !! rvTerm args with None => (n, args) :: cast g | Some _ => cast g end) (refused g).

Lemma vote_cast n args g v args' :
  (v, args') ∈ cast (vote n args g) <->
  (v, args') ∈ cast g \/ elog g !! rvTerm args = None /\ v = n /\ args' = args.
Proof. cbn. destruct (elog g !! rvTerm args); rewrite ?elem_of_cons; naive_solver. Qed.

Lemma vote_about n args g :
  args ∈ asked g \/ CandidateId args = Z.of_nat n -> about n g (vote n args g).
Proof.
  intros Hargs. split; [split|..]; try done.
  - eauto.
  - intros a. cbn. by right.
  - intros [v a]. rewrite vote_cast. by left.
  - intros v a. rewrite vote_cast. naive_solver.
  - cbn. intros a [->|]%elem_of_cons; naive_solver.
Qed.

Lemma vote_recorded n args g rf :
  ghost_ok lead N g -> node_inv g n rf -> currentTerm rf <= rvTerm args -> up_to_date args (log rf) ->
  ghost_ok lead N (vote n args g).
Proof.
  intros Hg Hn Ht Hup. destruct Hg. split; try done.
  - cbn. intros t EE HEE. destruct (g_elected t EE HEE) as (H1 & H2 & H3 & Q & HQ & Hv).
    split_and!; try done. exists Q. split; [done|]. intros v Hin. destruct (Hv v Hin) as (a & Ha & ?).
    exists a. split; [|done]. by apply (vote_cast n args g v a); left.
  - intros v a t L i e. rewrite vote_cast. intros [Hc|(HNone & -> & ->)] HL Hlt Hi He; [by eapply g_cast|].
    destruct (s_acks _ _ _ Hn t L i e HL Hi He) as [Hlog|(u & LU & Hu & HLU & Hne)].
    + right. exists (log rf). by split; [apply Hn|].
    + left. exists u, LU. assert (u <> rvTerm args) by congruence. split; [lia|done].
Qed.

Lemma vote_node n args g rf :
  node_inv g n rf -> rvTerm args <= currentTerm rf ->
  args ∈ asked g \/ describes args (log rf) -> node_inv (vote n args g) n rf.
Proof.
  intros [] Ht Hargs. split; try done.
  - intros a. rewrite vote_cast. intros [H|(_ & _ & ->)]; [by apply s_cast0|done].
  - cbn. intros a [->|Ha]%elem_of_cons Hc Hl; [|by apply s_asked0].
    destruct Hargs as [Hargs|Hd]; [by apply s_asked0|done].
Qed.

Lemma vote_step n ch rf rf' args effs ts cl cl1 g bs os :
  safe g bs os cl -> counted g n cl -> nodes cl !! n = Some rf -> takes cl cl1 -> frame rf rf' ->
  currentTerm rf' = rvTerm args -> up_to_date args (log rf) ->
  args ∈ asked g \/ CandidateId args = Z.of_nat n /\ describes args (log rf) ->
  (forall p, p ∈ concat (map (spawn n ch) effs) ++ ts -> task_inv (vote n args g) os p) ->
  (forall p, p ∉ concat (map (applies n) effs)) ->
  stepped g ((n, args) :: bs) os n (update n ch rf' effs ts cl1).
Proof.
  intros Hs Hc Hrf Htk Hf Ht Hup Hargs Htasks Happ. exists (vote n args g).
  assert (about n g (vote n args g)) as Hab by (apply vote_about; naive_solver).
  pose proof (c_nodes _ _ _ _ Hs n rf Hrf) as Hn. split; [done|]. split.
  - apply (step_safe n ch rf rf' effs ts cl cl1 g _ bs _ os); try done.
    + apply (vote_recorded n args g rf); [apply Hs|done| |done]. destruct Hf. lia.
    + apply vote_node; [by apply (frame_node g n rf)|lia|]. rewrite (f_log _ _ Hf). naive_solver.
    + apply Hf.
    + intros p Hp. by destruct (Happ p).
    + intros v a. rewrite vote_cast. cbn. intros [Hin|(_ & _ & ->)]; [right|left].
      by apply (c_asked _ _ _ _ Hs v).
    + intros v a [[= -> ->]|Hin]%elem_of_cons HNone; apply vote_cast; [by right|left].
      by apply (c_ballots _ _ _ _ Hs).
  - apply (counted_step n ch rf rf' effs ts cl cl1 g); try done; [apply Hab|apply Hf].
Qed.

(** ** Elections *)

Definition elect (n : nat) (rf : Raft) g : ghost :=
  mkGhost (hist g) (<[currentTerm rf := log rf]> (elog g)) (<[currentTerm rf := log rf]> (llog g))
    ((n, currentTerm rf, log rf) :: acks g) (asked g) (cast g) (refused g).

Lemma no_leader_no_log g t : ghost_ok lead N g -> elog g !! t = None -> llog g !! t = None.
Proof.
  intros Hg HE. destruct (llog g !! t) as [L|] eqn:HL; [|done].
  destruct (g_leader _ _ _ Hg t L HL) as (_ & _ & EE & HEE & _). congruence.
Qed.

Lemma elect_about n rf g :
  lead (currentTerm rf) = n -> elog g !! currentTerm rf = None -> ghost_ok lead N g -> about n g (elect n rf g).
Proof.
  intros Hl HE Hg. pose proof (no_leader_no_log g _ Hg HE) as HL. split; [split|..]; try done; cbn.
  - intros t L Ht. rewrite lookup_insert_ne by congruence. done.
  - intros t L Ht. rewrite lookup_insert_ne by congruence. by exists L.
  - by right.
  - intros t Ht. rewrite lookup_insert_ne by congruence. done.
  - intros v t L [[= -> _ _]|]%elem_of_cons Hv; done.
Qed.

Lemma elect_ok n rf g Q :
  ghost_ok lead N g -> node_inv g n rf -> (n < N)%nat -> lead (currentTerm rf) = n ->
  elog g !! currentTerm rf = None -> terms_between 0 (currentTerm rf) (log rf) -> majority N Q ->
  (forall v, v ∈ Q -> exists args, (v, args) ∈ cast g /\ rvTerm args = currentTerm rf /\ describes args (log rf)) ->
  ghost_ok lead N (elect n rf g).
Proof.
  intros Hg Hn HnN Hl HE Htb HQ Hv. pose proof (no_leader_no_log g _ Hg HE) as HL.
  pose proof (elect_about n rf g Hl HE Hg) as [Hx _ _ _ _].
  destruct Hg. split; try done; cbn.
  - intros L i e HLh Hi Hi0. destruct (g_made L i e HLh Hi Hi0) as (LL & EE & H1 & H2 & H3 & H4).
    exists LL, EE. rewrite !lookup_insert_ne by congruence. done.
  - intros t LL [[<- <-]|[Hne HLL]]%lookup_insert_Some.
    + split; [apply Hn|]. split; [rewrite Hl; left|]. exists (log rf). rewrite lookup_insert_eq.
      split_and!; [done|done|]. intros i e Hi%lookup_lt_Some ?. lia.
    + destruct (g_leader t LL HLL) as (H1 & H2 & EE & H3 & H4). split; [done|]. split; [by right|].
      exists EE. by rewrite lookup_insert_ne.
  - intros t EE [[<- <-]|[Hne HEE]]%lookup_insert_Some.
    + split; [apply Hn|]. split; [done|]. split; [|by exists Q]. exists (log rf). by rewrite lookup_insert_eq.
    + destruct (g_elected t EE HEE) as (H1 & H2 & (LL & H3 & H4) & H5). split_and!; try done.
      exists LL. by rewrite lookup_insert_ne.
  - intros v t L [[= -> -> ->]|HLa]%elem_of_cons.
    + split; [done|]. exists (log rf). by rewrite lookup_insert_eq.
    + destruct (g_acks v t L HLa) as (H1 & LL & H2 & H3). split; [done|]. exists LL.
      by rewrite lookup_insert_ne by congruence.
  - intros v args t L i e Hc [[= -> -> ->]|HLa]%elem_of_cons Hlt Hi He.
    + apply (s_cast _ _ _ Hn) in Hc. lia.
    + destruct (g_cast v args t L i e Hc HLa Hlt Hi He) as [Hsup|?]; [left|by right].
      apply (superseded_mono g _ _ _ _ (rvTerm args)); [done|lia|done].
  - intros v t p Hp. destruct (g_refused v t p Hp) as (LL & HLL & Hlt). exists LL.
    by rewrite lookup_insert_ne by congruence.
Qed.

Lemma elect_node n rf g :
  ghost_ok lead N g -> node_inv g n rf -> lead (currentTerm rf) = n -> elog g !! currentTerm rf = None ->
  node_inv (elect n rf g) n rf.
Proof.
  intros Hg Hn Hl HE. pose proof (elect_about n rf g Hl HE Hg) as [Hx _ _ _ _].
  destruct Hn. split; try done.
  - cbn. intros t LL Ht [[<- <-]|[Hne HLL]]%lookup_insert_Some; [done|by apply s_llog0].
  - intros _. exists (log rf). cbn. by rewrite lookup_insert_eq.
  - cbn. intros t L [[= -> _]|H]%elem_of_cons; [done|by apply (s_acks_term0 t L)].
  - cbn. intros t L i e [[= -> ->]|H]%elem_of_cons Hi He; [by left|].
    destruct (s_acks0 t L i e H Hi He) as [?|Hsup]; [by left|right].
    apply (superseded_mono g _ _ _ _ (currentTerm rf + 1)); [done|lia|done].
  - intros args Ha Hc Hlead. destruct (s_asked0 args Ha Hc Hlead) as [H1 H2]. split; [done|].
    intros H3 H4. apply H2; [done|]. by apply (elog_None g (elect n rf g)).
  - apply (committed_mono N g _ _ _ (currentTerm rf)); [done|done|done].
  - cbn. intros t p LL Hp [[<- <-]|[Hne HLL]]%lookup_insert_Some; [|by apply (s_refused0 t p)].
    split; [done|]. by left.
Qed.

Lemma elect_step n ch rf rf' effs ts cl cl1 g bs os :
  safe g bs os cl -> nodes cl !! n = Some rf -> takes cl cl1 -> node_wf n N rf ->
  log rf' = log rf -> commitIndex rf' = commitIndex rf -> lastApplied rf' = lastApplied rf ->
  currentTerm rf' = currentTerm rf -> lead (currentTerm rf') = n -> (N < 2 * length (voters N bs (currentTerm rf') n))%nat ->
  Forall harmless effs -> Forall (task_inv g os) ts -> (n, TLeader0) ∈ concat (map (spawn n ch) effs) ->
  stepped g bs os n (update n ch rf' effs ts cl1).
Proof.
  intros Hs Hrf Htk Hwf Hlog Hci Hla Hterm Hl HQ He Hts Hpend. pose proof (c_nodes _ _ _ _ Hs n rf Hrf) as Hn.
  pose proof (c_ghost _ _ _ _ Hs) as Hg.
  assert (forall g', counted g' n (update n ch rf' effs ts cl1)) as Hcount.
  { intros g' q _ _. left. cbn. apply elem_of_app. right. apply elem_of_app. by left. }
  destruct (elog g !! currentTerm rf') as [EE|] eqn:HE.
  - (* elected already *)
    exists g. split; [apply about_refl|]. split; [|done].
    apply (step_safe n ch rf rf' effs ts cl cl1 g g bs bs os Hs Hrf Htk (about_refl n g) Hg);
      [| | | |exact (c_asked _ _ _ _ Hs)|exact (c_ballots _ _ _ _ Hs)].
    + apply (node_inv_frame g n rf); try done; [lia|]. by exists EE.
    + lia.
    + intros p [Hp|Hp]%elem_of_app; [by apply (harmless_tasks g os n ch effs)|].
      exact (proj1 (Forall_forall _ _) Hts p Hp).
    + intros p Hp. by apply harmless_applies in Hp.
  - rewrite Hterm in Hl, HQ, HE. assert (n < N)%nat as HnN
      by (rewrite <-(c_size _ _ _ _ Hs); by apply lookup_lt_Some in Hrf).
    assert (about n g (elect n rf g)) as Hab by by apply elect_about.
    assert (forall v, v ∈ voters N bs (currentTerm rf) n -> exists args, (v, args) ∈ cast g /\
      rvTerm args = currentTerm rf /\ describes args (log rf)) as Hv.
    { intros v (_ & args & Hin & Ht & Hcand)%voters_elem. exists args.
      assert ((v, args) ∈ cast g) as Hc by (apply (c_ballots _ _ _ _ Hs); [done|by rewrite Ht]).
      split; [done|]. split; [done|].
      apply (s_asked _ _ _ Hn args); [by apply (c_asked _ _ _ _ Hs v)|done|by rewrite Ht|done|by rewrite Ht]. }
    exists (elect n rf g). split; [done|]. split; [|done].
    apply (step_safe n ch rf rf' effs ts cl cl1 g _ bs bs os Hs Hrf Htk Hab).
    + apply (elect_ok n rf g (voters N bs (currentTerm rf) n) Hg Hn HnN Hl HE); [by apply Hwf|by apply voters_majority|done].
    + apply (node_inv_frame _ n rf); try done; [by apply elect_node|lia|].
      intros _. exists (log rf). cbn. by rewrite Hterm, lookup_insert_eq.
    + lia.
    + intros p [Hp|Hp]%elem_of_app; [by apply (harmless_tasks _ os n ch effs)|].
      apply (task_inv_mono g); [apply Hab|]. exact (proj1 (Forall_forall _ _) Hts p Hp).
    + intros p Hp. by apply harmless_applies in Hp.
    + apply (c_asked _ _ _ _ Hs).
    + intros v args Hin HNone. apply (c_ballots _ _ _ _ Hs); [done|].
      by apply (elog_None g (elect n rf g)); [apply Hab|].
Qed.

(** ** New entries *)

Definition grow (n : nat) (rf' : Raft) g : ghost :=
  mkGhost (log rf' :: hist g) (elog g) (<[currentTerm rf' := log rf']> (llog g))
    ((n, currentTerm rf', log rf') :: acks g) (asked g) (cast g) (refused g).

(** [rf'] is a leader with one more entry. *)
Record appends (n : nat) (rf rf' : Raft) g : Prop := {
  p_new : exists new, log rf' = log rf ++ [new] /\ eTerm new = currentTerm rf;
  p_term : currentTerm rf' = currentTerm rf;
  p_lead : lead (currentTerm rf) = n;
  p_last : llog g !! currentTerm rf = Some (log rf);
}.

Lemma grow_about n rf rf' g : appends n rf rf' g -> about n g (grow n rf' g).
Proof.
  intros [(new & Hnew & _) Ht Hl HLL]. split; [split|..]; try done; cbn; rewrite ?Ht.
  - by right.
  - intros t L HL. destruct (decide (t = currentTerm rf)) as [->|Hne].
    + exists (log rf'). rewrite lookup_insert_eq. split; [done|].
      assert (L = log rf) as -> by congruence. rewrite Hnew. by apply prefix_app_r.
    + exists L. by rewrite lookup_insert_ne.
  - by right.
  - intros t Hlt. by rewrite lookup_insert_ne by congruence.
  - intros v t L [[= -> _ _]|]%elem_of_cons Hv; done.
Qed.

Lemma grow_match n rf rf' g L :
  ghost_ok lead N g -> node_inv g n rf -> appends n rf rf' g -> L ∈ hist g -> match_upto (log rf') L.
Proof.
  intros Hg Hn [(new & Hnew & Hnt) Ht Hl HLL] HL i e e' He He' Hte. pose proof (s_hist _ _ _ Hn) as Hh.
  assert (0 < length (log rf))%nat as Hpos by (pose proof (g_heads _ _ _ Hg _ Hh) as H0; by apply lookup_lt_Some in H0).
  rewrite Hnew in He |- *. apply lookup_app_Some in He as [He|[Hge He]].
  - rewrite take_snoc_lookup by (by apply lookup_lt_Some in He). by apply (g_match _ _ _ Hg _ L Hh HL i e e').
  - exfalso. apply list_lookup_singleton_Some in He as [Hz <-].
    destruct (g_made _ _ _ Hg L i e' HL He') as (LL & EE & H1 & _ & H2 & _); [lia|].
    rewrite <-Hte, Hnt, HLL in H1. injection H1 as <-. apply lookup_lt_Some in H2. lia.
Qed.

Lemma grow_made n rf rf' g L i e :
  ghost_ok lead N g -> node_inv g n rf -> appends n rf rf' g -> L ∈ log rf' :: hist g -> L !! i = Some e -> i <> 0%nat ->
  exists LL EE, <[currentTerm rf := log rf']> (llog g) !! eTerm e = Some LL /\ elog g !! eTerm e = Some EE /\
    LL !! i = Some e /\ (length EE <= i)%nat.
Proof.
  intros Hg Hn [(new & Hnew & Hnt) Ht Hl HLL] HL Hi Hi0. pose proof (s_hist _ _ _ Hn) as Hh.
  destruct (g_leader _ _ _ Hg _ _ HLL) as (_ & _ & E0 & HE0 & HE0p & _).
  assert (forall L, L ∈ hist g -> L !! i = Some e -> exists LL EE,
    <[currentTerm rf := log rf']> (llog g) !! eTerm e = Some LL /\ elog g !! eTerm e = Some EE /\
    LL !! i = Some e /\ (length EE <= i)%nat) as Hmade.
  { intros L' HL' Hi'. destruct (g_made _ _ _ Hg L' i e HL' Hi' Hi0) as (LL & EE & H1 & H2 & H3 & H4).
    destruct (decide (eTerm e = currentTerm rf)) as [He|Hne]; [|exists LL, EE; by rewrite lookup_insert_ne].
    exists (log rf'), EE. rewrite He, lookup_insert_eq, <-He. split_and!; try done.
    rewrite He, HLL in H1. injection H1 as <-. rewrite Hnew. by apply lookup_app_l_Some. }
  apply elem_of_cons in HL as [->|HL]; [|by apply (Hmade L)].
  rewrite Hnew in Hi. apply lookup_app_Some in Hi as [Hi|[Hge Hi]]; [by apply (Hmade (log rf))|].
  apply list_lookup_singleton_Some in Hi as [Hz <-]. exists (log rf'), E0.
  rewrite Hnt, lookup_insert_eq. split_and!; try done.
  - rewrite Hnew. replace i with (length (log rf)) by lia. by rewrite lookup_app_r, Nat.sub_diag.
  - apply prefix_length in HE0p. lia.
Qed.

(** The log of the leader of a term that an older record knows a prefix of. *)
Lemma grow_llog n rf rf' g t LL :
  appends n rf rf' g -> llog g !! t = Some LL ->
  exists L', <[currentTerm rf := log rf']> (llog g) !! t = Some L' /\ LL `prefix_of` L'.
Proof.
  intros Hap HLL. destruct (x_llog _ _ (a_extends _ _ _ (grow_about n rf rf' g Hap)) t LL HLL) as (L' & HL' & Hp).
  cbn in HL'. rewrite (p_term _ _ _ _ Hap) in HL'. by exists L'.
Qed.

Lemma grow_ok n rf rf' g :
  ghost_ok lead N g -> node_inv g n rf -> (n < N)%nat -> appends n rf rf' g -> terms_sorted (log rf') ->
  ghost_ok lead N (grow n rf' g).
Proof.
  intros Hg Hn HnN Hap Hsorted. pose proof (a_extends _ _ _ (grow_about n rf rf' g Hap)) as Hx.
  pose proof (fun L => grow_match n rf rf' g L Hg Hn Hap) as Hmatch.
  pose proof (fun L i e => grow_made n rf rf' g L i e Hg Hn Hap) as Hmade.
  pose proof (fun t LL => grow_llog n rf rf' g t LL Hap) as Hllog.
  destruct Hap as [(new & Hnew & Hnt) Ht Hl HLL]. pose proof (s_hist _ _ _ Hn) as Hh.
  destruct (g_leader _ _ _ Hg _ _ HLL) as (_ & _ & E0 & HE0 & HE0p & Hown).
  destruct Hg. split; cbn; rewrite ?Ht.
  - intros L [->|HL]%elem_of_cons; [|by apply g_heads]. rewrite Hnew. by apply lookup_app_l_Some, g_heads.
  - intros L [->|HL]%elem_of_cons; [done|by apply g_sorted].
  - intros L L' [->|HL]%elem_of_cons [->|HL']%elem_of_cons; [apply match_upto_refl|by apply Hmatch| |by apply g_match].
    by apply match_upto_sym, Hmatch.
  - exact Hmade.
  - intros t LL [[<- <-]|[Hne HL]]%lookup_insert_Some.
    + split; [left|]. split; [rewrite Hl; left|]. exists E0. split; [done|].
      rewrite Hnew. split; [by apply prefix_app_r|]. intros i e Hi Hge.
      apply lookup_app_Some in Hi as [Hi|[_ Hi]]; [by apply (Hown i)|].
      by apply list_lookup_singleton_Some in Hi as [_ <-].
    + destruct (g_leader t LL HL) as (H1 & H2 & H3). split; [by right|]. split; [by right|done].
  - intros t EE HEE. destruct (g_elected t EE HEE) as (H1 & H2 & (LL & H3 & H4) & H5).
    split; [by right|]. split; [done|]. split; [|done].
    destruct (Hllog t LL H3) as (L' & HL' & Hp). exists L'. split; [done|]. by transitivity LL.
  - intros v t L [[= -> -> ->]|HL]%elem_of_cons.
    + split; [done|]. exists (log rf'). by rewrite lookup_insert_eq.
    + destruct (g_acks v t L HL) as (H1 & LL & H2 & H3). split; [done|].
      destruct (Hllog t LL H2) as (L' & HL' & Hp). exists L'. split; [done|]. by transitivity LL.
  - intros v args t L i e Hc [[= -> -> ->]|HLa]%elem_of_cons Hlt Hi He.
    + apply (s_cast _ _ _ Hn) in Hc. lia.
    + destruct (g_cast v args t L i e Hc HLa Hlt Hi He) as [Hsup|(l & Hl' & ?)]; [left|right].
      * apply (superseded_mono g _ _ _ _ (rvTerm args)); [done|lia|done].
      * exists l. split; [by right|done].
  - intros v t p Hp. destruct (g_refused v t p Hp) as (LL & H1 & H2).
    destruct (Hllog t LL H1) as (L' & HL' & Hp'). exists L'. split; [done|]. apply prefix_length in Hp'. lia.
Qed.

Lemma grow_node n rf rf' g :
  node_inv g n rf -> appends n rf rf' g -> (exists EE, elog g !! currentTerm rf = Some EE) ->
  commitIndex rf' = commitIndex rf -> lastApplied rf' = lastApplied rf -> node_inv (grow n rf' g) n rf'.
Proof.
  intros Hn Hap [EE HEE] Hci Hla. pose proof (grow_about n rf rf' g Hap) as [Hx _ _ _ _].
  destruct Hap as [(new & Hnew & Hnt) Ht Hl HLL].
  assert (forall i e, log rf !! i = Some e -> log rf' !! i = Some e) as Hold.
  { intros i e Hi. rewrite Hnew. apply lookup_app_l_Some. done. }
  destruct Hn. split.
  - left.
  - cbn. intros t LL Hlt. rewrite Ht. intros [[<- <-]|[Hne HL]]%lookup_insert_Some; [done|].
    destruct (s_llog0 t LL Hlt HL) as [H1 _]. split; [lia|congruence].
  - intros _. exists EE. by rewrite Ht.
  - cbn. rewrite Ht. intros t L [[= -> _]|H]%elem_of_cons; [done|by apply (s_acks_term0 t L)].
  - cbn. rewrite Ht. intros t L i e [[= -> ->]|H]%elem_of_cons Hi He; [by left|].
    destruct (s_acks0 t L i e H Hi He) as [?|Hsup]; [left; by apply Hold|right].
    apply (superseded_mono g _ _ _ _ (currentTerm rf + 1)); [done|lia|done].
  - rewrite Ht. done.
  - rewrite Ht. cbn. intros args Ha Hc Hlead. destruct (s_asked0 args Ha Hc Hlead) as [H1 H2].
    split; [done|]. intros H3 H4. congruence.
  - rewrite Hci, Ht. apply (committed_prefix N _ _ (log rf)); [rewrite Hnew; by apply prefix_app_r|].
    apply (committed_mono N g _ _ _ (currentTerm rf)); [done|lia|done].
  - cbn. rewrite Ht. intros t p LL Hp [[<- <-]|[Hne HL]]%lookup_insert_Some; [split; [done|by left]|].
    destruct (s_refused0 t p LL Hp HL) as [H1 _]. split; [done|congruence].
  - by rewrite Hci, Hla.
Qed.

Lemma leader_last g n rf :
  ghost_ok lead N g -> node_inv g n rf -> state rf = LEADER -> lead (currentTerm rf) = n ->
  llog g !! currentTerm rf = Some (log rf) /\
  exists EE, elog g !! currentTerm rf = Some EE /\ EE `prefix_of` log rf.
Proof.
  intros Hg Hn Hs Hl. destruct (s_leader _ _ _ Hn Hs) as [EE HEE].
  destruct (g_elected _ _ _ Hg _ _ HEE) as (_ & _ & (LL & HLL & Hp) & _).
  destruct (s_llog _ _ _ Hn _ _ Hl HLL) as [_ Hlog]. rewrite (Hlog eq_refl). split; [done|]. by exists EE.
Qed.

Lemma append_step n command rf rf' r effs cl cl1 g bs os :
  safe g bs os cl -> counted g n cl -> nodes cl !! n = Some rf -> takes cl cl1 -> node_wf n N rf ->
  state rf = LEADER -> lead (currentTerm rf) = n -> Start_append command rf = (rf', r, effs) ->
  stepped g bs os n (update n 0 rf' effs [] cl1).
Proof.
  intros Hs Hc Hrf Htk Hwf Hst Hl Hr. injection Hr as <- _ <-. set (rf' := set_log _ rf).
  pose proof (c_nodes _ _ _ _ Hs n rf Hrf) as Hn. pose proof (c_ghost _ _ _ _ Hs) as Hg.
  destruct (leader_last g n rf Hg Hn Hst Hl) as (HLL & EE & HEE & _).
  assert (appends n rf rf' g) as Hap by (split; try done; by eexists).
  pose proof (grow_about n rf rf' g Hap) as Hab. exists (grow n rf' g). split; [done|]. split.
  - apply (step_safe n 0 rf rf' _ _ cl cl1 g _ bs bs os Hs Hrf Htk Hab).
    + apply (grow_ok n rf); try done; [rewrite <-(c_size _ _ _ _ Hs); by apply lookup_lt_Some in Hrf|].
      apply (log_wf_snoc (log rf) (currentTerm rf) command); [apply Hwf|apply (wf_term _ _ _ Hwf)].
    + apply (grow_node n rf); try done. by exists EE.
    + done.
    + cbn. by intros p ->%list_elem_of_singleton.
    + cbn. by intros p ?%not_elem_of_nil.
    + apply (c_asked _ _ _ _ Hs).
    + apply (c_ballots _ _ _ _ Hs).
  - apply (counted_step n 0 rf rf' _ _ cl cl1 g); try done; [apply Hab|].
    intros _. split; [done|]. split; try done. cbn. rewrite length_app. lia.
Qed.

(** ** Accepted entries *)

Lemma prefix_take_eq L LL k : L `prefix_of` LL -> (k <= length L)%nat -> take k L = take k LL.
Proof. intros [m ->] Hk. by rewrite take_app_le. Qed.

Lemma take_eq_prefix L LL l k :
  L `prefix_of` LL -> (length L <= k)%nat -> take k l = take k LL -> L `prefix_of` l.
Proof.
  intros Hp Hk Ht. assert (take (length L) l = L) as <-; [|apply prefix_take].
  rewrite <-(firstn_all L) at 2. rewrite (prefix_take_eq L LL) by done.
  apply (f_equal (take (length L))) in Ht. by rewrite !take_take, !Nat.min_l in Ht.
Qed.

Lemma take_eq_le (l L : list LogEntry) i j : take i l = take i L -> (j <= i)%nat -> take j l = take j L.
Proof. intros H Hj. apply (f_equal (take j)) in H. by rewrite !take_take, !Nat.min_l in H. Qed.

(** The merge of a log of a leader into a log that matches it. *)
Definition merged l L l' : Prop := L `prefix_of` l' /\ (l' = l \/ l' = L /\ ~ L `prefix_of` l).

Lemma reference_merged args l L :
  match_upto l L -> carries args L -> accepts args l ->
  merged l L (reference (S (Z.to_nat (PrevLogIndex args))) (Entries args) l).
Proof.
  intros Hm Hcar Hacc. pose proof (accepted_either args l L Hm Hcar Hacc) as Hor.
  destruct Hcar as (_ & (e0 & He0 & Ht0) & Hes), Hacc as (e1 & He1 & Ht1). set (p := Z.to_nat _) in *.
  assert (take (S p) l = take (S p) L) as Htk by (apply (Hm p e1 e0); [done|done|congruence]).
  apply lookup_lt_Some in He0 as HpL. apply lookup_lt_Some in He1 as Hpl. set (l' := reference _ _ _) in *.
  destruct (decide (L `prefix_of` l)) as [Hp|Hnp].
  - assert (l' = l) as ->; [|by split; [|left]]. unfold l'. apply reference_id. intros i e Hi.
    rewrite Hes, lookup_drop in Hi. exists e. split; [|done]. by apply (prefix_at L).
  - split; [|naive_solver]. destruct Hor as [Hl| ->]; [|done]. exfalso. apply Hnp.
    destruct (decide (length L <= S p)%nat) as [Hle|Hgt]; [by apply (take_eq_prefix L L l (S p))|].
    destruct (lookup_lt_is_Some_2 L (length L - 1)) as [e He]; [lia|].
    destruct (reference_has (S p) (Entries args) l (length L - 1 - S p) e) as (e' & He' & Ht'); [lia| |].
    { rewrite Hes, lookup_drop. rewrite <-He. f_equal. lia. }
    replace (S p + (length L - 1 - S p))%nat with (length L - 1)%nat in He' by lia. fold l' in He'. rewrite Hl in He'.
    apply (take_eq_prefix L L l (S (length L - 1))); [done|lia|by apply (Hm _ e' e)].
Qed.

Lemma same_term_kept g l L LL i e :
  ghost_ok lead N g -> l ∈ hist g -> l !! i = Some e -> llog g !! eTerm e = Some LL ->
  L `prefix_of` LL -> ~ L `prefix_of` l -> L !! i = Some e.
Proof.
  intros Hg Hl Hi HLL Hp Hnp. pose proof (made_by_leader lead N g l LL i e Hg Hl Hi HLL) as Ht.
  destruct (decide (i < length L)%nat) as [Hlt|Hge].
  - rewrite <-(take_eq_lookup LL L i i); [by apply (take_eq_at l LL i)| |done].
    symmetry. apply prefix_take_eq; [done|lia].
  - destruct Hnp. by apply (take_eq_prefix L LL l (S i)); [|lia|].
Qed.

Lemma kept_ack g f args L l l' t i e :
  ghost_ok lead N g -> brings g f args L -> l ∈ hist g -> merged l L l' ->
  l !! i = Some e -> eTerm e = t -> t <= aeTerm args ->
  l' !! i = Some e \/ superseded g t i e (aeTerm args + 1).
Proof.
  intros Hg (HL & _ & (LL & EE & HLL & Hp & HEE & Hp' & _) & _) Hl [_ [->|[-> Hnp]]] Hi Ht Hle; [by left|].
  destruct (decide (t = aeTerm args)) as [Heq|Hne].
  - left. apply (same_term_kept g l L LL); try done. by rewrite Ht, Heq.
  - destruct (decide (EE !! i = Some e)) as [HE|HE]; [left; by apply (prefix_at EE)|right].
    exists (aeTerm args), EE. split; [lia|done].
Qed.

Lemma kept_commit g f args L l l' c T :
  ghost_ok lead N g -> brings g f args L -> l ∈ hist g -> merged l L l' ->
  committed N g c l T -> T <= aeTerm args -> committed N g c l' (aeTerm args).
Proof.
  intros Hg (HL & _ & (LL & EE & HLL & Hp & HEE & Hp' & _) & _) Hl [_ [->|[-> Hnp]]] [Hcl Hc] Hle.
  { by apply (committed_mono N g g _ _ T); [apply extends_refl| |]. }
  destruct Hc as [->|(i & e & l0 & Hch & Hl0 & Hi & Hci & Ht & Htk)].
  { split; [|by left]. pose proof (g_heads _ _ _ Hg L HL) as H0. by apply lookup_lt_Some in H0. }
  assert ((c < length L)%nat /\ take (S c) L = take (S c) l0) as [HcL HtL].
  2:{ split; [done|]. right. exists i, e, l0. split_and!; try done. lia. }
  destruct (decide (eTerm e = aeTerm args)) as [Heq|Hne].
  - rewrite <-Heq in HLL. pose proof (made_by_leader lead N g l0 LL i e Hg Hl0 Hi HLL) as Hm.
    apply (take_eq_le _ _ _ (S c)) in Hm; [|lia].
    destruct (decide (c < length L)%nat) as [Hlt|Hge].
    + split; [done|]. rewrite Hm. by apply prefix_take_eq.
    + destruct Hnp. apply (take_eq_prefix L LL l (S c)); [done|lia|congruence].
  - assert (EE !! i = Some e) as HE by (apply (leader_complete lead N g i e Hg Hch (aeTerm args)); [done|lia]).
    apply (prefix_at EE L) in HE as HLi; [|done]. apply lookup_lt_Some in HLi as ?. split; [lia|].
    apply (take_eq_le _ _ (S i)); [|lia]. by apply (g_match _ _ _ Hg L l0 HL Hl0 i e e).
Qed.

(** ** Applied entries *)

Lemma applies_elem n effs p : p ∈ concat (map (applies n) effs) -> exists m, Apply m ∈ effs /\ p = (n, m).
Proof.
  induction effs as [|eff effs IH]; cbn; [by intros ?%not_elem_of_nil|].
  intros [Hp|Hp]%elem_of_app.
  - destruct eff; try (by apply not_elem_of_nil in Hp). apply list_elem_of_singleton in Hp as ->.
    exists msg. split; [left|done].
  - destruct (IH Hp) as (m & Hm & ->). exists m. split; [by right|done].
Qed.

Lemma apply_from_elem k j l effs m :
  apply_from k j l = Ret effs -> Apply m ∈ effs ->
  exists e j', j < j' <= j + Z.of_nat k /\ go_index l j' = Ret e /\ m = mkApply true (eCommand e) (eIndex e).
Proof.
  revert j effs. induction k as [|k IH]; intros j effs Hr Hm; cbn [apply_from] in Hr.
  { apply (inj Ret) in Hr as <-. by apply not_elem_of_nil in Hm. }
  bind_inv Hr. bind_inv Hr. apply (inj Ret) in Hr as <-. apply elem_of_cons in Hm as [[= ->]|Hm].
  - exists r, (j + 1). split; [lia|done].
  - destruct (IH _ _ E0 Hm) as (e & j' & Hj & He & ->). exists e, j'. split; [lia|done].
Qed.

Lemma apply_from_silent k j l effs : apply_from k j l = Ret effs -> Forall silent effs.
Proof.
  revert j effs. induction k as [|k IH]; intros j effs Hr; cbn [apply_from] in Hr.
  - apply (inj Ret) in Hr as <-. constructor.
  - bind_inv Hr. bind_inv Hr. apply (inj Ret) in Hr as <-. constructor; [done|]. by apply (IH (j + 1)).
Qed.

Lemma applied_ok g n l a b T effs m :
  l ∈ hist g -> log_ok l -> committed N g (Z.to_nat b) l T ->
  apply_from (Z.to_nat (b - a)) a l = Ret effs -> Apply m ∈ effs -> applied_inv g (n, m).
Proof.
  intros Hl Hok Hc Hr Hm.
  destruct (apply_from_elem _ _ _ _ _ Hr Hm) as (e & j & Hj & [Hj0 He]%go_index_Ret & ->).
  exists l, (Z.to_nat j), e, (Z.to_nat b), T. split_and!; try done; [lia|].
  cbn. by rewrite (proj2 Hok _ _ He).
Qed.

(** ** Receiving entries *)

Definition hold (n : nat) t L g : ghost :=
  mkGhost (hist g) (elog g) (llog g) ((n, t, L) :: acks g) (asked g) (cast g) (refused g).

Definition refuse (n : nat) t (p : nat) g : ghost :=
  mkGhost (hist g) (elog g) (llog g) (acks g) (asked g) (cast g) ((n, t, p) :: refused g).

Lemma hold_about n t L g : about n g (hold n t L g).
Proof.
  split; [split|..]; try done; cbn.
  - eauto.
  - by right.
  - intros v t' L' [[= -> _ _]|]%elem_of_cons Hv; done.
Qed.

Lemma hold_ok n t K LL g rf :
  ghost_ok lead N g -> node_inv g n rf -> (n < N)%nat -> llog g !! t = Some LL -> K `prefix_of` LL ->
  currentTerm rf <= t -> ghost_ok lead N (hold n t K g).
Proof.
  intros Hg Hn HnN HLL Hp Ht. destruct Hg. split; try done; cbn.
  - intros u L1 HL1. destruct (g_leader u L1 HL1) as (H1 & H2 & H3). split; [done|]. split; [by right|done].
  - intros v u L1 [[= -> -> ->]|HL1]%elem_of_cons; [|by apply g_acks]. split; [done|]. by exists LL.
  - intros v a u L1 i e Hc [[= -> -> ->]|HL1]%elem_of_cons Hlt; [|by apply (g_cast v a u L1 i e)].
    apply (s_cast _ _ _ Hn) in Hc. lia.
Qed.

(** A server that has merged the entries it got: it now holds [K]. *)
Lemma hold_node n args L K g rf rf' :
  ghost_ok lead N g -> node_inv g n rf -> brings g n args L -> n <> lead (aeTerm args) ->
  currentTerm rf <= aeTerm args -> merged (log rf) L (log rf') -> K `prefix_of` log rf' ->
  currentTerm rf' = aeTerm args ->
  commitIndex rf' = commitIndex rf \/ commitIndex rf' = LeaderCommit args ->
  commitIndex rf <= commitIndex rf' -> lastApplied rf' = lastApplied rf ->
  node_inv (hold n (aeTerm args) K g) n rf'.
Proof.
  intros Hg Hn Hb Hne Hle Hmg HK Ht Hci Hmon Hla. pose proof (s_hist _ _ _ Hn) as Hh.
  assert (L ∈ hist g) as HLh by apply Hb. pose proof Hmg as [HLp Hor].
  split; rewrite ?Ht.
  - by destruct Hor as [->|[-> _]].
  - cbn. intros t LL Hlt HLL. destruct (s_llog _ _ _ Hn t LL Hlt HLL) as [H1 _]. split; [lia|congruence].
  - intros _. destruct Hb as (_ & _ & (LL & EE & _ & _ & HEE & _) & _). by exists EE.
  - cbn. intros t L0 [[= -> _]|H]%elem_of_cons; [done|].
    apply (s_acks_term _ _ _ Hn) in H. lia.
  - cbn. intros t L0 i e [[= -> ->]|H]%elem_of_cons Hi He; [left; by apply (prefix_at K)|].
    pose proof (s_acks_term _ _ _ Hn t L0 H) as Htt.
    destruct (s_acks _ _ _ Hn t L0 i e H Hi He) as [Hlog|Hsup].
    + by apply (kept_ack g n args L (log rf) (log rf') t i e); [done..|lia].
    + right. apply (superseded_mono g _ _ _ _ (currentTerm rf + 1)); [apply (hold_about n)|lia|done].
  - cbn. intros a Ha. apply (s_cast _ _ _ Hn) in Ha. lia.
  - cbn. intros a Ha Hc Hlead. destruct (s_asked _ _ _ Hn a Ha Hc Hlead) as [H1 _]. split; [lia|congruence].
  - apply (committed_mono N g _ _ _ (aeTerm args)); [apply (hold_about n)|done|].
    destruct Hci as [->| ->].
    + apply (kept_commit g n args L (log rf) _ _ (currentTerm rf)); try done. apply Hn.
    + apply (committed_prefix N g _ L); [done|]. apply Hb.
  - cbn. intros t p LL Hp HLL. destruct (s_refused _ _ _ Hn t p LL Hp HLL) as [H1 H2]. split; [lia|].
    intros <-. destruct Hor as [->|[-> _]]; [apply H2; lia|left].
    destruct Hb as (_ & _ & (LL' & EE & HLL' & Hpre & _) & _). by assert (LL' = LL) as <- by congruence.
  - rewrite Hla. pose proof (s_applied _ _ _ Hn). lia.
Qed.

(** What a server holds after it has accepted entries: only the leader's. *)
Lemma accepted_held n args L g rf l' :
  ghost_ok lead N g -> node_inv g n rf -> log_wf (log rf) (currentTerm rf) -> brings g n args L ->
  currentTerm rf <= aeTerm args -> merged (log rf) L l' -> Entries args <> [] ->
  exists LL, llog g !! aeTerm args = Some LL /\ l' `prefix_of` LL.
Proof.
  intros Hg Hn (_ & Hsorted & Hbetween) (HL & Hcar & (LL & EE & HLL & Hp & HEE & Hp' & Hent) & _) Hle [HLp Hor] Hne.
  exists LL. split; [done|]. destruct Hor as [->|[-> _]]; [|done].
  pose proof (s_hist _ _ _ Hn) as Hh. destruct Hent as [?|[Hge|(p & Hr & Hlt)]]; [done| |].
  - (* the last entry of the message is of the leader's term, and so are all after it *)
    destruct Hcar as (Hp0 & _ & Hes). apply (f_equal length) in Hes as Hlen. rewrite length_drop in Hlen.
    assert (length (Entries args) <> 0%nat) as Hnz by (by intros ?%nil_length_inv).
    set (j := (length L - 1)%nat) in *. destruct (lookup_lt_is_Some_2 L j) as [x Hx]; [lia|].
    destruct (g_leader _ _ _ Hg _ _ HLL) as (_ & _ & EE' & HEE' & _ & Hown).
    assert (EE' = EE) as -> by congruence.
    assert (eTerm x = aeTerm args) as Hxt by (apply (Hown j); [by apply (prefix_at L)|unfold zlen in *; lia]).
    apply (prefix_at L (log rf)) in Hx as Hxl; [|done].
    set (k := (length (log rf) - 1)%nat). apply lookup_lt_Some in Hxl as ?.
    destruct (lookup_lt_is_Some_2 (log rf) k) as [y Hy]; [lia|].
    assert (eTerm x <= eTerm y) by (apply (Hsorted j k); [lia|done|done]).
    assert (eTerm y <= currentTerm rf) by (apply Hbetween; by apply list_elem_of_lookup_2 in Hy).
    apply (take_eq_prefix (log rf) (log rf) LL (S k)); [done|lia|]. symmetry.
    apply (made_by_leader lead N g (log rf) LL k y Hg Hh Hy). by replace (eTerm y) with (aeTerm args) by lia.
  - destruct (s_refused _ _ _ Hn _ _ LL Hr HLL) as [H1 H2]. destruct (H2 ltac:(lia)) as [|Hno]; [done|].
    exfalso. apply Hno. destruct (lookup_lt_is_Some_2 L p Hlt) as [x Hx].
    by rewrite (prefix_at L (log rf) p x HLp Hx), (prefix_at L LL p x Hp Hx).
Qed.

(** A server that had not the entry a message follows. *)
Lemma refuse_about n t p g : about n g (refuse n t p g).
Proof.
  split; [split|..]; try done; cbn.
  - eauto.
  - by right.
  - intros v t' p' [[= -> _ _]|]%elem_of_cons Hv; done.
Qed.

Lemma refuse_ok n t p LL g :
  ghost_ok lead N g -> llog g !! t = Some LL -> (p < length LL)%nat -> ghost_ok lead N (refuse n t p g).
Proof.
  intros Hg HLL Hp. destruct Hg. split; try done; cbn.
  intros v u q [[= -> -> ->]|H]%elem_of_cons; [by exists LL|by apply (g_refused v u q)].
Qed.

Lemma refuse_node n t p LL g rf :
  node_inv g n rf -> llog g !! t = Some LL -> t <= currentTerm rf -> log rf !! p <> LL !! p ->
  node_inv (refuse n t p g) n rf.
Proof.
  intros [] HLL Ht Hp. split; try done. cbn. intros u q L [[= -> ->]|H]%elem_of_cons HL; [|by apply (s_refused0 u q)].
  split; [done|]. right. by assert (L = LL) as -> by congruence.
Qed.

(** The two ways a message is refused leave log and commit index alone. *)
Lemma adopt_harmless args rf : Forall harmless (adopt_effs args rf).
Proof. unfold adopt_effs. destruct (decide _); by repeat constructor. Qed.

Lemma adopt_frame args rf c :
  aeTerm args >= currentTerm rf -> frame rf (adopt args (set_rpcCh c rf)) /\
  currentTerm (adopt args (set_rpcCh c rf)) = aeTerm args.
Proof.
  intros Hge. unfold adopt. destruct (decide _) as [Hs|Hs].
  - split; [|done]. split; try done; cbn; lia.
  - assert (currentTerm rf = aeTerm args)
      by (assert (~ currentTerm rf < aeTerm args) by (intros H; apply Hs; by left); cbn; lia).
    split; [|done]. by split.
Qed.

Lemma refused_step n from ch args rf rf' effs reply cl cl1 g bs os :
  safe g bs os cl -> counted g n cl -> nodes cl !! n = Some rf -> takes cl cl1 -> frame rf rf' ->
  task_inv g os (n, MAppend from ch args) -> Forall harmless effs ->
  Success reply = false -> FollowerId reply = Z.of_nat n ->
  aeTerm args < aerTerm reply \/ currentTerm rf' = aeTerm args /\ ~ accepts args (log rf) ->
  stepped g bs os n (update n 0 rf' effs [(from, MAppendReply ch reply)] cl1).
Proof.
  intros Hs Hc Hrf Htk Hf (Hne & -> & HT & L & HL) He Hsu Hid Hwhy. cbn in Hne.
  pose proof HL as (_ & (Hp0 & (e & Hle & Het) & _) & (LL & EE & HLL & Hp & _) & _).
  destruct Hwhy as [Hlt|[Hterm Hno]].
  { apply (idle_step n 0 rf rf' _ _ cl); try done. apply Forall_singleton. cbn. exists (aeTerm args).
    split_and!; [done|by exists LL|done|]. rewrite Hsu. by left. }
  set (p := Z.to_nat (PrevLogIndex args)) in *. set (g' := refuse n (aeTerm args) p g).
  assert (LL !! p = Some e) as HLe by by apply (prefix_at L).
  exists g'. split; [apply refuse_about|]. split.
  - apply (step_safe n 0 rf rf' effs _ cl cl1 g g' bs bs os Hs Hrf Htk (refuse_about n _ p g));
      [| | | | |exact (c_asked _ _ _ _ Hs)|exact (c_ballots _ _ _ _ Hs)].
    + apply (refuse_ok n _ p LL); [apply Hs|done|by apply lookup_lt_Some in HLe].
    + apply (refuse_node n _ p LL); [by apply (frame_node g n rf); [|apply (c_nodes _ _ _ _ Hs)]|done|lia|].
      rewrite (f_log _ _ Hf), HLe. intros Hq. apply Hno. by exists e.
    + apply Hf.
    + intros q [Hq|Hq]%elem_of_app; [by apply (harmless_tasks g' os n 0 effs)|].
      apply list_elem_of_singleton in Hq as ->. cbn. exists (aeTerm args).
      split_and!; [done|by exists LL|done|]. rewrite Hsu. right. exists n, p. split; [done|left].
    + intros q Hq. by apply harmless_applies in Hq.
  - apply (counted_step n 0 rf rf' _ _ cl cl1 g); try done; [apply refuse_about|apply Hf].
Qed.

(** The new commit index is the old one or that of the message. *)
Lemma commit_taken g n args L rf rf1 l' :
  node_wf n N rf -> brings g n args L -> L `prefix_of` l' -> commitIndex rf1 = commitIndex rf ->
  let b := new_commit (LeaderCommit args) (set_log l' rf1) in
  (b = commitIndex rf \/ b = LeaderCommit args) /\ commitIndex rf <= b.
Proof.
  intros Hwf (_ & _ & _ & [Hlen _]) Hp Hc1. cbv zeta. unfold new_commit. cbn. rewrite Hc1.
  destruct (decide (commitIndex rf < LeaderCommit args)); [|split; [by left|lia]].
  destruct (wf_commit _ _ _ Hwf). apply prefix_length in Hp.
  assert (Z.min (LeaderCommit args) (zlen l' - 1) = LeaderCommit args) as -> by (unfold zlen; lia).
  split; [by right|lia].
Qed.

(** What a server holds of the leader's log once it has accepted. *)
Lemma held_part g n args L LL EE rf l' :
  ghost_ok lead N g -> node_inv g n rf -> brings g n args L -> log_wf (log rf) (currentTerm rf) ->
  currentTerm rf <= aeTerm args -> merged (log rf) L l' ->
  llog g !! aeTerm args = Some LL -> L `prefix_of` LL -> EE `prefix_of` L ->
  let K := if decide (Entries args = []) then L else l' in
  K `prefix_of` l' /\ K `prefix_of` LL /\ EE `prefix_of` K.
Proof.
  intros Hg Hn HL Hb Hle Hmg HLL HpL HpE. cbv zeta.
  destruct (decide (Entries args = [])); [split; [apply Hmg|done]|]. split; [done|].
  destruct (accepted_held n args L g rf l') as (LL' & HLL' & ?); try done.
  assert (LL' = LL) as -> by congruence. split; [done|]. transitivity L; [done|apply Hmg].
Qed.

Lemma receive_step n from ch args rf rf' reply effs cl cl1 g bs os :
  safe g bs os cl -> counted g n cl -> nodes cl !! n = Some rf -> takes cl cl1 -> node_wf n N rf ->
  zlen (log rf) <= 2 ^ 53 -> msg_wf args -> task_inv g os (n, MAppend from ch args) ->
  (state rf = LEADER -> lead (currentTerm rf) = n) -> AppendEntries args rf = Ret (rf', reply, effs) ->
  stepped g bs os n (update n 0 rf' effs [(from, MAppendReply ch reply)] cl1).
Proof.
  intros Hs Hcnt Hrf Htk Hwf Hsz Hm Hti Hl Hrun. pose proof Hti as (Hne & Hfrom & HT & L & HL). cbn in Hne, HL.
  pose proof (c_nodes _ _ _ _ Hs n rf Hrf) as Hn. pose proof (c_ghost _ _ _ _ Hs) as Hg.
  destruct (AppendEntries_cases args rf (node_wf_ok _ _ _ Hwf Hsz) (proj1 Hm)
    (AppendEntries_notified _ _ _ _ _ Hrun)) as [c Hcase].
  rewrite Hrun in Hcase. cbv zeta in Hcase.
  destruct (decide (aeTerm args < currentTerm rf)) as [Hlt|Hge].
  { injection Hcase as -> -> ->. apply (refused_step n from ch args rf _ _ _ cl); try done; [apply Hwf|by left]. }
  destruct (adopt_frame args rf c) as [Hf Hterm]; [lia|]. set (rf1 := adopt args (set_rpcCh c rf)) in *.
  destruct (decide (accepts args (log rf))) as [Hacc|Hno]; injection Hcase as -> Hreply ->.
  2:{ subst reply. apply (refused_step n from ch args rf _ _ _ cl); try done;
        [apply adopt_harmless|apply Hwf|by right]. }
  set (l' := reference _ _ (log rf)) in *. set (b := new_commit (LeaderCommit args) (set_log l' rf1)) in *.
  assert (merged (log rf) L l') as Hmg.
  { apply reference_merged; [|apply HL|done]. apply (g_match _ _ _ Hg); [apply Hn|apply HL]. }
  assert (commitIndex rf1 = commitIndex rf) as Hc1 by apply Hf.
  destruct (commit_taken g n args L rf rf1 l' Hwf HL (proj1 Hmg) Hc1) as [Hb Hmon]. fold b in Hb, Hmon.
  set (rf' := set_commitIndex b (set_log l' rf1)). set (K := if decide (Entries args = []) then L else l').
  pose proof HL as (_ & _ & (LL & EE & HLL & HpL & HEE & HpE & _) & _).
  destruct (held_part g n args L LL EE rf l') as (HK & HKL & HEK); try done; [apply Hwf|lia|]. fold K in HK, HKL, HEK.
  assert (node_inv (hold n (aeTerm args) K g) n rf') as Hn'.
  { apply (hold_node n args L K g rf rf'); try done; [lia|]. apply Hf. }
  assert (log_wf l' (aeTerm args)) as Hlwf by (apply (reference_wf args (log rf) (currentTerm rf)); [apply Hwf|done..|lia]).
  exists (hold n (aeTerm args) K g). split; [apply hold_about|]. split.
  - apply (step_safe n 0 rf rf' _ _ cl cl1 g _ bs bs os Hs Hrf Htk (hold_about n _ K g)); try done.
    + apply (hold_ok n _ K LL g rf); try done; [|lia].
      rewrite <-(c_size _ _ _ _ Hs). by apply lookup_lt_Some in Hrf.
    + cbn. rewrite Hterm. lia.
    + intros p [Hp|Hp]%elem_of_app.
      * refine (silent_tasks _ os n 0 _ p _ Hp). apply Forall_app.
        split; [apply harmless_silent, adopt_harmless|]. apply Forall_map, Forall_true. done.
      * apply list_elem_of_singleton in Hp as ->. subst reply. cbn. exists (aeTerm args).
        split_and!; [done|by exists LL|done|]. cbn. intros Hh. apply bool_decide_eq_false in Hh.
        exists n, K, EE. split_and!; try done; [apply Hwf|left|]. unfold K. by rewrite decide_False.
    + intros p (m & [Hp|Hp]%elem_of_app & ->)%applies_elem; [by apply adopt_effs_no_apply in Hp|].
      apply (applied_ok _ n l' (commitIndex rf) b (currentTerm rf') (applied_between (commitIndex rf) b l'));
        [apply Hn'|apply Hlwf|apply Hn'| |done].
      apply apply_range; [apply (wf_commit _ _ _ Hwf)|]. destruct (s_commit _ _ _ Hn') as [Hlt _].
      cbn in Hlt. unfold zlen. lia.
    + apply (c_asked _ _ _ _ Hs).
    + apply (c_ballots _ _ _ _ Hs).
  - apply (counted_step n 0 rf rf' _ _ cl cl1 g); try done; [apply hold_about|].
    intros Hst. exfalso. destruct (f_leader _ _ Hf Hst) as [H1 [H2 _ _ _ _]].
    apply Hne. rewrite <-Hterm, H2. symmetry. by apply Hl.
Qed.

(** ** The leader *)

Lemma replicate_step n ch rf effs cl cl1 g bs os :
  safe g bs os cl -> counted g n cl -> nodes cl !! n = Some rf -> takes cl cl1 -> node_wf n N rf ->
  (state rf = LEADER -> lead (currentTerm rf) = n) -> (state rf = LEADER -> tables g rf) ->
  replicate rf = Ret effs -> stepped g bs os n (update n ch rf effs [] cl1).
Proof.
  intros Hs Hc Hrf Htk Hwf Hl Htab Hr.
  unfold replicate in Hr. destruct (decide (state rf = LEADER)) as [Hst|].
  2:{ apply (inj Ret) in Hr as <-. by apply (idle_step n ch rf rf _ _ cl). }
  apply (sent_from_log n N) in Hr; [|done].
  pose proof (c_nodes _ _ _ _ Hs n rf Hrf) as Hn. pose proof (c_ghost _ _ _ _ Hs) as Hg.
  specialize (Hl Hst). destruct (leader_last g n rf Hg Hn Hst Hl) as (HLL & EE & HEE & Hp).
  destruct (Htab Hst) as (_ & EE' & HEE' & Hnext). assert (EE' = EE) as -> by congruence.
  exists g. split; [apply about_refl|]. split.
  - apply (step_safe n ch rf rf effs [] cl cl1 g g bs bs os Hs Hrf Htk (about_refl n g) Hg Hn);
      [lia| | |exact (c_asked _ _ _ _ Hs)|exact (c_ballots _ _ _ _ Hs)].
    + rewrite app_nil_r. induction Hr as [|eff effs He _ IH]; cbn; [by intros p ?%not_elem_of_nil|].
      intros p [Hin|Hin]%elem_of_app; [|by apply IH]. destruct eff; try done.
      cbn in Hin. apply list_elem_of_singleton in Hin as ->. destruct He as (H1 & H2 & H3 & H4 & H5). cbn.
      rewrite H2, Hl. split; [done|]. split; [done|].
      split; [intros T HT; by apply (c_offices _ _ _ _ Hs ch n T rf)|].
      exists (log rf). split; [apply Hn|]. split; [done|]. rewrite H2, H4. split; [|apply Hn].
      exists (log rf), EE. split_and!; try done. destruct H5 as [H5|H5]; [by left|right].
      apply (Hnext _ _ H5). rewrite (wf_me _ _ _ Hwf). lia.
    + intros p (m & Hm & _)%applies_elem. by apply (proj1 (Forall_forall _ _) Hr) in Hm.
  - apply (counted_step n ch rf rf _ _ cl cl1 g g); try done. apply extends_refl.
Qed.

Lemma safe_open g bs os cl n rf ch :
  safe g bs os cl -> nodes cl !! n = Some rf -> (forall p, p ∈ tasks cl -> channel p.2 <> Some ch) ->
  safe g bs ((ch, (n, currentTerm rf)) :: os) cl.
Proof.
  intros [] Hrf Hch. split; try done.
  - intros p Hp. apply task_inv_open; [by apply Hch|by apply c_tasks0].
  - intros c k T q [[= -> -> ->]|Hin]%elem_of_cons Hq; [|by apply (c_offices0 c k T)].
    assert (q = rf) as -> by congruence. lia.
Qed.

Lemma toLeader_step n rf ts cl cl1 g bs os :
  safe g bs os cl -> nodes cl !! n = Some rf -> takes cl cl1 -> Forall (task_inv g os) ts ->
  (state rf = LEADER -> lead (currentTerm rf) = n) ->
  stepped g bs os n (update n 0 (toLeader_begin rf) [] ts cl1).
Proof.
  intros Hs Hrf Htk Hts Hl. pose proof (c_nodes _ _ _ _ Hs n rf Hrf) as Hn.
  exists g. split; [apply about_refl|]. split.
  - apply (step_safe n 0 rf _ [] ts cl cl1 g g bs bs os Hs Hrf Htk (about_refl n g) (c_ghost _ _ _ _ Hs));
      [|done| | |exact (c_asked _ _ _ _ Hs)|exact (c_ballots _ _ _ _ Hs)].
    + apply (node_inv_frame g n rf); try done. apply Hn.
    + cbn. intros p Hp. exact (proj1 (Forall_forall _ _) Hts p Hp).
    + cbn. by intros p ?%not_elem_of_nil.
  - intros q Hq Hst. right. cbn in Hq. rewrite (t_nodes _ _ Htk) in Hq.
    rewrite list_lookup_insert_eq in Hq by (by apply lookup_lt_Some in Hrf). injection Hq as <-.
    destruct (leader_last g n rf (c_ghost _ _ _ _ Hs) Hn Hst (Hl Hst)) as (_ & EE & HEE & Hp). split.
    + intros f m Hf. cbn in Hf. change (@map Z Z) with (@fmap list _ Z Z) in Hf.
      apply list_lookup_fmap_Some in Hf as (x & -> & _). by left.
    + exists EE. split; [done|]. intros f x Hf Hne. left. cbn in Hf, Hne.
      change (@map Z Z) with (@fmap list _ Z Z) in Hf.
      apply list_lookup_fmap_Some in Hf as (y & -> & [-> _]%lookup_seqZ). rewrite decide_False by lia.
      apply prefix_length in Hp. unfold zlen. lia.
Qed.

(** [THandle1] keeps the tables of the office the reply is for. *)
Lemma handle_tables n ch reply rf rf' effs g bs os cl :
  safe g bs os cl -> nodes cl !! n = Some rf -> lead (currentTerm rf) = n -> state rf = LEADER ->
  answers g os n ch reply -> aerTerm reply <= currentTerm rf -> (ch, (n, currentTerm rf)) ∈ os ->
  tables g rf -> handleReply_update reply rf = Ret (rf', effs) -> tables g rf'.
Proof.
  intros Hs Hrf Hl Hst (u & Hu & (LLu & HLLu) & HT & Hans) Hle Hch (Hm & EE & HEE & Hnx) Hr.
  pose proof (c_nodes _ _ _ _ Hs n rf Hrf) as Hn. pose proof (c_ghost _ _ _ _ Hs) as Hg.
  destruct (s_llog _ _ _ Hn u LLu (eq_sym Hu) HLLu) as [Hu1 Hlog]. specialize (HT _ Hch).
  assert (u = currentTerm rf) as -> by lia. specialize (Hlog eq_refl). subst LLu.
  unfold handleReply_update in Hr. destruct (Success reply).
  - destruct (IsHeartbeat reply).
    { apply (inj Ret) in Hr. injection Hr as <- <-. split; [done|]. by exists EE. }
    destruct (Hans eq_refl) as (v & L & E & Hv & HL & Hlast & HE & HEp). assert (E = EE) as -> by congruence.
    bind_inv Hr. bind_inv Hr. bind_inv Hr. apply (inj Ret) in Hr. injection Hr as <- <-. split; cbn.
    + destruct (decide (r < aerLastLogIndex reply)) as [Hlt|]; [|by apply (inj Ret) in E0 as <-].
      apply go_store_Ret in E0 as ->.
      intros f m [(<- & <- & _)|[_ Hf]]%list_lookup_insert_Some; [|by apply (Hm f m)].
      right. exists L. rewrite Hv, Nat2Z.id. split; [done|]. lia.
    + exists EE. split; [done|]. apply go_store_Ret in E1 as ->.
      intros f x [(<- & <- & _)|[_ Hf]]%list_lookup_insert_Some Hne; [left|exact (Hnx f x Hf Hne)].
      apply prefix_length in HEp. unfold zlen in *. lia.
  - destruct Hans as [?|(v & p & Hv & Hp)]; [lia|].
    bind_inv Hr. bind_inv Hr. apply (inj Ret) in Hr. injection Hr as <- <-. split; [done|]. cbn.
    exists EE. split; [done|]. apply go_store_Ret in E0 as ->.
    intros f x [(<- & <- & _)|[_ Hf]]%list_lookup_insert_Some Hne; [right|exact (Hnx f x Hf Hne)].
    rewrite Hv, Nat2Z.id. exists p. split; [done|].
    destruct (g_refused _ _ _ Hg _ _ _ Hp) as (LL & HLL & Hlt). by assert (LL = log rf) as -> by congruence.
Qed.

Lemma handleReply_update_frame reply rf rf' effs :
  handleReply_update reply rf = Ret (rf', effs) ->
  log rf' = log rf /\ commitIndex rf' = commitIndex rf /\ currentTerm rf' = currentTerm rf /\
  state rf' = state rf /\ lastApplied rf' = lastApplied rf /\ Forall harmless effs.
Proof.
  unfold handleReply_update. intros Hr. destruct (Success reply); [destruct (IsHeartbeat reply)|].
  - apply (inj Ret) in Hr. injection Hr as <- <-. by split_and!.
  - do 3 bind_inv Hr. apply (inj Ret) in Hr. injection Hr as <- <-. split_and!; try done. by repeat constructor.
  - do 2 bind_inv Hr. apply (inj Ret) in Hr. injection Hr as <- <-. by split_and!.
Qed.

Lemma handle_step n ch reply rf rf' effs cl cl1 g bs os :
  safe g bs os cl -> nodes cl !! n = Some rf -> takes cl cl1 ->
  (state rf = LEADER -> lead (currentTerm rf) = n) ->
  answers g os n ch reply -> aerTerm reply <= currentTerm rf ->
  (state rf = LEADER -> (n, TLeader0) ∈ tasks cl \/ tables g rf /\ (ch, (n, currentTerm rf)) ∈ os) ->
  handleReply_update reply rf = Ret (rf', effs) ->
  stepped g bs os n (update n 0 rf' effs (if killed rf' then [] else [(n, THandle ch)]) cl1).
Proof.
  intros Hs Hrf Htk Hl Hans Hle Hoff Hr. pose proof (c_nodes _ _ _ _ Hs n rf Hrf) as Hn.
  destruct (handleReply_update_frame _ _ _ _ Hr) as (H1 & H2 & H3 & H4 & H6 & H5).
  exists g. split; [apply about_refl|]. split.
  - apply (step_safe n 0 rf rf' effs _ cl cl1 g g bs bs os Hs Hrf Htk (about_refl n g) (c_ghost _ _ _ _ Hs));
      [|lia| | |exact (c_asked _ _ _ _ Hs)|exact (c_ballots _ _ _ _ Hs)].
    + apply (node_inv_frame g n rf); try done; [lia|]. rewrite H4, H3. apply Hn.
    + intros p [Hp|Hp]%elem_of_app; [by apply (harmless_tasks g os n 0 effs)|].
      destruct (killed rf'); [by apply not_elem_of_nil in Hp|by apply list_elem_of_singleton in Hp as ->].
    + intros p Hp. by apply harmless_applies in Hp.
  - intros q Hq Hst. cbn in Hq. rewrite (t_nodes _ _ Htk) in Hq.
    rewrite list_lookup_insert_eq in Hq by (by apply lookup_lt_Some in Hrf). injection Hq as <-.
    rewrite H4 in Hst. destruct (Hoff Hst) as [Hp|[Htab Hch]].
    + left. cbn. apply elem_of_app. left. by apply (t_pending _ _ Htk).
    + right. apply (handle_tables n ch reply rf rf' effs g bs os cl); try done. by apply Hl.
Qed.

(** ** Committing *)

Lemma count_match_members index peers rf k :
  count_match index peers rf = Ret k -> NoDup peers ->
  exists S, NoDup S /\ zlen S = k /\
    forall si, si ∈ S -> si ∈ peers /\ exists m, matchIndex rf !! Z.to_nat si = Some m /\ index <= m.
Proof.
  revert k. induction peers as [|si peers IH]; intros k Hr Hnd; cbn [count_match] in Hr.
  { apply (inj Ret) in Hr as <-. exists []. split_and!; [constructor|done|by intros ? ?%not_elem_of_nil]. }
  apply NoDup_cons in Hnd as [Hsi Hnd]. bind_inv Hr. bind_inv Hr. apply (inj Ret) in Hr as <-.
  destruct (IH _ E0 Hnd) as (S & HS & Hlen & Hall). apply go_index_Ret in E as [_ Hm].
  destruct (decide (index <= r)) as [Hle|].
  - exists (si :: S). split_and!.
    + apply NoDup_cons. split; [|done]. by intros [? _]%Hall.
    + unfold zlen in *. cbn. lia.
    + intros x [->|Hx]%elem_of_cons; [split; [left|by exists r]|].
      destruct (Hall x Hx) as [H1 H2]. split; [by right|done].
  - exists S. split_and!; try done. intros x Hx. destruct (Hall x Hx) as [H1 H2]. split; [by right|done].
Qed.

(** What [commitAt] counts is a majority that has held the entry. *)
Lemma counted_chosen g n rf index e k :
  ghost_ok lead N g -> node_inv g n rf -> node_wf n N rf -> (n < N)%nat -> state rf = LEADER ->
  lead (currentTerm rf) = n -> tables g rf -> 0 < index -> log rf !! Z.to_nat index = Some e ->
  count_match index (others rf) rf = Ret k -> numPeers rf / 2 < 1 + k -> eTerm e = currentTerm rf ->
  chosen N g (Z.to_nat index) e.
Proof.
  intros Hg Hn Hwf HnN Hst Hl Htab Hi He Hcount Hmaj Hterm.
  destruct (leader_last g n rf Hg Hn Hst Hl) as (HLL & _).
  apply count_match_members in Hcount as (S & HS & Hlen & Hall).
  2:{ unfold others. apply NoDup_filter, NoDup_seqZ. }
  assert (forall si, si ∈ S -> 0 <= si < Z.of_nat N /\ si <> Z.of_nat n) as Hrange.
  { intros si Hsi. destruct (Hall si Hsi) as [Hin _]. apply others_in in Hin.
    rewrite (wf_me _ _ _ Hwf), (wf_peers _ _ _ Hwf) in Hin. lia. }
  split; [lia|]. exists (n :: (Z.to_nat <$> S)). split; [split; [|split]|].
  - apply NoDup_cons. split.
    + intros (si & Hsi & Hin)%list_elem_of_fmap. apply Hrange in Hin. lia.
    + clear -HS Hrange. induction HS as [|si S Hsi HS IH]; cbn; [constructor|]. apply NoDup_cons. split.
      * intros (y & Hy & Hin)%list_elem_of_fmap. assert (si = y) as ->; [|done].
        pose proof (Hrange si (list_elem_of_here _ _)). pose proof (Hrange y (list_elem_of_further _ _ _ Hin)). lia.
      * apply IH. intros x Hx. apply Hrange. by right.
  - intros v [->|(si & -> & Hin)%list_elem_of_fmap]%elem_of_cons; [done|]. apply Hrange in Hin. lia.
  - cbn. rewrite length_fmap. rewrite (wf_peers _ _ _ Hwf) in Hmaj. unfold zlen in Hlen.
    pose proof (Z.div_mod (Z.of_nat N) 2). pose proof (Z.mod_pos_bound (Z.of_nat N) 2). lia.
  - intros v [->|(si & -> & Hin)%list_elem_of_fmap]%elem_of_cons; rewrite Hterm.
    + exists (log rf). split; [|done]. destruct (g_leader _ _ _ Hg _ _ HLL) as (_ & Hack & _). by rewrite Hl in Hack.
    + destruct (Hall si Hin) as (_ & m & Hm & Hle). destruct (proj1 Htab _ _ Hm) as [|(L & HL & Hlt)]; [lia|].
      exists L. split; [done|]. destruct (g_acks _ _ _ Hg _ _ _ HL) as (_ & LL & HLL' & Hp).
      assert (LL = log rf) as -> by congruence.
      destruct (lookup_lt_is_Some_2 L (Z.to_nat index)) as [x Hx]; [unfold zlen in Hlt; lia|].
      rewrite Hx, <-He. symmetry. by apply (prefix_at L).
Qed.

Lemma commit_step n index rf rf' effs cl cl1 g bs os :
  safe g bs os cl -> counted g n cl -> nodes cl !! n = Some rf -> takes cl cl1 -> node_wf n N rf ->
  state rf = LEADER -> lead (currentTerm rf) = n -> tables g rf -> commitAt index rf = Ret (rf', effs) ->
  stepped g bs os n (update n 0 rf' effs [] cl1).
Proof.
  intros Hs Hc Hrf Htk Hwf Hst Hl Htab Hr. unfold commitAt in Hr.
  destruct (decide (index <= commitIndex rf)).
  { apply (inj Ret) in Hr. injection Hr as <- <-. by apply (idle_step n 0 rf rf _ _ cl). }
  pose proof (c_nodes _ _ _ _ Hs n rf Hrf) as Hn. pose proof (c_ghost _ _ _ _ Hs) as Hg.
  destruct (wf_commit _ _ _ Hwf) as [Hc0 _].
  bind_inv Hr. bind_inv Hr. bind_inv Hr. apply (inj Ret) in Hr. injection Hr as <- <-.
  set (rf1 := if decide _ then set_commitIndex index rf else rf) in *.
  apply go_index_Ret in E as [_ He]. assert (n < N)%nat as HnN
    by (rewrite <-(c_size _ _ _ _ Hs); by apply lookup_lt_Some in Hrf).
  assert (node_inv g n rf1 /\ log rf1 = log rf /\ same_tables rf rf1) as (Hn1 & H1 & H2).
  { unfold rf1. destruct (decide _) as [[Hmaj Hterm]|]; [|by split_and!; [|done|apply same_tables_refl]].
    split_and!; [|done|by split].
    assert (committed N g (Z.to_nat index) (log rf) (currentTerm rf)) as Hcom.
    { split; [by apply lookup_lt_Some in He|]. right. exists (Z.to_nat index), r, (log rf).
      split; [|split_and!; [apply Hn|done|lia|lia|done]].
      apply (counted_chosen g n rf index r r0); try done. lia. }
    pose proof (s_applied _ _ _ Hn). destruct Hn. split; try done. cbn. lia. }
  set (rf2 := set_lastApplied _ rf1).
  exists g. split; [apply about_refl|]. split.
  - apply (step_safe n 0 rf rf2 r1 [] cl cl1 g g bs bs os Hs Hrf Htk (about_refl n g) Hg);
      [| | | |exact (c_asked _ _ _ _ Hs)|exact (c_ballots _ _ _ _ Hs)].
    + pose proof (s_applied _ _ _ Hn1). destruct Hn1. split; try done. cbn. lia.
    + cbn. rewrite (st_term _ _ H2). lia.
    + rewrite app_nil_r. intros p. apply silent_tasks. by apply apply_from_silent in E1.
    + intros p (m & Hm & ->)%applies_elem.
      apply (applied_ok g n (log rf1) (lastApplied rf1) (commitIndex rf1) (currentTerm rf1) r1); try done; [apply Hn1| |apply Hn1].
      rewrite H1. apply Hwf.
  - apply (counted_step n 0 rf rf2 _ _ cl cl1 g g); try done; [apply extends_refl|].
    intros _. split; [done|]. by destruct H2.
Qed.

(** ** The goroutines

    [cl] is the cluster without the task that runs. *)

Section tasks.
Context (g : ghost) (bs : list (nat * RequestVoteArgs)) (os : list (nat * (nat * Z))) (cl : cluster) (n : nat) (rf : Raft).
Context (Hs : safe g bs os cl) (Hc : counted g n cl) (Hrf : nodes cl !! n = Some rf) (Hwf : node_wf n N rf).
Context (Hl : state rf = LEADER -> lead (currentTerm rf) = n).

Let Hn : node_inv g n rf := c_nodes _ _ _ _ Hs n rf Hrf.

Ltac frame_tac := split; try done; cbn; try lia; try (intros ?; split; [done|by split]).
Ltac idle_tac := first [by repeat constructor | frame_tac].

Lemma idle ch rf' effs ts :
  frame rf rf' -> Forall harmless effs -> Forall (task_inv g os) ts ->
  stepped g bs os n (update n ch rf' effs ts cl).
Proof. intros. by apply (idle_step n ch rf rf' _ _ cl); [..|apply takes_refl| | |]. Qed.

Lemma frame_same : frame rf rf.
Proof. by split. Qed.

Lemma nothing ts : Forall (task_inv g os) ts -> stepped g bs os n (update n 0 rf [] ts cl).
Proof. intros. by apply idle; [apply frame_same|constructor|]. Qed.

Lemma toFollower_task tk c cl' : toFollower n tk c rf cl = Ret cl' -> stepped g bs os n cl'.
Proof.
  unfold toFollower. intros Hr. destruct tk; try done; destruct c; try done.
  - apply (inj Ret) in Hr as <-. apply idle; [frame_tac|constructor|by repeat constructor].
  - apply (inj Ret) in Hr as <-. apply nothing. destruct (still _ _); by repeat constructor.
  - bind_inv Hr. apply (inj Ret) in Hr as <-. unfold toFollower_rpc in E.
    destruct (decide _); [|done]. apply (inj Ret) in E as <-.
    apply idle; [frame_tac|constructor|by repeat constructor].
  - apply (inj Ret) in Hr as <-. apply idle; [frame_tac|by repeat constructor|constructor].
Qed.

Lemma toCandidate_task tk c cl' : toCandidate n tk c rf cl = Ret cl' -> stepped g bs os n cl'.
Proof.
  unfold toCandidate. intros Hr. destruct tk; try done; destruct c; try done; apply (inj Ret) in Hr as <-.
  - apply nothing. destruct (still _ _); by repeat constructor.
  - apply idle; [frame_tac|by repeat constructor|constructor].
Qed.

(** [startElection] asks for votes, its own first. *)
Lemma ask_task ch rf' effs ts :
  killed rf = false -> startElection_begin rf = Ret (rf', effs) -> Forall (task_inv g os) ts ->
  stepped g ((pair n <$> own_ballot rf) ++ bs) os n (update n ch rf' effs ts cl).
Proof.
  intros Hk Hr Hts. unfold own_ballot. rewrite Hr, Hk. unfold startElection_begin in Hr. rewrite Hk in Hr.
  destruct (wf_log _ _ _ Hwf) as (Hok & _ & _). destruct (log_ok_last _ Hok) as (x & Hx & Hlast & Hix).
  bind_inv Hr. cbn [set_votesGot set_votedFor log] in E. rewrite Hx in E. apply (inj Ret) in E as <-.
  apply (inj Ret) in Hr. injection Hr as <- <-. rewrite Hlast. cbn [fmap list_fmap app].
  set (args := mkRVArgs _ _ _ _).
  assert (describes args (log rf)) as Hd by (exists x; split_and!; [done|done|by cbn; rewrite Hix]).
  apply (vote_step n ch rf _ args _ _ cl); [done..|apply takes_refl|by split|done| | | |].
  - intros y Hy. destruct Hd as (x' & Hx' & H1 & H2). assert (x' = y) as -> by congruence. right. split; [done|lia].
  - right. split; [apply (wf_me _ _ _ Hwf)|done].
  - intros p [Hp|Hp]%elem_of_app.
    + change (@map Z effect) with (@fmap list _ Z effect) in Hp. induction (others _) as [|si l IH]; cbn in Hp;
        [by apply not_elem_of_nil in Hp|]. apply elem_of_cons in Hp as [->|Hp]; [cbn; left|by apply IH].
    + apply (task_inv_mono g _ os); [apply (vote_about n args g); right; apply (wf_me _ _ _ Hwf)|].
      exact (proj1 (Forall_forall _ _) Hts p Hp).
  - intros p (m & (si & [=] & _)%list_elem_of_fmap & _)%applies_elem.
Qed.

Lemma answer_task from ch args rf' reply effs :
  args ∈ asked g -> RequestVote args rf = Ret (rf', reply, effs) ->
  stepped g ((pair n <$> given_ballot args rf) ++ bs) os n (update n 0 rf' effs [(from, MVote ch reply)] cl).
Proof.
  intros Hargs Hr. unfold given_ballot. rewrite Hr.
  destruct (RequestVote_cases args rf (RequestVote_Ret _ _ _ _ _ Hr))
    as (? & ? & ? & Hr' & H1 & H2 & _ & H4 & _ & H6 & H7 & H8 & _).
  rewrite Hr in Hr'. injection Hr' as <- <- <-.
  assert (matchIndex rf' = matchIndex rf /\ nextIndex rf' = nextIndex rf /\ me rf' = me rf /\
    lastApplied rf' = lastApplied rf) as (Hm & Hx & Hme & Hla).
  { clear -Hr. unfold RequestVote in Hr. bind_inv Hr.
    assert (matchIndex r = matchIndex rf /\ nextIndex r = nextIndex rf /\ me r = me rf /\
      lastApplied r = lastApplied rf) as (<- & <- & <- & <-)
      by (unfold notify in E; repeat case_match; by simplify_eq).
    repeat case_match; by simplify_eq/=. }
  assert (frame rf rf') as Hf.
  { split; try done; [lia|]. rewrite H6. destruct (decide (currentTerm rf < rvTerm args)); [done|].
    intros Hst. split; [done|]. split; try done; [lia|by rewrite H1]. }
  assert (Forall harmless effs) as He
    by (rewrite H7; destruct (decide (currentTerm rf < rvTerm args /\ state rf <> FOLLOWER)); by repeat constructor).
  destruct (VoteGranted reply) eqn:Hv; [|by apply idle; [| |repeat constructor]].
  destruct (proj1 H8 eq_refl) as (Hle & _ & Hup). apply (vote_step n 0 rf rf' args _ _ cl); try done.
  - lia.
  - by left.
  - intros p [Hp|Hp]%elem_of_app; [by apply (harmless_tasks _ os n 0 effs)|].
    by apply list_elem_of_singleton in Hp as ->.
  - intros p Hp. by apply harmless_applies in Hp.
Qed.

(** A reply that an election takes. *)
Lemma elect_task ch j cl' :
  startElection n (TElect ch) (Take j) rf cl = Ret cl' -> led_by lead cl' = true -> leaders_elected bs cl' = true -> stepped g bs os n cl'.
Proof.
  intros Hr Hled Hel. cbn [startElection] in Hr.
  destruct (tasks cl !! j) as [[n' tk]|] eqn:Hj; [|done]. destruct tk; try done.
  destruct (decide _); [|done]. assert (takes cl (set_tasks (delete j (tasks cl)) cl)) as Htk
    by by eapply takes_delete.
  destruct (startElection_reply reply rf) as [[rf' effs] over] eqn:He. apply (inj Ret) in Hr.
  unfold startElection_reply in He. destruct (decide (currentTerm rf < rvrTerm reply)).
  { injection He as <- <- <-. subst cl'. apply (idle_step n 0 rf _ _ _ cl); try done; idle_tac. }
  assert (Forall (task_inv g os) (if killed rf then [] else [(n, TElect ch)])) as Hnext
    by (destruct (killed rf); by repeat constructor).
  destruct (VoteGranted reply); [destruct (isElected _)|].
  - injection He as <- <- <-. set (rf' := set_state LEADER _) in *. subst cl'.
    match type of Hled with led_by _ ?c = true => assert (nodes c !! n = Some rf') as Hrf'
      by (cbn; apply list_lookup_insert_eq; exact (lookup_lt_Some _ _ _ Hrf)) end.
    pose proof (led_by_spec _ _ _ _ Hled Hrf' eq_refl) as Hlead.
    pose proof (leaders_elected_spec _ _ _ _ Hel Hrf' eq_refl) as HQ. cbn in HQ.
    rewrite length_insert, (c_size _ _ _ _ Hs) in HQ.
    apply (elect_step n 0 rf rf' _ _ cl); try done; [by repeat constructor..|cbn; left].
  - injection He as <- <- <-. subst cl'. apply (idle_step n 0 rf _ _ _ cl); try done; idle_tac.
  - injection He as <- <- <-. subst cl'. apply (idle_step n 0 rf _ _ _ cl); try done; idle_tac.
Qed.

Lemma toLeader_task tk c cl' : tk <> TLeader0 -> toLeader n tk c rf cl = Ret cl' -> stepped g bs os n cl'.
Proof.
  unfold toLeader. intros Hne Hr. destruct tk; try done; destruct c as [| |j]; try done.
  - apply (inj Ret) in Hr as <-. apply nothing. destruct (still _ _); by repeat constructor.
  - apply (inj Ret) in Hr as <-. apply nothing. by repeat constructor.
  - destruct (tasks cl !! j) as [[n' tk]|] eqn:Hj; [|done]. destruct tk; try done.
    destruct (decide _); [|done]. apply (inj Ret) in Hr as <-.
    apply (idle_step n 0 rf rf _ _ cl); try done; [by eapply takes_delete|by repeat constructor].
Qed.

Lemma handle_task ch j cl' :
  handleReply n (THandle ch) (Take j) rf cl = Ret cl' -> stepped g bs os n cl'.
Proof.
  cbn [handleReply]. intros Hr.
  destruct (tasks cl !! j) as [[n' tk]|] eqn:Hj; [|done]. destruct tk; try done.
  destruct (decide _); [|done]. assert (takes cl (set_tasks (delete j (tasks cl)) cl)) as Htk
    by by eapply takes_delete.
  pose proof (list_elem_of_lookup_2 _ _ _ Hj) as Hans. apply (c_tasks _ _ _ _ Hs) in Hans. cbn in Hans.
  unfold handleReply_term in Hr. destruct (decide (currentTerm rf < aerTerm reply));
    apply (inj Ret) in Hr as <-; apply (idle_step n 0 rf _ _ _ cl); try done; try idle_tac.
  apply Forall_singleton. cbn. naive_solver.
Qed.

End tasks.

(** ** Every step *)

Lemma safe_delete g bs os cl k : safe g bs os cl -> safe g bs os (set_tasks (delete k (tasks cl)) cl).
Proof.
  intros []. split; try done. intros p Hp. apply c_tasks0. cbn in Hp. by apply list_elem_of_delete_inv in Hp.
Qed.

Lemma in_office_spec n rf cl :
  nodes cl !! n = Some rf -> in_office n cl = true <-> state rf = LEADER /\ (n, TLeader0) ∉ tasks cl.
Proof.
  intros Hrf. unfold in_office, is_leader. rewrite Hrf, andb_true_iff, bool_decide_eq_true.
  unfold isState. by rewrite bool_decide_eq_true.
Qed.

Lemma office_tables g n rf cl :
  counted g n cl -> nodes cl !! n = Some rf -> in_office n cl = true -> state rf = LEADER /\ tables g rf.
Proof.
  intros Hc Hrf [Hs Hp]%(in_office_spec n rf); [|done]. split; [done|]. by destruct (Hc rf Hrf Hs).
Qed.

(** What makes the step of a task orderly. *)
Definition orderly_task (os : list (nat * (nat * Z))) (n : nat) (tk : task) (rf : Raft) (cl : cluster) : Prop :=
  match tk with
  | TStart1 _ => state rf = LEADER
  | TReplicate _ => state rf = LEADER -> in_office n cl = true
  | THandle1 ch _ => in_office n cl = true -> (ch, (n, currentTerm rf)) ∈ os
  | TCommitAt _ => in_office n cl = true
  | _ => True
  end.

Lemma orderly_event_task os k c n tk rf cl :
  tasks cl !! k = Some (n, tk) -> nodes cl !! n = Some rf ->
  starts_in_office (ERun k c) cl = true -> tables_in_office true os (ERun k c) cl = true ->
  orderly_task os n tk rf cl.
Proof.
  intros Hk Hrf H1 H2. cbn [starts_in_office tables_in_office] in H1, H2. rewrite Hk in H1, H2.
  destruct tk; try done; cbn.
  - intros Hst. apply orb_prop in H2 as [H2|H2]; [|done]. unfold is_leader, isState in H2.
    by rewrite Hrf, bool_decide_eq_true_2 in H2.
  - intros Hoff. rewrite Hoff in H2. unfold own_channel in H2. rewrite Hrf in H2. by apply bool_decide_eq_true in H2.
  - rewrite Hrf in H1. by apply bool_decide_eq_true in H1.
Qed.

Definition votes_of (n : nat) (tk : task) (c : choice) (rf : Raft) : list (nat * RequestVoteArgs) :=
  match tk, c with
  | TElect0, Go => pair n <$> own_ballot rf
  | MReqVote _ _ args, Go => pair n <$> given_ballot args rf
  | _, _ => []
  end.

Lemma ballots_task k c n tk rf cl :
  tasks cl !! k = Some (n, tk) -> nodes cl !! n = Some rf -> ballots (ERun k c) cl = votes_of n tk c rf.
Proof. intros Hk Hrf. cbn. destruct c; rewrite ?Hk, ?Hrf; by destruct tk. Qed.

Definition offices_of (n : nat) (tk : task) (c : choice) (rf : Raft) (cl : cluster) : list (nat * (nat * Z)) :=
  match tk, c with
  | TLeader0, Go => [(fresh cl, (n, currentTerm rf))]
  | _, _ => []
  end.

Lemma opened_task k c n tk rf cl :
  tasks cl !! k = Some (n, tk) -> nodes cl !! n = Some rf -> opened (ERun k c) cl = offices_of n tk c rf cl.
Proof. intros Hk Hrf. cbn. destruct c; rewrite ?Hk, ?Hrf; by destruct tk. Qed.

(** [cl0] is the cluster in which the task was taken, [cl] the one without it. *)
Lemma run_task_stepped g bs os n tk c rf cl0 cl cl' :
  safe g bs os cl -> tidy cl -> counted g n cl0 -> (tk <> TLeader0 -> takes cl0 cl) -> nodes cl0 = nodes cl ->
  nodes cl !! n = Some rf -> node_wf n N rf -> zlen (log rf) <= 2 ^ 53 -> task_wf (n, tk) -> task_inv g os (n, tk) ->
  (forall ch reply, tk = THandle1 ch reply -> aerTerm reply <= currentTerm rf) ->
  (state rf = LEADER -> lead (currentTerm rf) = n) -> orderly_task os n tk rf cl0 ->
  run_task n tk c rf cl = Ret cl' -> led_by lead cl' = true ->
  leaders_elected (votes_of n tk c rf ++ bs) cl' = true ->
  stepped g (votes_of n tk c rf ++ bs) (offices_of n tk c rf cl ++ os) n cl'.
Proof.
  intros Hs Htidy Hc0 Htk Hnodes Hrf Hwf Hsz Htwf Hti Hterm Hl Hord Hrun Hled Hel.
  assert (nodes cl0 !! n = Some rf) as Hrf0 by by rewrite Hnodes.
  pose proof (takes_refl cl) as Hrefl.
  destruct (decide (tk = TLeader0)) as [->|Hne].
  { destruct c; try done. cbn in Hrun. apply (inj Ret) in Hrun as <-. apply stepped_bump.
    apply (toLeader_step n rf _ cl); try done; [|by repeat constructor].
    apply (safe_open g bs os cl n rf); [done..|]. intros [m t] Hin Ht.
    pose proof (fresh_channels _ Htidy m t _ Hin Ht). lia. }
  assert (counted g n cl) as Hc.
  { intros q Hq Hst. rewrite <-Hnodes in Hq. destruct (Hc0 q Hq Hst) as [Hp|]; [left|by right].
    by apply (t_pending _ _ (Htk Hne)). }
  assert (offices_of n tk c rf cl = []) as -> by (destruct tk; done). cbn [app].
  destruct tk; try done; cbn [run_task] in Hrun.
  - destruct c; by eapply toFollower_task.
  - destruct c; by eapply toFollower_task.
  - destruct c; by eapply toFollower_task.
  - destruct c; by eapply toCandidate_task.
  - destruct c; by eapply toCandidate_task.
  - destruct c; try done. cbn [startElection votes_of] in *. destruct (killed rf) eqn:Hk.
    + apply (inj Ret) in Hrun as <-. assert (own_ballot rf = []) as ->
        by (unfold own_ballot; rewrite Hk; by repeat case_match). by eapply nothing.
    + bind_inv Hrun. destruct r as [rf' effs]. apply (inj Ret) in Hrun as <-. apply stepped_bump.
      eapply ask_task; try done. by repeat constructor.
  - destruct c; try done.
    + cbn in Hrun. apply (inj Ret) in Hrun as <-. eapply nothing; try done. by repeat constructor.
    + by eapply elect_task.
  - destruct c; by eapply toLeader_task.
  - destruct c; by eapply toLeader_task.
  - destruct c; try done. bind_inv Hrun. apply (inj Ret) in Hrun as <-. apply (replicate_step n ch rf _ cl); try done.
    intros Hst. by apply (office_tables g n rf cl0 Hc0 Hrf0), Hord.
  - destruct c; try done. by eapply handle_task.
  - destruct c; try done. cbn in Hrun, Hord, Hti. bind_inv Hrun. destruct r as [rf' effs].
    apply (inj Ret) in Hrun as <-. apply (handle_step n ch reply rf _ _ cl); try done; [by apply (Hterm ch)|].
    intros Hst. destruct (decide ((n, TLeader0) ∈ tasks cl0)) as [Hp|Hp]; [left; by apply (t_pending _ _ (Htk Hne))|right].
    assert (in_office n cl0 = true) as Hoff by by apply (in_office_spec n rf).
    split; [by apply (office_tables g n rf cl0)|by apply Hord].
  - destruct c; try done. cbn in Hrun, Hord. bind_inv Hrun. destruct r as [rf' effs].
    apply (inj Ret) in Hrun as <-. destruct (office_tables g n rf cl0 Hc0 Hrf0 Hord) as [Hst Htab].
    apply (commit_step n index rf _ _ cl); try done. by apply Hl.
  - destruct c; try done. destruct (Start_append command rf) as [[rf' r] effs] eqn:He.
    apply (inj Ret) in Hrun as <-. apply (append_step n command rf rf' r effs cl); try done. by apply Hl.
  - destruct c; try done. unfold sendRequestVote in Hrun. bind_inv Hrun. destruct r as [[rf' reply] effs].
    apply (inj Ret) in Hrun as <-. by eapply answer_task.
  - destruct c; try done. unfold sendAppendEntries in Hrun. bind_inv Hrun. destruct r as [[rf' reply] effs].
    apply (inj Ret) in Hrun as <-. by apply (receive_step n from ch args rf rf' reply effs cl).
Qed.

(** What a step of [n] leaves to the others. *)
Definition passes (n : nat) (cl cl' : cluster) : Prop :=
  (forall m, m <> n -> nodes cl' !! m = nodes cl !! m) /\
  (forall m, (m, TLeader0) ∈ tasks cl -> (m, TLeader0) ∈ tasks cl').

Lemma update_passes n ch rf effs ts cl cl1 : takes cl cl1 -> passes n cl (update n ch rf effs ts cl1).
Proof.
  intros [Hn _ _ Hp]. split; cbn.
  - intros m Hm. by rewrite Hn, list_lookup_insert_ne.
  - intros m Hin. apply elem_of_app. left. by apply Hp.
Qed.

Lemma bump_passes n cl cl' : passes n cl cl' -> passes n cl (bump cl').
Proof. done. Qed.

Ltac taken Hr :=
  match type of Hr with
  | context [match tasks ?cl !! ?j with _ => _ end] =>
      let Hj := fresh "Hj" in
      destruct (tasks cl !! j) as [[n' []]|] eqn:Hj; try discriminate Hr;
      assert (takes cl (set_tasks (delete j (tasks cl)) cl)) by (eapply takes_delete; [exact Hj|done])
  end;
  match type of Hr with context [if decide ?P then _ else _] => destruct (decide P); [|discriminate Hr] end.

Lemma run_task_passes n tk c rf cl cl' : run_task n tk c rf cl = Ret cl' -> passes n cl cl'.
Proof.
  intros Hr. pose proof (takes_refl cl) as Hrefl.
  destruct tk; try discriminate Hr; destruct c; try discriminate Hr; unfold_task Hr;
    try match type of Hr with context [killed ?x] => destruct (killed x) end;
    try (apply (inj Ret) in Hr as <-; try apply bump_passes; by apply update_passes);
    try (bind_inv Hr; repeat match goal with p : _ * _ |- _ => destruct p end;
         apply (inj Ret) in Hr as <-; try apply bump_passes; by apply update_passes).
  - taken Hr. destruct (startElection_reply _ rf) as [[rf' effs] over]. apply (inj Ret) in Hr as <-.
    by apply update_passes.
  - taken Hr. apply (inj Ret) in Hr as <-. by apply update_passes.
  - taken Hr. destruct (handleReply_term _ rf) as [[rf' effs] over]. apply (inj Ret) in Hr as <-.
    by apply update_passes.
Qed.

Lemma others_counted g g' n m cl cl' :
  extends g g' -> counted g m cl -> m <> n -> passes n cl cl' -> counted g' m cl'.
Proof.
  intros Hx Hc Hm [Hn Hp] q Hq Hs. rewrite Hn in Hq by done.
  destruct (Hc q Hq Hs) as [Hin|Ht]; [left; by apply Hp|right]. by apply (tables_mono g g' q).
Qed.

Definition all_safe g bs os (cl : cluster) : Prop := safe g bs os cl /\ forall n, counted g n cl.

Lemma stepped_all g bs os n cl cl' :
  stepped g bs os n cl' -> passes n cl cl' -> (forall m, m <> n -> counted g m cl) -> exists g', all_safe g' bs os cl'.
Proof.
  intros (g' & Hab & Hs & Hc) Hp Hcs. exists g'. split; [done|]. intros m.
  destruct (decide (m = n)) as [->|Hm]; [done|].
  apply (others_counted g g' n m cl); [apply Hab|by apply Hcs|done|done].
Qed.

Lemma init_all_safe :
  all_safe (mkGhost [[dummy]] ∅ ∅ [] [] [] []) [] [] (init N).
Proof.
  set (g := mkGhost _ _ _ _ _ _ _). split; [split|].
  - split; cbn; try done; try (by intros ? ? ?%lookup_empty_Some); try (by intros ? ? ? ?%not_elem_of_nil);
      try (by intros ? ? ? ? ? ? ?%not_elem_of_nil).
    + by intros L ->%list_elem_of_singleton.
    + intros L ->%list_elem_of_singleton [|i] [|j] e e' _ Hi Hj; cbn in Hi, Hj; try done.
      injection Hi as <-. injection Hj as <-. done.
    + intros L L' ->%list_elem_of_singleton ->%list_elem_of_singleton. apply match_upto_refl.
    + by intros L [|i] e ->%list_elem_of_singleton Hi.
  - cbn. by rewrite length_map, length_seq.
  - intros n rf [-> _]%init_nodes. split; cbn; try done; try (by intros ? ? _ ?%lookup_empty_Some);
      try (by intros ? ? ?%not_elem_of_nil); try (by intros ? ? ? ? ?%not_elem_of_nil);
      try (by intros ? ?%not_elem_of_nil).
    + left.
    + split; [cbn; lia|by left].
  - cbn. by intros p (n & -> & _)%list_elem_of_fmap.
  - cbn. by intros p ?%not_elem_of_nil.
  - cbn. by intros v args ?%not_elem_of_nil.
  - by intros ch n T rf ?%not_elem_of_nil.
  - by intros v args ?%not_elem_of_nil.
  - intros n rf [-> _]%init_nodes. done.
Qed.

Lemma orderly_safe bs os cl : orderly lead N bs os cl -> exists g, all_safe g bs os cl.
Proof.
  induction 1 as [|bs os cl e cl' Hr [g [Hs Hc]] Hst0 Htb He Hb Hl Hel]; [eexists; apply init_all_safe|].
  pose proof (orderly_led _ _ _ _ _ Hr) as Hled.
  pose proof (reachable_tidy _ _ (led_reachable _ _ _ Hled)) as Htidy. destruct (reachable_wf _ _ (led_reachable _ _ _ Hled)) as [Hwf Hb0].
  destruct e as [k c|k|n command|n]; cbn [exec] in He.
  - destruct (tasks cl !! k) as [[n tk]|] eqn:Hk; [|done]. destruct (nodes cl !! n) as [rf|] eqn:Hrf; [|done].
    rewrite (ballots_task k c n tk rf cl Hk Hrf), (opened_task k c n tk rf cl Hk Hrf) in *. set (cl0 := set_tasks (delete k (tasks cl)) cl) in *.
    assert (tk <> TLeader0 -> takes cl cl0) as Htk by (intros Hne; by eapply takes_delete).
    apply (stepped_all g _ _ n cl0).
    + apply (run_task_stepped g bs os n tk c rf cl cl0 cl'); try done.
      * by apply safe_delete.
      * by apply tidy_delete.
      * by apply (wf_nodes _ _ Hwf).
      * by apply (bounded_lookup cl n).
      * exact (proj1 (Forall_lookup _ _) (wf_tasks _ _ Hwf) _ _ Hk).
      * apply (c_tasks _ _ _ _ Hs). by apply list_elem_of_lookup_2 in Hk.
      * intros ch reply ->. apply (checked_replies _ Htidy n ch); [by apply list_elem_of_lookup_2 in Hk|done].
      * intros Hst. apply (led_by_spec lead cl); [by eapply led_led_by|done|done].
      * by apply (orderly_event_task os k c).
    + by apply (run_task_passes n tk c rf).
    + intros m Hm q Hq Hst. destruct (Hc m q Hq Hst) as [Hin|]; [left|by right]. cbn.
      apply (elem_of_delete_ne _ _ _ (n, tk)); [done|congruence|done].
  - destruct (tasks cl !! k) as [[n tk]|] eqn:Hk; [|done]. destruct (is_message tk) eqn:Hm; [|done].
    apply (inj Ret) in He as <-. exists g. split; [by apply safe_delete|].
    intros m q Hq Hst. destruct (Hc m q Hq Hst) as [Hin|]; [left|by right].
    assert (takes cl (set_tasks (delete k (tasks cl)) cl)) as Htk by (eapply takes_delete; [done|by destruct tk]).
    by apply (t_pending _ _ Htk).
  - destruct (nodes cl !! n) as [rf|] eqn:Hrf; [|done].
    destruct (Start_check rf); apply (inj Ret) in He as <-; [|by exists g].
    apply (stepped_all g _ _ n cl); [|by apply update_passes, takes_refl|done].
    apply (idle_step n 0 rf rf _ _ cl); try done. by repeat constructor.
  - destruct (nodes cl !! n) as [rf|] eqn:Hrf; [|done]. apply (inj Ret) in He as <-.
    apply (stepped_all g _ _ n cl); [|by apply update_passes, takes_refl|done].
    by apply (idle_step n 0 rf _ _ _ cl).
Qed.

End safety.

(** ** The theorems *)

(** C5 State machine safety: in an orderly run no two servers ever apply different
    commands at one index -- nor one server at different times --, and the logs
    of two servers agree at every index both have committed.  Orderly means
    that every term has one leader, elected by a majority, that [Start] appends
    in office, and that the tables of a leader are used in the office they
    belong to; messages may be lost, delayed and reordered, servers may be
    killed, and goroutines may interleave in any way. *)
Theorem state_machine_safety lead peers bs os cl :
  orderly lead peers bs os cl ->
  (forall n n' m m', (n, m) ∈ delivered cl -> (n', m') ∈ delivered cl -> CommandIndex m = CommandIndex m' -> m = m') /\
  (forall n n' rf rf' i, nodes cl !! n = Some rf -> nodes cl !! n' = Some rf' ->
     Z.of_nat i <= commitIndex rf -> Z.of_nat i <= commitIndex rf' ->
     exists e, log rf !! i = Some e /\ log rf' !! i = Some e).
Proof.
  intros (g & [] & _)%orderly_safe. split.
  - intros n n' m m' (l & j & e & c & T & Hl & Hc & Hj & He & Hm)%c_applied0
      (l' & j' & e' & c' & T' & Hl' & Hc' & Hj' & He' & Hm')%c_applied0 Hi. cbn in Hm, Hm'. subst m m'. cbn in Hi.
    assert (j = j') as <- by lia. f_equal.
    assert (l !! j = l' !! j) by (by apply (committed_agree lead peers g c c' l l' T T')). congruence.
  - intros n n' rf rf' i Hn%c_nodes0 Hn'%c_nodes0 Hi Hi'.
    assert (log rf !! i = log rf' !! i) as Heq
      by (eapply (committed_agree lead peers g _ _ _ _ _ _ i c_ghost0 (s_commit _ _ _ _ _ Hn) (s_commit _ _ _ _ _ Hn'));
          [apply Hn|apply Hn'|lia|lia]).
    destruct (s_commit _ _ _ _ _ Hn) as [Hlt _]. destruct (lookup_lt_is_Some_2 (log rf) i) as [e He]; [lia|].
    exists e. by rewrite <-Heq.
Qed.

(** C11 Leader completeness: in an orderly run what a server has committed is in the
    log of every leader of its term or a later one. *)
Theorem leaders_are_complete lead peers bs os cl n n' rf rf' i :
  orderly lead peers bs os cl -> nodes cl !! n = Some rf -> nodes cl !! n' = Some rf' ->
  state rf' = LEADER -> currentTerm rf <= currentTerm rf' -> Z.of_nat i <= commitIndex rf ->
  exists e, log rf !! i = Some e /\ log rf' !! i = Some e.
Proof.
  intros Ho Hrf Hrf' Hs Ht Hi. pose proof (orderly_led _ _ _ _ _ Ho) as Hled.
  apply orderly_safe in Ho as (g & [] & _). pose proof (c_nodes0 _ _ Hrf) as Hn. pose proof (c_nodes0 _ _ Hrf') as Hn'.
  destruct (s_commit _ _ _ _ _ Hn) as [Hlt Hc]. destruct (lookup_lt_is_Some_2 (log rf) i) as [e He]; [lia|].
  exists e. split; [done|]. pose proof (s_hist _ _ _ _ _ Hn') as Hh'.
  destruct (leader_last lead peers g n' rf' c_ghost0 Hn' Hs) as (HLL & EE & HEE & Hp);
    [by apply (led_by_spec lead cl); [by eapply led_led_by|..]|].
  assert (0 < length (log rf'))%nat by (pose proof (g_heads _ _ _ c_ghost0 _ Hh') as H0; by apply lookup_lt_Some in H0).
  assert (take (S i) (log rf) = take (S i) (log rf')) as Htk; [|by apply (take_eq_at (log rf) (log rf') i)].
  destruct Hc as [Hc0|(k & x & l0 & Hch & Hl0 & Hk & Hck & Hxt & Htk)].
  { assert (i = 0%nat) as -> by lia. pose proof (g_heads _ _ _ c_ghost0 _ Hh') as H1.
    pose proof (g_heads _ _ _ c_ghost0 _ (s_hist _ _ _ _ _ Hn)) as H2.
    destruct (log rf), (log rf'); try discriminate. cbn in *. by simplify_eq. }
  apply (take_eq_le _ _ _ (S i)) in Htk; [|lia]. rewrite Htk. apply (take_eq_le _ _ (S k)); [|lia].
  destruct (decide (eTerm x = currentTerm rf')) as [Heq|Hne].
  - apply (made_by_leader lead peers g l0 _ k x); try done. by rewrite Heq.
  - apply (g_match _ _ _ c_ghost0 l0 _ Hl0 Hh' k x x); [done| |done]. apply (prefix_at EE); [done|].
    apply (leader_complete lead peers g k x c_ghost0 Hch (currentTerm rf')); [done|lia].
Qed.
