(* ===== verification/RaftProgress.v ===== *)
(** * RaftProgress: an orderly leader commits what is submitted

    Over the critical sections of [RaftNode] a leader and a follower, with
    nobody in between, exchange AppendEntries, replies and notifications
    until the follower has accepted ([exchange], [catch_up]); then the
    follower's log is the leader's.  When a majority has done so the leader
    commits ([serve]). *)
From S2P Require Import Prelude RaftNode RaftProps RaftTheorems RaftNet RaftCluster RaftMatching RaftChannels RaftQuorum RaftSafety.

(** ** Exchanges *)

(** The leader sends its message to [si], the follower answers and reads the
    notification, and the leader takes the reply; true when the follower has
    accepted. *)
Definition exchange (si : Z) (leader rf : Raft) : outcome (Raft * Raft * bool) :=
  args ← replicate_args si leader;
  '(rf, reply, _) ← AppendEntries args rf;
  rf ← (if decide (0 < rpcCh rf) then toFollower_rpc rf else Ret rf);
  let '(leader, _, over) := handleReply_term reply leader in
  if over then Block
  else '(leader, _) ← handleReply_update reply leader; Ret (leader, rf, Success reply).

Fixpoint catch_up (fuel : nat) (si : Z) (leader rf : Raft) : outcome (Raft * Raft) :=
  match fuel with
  | O => Block
  | S fuel =>
      '(leader, rf, accepted) ← exchange si leader rf;
      if accepted : bool then Ret (leader, rf) else catch_up fuel si leader rf
  end.

Fixpoint catch_up_all (fuel : nat) (fs : list Raft) (leader : Raft) : outcome (Raft * list Raft) :=
  match fs with
  | [] => Ret (leader, [])
  | rf :: fs =>
      '(leader, rf) ← catch_up fuel (me rf) leader rf;
      '(leader, fs) ← catch_up_all fuel fs leader;
      Ret (leader, rf :: fs)
  end.

(** A new leader gets a command, brings [fs] up to date and commits. *)
Definition serve (fuel : nat) (command : iface) (fs : list Raft) (leader : Raft)
    : outcome (Raft * list Raft * list effect) :=
  let '(leader, _, _) := Start_append command (toLeader_begin leader) in
  '(leader, fs) ← catch_up_all fuel fs leader;
  '(leader, effs) ← commitAt (zlen (log leader) - 1) leader;
  Ret (leader, fs, effs).

Lemma AppendEntries_channel args rf rf' reply effs :
  AppendEntries args rf = Ret (rf', reply, effs) -> rpcCh rf' <= rpcCh rf + 1 /\ numPeers rf' = numPeers rf.
Proof.
  unfold AppendEntries. intros Hr. bind_inv Hr. rename r into rf0.
  assert (rpcCh rf0 <= rpcCh rf + 1 /\ numPeers rf0 = numPeers rf) as [Hc0 Hp0].
  { unfold notify in E. repeat case_match; simplify_eq/=; (split; [lia|done]). }
  destruct (decide (aeTerm args < currentTerm rf0)).
  { apply (inj Ret) in Hr. by injection Hr as <- _ <-. }
  match type of Hr with (let '(_, _) := ?x in _) = _ => destruct x as [rf1 effs1] eqn:E1 end.
  assert (rpcCh rf1 <= rpcCh rf + 1 /\ numPeers rf1 = numPeers rf)
    by (repeat case_match; by simplify_eq/=).
  bind_inv Hr. destruct r; [apply (inj Ret) in Hr; by injection Hr as <- _ <-|].
  bind_inv Hr. bind_inv Hr. destruct r0 as [rf2 applied]. apply (inj Ret) in Hr. injection Hr as <- _ <-.
  unfold advance_commit in E3. destruct (decide (commitIndex (set_log r rf1) < LeaderCommit args)).
  - bind_inv E3. bind_inv E3. apply (inj Ret) in E3. by injection E3 as <- <-.
  - apply (inj Ret) in E3. by injection E3 as <- <-.
Qed.

(** ** One follower *)

(** A leader is its state when it came to office, and its tables. *)
Definition seated (next mtch : list Z) (leader : Raft) : Raft :=
  set_nextIndex next (set_matchIndex mtch leader).

Section follower.
Context (leader : Raft).
Context (Hlog : log_ok (log leader)) (Hsize : zlen (log leader) < 2 ^ 53).
Context (Hcommit : 0 <= commitIndex leader < zlen (log leader)).
Context (Hterms : forall e, e ∈ log leader -> 0 <= eTerm e).

(** A follower that lacks entries of the leader. *)
Record behind (f : nat) (rf : Raft) : Prop := {
  b_me : me rf = Z.of_nat f;
  b_ok : node_ok rf;
  b_term : currentTerm rf <= currentTerm leader;
  b_channel : 0 < numPeers rf /\ rpcCh rf < numPeers rf;
  b_head : exists e e', log leader !! 0%nat = Some e /\ log rf !! 0%nat = Some e' /\ eTerm e' = eTerm e;
  b_match : match_upto (log rf) (log leader);
  b_lacks : ~ log leader `prefix_of` log rf;
}.

Lemma message_to f next mtch x :
  next !! f = Some x -> 1 <= x < zlen (log leader) ->
  exists args, replicate_args (Z.of_nat f) (seated next mtch leader) = Ret args /\
    aeTerm args = currentTerm leader /\ PrevLogIndex args = x - 1 /\ Entries args <> [] /\
    args_ok args /\ carries args (log leader).
Proof.
  intros Hx Hr. set (A := seated next mtch leader).
  pose proof (replicate_args_spec (Z.of_nat f) A x Hlog (go_index_nat _ _ _ Hx)) as Hspec.
  rewrite decide_False in Hspec by lia. destruct Hspec as (prev & e & Hp & He & Hargs).
  assert (prev = x - 1) as -> by (cbn in Hp; lia). change (log A) with (log leader) in *.
  eexists. split; [exact Hargs|]. split; [done|]. split; [done|]. split; [|split].
  - cbn. intros Hnil. apply (f_equal length) in Hnil. rewrite length_drop in Hnil. unfold zlen in *. cbn in Hnil. lia.
  - apply (replicate_args_ok (Z.of_nat f) A); try done.
  - split; cbn; [lia|]. split; [by exists e|done].
Qed.

Lemma read_notification rf n :
  0 < n -> rpcCh rf <= n ->
  exists k, (if decide (0 < rpcCh rf) then toFollower_rpc rf else Ret rf) = Ret (set_rpcCh k rf) /\ k < n.
Proof.
  intros Hn Hr. unfold toFollower_rpc. destruct (decide (0 < rpcCh rf)) as [H|H].
  - exists (rpcCh rf - 1). split; [done|lia].
  - exists (rpcCh rf). split; [by destruct rf|lia].
Qed.

(** The leader takes a reply of its term. *)
Lemma accepted_reply f next mtch rf m x last :
  next !! f = Some x -> mtch !! f = Some m -> m < last ->
  handleReply_update (mkAEReply (Z.of_nat f) rf last false true) (seated next mtch leader) =
    Ret (seated (<[f := last + 1]> next) (<[f := last]> mtch) leader, [GoCommitAt last]).
Proof.
  intros Hx Hm Hlt. unfold handleReply_update. cbn -[go_index go_store]. rewrite (go_index_nat _ _ _ Hm), bind_Ret_l.
  rewrite decide_True by done. rewrite (go_store_nat mtch _ _ m) by done. rewrite bind_Ret_l.
  by rewrite (go_store_nat next _ _ x) by done.
Qed.

Lemma refused_reply f next mtch rf x last hb :
  next !! f = Some x ->
  handleReply_update (mkAEReply (Z.of_nat f) rf last hb false) (seated next mtch leader) =
    Ret (seated (<[f := x - 1]> next) mtch leader, []).
Proof.
  intros Hx. unfold handleReply_update. cbn -[go_index go_store]. rewrite (go_index_nat _ _ _ Hx), bind_Ret_l.
  by rewrite (go_store_nat next _ _ x) by done.
Qed.

Lemma exchange_step f next mtch rf x m :
  behind f rf -> next !! f = Some x -> mtch !! f = Some m -> 1 <= x < zlen (log leader) ->
  m < zlen (log leader) - 1 ->
  exists rf', 
    (exchange (Z.of_nat f) (seated next mtch leader) rf =
       Ret (seated (<[f := zlen (log leader)]> next) (<[f := zlen (log leader) - 1]> mtch) leader, rf', true) /\
     log rf' = log leader) \/
    (exchange (Z.of_nat f) (seated next mtch leader) rf =
       Ret (seated (<[f := x - 1]> next) mtch leader, rf', false) /\ 1 < x /\ behind f rf').
Proof.
  intros Hb Hx Hm Hr Hmx. destruct (message_to f next mtch x Hx Hr) as (args & Hargs & Hterm & Hprev & Hent & Hok & Hcar).
  destruct (b_channel _ _ Hb) as [Hpeers Hchan]. pose proof (b_term _ _ Hb) as Hle.
  destruct (AppendEntries_cases args rf (b_ok _ _ Hb) Hok (fun _ => Hchan)) as [c Hrun]. cbv zeta in Hrun.
  rewrite decide_False in Hrun by lia. set (rf1 := adopt args (set_rpcCh c rf)) in *.
  assert (currentTerm rf1 = currentTerm leader) as Hrf1.
  { unfold rf1, adopt. destruct (decide (steps_down args (set_rpcCh c rf))) as [|H]; [exact Hterm|]. cbn.
    assert (~ currentTerm rf < aeTerm args) by (intros H1; apply H; by left). lia. }
  assert (log rf1 = log rf /\ me rf1 = me rf /\ commitIndex rf1 = commitIndex rf) as (Hl1 & Hme1 & Hc1)
    by (unfold rf1, adopt; by destruct (decide (steps_down args (set_rpcCh c rf)))).
  unfold exchange. rewrite Hargs, bind_Ret_l.
  destruct (decide (accepts args (log rf))) as [Hacc|Hno];
    rewrite Hrun, bind_Ret_l; destruct (AppendEntries_channel _ _ _ _ _ Hrun) as [Hk Hnp];
    match type of Hk with rpcCh ?q <= _ =>
      destruct (read_notification q (numPeers rf)) as (k & -> & Hkn); [done|lia|] end; rewrite bind_Ret_l;
    unfold handleReply_term; cbn [aerTerm]; rewrite Hrf1, decide_False by (cbn; lia); rewrite (b_me _ _ Hb).
  - destruct (reference_merged args (log rf) (log leader) (b_match _ _ Hb) Hcar Hacc) as [Hpre [Hl'|[Hl' _]]].
    { destruct (b_lacks _ _ Hb). by rewrite <-Hl'. }
    eexists. left. rewrite bool_decide_false by done. cbn [log set_log].
    rewrite Hl', (accepted_reply f next mtch _ m x) by done.
    rewrite Z.sub_add, bind_Ret_l. by split.
  - eexists. right. rewrite (refused_reply f next mtch _ x) by done. rewrite bind_Ret_l. split; [done|]. split.
    + destruct (decide (x = 1)) as [->|]; [|lia]. destruct Hno.
      destruct (b_head _ _ Hb) as (e & e' & He & He' & Ht). destruct Hcar as (_ & (e0 & He0 & Ht0) & _).
      rewrite Hprev in He0. exists e'. rewrite Hprev. change (Z.to_nat (1 - 1)) with 0%nat in *.
      split; [done|]. congruence.
    + destruct Hb. split; cbn; rewrite ?Hl1, ?Hme1; try done.
      * unfold node_ok. cbn. by rewrite Hl1, Hc1.
      * lia.
      * split; [|lia]. rewrite Hnp. lia.
Qed.

(** The number of exchanges needed is at most [nextIndex]. *)
Lemma catch_up_spec f fuel : forall next mtch rf x m,
  behind f rf -> next !! f = Some x -> mtch !! f = Some m -> 1 <= x < zlen (log leader) ->
  m < zlen (log leader) - 1 -> x <= Z.of_nat fuel ->
  exists rf', catch_up fuel (Z.of_nat f) (seated next mtch leader) rf =
    Ret (seated (<[f := zlen (log leader)]> next) (<[f := zlen (log leader) - 1]> mtch) leader, rf') /\
    log rf' = log leader.
Proof.
  induction fuel as [|fuel IH]; intros next mtch rf x m Hb Hx Hm Hr Hmx Hf; [lia|]. cbn [catch_up].
  destruct (exchange_step f next mtch rf x m Hb Hx Hm Hr Hmx) as (rf' & [[-> Hl]|(-> & Hx1 & Hb')]); rewrite bind_Ret_l.
  - by exists rf'.
  - destruct (IH (<[f := x - 1]> next) mtch rf' (x - 1) m) as (rf2 & -> & Hl); try done; try lia.
    + apply list_lookup_insert_eq. by apply lookup_lt_Some in Hx.
    + exists rf2. by rewrite list_insert_insert_eq.
Qed.

Lemma catch_up_all_spec fuel x fs : forall rfs next mtch,
  Forall2 behind fs rfs -> NoDup fs -> (forall f, f ∈ fs -> next !! f = Some x /\ mtch !! f = Some 0) ->
  1 <= x < zlen (log leader) -> x <= Z.of_nat fuel ->
  exists next' mtch' rfs',
    catch_up_all fuel rfs (seated next mtch leader) = Ret (seated next' mtch' leader, rfs') /\
    Forall (fun rf => log rf = log leader) rfs' /\ length mtch' = length mtch /\
    (forall f, f ∈ fs -> mtch' !! f = Some (zlen (log leader) - 1)) /\
    (forall f, f ∉ fs -> mtch' !! f = mtch !! f).
Proof.
  induction fs as [|f fs IH]; intros rfs next mtch Hb Hnd Ht Hx Hf.
  { apply Forall2_nil_inv_l in Hb as ->. exists next, mtch, []. split_and!; try done.
    by intros f ?%not_elem_of_nil. }
  apply Forall2_cons_inv_l in Hb as (rf & rfs1 & Hb & Hbs & ->). apply NoDup_cons in Hnd as [Hnf Hnd].
  destruct (Ht f) as [Hn Hm]; [left|]. cbn [catch_up_all]. rewrite (b_me _ _ Hb).
  destruct (catch_up_spec f fuel next mtch rf x 0) as (rf' & -> & Hl); [done..|lia|done|]. rewrite bind_Ret_l.
  destruct (IH rfs1 (<[f:=zlen (log leader)]> next) (<[f:=zlen (log leader) - 1]> mtch))
    as (next' & mtch' & rfs' & -> & Hls & Hlen & Hin & Hout); [done|done| |done|done|].
  { intros k Hk. assert (f <> k) by (by intros ->). rewrite !list_lookup_insert_ne by done. apply Ht. by right. }
  rewrite bind_Ret_l. exists next', mtch', (rf' :: rfs'). split; [done|]. split; [by constructor|].
  split; [by rewrite Hlen, length_insert|]. split.
  - intros k [->|Hk]%elem_of_cons; [|by apply Hin]. rewrite Hout by done.
    apply list_lookup_insert_eq. by apply lookup_lt_Some in Hm.
  - intros k [Hne Hk]%not_elem_of_cons. rewrite Hout by done. by rewrite list_lookup_insert_ne by done.
Qed.

End follower.

(** ** The commit *)

Lemma matching_length index rf (fs : list nat) :
  NoDup fs -> (forall f, f ∈ fs -> Z.of_nat f < numPeers rf /\ Z.of_nat f <> me rf /\
    exists m, matchIndex rf !! f = Some m /\ index <= m) ->
  Z.of_nat (length fs) <= zlen (matching index rf).
Proof.
  intros Hnd Hf. assert (Z.of_nat <$> fs ⊆+ matching index rf) as Hs%submseteq_length.
  { apply NoDup_submseteq; [by apply NoDup_fmap_2; [apply _|]|].
    intros si (f & -> & (Hlt & Hne & m & Hm & Hi)%Hf)%list_elem_of_fmap. unfold matching, acked.
    rewrite list_elem_of_filter, others_in, Nat2Z.id, Hm, bool_decide_true by done. split; [done|]. lia. }
  rewrite length_fmap in Hs. unfold zlen. lia.
Qed.

Lemma applied_last a b l e :
  0 <= a < b -> l !! Z.to_nat b = Some e -> apply_msg e ∈ applied_between a b l.
Proof.
  intros Hab He. apply list_elem_of_fmap. exists e. split; [done|].
  apply list_elem_of_lookup. exists (Z.to_nat (b - a - 1)). rewrite lookup_take_lt by lia.
  rewrite lookup_drop. rewrite <-He. f_equal. lia.
Qed.

(** What a command submitted to an orderly leader adds to its log: the new log
    matches those of the servers, and they lack its last entry. *)
Lemma new_entry_lacking lead peers g n f leader rf command :
  ghost_ok lead peers g -> node_inv lead peers g n leader -> node_inv lead peers g f rf ->
  state leader = LEADER -> lead (currentTerm leader) = n ->
  let L := log leader ++ [mkEntry command (currentTerm leader) (zlen (log leader))] in
  (exists e e', L !! 0%nat = Some e /\ log rf !! 0%nat = Some e' /\ eTerm e' = eTerm e) /\
  match_upto (log rf) L /\ ~ L `prefix_of` log rf.
Proof.
  intros Hg Hn Hf Hst Hl L. pose proof (s_hist _ _ _ _ _ Hn) as Hh. pose proof (s_hist _ _ _ _ _ Hf) as Hhf.
  destruct (leader_last lead peers g n leader Hg Hn Hst Hl) as [HLL _].
  pose proof (g_heads _ _ _ Hg _ Hh) as H0. pose proof (g_heads _ _ _ Hg _ Hhf) as H1.
  assert (0 < length (log leader))%nat by by apply lookup_lt_Some in H0.
  assert (forall i e, log rf !! i = Some e -> eTerm e = currentTerm leader -> (i < length (log leader))%nat) as Hown.
  { intros i e Hi Ht. destruct i as [|i]; [done|].
    destruct (g_made _ _ _ Hg (log rf) (S i) e Hhf Hi) as (LL & EE & H2 & _ & H3 & _); [done|].
    rewrite Ht, HLL in H2. injection H2 as <-. by apply lookup_lt_Some in H3. }
  split; [|split].
  - exists dummy, dummy. split; [|done]. unfold L. by rewrite lookup_app_l.
  - intros i e e' Hi Hi' Ht. unfold L in *. apply lookup_app_Some in Hi' as [Hi'|[Hge Hi']].
    + rewrite take_app_le by (apply lookup_lt_Some in Hi'; lia). by apply (g_match _ _ _ Hg _ _ Hhf Hh i e e').
    + apply list_lookup_singleton_Some in Hi' as [Hz <-]. specialize (Hown i e Hi Ht). lia.
  - intros Hp. assert (log rf !! length (log leader) = Some (mkEntry command (currentTerm leader) (zlen (log leader)))) as Hi.
    { apply (prefix_at L); [done|]. unfold L. by rewrite lookup_app_r, Nat.sub_diag by done. }
    apply Hown in Hi; [lia|done].
Qed.

Lemma first_tables f leader :
  Z.of_nat f < numPeers leader -> Z.of_nat f <> me leader ->
  nextIndex (toLeader_begin leader) !! f = Some (zlen (log leader)) /\
  matchIndex (toLeader_begin leader) !! f = Some 0.
Proof.
  intros Hf Hne. cbn. change (@map Z Z) with (@fmap list _ Z Z). rewrite !list_lookup_fmap.
  rewrite lookup_seqZ_lt by lia. cbn. by rewrite decide_False by lia.
Qed.

(** The leader once it has appended a command. *)
Definition appended (command : iface) (leader : Raft) : Raft :=
  set_log (log leader ++ [mkEntry command (currentTerm leader) (zlen (log leader))]) leader.

Lemma orderly_behind lead peers bs os cl n leader command fs rfs :
  orderly lead peers bs os cl -> nodes cl !! n = Some leader -> state leader = LEADER ->
  Forall2 (fun f rf => nodes cl !! f = Some rf /\ currentTerm rf <= currentTerm leader /\
    rpcCh rf < Z.of_nat peers) fs rfs ->
  Forall2 (behind (appended command leader)) fs rfs.
Proof.
  intros Ho Hrf Hst Hfs. pose proof (orderly_led _ _ _ _ _ Ho) as Hled.
  destruct (reachable_wf _ _ (led_reachable _ _ _ Hled)) as [Hwf Hbd].
  destruct (orderly_safe _ _ _ _ _ Ho) as (g & Hs & _). pose proof (c_ghost _ _ _ _ _ _ Hs) as Hg.
  apply (Forall2_impl _ _ _ _ Hfs). intros f rf (Hq & Ht & Hch). pose proof (wf_nodes _ _ Hwf f rf Hq) as Hw.
  assert (f < peers)%nat by (rewrite <-(c_size _ _ _ _ _ _ Hs); by apply lookup_lt_Some in Hq).
  destruct (new_entry_lacking lead peers g n f leader rf command Hg) as (H0 & Hm & Hl);
    [by apply (c_nodes _ _ _ _ _ _ Hs)..|done|by apply (led_by_spec lead cl); [by eapply led_led_by|..]|].
  split; try done.
  - apply Hw.
  - apply (node_wf_ok f peers); [done|]. by apply (bounded_lookup cl f).
  - rewrite (wf_peers _ _ _ Hw). lia.
Qed.

(** Once a majority has acknowledged the last entry, of its term, [commitAt] commits it. *)
Lemma commit_last leader e fs :
  zlen (matchIndex leader) = numPeers leader -> 0 <= lastApplied leader <= commitIndex leader ->
  commitIndex leader < zlen (log leader) - 1 -> log leader !! Z.to_nat (zlen (log leader) - 1) = Some e ->
  eTerm e = currentTerm leader -> NoDup fs -> numPeers leader < 2 * (1 + Z.of_nat (length fs)) ->
  (forall f, f ∈ fs -> Z.of_nat f < numPeers leader /\ Z.of_nat f <> me leader /\
    matchIndex leader !! f = Some (zlen (log leader) - 1)) ->
  exists leader' effs, commitAt (zlen (log leader) - 1) leader = Ret (leader', effs) /\
    log leader' = log leader /\ commitIndex leader' = zlen (log leader) - 1 /\ apply_msg e ∈ effs.
Proof.
  intros Hm Hla Hc He Ht Hnd Hmaj Hf. assert (Z.of_nat (length fs) <= zlen (matching (zlen (log leader) - 1) leader)) as Hlen.
  { apply matching_length; [done|]. intros f (H1 & H2 & H3)%Hf. split; [done|]. split; [done|]. eexists. by split. }
  rewrite (commitAt_cases _ _ e) by (done || lia). rewrite decide_True by (split; [lia|done]).
  eexists _, _. split; [reflexivity|]. split_and!; try done. apply applied_last; [lia|done].
Qed.

(** C12 Progress: in an orderly run a leader that gets a command commits and
    applies it as soon as its exchanges with a majority go through: each
    follower, whatever its log, accepts after at most as many messages as the
    leader has entries, and has the leader's log then.  Nothing panics or
    blocks on the way. *)
Theorem submitted_commands_commit lead peers bs os cl n leader command fs rfs :
  orderly lead peers bs os cl -> nodes cl !! n = Some leader -> state leader = LEADER ->
  zlen (log leader) < 2 ^ 53 - 1 -> NoDup fs -> n ∉ fs -> (peers < 2 * (1 + length fs))%nat ->
  Forall2 (fun f rf => nodes cl !! f = Some rf /\ currentTerm rf <= currentTerm leader /\
    rpcCh rf < Z.of_nat peers) fs rfs ->
  exists leader' rfs' effs,
    serve (length (log leader)) command rfs leader = Ret (leader', rfs', effs) /\
    log leader' = log leader ++ [mkEntry command (currentTerm leader) (zlen (log leader))] /\
    Forall (fun rf => log rf = log leader') rfs' /\
    commitIndex leader' = zlen (log leader) /\
    Apply (mkApply true command (zlen (log leader))) ∈ effs.
Proof.
  intros Ho Hrf Hst Hsz Hnd Hnfs Hmaj Hfs. pose proof (orderly_led _ _ _ _ _ Ho) as Hled.
  destruct (reachable_wf _ _ (led_reachable _ _ _ Hled)) as [Hwf Hbd].
  pose proof (wf_nodes _ _ Hwf n leader Hrf) as Hw. destruct (orderly_safe _ _ _ _ _ Ho) as (g & Hsafe & _).
  pose proof (c_nodes _ _ _ _ _ _ Hsafe n leader Hrf) as Hn.
  set (A := appended command leader). pose proof (orderly_behind _ _ _ _ _ _ _ command _ _ Ho Hrf Hst Hfs) as Hb.
  destruct (log_wf_snoc (log leader) (currentTerm leader) command) as (Hok & _ & Hterms); [apply Hw..|].
  assert (zlen (log A) = zlen (log leader) + 1) as HlenA by (unfold A, zlen; cbn; rewrite length_app; cbn; lia).
  destruct (s_commit _ _ _ _ _ Hn) as [Hclt _]. pose proof (s_applied _ _ _ _ _ Hn) as Ha.
  assert (0 <= commitIndex A < zlen (log A) - 1) as Hc by (rewrite HlenA; unfold A, zlen in *; cbn; lia).
  assert (forall f, f ∈ fs -> Z.of_nat f < numPeers leader /\ Z.of_nat f <> me leader) as Hpeer.
  { intros f Hf. rewrite (wf_peers _ _ _ Hw), (wf_me _ _ _ Hw). apply list_elem_of_lookup in Hf as (i & Hi).
    destruct (Forall2_lookup_l _ _ _ _ _ Hfs Hi) as (rf & _ & Hq & _).
    assert (f <> n) by (intros ->; apply Hnfs; apply list_elem_of_lookup; by exists i).
    apply lookup_lt_Some in Hq. rewrite (c_size _ _ _ _ _ _ Hsafe) in Hq. lia. }
  destruct (catch_up_all_spec A Hok) with (fuel := length (log leader)) (x := zlen (log leader)) (fs := fs) (rfs := rfs)
    (next := nextIndex (toLeader_begin leader)) (mtch := matchIndex (toLeader_begin leader))
    as (next & mtch & rfs' & Hr & Hlogs & Hlen & Hin & _); try done; try (unfold zlen in *; lia).
  { intros e He. apply (Hterms e He). }
  { intros f [H1 H2]%Hpeer. by apply first_tables. }
  destruct (commit_last (seated next mtch A) (mkEntry command (currentTerm leader) (zlen (log leader))) fs)
    as (leader' & effs & Hcm & Hlog & Hci & Happ); try done.
  - unfold zlen. cbn. rewrite Hlen. cbn. rewrite length_map, length_seqZ, (wf_peers _ _ _ Hw). lia.
  - change (commitIndex A < zlen (log A) - 1). lia.
  - change (log (seated next mtch A)) with (log A). rewrite HlenA.
    change (log A) with (log leader ++ [mkEntry command (currentTerm leader) (zlen (log leader))]).
    replace (Z.to_nat (zlen (log leader) + 1 - 1)) with (length (log leader)) by (unfold zlen; lia).
    by rewrite lookup_app_r, Nat.sub_diag by done.
  - cbn. rewrite (wf_peers _ _ _ Hw). lia.
  - intros f Hf. destruct (Hpeer f Hf) as [H1 H2]. split; [exact H1|]. split; [exact H2|by apply Hin].
  - exists leader', rfs', effs. split.
    + unfold serve. cbn [Start_append].
      change (set_log _ (toLeader_begin leader)) with
        (seated (nextIndex (toLeader_begin leader)) (matchIndex (toLeader_begin leader)) A).
      by rewrite Hr, bind_Ret_l, Hcm.
    + change (log (seated next mtch A)) with (log A) in *. split; [done|]. split; [by rewrite Hlog|].
      split; [rewrite Hci; lia|done].
Qed.
