(* ===== verification/RaftTraces.v ===== *)
(** * RaftTraces: executions of a Raft cluster that go wrong

    Each is a script of [RaftNet] on three servers.  They show which of Raft's
    guarantees this implementation loses, and why; and they are the concrete
    inputs at which the theorems of [RaftTheorems] and [RaftCluster] are
    applied. *)
From S2P Require Import Prelude RaftNode RaftProps RaftTheorems RaftNet RaftCluster RaftMatching RaftChannels RaftQuorum RaftSafety RaftProgress.

(** ** Scripts *)

Definition boot : list order := [Do 0 0 Plain; Do 1 0 Plain; Do 2 0 Plain]%nat.
Definition timeout (n : nat) : list order := [Do n 1 Plain; Do n 2 Tick]%nat.
(** A turn of [toCandidate] up to the requests for votes. *)
Definition campaign (n : nat) : list order := [Do n 3 Plain; Do n 4 Plain; Do n 5 Plain]%nat.
Definition count_vote (n : nat) : list order := [Do n 6 (Recv 17)]%nat.
Definition lead (n : nat) : list order := [Do n 3 Plain; Do n 7 Plain]%nat.
Definition submit (n : nat) (c : string) : list order := [Client n (IString c); Do n 14 Plain]%nat.
(** One turn of the leader's loop, on its timer. *)
Definition send (n : nat) : list order := [Do n 8 Plain; Do n 9 Tick; Do n 10 Plain]%nat.
Definition ack (n : nat) : list order := [Do n 11 (Recv 19); Do n 12 Plain]%nat.

Definition outcome_of (os : list order) : cluster := value_or (init 3) (script os (init 3)).

Lemma outcome_reachable os :
  returns (script os (init 3)) = true -> reachable 3 (outcome_of os).
Proof.
  unfold outcome_of. intros Hr. destruct (script os (init 3)) as [cl|c|] eqn:Hs; [|done..].
  apply (reachable_script 3 os (init 3)); [apply reach_init|done].
Qed.

(** Server 0 campaigns in term 1 and server 1 votes for it, late.  Meanwhile
    server 2 campaigns until, in term 3, server 0 -- a follower again, its vote
    cleared -- votes for it.  Then the late vote arrives. *)
Definition two_leaders : list order :=
  (boot ++ timeout 0 ++ campaign 0 ++ [Do 1 16 Plain; Lose 2 16] ++
   timeout 2 ++ campaign 2 ++ [Lose 0 16; Lose 1 16; Do 2 6 Tick] ++
   campaign 2 ++ [Do 0 16 Plain; Lose 1 16; Lose 2 17; Do 0 0 Plain; Do 2 6 Tick] ++
   campaign 2 ++ [Do 0 16 Plain; Lose 1 16] ++ count_vote 2 ++ count_vote 0)%nat.

(** Servers 0 and 2 campaign in term 1.  Server 0 has entered the term but not
    yet voted for itself when it grants server 2 its vote; then it votes for
    itself and gets the vote of server 1. *)
Definition two_votes : list order :=
  (boot ++ timeout 0 ++ timeout 2 ++ [Do 0 3 Plain; Do 0 4 Plain] ++ campaign 2 ++
   [Do 0 16 Plain; Lose 1 16; Do 0 5 Plain; Do 1 16 Plain] ++ count_vote 2 ++ count_vote 0)%nat.

(** Both leaders get a command and replicate it to server 1. *)
Definition two_commands : list order :=
  (two_leaders ++ lead 0 ++ lead 2 ++ submit 0 "A" ++ submit 2 "B" ++
   send 0 ++ [Do 1 18 Plain] ++ ack 0 ++ [Do 0 13 Plain; Lose 2 18] ++
   send 2 ++ [Do 1 18 Plain] ++ ack 2 ++ [Do 2 13 Plain])%nat.

(** Server 2 has replicated two commands to server 1 when server 0, leader of
    the same term, replicates its only one. *)
Definition longer_follower : list order :=
  (two_leaders ++ lead 0 ++ lead 2 ++ submit 2 "B1" ++ submit 2 "B2" ++ send 2 ++
   [Lose 0 18; Do 1 18 Plain] ++ submit 0 "A" ++ send 0 ++ [Lose 2 18; Do 1 18 Plain] ++ ack 0)%nat.

(** A command is committed and applied everywhere; then server 1 takes over
    and commits another. *)
Definition new_leader : list order :=
  (boot ++ timeout 0 ++ campaign 0 ++ [Do 1 16 Plain] ++ count_vote 0 ++ lead 0 ++ [Lose 2 16] ++
   submit 0 "A" ++ send 0 ++ [Do 1 18 Plain; Do 2 18 Plain] ++ ack 0 ++ [Do 0 13 Plain] ++
   send 0 ++ [Do 1 18 Plain] ++
   timeout 1 ++ campaign 1 ++ [Do 2 16 Plain] ++ count_vote 1 ++ lead 1 ++
   submit 1 "B" ++ send 1 ++ [Lose 2 18; Do 2 18 Plain] ++ ack 1 ++ [Do 1 13 Plain])%nat.

(** A leader elected with one entry more than server 1 has; two heartbeats are
    refused before the first refusal is handled. *)
Definition two_refusals : list order :=
  (boot ++ timeout 0 ++ campaign 0 ++ [Lose 1 16; Do 2 16 Plain] ++ count_vote 0 ++ lead 0 ++
   submit 0 "A" ++ timeout 1 ++ campaign 1 ++ [Do 1 6 Tick] ++ campaign 1 ++
   [Lose 0 16; Do 0 16 Plain; Do 0 0 Plain] ++
   timeout 0 ++ campaign 0 ++ [Do 1 16 Plain; Do 1 0 Plain; Do 0 6 Tick] ++ campaign 0 ++
   [Do 1 16 Plain; Lose 0 17] ++ count_vote 0 ++ lead 0 ++
   send 0 ++ send 0 ++ [Do 1 18 Plain; Do 1 18 Plain] ++ ack 0 ++ ack 0 ++
   [Do 0 8 Plain; Do 0 9 Tick])%nat.

(** Three campaigns of server 0 reach server 1 before its [toFollower] gets to
    read a notification; a fourth is on its way. *)
Definition full_channel : list order :=
  (boot ++ timeout 0 ++ campaign 0 ++ [Do 0 6 Tick] ++ campaign 0 ++ [Do 0 6 Tick] ++ campaign 0 ++
   [Do 0 6 Tick] ++ campaign 0 ++ [Do 1 16 Plain; Do 1 16 Plain; Do 1 16 Plain])%nat.

(** Server 2 leads term 1 and replicates two commands; server 1 leads term 3
    and appends "X".  Server 2, leader again in term 4, handles the reply to its
    first message of term 1 and sends server 1 what that has already; the
    acknowledgement counts "X", and server 2 commits "Y" at its index.  Server 1
    is elected in term 6 and commits "X" with server 0. *)
Definition short_ack : list order :=
  (boot ++ timeout 2 ++ campaign 2 ++ [Do 0 16 Plain; Lose 1 16] ++ count_vote 2 ++ lead 2 ++
   submit 2 "A" ++ send 2 ++ [Do 1 18 Plain; Lose 0 18] ++
   submit 2 "B" ++ send 2 ++ [Do 1 18 Plain; Do 0 18 Plain] ++
   timeout 1 ++ campaign 1 ++ [Do 2 16 Plain; Lose 0 16; Do 2 0 Plain; Do 1 6 Tick] ++ campaign 1 ++
   [Do 2 16 Plain; Lose 0 16; Lose 1 17] ++ count_vote 1 ++ lead 1 ++ submit 1 "X" ++
   timeout 2 ++ campaign 2 ++ [Do 0 1 Plain; Do 0 2 Plain; Do 0 16 Plain; Lose 1 16] ++
   count_vote 2 ++ lead 2 ++ ack 2 ++ [Do 2 13 Plain; Lose 2 19; Lose 2 19] ++
   send 2 ++ [Lose 1 18; Lose 0 18] ++ send 2 ++ [Do 1 18 Plain; Lose 0 18] ++
   submit 2 "Y" ++ ack 2 ++ [Do 2 13 Plain] ++
   [Do 1 0 Plain] ++ timeout 0 ++ timeout 1 ++ campaign 1 ++
   [Do 0 16 Plain; Lose 2 16; Do 0 0 Plain; Do 1 6 Tick] ++ campaign 1 ++
   [Do 0 16 Plain; Lose 2 16; Lose 1 17] ++ count_vote 1 ++ lead 1 ++ submit 1 "Z" ++
   [Do 0 1 Plain; Do 0 2 Plain; Do 0 1 Plain; Do 0 2 Plain] ++
   send 1 ++ [Do 0 18 Plain; Lose 2 18] ++ ack 1 ++
   send 1 ++ [Do 0 18 Plain; Lose 2 18] ++ ack 1 ++ [Do 1 13 Plain])%nat.

Definition short_ack_leaders (t : Z) : nat := if (t =? 1) || (t =? 4) then 2 else 1.

(** Server 0 leads term 1 and has passed the check of [Start] when server 1
    becomes leader of term 2. *)
Definition late_start : list order :=
  (boot ++ timeout 0 ++ campaign 0 ++ [Do 1 16 Plain; Lose 2 16] ++ count_vote 0 ++ lead 0 ++
   [Client 0 (IString "A")] ++ timeout 1 ++ campaign 1 ++ [Do 0 16 Plain; Do 2 16 Plain; Lose 1 17] ++
   count_vote 1 ++ lead 1 ++ submit 1 "B" ++ [Do 0 14 Plain])%nat.

Definition late_start_leaders (t : Z) : nat := if t =? 1 then 0 else 1.

(** A run in which nothing goes wrong: server 0 commits "A" in term 1; server 1
    is elected in term 3, with the vote of server 0, and commits "B". *)
Definition two_offices : list order :=
  (boot ++ timeout 0 ++ campaign 0 ++ [Do 1 16 Plain; Do 2 16 Plain] ++ count_vote 0 ++ lead 0 ++
   submit 0 "A" ++ send 0 ++ [Do 1 18 Plain; Do 2 18 Plain] ++ ack 0 ++ [Do 0 13 Plain] ++ ack 0 ++
   send 0 ++ [Do 1 18 Plain] ++ timeout 1 ++ campaign 1 ++
   [Do 0 16 Plain; Lose 2 16; Do 0 0 Plain; Do 1 6 Tick] ++ campaign 1 ++
   [Do 0 16 Plain; Lose 2 16; Lose 1 17] ++ count_vote 1 ++ lead 1 ++
   submit 1 "B" ++ send 1 ++ [Lose 2 18; Do 2 18 Plain] ++ ack 1 ++ [Do 1 13 Plain])%nat.

(** The events that do not count a stale vote: the server is still a candidate,
    in the term of the reply. *)
Definition counts_fresh (e : event) (cl : cluster) : bool :=
  match e with
  | ERun k (Take j) =>
      match tasks cl !! k, delete k (tasks cl) !! j with
      | Some (n, TElect _), Some (_, MVote _ reply) =>
          match nodes cl !! n with
          | Some rf => (state rf =? CANDIDATE) && (rvrTerm reply =? currentTerm rf)
          | None => true
          end
      | _, _ => true
      end
  | _ => true
  end.

Fixpoint fresh_script (os : list order) (cl : cluster) : bool :=
  match os with
  | [] => true
  | o :: os =>
      counts_fresh (event_of o cl) cl &&
      match exec (event_of o cl) cl with Ret cl => fresh_script os cl | _ => false end
  end.

(** ** What they show *)

(** Election safety fails (code bug): two servers can be leaders of the same
    term.  A candidate goes on counting the votes of an election although it
    has become a follower of a later term in between, since [startElection]
    looks neither at the term of the reply nor at its own state. *)
Theorem two_leaders_in_one_term :
  exists cl rf0 rf2, reachable 3 cl /\ nodes cl !! 0%nat = Some rf0 /\ nodes cl !! 2%nat = Some rf2 /\
    state rf0 = LEADER /\ state rf2 = LEADER /\ currentTerm rf0 = currentTerm rf2.
Proof.
  exists (outcome_of two_leaders). eexists _, _.
  split; [apply outcome_reachable; vm_compute; reflexivity|].
  split; [vm_compute; reflexivity|]. split; [vm_compute; reflexivity|]. by vm_compute.
Qed.

(** Election safety fails even if every vote that is counted is fresh (code
    bug): a candidate enters a term in [toCandidate] and votes for itself in
    [startElection], two critical sections between which it can vote for
    another candidate of the same term. *)
Theorem fresh_votes_elect_two_leaders :
  fresh_script two_votes (init 3) = true /\
  (exists cl rf0 rf2, script two_votes (init 3) = Ret cl /\
     nodes cl !! 0%nat = Some rf0 /\ nodes cl !! 2%nat = Some rf2 /\
     state rf0 = LEADER /\ state rf2 = LEADER /\ currentTerm rf0 = currentTerm rf2).
Proof.
  split; [vm_compute; reflexivity|]. exists (outcome_of two_votes). eexists _, _.
  split; [apply value_or_Ret; vm_compute; reflexivity|].
  split; [vm_compute; reflexivity|]. split; [vm_compute; reflexivity|]. by vm_compute.
Qed.

(** State machine safety fails (code bug): as a consequence two servers apply
    different commands at the same index.  Server 1 takes the first leader's
    entry; the second leader's entry has the same index and term, so
    [AppendEntries] treats it as already there and acknowledges it. *)
Theorem different_commands_applied :
  exists cl, reachable 3 cl /\
    (0%nat, mkApply true (IString "A") 1) ∈ delivered cl /\
    (2%nat, mkApply true (IString "B") 1) ∈ delivered cl.
Proof.
  exists (outcome_of two_commands).
  split; [apply outcome_reachable; vm_compute; reflexivity|].
  assert (delivered (outcome_of two_commands) =
    [(0%nat, mkApply true (IString "A") 1); (2%nat, mkApply true (IString "B") 1)]) as ->
    by (vm_compute; reflexivity). set_solver.
Qed.

(** C35 Stale replies lose commits (code bug): in a run that is orderly but for
    the [handleReply] of an earlier office, two servers apply different commands
    at one index.  Nobody stops that goroutine, and it counts what it receives
    in the tables of the new office; [AppendEntries] acknowledges the last index
    of the follower's own log, so the leader counts an entry as replicated that
    the follower does not have.  Every term has one leader, elected by a
    majority, and the logs match all the time. *)
Theorem acknowledged_length_loses_commits :
  orderly_script false short_ack_leaders short_ack [] [] (init 3) = true /\
  exists cl, script short_ack (init 3) = Ret cl /\ led short_ack_leaders 3 cl /\
    (2%nat, mkApply true (IString "Y") 3) ∈ delivered cl /\
    (1%nat, mkApply true (IString "X") 3) ∈ delivered cl.
Proof.
  split; [vm_compute; reflexivity|]. exists (outcome_of short_ack).
  split; [apply value_or_Ret; vm_compute; reflexivity|]. split.
  - apply (led_script_led short_ack_leaders 3 short_ack (init 3)); [apply led_init|vm_compute; reflexivity|].
    apply value_or_Ret. vm_compute. reflexivity.
  - assert (delivered (outcome_of short_ack) =
      [(2%nat, mkApply true (IString "A") 1); (2%nat, mkApply true (IString "B") 2);
       (2%nat, mkApply true (IString "Y") 3); (1%nat, mkApply true (IString "A") 1);
       (1%nat, mkApply true (IString "B") 2); (1%nat, mkApply true (IString "X") 3);
       (1%nat, mkApply true (IString "Z") 4)]) as -> by (vm_compute; reflexivity). set_solver.
Qed.

(** [Start] breaks Log Matching (code bug): every term of the run has one
    leader, but a server that has lost its office between the two critical
    sections of [Start] appends an entry of the new leader's term. *)
Theorem late_start_breaks_matching :
  led_script false late_start_leaders late_start (init 3) = true /\
  exists cl rf rf' e e', script late_start (init 3) = Ret cl /\ nodes cl !! 0%nat = Some rf /\
    nodes cl !! 1%nat = Some rf' /\ log rf !! 1%nat = Some e /\ log rf' !! 1%nat = Some e' /\
    eTerm e = eTerm e' /\ eCommand e <> eCommand e'.
Proof.
  split; [vm_compute; reflexivity|]. exists (outcome_of late_start). eexists _, _, _, _.
  split; [apply value_or_Ret; vm_compute; reflexivity|]. do 4 (split; [vm_compute; reflexivity|]).
  by vm_compute.
Qed.

(** A new leader applies committed entries a second time (code bug): a
    follower applies up to its commit index but never advances [lastApplied],
    from which [commitAt] starts once it is the leader. *)
Theorem new_leader_applies_twice :
  exists cl, reachable 3 cl /\
    (filter (fun d => d.1 = 1%nat) (delivered cl)) =
      [(1%nat, mkApply true (IString "A") 1); (1%nat, mkApply true (IString "A") 1);
       (1%nat, mkApply true (IString "B") 2)].
Proof.
  exists (outcome_of new_leader).
  split; [apply outcome_reachable; vm_compute; reflexivity|]. vm_compute. reflexivity.
Qed.

(** Two executions in which a leader panics (code bugs): a follower
    acknowledges the length of its log, not what it was sent, so a leader with
    a shorter log indexes past its end in [commitAt]; and each refusal
    decrements [nextIndex] without a lower bound, so [replicate] indexes the
    log at -1. *)
Theorem leader_panics :
  (exists cl k, reachable 3 cl /\ tasks cl !! k = Some (0%nat, TCommitAt 2) /\
     exec (ERun k Go) cl = Crash IndexPanic) /\
  (exists cl k ch, reachable 3 cl /\ tasks cl !! k = Some (0%nat, TReplicate ch) /\
     exec (ERun k Go) cl = Crash IndexPanic).
Proof.
  split.
  - exists (outcome_of longer_follower), (position 0 13 (tasks (outcome_of longer_follower))).
    split; [apply outcome_reachable; vm_compute; reflexivity|]. split; vm_compute; reflexivity.
  - exists (outcome_of two_refusals), (position 0 10 (tasks (outcome_of two_refusals))). eexists.
    split; [apply outcome_reachable; vm_compute; reflexivity|]. split; vm_compute; reflexivity.
Qed.

(** A follower can block for ever (code bug): after as many RPCs as there are
    servers, without a turn of [toFollower] in between, the next handler waits
    on the full notification channel while it holds [mu]; the only reader of
    the channel is at its loop condition, which needs [mu]. *)
Theorem full_channel_blocks_handler :
  exists cl rf k from ch args, reachable 3 cl /\ nodes cl !! 1%nat = Some rf /\
    state rf = FOLLOWER /\ rpcCh rf = numPeers rf /\
    ((1%nat, TFollower) ∈ tasks cl) /\ ((1%nat, TFollowerSel) ∉ tasks cl) /\
    tasks cl !! k = Some (1%nat, MReqVote from ch args) /\ exec (ERun k Go) cl = Block.
Proof.
  exists (outcome_of full_channel). eexists _, (position 1 16 (tasks (outcome_of full_channel))), _, _, _.
  split; [apply outcome_reachable; vm_compute; reflexivity|].
  split; [vm_compute; reflexivity|]. split; [vm_compute; reflexivity|]. split; [vm_compute; reflexivity|].
  split; [vm_compute; set_solver|]. split.
  { refine (bool_decide_unpack ((1%nat, TFollowerSel) ∉ tasks (outcome_of full_channel)) _).
    vm_compute. exact I. }
  split; vm_compute; reflexivity.
Qed.

(** ** Witnesses *)

Definition ex_entry (c : string) (t i : Z) : LogEntry := mkEntry (IString c) t i.

Definition ex_log : list LogEntry := [mkEntry (IInt 0) 0 0; ex_entry "A" 1 1; ex_entry "B" 1 2].

(** A follower of three, with two entries of term 1, the first committed. *)
Definition ex_follower : Raft :=
  set_commitIndex 1 (set_currentTerm 1 (set_votedFor (-1) (set_log ex_log (Make 3 1).1))).

(** The leader of term 2 replaces the second entry. *)
Definition ex_args : AppendEntriesArgs := mkAEArgs 2 0 1 1 [ex_entry "C" 2 2] 2.

Definition ex_leader : Raft :=
  set_state LEADER (set_currentTerm 2 (set_commitIndex 1 (set_matchIndex [0; 2; 0] (set_nextIndex [0; 2; 3]
    (set_log [mkEntry (IInt 0) 0 0; ex_entry "A" 1 1; ex_entry "C" 2 2] (Make 3 0).1))))).

Lemma ex_log_ok l :
  (forall i e, l !! i = Some e -> eIndex e = Z.of_nat i) -> 0 < zlen l -> log_ok l.
Proof. by split. Qed.

Lemma ex_follower_ok : node_ok ex_follower.
Proof.
  split; [|split; vm_compute; discriminate]. apply ex_log_ok; [|vm_compute; reflexivity].
  intros [|[|[|i]]] e H; vm_compute in H; try discriminate; injection H as <-; reflexivity.
Qed.

Lemma ex_args_ok : args_ok ex_args.
Proof.
  split; [vm_compute; discriminate|]. split; [vm_compute; discriminate|]. split.
  - intros [|i] e H; vm_compute in H; [injection H as <-; reflexivity|discriminate].
  - split; [unfold exact; cbn; lia|vm_compute; reflexivity].
Qed.

(** The same entry, in a message that is not checked, and one index back. *)
Definition ex_unchecked : AppendEntriesArgs :=
  mkAEArgs 2 0 0 (-1) [ex_entry "A" 1 1; ex_entry "C" 2 2] 2.

Lemma ex_unchecked_wf : args_wf ex_unchecked.
Proof.
  split; [vm_compute; discriminate|]. split; [vm_compute; discriminate|]. split.
  - intros [|[|i]] e H; vm_compute in H; [injection H as <-; reflexivity..|discriminate].
  - split; [unfold exact; cbn; lia|vm_compute; reflexivity].
Qed.

Lemma AppendEntries_reconciles_witness :
  (exists rf' reply effs, AppendEntries ex_args ex_follower = Ret (rf', reply, effs) /\
    log rf' = [mkEntry (IInt 0) 0 0; ex_entry "A" 1 1; ex_entry "C" 2 2] /\ commitIndex rf' = 2) /\
  (exists rf' reply effs, AppendEntries ex_unchecked ex_follower = Ret (rf', reply, effs) /\
    log rf' = [mkEntry (IInt 0) 0 0; ex_entry "A" 1 1; ex_entry "C" 2 2] /\ commitIndex rf' = 2).
Proof.
  split.
  - destruct (AppendEntries_reconciles ex_args ex_follower ex_follower_ok (args_ok_wf _ ex_args_ok))
      as (rf' & reply & effs & Hr & _ & _ & _ & _ & Hs & H');
      [vm_compute; discriminate|vm_compute; reflexivity|].
    exists rf', reply, effs. split; [exact Hr|].
    assert (Success reply = true) as Htrue.
    { apply Hs. split; [vm_compute; discriminate|]. right. eexists. split; vm_compute; reflexivity. }
    rewrite Htrue in H'. destruct H' as (Hl & Hc & _). rewrite Hc, Hl. split; vm_compute; reflexivity.
  - destruct (AppendEntries_reconciles ex_unchecked ex_follower ex_follower_ok ex_unchecked_wf)
      as (rf' & reply & effs & Hr & _ & _ & _ & _ & Hs & H');
      [vm_compute; reflexivity..|].
    exists rf', reply, effs. split; [exact Hr|].
    assert (Success reply = true) as Htrue.
    { apply Hs. split; [vm_compute; discriminate|]. left. reflexivity. }
    rewrite Htrue in H'. destruct H' as (Hl & Hc & _). rewrite Hc, Hl. split; vm_compute; reflexivity.
Defined.

Lemma AppendEntries_applies_in_order_witness :
  exists rf' reply effs, AppendEntries ex_args ex_follower = Ret (rf', reply, effs) /\
    respects_committed ex_args ex_follower /\ commitIndex ex_follower <= commitIndex rf' < zlen (log rf').
Proof.
  assert (respects_committed ex_args ex_follower) as Hr.
  { split; [vm_compute; reflexivity|]. intros i e _ Hi. exfalso. revert Hi. cbn. lia. }
  eexists _, _, _. split; [vm_compute; reflexivity|]. split; [exact Hr|].
  exact (proj1 (proj2 (AppendEntries_applies_in_order ex_args ex_follower _ _ _
    ex_follower_ok ex_args_ok Hr eq_refl))).
Defined.

Lemma RequestVote_grants_witness :
  exists rf' reply effs, RequestVote (mkRVArgs 2 2 2 1) ex_follower = Ret (rf', reply, effs) /\
    VoteGranted reply = true.
Proof.
  destruct (RequestVote_grants (mkRVArgs 2 2 2 1) ex_follower) as (rf' & reply & effs & Hr & Hg & _);
    [vm_compute; reflexivity|].
  exists rf', reply, effs. split; [exact Hr|]. apply Hg. split; [vm_compute; discriminate|].
  split; [left; reflexivity|]. intros e He. vm_compute in He. injection He as <-. right.
  split; vm_compute; [reflexivity|discriminate].
Defined.

Lemma votes_for_one_candidate_witness :
  exists rf', handle_all [inl (mkRVArgs 2 2 2 1); inl (mkRVArgs 3 0 2 1)] ex_follower = Ret (rf', [2]) /\
    2 = votedFor rf'.
Proof.
  eexists. split; [vm_compute; reflexivity|].
  refine (proj1 (votes_for_one_candidate [inl (mkRVArgs 2 2 2 1); inl (mkRVArgs 3 0 2 1)] ex_follower _ [2] _ eq_refl
    2 _)).
  - intros args [[= ->]|[[= ->]|H%not_elem_of_nil]%elem_of_cons]%elem_of_cons; [discriminate..|done].
  - left.
Defined.

Lemma commitAt_majority_witness :
  exists rf' effs, commitAt 2 ex_leader = Ret (rf', effs) /\ commitIndex rf' = 2.
Proof.
  assert (zlen (matchIndex ex_leader) = numPeers ex_leader) as H1 by (vm_compute; reflexivity).
  pose proof (commitAt_majority 2 ex_leader H1) as H.
  cbn -[commitAt matching Z.mul] in H. destruct H as (rf' & effs & Hr & Hc & _); [lia|unfold zlen; cbn; lia|].
  exists rf', effs. split; [exact Hr|]. apply Hc. split; vm_compute; reflexivity.
Defined.

Lemma replication_brings_agreement_witness :
  exists args rf' reply effs, replicate_args 1 ex_leader = Ret args /\
    AppendEntries args ex_follower = Ret (rf', reply, effs) /\
    zlen (log ex_leader) <= zlen (log rf').
Proof.
  eexists _, _, _, _. split; [vm_compute; reflexivity|]. split; [vm_compute; reflexivity|].
  refine (proj1 (proj2 (replication_brings_agreement ex_leader 1 _ ex_follower _ _ _ _ _ _ _ eq_refl
    ex_follower_ok eq_refl eq_refl))).
  - apply ex_log_ok; [|vm_compute; reflexivity].
    intros [|[|[|i]]] e H; vm_compute in H; try discriminate; injection H as <-; reflexivity.
  - vm_compute. reflexivity.
  - split; vm_compute; [discriminate|reflexivity].
  - intros e. cbn. rewrite !elem_of_cons. intros [->|[->|[->|H]]]; [cbn; lia..|].
    by apply not_elem_of_nil in H.
Defined.

Lemma logs_well_formed_witness :
  exists rf, nodes (outcome_of new_leader) !! 2%nat = Some rf /\
    zlen (log rf) = 3 /\ terms_between 0 (currentTerm rf) (log rf).
Proof.
  assert (reachable 3 (outcome_of new_leader)) as Hr by (apply outcome_reachable; vm_compute; reflexivity).
  assert (exists rf, nodes (outcome_of new_leader) !! 2%nat = Some rf /\ zlen (log rf) = 3)
    as (rf & Hn & Hl) by (eexists; split; vm_compute; reflexivity).
  exists rf. split; [exact Hn|]. split; [exact Hl|].
  exact (proj2 (proj2 (proj2 (proj1 (logs_well_formed 3 _ Hr) 2%nat rf Hn)))).
Defined.

Lemma terms_never_decrease_witness :
  let cl := outcome_of (boot ++ timeout 0 ++ campaign 0) in
  exists cl' rf rf', exec (event_of (Do 1 16 Plain) cl) cl = Ret cl' /\
    nodes cl !! 1%nat = Some rf /\ nodes cl' !! 1%nat = Some rf' /\ currentTerm rf <= currentTerm rf'.
Proof.
  intros cl. assert (reachable 3 cl) as Hr by (apply outcome_reachable; vm_compute; reflexivity).
  assert (exists cl' rf rf', exec (event_of (Do 1 16 Plain) cl) cl = Ret cl' /\
    nodes cl !! 1%nat = Some rf /\ nodes cl' !! 1%nat = Some rf' /\ bounded cl' = true)
    as (cl' & rf & rf' & He & Hn & Hn' & Hb)
    by (eexists _, _, _; split; [vm_compute; reflexivity|]; split; [vm_compute; reflexivity|];
        split; vm_compute; reflexivity).
  exists cl', rf, rf'. split; [exact He|]. split; [exact Hn|]. split; [exact Hn'|].
  exact (terms_never_decrease 3 cl _ cl' Hr He Hb 1%nat rf rf' Hn Hn').
Defined.

Lemma handlers_never_panic_witness :
  let cl := outcome_of full_channel in
  exec (ERun (position 1 16 (tasks cl)) Go) cl = Block.
Proof.
  intros cl. assert (reachable 3 cl) as Hr by (apply outcome_reachable; vm_compute; reflexivity).
  assert (exists from ch args rf, tasks cl !! position 1 16 (tasks cl) = Some (1%nat, MReqVote from ch args) /\
    nodes cl !! 1%nat = Some rf /\ state rf = FOLLOWER /\ numPeers rf <= rpcCh rf)
    as (from & ch & args & rf & Hk & Hn & Hs & Hf)
    by (eexists _, _, _, _; split; [vm_compute; reflexivity|]; split; [vm_compute; reflexivity|];
        split; vm_compute; [reflexivity|discriminate]).
  pose proof (handlers_never_panic 3 cl _ 1%nat _ rf Hr Hk Hn) as H.
  rewrite decide_True in H by (split; [exact Hs|exact Hf]). apply H. right. eauto.
Defined.

Lemma logs_match_witness :
  let cl := outcome_of short_ack in
  exists rf rf', nodes cl !! 0%nat = Some rf /\ nodes cl !! 1%nat = Some rf' /\
    take 5 (log rf) = take 5 (log rf').
Proof.
  intros cl. assert (led short_ack_leaders 3 cl) as Hl.
  { apply (led_script_led short_ack_leaders 3 short_ack (init 3)); [apply led_init|vm_compute; reflexivity|].
    apply value_or_Ret. vm_compute. reflexivity. }
  assert (exists rf rf' e, nodes cl !! 0%nat = Some rf /\ nodes cl !! 1%nat = Some rf' /\
    log rf !! 4%nat = Some e /\ log rf' !! 4%nat = Some e) as (rf & rf' & e & Hn & Hn' & He & He')
    by (eexists _, _, _; split; [vm_compute; reflexivity|]; split; [vm_compute; reflexivity|];
        split; vm_compute; reflexivity).
  exists rf, rf'. split; [exact Hn|]. split; [exact Hn'|].
  exact (proj1 (logs_match short_ack_leaders 3 cl Hl) _ _ _ _ _ _ _ Hn Hn' He He' eq_refl).
Defined.

(** *** Safety *)

Lemma two_offices_orderly :
  exists bs os, orderly late_start_leaders 3 bs os (outcome_of two_offices).
Proof.
  apply (orderly_script_orderly late_start_leaders 3 two_offices [] [] (init 3));
    [apply orderly_init|vm_compute; reflexivity|apply value_or_Ret; vm_compute; reflexivity].
Defined.

Lemma state_machine_safety_witness :
  exists bs os, orderly late_start_leaders 3 bs os (outcome_of two_offices) /\
    (0%nat, mkApply true (IString "A") 1) ∈ delivered (outcome_of two_offices) /\
    (2%nat, mkApply true (IString "A") 1) ∈ delivered (outcome_of two_offices) /\
    forall n m, (n, m) ∈ delivered (outcome_of two_offices) -> CommandIndex m = 1 ->
      m = mkApply true (IString "A") 1.
Proof.
  destruct two_offices_orderly as (bs & os & Ho). exists bs, os. split; [exact Ho|].
  destruct (state_machine_safety _ _ _ _ _ Ho) as [Hsame _].
  assert ((0%nat, mkApply true (IString "A") 1) ∈ delivered (outcome_of two_offices)) as H0
    by (apply list_elem_of_lookup; exists 0%nat; vm_compute; reflexivity).
  split; [exact H0|]. split; [apply list_elem_of_lookup; exists 2%nat; vm_compute; reflexivity|].
  intros n m Hm Hi. by apply (Hsame n 0%nat).
Defined.

Lemma leaders_are_complete_witness :
  exists bs os rf rf', orderly late_start_leaders 3 bs os (outcome_of two_offices) /\
    nodes (outcome_of two_offices) !! 0%nat = Some rf /\ nodes (outcome_of two_offices) !! 1%nat = Some rf' /\
    state rf' = LEADER /\ commitIndex rf = 1 /\ exists e, log rf !! 1%nat = Some e /\ log rf' !! 1%nat = Some e.
Proof.
  destruct two_offices_orderly as (bs & os & Ho). exists bs, os. eexists _, _. split; [exact Ho|].
  do 4 (split; [vm_compute; reflexivity|]).
  apply (leaders_are_complete _ _ _ _ _ 0 1 _ _ 1 Ho); [vm_compute; reflexivity..|vm_compute; discriminate|].
  by vm_compute.
Defined.

Definition node_of (n : nat) : Raft := default (Make 3 0).1 (nodes (outcome_of two_offices) !! n).

(** Server 1 leads in term 3; server 0 lacks "B" and refuses once. *)
Lemma submitted_commands_commit_witness :
  let leader := node_of 1 in let rf := node_of 0 in
  exists leader' rf' effs,
    zlen (log rf) < zlen (log leader) /\
    serve (length (log leader)) (IString "C") [rf] leader = Ret (leader', [rf'], effs) /\
    log rf' = log leader' /\ Apply (mkApply true (IString "C") (zlen (log leader))) ∈ effs.
Proof.
  intros leader rf. destruct two_offices_orderly as (bs & os & Ho).
  destruct (submitted_commands_commit _ _ _ _ _ 1 leader (IString "C") [0%nat] [rf] Ho)
    as (leader' & rfs' & effs & Hs & _ & Hl & _ & Ha);
    [vm_compute; reflexivity..|repeat constructor; set_solver|set_solver|cbn; lia| |].
  { apply Forall2_cons. split; [|constructor]. split; [vm_compute; reflexivity|].
    split; vm_compute; [discriminate|reflexivity]. }
  assert (exists rf', rfs' = [rf']) as [rf' ->] by (vm_compute in Hs; injection Hs as _ <- _; by eexists).
  exists leader', rf', effs. split; [vm_compute; reflexivity|]. split; [exact Hs|].
  split; [exact (proj1 (Forall_singleton _ _) Hl)|exact Ha].
Defined.
