(* ===== verification/RaftChecker.v ===== *)
(** * RaftChecker: what the Raft tests look at

    Models the observations of the test harness
    [raft-demo/src/raft/config.go]: the goroutine of [start1] that checks what
    each server applies, [nCommitted], [checkOneLeader], [checkTerms],
    [checkNoLeader], [wait] and [one].  What a function reads at different
    moments -- the states of the servers, the committed entries at each
    iteration -- is given to it as a list. *)
From stdpp Require Import gmap sorting.
From S2P Require Import Prelude RaftNode RaftNet RaftTraces.

#[local] Open Scope Z_scope.

(** ** The apply checker (lines 124-158) *)

Record tester : Set := mkTester {
  logs : list (gmap Z iface);     (** copy of each server's committed entries *)
  maxIndex : Z;
}.

Definition new_tester (n : nat) : tester := {| logs := repeat ∅ n; maxIndex := 0 |}.

(** Lines 132-138: some server has committed a different value at the index. *)
Definition disagrees (m : ApplyMsg) (t : tester) : bool :=
  existsb (fun log => match log !! CommandIndex m with
                      | Some old => bool_decide (old <> mCommand m)
                      | None => false
                      end) (logs t).

Definition apply_check (i : nat) (m : ApplyMsg) (t : tester) : outcome tester :=
  if CommandValid m then
    match logs t !! i with
    | None => Crash IndexPanic
    | Some log =>
        let prevok := bool_decide (is_Some (log !! (CommandIndex m - 1))) in
        let t' := {| logs := <[i := <[CommandIndex m := mCommand m]> log]> (logs t);
                     maxIndex := Z.max (maxIndex t) (CommandIndex m) |} in
        if disagrees m t || (bool_decide (1 < CommandIndex m) && negb prevok)
        then Crash LogFatal else Ret t'
    end
  else Ret t.

Fixpoint check_applied (l : list (nat * ApplyMsg)) (t : tester) : outcome tester :=
  match l with
  | [] => Ret t
  | (i, m) :: l => t' ← apply_check i m t; check_applied l t'
  end.

(** ** Looking at the committed entries and at the servers *)

(** The loop of [nCommitted]. *)
Fixpoint count_committed (logs : list (gmap Z iface)) (index : Z) (count : Z) (cmd : iface)
    : outcome (Z * iface) :=
  match logs with
  | [] => Ret (count, cmd)
  | log :: logs =>
      match log !! index with
      | Some cmd1 =>
          if decide (0 < count /\ cmd <> cmd1) then Crash TestFatal
          else count_committed logs index (count + 1) cmd1
      | None => count_committed logs index count cmd
      end
  end.

Definition nCommitted (index : Z) (t : tester) : outcome (Z * iface) :=
  count_committed (logs t) index 0 INil.

(** What [GetState] answers for each server, and whether it is connected. *)
Record reading : Set := mkReading { connected : bool; term : Z; leader : bool }.

(** Lines 262-269: the leaders by term. *)
Fixpoint leaders_by_term (i : nat) (rs : list reading) (acc : gmap Z (list nat)) : gmap Z (list nat) :=
  match rs with
  | [] => acc
  | r :: rs =>
      leaders_by_term (S i) rs
        (if connected r && leader r
         then <[term r := default [] (acc !! term r) ++ [i]]> acc else acc)
  end.

(** Lines 271-279; [order] is the order in which the map is visited. *)
Fixpoint last_term (order : list (Z * list nat)) (last : Z) : outcome Z :=
  match order with
  | [] => Ret last
  | (t, ls) :: order =>
      if decide (1 < length ls)%nat then Crash TestFatal
      else last_term order (if decide (last < t) then t else last)
  end.

(** One iteration of [checkOneLeader]; [None]: no leader, it tries again. *)
Definition one_leader (rs : list reading) (order : list (Z * list nat)) : outcome (option nat) :=
  let leaders := leaders_by_term 0 rs ∅ in
  lastTermWithLeader ← last_term order (-1);
  if decide (leaders = ∅) then Ret None
  else match leaders !! lastTermWithLeader ≫= head with
       | Some i => Ret (Some i)
       | None => Crash IndexPanic
       end.

(** Ten iterations; each has its own readings. *)
Fixpoint checkOneLeader (its : list (list reading * list (Z * list nat))) : outcome nat :=
  match its with
  | [] => Crash TestFatal
  | (rs, order) :: its =>
      r ← one_leader rs order;
      match r with Some i => Ret i | None => checkOneLeader its end
  end.

Fixpoint agree_on_term (rs : list reading) (t : Z) : outcome Z :=
  match rs with
  | [] => Ret t
  | r :: rs =>
      if connected r then
        if decide (t = -1) then agree_on_term rs (term r)
        else if decide (t <> term r) then Crash TestFatal else agree_on_term rs t
      else agree_on_term rs t
  end.

Definition checkTerms (rs : list reading) : outcome Z := agree_on_term rs (-1).

Definition checkNoLeader (rs : list reading) : outcome unit :=
  if existsb (fun r => connected r && leader r) rs then Crash TestFatal else Ret ().

(** ** Waiting for an agreement *)

(** The loop of [wait]: [its] are what at most 30 iterations see, the committed
    entries and the terms of the servers; [fin] is what is committed after it. *)
Fixpoint wait_loop (index : Z) (n : Z) (startTerm : Z) (its : list (tester * list Z)) : outcome bool :=
  match its with
  | [] => Ret true
  | (t, terms) :: its =>
      '(nd, _) ← nCommitted index t;
      if decide (n <= nd) then Ret true
      else if decide (-1 < startTerm) then
        if existsb (fun t => bool_decide (startTerm < t)) terms then Ret false
        else wait_loop index n startTerm its
      else wait_loop index n startTerm its
  end.

Definition wait (index n startTerm : Z) (its : list (tester * list Z)) (fin : tester) : outcome iface :=
  go ← wait_loop index n startTerm (take 30 its);
  if go : bool then
    '(nd, cmd) ← nCommitted index fin;
    if decide (nd < n) then Crash TestFatal else Ret cmd
  else Ret (IInt (-1)).

(** Lines 391-406: the servers that [one] tries, [starts] being the last one it
    tried before; [start si] is what [Start] answers there, [None] when the
    server is not connected.  The second component is the new [starts]. *)
Fixpoint try_servers (fuel : nat) (n starts : nat) (start : nat -> option (Z * bool))
    : option Z * nat * list nat :=
  match fuel with
  | O => (None, starts, [])
  | S fuel =>
      let starts := ((starts + 1) mod n)%nat in
      match start starts with
      | Some (index1, true) => (Some index1, starts, [starts])
      | _ =>
          let '(r, s, tried) := try_servers fuel n starts start in (r, s, starts :: tried)
      end
  end.

(** Lines 412-422: the committed entries as the 2-second loop sees them. *)
Fixpoint await (index expectedServers : Z) (cmd : iface) (ts : list tester) : outcome bool :=
  match ts with
  | [] => Ret false
  | t :: ts =>
      '(nd, cmd1) ← nCommitted index t;
      if decide (0 < nd /\ expectedServers <= nd /\ cmd1 = cmd) then Ret true
      else await index expectedServers cmd ts
  end.

(** [one]: a round is the answers of [Start] and what the loop sees after; the
    rounds are those that start within ten seconds. *)
Fixpoint one (n : nat) (cmd : iface) (expectedServers : Z) (retry : bool) (starts : nat)
    (rounds : list ((nat -> option (Z * bool)) * list tester)) : outcome Z :=
  match rounds with
  | [] => Crash TestFatal
  | (start, ts) :: rounds =>
      let '(index, starts, _) := try_servers n n starts start in
      match index with
      | Some index =>
          if decide (index = -1) then one n cmd expectedServers retry starts rounds
          else
            ok ← await index expectedServers cmd ts;
            if ok : bool then Ret index
            else if retry then one n cmd expectedServers retry starts rounds
            else Crash TestFatal
      | None => one n cmd expectedServers retry starts rounds
      end
  end.

(** ** The apply checker is exact *)

Definition logs_at (t : tester) (i : nat) (idx : Z) : option iface := logs t !! i ≫= (.!! idx).

(** Server [i] has applied [v] at [idx] in [l]. *)
Definition applied (l : list (nat * ApplyMsg)) (i : nat) (idx : Z) (v : iface) : Prop :=
  (i, mkApply true v idx) ∈ l.

(** The servers agree at every index, and each applies an index only after the
    one below it. *)
Definition agreement (l : list (nat * ApplyMsg)) : Prop :=
  forall i j idx v w, applied l i idx v -> applied l j idx w -> v = w.
Definition in_order (l : list (nat * ApplyMsg)) : Prop :=
  forall l1 i idx v l2, l = l1 ++ (i, mkApply true v idx) :: l2 -> 1 < idx ->
    exists w, applied l1 i (idx - 1) w.

(** The checker's copy of the logs is what was applied. *)
Definition tester_ok (n : nat) (l : list (nat * ApplyMsg)) (t : tester) : Prop :=
  length (logs t) = n /\ forall i idx v, logs_at t i idx = Some v <-> applied l i idx v.

Lemma check_applied_snoc l x t :
  check_applied (l ++ [x]) t = (t' ← check_applied l t; apply_check x.1 x.2 t').
Proof.
  revert t. induction l as [|[i m] l IH]; intros t; cbn.
  - destruct x as [i m]. cbn. by destruct (apply_check i m t).
  - destruct (apply_check i m t) as [t'| |]; cbn; [apply IH|done..].
Qed.

Lemma disagrees_spec n l t m :
  tester_ok n l t -> CommandValid m = true ->
  disagrees m t = true <-> exists j w, applied l j (CommandIndex m) w /\ w <> mCommand m.
Proof.
  intros [Hlen Hl] Hv. unfold disagrees. rewrite existsb_exists. split.
  - intros (log & Hin & Hm). apply list_elem_of_In, list_elem_of_lookup in Hin as [j Hj].
    destruct (log !! CommandIndex m) as [w|] eqn:Hw; [|done]. exists j, w.
    split; [|by eapply bool_decide_eq_true_1]. apply Hl. unfold logs_at. rewrite Hj. exact Hw.
  - intros (j & w & Ha & Hne). apply Hl in Ha. unfold logs_at in Ha.
    destruct (logs t !! j) as [log|] eqn:Hj; [|done]. exists log. split.
    + apply list_elem_of_In. by eapply list_elem_of_lookup_2.
    + cbn in Ha. rewrite Ha. by apply bool_decide_eq_true_2.
Qed.

Lemma applied_snoc l x i idx v :
  applied (l ++ [x]) i idx v <-> applied l i idx v \/ x = (i, mkApply true v idx).
Proof. unfold applied. rewrite elem_of_app, list_elem_of_singleton. naive_solver. Qed.

Lemma in_order_snoc l i m :
  in_order (l ++ [(i, m)]) <->
  in_order l /\ (CommandValid m = true -> 1 < CommandIndex m -> exists w, applied l i (CommandIndex m - 1) w).
Proof.
  split.
  - intros Ho. split.
    + intros l1 j idx v l2 -> Hidx. apply (Ho l1 j idx v (l2 ++ [(i, m)])); [|done].
      by rewrite <- (assoc_L (++)).
    + intros Hv Hidx. destruct m as [? v idx]. cbn in *. subst. by apply (Ho l i idx v []).
  - intros [Ho Hm] l1 j idx v l2 Heq Hidx. destruct l2 as [|y l2] using rev_ind.
    + apply app_inj_tail in Heq as [-> [= -> ->]]. by apply Hm.
    + rewrite app_comm_cons, (assoc_L (++)) in Heq. apply app_inj_tail in Heq as [-> _].
      by apply (Ho l1 j idx v l2).
Qed.

(** What the checker asks of one message more. *)
Definition fits (l : list (nat * ApplyMsg)) (i : nat) (m : ApplyMsg) : Prop :=
  CommandValid m = true ->
  (forall j w, applied l j (CommandIndex m) w -> w = mCommand m) /\
  (1 < CommandIndex m -> exists w, applied l i (CommandIndex m - 1) w).

Lemma prevok_spec n l t i log m :
  tester_ok n l t -> logs t !! i = Some log ->
  is_Some (log !! (CommandIndex m - 1)) <-> exists w, applied l i (CommandIndex m - 1) w.
Proof.
  intros [_ Hl] Hi. split.
  - intros [w Hw]. exists w. apply Hl. unfold logs_at. by rewrite Hi.
  - intros [w Hw%Hl]. unfold logs_at in Hw. rewrite Hi in Hw. by exists w.
Qed.

Lemma apply_check_accepts n l t i m :
  tester_ok n l t -> (i < n)%nat -> fits l i m ->
  exists t', apply_check i m t = Ret t' /\ tester_ok n (l ++ [(i, m)]) t'.
Proof.
  intros Ht Hi Hf. unfold apply_check. destruct (CommandValid m) eqn:Hv.
  - destruct (Hf Hv) as [Hag Hord]. destruct Ht as [Hlen Hl] eqn:Ht'.
    destruct (lookup_lt_is_Some_2 (logs t) i) as [log Hlog]; [lia|]. rewrite Hlog.
    assert (disagrees m t = false) as ->.
    { apply not_true_iff_false. intros Hd. apply (disagrees_spec n l t m Ht Hv) in Hd as (j & w & Ha & Hne). by apply Hne, (Hag j). }
    assert (bool_decide (1 < CommandIndex m) && negb (bool_decide (is_Some (log !! (CommandIndex m - 1))))
      = false) as ->.
    { apply andb_false_iff. destruct (decide (1 < CommandIndex m)) as [H1|H1].
      - right. apply negb_false_iff, bool_decide_eq_true_2. apply (prevok_spec n l t i log m Ht Hlog). auto.
      - left. by apply bool_decide_eq_false_2. }
    eexists. split; [done|]. split; cbn; [by rewrite length_insert|].
    intros j idx v. rewrite applied_snoc, <- Hl. unfold logs_at. cbn.
    destruct (decide (i = j)) as [<-|Hij].
    + rewrite list_lookup_insert_eq, Hlog by lia. cbn. rewrite lookup_insert.
      destruct (decide (CommandIndex m = idx)) as [<-|Hidx].
      * split; [intros [= <-]; right; by destruct m; cbn in *; subst|].
        intros [Hw|[= ->]]; [|done]. f_equal. symmetry. apply (Hag i), Hl. unfold logs_at. by rewrite Hlog.
      * split; [by left|]. intros [?|[= ->]]; [done|by destruct Hidx].
    + rewrite list_lookup_insert_ne by done. split; [by left|]. intros [?|[= -> _]]; [done|by destruct Hij].
  - exists t. split; [done|]. destruct Ht as [Hlen Hl]. split; [done|]. intros j idx v.
    rewrite applied_snoc, Hl. split; [by left|]. intros [?|[= _ ->]]; [done|discriminate].
Qed.

Lemma apply_check_cases n l t i m :
  tester_ok n l t -> (i < n)%nat -> fits l i m \/ apply_check i m t = Crash LogFatal.
Proof.
  intros Ht Hi. unfold apply_check. destruct (CommandValid m) eqn:Hv; [|left; intros ?; congruence].
  destruct (lookup_lt_is_Some_2 (logs t) i) as [log Hlog]; [destruct Ht; lia|]. rewrite Hlog.
  destruct (disagrees m t) eqn:Hd; [by right|]. cbn [orb].
  destruct (bool_decide (1 < CommandIndex m) && negb (bool_decide (is_Some (log !! (CommandIndex m - 1)))))
    eqn:Ho; [by right|]. left. intros _. split.
  - intros j w Ha. destruct (decide (w = mCommand m)) as [|Hne]; [done|]. exfalso.
    assert (disagrees m t = true) as Hd'; [|congruence].
    apply (disagrees_spec n l t m Ht Hv). by exists j, w.
  - intros H1. rewrite (bool_decide_eq_true_2 _ H1) in Ho. cbn in Ho.
    apply (prevok_spec n l t i log m Ht Hlog). by apply negb_false_iff, bool_decide_eq_true_1 in Ho.
Qed.

Lemma new_tester_ok n : tester_ok n [] (new_tester n).
Proof.
  split; [apply repeat_length|]. intros i idx v. unfold logs_at. split.
  - destruct (logs (new_tester n) !! i) as [log|] eqn:Hi; [|done]. cbn in *.
    apply list_elem_of_lookup_2, list_elem_of_In, repeat_spec in Hi as ->. by rewrite lookup_empty.
  - intros ?%not_elem_of_nil. done.
Qed.

Lemma agreement_snoc l i m :
  agreement (l ++ [(i, m)]) <->
  agreement l /\ (CommandValid m = true -> forall j w, applied l j (CommandIndex m) w -> w = mCommand m).
Proof.
  unfold agreement. setoid_rewrite applied_snoc. split.
  - intros Ha. split; [by eauto|]. intros Hv j w Hw. destruct m as [? v idx]. cbn in *. subst.
    by apply (Ha j i idx w v); [left|right].
  - intros [Ha Hm] j k idx v w [Hv|[= -> ->]] [Hw|[= Heq1 Heq2]]; [by eauto|subst..|].
    + by apply (Hm eq_refl j).
    + symmetry. by apply (Hm eq_refl k).
    + congruence.
Qed.

Lemma check_applied_spec n l :
  Forall (fun x => x.1 < n)%nat l ->
  (agreement l /\ in_order l /\ exists t, check_applied l (new_tester n) = Ret t /\ tester_ok n l t) \/
  (~ (agreement l /\ in_order l) /\ check_applied l (new_tester n) = Crash LogFatal).
Proof.
  induction l as [|[i m] l IH] using rev_ind; intros Hl.
  - left. split; [by intros ????? ?%not_elem_of_nil|]. split; [by intros []|].
    exists (new_tester n). split; [done|apply new_tester_ok].
  - apply Forall_app in Hl as [Hl [Hi _]%Forall_cons]. rewrite check_applied_snoc. cbn [fst snd] in *.
    rewrite agreement_snoc, in_order_snoc.
    destruct (IH Hl) as [(Hag & Hor & t & -> & Ht)|[Hno ->]]; [|right; split; [tauto|done]].
    cbn. destruct (apply_check_cases n l t i m Ht Hi) as [Hf|Hf].
    + left. destruct (apply_check_accepts n l t i m Ht Hi Hf) as (t' & Et & Ht').
      split; [split; [done|intros Hv; apply (Hf Hv)]|]. split; [split; [done|intros Hv; apply (Hf Hv)]|].
      by exists t'.
    + right. split; [|exact Hf]. intros [[_ H1] [_ H2]].
      destruct (apply_check_accepts n l t i m Ht Hi) as (t' & Et & _); [|congruence].
      intros Hv. split; [by apply H1|by apply H2].
Qed.

(** C21 The apply checker of the tests is exact: it accepts what the servers have
    applied, whatever the interleaving, exactly when they agree on the command
    at every index and each server applies an index above 1 only after the one
    below it; otherwise it stops the test.  What it accepts is what
    [nCommitted] then looks at. *)
Theorem apply_checker_exact n l :
  Forall (fun x => x.1 < n)%nat l ->
  ((exists t, check_applied l (new_tester n) = Ret t) <-> agreement l /\ in_order l) /\
  (forall t, check_applied l (new_tester n) = Ret t -> tester_ok n l t) /\
  (~ (agreement l /\ in_order l) -> check_applied l (new_tester n) = Crash LogFatal).
Proof.
  intros Hl. destruct (check_applied_spec n l Hl) as [(Ha & Ho & t & Et & Ht)|[Hno Ec]].
  - split_and!; [|intros t0; rewrite Et; by intros [= <-]|tauto]. split; [done|]. intros _. by exists t.
  - split_and!; [|intros t0; by rewrite Ec|done]. rewrite Ec. split; [by intros [t [=]]|tauto].
Qed.

(** ** [nCommitted] *)

Definition has_entry (index : Z) (log : gmap Z iface) : Prop := is_Some (log !! index).
#[export] Instance has_entry_dec index log : Decision (has_entry index log).
Proof. unfold has_entry. apply _. Defined.

Lemma count_committed_spec ls index v count cmd :
  Forall (fun log => forall w, log !! index = Some w -> w = v) ls -> 0 <= count ->
  (0 < count -> cmd = v) ->
  count_committed ls index count cmd =
    Ret (count + zlen (filter (has_entry index) ls),
         if decide (filter (has_entry index) ls = []) then cmd else v).
Proof.
  intros Hall. revert count cmd. induction Hall as [|log ls Hlog Hall IH]; intros count cmd Hc Hcmd.
  - cbn. unfold zlen. cbn. by rewrite Z.add_0_r.
  - cbn [count_committed]. destruct (log !! index) as [w|] eqn:Hw.
    + rewrite (Hlog w eq_refl). rewrite decide_False by (intros [H0 Hne]; by apply Hne, Hcmd).
      rewrite filter_cons_True by (unfold has_entry; rewrite Hw; by eexists).
      rewrite IH by (lia || done). rewrite (decide_False (P := _ :: _ = [])) by done.
      unfold zlen. cbn [length]. case_decide; (do 2 f_equal; lia).
    + rewrite filter_cons_False by (unfold has_entry; rewrite Hw; by intros [? [=]]). by apply IH.
Qed.

Lemma count_positions (ls : list (gmap Z iface)) index :
  length (filter (has_entry index) ls) =
    length (filter (fun i => is_Some (ls !! i ≫= (.!! index))) (seq 0 (length ls))).
Proof.
  induction ls as [|log ls IH] using rev_ind; [done|].
  rewrite length_app, Nat.add_comm. cbn [length Nat.add]. rewrite seq_S, !filter_app, !length_app, IH.
  f_equal.
  - f_equal. apply filter_iff_in. intros i Hi%elem_of_seq. by rewrite lookup_app_l by lia.
  - cbn [Nat.add]. unfold has_entry. destruct (decide (is_Some (log !! index))) as [H|H].
    + rewrite !filter_cons_True; [done| |done]. by rewrite lookup_app_r, Nat.sub_diag by lia.
    + rewrite !filter_cons_False; [done| |done]. by rewrite lookup_app_r, Nat.sub_diag by lia.
Qed.

Lemma nCommitted_spec n l t index :
  Forall (fun x => x.1 < n)%nat l -> check_applied l (new_tester n) = Ret t ->
  exists cmd, nCommitted index t = Ret (zlen (filter (fun i => is_Some (logs_at t i index)) (seq 0 n)), cmd) /\
    (forall i, is_Some (logs_at t i index) <-> exists v, applied l i index v) /\
    (forall i v, applied l i index v -> cmd = v).
Proof.
  intros Hl Et. destruct (check_applied_spec n l Hl) as [(Hag & _ & t' & Et' & Ht)|[_ Ec]]; [|congruence].
  rewrite Et in Et'. injection Et' as <-. destruct Ht as [Hlen Hlogs].
  assert (exists v, forall i w, applied l i index w -> w = v) as [v Hv].
  { destruct (decide (filter (has_entry index) (logs t) = [])) as [Hf|Hf].
    - exists INil. intros i w Hw%Hlogs. exfalso. unfold logs_at in Hw.
      destruct (logs t !! i) as [log|] eqn:Hi; [|done]. apply (not_elem_of_nil log). rewrite <- Hf.
      apply list_elem_of_filter. split; [by exists w|by eapply list_elem_of_lookup_2].
    - destruct (filter (has_entry index) (logs t)) as [|log fs] eqn:Hfs; [done|].
      assert (log ∈ filter (has_entry index) (logs t)) as [[v Hv] Hin]%list_elem_of_filter
        by (rewrite Hfs; left).
      apply list_elem_of_lookup in Hin as [j Hj]. exists v. intros i w Hw.
      apply (Hag i j index w v Hw), Hlogs. unfold logs_at. by rewrite Hj. }
  unfold nCommitted. rewrite (count_committed_spec _ index v); [|..|lia|lia].
  - eexists. split.
    { rewrite Z.add_0_l. unfold zlen, logs_at. by rewrite count_positions, Hlen. }
    split.
    + intros i. split; [intros [w Hw]; exists w; by apply Hlogs|].
      intros [w Hw%Hlogs]. by exists w.
    + intros i w Hw. case_decide as Hf; [|symmetry; by apply (Hv i)]. exfalso.
      apply Hlogs in Hw. unfold logs_at in Hw. destruct (logs t !! i) as [log|] eqn:Hi; [|done].
      apply (not_elem_of_nil log). rewrite <- Hf. apply list_elem_of_filter.
      split; [by exists w|by eapply list_elem_of_lookup_2].
  - apply Forall_forall. intros log Hin w Hw. apply list_elem_of_lookup in Hin as [i Hi].
    apply (Hv i), Hlogs. unfold logs_at. by rewrite Hi.
Qed.

(** On what the checker has accepted, [nCommitted] never fails: it returns
    how many servers have applied the index and, if any has, the command they
    all applied there. *)
Theorem nCommitted_counts n l t index :
  Forall (fun x => x.1 < n)%nat l -> check_applied l (new_tester n) = Ret t ->
  exists cmd, nCommitted index t = Ret (zlen (filter (fun i => is_Some (logs_at t i index)) (seq 0 n)), cmd) /\
    (forall i, is_Some (logs_at t i index) <-> exists v, applied l i index v) /\
    (forall i v, applied l i index v -> cmd = v).
Proof. apply nCommitted_spec. Qed.

(** ** [checkOneLeader] *)

(** Server [i] is connected and leads term [t]. *)
Definition leads (rs : list reading) (i : nat) (t : Z) : Prop :=
  exists r, rs !! i = Some r /\ connected r = true /\ leader r = true /\ term r = t.

Fixpoint leaders_in (k : nat) (t : Z) (rs : list reading) : list nat :=
  match rs with
  | [] => []
  | r :: rs => (if connected r && leader r && bool_decide (term r = t) then [k] else []) ++ leaders_in (S k) t rs
  end.

Lemma elem_of_leaders_in k t rs i :
  i ∈ leaders_in k t rs <-> exists j, i = (k + j)%nat /\ leads rs j t.
Proof.
  revert k. induction rs as [|r rs IH]; intros k; cbn [leaders_in].
  - split; [by intros ?%not_elem_of_nil|]. intros (j & _ & r & [=] & _).
  - rewrite elem_of_app, IH. split.
    + intros [Hi|(j & -> & Hj)].
      * destruct (connected r) eqn:Hc, (leader r) eqn:Hl; cbn in Hi; try by apply not_elem_of_nil in Hi.
        case_bool_decide as Ht; [|by apply not_elem_of_nil in Hi]. apply list_elem_of_singleton in Hi as ->.
        exists 0%nat. split; [lia|]. by exists r.
      * exists (S j). split; [lia|exact Hj].
    + intros ([|j] & -> & Hj).
      * left. destruct Hj as (r' & [= <-] & -> & -> & ->). cbn. rewrite bool_decide_eq_true_2 by done.
        rewrite Nat.add_0_r. left.
      * right. exists j. split; [lia|exact Hj].
Qed.

Lemma NoDup_leaders_in k t rs : NoDup (leaders_in k t rs).
Proof.
  revert k. induction rs as [|r rs IH]; intros k; [constructor|]. cbn. destruct (_ && _); [|apply IH].
  apply NoDup_cons. split; [|apply IH]. intros (j & Hj & _)%elem_of_leaders_in. lia.
Qed.

Lemma leaders_by_term_lookup k rs acc t :
  default [] (leaders_by_term k rs acc !! t) = default [] (acc !! t) ++ leaders_in k t rs /\
  (leaders_by_term k rs acc !! t = None <-> acc !! t = None /\ leaders_in k t rs = []).
Proof.
  revert k acc. induction rs as [|r rs IH]; intros k acc; cbn [leaders_by_term leaders_in].
  - rewrite app_nil_r. naive_solver.
  - destruct (connected r && leader r); cbn [andb app]; [|apply IH].
    destruct (IH (S k) (<[term r := default [] (acc !! term r) ++ [k]]> acc)) as [-> ->].
    rewrite lookup_insert. case_decide as Ht.
    + subst t. rewrite bool_decide_eq_true_2 by done. cbn. rewrite <- (assoc_L (++)). naive_solver.
    + by rewrite bool_decide_eq_false_2.
Qed.

Lemma last_term_spec order last :
  -1 <= last ->
  (forall t ls, (t, ls) ∈ order -> -1 < t) ->
  match last_term order last with
  | Ret m => last <= m /\ (forall t ls, (t, ls) ∈ order -> t <= m /\ (length ls <= 1)%nat) /\
             (m = last \/ exists ls, (m, ls) ∈ order)
  | Crash c => c = TestFatal /\ exists t ls, (t, ls) ∈ order /\ (1 < length ls)%nat
  | Block => False
  end.
Proof.
  revert last. induction order as [|[t ls] order IH]; intros last Hlast Hpos; cbn [last_term].
  - split; [lia|]. split; [by intros ? ? ?%not_elem_of_nil|by left].
  - destruct (decide (1 < length ls)%nat) as [Hls|Hls].
    { split; [done|]. exists t, ls. split; [left|done]. }
    assert (-1 < t) as Ht by (apply (Hpos t ls); left).
    specialize (IH (if decide (last < t) then t else last) ltac:(case_decide; lia)
      ltac:(intros t' ls' Hin; apply (Hpos t' ls'); by right)).
    destruct (last_term order _) as [m|c|] eqn:Em.
    + destruct IH as (Hm & Hall & Hex).
      split; [case_decide; lia|]. split.
      * intros t' ls' [[= -> ->]|Hin]%elem_of_cons; [|by apply (Hall t' ls')]. split; [|lia].
        case_decide; lia.
      * destruct Hex as [->|[ls' Hin]]; [|right; exists ls'; by right]. case_decide; [|by left].
        right. exists ls. left.
    + destruct IH as (-> & t' & ls' & Hin & Hlen). split; [done|]. exists t', ls'. split; [by right|done].
    + done.
Qed.

Lemma leaders_by_term_some rs t ls :
  leaders_by_term 0 rs ∅ !! t = Some ls <-> ls = leaders_in 0 t rs /\ ls <> [].
Proof.
  destruct (leaders_by_term_lookup 0 rs ∅ t) as [Hd Hn]. rewrite lookup_empty in Hd, Hn. cbn in Hd.
  destruct (leaders_by_term 0 rs ∅ !! t) as [ls'|]; cbn in Hd.
  - subst ls'. split; [|by intros [-> _]]. intros Hq. injection Hq as <-. split; [done|].
    intros He. discriminate (proj2 Hn (conj eq_refl He)).
  - split; [intros Hq; discriminate Hq|]. intros [-> Hne]. by destruct Hne, Hn.
Qed.

Lemma leads_leaders_in rs i t : leads rs i t <-> i ∈ leaders_in 0 t rs.
Proof. rewrite elem_of_leaders_in. split; [intros Hl; by exists i|by intros (j & -> & Hj)]. Qed.

Lemma two_in_leaders rs t i j :
  leads rs i t -> leads rs j t -> i <> j -> (1 < length (leaders_in 0 t rs))%nat.
Proof.
  rewrite !leads_leaders_in. intros Hi Hj Hij.
  destruct (leaders_in 0 t rs) as [|a [|b ls]]; cbn; [by apply not_elem_of_nil in Hi| |lia].
  apply list_elem_of_singleton in Hi, Hj. congruence.
Qed.

Lemma leaders_two rs t :
  (1 < length (leaders_in 0 t rs))%nat -> exists i j, i <> j /\ leads rs i t /\ leads rs j t.
Proof.
  intros Hlen. pose proof (NoDup_leaders_in 0 t rs) as Hnd. setoid_rewrite leads_leaders_in.
  destruct (leaders_in 0 t rs) as [|a [|b ls]]; cbn in Hlen; [lia..|].
  apply NoDup_cons in Hnd as [Ha _]. exists a, b. split_and!; [|left|right; left].
  intros ->. apply Ha. left.
Qed.

(** The order in which Go visits the map of the leaders. *)
Definition visits (rs : list reading) (order : list (Z * list nat)) : Prop :=
  order ≡ₚ map_to_list (leaders_by_term 0 rs ∅).

Lemma visits_elem rs order t ls :
  visits rs order -> (t, ls) ∈ order <-> ls = leaders_in 0 t rs /\ ls <> [].
Proof. intros ->. rewrite elem_of_map_to_list. apply leaders_by_term_some. Qed.

Lemma one_leader_cases rs order :
  visits rs order -> Forall (fun r => 0 <= term r) rs ->
  (one_leader rs order = Crash TestFatal /\ exists i j t, i <> j /\ leads rs i t /\ leads rs j t) \/
  (one_leader rs order = Ret None /\ forall i t, ~ leads rs i t) \/
  (exists i t, one_leader rs order = Ret (Some i) /\ leads rs i t /\
     (forall j k t', leads rs j t' -> leads rs k t' -> j = k) /\
     forall j t', leads rs j t' -> t' < t \/ j = i /\ t' = t).
Proof.
  intros Hv Hpos.
  assert (forall i t, leads rs i t -> 0 <= t /\ (t, leaders_in 0 t rs) ∈ order) as Hlead.
  { intros i t Hl. split.
    - destruct Hl as (r & Hr & _ & _ & <-). by apply (Forall_lookup_1 _ _ _ _ Hpos Hr).
    - apply (visits_elem rs order _ _ Hv). split; [done|]. intros He.
      apply leads_leaders_in in Hl. rewrite He in Hl. by apply not_elem_of_nil in Hl. }
  assert (forall t ls, (t, ls) ∈ order -> -1 < t) as Hterm.
  { intros t ls [-> Hne]%(visits_elem rs order _ _ Hv).
    destruct (leaders_in 0 t rs) as [|i ls] eqn:Hls; [done|].
    destruct (Hlead i t) as [? _]; [|lia]. apply leads_leaders_in. rewrite Hls. left. }
  pose proof (last_term_spec order (-1) ltac:(done) Hterm) as Hlast.
  unfold one_leader. destruct (last_term order (-1)) as [m|c|]; [|left|done].
  - destruct Hlast as (_ & Hall & Hm). cbn. right.
    assert (forall i t, leads rs i t -> leads rs i t /\ t <= m /\ (length (leaders_in 0 t rs) <= 1)%nat) as Hone.
    { intros i t Hl. destruct (Hlead i t Hl) as [_ Hin]. by destruct (Hall _ _ Hin). }
    case_decide as He.
    + left. split; [done|]. intros i t Hl. destruct (Hlead i t Hl) as [_ [Hls Hne]%(visits_elem _ _ _ _ Hv)].
      pose proof (proj2 (leaders_by_term_some rs t _) (conj Hls Hne)) as Hq. by rewrite He, lookup_empty in Hq.
    + right. destruct Hm as [->|[ls Hin]].
      { exfalso. apply He, map_eq. intros t. rewrite lookup_empty.
        destruct (leaders_by_term 0 rs ∅ !! t) as [ls|] eqn:Hq; [|done]. exfalso.
        apply leaders_by_term_some in Hq. apply (visits_elem _ _ _ _ Hv) in Hq.
        pose proof (Hterm _ _ Hq). destruct (Hall _ _ Hq). lia. }
      pose proof Hin as [-> Hne]%(visits_elem _ _ _ _ Hv).
      destruct (leaders_by_term_some rs m (leaders_in 0 m rs)) as [_ ->]; [|done]. cbn.
      destruct (leaders_in 0 m rs) as [|i ls] eqn:Hls; [done|]. exists i, m. cbn.
      assert (leads rs i m) as Hi by (apply leads_leaders_in; rewrite Hls; left).
      split; [done|]. split; [done|]. split.
      { intros j k t' Hj Hk. destruct (decide (j = k)) as [|Hjk]; [done|]. exfalso.
        pose proof (two_in_leaders rs t' j k Hj Hk Hjk). destruct (Hone j t' Hj) as (_ & _ & ?). lia. }
      intros j t' Hj. destruct (Hone j t' Hj) as (_ & Hle & Hlen).
      destruct (decide (t' = m)) as [->|]; [|left; lia]. right. split; [|done].
      apply leads_leaders_in in Hj. rewrite Hls in Hj, Hlen. cbn in Hlen.
      destruct ls; [|cbn in Hlen; lia]. by apply list_elem_of_singleton in Hj.
  - destruct Hlast as (-> & t & ls & [-> _]%(visits_elem _ _ _ _ Hv) & Hlen). split; [done|].
    destruct (leaders_two rs t Hlen) as (i & j & Hij & Hi & Hj). by exists i, j, t.
Qed.

(** An iteration of [checkOneLeader], whatever the order in which Go visits
    the map, stops the test exactly when two connected servers lead the same
    term, tries again exactly when no connected server leads, and otherwise
    returns the only leader of the latest led term; indexing the map never
    panics. *)
Theorem checkOneLeader_exact rs order :
  visits rs order -> Forall (fun r => 0 <= term r) rs ->
  (one_leader rs order = Crash TestFatal <-> exists i j t, i <> j /\ leads rs i t /\ leads rs j t) /\
  (one_leader rs order = Ret None <-> forall i t, ~ leads rs i t) /\
  (forall i, one_leader rs order = Ret (Some i) -> exists t, leads rs i t /\
     forall j t', leads rs j t' -> t' < t \/ j = i /\ t' = t) /\
  (one_leader rs order = Crash TestFatal \/ exists r, one_leader rs order = Ret r).
Proof.
  intros Hv Hpos. destruct (one_leader_cases rs order Hv Hpos) as [[-> Htwo]|[[-> Hno]|(i & t & -> & Hi & Huniq & Hlast)]].
  - split; [|split; [|split; [done|by left]]]; [done|]. split; [done|]. intros Hno. destruct Htwo as (i & _ & t & _ & Hi & _).
    by destruct (Hno i t).
  - split; [|split; [done|split; [done|by right; eexists]]]. split; [done|]. intros (i & _ & t & _ & Hi & _).
    by destruct (Hno i t).
  - split; [|split; [split; [done|]; intros Hno; by destruct (Hno i t)|split; [|by right; eexists]]].
    + split; [done|]. intros (j & k & t' & Hjk & Hj & Hk).
      by destruct Hjk; apply (Huniq j k t').
    + intros j [= <-]. by exists t.
Qed.

(** ** Agreements *)

(** The servers after [s], in the order in which [one] tries them. *)
Definition round_robin (n s k : nat) : list nat := (fun i => (s + 1 + i) mod n)%nat <$> seq 0 k.

Lemma round_robin_S n s k :
  round_robin n s (S k) = ((s + 1) mod n)%nat :: round_robin n ((s + 1) mod n)%nat k.
Proof.
  unfold round_robin. rewrite <- cons_seq, fmap_cons, Nat.add_0_r, <- fmap_S_seq, <- list_fmap_compose.
  f_equal. apply list_fmap_ext. intros _ i _. unfold compose.
  rewrite <- (Nat.add_assoc (_ mod _)), Nat.Div0.add_mod_idemp_l. done.
Qed.

Lemma length_round_robin n s k : length (round_robin n s k) = k.
Proof. unfold round_robin. by rewrite length_fmap, length_seq. Qed.

Lemma round_robin_NoDup n s : NoDup (round_robin n s n).
Proof.
  unfold round_robin. apply NoDup_fmap_2_strong; [|apply NoDup_seq].
  intros i j [_ Hi]%elem_of_seq [_ Hj]%elem_of_seq Heq. cbn in *.
  assert (n <> 0)%nat as Hn by lia.
  pose proof (Nat.div_mod (s + 1 + i) n Hn) as Di. pose proof (Nat.div_mod (s + 1 + j) n Hn) as Dj.
  rewrite Heq in Di.
  destruct (Nat.lt_trichotomy ((s + 1 + i) / n) ((s + 1 + j) / n)) as [Hlt|[Hlt|Hlt]]; nia.
Qed.

Lemma round_robin_elem n s k i : i ∈ round_robin n s k -> (i < n)%nat \/ n = 0%nat.
Proof.
  unfold round_robin. intros (j & -> & _)%list_elem_of_fmap. destruct (decide (n = 0)%nat); [by right|].
  left. by apply Nat.mod_upper_bound.
Qed.

Definition refuses (start : nat -> option (Z * bool)) (i : nat) : Prop :=
  forall idx, start i <> Some (idx, true).

Lemma try_servers_spec k n s start :
  let '(r, s', tried) := try_servers k n s start in
  tried `prefix_of` round_robin n s k /\
  match r with
  | Some idx => exists tried', tried = tried' ++ [s'] /\ start s' = Some (idx, true) /\ Forall (refuses start) tried'
  | None => tried = round_robin n s k /\ Forall (refuses start) tried
  end.
Proof.
  revert s. induction k as [|k IH]; intros s; cbn [try_servers].
  { split; [by exists []|]. split; [done|constructor]. }
  rewrite round_robin_S. set (i := ((s + 1) mod n)%nat). specialize (IH i).
  destruct (start i) as [[idx [|]]|] eqn:Hi.
  { split; [by exists (round_robin n i k)|]. exists []. split; [done|]. split; [done|constructor]. }
  all: assert (refuses start i) as Hr by (intros idx'; congruence).
  all: destruct (try_servers k n i start) as [[r s'] tried]; destruct IH as [Hp IH].
  all: split; [by apply prefix_cons|].
  all: destruct r as [idx'|]; [|destruct IH as [-> IH]; split; [done|by constructor]].
  all: destruct IH as (tried' & -> & Hs & Hall); exists (i :: tried'); split_and!; [done..|by constructor].
Qed.

(** A round of [one] asks the servers in turn, the one after the last it
    asked first, each at most once, and stops at the first that accepts the
    command; when none does it has asked every server. *)
Theorem one_tries_every_server n s start r s' tried :
  try_servers n n s start = (r, s', tried) ->
  NoDup tried /\ tried `prefix_of` round_robin n s n /\
  match r with
  | Some idx => last tried = Some s' /\ (s' < n)%nat /\ start s' = Some (idx, true) /\
      (forall i, i ∈ tried -> i <> s' -> refuses start i)
  | None => forall i, (i < n)%nat -> i ∈ tried /\ refuses start i
  end.
Proof.
  intros Ht. pose proof (try_servers_spec n n s start) as H. rewrite Ht in H. destruct H as [Hp H].
  split; [|split; [done|]].
  - destruct Hp as [tl Htl]. pose proof (round_robin_NoDup n s) as Hnd. rewrite Htl in Hnd.
    by apply NoDup_app in Hnd as [? _].
  - destruct r as [idx|].
    + destruct H as (tried' & -> & Hs & Hall). split; [by rewrite last_snoc|]. split.
      * destruct (round_robin_elem n s n s') as [|Hn]; [|done|].
        -- destruct Hp as [tl ->]. rewrite !elem_of_app, list_elem_of_singleton. tauto.
        -- subst n. destruct Hp as [tl Htl]. by destruct tried'.
      * split; [done|]. intros i [Hi| ->%list_elem_of_singleton]%elem_of_app Hne; [|done].
        by apply (Forall_forall (refuses start) tried').
    + destruct H as [-> Hall]. intros i Hi. assert (i ∈ round_robin n s n) as Hin.
      { assert (round_robin n s n ≡ₚ seq 0 n) as ->; [|apply elem_of_seq; lia].
        apply submseteq_length_Permutation.
        - apply NoDup_submseteq; [apply round_robin_NoDup|]. intros j [Hj|Hj]%round_robin_elem; [|lia].
          apply elem_of_seq. lia.
        - by rewrite length_round_robin, length_seq. }
      split; [done|]. by apply (Forall_forall (refuses start) (round_robin n s n)).
Qed.

Lemma await_true index k cmd ts :
  await index k cmd ts = Ret true ->
  exists t nd, t ∈ ts /\ nCommitted index t = Ret (nd, cmd) /\ 0 < nd /\ k <= nd.
Proof.
  induction ts as [|t ts IH]; cbn [await]; [done|]. intros Ha.
  destruct (nCommitted index t) as [[nd cmd1]|c|] eqn:Hn; cbn in Ha; [|done..].
  case_decide as Hd.
  - destruct Hd as (H0 & Hk & ->). exists t, nd. split_and!; [left|done..].
  - destruct (IH Ha) as (t' & nd' & Hin & Hrest). exists t', nd'. split; [by right|done].
Qed.

(** C32 What [one] promises the tests: when it returns an index, some server
    accepted the command at that index, and afterwards at least
    [expectedServers] servers, and at least one, had applied exactly that
    command there. *)
Theorem one_means_agreement n cmd k retry s rounds idx :
  one n cmd k retry s rounds = Ret idx ->
  (forall start ts t, (start, ts) ∈ rounds -> t ∈ ts ->
     exists l, Forall (fun x => x.1 < n)%nat l /\ check_applied l (new_tester n) = Ret t) ->
  exists start ts t i l, (start, ts) ∈ rounds /\ t ∈ ts /\
    (i < n)%nat /\ start i = Some (idx, true) /\
    check_applied l (new_tester n) = Ret t /\
    exists servers, NoDup servers /\ servers <> [] /\ k <= zlen servers /\
      forall j, j ∈ servers -> (j < n)%nat /\ applied l j idx cmd.
Proof.
  intros Hone Hts. revert s Hone Hts. induction rounds as [|[start ts] rounds IH]; intros s; cbn [one]; intros Hone Hts; [done|].
  revert Hone.
  pose proof (try_servers_spec n n s start) as Htry.
  destruct (try_servers n n s start) as [[[i|] s'] tried]; intros Hone.
  - destruct Htry as [[tl Htl] (tried' & -> & Hs' & _)].
    assert (one n cmd k retry s' rounds = Ret idx \/ i = idx /\ await i k cmd ts = Ret true) as [H|[-> Ha]].
    { destruct (decide (i = -1)); [by left|]. destruct (await i k cmd ts) as [[|]|c|]; cbn in Hone; [|destruct retry; [by left|done]|done..].
      right. split; [congruence|done]. }
    + destruct (IH s' H ltac:(intros st ts' t' Hin; apply (Hts st ts' t'); by right)) as (st & ts' & t & j & l & Hin & Hrest).
      exists st, ts', t, j, l. split; [by right|done].
    + destruct (await_true _ _ _ _ Ha) as (t & nd & Hin & Hn & H0 & Hk).
      destruct (Hts start ts t ltac:(left) Hin) as (l & Hl & Hc).
      destruct (nCommitted_spec n l t idx Hl Hc) as (cmd' & Hn' & Happ & Hcmd). rewrite Hn in Hn'.
      injection Hn' as -> <-. exists start, ts, t, s', l. split; [left|]. split; [done|]. split.
      { destruct (round_robin_elem n s n s') as [|Hn0]; [|done|].
        - rewrite Htl, !elem_of_app, list_elem_of_singleton. tauto.
        - subst n. by destruct tried'. }
      split; [done|]. split; [done|].
      exists (filter (fun i => is_Some (logs_at t i idx)) (seq 0 n)).
      split; [apply NoDup_filter, NoDup_seq|]. split; [intros He; by rewrite He in H0|].
      split; [done|]. intros j [Hj [_ Hjn]%elem_of_seq]%list_elem_of_filter. split; [lia|].
      apply Happ in Hj as [v Hv]. by rewrite (Hcmd j v Hv).
  - destruct (IH s' Hone ltac:(intros st ts' t' Hin; apply (Hts st ts' t'); by right)) as (st & ts' & t & j & l & Hin & Hrest).
    exists st, ts', t, j, l. split; [by right|done].
Qed.

(** ** What the tests see of the cluster *)

(** The apply checker against executions of the cluster: it stops the test
    on the execution in which two servers apply different commands, but accepts
    one in which a new leader applies a committed entry a second time, since it
    only compares values and looks one index back. *)
Theorem checker_sees_disagreement_not_repeats :
  (exists cl, reachable 3 cl /\ check_applied (delivered cl) (new_tester 3) = Crash LogFatal) /\
  (exists cl t l1 l2 x, reachable 3 cl /\ check_applied (delivered cl) (new_tester 3) = Ret t /\
     delivered cl = l1 ++ l2 /\ CommandValid x.2 = true /\ x ∈ l1 /\ x ∈ l2).
Proof.
  split.
  - exists (outcome_of two_commands). split; [apply outcome_reachable; vm_compute; reflexivity|].
    vm_compute. reflexivity.
  - eexists (outcome_of new_leader), _,
      [(0%nat, mkApply true (IString "A") 1); (1%nat, mkApply true (IString "A") 1); (2%nat, mkApply true (IString "A") 1)],
      [(1%nat, mkApply true (IString "A") 1); (1%nat, mkApply true (IString "B") 2)],
      (1%nat, mkApply true (IString "A") 1).
    split; [apply outcome_reachable; vm_compute; reflexivity|].
    split; [vm_compute; reflexivity|]. split; [vm_compute; reflexivity|].
    split; [reflexivity|]. split; [right; left|left].
Qed.

(** ** Witnesses *)

Definition ex_applied : list (nat * ApplyMsg) :=
  [(0%nat, mkApply true (IString "A") 1); (1%nat, mkApply true (IString "A") 1);
   (1%nat, mkApply true (IString "B") 2); (0%nat, mkApply false INil 0)].

Lemma ex_applied_bound : Forall (fun x : nat * ApplyMsg => x.1 < 3)%nat ex_applied.
Proof. repeat constructor. Qed.

Lemma apply_checker_exact_witness :
  returns (check_applied ex_applied (new_tester 3)) = true /\ agreement ex_applied /\ in_order ex_applied.
Proof.
  split; [vm_compute; reflexivity|].
  destruct (apply_checker_exact 3 ex_applied ex_applied_bound) as ([[Ha Ho] _] & _ & _).
  { eexists. vm_compute. reflexivity. }
  split; [exact Ha|exact Ho].
Defined.

Lemma nCommitted_counts_witness :
  exists t, check_applied ex_applied (new_tester 3) = Ret t /\ nCommitted 1 t = Ret (2, IString "A") /\
    forall v, applied ex_applied 1 1 v -> IString "A" = v.
Proof.
  eexists. split; [vm_compute; reflexivity|]. split; [vm_compute; reflexivity|]. intros v.
  destruct (nCommitted_counts 3 ex_applied _ 1 ex_applied_bound eq_refl) as (cmd & Hc & _ & Hall).
  vm_compute in Hc. injection Hc as <-. apply Hall.
Defined.

Definition ex_readings : list reading :=
  [mkReading true 3 true; mkReading true 4 false; mkReading true 4 true; mkReading false 5 true].

Lemma checkOneLeader_exact_witness :
  let order := map_to_list (leaders_by_term 0 ex_readings ∅) in
  one_leader ex_readings order = Ret (Some 2%nat) /\ exists t, leads ex_readings 2 t.
Proof.
  intros order. assert (one_leader ex_readings order = Ret (Some 2%nat)) as Hone by (vm_compute; reflexivity).
  split; [exact Hone|].
  destruct (checkOneLeader_exact ex_readings order) as (_ & _ & H & _); [unfold visits, order; reflexivity|repeat constructor; discriminate|].
  destruct (H 2%nat Hone) as (t & Ht & _). by exists t.
Defined.

Definition ex_start (i : nat) : option (Z * bool) :=
  match i with 0%nat => Some (2, true) | 1%nat => Some (-1, false) | _ => None end.

Lemma one_tries_every_server_witness :
  try_servers 3 3 0 ex_start = (Some 2, 0%nat, [1%nat; 2%nat; 0%nat]) /\ NoDup [1%nat; 2%nat; 0%nat].
Proof.
  split; [reflexivity|]. exact (proj1 (one_tries_every_server 3 0 ex_start _ _ _ eq_refl)).
Defined.

Lemma one_means_agreement_witness :
  exists t, one 3 (IString "A") 2 false 0 [((fun _ => Some (1, true)), [new_tester 3; t])] = Ret 1 /\
    exists l servers, 2 <= zlen servers /\ forall j, j ∈ servers -> (j < 3)%nat /\ applied l j 1 (IString "A").
Proof.
  assert (exists t, check_applied ex_applied (new_tester 3) = Ret t /\
    one 3 (IString "A") 2 false 0 [((fun _ => Some (1, true)), [new_tester 3; t])] = Ret 1) as (t & Ht & Hone)
    by (eexists; split; vm_compute; reflexivity).
  exists t. split; [exact Hone|].
  destruct (one_means_agreement 3 (IString "A") 2 false 0 _ 1 Hone)
    as (_ & _ & _ & _ & l & _ & _ & _ & _ & _ & servers & _ & _ & Hk & Hall).
  - intros start ts t' Hin Ht'. apply list_elem_of_singleton in Hin. injection Hin as -> ->.
    apply elem_of_cons in Ht' as [->|Ht']; [|apply list_elem_of_singleton in Ht' as ->].
    + exists []. split; [constructor|reflexivity].
    + exists ex_applied. split; [exact ex_applied_bound|exact Ht].
  - by exists l, servers.
Defined.
