(* ===== verification/RaftNames.v ===== *)
(** * RaftNames: the random names and seeds of the harness

    Models [randstring] and [makeSeed] of [raft-demo/src/raft/config.go], with
    the part of [encoding/base64] that [randstring] uses.  The bytes and the
    number that [crypto/rand] returns are arguments. *)
From Stdlib Require Import Ascii.
From S2P Require Import Prelude.

(** ** [base64.URLEncoding] *)

(** The digits: letters, figures, "-" and "_". *)
Definition digit64 (n : Z) : ascii :=
  ascii_of_nat (Z.to_nat (
    if decide (n < 26) then 65 + n
    else if decide (n < 52) then 97 + (n - 26)
    else if decide (n < 62) then 48 + (n - 52)
    else if decide (n = 62) then 45 else 95)).

Definition pad : ascii := "="%char.

(** Three bytes become four digits; a rest of one or two bytes is padded. *)
Fixpoint EncodeToString (b : list Z) : list ascii :=
  match b with
  | x :: y :: z :: b =>
      digit64 (Z.shiftr x 2) :: digit64 (Z.lor (Z.shiftl (Z.land x 3) 4) (Z.shiftr y 4)) ::
      digit64 (Z.lor (Z.shiftl (Z.land y 15) 2) (Z.shiftr z 6)) :: digit64 (Z.land z 63) :: EncodeToString b
  | [x; y] =>
      [digit64 (Z.shiftr x 2); digit64 (Z.lor (Z.shiftl (Z.land x 3) 4) (Z.shiftr y 4));
       digit64 (Z.shiftl (Z.land y 15) 2); pad]
  | [x] => [digit64 (Z.shiftr x 2); digit64 (Z.shiftl (Z.land x 3) 4); pad; pad]
  | [] => []
  end.

(** [b] are the [2 * n] bytes that [crand.Read] fills. *)
Definition randstring (n : Z) (b : list Z) : outcome string :=
  String.string_of_list_ascii <$> go_prefix (EncodeToString b) n.

(** [bigx] is what [crand.Int] draws below [2 ^ 62]; [Int64] takes its low bits. *)
Definition makeSeed (bigx : Z) : Z := wrap64 bigx.

(** ** What they promise *)

Definition is_byte (x : Z) : Prop := 0 <= x < 256.

(** How many of the characters carry data. *)
Fixpoint digits (b : list Z) : nat :=
  match b with
  | _ :: _ :: _ :: b => 4 + digits b
  | [_; _] => 3
  | [_] => 2
  | [] => 0
  end.

(** Induction in steps of three. *)
Lemma list_ind3 (P : list Z -> Prop) :
  P [] -> (forall x, P [x]) -> (forall x y, P [x; y]) ->
  (forall x y z b, P b -> P (x :: y :: z :: b)) -> forall b, P b.
Proof.
  intros H0 H1 H2 H3. enough (forall b, P b /\ (forall x, P (x :: b)) /\ (forall x y, P (x :: y :: b))) as H
    by (intros b; apply H).
  induction b as [|z b (IH0 & IH1 & IH2)]; split_and!; auto.
Qed.

Lemma digits_enough b : (length b <= digits b <= length (EncodeToString b))%nat.
Proof. induction b as [|x|x y|x y z b IH] using list_ind3; cbn [digits EncodeToString length]; lia. Qed.

(** Divisions by constants. *)
Ltac divlia := Z.to_euclidean_division_equations; lia.

(** Bits that do not overlap add up. *)
Lemma lor_add a b k : 0 <= k -> 0 <= b < 2 ^ k -> Z.lor (Z.shiftl a k) b = a * 2 ^ k + b.
Proof.
  intros Hk Hb. rewrite <- Z.shiftl_mul_pow2 by done. symmetry.
  assert (Z.land (Z.shiftl a k) b = 0) as Hl.
  { apply Z.bits_inj'. intros i Hi. rewrite Z.land_spec, Z.bits_0. destruct (decide (i < k)) as [Hlt|Hge].
    - by rewrite Z.shiftl_spec_low.
    - destruct (decide (b = 0)) as [->|Hnz]; [by rewrite Z.bits_0, andb_false_r|].
      rewrite (Z.bits_above_log2 b i), andb_false_r; [done|lia|]. apply Z.log2_lt_pow2; [lia|].
      eapply Z.lt_le_trans; [apply Hb|]. apply Z.pow_le_mono_r; lia. }
  rewrite <- Z.lxor_lor by done. by rewrite Z.add_nocarry_lxor.
Qed.

(** The sextets of three bytes, as numbers. *)
Lemma sextets x y z :
  is_byte x -> is_byte y -> is_byte z ->
  Z.shiftr x 2 = x / 4 /\ Z.lor (Z.shiftl (Z.land x 3) 4) (Z.shiftr y 4) = (x mod 4) * 16 + y / 16 /\
  Z.lor (Z.shiftl (Z.land y 15) 2) (Z.shiftr z 6) = (y mod 16) * 4 + z / 64 /\ Z.land z 63 = z mod 64.
Proof.
  unfold is_byte. intros Hx Hy Hz. change 3 with (Z.ones 2). change 15 with (Z.ones 4). change 63 with (Z.ones 6).
  rewrite !Z.land_ones, !Z.shiftr_div_pow2 by lia. rewrite !lor_add.
  - done.
  - lia.
  - change (2 ^ 6) with 64. change (2 ^ 2) with 4. divlia.
  - lia.
  - change (2 ^ 4) with 16. divlia.
Qed.

Definition is_digit64 (c : ascii) : Prop := exists n, 0 <= n < 64 /\ c = digit64 n.

Lemma digit64_inj m n : 0 <= m < 64 -> 0 <= n < 64 -> digit64 m = digit64 n -> m = n.
Proof.
  intros Hm Hn. unfold digit64. intros H. apply (f_equal nat_of_ascii) in H.
  rewrite !nat_ascii_embedding in H by (repeat case_decide; lia). repeat case_decide; lia.
Qed.

Lemma digit64_is m : 0 <= m < 64 -> is_digit64 (digit64 m).
Proof. intros Hm. by exists m. Qed.

(** The characters that carry data are digits. *)
Lemma data_digits b : Forall is_byte b -> Forall is_digit64 (take (digits b) (EncodeToString b)).
Proof.
  assert (is_byte 0) as H0 by (unfold is_byte; lia).
  induction b as [|x|x y|x y z b IH] using list_ind3; intros Hb; cbn [EncodeToString digits].
  - constructor.
  - apply (Forall_singleton is_byte) in Hb as Hx. destruct (sextets x 0 0 Hx H0 H0) as (E1 & E2 & _).
    change (Z.shiftr 0 4) with 0 in E2. rewrite Z.lor_0_r in E2. rewrite E1, E2. unfold is_byte in Hx.
    repeat (apply Forall_cons; split; [apply digit64_is; divlia|]). constructor.
  - apply Forall_cons in Hb as [Hx Hy%(Forall_singleton is_byte)]. destruct (sextets x y 0 Hx Hy H0) as (E1 & E2 & E3 & _).
    change (Z.shiftr 0 6) with 0 in E3. rewrite Z.lor_0_r in E3. rewrite E1, E2, E3. unfold is_byte in Hx, Hy.
    repeat (apply Forall_cons; split; [apply digit64_is; divlia|]). constructor.
  - do 3 (apply Forall_cons in Hb as [? Hb]).
    destruct (sextets x y z) as (-> & -> & -> & ->); [done..|]. unfold is_byte in *. cbn [Nat.add take].
    repeat (apply Forall_cons; split; [apply digit64_is; divlia|]). by apply IH.
Qed.

(** Four digits determine three bytes. *)
Lemma EncodeToString_inj k b b' :
  Forall is_byte b -> Forall is_byte b' -> (3 * k <= length b)%nat -> (3 * k <= length b')%nat ->
  take (4 * k) (EncodeToString b) = take (4 * k) (EncodeToString b') -> take (3 * k) b = take (3 * k) b'.
Proof.
  revert b b'. induction k as [|k IH]; intros b b' Hb Hb' Hl Hl' He; [done|].
  destruct b as [|x [|y [|z b]]], b' as [|x' [|y' [|z' b']]]; cbn in Hl, Hl'; try lia.
  replace (4 * S k)%nat with (S (S (S (S (4 * k))))) in He by lia.
  replace (3 * S k)%nat with (S (S (S (3 * k)))) by lia.
  do 3 (apply Forall_cons in Hb as [? Hb]). do 3 (apply Forall_cons in Hb' as [? Hb']).
  cbn [EncodeToString take] in He |- *. destruct (sextets x y z) as (E1 & E2 & E3 & E4); [done..|].
  destruct (sextets x' y' z') as (F1 & F2 & F3 & F4); [done..|].
  rewrite E1, E2, E3, E4, F1, F2, F3, F4 in He. injection He as G1 G2 G3 G4 He. unfold is_byte in *.
  apply digit64_inj in G1, G2, G3, G4; try divlia.
  assert (x = x' /\ y = y' /\ z = z') as (-> & -> & ->) by (split_and!; divlia).
  f_equal. f_equal. f_equal. apply IH; try done; lia.
Qed.

(** [randstring] never indexes past its encoding; the name has the length asked
    for and consists of digits only, none of it padding; and two names of
    [4 * k] characters are different unless the first [3 * k] random bytes
    are the same. *)
Theorem randstring_names n b :
  0 <= n -> zlen b = 2 * n -> Forall is_byte b ->
  exists s, randstring n b = Ret s /\ Z.of_nat (String.length s) = n /\
    Forall is_digit64 (String.list_ascii_of_string s) /\
    forall k b', n = 4 * Z.of_nat k -> length b' = length b -> Forall is_byte b' ->
      randstring n b' = Ret s -> take (3 * k) b = take (3 * k) b'.
Proof.
  intros Hn Hl Hb. unfold randstring, go_prefix, zlen in *. pose proof (digits_enough b) as Hd.
  assert (forall l : list ascii, String.length (String.string_of_list_ascii l) = length l) as Hlen
    by (induction l as [|c l IH]; cbn; congruence).
  rewrite decide_True by lia. eexists. split; [reflexivity|]. split_and!.
  - rewrite Hlen, length_take. lia.
  - rewrite String.list_ascii_of_string_of_list_ascii.
    replace (Z.to_nat n) with (Z.to_nat n `min` digits b)%nat by lia. rewrite <- take_take.
    by apply Forall_take, data_digits.
  - intros k b' -> Hl' Hb'. pose proof (digits_enough b') as Hd'. rewrite decide_True by lia. intros He.
    apply (inj Ret) in He. apply (f_equal String.list_ascii_of_string) in He.
    rewrite !String.list_ascii_of_string_of_list_ascii in He.
    replace (Z.to_nat (4 * Z.of_nat k)) with (4 * k)%nat in He by lia.
    apply EncodeToString_inj; try done; lia.
Qed.

Lemma randstring_names_witness : exists s, randstring 4 [72; 101; 108; 108; 111; 255; 0; 1] = Ret s /\ s = "SGVs".
Proof.
  destruct (randstring_names 4 [72; 101; 108; 108; 111; 255; 0; 1]) as (s & Hs & _);
    [lia|reflexivity|unfold is_byte; repeat constructor; lia|].
  exists s. split; [exact Hs|]. vm_compute in Hs. by injection Hs as <-.
Defined.
