(* ===== verification/RaftConfig.v ===== *)
(** * RaftConfig: the cluster that the Raft tests set up

    Models the rest of [raft-demo/src/raft/config.go] over the network of
    [LabRpc] and the observations of [RaftChecker]: [make_config], [start1],
    [connect], [disconnect], [cleanup], the time limit, the settings of the
    network and the statistics of [begin] and [end].  The end names ([randstring]
    of [RaftNames]) and the [Raft] objects that [Make] returns are arguments. *)
From stdpp Require Import gmap.
From S2P Require Import Prelude LabRpc RaftNode RaftChecker.

#[local] Open Scope Z_scope.

(** [for j := range js] *)
Fixpoint for_each {St : Type} (js : list nat) (body : nat -> St -> outcome St) (s : St) : outcome St :=
  match js with
  | [] => Ret s
  | j :: js => s' ← body j s; for_each js body s'
  end.

Section config.
Context {obj ptr A : Type} {CA : Codec A} (methods_of_Raft : list (@method obj A)).

(** An [obj] is what a [*Raft] points to, as the network sees it, and [ref] is
    that pointer. *)
Context (ref : obj -> ptr).

#[local] Abbreviation network := (@Network obj A).

Record config : Type := mkConfig {
  net : network;
  n : nat;
  rafts : list (option ptr);
  connected : list bool;
  endnames : list (option (list string));
  checker : tester;                          (** [logs] and [maxIndex] *)
  rpcs0 : Z;
  cmds0 : Z;
  bytes0 : Z;
  maxIndex0 : Z;
}.

Definition set_net x (c : config) : config :=
  mkConfig x (n c) (rafts c) (connected c) (endnames c) (checker c) (rpcs0 c) (cmds0 c) (bytes0 c) (maxIndex0 c).
Definition set_rafts x (c : config) : config :=
  mkConfig (net c) (n c) x (connected c) (endnames c) (checker c) (rpcs0 c) (cmds0 c) (bytes0 c) (maxIndex0 c).
Definition set_connected x (c : config) : config :=
  mkConfig (net c) (n c) (rafts c) x (endnames c) (checker c) (rpcs0 c) (cmds0 c) (bytes0 c) (maxIndex0 c).
Definition set_endnames x (c : config) : config :=
  mkConfig (net c) (n c) (rafts c) (connected c) x (checker c) (rpcs0 c) (cmds0 c) (bytes0 c) (maxIndex0 c).
Definition set_checker x (c : config) : config :=
  mkConfig (net c) (n c) (rafts c) (connected c) (endnames c) x (rpcs0 c) (cmds0 c) (bytes0 c) (maxIndex0 c).

Definition setunreliable (unrel : bool) (c : config) : config := set_net (Reliable (negb unrel) (net c)) c.
Definition setlongreordering (longrel : bool) (c : config) : config :=
  set_net (LongReordering longrel (net c)) c.
Definition rpcCount (server : Z) (c : config) : outcome Z := GetCount (IInt server) (net c).
Definition rpcTotal (c : config) : Z := GetTotalCount (net c).
Definition bytesTotal (c : config) : Z := GetTotalBytes (net c).

(** ** [start1] *)

(** Lines 117-120: the ends of server [i], to every server [j]. *)
Definition make_end (fresh : list string) (j : nat) (nt : network) : outcome network :=
  name ← go_index fresh (Z.of_nat j);
  nt ← MakeEnd (IString name) nt;
  Ret (Connect (IString name) (IInt (Z.of_nat j)) nt).

(** [fresh] are the new random names, [rf] what [Make] returns. *)
Definition start1 (i : nat) (fresh : list string) (rf : obj) (c : config) : outcome config :=
  names ← go_store (endnames c) (Z.of_nat i) (Some fresh);
  nt ← for_each (seq 0 (n c)) (make_end fresh) (net c);
  started ← go_store (rafts c) (Z.of_nat i) (Some (ref rf));
  let srv := AddService (MakeService "Raft" rf methods_of_Raft) MakeServer in
  let addr := length (heap nt) in
  Ret (set_rafts started (set_endnames names
         (set_net (AddServer (IInt (Z.of_nat i)) addr (set_heap (heap nt ++ [srv]) nt)) c))).

(** ** [connect] and [disconnect] *)

(** [cfg.net.Enable(cfg.endnames[i][j], on)] *)
Definition enable_end (c : config) (i j : nat) (on : bool) (nt : network) : outcome network :=
  row ← go_index (endnames c) (Z.of_nat i);
  name ← go_index (default [] row) (Z.of_nat j);
  Ret (Enable (IString name) on nt).

Definition enable_if_connected (c : config) (i j peer : nat) (nt : network) : outcome network :=
  up ← go_index (connected c) (Z.of_nat peer);
  if up : bool then enable_end c i j true nt else Ret nt.

Definition connect (i : nat) (c : config) : outcome config :=
  up ← go_store (connected c) (Z.of_nat i) true;
  let c := set_connected up c in
  nt ← for_each (seq 0 (n c)) (fun j => enable_if_connected c i j j) (net c);
  nt ← for_each (seq 0 (n c)) (fun j => enable_if_connected c j i j) nt;
  Ret (set_net nt c).

Definition disable_if_named (c : config) (i j named : nat) (nt : network) : outcome network :=
  row ← go_index (endnames c) (Z.of_nat named);
  match row with
  | Some _ => enable_end c i j false nt
  | None => Ret nt
  end.

Definition disconnect (i : nat) (c : config) : outcome config :=
  up ← go_store (connected c) (Z.of_nat i) false;
  let c := set_connected up c in
  nt ← for_each (seq 0 (n c)) (fun j => disable_if_named c i j i) (net c);
  nt ← for_each (seq 0 (n c)) (fun j => disable_if_named c j i j) nt;
  Ret (set_net nt c).

(** ** [make_config], [begin] and [end] *)

Definition empty_config (size : nat) : config :=
  {| net := MakeNetwork; n := size; rafts := repeat None size; connected := repeat false size; endnames := repeat None size;
     checker := new_tester size; rpcs0 := 0; cmds0 := 0; bytes0 := 0; maxIndex0 := 0 |}.

(** [names i] are the random names of [start1 i], [Make i] is its server. *)
Definition make_config (size : nat) (unreliable : bool) (names : nat -> list string) (Make : nat -> obj)
    : outcome config :=
  let c := setunreliable unreliable (empty_config size) in
  let c := set_net (LongDelays true (net c)) c in
  c ← for_each (seq 0 size) (fun i => start1 i (names i) (Make i)) c;
  for_each (seq 0 size) connect c.

Definition begin (c : config) : config :=
  mkConfig (net c) (n c) (rafts c) (connected c) (endnames c) (checker c) (rpcTotal c) 0 (bytesTotal c)
    (maxIndex (checker c)).

(** [elapsed] is [time.Since(cfg.start)] in nanoseconds, [failed] is [cfg.t.Failed()]. *)
Definition checkTimeout (failed : bool) (elapsed : Z) : outcome unit :=
  if negb failed && bool_decide (120 * 10 ^ 9 < elapsed) then Crash TestFatal else Ret ().

(** What [end] prints of a test that has not failed: servers, RPCs, bytes,
    agreements. *)
Definition end_ (failed : bool) (elapsed : Z) (c : config) : outcome (option (Z * Z * Z * Z)) :=
  _ ← checkTimeout failed elapsed;
  Ret (if failed then None
       else Some (Z.of_nat (n c), rpcTotal c - rpcs0 c, bytesTotal c - bytes0 c,
                  maxIndex (checker c) - maxIndex0 c)).

(** [servers] are what [cfg.rafts] points to, nil where none was started. *)
Definition cleanup (servers : list (option Raft)) (failed : bool) (elapsed : Z) (c : config)
    : outcome (list (option Raft) * config) :=
  let servers := map (fmap Kill) servers in
  nt ← Cleanup (net c);
  _ ← checkTimeout failed elapsed;
  Ret (servers, set_net nt c).

(** ** What a test can do *)

Inductive op : Type :=
  | OConnectServer (i : nat)
  | ODisconnect (i : nat)
  | OStart (i : nat) (fresh : list string) (rf : obj)
  | OSetUnreliable (unrel : bool)
  | OSetLongReordering (longrel : bool)
  | OBegin
  | OApplied (i : nat) (m : ApplyMsg)        (* server [i] applies an entry *)
  | ONet (e : @event obj A).                 (* the network makes a step *)

Definition run_op (o : op) (c : config) : outcome config :=
  match o with
  | OConnectServer i => connect i c
  | ODisconnect i => disconnect i c
  | OStart i fresh rf => start1 i fresh rf c
  | OSetUnreliable b => Ret (setunreliable b c)
  | OSetLongReordering b => Ret (setlongreordering b c)
  | OBegin => Ret (begin c)
  | OApplied i m => t ← apply_check i m (checker c); Ret (set_checker t c)
  | ONet e => nt ← exec e (net c); Ret (set_net nt c)
  end.

Definition is_connected (c : config) (i : nat) : bool := default false (connected c !! i).

(** Names that [randstring] can return: no name twice. *)
Definition fresh_names (size : nat) (fresh : list string) (nt : network) : Prop :=
  length fresh = size /\ NoDup fresh /\ Forall (fun s => IString s ∉ ends nt) fresh.
#[export] Instance fresh_names_dec size fresh nt : Decision (fresh_names size fresh nt).
Proof. unfold fresh_names. apply _. Defined.

(** Servers exist; a server is disconnected before it is started again; the
    operations of the network are those of [run_op]. *)
Definition allowed (o : op) (c : config) : bool :=
  match o with
  | OConnectServer i | ODisconnect i => bool_decide (i < n c)%nat
  | OStart i fresh _ =>
      bool_decide (i < n c)%nat && negb (is_connected c i) && bool_decide (fresh_names (n c) fresh (net c))
  | ONet (EAdmin _) => false
  | _ => true
  end.

Definition distinct_names (size : nat) (names : nat -> list string) : Prop :=
  (forall i, (i < size)%nat -> length (names i) = size) /\ NoDup (concat (names <$> seq 0 size)).

Inductive config_reachable (size : nat) : config -> Prop :=
  | config_make unreliable names Make c :
      distinct_names size names -> make_config size unreliable names Make = Ret c ->
      config_reachable size c
  | config_op o c c' :
      config_reachable size c -> allowed o c = true -> run_op o c = Ret c' -> config_reachable size c'.

(** ** The loops over the servers *)

Lemma for_each_app {St} (l1 l2 : list nat) (f : nat -> St -> outcome St) s :
  for_each (l1 ++ l2) f s = (s' ← for_each l1 f s; for_each l2 f s').
Proof.
  revert s. induction l1 as [|j l1 IH]; intros s; cbn; [done|].
  destruct (f j s); cbn; [apply IH|done..].
Qed.

(** An invariant of the loop that each turn establishes for one more index. *)
Lemma for_each_ind {St} (P : nat -> St -> Prop) (f : nat -> St -> outcome St) k s :
  P 0%nat s -> (forall j s, (j < k)%nat -> P j s -> exists s', f j s = Ret s' /\ P (S j) s') ->
  exists s', for_each (seq 0 k) f s = Ret s' /\ P k s'.
Proof.
  intros H0 Hstep. induction k as [|k IH]; [by exists s|].
  destruct IH as (s' & E & Hk). { intros j s' Hj. apply Hstep. lia. }
  destruct (Hstep k s' ltac:(lia) Hk) as (s'' & E' & Hk').
  exists s''. rewrite seq_S, for_each_app, E. cbn. by rewrite E'.
Qed.

(** ** The invariant *)

(** The name of the end of [i] to [j]. *)
Definition end_name (c : config) (i j : nat) : option string :=
  row ← endnames c !! i; names ← row; names !! j.

Definition is_enabled (nt : network) (s : string) : bool := default false (enabled nt !! IString s).

(** The server at [addr] has one service that hands requests to the object
    [p], by the methods of [Raft]. *)
Definition serves (nt : network) (addr : nat) (p : ptr) : Prop :=
  exists rs svc, heap nt !! addr = Some rs /\ services rs !! "Raft" = Some svc /\
    methods svc = methods (MakeService "Raft" (rcvr svc) methods_of_Raft) /\ ref (rcvr svc) = p.

Record config_ok (c : config) : Prop := {
  ok_connected : length (connected c) = n c;
  ok_rows : length (endnames c) = n c;
  ok_rafts : length (rafts c) = n c;
  ok_row i names : endnames c !! i = Some (Some names) -> length names = n c;
  ok_up i : is_connected c i = true -> exists names, endnames c !! i = Some (Some names);
  ok_inj i j i' j' s : end_name c i j = Some s -> end_name c i' j' = Some s -> i = i' /\ j = j';
  ok_end i j s : end_name c i j = Some s ->
    IString s ∈ ends (net c) /\ connections (net c) !! IString s = Some (IInt (Z.of_nat j)) /\
    is_enabled (net c) s = is_connected c i && is_connected c j;
  ok_old e : (forall i j s, end_name c i j = Some s -> e <> IString s) ->
    default false (enabled (net c) !! e) = false;
  ok_server i names : endnames c !! i = Some (Some names) ->
    exists addr p, servers (net c) !! IInt (Z.of_nat i) = Some (Some addr) /\
      rafts c !! i = Some (Some p) /\ serves (net c) addr p;
}.

(** ** [connect] and [disconnect] *)

Lemma enable_loop (f : nat -> network -> outcome network) on (name : nat -> option string) k nt0 :
  (forall j nt, (j < k)%nat ->
     f j nt = Ret (match name j with Some s => Enable (IString s) on nt | None => nt end)) ->
  exists nt', for_each (seq 0 k) f nt0 = Ret nt' /\ nt' = set_enabled (enabled nt') nt0 /\
    forall e, enabled nt' !! e =
      if decide (e ∈ IString <$> omap name (seq 0 k)) then Some on else enabled nt0 !! e.
Proof.
  intros Hf. refine (for_each_ind (fun i nt => nt = set_enabled (enabled nt) nt0 /\
    forall e, enabled nt !! e =
      if decide (e ∈ IString <$> omap name (seq 0 i)) then Some on else enabled nt0 !! e) f k nt0 _ _).
  - split; [by destruct nt0|]. intros e. rewrite decide_False; [done|apply not_elem_of_nil].
  - intros j nt Hj [Hnt He]. eexists. split; [by apply Hf|].
    rewrite seq_S, omap_app, fmap_app. cbn [Nat.add omap list_omap]. destruct (name j) as [s|].
    + split; [by rewrite Hnt|]. intros e. unfold Enable, set_enabled. cbn [enabled].
      destruct (decide (e = IString s)) as [->|Hne].
      * rewrite lookup_insert_eq, decide_True; [done|]. set_solver.
      * rewrite lookup_insert_ne, He by congruence. apply decide_ext. set_solver.
    + cbn. rewrite app_nil_r. by split.
Qed.

(** Two loops, one after the other. *)
Lemma enable_loops (f g : nat -> network -> outcome network) on (name1 name2 : nat -> option string) k nt0 :
  (forall j nt, (j < k)%nat ->
     f j nt = Ret (match name1 j with Some s => Enable (IString s) on nt | None => nt end)) ->
  (forall j nt, (j < k)%nat ->
     g j nt = Ret (match name2 j with Some s => Enable (IString s) on nt | None => nt end)) ->
  exists nt', (nt ← for_each (seq 0 k) f nt0; for_each (seq 0 k) g nt) = Ret nt' /\
    nt' = set_enabled (enabled nt') nt0 /\
    (forall s, (exists j, (j < k)%nat /\ (name1 j = Some s \/ name2 j = Some s)) ->
       enabled nt' !! IString s = Some on) /\
    (forall e, (forall j s, (j < k)%nat -> name1 j = Some s \/ name2 j = Some s -> e <> IString s) ->
       enabled nt' !! e = enabled nt0 !! e).
Proof.
  intros Hf Hg. destruct (enable_loop f on name1 k nt0 Hf) as (nt1 & -> & E1 & H1).
  destruct (enable_loop g on name2 k nt1 Hg) as (nt2 & E & E2 & H2). exists nt2. rewrite bind_Ret_l.
  split; [done|]. split; [by rewrite E2, E1|].
  assert (forall name e, e ∈ IString <$> omap name (seq 0 k) <->
    exists j s, (j < k)%nat /\ name j = Some s /\ e = IString s) as Hin.
  { intros name e. rewrite list_elem_of_fmap. setoid_rewrite list_elem_of_omap.
    setoid_rewrite elem_of_seq. split.
    - intros (s & -> & j & Hj & Hn). exists j, s. by split_and!; [lia|..].
    - intros (j & s & Hj & Hn & ->). exists s. split; [done|]. exists j. by split; [lia|]. }
  split.
  - intros s (j & Hj & Hn). rewrite H2. case_decide as Hd; [done|]. rewrite H1. apply decide_True.
    apply Hin. destruct Hn as [Hn|Hn]; [by exists j, s|]. exfalso. apply Hd, Hin. by exists j, s.
  - intros e He. rewrite H2, decide_False; [rewrite H1, decide_False; [done|]|].
    all: rewrite Hin; intros (j & s & Hj & Hn & ->); apply (He j s Hj); by auto.
Qed.

Lemma lookup_rows c i :
  length (endnames c) = n c -> (i < n c)%nat -> exists row, endnames c !! i = Some row.
Proof. intros Hl Hi. destruct (lookup_lt_is_Some_2 (endnames c) i) as [row Hr]; [lia|by exists row]. Qed.

Definition all_rows (c : config) : Prop :=
  forall i, (i < n c)%nat -> exists names, endnames c !! i = Some (Some names).

Lemma end_name_total c i j names :
  config_ok c -> (j < n c)%nat -> endnames c !! i = Some (Some names) -> exists s, end_name c i j = Some s.
Proof.
  intros Hc Hj Hi. pose proof (ok_row c Hc i names Hi) as Hl. unfold end_name. rewrite Hi. cbn.
  apply lookup_lt_is_Some_2. lia.
Qed.

Lemma enable_end_spec c i j on nt s :
  end_name c i j = Some s -> enable_end c i j on nt = Ret (Enable (IString s) on nt).
Proof.
  unfold end_name, enable_end. intros He. destruct (endnames c !! i) as [row|] eqn:Hi; [|done].
  rewrite (go_index_nat _ _ _ Hi). destruct row as [names|]; [|done]. cbn in *.
  by rewrite (go_index_nat _ _ _ He).
Qed.

Lemma is_connected_insert c i b j :
  (i < length (connected c))%nat ->
  is_connected (set_connected (<[i := b]> (connected c)) c) j = if decide (i = j) then b else is_connected c j.
Proof.
  intros Hi. unfold is_connected. cbn. case_decide as Hd; [subst j|].
  - by rewrite list_lookup_insert_eq.
  - by rewrite list_lookup_insert_ne.
Qed.

(** Server [i] is put [on] or off the net; all its ends to and from the
    connected servers, or to and from all, have followed. *)
Lemma toggle_ok c i on nt' :
  config_ok c -> (i < n c)%nat -> (on = true -> exists names, endnames c !! i = Some (Some names)) ->
  let c' := set_connected (<[i := on]> (connected c)) c in
  let touched s := exists j, (j < n c)%nat /\ (on = true -> is_connected c' j = true) /\
                     (end_name c i j = Some s \/ end_name c j i = Some s) in
  nt' = set_enabled (enabled nt') (net c) ->
  (forall s, touched s -> enabled nt' !! IString s = Some on) ->
  (forall e, (forall s, touched s -> e <> IString s) -> enabled nt' !! e = enabled (net c) !! e) ->
  config_ok (set_net nt' c').
Proof.
  intros Hc Hi Hrow c' touched Hnt Hon Hoff.
  assert (length (connected c) = n c) as Hlen by apply Hc.
  assert (forall j, is_connected (set_net nt' c') j = if decide (i = j) then on else is_connected c j) as Hconn.
  { intros j. rewrite <- is_connected_insert by lia. done. }
  assert (forall a b s, end_name (set_net nt' c') a b = Some s -> end_name c a b = Some s) as Hname by done.
  assert (connections nt' = connections (net c) /\ ends nt' = ends (net c) /\
    servers nt' = servers (net c) /\ heap nt' = heap (net c)) as (E1 & E2 & E3 & E4)
    by (rewrite Hnt; by split_and!).
  split; cbn [n rafts endnames net set_net c' set_connected].
  - cbn. by rewrite length_insert.
  - apply Hc.
  - apply Hc.
  - apply Hc.
  - intros j. rewrite Hconn. case_decide as Hd; [subst j; exact Hrow|apply Hc].
  - apply Hc.
  - intros a b s Hs. rewrite E1, E2. destruct (ok_end c Hc a b s Hs) as (He & Hcn & Hen).
    split; [done|]. split; [done|].
    assert ((a < n c)%nat /\ (b < n c)%nat) as [Ha Hb].
    { change (end_name c a b = Some s) in Hs. unfold end_name in Hs.
      destruct (endnames c !! a) as [[names|]|] eqn:Hr; [|done..].
      split; [apply lookup_lt_Some in Hr; rewrite (ok_rows c Hc) in Hr; lia|].
      cbn in Hs. apply lookup_lt_Some in Hs. rewrite (ok_row c Hc a names Hr) in Hs. lia. }
    change (end_name c a b = Some s) in Hs.
    assert ((forall s', touched s' -> IString s <> IString s') ->
      is_enabled nt' s = is_connected c a && is_connected c b) as Huntouched.
    { intros Hu. unfold is_enabled. rewrite Hoff by done. exact Hen. }
    destruct (decide (a = i \/ b = i)) as [Hab|Hab].
    + assert (exists o, (o < n c)%nat /\ (a = i /\ b = o \/ a = o /\ b = i) /\
        is_connected (set_net nt' c') a && is_connected (set_net nt' c') b =
          on && is_connected (set_net nt' c') o) as (o & Ho & Heq & ->).
      { assert (is_connected (set_net nt' c') i = on) as Hi' by (rewrite Hconn; by apply decide_True).
        destruct Hab as [->| ->]; [exists b|exists a]; rewrite Hi'; (split; [done|]); split;
          [by left|done|by right|apply andb_comm]. }
      destruct (decide (on = true -> is_connected c' o = true)) as [Hup|Hdown].
      * unfold is_enabled. rewrite Hon.
        -- cbn. destruct on; [|done]. by rewrite (Hup eq_refl : is_connected (set_net nt' c') o = true).
        -- exists o. split; [done|]. split; [done|]. by destruct Heq as [[-> ->]|[-> ->]]; [left|right].
      * assert (on = true /\ is_connected (set_net nt' c') o = false) as [Hont Hof].
        { change (is_connected (set_net nt' c') o) with (is_connected c' o). destruct on, (is_connected c' o); tauto. }
        rewrite Hof, andb_false_r, Huntouched.
        -- rewrite Hconn in Hof. case_decide as Hd; [congruence|].
           destruct Heq as [[-> ->]|[-> ->]]; rewrite Hof; [apply andb_false_r|done].
        -- intros s' (j & Hj & Hup & Hs') [= <-]. specialize (Hup Hont).
           change (is_connected (set_net nt' c') j = true) in Hup.
           assert (j = o) as ->; [|congruence].
           destruct Hs' as [Hs'|Hs']; destruct (ok_inj c Hc _ _ _ _ _ Hs Hs'), Heq as [[]|[]]; congruence.
    + rewrite !Hconn, !decide_False by (intros ->; tauto). apply Huntouched.
      intros s' (j & Hj & _ & Hs') [= <-].
      destruct Hs' as [Hs'|Hs']; destruct (ok_inj c Hc _ _ _ _ _ Hs Hs'); tauto.
  - intros e He. rewrite Hoff; [by apply (ok_old c Hc)|]. intros s (j & _ & _ & [Hs|Hs]); by apply (He _ _ _ Hs).
  - unfold serves. rewrite E3, E4. apply Hc.
Qed.

Lemma connect_ok c i :
  config_ok c -> all_rows c -> (i < n c)%nat ->
  exists c', connect i c = Ret c' /\ config_ok c' /\ all_rows c' /\ n c' = n c /\ rafts c' = rafts c /\
    forall j, is_connected c' j = if decide (i = j) then true else is_connected c j.
Proof.
  intros Hc Hrows Hi. set (c0 := set_connected (<[i := true]> (connected c)) c).
  pose proof (ok_connected c Hc) as Hlen.
  pose (up := fun (a b j : nat) => if is_connected c0 j then end_name c a b else None).
  assert (forall a b j nt, (a < n c)%nat -> (b < n c)%nat -> (j < n c)%nat ->
    enable_if_connected c0 a b j nt =
      Ret (match up a b j with Some s => Enable (IString s) true nt | None => nt end)) as Hstep.
  { intros a b j nt Ha Hb Hj. unfold enable_if_connected, up, is_connected.
    destruct (lookup_lt_is_Some_2 (connected c0) j) as [u Hu]; [cbn; rewrite length_insert; lia|].
    rewrite (go_index_nat _ _ _ Hu), Hu. cbn. destruct u; [|done].
    destruct (Hrows a Ha) as [names Hn]. destruct (end_name_total c a b names Hc Hb Hn) as [s Hs].
    rewrite Hs. by apply enable_end_spec. }
  destruct (enable_loops (fun j => enable_if_connected c0 i j j) (fun j => enable_if_connected c0 j i j) true
    (fun j => up i j j) (fun j => up j i j) (n c) (net c)) as (nt' & Hrun & Hnt & Hon & Hoff);
    [by auto..|].
  exists (set_net nt' c0). split.
  { unfold connect, go_store. rewrite decide_True by (unfold zlen; lia). rewrite Nat2Z.id.
    cbn [mbind outcome_bind]. fold c0. change (n c0) with (n c). change (net c0) with (net c).
    apply bind_Ret in Hrun as (nt1 & E1 & E2). by rewrite E1, bind_Ret_l, E2. }
  split; [|split; [exact Hrows|split; [done|split; [done|]]]].
  - apply (toggle_ok c i true nt' Hc Hi (fun _ => Hrows i Hi) Hnt).
    + intros s (j & Hj & Hup & Hs). apply Hon. exists j. unfold up. split; [done|].
      specialize (Hup eq_refl). fold c0 in Hup. by rewrite Hup.
    + intros e He. apply Hoff. intros j s Hj Hs. apply He. exists j. unfold up in Hs.
      destruct (is_connected c0 j) eqn:Hcj; [by split_and!|by destruct Hs].
  - intros j. rewrite <- is_connected_insert by lia. done.
Qed.

Lemma disconnect_ok c i :
  config_ok c -> all_rows c -> (i < n c)%nat ->
  exists c', disconnect i c = Ret c' /\ config_ok c' /\ all_rows c' /\ n c' = n c /\ rafts c' = rafts c /\
    forall j, is_connected c' j = if decide (i = j) then false else is_connected c j.
Proof.
  intros Hc Hrows Hi. set (c0 := set_connected (<[i := false]> (connected c)) c).
  pose proof (ok_connected c Hc) as Hlen.
  assert (forall a b j nt, (a < n c)%nat -> (b < n c)%nat -> (j < n c)%nat ->
    disable_if_named c0 a b j nt =
      Ret (match end_name c a b with Some s => Enable (IString s) false nt | None => nt end)) as Hstep.
  { intros a b j nt Ha Hb Hj. unfold disable_if_named. change (endnames c0) with (endnames c).
    destruct (Hrows j Hj) as [names Hn]. rewrite (go_index_nat _ _ _ Hn). cbn.
    destruct (Hrows a Ha) as [names' Hn']. destruct (end_name_total c a b names' Hc Hb Hn') as [s Hs].
    rewrite Hs. by apply enable_end_spec. }
  destruct (enable_loops (fun j => disable_if_named c0 i j i) (fun j => disable_if_named c0 j i j) false
    (fun j => end_name c i j) (fun j => end_name c j i) (n c) (net c)) as (nt' & Hrun & Hnt & Hon & Hoff);
    [by auto..|].
  exists (set_net nt' c0). split.
  { unfold disconnect, go_store. rewrite decide_True by (unfold zlen; lia). rewrite Nat2Z.id.
    cbn [mbind outcome_bind]. fold c0. change (n c0) with (n c). change (net c0) with (net c).
    apply bind_Ret in Hrun as (nt1 & E1 & E2). by rewrite E1, bind_Ret_l, E2. }
  split; [|split; [exact Hrows|split; [done|split; [done|]]]].
  - apply (toggle_ok c i false nt' Hc Hi (fun _ => Hrows i Hi) Hnt).
    + intros s (j & Hj & _ & Hs). apply Hon. by exists j.
    + intros e He. apply Hoff. intros j s Hj Hs. apply He. exists j. by split_and!.
  - intros j. rewrite <- is_connected_insert by lia. done.
Qed.

(** ** [start1] *)

Lemma make_ends (fresh : list string) k nt0 :
  NoDup fresh -> length fresh = k -> Forall (fun s => IString s ∉ ends nt0) fresh ->
  exists nt, for_each (seq 0 k) (make_end fresh) nt0 = Ret nt /\
    servers nt = servers nt0 /\ heap nt = heap nt0 /\
    (forall e, e ∈ ends nt <-> e ∈ ends nt0 \/ exists s, s ∈ fresh /\ e = IString s) /\
    (forall j s, fresh !! j = Some s ->
       enabled nt !! IString s = Some false /\ connections nt !! IString s = Some (IInt (Z.of_nat j))) /\
    (forall e, (forall s, s ∈ fresh -> e <> IString s) ->
       enabled nt !! e = enabled nt0 !! e /\ connections nt !! e = connections nt0 !! e).
Proof.
  intros Hnd Hk Hf. set (made := fun i s => exists j, (j < i)%nat /\ fresh !! j = Some s).
  pose (P := fun i (nt : network) => servers nt = servers nt0 /\ heap nt = heap nt0 /\
    (forall e, e ∈ ends nt <-> e ∈ ends nt0 \/ exists s, made i s /\ e = IString s) /\
    (forall j s, (j < i)%nat -> fresh !! j = Some s ->
       enabled nt !! IString s = Some false /\ connections nt !! IString s = Some (IInt (Z.of_nat j))) /\
    (forall e, (forall s, made i s -> e <> IString s) ->
       enabled nt !! e = enabled nt0 !! e /\ connections nt !! e = connections nt0 !! e)).
  destruct (for_each_ind P (make_end fresh) k nt0) as (nt & Hrun & Es & Eh & He & Hn & Ho).
  - split_and!; [done..| | |done].
    + intros e. split; [by left|]. intros [?|(s & (j & Hj & _) & _)]; [done|lia].
    + intros j s Hj. lia.
  - intros i nt Hi (Es & Eh & He & Hn & Ho).
    destruct (lookup_lt_is_Some_2 fresh i) as [s Hs]; [lia|].
    assert (IString s ∉ ends nt) as Hnew.
    { rewrite He. intros [Hin|(s' & (j & Hj & Hs') & [= <-])].
      - rewrite Forall_forall in Hf. by apply (Hf s (list_elem_of_lookup_2 _ _ _ Hs)).
      - pose proof (NoDup_lookup _ _ _ _ Hnd Hs Hs'). lia. }
    assert (forall s', made (S i) s' <-> made i s' \/ s' = s) as Hmade.
    { intros s'. unfold made. split.
      - intros (j & Hj & Hs'). destruct (decide (j = i)) as [->|]; [right; congruence|].
        left. exists j. split; [lia|done].
      - intros [(j & Hj & Hs')| ->]; [exists j|exists i]; split; (lia || done). }
    unfold make_end, MakeEnd. rewrite (go_index_nat _ _ _ Hs). cbn. rewrite decide_False by done. cbn.
    eexists. split; [done|]. unfold P, Connect, set_connections, set_enabled, set_ends. cbn.
    split_and!; [done|done| | |].
    + intros e. rewrite elem_of_union, elem_of_singleton, He. setoid_rewrite Hmade. naive_solver.
    + intros j s' Hj Hs'. destruct (decide (j = i)) as [->|Hji].
      * rewrite Hs in Hs'. injection Hs' as <-. by rewrite !lookup_insert_eq.
      * assert (s <> s') as Hne. { intros <-. by apply Hji, (NoDup_lookup fresh j i s). }
        rewrite !lookup_insert_ne by congruence. apply Hn; [lia|done].
    + intros e Hne. rewrite !lookup_insert_ne by (intros <-; by apply (Hne s), eq_refl; apply Hmade; right).
      apply Ho. intros s' Hs'. apply Hne, Hmade. by left.
  - assert (forall s, made k s <-> s ∈ fresh) as Hmade.
    { intros s. unfold made. rewrite list_elem_of_lookup. split; [intros (j & _ & Hj); by exists j|].
      intros [j Hj]. exists j. split; [|done]. apply lookup_lt_Some in Hj. lia. }
    exists nt. split_and!; [done..| | |].
    + intros e. rewrite He. by setoid_rewrite Hmade.
    + intros j s Hs. apply Hn; [|done]. apply lookup_lt_Some in Hs. lia.
    + intros e Hne. apply Ho. intros s Hs%Hmade. by apply Hne.
Qed.

Lemma start1_ok c i fresh rf :
  config_ok c -> (i < n c)%nat -> is_connected c i = false -> fresh_names (n c) fresh (net c) ->
  exists c', start1 i fresh rf c = Ret c' /\ config_ok c' /\ n c' = n c /\ connected c' = connected c /\
    endnames c' = <[i := Some fresh]> (endnames c) /\
    rafts c' = <[i := Some (ref rf)]> (rafts c) /\
    (forall e, e ∈ ends (net c') <-> e ∈ ends (net c) \/ exists s, s ∈ fresh /\ e = IString s).
Proof.
  intros Hc Hi Hdown (Hlen & Hnd & Hfresh). pose proof (ok_rows c Hc) as Hrows.
  destruct (make_ends fresh (n c) (net c) Hnd Hlen Hfresh) as (nt & Hrun & Es & Eh & He & Hn & Ho).
  pose proof (ok_rafts c Hc) as Hrafts.
  unfold start1, go_store. rewrite !decide_True by (unfold zlen; lia). rewrite Nat2Z.id.
  cbn [mbind outcome_bind]. rewrite Hrun. cbn [mbind outcome_bind].
  eexists. split; [done|]. split; [|by split_and!].
  set (c' := set_rafts _ _).
  assert (forall a b, end_name c' a b = if decide (a = i) then fresh !! b else end_name c a b) as Hname.
  { intros a b. unfold end_name, c'. cbn. case_decide as Hd.
    - subst a. by rewrite list_lookup_insert_eq by lia.
    - by rewrite list_lookup_insert_ne. }
  assert (forall a b s, end_name c a b = Some s -> s ∉ fresh) as Hdisj.
  { intros a b s Hs Hin. rewrite Forall_forall in Hfresh. by apply (Hfresh s Hin), (ok_end c Hc a b s Hs). }
  split; cbn.
  - apply Hc.
  - by rewrite length_insert.
  - rewrite length_insert. apply Hc.
  - intros j names Hj. destruct (decide (i = j)) as [<-|Hne].
    + rewrite list_lookup_insert_eq in Hj by lia. by injection Hj as <-.
    + rewrite list_lookup_insert_ne in Hj by done. by apply (ok_row c Hc j).
  - intros j Hj. destruct (decide (i = j)) as [<-|Hne].
    + rewrite list_lookup_insert_eq by lia. by exists fresh.
    + rewrite list_lookup_insert_ne by done. by apply (ok_up c Hc).
  - intros a b a' b' s. rewrite !Hname. destruct (decide (a = i)) as [Ha|Ha], (decide (a' = i)) as [Ha'|Ha']; intros Hs Hs'.
    + subst. split; [done|]. by apply (NoDup_lookup fresh b b' s).
    + exfalso. by apply (Hdisj _ _ _ Hs'), (list_elem_of_lookup_2 _ _ _ Hs).
    + exfalso. by apply (Hdisj _ _ _ Hs), (list_elem_of_lookup_2 _ _ _ Hs').
    + by apply (ok_inj c Hc a b a' b' s).
  - intros a b s. rewrite Hname, He. change (is_connected c' a) with (is_connected c a).
    change (is_connected c' b) with (is_connected c b). unfold is_enabled. cbn. case_decide as Ha.
    + intros Hs. destruct (Hn b s Hs) as [-> ->]. subst a. rewrite Hdown. split_and!; [|done..].
      right. exists s. split; [|done]. by eapply list_elem_of_lookup_2.
    + intros Hs. destruct (ok_end c Hc a b s Hs) as (Hin & Hcn & Hen).
      destruct (Ho (IString s)) as [-> ->]. { intros s' Hs' [= <-]. by apply (Hdisj a b s). }
      split_and!; [by left|done|exact Hen].
  - intros e Hold. destruct (decide (e ∈ IString <$> fresh)) as [Hin|Hout].
    + apply list_elem_of_fmap in Hin as (s & -> & [j Hj]%list_elem_of_lookup).
      exfalso. apply (Hold i j s); [|done]. rewrite Hname. by rewrite decide_True.
    + destruct (Ho e) as [-> _]. { intros s Hs ->. apply Hout, list_elem_of_fmap. by exists s. }
      destruct (decide (Exists (fun j => end_name c i j = (match e with IString s => Some s | _ => None end) /\
                                         end_name c i j <> None) (seq 0 (n c)))) as [Hex|Hnex].
      * apply Exists_exists in Hex as (j & _ & Hj & Hsome). destruct e as [| |s]; [congruence..|].
        destruct (ok_end c Hc i j s Hj) as (_ & _ & Hen). unfold is_enabled in Hen.
        by rewrite Hen, Hdown.
      * apply (ok_old c Hc). intros a b s Hs ->. destruct (decide (a = i)) as [->|Hai].
        -- apply Hnex, Exists_exists. exists b. split; [|by rewrite Hs].
           apply elem_of_seq. split; [lia|]. unfold end_name in Hs.
           destruct (endnames c !! i) as [[names|]|] eqn:Hr; [|done..]. cbn in Hs.
           apply lookup_lt_Some in Hs. rewrite (ok_row c Hc i names Hr) in Hs. lia.
        -- apply (Hold a b s); [|done]. rewrite Hname. by rewrite decide_False.
  - intros j names Hj. destruct (decide (i = j)) as [<-|Hne].
    + rewrite lookup_insert_eq, list_lookup_insert_eq by (rewrite (ok_rafts c Hc); lia).
      eexists _, _. split; [done|]. split; [done|]. eexists _, _.
      split; [by apply list_lookup_middle|]. cbn. by rewrite lookup_insert_eq.
    + rewrite list_lookup_insert_ne in Hj by done. rewrite lookup_insert_ne by (intros [=]; lia).
      rewrite list_lookup_insert_ne by done.
      rewrite Es. destruct (ok_server c Hc j names Hj) as (addr & p & Haddr & Hp & rs & svc & Hrs & Hsvc).
      exists addr, p. split; [done|]. split; [done|]. exists rs, svc. split; [|done].
      cbn. rewrite Eh. by apply lookup_app_l_Some.
Qed.

(** ** [make_config] *)

Lemma names_upto_elem (names : nat -> list string) k s :
  s ∈ concat (names <$> seq 0 k) <-> exists i, (i < k)%nat /\ s ∈ names i.
Proof.
  rewrite list_elem_of_In, in_concat. split.
  - intros (l & Hl & Hs). apply list_elem_of_In, list_elem_of_fmap in Hl as (i & -> & Hi%elem_of_seq).
    exists i. split; [lia|by apply list_elem_of_In].
  - intros (i & Hi & Hs). exists (names i). split; [|by apply list_elem_of_In].
    apply list_elem_of_In, list_elem_of_fmap. exists i. split; [done|]. apply elem_of_seq. lia.
Qed.

Lemma distinct_names_row size names i :
  distinct_names size names -> (i < size)%nat ->
  NoDup (names i) /\ forall s, s ∈ names i -> s ∉ concat (names <$> seq 0 i).
Proof.
  intros [_ Hnd] Hi. replace size with (i + S (size - S i))%nat in Hnd by lia.
  rewrite seq_app, fmap_app, concat_app in Hnd. cbn in Hnd.
  apply NoDup_app in Hnd as (_ & Hdis & Hnd). apply NoDup_app in Hnd as (Hnd & _ & _).
  split; [done|]. intros s Hs Hin. apply (Hdis s Hin), elem_of_app. by left.
Qed.

Lemma empty_config_ok size unreliable :
  config_ok (set_net (LongDelays true (net (setunreliable unreliable (empty_config size))))
               (setunreliable unreliable (empty_config size))).
Proof.
  assert (forall i names, repeat (@None (list string)) size !! i <> Some (Some names)) as Hno.
  { intros i names Hi%list_elem_of_lookup_2. by apply list_elem_of_In, repeat_spec in Hi. }
  split; cbn; try (rewrite repeat_length; done).
  - intros i names Hi. by destruct (Hno i names).
  - intros i. unfold is_connected. cbn. destruct (repeat false size !! i) as [b|] eqn:Hi; [|done].
    apply list_elem_of_lookup_2, list_elem_of_In, repeat_spec in Hi as ->. done.
  - intros i j i' j' s. unfold end_name. cbn. destruct (repeat None size !! i) as [[names|]|] eqn:Hi; [|done..].
    by destruct (Hno i names).
  - intros i j s. unfold end_name. cbn. destruct (repeat None size !! i) as [[names|]|] eqn:Hi; [|done..].
    by destruct (Hno i names).
  - intros e _. by rewrite lookup_empty.
  - intros i names Hi. by destruct (Hno i names).
Qed.

Lemma make_config_ok size unreliable names Make :
  distinct_names size names ->
  exists c, make_config size unreliable names Make = Ret c /\ config_ok c /\ all_rows c /\ n c = size /\
    (forall i, (i < size)%nat -> is_connected c i = true) /\
    (forall i, (i < size)%nat -> rafts c !! i = Some (Some (ref (Make i)))).
Proof.
  intros Hd. unfold make_config. set (c0 := set_net (LongDelays true _) _).
  destruct (for_each_ind (fun k c => config_ok c /\ n c = size /\ (forall i, is_connected c i = false) /\
      (forall e, e ∈ ends (net c) <-> exists s, s ∈ concat (names <$> seq 0 k) /\ e = IString s) /\
      forall i, (i < k)%nat -> (exists row, endnames c !! i = Some (Some row)) /\
                               rafts c !! i = Some (Some (ref (Make i))))
    (fun i => start1 i (names i) (Make i)) size c0) as (c1 & E1 & Hc1 & Hn1 & Hdown & _ & Hrows).
  - split; [apply empty_config_ok|]. split; [done|]. split; [|split; [|intros i Hi; lia]].
    + intros i. unfold is_connected. cbn. destruct (repeat false size !! i) as [b|] eqn:Hi; [|done].
      by apply list_elem_of_lookup_2, list_elem_of_In, repeat_spec in Hi as ->.
    + intros e. split; [intros []%not_elem_of_empty|by intros (s & Hs%not_elem_of_nil & _)].
  - intros i c Hi (Hc & Hn & Hdown & Hends & Hrows). destruct (distinct_names_row size names i Hd Hi) as [Hnd Hnew].
    destruct (start1_ok c i (names i) (Make i) Hc ltac:(lia) (Hdown i)) as (c' & E & Hc' & Hn' & Hcn & Hrow & Hraft & Hends').
    { split_and!; [rewrite Hn; by apply Hd|done|]. apply Forall_forall. intros s Hs [s' [Hs' [= <-]]]%Hends.
      by apply (Hnew s). }
    exists c'. split; [done|]. split; [done|]. split; [by rewrite Hn'|]. split; [|split].
    + intros j. unfold is_connected. rewrite Hcn. apply Hdown.
    + intros e. rewrite Hends', Hends, seq_S, fmap_app, concat_app. cbn. rewrite app_nil_r.
      setoid_rewrite elem_of_app. naive_solver.
    + intros j Hj. rewrite Hrow, Hraft. destruct (decide (i = j)) as [<-|Hne].
      * split; [eexists|]; apply list_lookup_insert_eq; [rewrite (ok_rows c Hc)|rewrite (ok_rafts c Hc)]; lia.
      * rewrite !list_lookup_insert_ne by done. apply Hrows. lia.
  - rewrite E1, bind_Ret_l.
    destruct (for_each_ind (fun k c => config_ok c /\ all_rows c /\ n c = size /\ rafts c = rafts c1 /\
        forall i, (i < k)%nat -> is_connected c i = true) connect size c1) as (c2 & E2 & Hc2 & Hr2 & Hn2 & Hraft & Hup).
    + split; [done|]. split; [intros i Hi; apply Hrows; lia|]. split; [done|]. split; [done|]. intros i Hi. lia.
    + intros i c Hi (Hc & Hr & Hn & Hraft & Hup).
      destruct (connect_ok c i Hc Hr ltac:(lia)) as (c' & E & Hc' & Hr' & Hn' & Hraft' & Hup').
      exists c'. split; [done|]. split; [done|]. split; [done|]. split; [by rewrite Hn'|].
      split; [congruence|]. intros j Hj. rewrite Hup'. case_decide; [done|]. apply Hup. lia.
    + exists c2. split_and!; [done..|]. intros i Hi. rewrite Hraft. by apply Hrows.
Qed.

(** ** The network at work *)

(** A method call works on the object its receiver points to. *)
Context (ref_kept : forall m o a o' r,
  m ∈ methods_of_Raft -> func m o a = Ret (o', r) -> ref o' = ref o).

Lemma service_methods_in name o (ms : list (@method obj A)) mn m :
  methods (MakeService name o ms) !! mn = Some m -> m ∈ ms.
Proof.
  cbn. assert (forall acc : gmap string (@method obj A), foldl (fun acc m => if handler_like m then <[mname m := m]> acc else acc)
    acc ms !! mn = Some m -> acc !! mn = Some m \/ m ∈ ms) as Hgen.
  { induction ms as [|m' ms IH]; intros acc H; [by left|]. cbn in H.
    destruct (IH _ H) as [Ha|Hin]; [|right; by right]. destruct (handler_like m'); [|by left].
    apply lookup_insert_Some in Ha as [[_ <-]|[_ ?]]; [right; left|by left]. }
  intros H. destruct (Hgen _ H) as [He|]; [by rewrite lookup_empty in He|done].
Qed.

(** What the goroutines of the calls leave alone: the wiring, and which
    objects the servers serve. *)
Definition same_wiring (nt nt' : network) : Prop :=
  ends nt' = ends nt /\ enabled nt' = enabled nt /\ connections nt' = connections nt /\
  servers nt' = servers nt /\ forall addr p, serves nt addr p -> serves nt' addr p.

Lemma same_wiring_heap (nt nt' : network) :
  ends nt' = ends nt -> enabled nt' = enabled nt -> connections nt' = connections nt ->
  servers nt' = servers nt -> heap nt' = heap nt -> same_wiring nt nt'.
Proof. intros ???? Eh. split_and!; [done..|]. unfold serves. by rewrite Eh. Qed.

(** The server at [addr] is replaced by one with the same services but for
    the state of their objects. *)
Lemma serves_insert nt h srv rs rs' :
  heap nt !! srv = Some rs -> h = <[srv := rs']> (heap nt) ->
  (forall svc, services rs !! "Raft" = Some svc ->
     methods svc = methods (MakeService "Raft" (rcvr svc) methods_of_Raft) ->
     exists svc', services rs' !! "Raft" = Some svc' /\ methods svc' = methods svc /\
       ref (rcvr svc') = ref (rcvr svc)) ->
  forall addr p, serves nt addr p -> serves (set_heap h nt) addr p.
Proof.
  intros Hrs -> Hsame addr p (rs0 & svc & Hrs0 & Hsvc & Hm & Hp). unfold serves. cbn [heap set_heap].
  destruct (decide (srv = addr)) as [->|Hne].
  - rewrite Hrs in Hrs0. injection Hrs0 as <-.
    destruct (Hsame svc Hsvc Hm) as (svc' & Hsvc' & Hm' & Hr').
    exists rs', svc'. split; [by eapply list_lookup_insert_eq, lookup_lt_Some|].
    split; [done|]. split; [by rewrite Hm', Hm|congruence].
  - exists rs0, svc. by rewrite list_lookup_insert_ne.
Qed.

Lemma dispatch_wiring k c srv rs rs' x nt :
  heap nt !! srv = Some rs -> Server_dispatch (cmeth c) rs = Ret (rs', x) ->
  same_wiring nt (set_call k c (set_heap (<[srv := rs']> (heap nt)) nt)).
Proof.
  intros Hrs Hd. assert (services rs' = services rs) as Hs.
  { unfold Server_dispatch in Hd. repeat case_match; try done. by injection Hd as <- _. }
  split_and!; [done..|]. apply (serves_insert nt _ srv rs rs' Hrs eq_refl).
  intros svc Hsvc _. exists svc. by rewrite Hs.
Qed.

Lemma run_wiring k c ran' srv rs svc service meth args svc' reply b nt :
  heap nt !! srv = Some rs -> services rs !! service = Some svc ->
  Service_dispatch meth args svc = Ret (svc', reply, b) ->
  same_wiring nt (set_call k c (set_ran ran' (set_heap
    (<[srv := {| services := <[service := svc']> (services rs); count := count rs |}]> (heap nt)) nt))).
Proof.
  intros Hrs Hsvc Hd. split_and!; [done..|].
  apply (serves_insert nt _ srv rs _ Hrs eq_refl). intros svc0 Hsvc0 Hm. cbn.
  destruct (decide (service = "Raft")) as [->|Hne]; [|rewrite lookup_insert_ne by done; by exists svc0].
  rewrite lookup_insert_eq. exists svc'. split; [done|].
  rewrite Hsvc in Hsvc0. injection Hsvc0 as <-.
  unfold Service_dispatch in Hd. destruct (methods svc !! meth) as [m|] eqn:Hmeth; [|done].
  bind_inv Hd. destruct r as [o r]. injection Hd as <- _ _. cbn. split; [done|].
  eapply ref_kept; [|exact E]. rewrite Hm in Hmeth. by eapply service_methods_in.
Qed.

Lemma call_step_wiring e k c nt nt' : call_step e k c nt = Ret nt' -> same_wiring nt nt'.
Proof.
  intros Hs. destruct e; cbn in Hs.
  all: try (repeat (case_match; try discriminate Hs); simplify_eq; by apply same_wiring_heap).
  - destruct (dph c); try by repeat case_match. destruct (heap nt !! srv) as [rs|] eqn:Hrs.
    2: by repeat case_match.
    destruct (Server_dispatch (cmeth c) rs) as [[rs' [? ?]]| |] eqn:Hd; try (by repeat case_match).
    assert (Ret (set_call k (set_d (DCall srv s s0) c) (set_heap (<[srv:=rs']> (heap nt)) nt)) = Ret nt')
      as [= <-] by (by repeat case_match). by eapply dispatch_wiring.
  - destruct (dph c); try by repeat case_match. destruct (heap nt !! srv) as [rs|] eqn:Hrs.
    2: by repeat case_match.
    cbn in Hs. destruct (services rs !! service) as [svc|] eqn:Hsvc; [|by repeat case_match].
    cbn in Hs. destruct (Service_dispatch meth (cargs c) svc) as [[[svc' reply] b]| |] eqn:Hd;
      try (by repeat case_match).
    assert (Ret (set_call k (set_d (DReady b) c) (set_ran (ran nt ++ [(k, reply)]) (set_heap
      (<[srv := {| services := <[service := svc']> (services rs); count := count rs |}]> (heap nt)) nt)))
      = Ret nt') as [= <-] by (by repeat case_match). by eapply run_wiring.
Qed.

Lemma exec_wiring (e : @event obj A) nt nt' :
  match e with EAdmin _ => false | _ => true end = true -> exec e nt = Ret nt' -> same_wiring nt nt'.
Proof.
  intros Ha Hs. destruct e; try done; unfold exec in Hs; cbn [call_of] in Hs.
  1: case_decide; [|done]; injection Hs as <-; by apply same_wiring_heap.
  1: case_match; [|done]; injection Hs as <-; by apply same_wiring_heap.
  all: destruct (calls nt !! k) as [c|]; [|done]; by eapply call_step_wiring.
Qed.

Lemma config_ok_wiring c nt :
  config_ok c -> same_wiring (net c) nt -> config_ok (set_net nt c).
Proof.
  intros Hc (E1 & E2 & E3 & E4 & E5). split; cbn; try apply Hc.
  - intros i j s. unfold is_enabled. rewrite E1, E2, E3. apply (ok_end c Hc).
  - intros e. rewrite E2. apply (ok_old c Hc).
  - intros i names Hi. rewrite E4. destruct (ok_server c Hc i names Hi) as (addr & p & ? & ? & ?).
    exists addr, p. auto.
Qed.

Lemma all_rows_insert c i fresh :
  all_rows c -> length (endnames c) = n c -> forall j, (j < n c)%nat ->
  exists names, <[i := Some fresh]> (endnames c) !! j = Some (Some names).
Proof.
  intros Hr Hl j Hj. destruct (decide (i = j)) as [<-|Hne].
  - eexists. apply list_lookup_insert_eq. lia.
  - rewrite list_lookup_insert_ne by done. by apply Hr.
Qed.

Lemma run_op_ok o c :
  config_ok c -> all_rows c -> allowed o c = true ->
  match run_op o c with
  | Ret c' => config_ok c' /\ all_rows c' /\ n c' = n c /\
      rafts c' = match o with OStart i _ rf => <[i := Some (ref rf)]> (rafts c) | _ => rafts c end
  | _ => match o with OApplied _ _ | ONet _ => True | _ => False end
  end.
Proof.
  intros Hc Hr Ha. destruct o as [i|i|i fresh rf|b|b| |i m|e]; cbn [allowed] in Ha; cbn [run_op].
  - apply bool_decide_eq_true_1 in Ha. by destruct (connect_ok c i Hc Hr Ha) as (c' & -> & ? & ? & ? & ? & _).
  - apply bool_decide_eq_true_1 in Ha. by destruct (disconnect_ok c i Hc Hr Ha) as (c' & -> & ? & ? & ? & ? & _).
  - apply andb_prop in Ha as [[Hi%bool_decide_eq_true_1 Hd%negb_true_iff]%andb_prop Hf%bool_decide_eq_true_1].
    destruct (start1_ok c i fresh rf Hc Hi Hd Hf) as (c' & -> & Hc' & Hn & _ & Hrow & Hraft & _).
    split; [done|]. split; [|done]. intros j. rewrite Hrow, Hn. by apply all_rows_insert; [|apply Hc].
  - split; [|done]. apply config_ok_wiring; [done|]. by apply same_wiring_heap.
  - split; [|done]. apply config_ok_wiring; [done|]. by apply same_wiring_heap.
  - split; [by destruct Hc; split|done].
  - destruct (apply_check i m (checker c)) as [t| |]; [|done..]. cbn. split; [by destruct Hc; split|done].
  - destruct (exec e (net c)) as [nt| |] eqn:He; [|done..]. cbn. split; [|done].
    apply config_ok_wiring; [done|]. eapply exec_wiring; [|exact He]. by destruct e.
Qed.

Lemma config_reachable_ok size c : config_reachable size c -> config_ok c /\ all_rows c /\ n c = size.
Proof.
  induction 1 as [unreliable names Make c Hd Hm|o c c' _ (Hc & Hr & Hn) Ha Ho].
  - destruct (make_config_ok size unreliable names Make Hd) as (c' & E & Hc & Hr & Hn & _). rewrite Hm in E.
    by injection E as <-.
  - pose proof (run_op_ok o c Hc Hr Ha) as H. rewrite Ho in H. destruct H as (? & ? & -> & _). by split_and!.
Qed.

(** ** Theorems *)

(** C19 The tests control who talks to whom, in every state that [make_config],
    [connect], [disconnect], restarts of disconnected servers, the settings and
    the network itself can lead to.  A request that server [i] sends to [j]
    finds the server added for [j] exactly when both are connected, and that
    server serves requests by calling the methods of [Raft] on the object
    [cfg.rafts[j]]; this is the one that the last [start1] of [j] made, as no
    other operation touches the table.  On any other pair, and on the ends of the
    instances that were there before a restart, a request finds no server; and
    no two pairs share an end. *)
Theorem connected_servers_reach_each_other size c :
  config_reachable size c ->
  (forall i j, (i < size)%nat -> (j < size)%nat -> exists name addr p,
     end_name c i j = Some name /\ IString name ∈ ends (net c) /\
     server_at (net c) (IInt (Z.of_nat j)) = Some addr /\
     rafts c !! j = Some (Some p) /\ serves (net c) addr p /\
     readEndnameInfo (IString name) (net c) =
       if is_connected c i && is_connected c j then Some (IInt (Z.of_nat j), addr) else None) /\
  (forall o c', allowed o c = true -> run_op o c = Ret c' ->
     rafts c' = match o with OStart i _ rf => <[i := Some (ref rf)]> (rafts c) | _ => rafts c end) /\
  (forall e, (forall i j name, end_name c i j = Some name -> e <> IString name) ->
     readEndnameInfo e (net c) = None) /\
  (forall i j i' j' name, end_name c i j = Some name -> end_name c i' j' = Some name -> i = i' /\ j = j').
Proof.
  intros H. destruct (config_reachable_ok size c H) as (Hc & Hr & <-).
  split; [|split; [|split; [|apply (ok_inj c Hc)]]].
  - intros i j Hi Hj. destruct (Hr i Hi) as [names Hn]. destruct (end_name_total c i j names Hc Hj Hn) as [s Hs].
    destruct (Hr j Hj) as [names' Hn'].
    destruct (ok_server c Hc j names' Hn') as (addr & p & Haddr & Hraft & Hserves).
    destruct (ok_end c Hc i j s Hs) as (Hin & Hcn & Hen). exists s, addr, p.
    assert (server_at (net c) (IInt (Z.of_nat j)) = Some addr) as Hsrv by (unfold server_at; by rewrite Haddr).
    split_and!; [done..|]. unfold readEndnameInfo. unfold is_enabled in Hen.
    rewrite Hen, Hcn. cbn [from_option id]. rewrite Hsrv. by destruct (_ && _).
  - intros o c' Ha Ho. pose proof (run_op_ok o c Hc Hr Ha) as Hrun. rewrite Ho in Hrun. apply Hrun.
  - intros e He. unfold readEndnameInfo. by rewrite (ok_old c Hc e He).
Qed.

(** After [cleanup] nothing goes on: every loop of every server ends at its
    next condition, and the network takes no more calls; a test that has not
    failed took at most two minutes.  A second [cleanup] would close the
    network's channel again, and panic. *)
Theorem cleanup_stops rafts failed elapsed c rafts' c' :
  cleanup rafts failed elapsed c = Ret (rafts', c') ->
  length rafts' = length rafts /\
  (forall i rf s, rafts' !! i = Some (Some rf) -> still s rf = false) /\
  done_closed (net c') = true /\ (failed = false -> elapsed <= 120 * 10 ^ 9) /\
  cleanup rafts' failed elapsed c' = Crash UserPanic.
Proof.
  unfold cleanup. intros Hr. bind_inv Hr. bind_inv Hr. injection Hr as <- <-.
  unfold Cleanup in E. destruct (done_closed (net c)); [done|]. injection E as <-.
  unfold checkTimeout in E0. split_and!.
  - by rewrite length_map.
  - intros i rf s. change (@map (option Raft)) with (@fmap list _ (option Raft)). rewrite list_lookup_fmap.
    intros ([q|] & _ & [=->])%fmap_Some. done.
  - done.
  - intros ->. cbn in E0. case_bool_decide; [done|lia].
  - done.
Qed.

(** The harness itself does not fail: with distinct end names [make_config]
    returns, with every server connected and [cfg.rafts] what [Make] returned;
    and in every reachable state connecting and disconnecting a server and
    restarting a disconnected one return, and [connect] and [disconnect] change
    the connection of that server only. *)
Theorem harness_never_fails size unreliable names Make :
  distinct_names size names ->
  (exists c, make_config size unreliable names Make = Ret c /\
     forall i, (i < size)%nat -> is_connected c i = true /\ rafts c !! i = Some (Some (ref (Make i)))) /\
  (forall c o, config_reachable size c -> allowed o c = true ->
     match o with OApplied _ _ | ONet _ => True | _ => exists c', run_op o c = Ret c' end) /\
  (forall c c' i, config_reachable size c -> (i < size)%nat ->
     (connect i c = Ret c' -> forall j, is_connected c' j = if decide (i = j) then true else is_connected c j) /\
     (disconnect i c = Ret c' -> forall j, is_connected c' j = if decide (i = j) then false else is_connected c j)).
Proof.
  intros Hd. split_and!.
  - destruct (make_config_ok size unreliable names Make Hd) as (c & E & _ & _ & _ & Hup & Hraft).
    exists c. split; [done|]. auto.
  - intros c o H Ha. destruct (config_reachable_ok size c H) as (Hc & Hr & _).
    pose proof (run_op_ok o c Hc Hr Ha) as Ho. destruct o; try done;
      destruct (run_op _ c); try done; by eexists.
  - intros c c' i H Hi. destruct (config_reachable_ok size c H) as (Hc & Hr & <-). split; intros E.
    + destruct (connect_ok c i Hc Hr Hi) as (c0 & E0 & _ & _ & _ & _ & Hup). rewrite E in E0. by injection E0 as ->.
    + destruct (disconnect_ok c i Hc Hr Hi) as (c0 & E0 & _ & _ & _ & _ & Hup). rewrite E in E0. by injection E0 as ->.
Qed.
End config.

(** ** A cluster of two servers *)

Definition ex_names (i : nat) : list string :=
  match i with 0%nat => ["a"; "b"] | _ => ["c"; "d"] end.
(** Objects with a number, which the method keeps, and a state. *)
Definition ex_ping : @method (Z * Z) (list Byte.byte) :=
  mkMethod "AppendEntries" true 3 true 0 (fun o a => Ret ((o.1, o.2 + 1), a)).
Definition ex_objects (i : nat) : Z * Z := (100 + Z.of_nat i, 0).

Lemma ex_ping_keeps m o a o' r :
  m ∈ [ex_ping] -> func m o a = Ret (o', r) -> (fst o' : Z) = fst o.
Proof. intros ->%list_elem_of_singleton H. cbn in H. by injection H as <- _. Qed.

Definition ex_make : outcome config := make_config [ex_ping] fst 2 true ex_names ex_objects.
Definition ex_config : config := value_or (empty_config 2) ex_make.
Definition ex_restart : outcome config := start1 [ex_ping] fst 0 ["e"; "f"] (102, 0) ex_config.
Definition ex_restarted : config := value_or ex_config ex_restart.
Definition ex_isolate : outcome config := disconnect 0 ex_restarted.
Definition ex_isolated : config := value_or ex_config ex_isolate.
Definition ex_split : config := value_or ex_config (disconnect 1 ex_config).

Lemma ex_names_distinct : distinct_names 2 ex_names.
Proof.
  split; [intros [|[|i]] Hi; [reflexivity..|lia]|].
  apply (bool_decide_eq_true_1 (NoDup (concat (ex_names <$> seq 0 2)))). vm_compute. reflexivity.
Qed.

Lemma ex_config_reachable : config_reachable [ex_ping] fst 2 ex_config.
Proof.
  apply (config_make [ex_ping] fst 2 true ex_names ex_objects); [exact ex_names_distinct|].
  apply value_or_Ret. vm_compute. reflexivity.
Qed.

Lemma ex_split_spec :
  disconnect 1 ex_config = Ret ex_split /\ config_reachable [ex_ping] fst 2 ex_split /\
  end_name ex_split 0 0 = Some "a" /\ end_name ex_split 0 1 = Some "b" /\
  is_connected ex_split 0 = true /\ is_connected ex_split 1 = false.
Proof.
  assert (disconnect 1 ex_config = Ret ex_split) as H by (apply value_or_Ret; vm_compute; reflexivity).
  split; [exact H|]. split.
  - apply (config_op [ex_ping] fst 2 (ODisconnect 1) ex_config); [exact ex_config_reachable|vm_compute; reflexivity|exact H].
  - split_and!; vm_compute; reflexivity.
Qed.

(** Restarting a server that is still connected does not do what [start1]
    says (the old instance's ends "can't send"): the ends of the instance before
    stay enabled and lead to the servers, and nothing closes them later, since
    [disconnect] only knows the new names. *)
Theorem restart_leaves_old_ends_open :
  exists (c c' c'' : @config (Z * Z) Z (list Byte.byte)) old, config_reachable [ex_ping] fst 2 c /\
    end_name c 0 1 = Some old /\
    start1 [ex_ping] fst 0 ["e"; "f"] (102, 0) c = Ret c' /\ fresh_names 2 ["e"; "f"] (net c) /\
    disconnect 0 c' = Ret c'' /\
    (forall i j, (i < 2)%nat -> (j < 2)%nat -> end_name c'' i j <> Some old) /\
    readEndnameInfo (IString old) (net c'') = Some (IInt 1, 1%nat).
Proof.
  exists ex_config, ex_restarted, ex_isolated, "b". split; [exact ex_config_reachable|].
  split; [vm_compute; reflexivity|]. split; [apply value_or_Ret; vm_compute; reflexivity|]. split.
  { apply (bool_decide_eq_true_1 (fresh_names 2 ["e"; "f"] (net ex_config))). vm_compute. reflexivity. }
  split; [apply value_or_Ret; vm_compute; reflexivity|]. split; [|vm_compute; reflexivity].
  assert (Forall (fun ij => end_name ex_isolated ij.1 ij.2 <> Some "b")
    [(0, 0); (0, 1); (1, 0); (1, 1)]%nat) as Hall.
  { apply (bool_decide_eq_true_1 (Forall _ _)). vm_compute. reflexivity. }
  rewrite Forall_forall in Hall. intros i j Hi Hj. apply (Hall (i, j)).
  clear -Hi Hj. destruct i as [|[|i]], j as [|[|j]]; (lia || (rewrite !elem_of_cons; tauto)).
Qed.

(** ** Witnesses *)

Lemma connected_servers_reach_each_other_witness :
  disconnect 1 ex_config = Ret ex_split /\ readEndnameInfo (IString "b") (net ex_split) = None /\
  exists addr, readEndnameInfo (IString "a") (net ex_split) = Some (IInt 0, addr) /\
    serves [ex_ping] fst (net ex_split) addr 100.
Proof.
  destruct ex_split_spec as (Hd & Hc & Ha & Hb & H0 & H1). split; [exact Hd|].
  destruct (connected_servers_reach_each_other [ex_ping] fst ex_ping_keeps 2 ex_split Hc)
    as (Hends & _ & _ & _).
  split.
  - destruct (Hends 0%nat 1%nat) as (name & addr & p & Hname & _ & _ & _ & _ & Hr); [lia|lia|].
    rewrite Hb in Hname. injection Hname as <-. rewrite Hr, H0, H1. reflexivity.
  - destruct (Hends 0%nat 0%nat) as (name & addr & p & Hname & _ & _ & Hp & Hs & Hr); [lia|lia|].
    rewrite Ha in Hname. injection Hname as <-. exists addr. split; [rewrite Hr, H0; reflexivity|].
    assert (rafts ex_split !! 0%nat = Some (Some 100)) as Hp' by (vm_compute; reflexivity).
    rewrite Hp' in Hp. injection Hp as <-. exact Hs.
Defined.

Lemma harness_never_fails_witness :
  exists c, ex_make = Ret c /\ is_connected c 1 = true /\ exists c', connect 0 ex_config = Ret c'.
Proof.
  destruct (harness_never_fails [ex_ping] fst ex_ping_keeps 2 true ex_names ex_objects ex_names_distinct)
    as ((c & Hc & Hup) & Hops & _).
  exists c. split; [exact Hc|]. split; [apply Hup; lia|].
  exact (Hops ex_config (OConnectServer 0) ex_config_reachable eq_refl).
Defined.
